(* ===== verification/_CoqProject ===== *)
-Q . S2P
Prelude.v
Double.v
Numerals.v
Tree.v
Values.v
Lexer.v
Operators.v
OperatorFacts.v
FlatMap.v
AdStore.v
Parser.v
Unparser.v
LexerFacts.v
NaturalCmp.v
LexerLaws.v
LexerProgress.v
AdStoreFacts.v
AdStoreLaws.v
Eval.v
Functions.v
EvalFacts.v
ParserStore.v
FunctionsFacts.v
FunctionsLaws.v
EvalLaws.v
MatchClassAd.v
Flatten.v
FlattenFacts.v
FlattenLaws.v
FlattenResidual.v
FlattenMerge.v
FlattenOptimize.v
MatchFacts.v
MatchLaws.v
ParserFacts.v
Grammar.v
TextFacts.v
RoundTrip.v
TextLaws.v
AdText.v
Ranger.v
RangerFacts.v
RangerLaws.v
CheckEvents.v
CheckEventsLaws.v
HashTable.v
HashTableFacts.v
HashTableLaws.v
ClassAdLog.v
ClassAdLogFacts.v
ClassAdLogLoad.v
ClassAdLogRecovery.v
ClassAdLogLaws.v
AdTable.v
AdTableLaws.v
JobAd.v
LogRotation.v
LogRotationFacts.v
LogRotationLaws.v
LogReader.v
LogReaderFacts.v
LogReaderLaws.v
UserPolicy.v
UserPolicyLaws.v
UserPolicySpec.v
ArgList.v
ArgListLaws.v
Env.v
EnvLaws.v
Calendar.v
CronTab.v
CronTabFacts.v
CronTabLaws.v
