(* ===== verification/Prelude.v ===== *)
(** * Verification of the ClassAd library of HTCondor

    HTCondor describes jobs, machines and every daemon by ClassAds, tables from names to
    expressions that refer to one another, and matches them by evaluating their
    expressions. This development models the library that implements them
    (src/src/classad/) and proves what its users rely on, and parts of the daemons
    (src/src/condor_utils/): the transaction log that makes a table of ClassAds persistent
    (the job queue of the schedd is one) and its rotation, the hash table it is kept in, the
    policy that holds, releases, removes or vacates a job, the argument lists, environments
    and schedules that the ClassAd of a job holds as texts, the check of job events, and sets
    of job ids.

    ** The program and the files that model it

    The library has a data layer (values, expression trees, the attribute table of a
    ClassAd), an evaluator that runs over the shared, mutable ClassAds, the match ClassAd
    that pairs two ClassAds, and a lexer, parser and unparser. The files, in order of
    dependency:

    - [Prelude] (this file): outcomes of stateful code, machine integers, bytes of strings,
      comparison of names without regard to case, shared tactics and hints.
    - [Double]: C++ [double] values as binary64, through the Standard Library's [SpecFloat].
    - [Tree]: [ExprTree] with one constructor per node class (exprTree.h, attrrefs.h,
      operators.h, fnCall.h, exprList.h, literals.h), [Value] (value.h), [SetParentScope],
      [MakeOperation].
    - [Values]: accessors and conversions of values, literals (value.cpp, literals.h).
    - [Operators], [OperatorFacts]: [Operation::_doOperation] and all it calls
      (operators.cpp), and its laws.
    - [FlatMap]: the sorted vector that holds the attributes (classad_flat_map.h), and the proof
      that it implements a finite map with case-insensitive keys.
    - [AdStore], [AdStoreFacts], [AdStoreLaws]: the ClassAds as objects in a store indexed
      by address, with lookup through chained parents, insertion, deletion, removal,
      copying, updating, comparison, pruning and dirty tracking (classad.cpp, classad.h).
    - [Eval], [EvalFacts], [EvalLaws]: [_Evaluate] of every node class, lookup through the
      scopes, [EvaluateAttr] and its siblings (exprTree.cpp, attrrefs.cpp, exprList.cpp,
      operators.cpp, classad.cpp).
    - [NaturalCmp]: the natural order of strings, by which versions are compared
      (natural_cmp.cpp).
    - [Functions], [ParserStore], [FunctionsFacts], [FunctionsLaws]: the built-in functions and
      their dispatch table (fnCall.cpp, and the conversion to strings of value.cpp), what
      parsing does to the store (for [eval]), the functions inside the evaluator, and what
      they compute.
    - [MatchClassAd], [MatchFacts], [MatchLaws]: the match ClassAd (matchClassad.cpp).
    - [Flatten]: partial evaluation, [_Flatten] of every node class with the [combine] of
      operators.cpp, and [OptimizeAdForMatchmaking] (matchClassad.cpp), which flattens the
      requirements of a ClassAd. [FlattenFacts] has what it leaves alone, [FlattenLaws] the
      constants, [FlattenResidual] the residual trees, [FlattenMerge] the merging of integers
      and the corners, [FlattenOptimize] the optimisation and its undoing.
    - [Numerals]: decimal text of integers and reals (util.cpp, and the library calls of the
      lexer and the unparser).
    - [Lexer], [LexerFacts], [LexerLaws], [LexerProgress]: the lexer over strings (lexer.cpp,
      lexerSource.cpp, lexer.h), the text each token is read from, and that every call
      returns and gets further.
    - [Parser], [ParserFacts], [Grammar]: the recursive descent over any source of tokens
      (source.cpp), that it returns, and the grammar it implements.
    - [Unparser]: the text of trees and ClassAds (sink.cpp), in the new and in the old
      syntax.
    - [TextFacts], [RoundTrip], [TextLaws], [AdText]: the lexer as a source of tokens, the
      round trips, and the texts matchClassad.cpp parses.

    - [CheckEvents], [CheckEventsLaws]: the consistency check of job events that DAGMan runs
      over its logs (check_events.cpp).
    - [Ranger], [RangerFacts], [RangerLaws]: sets of integers or job ids as ordered ranges
      (ranger.h, ranger.cpp), over the interface [Element] with the laws
      [RangerFacts.ElementOrder] and [RangerLaws.ElementText].
    - [HashTable], [HashTableFacts], [HashTableLaws]: the chained hash table of the daemons,
      with its resizing, its cursor and its registered iterators (HashTable.h,
      HashTable.cpp).
    - [ClassAdLog]: log records, their text and their reading (log.cpp, classad_log.cpp),
      transactions (log_transaction.cpp), loading, and the operations of [ClassAdLog]
      (classad_log.h), over the interface [ClassAdLog.DataStructure] of a data structure
      records are played on. [ClassAdLogFacts] has the round trip of a record,
      [ClassAdLogLoad] that loading returns, [ClassAdLogRecovery] what a file that ends
      anywhere holds, [ClassAdLogLaws] the promise of the log.
    - [AdTable], [AdTableLaws]: the table of ClassAds as that data structure: what records do
      to a hash table of addresses and the store (the [Play] of classad_log.cpp,
      [ClassAd::InsertViaCache] without the cache).
    - [JobAd]: what is stored in the ClassAd of a job under a top-level name, as seen by its
      later evaluation.
    - [LogRotation], [LogRotationFacts], [LogRotationLaws]: a table written as a log of its
      own, the log replaced by it, the copies that are kept of the replaced logs, and the
      start on a log that was not clean (classad_log.cpp, classad_log.h).
    - [LogReader], [LogReaderFacts], [LogReaderLaws]: the readers that follow the log of
      another process by polling its file, over the interface
      [LogReader.ClassAdLogConsumer], and the iterator of the Python bindings
      (ClassAdLogEntry.cpp, ClassAdLogParser.cpp, ClassAdLogProber.cpp, ClassAdLogReader.cpp).
    - [UserPolicy], [UserPolicyLaws], [UserPolicySpec]: the policies of the configuration,
      what [AnalyzePolicy] decides for a job and how [FiringReason] explains it
      (user_job_policy.cpp, user_job_policy.h, [ConstraintHolder] of compat_classad_util.h).
      [UserPolicySpec] has the decision as a table of rules.
    - [ArgList], [ArgListLaws]: the arguments of a job in the V1 (Unix and Windows), V2 and
      quoted syntaxes, and the two attributes a job keeps them in (condor_arglist.h,
      condor_arglist.cpp).
    - [Env], [EnvLaws]: the environment of a job, likewise (env.h, env.cpp).
    - [Calendar]: dates (date_util.cpp), the conversions of the C library between times and
      dates in UTC, and the interface [Zone] with its [ZoneLaws].
    - [CronTab], [CronTabFacts], [CronTabLaws]: the schedule of a job and the search for its
      next run time (condor_crontab.h, condor_crontab.cpp), over a [Zone].

    Two interfaces separate the text layer: [TokenSource] is what the parser calls;
    [ParserFacts.TokenProgress] (tokens come to an end) and [Grammar.TokenStream] (which
    tokens come next) are what its theorems need. [LexerProgress] and [TextFacts] provide
    both for the lexer.

    ** How the code is modelled

    A pointer to a ClassAd is an address ([adref], a positive) in a finite map, the store
    ([heap]); ClassAds nest, chain to each other and share scopes, so every operation takes
    the store and returns it. The other nodes of an expression have one owner and are
    values; each carries the address of the ClassAd it was inserted into, the [parentScope]
    of the code. Evaluation is a program of the monad [M] over the store and the [EvalState]
    (recursion budget, root and current scope). Integers are [Z] with their 64-bit (or
    32-bit) wrap-around written out. Strings are the bytes they are in C++; names are
    compared up to their first zero byte and without regard to ASCII case.

    A result [None] of a store operation, or [NoFuel] of an evaluation, is a call without
    outcome: a dangling pointer, or a C++ recursion that does not end. [Except] is a call of
    [CLASSAD_EXCEPT]. The loops of the code that walk through the store have fuel: lookup
    through the chain and through the scopes have the size of the store, which is enough
    whenever the C++ recursion ends ([AdStoreFacts.Lookup_terminates]); copies and
    comparisons have the same bound on the nesting depth. [Evaluate] takes its fuel as an
    argument: [EvalLaws.plain_evaluation_terminates] gives a sufficient amount, and
    [EvalFacts.Evaluate_fuel] says that more fuel gives the same answer. The loops of the
    lexer have the number of characters that are left; the parser takes its fuel as an
    argument, and [TextLaws.ParseExpression_returns] shows that the depth the code allows
    (1000) and two tokens per character are enough. The loops that read a log have the
    number of characters left, which [ClassAdLogLoad.LoadClassAdLog_ends] shows to be enough.

    A hash table has its chains as lists, and the cursor and the iterators name the node they
    point to by its key ([None] of an operation is a dangling pointer, as above). A file that
    is written has its contents and how much of them is durable; a crash leaves any part of
    the contents from the start that has the durable ones. A file that is read is the text
    that is left of it. Writing to a file is taken to succeed unless the record refuses; in a
    rotation the answers of the other system calls ([LogRotation.SystemCalls]: those on the
    copies and the files, [fflush] and [condor_fdatasync]) are an argument, and the theorems
    say what is left for each of them.

    ** What is proved

    - Operators: no operand makes [_doOperation] abort, what each operator computes on two
      integers ([OperatorFacts.operators_on_integers]), comparison is coherent, logic is
      three-valued Kleene logic with errors.
    - Attribute table: the sorted vector refines a finite map under every sequence of
      insertions and removals.
    - Store: every store that the operations on ClassAds reach ([AdStoreFacts.ad_step], not
      [ClassAd::Flatten]) has ordered tables and scopes set; what [Insert],
      [Delete], [Copy], [PruneChildAd] and [Lookup] do, seen through [Lookup].
    - Evaluation: it changes no existing ClassAd and restores its state, also with the
      built-in functions, of which [strcat] and [join] can leave a lower recursion budget;
      it ends on circular references; short-circuiting does not change values.
    - Built-in functions: the natural order is a total order that compares numbers by value;
      the list functions compute what they are named after on lists of integers;
      [stringListsIntersect] finds the common elements; [substr] stays inside the string;
      [quantize] gives the next multiple; the text of an interval can be read back. The
      section of corners of [FunctionsLaws] runs the places where results depend on the
      order of a list, the spelling of a name or a failed argument.
    - Matching: the match ClassAd is built as intended, its contexts resolve [my] and
      [target], a match holds when both sides accept, and removal gives the ClassAds back.
      [MatchClassAd] builds its ClassAds from trees; [AdText.match_texts_denote] shows that
      the texts the code parses denote them.
    - Flattening: it leaves existing ClassAds alone; a constant expression of the class
      [FlattenLaws.folds] (no lists, subscripts, scoped references, nested ClassAds or
      [e1 ?: e2]) flattens to the value that evaluation gives it; for the class
      [FlattenResidual.simple] (names without a scope that are not special, comparisons,
      subtraction, division, remainder, shifts, the unary operators and conditionals with
      three operands) the result has the value of the expression
      ([FlattenResidual.value_of] is the reference semantics that evaluation implements and
      flattening preserves); the integers of a sum are merged, outside of its parentheses
      and inside each pair, without changing it; [UnoptimizeAdForMatchmaking] gives the
      ClassAd back. In general flattening does not preserve values: the corners of
      [FlattenMerge] run the places where it drops an operand, differs on [?:], [&&] and
      lists, leaves expressions without their scope, or looks names up in the wrong one.
    - Text: lexer and parser return on every text; looking at a token changes nothing; the
      parser implements the grammar of the precedence levels; trees and ClassAds that are
      [printable] survive printing and parsing. The section [corners] of [TextLaws] runs the places where the
      code departs from its comments.

    - Job events: without tolerance the check accepts exactly the logs in which every job
      goes through its phases; allowing more is monotone; what is an error when almost
      everything is allowed.
    - Rangers: the forest of ranges refines a set, is determined by it, survives its text,
      and iteration enumerates it.
    - Hash table: it refines a finite map under every sequence of calls; a walk sees every
      entry that stays exactly once, whatever is removed meanwhile.
    - ClassAd log: records survive writing and reading; loading returns on every file;
      what the table says of a transaction's keys is what its commit makes true; and the
      promise of the log: after a crash that leaves the durable part of the file or more,
      loading plays a prefix of what was committed, transactions whole or not at all, with
      everything that was durable. After a rotation the log is the old one or a new one that
      holds the same table, complete when the flush succeeded and durable when the sync did
      too; the code does not look at either, so that a rotation can lose the table
      ([LogRotationLaws.rotation_without_flush]). The copies kept are the last ones, apart
      from those that could not be removed.
    - Readers of the log: if between polls the file only grew, also by a part of a record
      that is not a comment, or was rotated to two records or more, the consumer has been
      told its whole records, and has the data that a restart of the writer would load; the
      iterator never shows an entry. The corners of [LogReaderLaws] have the rotation after
      which polling fails for good and the comment that delays it.
    - Policy: an action fits the state of the job, every action is explained, and the
      decision is the first rule that holds of an ordered table. The section of corners of
      [UserPolicySpec] runs the places where policies are lost or explained by another's
      reason.
    - Arguments and environments: each syntax is read back as what was written, also through
      the ClassAd of a job and for every version that is to read it (an environment if its
      names have no equals sign, and unless the job has only a V1 one); which texts are
      refused; an environment is a finite map under every sequence of calls.
    - Schedules: the values a field stands for; the next run time is the first minute that
      the fields allow, whatever year it is in, unless they name days of the week only; the
      formula for the day of the week is
      right. The section of corners of [CronTabLaws] has the runs on wrong days and the
      schedule that never returns.

    ** What is a parameter, and what is left out

    The function table ([functionTable]) is a parameter of the evaluator: at run time
    modules register functions in it; a theorem that needs something of the functions says
    what. [Functions.functionTable] is the table of the library; it has a parameter in turn
    for the functions that are left out (those of the clock and of the fields of times,
    regular expressions, [random], [unparse], [unresolved], [debug]), and takes [strtod] and
    [pow] of the C library and the offset of the local time as parameters. Strings are taken
    to be shorter than 2^31 in [substr] and in the theorems on the natural order.
    Deallocation is not modelled: the store only grows. The literals that [absTime] and [relTime] denote, and the
    texts of times, are parameters of the parser and the unparser (they call the time
    functions of libc). The log is modelled without its plugins and its expression cache; a
    failed [ReadBody] leaves null pointers, as the [free] of classad_log.cpp does.
    The consumers of the log readers are an interface, and a file does not change during one
    poll of it.
    The configuration ([param]) and the time are arguments of the policy; what a policy asks
    of the job is evaluated with fuel, and [UserPolicySpec.policy_decides] is for answers
    that are reached.
    The environment of the process and the filters on it are left out of [Env], and so is the
    code for Windows, except where it is compiled on all platforms. The search of a schedule
    takes its fuel as an argument ([CronTabLaws.nextRunTime_least] bounds it by the years to
    go through; [CronTabLaws.february_30_diverges] has none). Its theorems are for a zone in
    which dates and times correspond one to one, as in UTC; local time with summer time is
    a parameter of the model that does not have these laws.
    [Flatten] takes fuel as [Evaluate] does; a null pointer that it follows (the evaluation
    state of a subscript) is no outcome, and what it deletes stays in the store.
    Left out for now: reference extraction, the expression cache, the XML and JSON formats,
    pretty printing, and collections; the manifest of the development lists them. *)
From Stdlib Require Import ZArith Lia Ascii String.
From stdpp Require Import base list gmap strings.

Open Scope Z_scope.

(** ** Outcomes of stateful code

    [Ret a s] is a normal return of [a] in state [s]; [NoFuel] says that the
    fuel given to the model was exhausted (the C++ code has not returned yet);
    [Except] is a call of [CLASSAD_EXCEPT], which aborts the process. *)
Inductive Res (S A : Type) : Type :=
| Ret (a : A) (s : S)
| NoFuel
| Except.
Arguments Ret {S A} a s.
Arguments NoFuel {S A}.
Arguments Except {S A}.

Definition rbind {S A B : Type} (m : S -> Res S A) (k : A -> S -> Res S B) : S -> Res S B :=
  fun s => match m s with
           | Ret a s' => k a s'
           | NoFuel => NoFuel
           | Except => Except
           end.

Definition rret {S A : Type} (a : A) : S -> Res S A := fun s => Ret a s.

Declare Scope res_scope.
Delimit Scope res_scope with res.
Notation "'let!' x := m 'in' k" := (rbind m (fun x => k))
  (at level 10, x pattern, m at level 100, k at level 200) : res_scope.

(** ** Machine integers *)
Definition two63 : Z := 9223372036854775808.
Definition two64 : Z := 18446744073709551616.
Definition INT64_MIN : Z := -9223372036854775808.
Definition INT64_MAX : Z := 9223372036854775807.
Definition INT32_MIN : Z := -2147483648.
Definition INT32_MAX : Z := 2147483647.

(** Two's complement reduction to 64 and to 32 bits. *)
Definition wrap64 (z : Z) : Z := (z + two63) mod two64 - two63.
Definition wrap32 (z : Z) : Z := (z + 2147483648) mod 4294967296 - 2147483648.

Definition in_int64 (z : Z) : Prop := INT64_MIN <= z <= INT64_MAX.

Lemma wrap64_id z : in_int64 z -> wrap64 z = z.
Proof.
  unfold in_int64, wrap64, INT64_MIN, INT64_MAX, two63, two64. intros H.
  rewrite Z.mod_small; lia.
Qed.

Lemma wrap64_range z : in_int64 (wrap64 z).
Proof.
  unfold in_int64, wrap64, INT64_MIN, INT64_MAX, two63, two64.
  pose proof (Z.mod_pos_bound (z + 9223372036854775808) 18446744073709551616). lia.
Qed.

(** Congruence of the wrapped result with the mathematical one. *)
Lemma wrap64_eq z : exists k, wrap64 z = z + k * two64.
Proof.
  unfold wrap64, two63, two64.
  exists (- ((z + 9223372036854775808) / 18446744073709551616)).
  pose proof (Z.div_mod (z + 9223372036854775808) 18446744073709551616). lia.
Qed.

Lemma wrap64_add_multiple z k : wrap64 (z + k * two64) = wrap64 z.
Proof.
  unfold wrap64, two64. replace (z + k * 18446744073709551616 + two63)
    with ((z + two63) + k * 18446744073709551616) by lia.
  rewrite Z.mod_add by lia. reflexivity.
Qed.

Lemma wrap64_add_l x y : wrap64 (wrap64 x + y) = wrap64 (x + y).
Proof.
  destruct (wrap64_eq x) as [k ->].
  replace (x + k * two64 + y) with ((x + y) + k * two64) by lia.
  apply wrap64_add_multiple.
Qed.

Lemma wrap64_add_r x y : wrap64 (x + wrap64 y) = wrap64 (x + y).
Proof. rewrite Z.add_comm, wrap64_add_l. f_equal. lia. Qed.

Lemma wrap64_mul_l x y : wrap64 (wrap64 x * y) = wrap64 (x * y).
Proof.
  destruct (wrap64_eq x) as [k ->].
  replace ((x + k * two64) * y) with (x * y + (k * y) * two64) by lia.
  apply wrap64_add_multiple.
Qed.

Lemma wrap64_mul_r x y : wrap64 (x * wrap64 y) = wrap64 (x * y).
Proof. rewrite Z.mul_comm, wrap64_mul_l. f_equal. lia. Qed.

(** ** Bit operations on signed 64-bit integers *)

(** A 64-bit integer is one whose bits from 63 on are all its sign bit. *)
Lemma in_int64_shiftr z : in_int64 z <-> Z.shiftr z 63 = 0 \/ Z.shiftr z 63 = -1.
Proof.
  unfold in_int64, INT64_MIN, INT64_MAX. rewrite Z.shiftr_div_pow2 by lia.
  change (2 ^ 63) with 9223372036854775808. split; intros H.
  - destruct (Z_lt_ge_dec z 0).
    + right. symmetry. apply (Z.div_unique_pos _ _ _ (z + 9223372036854775808)); lia.
    + left. apply Z.div_small. lia.
  - pose proof (Z.div_mod z 9223372036854775808).
    pose proof (Z.mod_pos_bound z 9223372036854775808). lia.
Qed.

Lemma in_int64_lor a b : in_int64 a -> in_int64 b -> in_int64 (Z.lor a b).
Proof.
  rewrite !in_int64_shiftr, Z.shiftr_lor. intros [-> | ->] [-> | ->]; auto.
Qed.
Lemma in_int64_land a b : in_int64 a -> in_int64 b -> in_int64 (Z.land a b).
Proof.
  rewrite !in_int64_shiftr, Z.shiftr_land. intros [-> | ->] [-> | ->]; auto.
Qed.
Lemma in_int64_lxor a b : in_int64 a -> in_int64 b -> in_int64 (Z.lxor a b).
Proof.
  rewrite !in_int64_shiftr, Z.shiftr_lxor. intros [-> | ->] [-> | ->]; auto.
Qed.
Lemma in_int64_lnot a : in_int64 a -> in_int64 (Z.lnot a).
Proof. unfold in_int64, INT64_MIN, INT64_MAX, Z.lnot. lia. Qed.
Lemma in_int64_shiftr_n a n : 0 <= n -> in_int64 a -> in_int64 (Z.shiftr a n).
Proof.
  intros Hn. unfold in_int64, INT64_MIN, INT64_MAX. rewrite Z.shiftr_div_pow2 by lia.
  pose proof (Z.pow_pos_nonneg 2 n ltac:(lia) Hn). intros H1.
  split; [apply Z.div_le_lower_bound|apply Z.div_le_upper_bound]; nia.
Qed.
Lemma in_int64_quot a b :
  in_int64 a -> b <> 0 -> ~ (a = INT64_MIN /\ b = -1) -> in_int64 (Z.quot a b).
Proof.
  unfold in_int64, INT64_MIN, INT64_MAX. intros Ha Hb Hx.
  assert (Z.abs (Z.quot a b) <= Z.abs a).
  { rewrite <- Z.quot_abs by lia. destruct (decide (Z.abs b = 1)) as [->|Hb1].
    - rewrite Z.quot_1_r. lia.
    - rewrite Z.quot_div_nonneg by lia. apply Z.div_le_upper_bound; nia. }
  destruct (decide (a = -9223372036854775808)) as [->|]; [|lia].
  destruct (decide (b = 1)) as [->|]; [rewrite Z.quot_1_r; lia|].
  assert (Z.abs (Z.quot (-9223372036854775808) b) <= 4611686018427387904); [|lia].
  rewrite <- Z.quot_abs by lia. rewrite Z.quot_div_nonneg by lia.
  apply Z.div_le_upper_bound; lia.
Qed.
Lemma in_int64_rem a b : in_int64 b -> b <> 0 -> in_int64 (Z.rem a b).
Proof.
  unfold in_int64, INT64_MIN, INT64_MAX. intros Hb Hz.
  pose proof (Z.rem_bound_abs a b Hz). lia.
Qed.

(** ** C strings *)

(** [tolower] of the C locale. *)
Definition tolower (c : ascii) : ascii :=
  let n := N_of_ascii c in
  if ((65 <=? n) && (n <=? 90))%N then ascii_of_N (n + 32) else c.

Fixpoint lower (s : string) : string :=
  match s with
  | EmptyString => EmptyString
  | String c s' => String (tolower c) (lower s')
  end.

(** What a [const char *] sees of a [std::string]: the bytes before the first NUL. *)
Fixpoint c_str (s : string) : string :=
  match s with
  | EmptyString => EmptyString
  | String c s' => if Ascii.eqb c zero then EmptyString else String c (c_str s')
  end.

Definition ascii_cmp (c d : ascii) : comparison := (N_of_ascii c ?= N_of_ascii d)%N.

(** The sign of the difference [strcmp] returns (bytes compared as [unsigned char]). *)
Fixpoint str_cmp (s t : string) : comparison :=
  match s, t with
  | EmptyString, EmptyString => Eq
  | EmptyString, String _ _ => Lt
  | String _ _, EmptyString => Gt
  | String c s', String d t' =>
      match ascii_cmp c d with
      | Eq => str_cmp s' t'
      | r => r
      end
  end.

Definition strcmp (s t : string) : comparison := str_cmp (c_str s) (c_str t).
Definition strcasecmp (s t : string) : comparison :=
  str_cmp (lower (c_str s)) (lower (c_str t)).

Lemma ascii_cmp_refl c : ascii_cmp c c = Eq.
Proof. apply N.compare_refl. Qed.

Lemma ascii_cmp_eq c d : ascii_cmp c d = Eq -> c = d.
Proof.
  unfold ascii_cmp. intros H%N.compare_eq.
  rewrite <- (ascii_N_embedding c), <- (ascii_N_embedding d). by rewrite H.
Qed.

Lemma ascii_cmp_antisym c d : ascii_cmp d c = CompOpp (ascii_cmp c d).
Proof. apply N.compare_antisym. Qed.

Lemma str_cmp_refl s : str_cmp s s = Eq.
Proof. induction s as [|c s IH]; simpl; [done|]. by rewrite ascii_cmp_refl. Qed.

Lemma str_cmp_eq s t : str_cmp s t = Eq -> s = t.
Proof.
  revert t. induction s as [|c s IH]; intros [|d t]; simpl; try done.
  destruct (ascii_cmp c d) eqn:E; try done. intros H.
  by rewrite (ascii_cmp_eq _ _ E), (IH _ H).
Qed.

Lemma str_cmp_antisym s t : str_cmp t s = CompOpp (str_cmp s t).
Proof.
  revert t. induction s as [|c s IH]; intros [|d t]; simpl; try done.
  rewrite (ascii_cmp_antisym c d). destruct (ascii_cmp c d); simpl; auto.
Qed.

(** The key under which a case-insensitive attribute map files a name. *)
Definition attr_key (name : string) : string := lower (c_str name).

Lemma strcasecmp_key s t : strcasecmp s t = Eq <-> attr_key s = attr_key t.
Proof.
  unfold strcasecmp, attr_key. split; [apply str_cmp_eq|].
  intros ->. apply str_cmp_refl.
Qed.

Lemma str_cmp_trans s t u : str_cmp s t = Lt -> str_cmp t u = Lt -> str_cmp s u = Lt.
Proof.
  revert t u. induction s as [|c s IH]; intros [|d t] [|e u]; simpl; try done.
  unfold ascii_cmp. destruct (N.compare_spec (N_of_ascii c) (N_of_ascii d)) as [E1|E1|E1];
    destruct (N.compare_spec (N_of_ascii d) (N_of_ascii e)) as [E2|E2|E2]; try done;
    intros H1 H2; destruct (N.compare_spec (N_of_ascii c) (N_of_ascii e)); try lia; try done.
  eauto.
Qed.

Lemma str_cmp_total s t : str_cmp s t <> Lt -> str_cmp t s <> Lt -> s = t.
Proof.
  rewrite (str_cmp_antisym s t). intros H1 H2. apply str_cmp_eq. by destruct (str_cmp s t).
Qed.

Lemma lower_length s : String.length (lower s) = String.length s.
Proof. induction s; simpl; congruence. Qed.

(** Strings without embedded NUL bytes: what [c_str ()] shows of them is all of them. *)
Definition nul_free (s : string) : Prop := c_str s = s.

Lemma attr_key_length s : nul_free s -> String.length (attr_key s) = String.length s.
Proof. unfold nul_free, attr_key. intros ->. apply lower_length. Qed.

(** ** Automation *)

(** Case analysis on the scrutinee of every [match] in the goal. *)
Ltac split_match :=
  repeat match goal with
  | |- context [match ?x with _ => _ end] => destruct x eqn:?; simplify_eq/=
  end.

(** Take conjunctions of booleans apart. *)
Ltac split_andb :=
  repeat match goal with
  | H : _ && _ = true |- _ => apply andb_prop in H as [? ?]
  | H : negb _ = true |- _ => apply negb_true_iff in H
  end.

Create HintDb classad.
#[export] Hint Resolve in_int64_lor in_int64_land in_int64_lxor in_int64_lnot : classad.
#[export] Hint Resolve wrap64_range str_cmp_refl ascii_cmp_refl : classad.
Create Rewrite HintDb wrap.
#[export] Hint Rewrite wrap64_add_l wrap64_add_r wrap64_mul_l wrap64_mul_r : wrap.
