(* ===== verification/Double.v ===== *)
(** * IEEE-754 binary64 doubles

    The C++ [double] as the Standard Library's executable model of binary64
    ([SpecFloat] at precision 53 and maximal exponent 1024), with the conversions
    the ClassAd library performs. *)
From Stdlib Require Import ZArith Lia SpecFloat.
From stdpp Require Import base tactics option.
From S2P Require Import Prelude.

Abbreviation double := spec_float.

Definition d_add : double -> double -> double := SFadd 53 1024.
Definition d_sub : double -> double -> double := SFsub 53 1024.
Definition d_mul : double -> double -> double := SFmul 53 1024.
Definition d_div : double -> double -> double := SFdiv 53 1024.
Definition d_opp : double -> double := SFopp.
Definition d_abs : double -> double := SFabs.
Definition d_ltb : double -> double -> bool := SFltb.
Definition d_leb : double -> double -> bool := SFleb.
Definition d_eqb : double -> double -> bool := SFeqb.

(** [(double) i]: round to nearest even. *)
Definition d_of_Z (i : Z) : double := binary_normalize 53 1024 i 0 false.

Definition d_zero : double := S754_zero false.
Definition HUGE_VAL : double := S754_infinity false.
(** [std::numeric_limits<double>::epsilon()], 2^-52. *)
Definition d_epsilon : double := S754_finite false 4503599627370496 (-104).

(** The mathematical truncation of a finite double towards zero. *)
Definition d_trunc (r : double) : option Z :=
  match r with
  | S754_zero _ => Some 0
  | S754_finite s m e =>
      let a := if 0 <=? e then Z.pos m * 2 ^ e else Z.pos m / 2 ^ (- e) in
      Some (if s then - a else a)
  | S754_infinity _ | S754_nan => None
  end.

(** [(long long) r] and [(int) r].  Out of range the conversion is undefined in
    C++; the x86-64 conversion instructions the compiler emits give the
    "integer indefinite" value, the least integer of the width. *)
Definition d_to_int64 (r : double) : Z :=
  match d_trunc r with
  | Some z => if (INT64_MIN <=? z) && (z <=? INT64_MAX) then z else INT64_MIN
  | None => INT64_MIN
  end.
Definition d_to_int32 (r : double) : Z :=
  match d_trunc r with
  | Some z => if (INT32_MIN <=? z) && (z <=? INT32_MAX) then z else INT32_MIN
  | None => INT32_MIN
  end.

(** [realValue ? true : false]: every double except the two zeros, NaN included. *)
Definition d_to_bool (r : double) : bool := negb (d_eqb r d_zero).

Lemma d_to_int32_range r : INT32_MIN <= d_to_int32 r <= INT32_MAX.
Proof.
  unfold d_to_int32, INT32_MIN, INT32_MAX. destruct (d_trunc r) as [z|]; [|lia].
  destruct (_ && _) eqn:E; [|lia]. apply andb_prop in E. lia.
Qed.

Lemma d_to_int64_range r : in_int64 (d_to_int64 r).
Proof.
  unfold d_to_int64, in_int64, INT64_MIN, INT64_MAX. destruct (d_trunc r) as [z|]; [|lia].
  destruct (_ && _) eqn:E; [|lia]. apply andb_prop in E. lia.
Qed.

(** ** Comparison *)

(** The three outcomes of a comparison, or none when an operand is not a number. *)
Definition d_compare (r1 r2 : double) : option comparison := SFcompare r1 r2.

Lemma d_compare_antisym r1 r2 : d_compare r2 r1 = CompOpp <$> d_compare r1 r2.
Proof.
  destruct r1 as [s1|s1| |s1 m1 e1], r2 as [s2|s2| |s2 m2 e2]; try (by destruct s1, s2);
    try (by destruct s1); try (by destruct s2); try done.
  unfold d_compare, SFcompare. rewrite (Z.compare_antisym e1 e2).
  change (Pos.compare_cont Eq m1 m2) with (m1 ?= m2)%positive.
  change (Pos.compare_cont Eq m2 m1) with (m2 ?= m1)%positive.
  rewrite (Pos.compare_antisym m1 m2).
  by destruct s1, s2, (e1 ?= e2)%Z, (m1 ?= m2)%positive.
Qed.

Lemma d_ltb_spec r1 r2 : d_ltb r1 r2 = bool_decide (d_compare r1 r2 = Some Lt).
Proof. unfold d_ltb, SFltb, d_compare. by destruct (SFcompare r1 r2) as [[]|]. Qed.
Lemma d_leb_spec r1 r2 :
  d_leb r1 r2 = bool_decide (d_compare r1 r2 = Some Lt \/ d_compare r1 r2 = Some Eq).
Proof. unfold d_leb, SFleb, d_compare. by destruct (SFcompare r1 r2) as [[]|]. Qed.
Lemma d_eqb_spec r1 r2 : d_eqb r1 r2 = bool_decide (d_compare r1 r2 = Some Eq).
Proof. unfold d_eqb, SFeqb, d_compare. by destruct (SFcompare r1 r2) as [[]|]. Qed.

#[export] Hint Resolve d_to_int32_range d_to_int64_range : classad.
