(* ===== verification/Numerals.v ===== *)
(** * Decimal text of numbers ([util.cpp], and the library calls of [lexer.cpp], [sink.cpp])

    [append_long], [std::from_chars] in base 10, [strtod] on the texts the lexer gives it
    and the ["%1.15E"] format, over lists of characters. *)
From Stdlib Require Import ZArith Lia Ascii String SpecFloat.
From stdpp Require Import base list strings.
From S2P Require Import Prelude Double.

Abbreviation text := (list ascii).

(** ** Characters, in the "C" locale *)
Definition code (c : ascii) : Z := Z.of_nat (nat_of_ascii c).
Definition between (lo hi : ascii) (c : ascii) : bool := (code lo <=? code c) && (code c <=? code hi).
Definition isdigit : ascii -> bool := between "0" "9".
Definition isodigit : ascii -> bool := between "0" "7".
Definition isalpha (c : ascii) : bool := between "a" "z" c || between "A" "Z" c.
Definition isalnum (c : ascii) : bool := isalpha c || isdigit c.
Definition isxdigit (c : ascii) : bool := isdigit c || between "a" "f" c || between "A" "F" c.
Definition isspace (c : ascii) : bool := (code c =? 32) || (9 <=? code c) && (code c <=? 13).
Definition isprint (c : ascii) : bool := (32 <=? code c) && (code c <=? 126).

Definition digit (d : Z) : ascii := ascii_of_nat (Z.to_nat (48 + d)).
Definition digit_value (c : ascii) : Z := code c - 48.

(** The text before the first [c], and the text after it, if there is one: [strchr]. *)
Fixpoint split_at (c : ascii) (s : text) : text * option text :=
  match s with
  | [] => ([], None)
  | d :: s' => if Ascii.eqb d c then ([], Some s') else let '(l, r) := split_at c s' in (d :: l, r)
  end.
(** ** Integers *)

(** The loop of [append_long]: the digits of a number, least significant first, put before
    those already there. 64-bit numbers have at most 19. *)
Fixpoint digits_loop (n : nat) (l : Z) (acc : text) : text :=
  match n with
  | O => acc
  | S n' =>
      let acc' := digit (l mod 10) :: acc in
      if l / 10 =? 0 then acc' else digits_loop n' (l / 10) acc'
  end.
Definition digits (l : Z) : text := digits_loop 20 l [].

Definition append_long (s : text) (l : Z) : text :=
  if 0 <=? l then s ++ digits l else s ++ "-"%char :: digits (- l).

(** The value of the leading digits. *)
Fixpoint digits_value (acc : Z) (s : text) : Z :=
  match s with
  | c :: s' => if isdigit c then digits_value (acc * 10 + digit_value c) s' else acc
  | [] => acc
  end.

(** [from_chars (first, last, l, 10)] with [l] zero before: out of range leaves it. *)
Definition from_chars (s : text) : Z :=
  let '(neg, s') := match s with c :: s' => if Ascii.eqb c "-" then (true, s') else (false, s)
                            | [] => (false, []) end in
  let v := digits_value 0 s' in
  let v := if (neg : bool) then - v else v in
  if (INT64_MIN <=? v) && (v <=? INT64_MAX) then v else 0.

(** ** Reals *)

(** The double nearest to [m * 10^e]: below the decimal point, the quotient by a power of
    ten to more bits than a double has, with a last bit for what is left over. *)
Definition decimal (neg : bool) (m e : Z) : double :=
  let sgn z := if neg then - z else z in
  if m =? 0 then S754_zero neg
  else if 0 <=? e then binary_normalize 53 1024 (sgn (m * 10 ^ e)) 0 neg
  else
    let d := 10 ^ (- e) in
    let s := Z.max 0 (Z.log2 d - Z.log2 m + 64) in
    let q := Z.shiftl m s / d in
    let sticky := if Z.shiftl m s mod d =? 0 then 0 else 1 in
    binary_normalize 53 1024 (sgn (2 * q + sticky)) (- s - 1) neg.

(** The leading digits of a text, and the rest. *)
Fixpoint span_digits (s : text) : text * text :=
  match s with
  | c :: s' => if isdigit c then let '(d, r) := span_digits s' in (c :: d, r) else ([], s)
  | [] => ([], [])
  end.

(** ** Integers of the C library *)
Fixpoint skip_space (s : text) : text :=
  match s with c :: s' => if isspace c then skip_space s' else s | [] => [] end.
(** [strtol (s, &ret, 10)] for a 64-bit [long]: the value and what is left. *)
Definition strtol (s : text) : Z * text :=
  let s1 := skip_space s in
  let '(neg, s2) := match s1 with
                    | c :: s' => if Ascii.eqb c "-" then (true, s') else if Ascii.eqb c "+" then (false, s') else (false, s1)
                    | [] => (false, [])
                    end in
  let '(d, s3) := span_digits s2 in
  match d with
  | [] => (0, s)
  | _ => let v := digits_value 0 d in (Z.max INT64_MIN (Z.min INT64_MAX (if (neg : bool) then - v else v)), s3)
  end.
(** [strtoull (s, &ret, 10)]: a minus sign negates the value modulo 2^64. *)
Definition strtoull (s : text) : Z * text :=
  let s1 := skip_space s in
  let '(neg, s2) := match s1 with
                    | c :: s' => if Ascii.eqb c "-" then (true, s') else if Ascii.eqb c "+" then (false, s') else (false, s1)
                    | [] => (false, [])
                    end in
  let '(d, s3) := span_digits s2 in
  match d with
  | [] => (0, s)
  | _ => let v := digits_value 0 d in
         (if two64 - 1 <? v then two64 - 1 else if (neg : bool) then (- v) mod two64 else v, s3)
  end.

(** [strtod] on decimal texts [-]ddd[.ddd][e[+-]ddd]; what follows is ignored. *)
Definition strtod (s : text) : double :=
  let '(neg, s1) := match s with c :: s' => if Ascii.eqb c "-" then (true, s') else (false, s)
                            | [] => (false, []) end in
  let '(whole, s2) := span_digits s1 in
  let '(frac, s3) := match s2 with
                     | c :: s' => if Ascii.eqb c "." then span_digits s' else ([], s2)
                     | [] => ([], [])
                     end in
  let e := match s3 with
           | c :: s' =>
               if Ascii.eqb c "e" || Ascii.eqb c "E" then
                 match s' with
                 | c' :: s'' => if Ascii.eqb c' "-" then - digits_value 0 s''
                                else if Ascii.eqb c' "+" then digits_value 0 s''
                                else digits_value 0 s'
                 | [] => 0
                 end
               else 0
           | [] => 0
           end in
  decimal neg (digits_value 0 (whole ++ frac)) (e - Z.of_nat (length frac)).

(** [m / d] to the nearest integer, ties to even. *)
Definition div_round (m d : Z) : Z :=
  let q := m / d in
  let r := 2 * (m mod d) in
  if r <? d then q else if d <? r then q + 1 else if Z.even q then q else q + 1.

(** The decimal exponent of [num / den]: the [k] with [10^k <= num/den < 10^(k+1)]. *)
Definition below (num den k : Z) : bool :=
  num * 10 ^ Z.max 0 (- k) <? den * 10 ^ Z.max 0 k.
Definition decimal_exponent (num den : Z) : Z :=
  let k := (Z.log2 num - Z.log2 den) * 30103 / 100000 in
  if below num den k then (if below num den (k - 1) then k - 2 else k - 1)
  else if below num den (k + 1) then k
  else if below num den (k + 2) then k + 1 else k + 2.

Definition two_digits (n : Z) : text := if n <? 10 then "0"%char :: digits n else digits n.

(** The sixteen significant digits of [m * 2^e], and the exponent of the first. *)
Definition sixteen_digits (m : positive) (e : Z) : Z * Z :=
  let num := Z.pos m * 2 ^ Z.max 0 e in
  let den := 2 ^ Z.max 0 (- e) in
  let k := decimal_exponent num den in
  let n := div_round (num * 10 ^ Z.max 0 (15 - k)) (den * 10 ^ Z.max 0 (k - 15)) in
  if n =? 10 ^ 16 then (10 ^ 15, k + 1) else (n, k).
Definition exponent_part (k : Z) : text :=
  "E"%char :: (if k <? 0 then "-"%char else "+"%char) :: two_digits (Z.abs k).

(** ["%1.15E"] of a finite number that is not zero. *)
Definition format_E15 (neg : bool) (m : positive) (e : Z) : text :=
  let '(n, k) := sixteen_digits m e in
  (if neg then ["-"%char] else []) ++ digits (n / 10 ^ 15) ++ "."%char ::
    List.tl (digits (10 ^ 15 + n mod 10 ^ 15)) ++ exponent_part k.

(** ["%.16G"]: without an exponent if it is from -4 to 15, and without zeros at the end of
    the fraction. *)
Fixpoint drop_zeros (s : text) : text :=
  match s with
  | c :: s' => if Ascii.eqb c "0" then drop_zeros s' else s
  | [] => []
  end.
Definition fraction_part (f : text) : text :=
  match rev (drop_zeros (rev f)) with [] => [] | f' => "."%char :: f' end.
Definition format_G16 (neg : bool) (m : positive) (e : Z) : text :=
  let '(n, k) := sixteen_digits m e in
  let d := digits n in
  (if neg then ["-"%char] else []) ++
  if (-4 <=? k) && (k <? 16) then
    if k <? 0 then "0"%char :: fraction_part (replicate (Z.to_nat (- k - 1)) "0"%char ++ d)
    else take (Z.to_nat (k + 1)) d ++ fraction_part (drop (Z.to_nat (k + 1)) d)
  else take 1 d ++ fraction_part (drop 1 d) ++ exponent_part k.
