(* ===== verification/Tree.v ===== *)
(** * Expression trees and values

    The node kinds of an expression tree ([classad/exprTree.h] and the classes
    derived from [ExprTree]) and the values evaluation produces
    ([classad/value.h]). A ClassAd is a shared mutable object: a tree or a value
    refers to it by its address [adref] in the store of [AdStore]. *)
From Stdlib Require Import ZArith.
From stdpp Require Import base list strings.
From S2P Require Import Prelude Double.

Abbreviation adref := positive (only parsing).

(** An absolute time: seconds since the epoch and the offset of its time zone. *)
Record abstime_t := mk_abstime { secs : Z; offset : Z }.

(** The operator kinds, in the order of the enumeration, whose ranges the code tests. *)
Inductive OpKind : Set :=
| __NO_OP__
| LESS_THAN_OP | LESS_OR_EQUAL_OP | NOT_EQUAL_OP | EQUAL_OP
| GREATER_OR_EQUAL_OP | GREATER_THAN_OP | META_EQUAL_OP | META_NOT_EQUAL_OP
| UNARY_PLUS_OP | UNARY_MINUS_OP | ADDITION_OP | SUBTRACTION_OP
| MULTIPLICATION_OP | DIVISION_OP | MODULUS_OP
| LOGICAL_NOT_OP | LOGICAL_OR_OP | LOGICAL_AND_OP
| BITWISE_NOT_OP | BITWISE_OR_OP | BITWISE_XOR_OP | BITWISE_AND_OP
| LEFT_SHIFT_OP | RIGHT_SHIFT_OP | URIGHT_SHIFT_OP
| PARENTHESES_OP | SUBSCRIPT_OP | TERNARY_OP.

#[export] Instance OpKind_eq_dec : EqDecision OpKind.
Proof. solve_decision. Defined.

(** The nodes of an expression tree. [scope] is [parentScope], the address of the
    ClassAd the node was inserted into, [None] for a null pointer; literals have none.
    The middle child of the ternary operator is absent in [e1 ?: e3]. *)
Inductive ExprTree : Type :=
| ErrorLiteral
| UndefinedLiteral
| BooleanLiteral (b : bool)
| IntegerLiteral (i : Z)
| RealLiteral (r : double)
| ReltimeLiteral (r : double)
| AbstimeLiteral (t : abstime_t)
| StringLiteral (s : string)
| AttributeReference (scope : option adref) (expr : option ExprTree)
    (attributeStr : string) (absolute : bool)
| Operation1 (scope : option adref) (op : OpKind) (child1 : ExprTree)
| OperationParens (scope : option adref) (child1 : ExprTree)
| Operation2 (scope : option adref) (op : OpKind) (child1 child2 : ExprTree)
| Operation3 (scope : option adref) (child1 : ExprTree) (child2 : option ExprTree)
    (child3 : ExprTree)
| FunctionCall (scope : option adref) (functionName : string) (arguments : list ExprTree)
| ExprList (scope : option adref) (exprList : list ExprTree)
| ClassAdNode (ad : adref).

(** The result of an evaluation. [LIST_VALUE] and [CLASSAD_VALUE] are not owned by
    the value, [SLIST_VALUE] and [SCLASSAD_VALUE] are held by a shared pointer. *)
Inductive Value : Type :=
| ERROR_VALUE
| UNDEFINED_VALUE
| BOOLEAN_VALUE (b : bool)
| INTEGER_VALUE (i : Z)
| REAL_VALUE (r : double)
| RELATIVE_TIME_VALUE (r : double)
| ABSOLUTE_TIME_VALUE (t : abstime_t)
| STRING_VALUE (s : string)
| CLASSAD_VALUE (ad : adref)
| LIST_VALUE (l : list ExprTree)
| SLIST_VALUE (l : list ExprTree)
| SCLASSAD_VALUE (ad : adref).

(** ** Induction over trees *)
Section ExprTree_induction.
Variable P : ExprTree -> Prop.
Hypothesis H_error : P ErrorLiteral.
Hypothesis H_undef : P UndefinedLiteral.
Hypothesis H_bool : forall b, P (BooleanLiteral b).
Hypothesis H_int : forall i, P (IntegerLiteral i).
Hypothesis H_real : forall r, P (RealLiteral r).
Hypothesis H_rel : forall r, P (ReltimeLiteral r).
Hypothesis H_abs : forall t, P (AbstimeLiteral t).
Hypothesis H_str : forall s, P (StringLiteral s).
Hypothesis H_ref0 : forall sc a b, P (AttributeReference sc None a b).
Hypothesis H_ref1 : forall sc e a b, P e -> P (AttributeReference sc (Some e) a b).
Hypothesis H_op1 : forall sc op e, P e -> P (Operation1 sc op e).
Hypothesis H_par : forall sc e, P e -> P (OperationParens sc e).
Hypothesis H_op2 : forall sc op e1 e2, P e1 -> P e2 -> P (Operation2 sc op e1 e2).
Hypothesis H_op3 : forall sc e1 e2 e3, P e1 -> P e2 -> P e3 ->
  P (Operation3 sc e1 (Some e2) e3).
Hypothesis H_elvis : forall sc e1 e3, P e1 -> P e3 -> P (Operation3 sc e1 None e3).
Hypothesis H_call : forall sc f l, Forall P l -> P (FunctionCall sc f l).
Hypothesis H_list : forall sc l, Forall P l -> P (ExprList sc l).
Hypothesis H_ad : forall a, P (ClassAdNode a).

Fixpoint ExprTree_induct (e : ExprTree) : P e :=
  let fix all (l : list ExprTree) : Forall P l :=
    match l with
    | [] => Forall_nil_2 P
    | x :: l' => Forall_cons_2 P x l' (ExprTree_induct x) (all l')
    end in
  match e with
  | ErrorLiteral => H_error
  | UndefinedLiteral => H_undef
  | BooleanLiteral b => H_bool b
  | IntegerLiteral i => H_int i
  | RealLiteral r => H_real r
  | ReltimeLiteral r => H_rel r
  | AbstimeLiteral t => H_abs t
  | StringLiteral s => H_str s
  | AttributeReference sc None a b => H_ref0 sc a b
  | AttributeReference sc (Some e') a b => H_ref1 sc e' a b (ExprTree_induct e')
  | Operation1 sc op e' => H_op1 sc op e' (ExprTree_induct e')
  | OperationParens sc e' => H_par sc e' (ExprTree_induct e')
  | Operation2 sc op e1 e2 => H_op2 sc op e1 e2 (ExprTree_induct e1) (ExprTree_induct e2)
  | Operation3 sc e1 (Some e2) e3 =>
      H_op3 sc e1 e2 e3 (ExprTree_induct e1) (ExprTree_induct e2) (ExprTree_induct e3)
  | Operation3 sc e1 None e3 => H_elvis sc e1 e3 (ExprTree_induct e1) (ExprTree_induct e3)
  | FunctionCall sc f l => H_call sc f l (all l)
  | ExprList sc l => H_list sc l (all l)
  | ClassAdNode a => H_ad a
  end.
End ExprTree_induction.

(** ** Operations on nodes *)

(** [GetParentScope]: literals answer a null pointer. The parent scope of a ClassAd is
    kept in the store; the function is given it. *)
Definition GetParentScope (ad_scope : adref -> option adref) (e : ExprTree) : option adref :=
  match e with
  | AttributeReference sc _ _ _ | Operation1 sc _ _ | OperationParens sc _
  | Operation2 sc _ _ _ | Operation3 sc _ _ _ | FunctionCall sc _ _ | ExprList sc _ => sc
  | ClassAdNode a => ad_scope a
  | _ => None
  end.

(** [_SetParentScope] of every node kind but [ClassAd]: the scope is written through
    the subtrees, up to (and not into) nested ClassAds. *)
Fixpoint SetParentScope (parent : option adref) (e : ExprTree) : ExprTree :=
  match e with
  | AttributeReference _ x a b =>
      AttributeReference parent (SetParentScope parent <$> x) a b
  | Operation1 _ op c => Operation1 parent op (SetParentScope parent c)
  | OperationParens _ c => OperationParens parent (SetParentScope parent c)
  | Operation2 _ op c1 c2 =>
      Operation2 parent op (SetParentScope parent c1) (SetParentScope parent c2)
  | Operation3 _ c1 c2 c3 =>
      Operation3 parent (SetParentScope parent c1) (SetParentScope parent <$> c2)
        (SetParentScope parent c3)
  | FunctionCall _ f l => FunctionCall parent f (SetParentScope parent <$> l)
  | ExprList _ l => ExprList parent (SetParentScope parent <$> l)
  | _ => e
  end.

(** The ClassAd nodes a [SetParentScope] call reaches: their own [parentScope] is
    written in the store. *)
Fixpoint nested_ads (e : ExprTree) : list adref :=
  match e with
  | AttributeReference _ x _ _ => match x with Some x => nested_ads x | None => [] end
  | Operation1 _ _ c | OperationParens _ c => nested_ads c
  | Operation2 _ _ c1 c2 => nested_ads c1 ++ nested_ads c2
  | Operation3 _ c1 c2 c3 =>
      nested_ads c1 ++ match c2 with Some c2 => nested_ads c2 | None => [] end ++ nested_ads c3
  | FunctionCall _ _ l | ExprList _ l => concat (nested_ads <$> l)
  | ClassAdNode a => [a]
  | _ => []
  end.

(** Number of nodes. *)
Fixpoint tree_size (e : ExprTree) : nat :=
  match e with
  | AttributeReference _ x _ _ => S (match x with Some x => tree_size x | None => 0 end)
  | Operation1 _ _ c | OperationParens _ c => S (tree_size c)
  | Operation2 _ _ c1 c2 => S (tree_size c1 + tree_size c2)
  | Operation3 _ c1 c2 c3 =>
      S (tree_size c1 + match c2 with Some c2 => tree_size c2 | None => 0 end + tree_size c3)
  | FunctionCall _ _ l | ExprList _ l => S (sum_list (tree_size <$> l))
  | _ => 1
  end.

(** [Operation::MakeOperation]: the node class is chosen by the operator. A child that
    the chosen class has and the caller leaves null is not representable here; the
    callers never do that, and [None] says so. *)
Definition MakeOperation (op : OpKind) (e1 e2 e3 : option ExprTree) : option ExprTree :=
  match op with
  | PARENTHESES_OP => c1 ← e1; Some (OperationParens None c1)
  | UNARY_PLUS_OP | UNARY_MINUS_OP | LOGICAL_NOT_OP | BITWISE_NOT_OP =>
      c1 ← e1; Some (Operation1 None op c1)
  | TERNARY_OP => c1 ← e1; c3 ← e3; Some (Operation3 None c1 e2 c3)
  | _ => c1 ← e1; c2 ← e2; Some (Operation2 None op c1 c2)
  end.

(** [GetComponents] of the four operation classes. *)
Definition GetComponents (e : ExprTree)
  : option (OpKind * option ExprTree * option ExprTree * option ExprTree) :=
  match e with
  | Operation1 _ op c => Some (op, Some c, None, None)
  | OperationParens _ c => Some (PARENTHESES_OP, Some c, None, None)
  | Operation2 _ op c1 c2 => Some (op, Some c1, Some c2, None)
  | Operation3 _ c1 c2 c3 => Some (TERNARY_OP, Some c1, c2, Some c3)
  | _ => None
  end.

(** ** Lemmas *)
Lemma SetParentScope_idem p q e :
  SetParentScope p (SetParentScope q e) = SetParentScope p e.
Proof.
  induction e using ExprTree_induct; simpl; try congruence.
  all: f_equal; rewrite <- list_fmap_compose; apply list_fmap_ext;
    intros i x Hx; eapply Forall_lookup in H; [|exact Hx]; done.
Qed.

Lemma SetParentScope_size p e : tree_size (SetParentScope p e) = tree_size e.
Proof.
  induction e using ExprTree_induct; simpl; try congruence.
  all: do 2 f_equal; rewrite <- list_fmap_compose; apply list_fmap_ext;
    intros i x Hx; eapply Forall_lookup in H; [|exact Hx]; done.
Qed.

Lemma tree_size_pos e : (0 < tree_size e)%nat.
Proof. destruct e; simpl; lia. Qed.

#[export] Hint Resolve tree_size_pos : classad.
