(* ===== verification/Values.v ===== *)
(** * Values: types, tests and conversions ([classad/value.h], [value.cpp])

    The run-time type of a value is a bit of a mask; the [Is...] functions of the
    class return a flag and fill a reference, here an [option]. *)
From Stdlib Require Import ZArith Lia Ascii String.
From stdpp Require Import base list strings.
From S2P Require Import Prelude Double Tree.

Inductive ValueType : Set :=
| T_NULL | T_ERROR | T_UNDEFINED | T_BOOLEAN | T_INTEGER | T_REAL
| T_RELATIVE_TIME | T_ABSOLUTE_TIME | T_STRING | T_CLASSAD | T_LIST | T_SLIST | T_SCLASSAD.

#[export] Instance ValueType_eq_dec : EqDecision ValueType.
Proof. solve_decision. Defined.

(** The bit of a value type in a mask, and the composite masks. *)
Definition vt_bit (t : ValueType) : Z :=
  match t with
  | T_NULL => 0
  | T_ERROR => 1 | T_UNDEFINED => 2 | T_BOOLEAN => 4 | T_INTEGER => 8 | T_REAL => 16
  | T_RELATIVE_TIME => 32 | T_ABSOLUTE_TIME => 64 | T_STRING => 128
  | T_CLASSAD => 256 | T_LIST => 512 | T_SLIST => 1024 | T_SCLASSAD => 2048
  end.

Definition NUMBER_VALUES : Z := Z.lor (vt_bit T_BOOLEAN) (Z.lor (vt_bit T_INTEGER) (vt_bit T_REAL)).
Definition SCALAR_VALUES : Z :=
  Z.lor NUMBER_VALUES (Z.lor (vt_bit T_STRING) (Z.lor (vt_bit T_RELATIVE_TIME) (vt_bit T_ABSOLUTE_TIME))).
Definition SCALAR_EX_VALUES : Z := Z.lor (vt_bit T_ERROR) (Z.lor (vt_bit T_UNDEFINED) SCALAR_VALUES).
Definition SAFE_VALUES : Z := Z.lor SCALAR_EX_VALUES (Z.lor (vt_bit T_SLIST) (vt_bit T_SCLASSAD)).
Definition UNSAFE_VALUES : Z := Z.lor (vt_bit T_LIST) (vt_bit T_CLASSAD).
Definition ALL_VALUES : Z := Z.lor SAFE_VALUES UNSAFE_VALUES.

Definition GetType (v : Value) : ValueType :=
  match v with
  | ERROR_VALUE => T_ERROR
  | UNDEFINED_VALUE => T_UNDEFINED
  | BOOLEAN_VALUE _ => T_BOOLEAN
  | INTEGER_VALUE _ => T_INTEGER
  | REAL_VALUE _ => T_REAL
  | RELATIVE_TIME_VALUE _ => T_RELATIVE_TIME
  | ABSOLUTE_TIME_VALUE _ => T_ABSOLUTE_TIME
  | STRING_VALUE _ => T_STRING
  | CLASSAD_VALUE _ => T_CLASSAD
  | LIST_VALUE _ => T_LIST
  | SLIST_VALUE _ => T_SLIST
  | SCLASSAD_VALUE _ => T_SCLASSAD
  end.

(** ** Type tests *)
Definition IsBooleanValue (v : Value) : option bool :=
  match v with BOOLEAN_VALUE b => Some b | _ => None end.
Definition IsIntegerValue (v : Value) : option Z :=
  match v with INTEGER_VALUE i => Some i | _ => None end.
Definition IsIntegerValue_int (v : Value) : option Z :=
  match v with INTEGER_VALUE i => Some (wrap32 i) | _ => None end.
Definition IsRealValue (v : Value) : option double :=
  match v with REAL_VALUE r => Some r | _ => None end.
Definition IsListValue (v : Value) : option (list ExprTree) :=
  match v with LIST_VALUE l | SLIST_VALUE l => Some l | _ => None end.
Definition IsStringValue (v : Value) : option string :=
  match v with STRING_VALUE s => Some s | _ => None end.
Definition IsClassAdValue (v : Value) : option positive :=
  match v with CLASSAD_VALUE a | SCLASSAD_VALUE a => Some a | _ => None end.
Definition IsUndefinedValue (v : Value) : bool :=
  match v with UNDEFINED_VALUE => true | _ => false end.
Definition IsErrorValue (v : Value) : bool :=
  match v with ERROR_VALUE => true | _ => false end.
Definition IsExceptional (v : Value) : bool :=
  match v with UNDEFINED_VALUE | ERROR_VALUE => true | _ => false end.
Definition IsAbsoluteTimeValue (v : Value) : option abstime_t :=
  match v with ABSOLUTE_TIME_VALUE t => Some t | _ => None end.
Definition IsRelativeTimeValue (v : Value) : option double :=
  match v with RELATIVE_TIME_VALUE r => Some r | _ => None end.
(** The overload on [time_t]: the seconds go through an [int]. *)
Definition IsRelativeTimeValue_time_t (v : Value) : option Z :=
  match v with RELATIVE_TIME_VALUE r => Some (d_to_int32 r) | _ => None end.

(** The value owns what it points to. (A null list or ClassAd pointer is not
    representable here.) *)
Definition IsSelfContained (v : Value) : bool :=
  match v with LIST_VALUE _ | CLASSAD_VALUE _ => false | _ => true end.

(** ** Numeric readings *)
Definition IsNumber_longlong (v : Value) : option Z :=
  match v with
  | INTEGER_VALUE i => Some i
  | REAL_VALUE r => Some (d_to_int64 r)
  | BOOLEAN_VALUE b => Some (if b then 1 else 0)
  | _ => None
  end.

Definition IsNumber_int (v : Value) : option Z := wrap32 <$> IsNumber_longlong v.

Definition IsNumber_double (v : Value) : option double :=
  match v with
  | INTEGER_VALUE i => Some (d_of_Z i)
  | REAL_VALUE r => Some r
  | BOOLEAN_VALUE b => Some (if b then d_of_Z 1 else d_of_Z 0)
  | _ => None
  end.

Definition IsBooleanValueEquiv (v : Value) : option bool :=
  match v with
  | BOOLEAN_VALUE b => Some b
  | INTEGER_VALUE i => Some (negb (i =? 0))
  | REAL_VALUE r => Some (d_to_bool r)
  | _ => None
  end.

(** ** Number factors *)
Inductive NumberFactor : Set :=
| NO_FACTOR | B_FACTOR | K_FACTOR | M_FACTOR | G_FACTOR | T_FACTOR.

Definition ScaleFactor (f : NumberFactor) : double :=
  d_of_Z match f with
         | NO_FACTOR => 1
         | B_FACTOR => 1
         | K_FACTOR => 1024
         | M_FACTOR => 1024 * 1024
         | G_FACTOR => 1024 * 1024 * 1024
         | T_FACTOR => 1024 * 1024 * 1024 * 1024
         end.

Definition ApplyFactor (factor : NumberFactor) (v : Value) : Value :=
  match factor with
  | NO_FACTOR => v
  | _ =>
      match v with
      | INTEGER_VALUE i => REAL_VALUE (d_mul (d_of_Z i) (ScaleFactor factor))
      | REAL_VALUE r => REAL_VALUE (d_mul r (ScaleFactor factor))
      | _ => v
      end
  end.

(** ** Literals *)

(** [Literal::MakeLiteral]: null for lists and ClassAds. A relative time is read
    through the [time_t] overload, so only its whole seconds reach the literal. *)
Definition MakeLiteral (v : Value) : option ExprTree :=
  match v with
  | UNDEFINED_VALUE => Some UndefinedLiteral
  | ERROR_VALUE => Some ErrorLiteral
  | STRING_VALUE s => Some (StringLiteral s)
  | REAL_VALUE r => Some (RealLiteral r)
  | INTEGER_VALUE i => Some (IntegerLiteral i)
  | BOOLEAN_VALUE b => Some (BooleanLiteral b)
  | ABSOLUTE_TIME_VALUE t => Some (AbstimeLiteral t)
  | RELATIVE_TIME_VALUE r => Some (ReltimeLiteral (d_of_Z (d_to_int32 r)))
  | CLASSAD_VALUE _ | LIST_VALUE _ | SLIST_VALUE _ | SCLASSAD_VALUE _ => None
  end.

(** [_Evaluate] of the literal classes; [None] on other nodes. The relative-time
    literal sets a real value. *)
Definition literal_Evaluate (e : ExprTree) : option Value :=
  match e with
  | ErrorLiteral => Some ERROR_VALUE
  | UndefinedLiteral => Some UNDEFINED_VALUE
  | BooleanLiteral b => Some (BOOLEAN_VALUE b)
  | IntegerLiteral i => Some (INTEGER_VALUE i)
  | RealLiteral r => Some (REAL_VALUE r)
  | ReltimeLiteral r => Some (REAL_VALUE r)
  | AbstimeLiteral t => Some (ABSOLUTE_TIME_VALUE t)
  | StringLiteral s => Some (STRING_VALUE s)
  | _ => None
  end.

(** The literal classes' comparisons of reals: equal within an absolute epsilon. *)
Definition real_SameAs (r1 r2 : double) : bool := d_leb (d_abs (d_sub r1 r2)) d_epsilon.

(** [SameAs] of the literal classes ([None] when the receiver is not a literal). *)
Definition literal_SameAs (e1 e2 : ExprTree) : option bool :=
  match e1 with
  | ErrorLiteral => Some match e2 with ErrorLiteral => true | _ => false end
  | UndefinedLiteral => Some match e2 with UndefinedLiteral => true | _ => false end
  | BooleanLiteral b => Some match e2 with BooleanLiteral b' => Bool.eqb b' b | _ => false end
  | IntegerLiteral i => Some match e2 with IntegerLiteral i' => i' =? i | _ => false end
  | RealLiteral r => Some match e2 with RealLiteral r' => real_SameAs r' r | _ => false end
  | ReltimeLiteral r => Some match e2 with ReltimeLiteral r' => real_SameAs r' r | _ => false end
  | AbstimeLiteral t =>
      Some match e2 with
           | AbstimeLiteral t' => (secs t' =? secs t) && (offset t' =? offset t)
           | _ => false
           end
  | StringLiteral s => Some match e2 with StringLiteral s' => String.eqb s' s | _ => false end
  | _ => None
  end.

(** ** Conversions

    [strtod] belongs to the C library: the model takes it as a parameter that gives
    the number read and the count of characters consumed. *)
Definition toupper (c : ascii) : ascii :=
  let n := N_of_ascii c in
  if ((97 <=? n) && (n <=? 122))%N then ascii_of_N (n - 32) else c.

Section conversions.
Variable strtod : string -> double * nat.

(** The factor named by the character at [*end]. *)
Definition suffix_factor (s : string) (n : nat) : NumberFactor :=
  match String.get n (c_str s) with
  | Some c =>
      match toupper c with
      | "B"%char => B_FACTOR
      | "K"%char => K_FACTOR
      | "M"%char => M_FACTOR
      | "G"%char => G_FACTOR
      | "T"%char => T_FACTOR
      | _ => NO_FACTOR
      end
  | None => NO_FACTOR
  end.

Definition convertValueToRealValue (value : Value) : bool * Value :=
  match value with
  | UNDEFINED_VALUE => (false, UNDEFINED_VALUE)
  | ERROR_VALUE | CLASSAD_VALUE _ | SCLASSAD_VALUE _ | LIST_VALUE _ | SLIST_VALUE _ =>
      (false, ERROR_VALUE)
  | STRING_VALUE s =>
      let '(rvalue, n) := strtod (c_str s) in
      if (n =? 0)%nat && d_eqb rvalue d_zero then (false, ERROR_VALUE)
      else (true, REAL_VALUE (d_mul rvalue (ScaleFactor (suffix_factor s n))))
  | BOOLEAN_VALUE b => (true, REAL_VALUE (if b then d_of_Z 1 else d_of_Z 0))
  | INTEGER_VALUE i => (true, REAL_VALUE (d_of_Z i))
  | REAL_VALUE r => (true, REAL_VALUE r)
  | ABSOLUTE_TIME_VALUE t => (true, REAL_VALUE (d_of_Z (secs t)))
  | RELATIVE_TIME_VALUE r => (true, REAL_VALUE (d_of_Z (d_to_int32 r)))
  end.

Definition convertValueToIntegerValue (value : Value) : bool * Value :=
  match value with
  | UNDEFINED_VALUE => (false, UNDEFINED_VALUE)
  | ERROR_VALUE | CLASSAD_VALUE _ | SCLASSAD_VALUE _ | LIST_VALUE _ | SLIST_VALUE _ =>
      (false, ERROR_VALUE)
  | STRING_VALUE s =>
      let '(rvalue, n) := strtod (c_str s) in
      let ivalue := d_to_int64 rvalue in
      if (n =? 0)%nat && (ivalue =? 0) then (false, ERROR_VALUE)
      else (true, INTEGER_VALUE
                    (d_to_int64 (d_mul (d_of_Z ivalue) (ScaleFactor (suffix_factor s n)))))
  | BOOLEAN_VALUE b => (true, INTEGER_VALUE (if b then 1 else 0))
  | INTEGER_VALUE i => (true, INTEGER_VALUE i)
  | REAL_VALUE r => (true, INTEGER_VALUE (d_to_int64 r))
  | ABSOLUTE_TIME_VALUE t => (true, INTEGER_VALUE (secs t))
  | RELATIVE_TIME_VALUE r => (true, INTEGER_VALUE (d_to_int32 r))
  end.
End conversions.

(** ** Well-formedness: the machine-width invariant of values *)
Definition abstime_ok (t : abstime_t) : Prop := in_int64 (secs t).

Definition value_ok (v : Value) : Prop :=
  match v with
  | INTEGER_VALUE i => in_int64 i
  | ABSOLUTE_TIME_VALUE t => abstime_ok t
  | _ => True
  end.

(** The values a literal can carry. *)
Definition is_scalar (v : Value) : bool :=
  match v with
  | CLASSAD_VALUE _ | LIST_VALUE _ | SLIST_VALUE _ | SCLASSAD_VALUE _ => false
  | _ => true
  end.
