(* ===== verification/Lexer.v ===== *)
(** * The lexer ([lexer.cpp], [lexerSource.cpp], [classad/lexer.h])

    The lexer reads a string one character at a time and is driven by [PeekToken] and
    [ConsumeToken]. A token carries the part of [yylval] that belongs to its type. Loops
    have the number of characters that are left as fuel. JSON input ([jsonLex]) and file
    sources are not modelled. *)
From Stdlib Require Import ZArith Lia Ascii String SpecFloat.
From stdpp Require Import base list strings.
From S2P Require Import Prelude Double Numerals Tree Values.

(** ** Tokens *)
Inductive Token :=
| LEX_TOKEN_ERROR
| LEX_END_OF_INPUT
| LEX_TOKEN_TOO_LONG
| LEX_INTEGER_VALUE (i : Z) (f : NumberFactor)
| LEX_REAL_VALUE (r : double) (f : NumberFactor)
| LEX_BOOLEAN_VALUE (b : bool)
| LEX_STRING_VALUE (s : string)
| LEX_UNDEFINED_VALUE | LEX_ERROR_VALUE
| LEX_IDENTIFIER (s : string)
| LEX_SELECTION
| LEX_MULTIPLY | LEX_DIVIDE | LEX_MODULUS | LEX_PLUS | LEX_MINUS
| LEX_BITWISE_AND | LEX_BITWISE_OR | LEX_BITWISE_NOT | LEX_BITWISE_XOR
| LEX_LEFT_SHIFT | LEX_RIGHT_SHIFT | LEX_URIGHT_SHIFT
| LEX_LOGICAL_AND | LEX_LOGICAL_OR | LEX_LOGICAL_NOT
| LEX_LESS_THAN | LEX_LESS_OR_EQUAL | LEX_GREATER_THAN | LEX_GREATER_OR_EQUAL
| LEX_EQUAL | LEX_NOT_EQUAL | LEX_META_EQUAL | LEX_META_NOT_EQUAL
| LEX_BOUND_TO
| LEX_QMARK | LEX_COLON | LEX_COMMA | LEX_SEMICOLON
| LEX_OPEN_BOX | LEX_CLOSE_BOX | LEX_OPEN_PAREN | LEX_CLOSE_PAREN
| LEX_OPEN_BRACE | LEX_CLOSE_BRACE.

Definition dquote : ascii := "034".
Definition squote : ascii := "039".

(** ** The state *)

(** The current character: none fetched, the end of the source, or a character. *)
Inductive Ch := EMPTY | EOF | Chr (c : ascii).

(** [before], the characters read, last first, and [rest], those to read, are the source
    with its offset; [lexBuffer] is kept last character first. *)
Record Lexer := mk_Lexer {
  before : text;
  rest : text;
  ch : Ch;
  lexBuffer : text;
  accumulating : bool;
  tokenType : Token;
  tokenConsumed : bool
}.

Definition set_ch (c : Ch) (lx : Lexer) : Lexer :=
  mk_Lexer (before lx) (rest lx) c (lexBuffer lx) (accumulating lx) (tokenType lx) (tokenConsumed lx).
Definition set_source (b r : text) (lx : Lexer) : Lexer :=
  mk_Lexer b r (ch lx) (lexBuffer lx) (accumulating lx) (tokenType lx) (tokenConsumed lx).
Definition set_buffer (b : text) (acc : bool) (lx : Lexer) : Lexer :=
  mk_Lexer (before lx) (rest lx) (ch lx) b acc (tokenType lx) (tokenConsumed lx).
Definition set_token (t : Token) (lx : Lexer) : Lexer :=
  mk_Lexer (before lx) (rest lx) (ch lx) (lexBuffer lx) (accumulating lx) t (tokenConsumed lx).
Definition set_consumed (b : bool) (lx : Lexer) : Lexer :=
  mk_Lexer (before lx) (rest lx) (ch lx) (lexBuffer lx) (accumulating lx) (tokenType lx) b.

(** A new lexer, and [Initialize]: the type of the last token is kept. *)
Definition new_Lexer : Lexer := mk_Lexer [] [] EMPTY [] false LEX_END_OF_INPUT true.
Definition Initialize (source : text) (lx : Lexer) : Lexer :=
  mk_Lexer [] source EMPTY [] false (tokenType lx) true.

(** ** Reading *)
Definition ReadCharacter (lx : Lexer) : Ch * Lexer :=
  match rest lx with
  | [] => (EOF, lx)
  | c :: r => if Ascii.eqb c "000" then (EOF, lx) else (Chr c, set_source (c :: before lx) r lx)
  end.
Definition UnreadCharacter (lx : Lexer) : Lexer :=
  match before lx with
  | [] => lx
  | c :: b => set_source b (c :: rest lx) lx
  end.

Definition fetch (lx : Lexer) : Lexer :=
  match ch lx with
  | EMPTY => let '(c, lx') := ReadCharacter lx in set_ch c lx'
  | _ => lx
  end.
Definition mark (lx : Lexer) : Lexer := set_buffer [] true lx.
Definition cut (lx : Lexer) : Lexer := set_buffer (lexBuffer lx) false lx.

(** The first half of [wind]: keep the current character. *)
Definition accumulate (lx : Lexer) : Lexer :=
  match ch lx with
  | Chr c => if accumulating lx then set_buffer (c :: lexBuffer lx) true lx else lx
  | _ => lx
  end.
Definition wind (lx : Lexer) : Lexer :=
  match ch lx with
  | EOF => lx
  | _ => let '(c, lx') := ReadCharacter (accumulate lx) in set_ch c lx'
  end.
(** [wind (false)] *)
Definition wind_last (lx : Lexer) : Lexer :=
  match ch lx with
  | EOF => lx
  | _ => set_ch EMPTY (accumulate lx)
  end.

(** A test of the current character; false when there is none. *)
Definition ch_is (p : ascii -> bool) (lx : Lexer) : bool :=
  match ch lx with Chr c => p c | _ => false end.
Definition at_char (c : ascii) : Lexer -> bool := ch_is (Ascii.eqb c).

(** [while (p (ch)) wind ()] *)
Fixpoint wind_while_n (n : nat) (p : ascii -> bool) (lx : Lexer) : Lexer :=
  match n with
  | O => lx
  | S n' => if ch_is p lx then wind_while_n n' p (wind lx) else lx
  end.
Definition wind_while (p : ascii -> bool) (lx : Lexer) : Lexer :=
  wind_while_n (S (length (rest lx))) p lx.

(** What has been accumulated. *)
Definition buffer (lx : Lexer) : text := rev (lexBuffer lx).
Definition buffer_string (lx : Lexer) : string := string_of_list_ascii (buffer lx).

(** ** Numbers *)
Inductive NumberType := NONE | INTEGER | REAL.

Definition lower_is (c : ascii) (lx : Lexer) : bool := ch_is (fun d => Ascii.eqb c (tolower d)) lx.

(** [NumberFactor] of the character after a number. *)
Definition factor_of (lx : Lexer) : NumberFactor :=
  if lower_is "b" lx then B_FACTOR
  else if lower_is "k" lx then K_FACTOR
  else if lower_is "m" lx then M_FACTOR
  else if lower_is "g" lx then G_FACTOR
  else if lower_is "t" lx then T_FACTOR
  else NO_FACTOR.

Section lexer.
(** [_useOldClassAdSemantics] and [oldClassAdLex] *)
Variable oldSemantics : bool.
Variable oldClassAdLex : bool.

(** The end of [tokenizeNumber]; [None] is [CLASSAD_EXCEPT]. *)
Definition finish_number (numberType : NumberType) (lx : Lexer) : option (Token * Lexer) :=
  let lx1 := cut lx in
  let scaled token :=
    match factor_of lx1 with
    | NO_FACTOR => Some (token NO_FACTOR, lx1)
    | f => Some (token f, wind lx1)
    end in
  match numberType with
  | INTEGER =>
      match buffer lx1 with
      | c :: _ :: _ =>
          if oldSemantics && Ascii.eqb c "0" then Some (LEX_TOKEN_ERROR, lx1)
          else scaled (LEX_INTEGER_VALUE (from_chars (buffer lx1)))
      | _ => scaled (LEX_INTEGER_VALUE (from_chars (buffer lx1)))
      end
  | REAL => scaled (LEX_REAL_VALUE (strtod (buffer lx1)))
  | NONE => None
  end.

(** The exponent, then the end. *)
Definition number_exponent (numberType : NumberType) (lx : Lexer) : option (Token * Lexer) :=
  match numberType with
  | REAL =>
      if lower_is "e" lx then
        let lx1 := wind lx in
        let lx2 := if at_char "+" lx1 || at_char "-" lx1 then wind lx1 else lx1 in
        if negb (ch_is isdigit lx2) then Some (LEX_TOKEN_ERROR, cut lx2)
        else finish_number REAL (wind_while isdigit lx2)
      else finish_number REAL lx
  | _ => finish_number numberType lx
  end.

(** The fraction or the selection operator; [och_dot]: the first character was a point. *)
Definition number_fraction (och_dot : bool) (numberType : NumberType) (lx : Lexer)
  : option (Token * Lexer) :=
  if och_dot || at_char "." lx then
    let lx1 := if at_char "." lx then wind lx else lx in
    if ch_is isdigit lx1 then number_exponent REAL (wind_while isdigit lx1)
    else match numberType with
         | NONE => Some (LEX_SELECTION, cut lx1)
         | _ => Some (LEX_TOKEN_ERROR, cut lx1)
         end
  else number_exponent numberType lx.

(** [while (isdigit (ch))], noting whether every digit is octal. *)
Fixpoint octal_digits (n : nat) (octal : bool) (lx : Lexer) : bool * Lexer :=
  match n with
  | O => (octal, lx)
  | S n' =>
      if ch_is isdigit lx then octal_digits n' (octal && ch_is isodigit lx) (wind lx)
      else (octal, lx)
  end.

(** The digits before the point: decimal, or after a leading zero hexadecimal or octal. *)
Definition number_whole (och : ascii) (lx : Lexer) : option (Token * Lexer) :=
  if Ascii.eqb och "0" then
    if lower_is "x" lx then
      let lx1 := wind lx in
      if negb (ch_is isxdigit lx1) then Some (LEX_TOKEN_ERROR, cut lx1)
      else number_fraction false INTEGER (wind_while isxdigit lx1)
    else
      let '(octal, lx1) := octal_digits (S (length (rest lx))) true lx in
      if at_char "." lx1 || lower_is "e" lx1 then number_fraction false REAL lx1
      else if negb octal then Some (LEX_TOKEN_ERROR, cut lx1)
      else number_fraction false INTEGER lx1
  else if isdigit och then
    let lx1 := wind_while isdigit lx in
    number_fraction false (if at_char "." lx1 || lower_is "e" lx1 then REAL else INTEGER) lx1
  else number_fraction (Ascii.eqb och ".") NONE lx.

Definition tokenizeNumber (lx : Lexer) : option (Token * Lexer) :=
  match ch lx with
  | Chr och =>
      let lx1 := wind (mark lx) in
      if Ascii.eqb och "-" then
        match ch lx1 with
        | Chr c1 =>
            if isdigit c1 then number_whole c1 (wind lx1)
            else if Ascii.eqb c1 "." then
              let '(ch2, lx2) := ReadCharacter lx1 in
              let lx3 := match ch2 with Chr _ => UnreadCharacter lx2 | _ => lx2 end in
              match ch2 with
              | Chr c2 => if isdigit c2 then number_whole och lx3 else Some (LEX_MINUS, cut lx3)
              | _ => Some (LEX_MINUS, cut lx3)
              end
            else Some (LEX_MINUS, cut lx1)
        | _ => Some (LEX_MINUS, cut lx1)
        end
      else number_whole och lx1
  | _ => None
  end.

(** ** Identifiers and reserved words *)
Definition reserved_word (s : string) : Token :=
  if bool_decide (attr_key s = "true") then LEX_BOOLEAN_VALUE true
  else if bool_decide (attr_key s = "false") then LEX_BOOLEAN_VALUE false
  else if bool_decide (attr_key s = "undefined") then LEX_UNDEFINED_VALUE
  else if bool_decide (attr_key s = "error") then LEX_ERROR_VALUE
  else if bool_decide (attr_key s = "is") then LEX_META_EQUAL
  else if bool_decide (attr_key s = "isnt") then LEX_META_NOT_EQUAL
  else LEX_IDENTIFIER s.

Definition isword (c : ascii) : bool := isalnum c || Ascii.eqb c "_".

Definition tokenizeAlphaHead (lx : Lexer) : Token * Lexer :=
  let lx1 := wind_while isalpha (mark lx) in
  if ch_is (fun c => isdigit c || Ascii.eqb c "_") lx1 then
    let lx2 := cut (wind_while isword (wind lx1)) in
    (LEX_IDENTIFIER (buffer_string lx2), lx2)
  else
    let lx2 := cut lx1 in (reserved_word (buffer_string lx2), lx2).

(** ** Strings *)

(** [convert_escapes]; the flag is [validStr]. *)
Fixpoint convert_escapes (s : text) : text * bool :=
  match s with
  | [] => ([], true)
  | c :: s1 =>
      if negb (Ascii.eqb c "\") then let '(r, v) := convert_escapes s1 in (c :: r, v)
      else match s1 with
      | [] => ([c], true)
      | e :: s2 =>
          let simple d := let '(r, v) := convert_escapes s2 in (d :: r, v) in
          let octal n s' :=
            let '(r, v) := (s' : text * bool) in
            (ascii_of_nat (Z.to_nat (n mod 256)) :: r, v && negb (n mod 256 =? 0)%Z) in
          if Ascii.eqb e "a" then simple "007"%char
          else if Ascii.eqb e "b" then simple "008"%char
          else if Ascii.eqb e "f" then simple "012"%char
          else if Ascii.eqb e "n" then simple "010"%char
          else if Ascii.eqb e "r" then simple "013"%char
          else if Ascii.eqb e "t" then simple "009"%char
          else if Ascii.eqb e "v" then simple "011"%char
          else if isodigit e then
            let n1 := digit_value e in
            match s2 with
            | d2 :: s3 =>
                if isodigit d2 then
                  let n2 := (n1 * 8 + digit_value d2)%Z in
                  match s3 with
                  | d3 :: s4 =>
                      if (n2 <? 32)%Z && isodigit d3
                      then octal (n2 * 8 + digit_value d3)%Z (convert_escapes s4)
                      else octal n2 (convert_escapes s3)
                  | [] => octal n2 ([], true)
                  end
                else octal n1 (convert_escapes s2)
            | [] => octal n1 ([], true)
            end
          else simple e
      end
  end.

(** The inner loop: up to a delimiter that no odd backslash precedes. *)
Fixpoint scan_string (n : nat) (delim : ascii) (oldCh_whack oddBackWhacks : bool) (lx : Lexer) : Lexer :=
  match n with
  | O => lx
  | S n' =>
      match ch lx with
      | Chr c =>
          if negb (Ascii.eqb c delim) || (oldCh_whack && oddBackWhacks) then
            scan_string n' delim (Ascii.eqb c "\") (negb oddBackWhacks && Ascii.eqb c "\") (wind lx)
          else lx
      | _ => lx
      end
  end.

(** The first character that is no white space. *)
Fixpoint read_past_space (n : nat) (lx : Lexer) : Ch * Lexer :=
  let '(c, lx') := ReadCharacter lx in
  match n, c with
  | S n', Chr d => if isspace d then read_past_space n' lx' else (c, lx')
  | _, _ => (c, lx')
  end.

(** The outer loop, which concatenates adjacent strings; false at the end of the source. *)
Fixpoint string_pieces (n : nat) (delim : ascii) (lx : Lexer) : bool * Lexer :=
  match n with
  | O => (false, lx)
  | S n' =>
      let lx1 := scan_string (S (length (rest lx))) delim false false lx in
      if at_char delim lx1 then
        let '(tempch, lx2) := read_past_space (length (rest lx1)) lx1 in
        match tempch with
        | Chr c =>
            if Ascii.eqb c delim then
              let lx3 := wind lx2 in
              string_pieces n' delim (set_buffer (tl (lexBuffer lx3)) (accumulating lx3) lx3)
            else (true, set_ch tempch lx2)
        | _ => (true, set_ch tempch lx2)
        end
      else (false, lx1)
  end.

Definition string_token (delim : ascii) (s : string) : Token :=
  if Ascii.eqb delim dquote then LEX_STRING_VALUE s else LEX_IDENTIFIER s.

(** [tokenizeStringOld]: a backslash only matters before a quote that is not the last
    character of the line. [oldCh] is the last character of the round, if it had one. *)
Fixpoint string_old (n : nat) (delim : ascii) (lx : Lexer) : bool * Lexer :=
  match n with
  | O => (false, lx)
  | S n' =>
      let lx1 := wind_while (fun c => negb (Ascii.eqb c delim)) lx in
      let oldCh := if (length (rest lx1) <? length (rest lx))%nat then head (lexBuffer lx1) else None in
      if at_char delim lx1 then
        match oldCh with
        | Some o =>
            if Ascii.eqb o "\" then
              let '(tempch, lx2) := ReadCharacter lx1 in
              match tempch with
              | Chr c =>
                  if Ascii.eqb c "010" then (true, lx2)
                  else string_old n' delim
                         (set_ch tempch (set_buffer (delim :: tl (lexBuffer lx2)) (accumulating lx2) lx2))
              | _ => (true, lx2)
              end
            else (true, lx1)
        | None => (true, lx1)
        end
      else (false, lx1)
  end.

Definition tokenizeString (delim : ascii) (lx : Lexer) : Token * Lexer :=
  let lx0 := mark (wind lx) in
  let n := S (length (rest lx)) in
  let '(complete, lx1) := if oldClassAdLex then string_old n delim lx0 else string_pieces n delim lx0 in
  if negb complete then (LEX_TOKEN_ERROR, lx1)
  else
    let lx2 := cut lx1 in
    let lx3 := if at_char delim lx2 then wind_last lx2 else lx2 in
    if oldClassAdLex then (string_token delim (buffer_string lx3), lx3)
    else
      let '(s, validStr) := convert_escapes (buffer lx3) in
      (if (validStr : bool) then string_token delim (string_of_list_ascii s) else LEX_TOKEN_ERROR, lx3).

(** ** Punctuation and operators *)

(** A token that becomes a longer one when the next character is [c]. *)
Definition longer (short long : Token) (c : ascii) (lx : Lexer) : Token * Lexer :=
  if at_char c lx then (long, wind_last lx) else (short, lx).

Definition tokenizePunctOperator (lx : Lexer) : Token * Lexer :=
  let lx0 := wind_last (mark lx) in
  let done t := (t, cut lx0) in
  let finish (r : Token * Lexer) := (r.1, cut r.2) in
  match ch lx with
  | Chr oldch =>
      if Ascii.eqb oldch "." then done LEX_SELECTION
      else if Ascii.eqb oldch "*" then done LEX_MULTIPLY
      else if Ascii.eqb oldch "/" then done LEX_DIVIDE
      else if Ascii.eqb oldch "%" then done LEX_MODULUS
      else if Ascii.eqb oldch "+" then done LEX_PLUS
      else if Ascii.eqb oldch "-" then done LEX_MINUS
      else if Ascii.eqb oldch "~" then done LEX_BITWISE_NOT
      else if Ascii.eqb oldch "^" then done LEX_BITWISE_XOR
      else if Ascii.eqb oldch "?" then done LEX_QMARK
      else if Ascii.eqb oldch ":" then done LEX_COLON
      else if Ascii.eqb oldch ";" then done LEX_SEMICOLON
      else if Ascii.eqb oldch "," then done LEX_COMMA
      else if Ascii.eqb oldch "[" then done LEX_OPEN_BOX
      else if Ascii.eqb oldch "]" then done LEX_CLOSE_BOX
      else if Ascii.eqb oldch "(" then done LEX_OPEN_PAREN
      else if Ascii.eqb oldch ")" then done LEX_CLOSE_PAREN
      else if Ascii.eqb oldch "{" then done LEX_OPEN_BRACE
      else if Ascii.eqb oldch "}" then done LEX_CLOSE_BRACE
      else if Ascii.eqb oldch "&" then finish (longer LEX_BITWISE_AND LEX_LOGICAL_AND "&" (fetch lx0))
      else if Ascii.eqb oldch "|" then finish (longer LEX_BITWISE_OR LEX_LOGICAL_OR "|" (fetch lx0))
      else if Ascii.eqb oldch "<" then
        let lx1 := fetch lx0 in
        if at_char "=" lx1 then finish (LEX_LESS_OR_EQUAL, wind_last lx1)
        else finish (longer LEX_LESS_THAN LEX_LEFT_SHIFT "<" lx1)
      else if Ascii.eqb oldch ">" then
        let lx1 := fetch lx0 in
        if at_char "=" lx1 then finish (LEX_GREATER_OR_EQUAL, wind_last lx1)
        else if at_char ">" lx1 then finish (longer LEX_RIGHT_SHIFT LEX_URIGHT_SHIFT ">" (wind lx1))
        else finish (LEX_GREATER_THAN, lx1)
      else if Ascii.eqb oldch "=" then
        let lx1 := fetch lx0 in
        if at_char "=" lx1 then finish (LEX_EQUAL, wind_last lx1)
        else if at_char "?" lx1 then
          let lx2 := wind lx1 in
          if at_char "=" lx2 then finish (LEX_META_EQUAL, wind_last lx2) else (LEX_TOKEN_ERROR, lx2)
        else if at_char "!" lx1 then
          let '(extra_lookahead, lx2) := ReadCharacter lx1 in
          let lx3 := UnreadCharacter lx2 in
          match extra_lookahead with
          | Chr c => if Ascii.eqb c "=" then finish (LEX_META_NOT_EQUAL, wind_last (wind lx3))
                     else finish (LEX_BOUND_TO, lx3)
          | _ => finish (LEX_BOUND_TO, lx3)
          end
        else finish (LEX_BOUND_TO, lx1)
      else if Ascii.eqb oldch "!" then finish (longer LEX_LOGICAL_NOT LEX_NOT_EQUAL "=" (fetch lx0))
      else (LEX_TOKEN_ERROR, lx0)
  | _ => (LEX_TOKEN_ERROR, lx0)
  end.

(** ** The next token *)

(** After one of these a minus sign is the binary operator. *)
Definition ends_operand (t : Token) : bool :=
  match t with
  | LEX_INTEGER_VALUE _ _ | LEX_REAL_VALUE _ _ | LEX_BOOLEAN_VALUE _ | LEX_STRING_VALUE _
  | LEX_UNDEFINED_VALUE | LEX_ERROR_VALUE | LEX_IDENTIFIER _ | LEX_SELECTION
  | LEX_CLOSE_BOX | LEX_CLOSE_PAREN | LEX_CLOSE_BRACE => true
  | _ => false
  end.

(** The loop over the characters of a C-style comment. *)
Fixpoint comment_loop (n : nat) (lx : Lexer) : Lexer :=
  match n with
  | O => lx
  | S n' =>
      let star := at_char "*" lx in
      let lx1 := wind lx in
      match ch lx1 with
      | Chr c => if star && Ascii.eqb c "/" then lx1 else comment_loop n' lx1
      | _ => lx1
      end
  end.

(** What comes before a token: nothing more, a division operator, an unclosed comment. *)
Inductive Skipped := SkipDone | SkipDivide | SkipError.

(** White space and comments. *)
Fixpoint skip_blanks (n : nat) (lx : Lexer) : Skipped * Lexer :=
  match n with
  | O => (SkipDone, lx)
  | S n' =>
      if ch_is isspace lx then skip_blanks n' (wind lx)
      else if at_char "/" lx then
        let lx1 := wind (mark lx) in
        if at_char "/" lx1 then skip_blanks n' (wind_while (fun c => negb (Ascii.eqb c "010")) lx1)
        else if at_char "*" lx1 then
          let lx2 := comment_loop (S (length (rest lx1))) (set_ch (Chr "010") lx1) in
          match ch lx2 with
          | EOF => (SkipError, lx2)
          | _ => skip_blanks n' (wind lx2)
          end
        else (SkipDivide, cut lx1)
      else (SkipDone, lx)
  end.

Definition next_token (lx : Lexer) : option (Token * Lexer) :=
  match ch lx with
  | Chr c =>
      if Ascii.eqb c "-" then
        if ends_operand (tokenType lx) then Some (tokenizePunctOperator lx) else tokenizeNumber lx
      else if isdigit c || Ascii.eqb c "." then tokenizeNumber lx
      else if isalpha c || Ascii.eqb c "_" then Some (tokenizeAlphaHead lx)
      else if Ascii.eqb c dquote then Some (tokenizeString dquote lx)
      else if Ascii.eqb c squote then Some (tokenizeString squote lx)
      else Some (tokenizePunctOperator lx)
  | _ => Some (LEX_END_OF_INPUT, lx)
  end.

(** [PeekToken]; [None] is [CLASSAD_EXCEPT]. *)
Definition PeekToken (lx : Lexer) : option (Token * Lexer) :=
  if negb (tokenConsumed lx) then Some (tokenType lx, lx)
  else
    let lx0 := fetch (set_consumed false lx) in
    let keep (r : Token * Lexer) := (r.1, set_token r.1 r.2) in
    match skip_blanks (S (length (rest lx0))) lx0 with
    | (SkipDivide, lx1) => Some (keep (LEX_DIVIDE, lx1))
    | (SkipError, lx1) => Some (keep (LEX_TOKEN_ERROR, lx1))
    | (SkipDone, lx1) => keep <$> next_token lx1
    end.
Definition ConsumeToken (lx : Lexer) : option (Token * Lexer) :=
  '(t, lx') ← PeekToken lx; Some (t, set_consumed true lx').
End lexer.
