(* ===== verification/Operators.v ===== *)
(** * Operators: [Operation::_doOperation] and what it calls ([classad/operators.cpp])

    Every function returns the value the C++ code writes to [result], together with the
    mask of significant children ([SigValues]); [None] / [OpExcept] stand for
    [CLASSAD_EXCEPT]. Subscription needs the evaluator, so [_doOperation] answers it
    with a request that [Eval] serves. *)
From Stdlib Require Import ZArith Lia Ascii String.
From stdpp Require Import base list strings.
From S2P Require Import Prelude Double Tree Values.

(** ** Operator classes *)

(** The position in the [OpKind] enumeration. *)
Definition op_num (op : OpKind) : Z :=
  match op with
  | __NO_OP__ => 0
  | LESS_THAN_OP => 1 | LESS_OR_EQUAL_OP => 2 | NOT_EQUAL_OP => 3 | EQUAL_OP => 4
  | GREATER_OR_EQUAL_OP => 5 | GREATER_THAN_OP => 6 | META_EQUAL_OP => 7 | META_NOT_EQUAL_OP => 8
  | UNARY_PLUS_OP => 9 | UNARY_MINUS_OP => 10 | ADDITION_OP => 11 | SUBTRACTION_OP => 12
  | MULTIPLICATION_OP => 13 | DIVISION_OP => 14 | MODULUS_OP => 15
  | LOGICAL_NOT_OP => 16 | LOGICAL_OR_OP => 17 | LOGICAL_AND_OP => 18
  | BITWISE_NOT_OP => 19 | BITWISE_OR_OP => 20 | BITWISE_XOR_OP => 21 | BITWISE_AND_OP => 22
  | LEFT_SHIFT_OP => 23 | RIGHT_SHIFT_OP => 24 | URIGHT_SHIFT_OP => 25
  | PARENTHESES_OP => 26 | SUBSCRIPT_OP => 27 | TERNARY_OP => 28
  end.

Definition op_between (lo hi op : OpKind) : bool :=
  (op_num lo <=? op_num op) && (op_num op <=? op_num hi).
Definition is_comparison : OpKind -> bool := op_between LESS_THAN_OP META_NOT_EQUAL_OP.
Definition is_arithmetic : OpKind -> bool := op_between UNARY_PLUS_OP MODULUS_OP.
Definition is_logical : OpKind -> bool := op_between LOGICAL_NOT_OP LOGICAL_AND_OP.
Definition is_bitwise : OpKind -> bool := op_between BITWISE_NOT_OP URIGHT_SHIFT_OP.

Definition IsStrictOperator (op : OpKind) : bool :=
  match op with
  | META_EQUAL_OP | META_NOT_EQUAL_OP | LOGICAL_AND_OP | LOGICAL_OR_OP | TERNARY_OP => false
  | _ => true
  end.

Definition PrecedenceLevel (op : OpKind) : Z :=
  match op with
  | SUBSCRIPT_OP => 12
  | LOGICAL_NOT_OP | BITWISE_NOT_OP | UNARY_PLUS_OP | UNARY_MINUS_OP => 11
  | MULTIPLICATION_OP | DIVISION_OP | MODULUS_OP => 10
  | ADDITION_OP | SUBTRACTION_OP => 9
  | LEFT_SHIFT_OP | RIGHT_SHIFT_OP | URIGHT_SHIFT_OP => 8
  | LESS_THAN_OP | LESS_OR_EQUAL_OP | GREATER_OR_EQUAL_OP | GREATER_THAN_OP => 7
  | NOT_EQUAL_OP | EQUAL_OP | META_EQUAL_OP | META_NOT_EQUAL_OP => 6
  | BITWISE_AND_OP => 5
  | BITWISE_XOR_OP => 4
  | BITWISE_OR_OP => 3
  | LOGICAL_AND_OP => 2
  | LOGICAL_OR_OP => 1
  | TERNARY_OP => 0
  | __NO_OP__ | PARENTHESES_OP => -1
  end.

Definition SIG_NONE : Z := 0.
Definition SIG_CHLD1 : Z := 1.
Definition SIG_CHLD2 : Z := 2.
Definition SIG_CHLD3 : Z := 4.
Definition SIG_BOTH : Z := Z.lor SIG_CHLD1 SIG_CHLD2.

(** What [_doOperation] answers: a significance mask and a value, a request to
    evaluate an attribute of a ClassAd or an element of a list, or [CLASSAD_EXCEPT]. *)
Inductive OpResult : Type :=
| OpDone (sig : Z) (result : Value)
| OpSubscriptAd (ad : positive) (index : string)
| OpSubscriptList (l : list ExprTree) (index : Z)
| OpExcept.

Definition op_result (o : option (Z * Value)) : OpResult :=
  match o with Some (s, v) => OpDone s v | None => OpExcept end.

(** ** Numeric promotion *)
Definition promote_bool (v : Value) : Value :=
  match v with BOOLEAN_VALUE b => INTEGER_VALUE (if b then 1 else 0) | _ => v end.

Definition coerceToNumber (v1 v2 : Value) : ValueType * Value * Value :=
  if bool_decide (is_Some (IsClassAdValue v1)) || bool_decide (is_Some (IsClassAdValue v2))
  then (T_CLASSAD, v1, v2) else
  if bool_decide (is_Some (IsListValue v1)) || bool_decide (is_Some (IsListValue v2))
  then (T_LIST, v1, v2) else
  if bool_decide (is_Some (IsStringValue v1)) || bool_decide (is_Some (IsStringValue v2))
  then (T_STRING, v1, v2) else
  if IsUndefinedValue v1 || IsUndefinedValue v2 then (T_UNDEFINED, v1, v2) else
  if IsErrorValue v1 || IsErrorValue v2 then (T_ERROR, v1, v2) else
  if bool_decide (is_Some (IsAbsoluteTimeValue v1)) || bool_decide (is_Some (IsAbsoluteTimeValue v2))
  then (T_ABSOLUTE_TIME, v1, v2) else
  if bool_decide (is_Some (IsRelativeTimeValue v1)) || bool_decide (is_Some (IsRelativeTimeValue v2))
  then (T_RELATIVE_TIME, v1, v2) else
  match promote_bool v1, promote_bool v2 with
  | INTEGER_VALUE i1, INTEGER_VALUE i2 => (T_INTEGER, INTEGER_VALUE i1, INTEGER_VALUE i2)
  | REAL_VALUE r1, REAL_VALUE r2 => (T_REAL, REAL_VALUE r1, REAL_VALUE r2)
  | INTEGER_VALUE i1, REAL_VALUE r2 => (T_REAL, REAL_VALUE (d_of_Z i1), REAL_VALUE r2)
  | REAL_VALUE r1, INTEGER_VALUE i2 => (T_REAL, REAL_VALUE r1, REAL_VALUE (d_of_Z i2))
  | w1, w2 => (T_REAL, w1, w2)
  end.

(** ** Comparisons

    Each function reads its operands' payload after [doComparison] has established
    their type; [None] is the [CLASSAD_EXCEPT] of the operator switch. *)
Definition compareStrings (op : OpKind) (s1 s2 : string) : Value :=
  let cmp := match op with
             | META_EQUAL_OP | META_NOT_EQUAL_OP => strcmp s1 s2
             | _ => strcasecmp s1 s2
             end in
  BOOLEAN_VALUE
    match cmp with
    | Lt => match op with
            | LESS_THAN_OP | LESS_OR_EQUAL_OP | META_NOT_EQUAL_OP | NOT_EQUAL_OP => true
            | _ => false
            end
    | Eq => match op with
            | LESS_OR_EQUAL_OP | META_EQUAL_OP | EQUAL_OP | GREATER_OR_EQUAL_OP => true
            | _ => false
            end
    | Gt => match op with
            | GREATER_THAN_OP | GREATER_OR_EQUAL_OP | META_NOT_EQUAL_OP | NOT_EQUAL_OP => true
            | _ => false
            end
    end.

Definition compareAbsoluteTimes (op : OpKind) (t1 t2 : abstime_t) : option Value :=
  match op with
  | LESS_THAN_OP => Some (BOOLEAN_VALUE (secs t1 <? secs t2))
  | LESS_OR_EQUAL_OP => Some (BOOLEAN_VALUE (secs t1 <=? secs t2))
  | EQUAL_OP => Some (BOOLEAN_VALUE (secs t1 =? secs t2))
  | META_EQUAL_OP => Some (BOOLEAN_VALUE ((secs t1 =? secs t2) && (offset t1 =? offset t2)))
  | NOT_EQUAL_OP => Some (BOOLEAN_VALUE (negb (secs t1 =? secs t2)))
  | META_NOT_EQUAL_OP =>
      Some (BOOLEAN_VALUE (negb (secs t1 =? secs t2) || negb (offset t1 =? offset t2)))
  | GREATER_THAN_OP => Some (BOOLEAN_VALUE (secs t2 <? secs t1))
  | GREATER_OR_EQUAL_OP => Some (BOOLEAN_VALUE (secs t2 <=? secs t1))
  | _ => None
  end.

(** The comparison of two doubles that relative times and reals share; [!=] is the
    negation of [==], so it holds when one side is not a number. *)
Definition compare_doubles (op : OpKind) (r1 r2 : double) : option Value :=
  match op with
  | LESS_THAN_OP => Some (BOOLEAN_VALUE (d_ltb r1 r2))
  | LESS_OR_EQUAL_OP => Some (BOOLEAN_VALUE (d_leb r1 r2))
  | EQUAL_OP | META_EQUAL_OP => Some (BOOLEAN_VALUE (d_eqb r1 r2))
  | NOT_EQUAL_OP | META_NOT_EQUAL_OP => Some (BOOLEAN_VALUE (negb (d_eqb r1 r2)))
  | GREATER_THAN_OP => Some (BOOLEAN_VALUE (d_ltb r2 r1))
  | GREATER_OR_EQUAL_OP => Some (BOOLEAN_VALUE (d_leb r2 r1))
  | _ => None
  end.

Definition compareRelativeTimes (op : OpKind) (r1 r2 : double) : option Value :=
  compare_doubles op r1 r2.
Definition compareReals (op : OpKind) (r1 r2 : double) : option Value :=
  compare_doubles op r1 r2.

Definition compareBools (op : OpKind) (b1 b2 : bool) : option Value :=
  match op with
  | LESS_THAN_OP => Some (BOOLEAN_VALUE (negb b1 && b2))
  | LESS_OR_EQUAL_OP => Some (BOOLEAN_VALUE (implb b1 b2))
  | EQUAL_OP | META_EQUAL_OP => Some (BOOLEAN_VALUE (Bool.eqb b1 b2))
  | NOT_EQUAL_OP | META_NOT_EQUAL_OP => Some (BOOLEAN_VALUE (xorb b1 b2))
  | GREATER_THAN_OP => Some (BOOLEAN_VALUE (b1 && negb b2))
  | GREATER_OR_EQUAL_OP => Some (BOOLEAN_VALUE (implb b2 b1))
  | _ => None
  end.

Definition compareIntegers (op : OpKind) (i1 i2 : Z) : option Value :=
  match op with
  | LESS_THAN_OP => Some (BOOLEAN_VALUE (i1 <? i2))
  | LESS_OR_EQUAL_OP => Some (BOOLEAN_VALUE (i1 <=? i2))
  | EQUAL_OP | META_EQUAL_OP => Some (BOOLEAN_VALUE (i1 =? i2))
  | NOT_EQUAL_OP | META_NOT_EQUAL_OP => Some (BOOLEAN_VALUE (negb (i1 =? i2)))
  | GREATER_THAN_OP => Some (BOOLEAN_VALUE (i2 <? i1))
  | GREATER_OR_EQUAL_OP => Some (BOOLEAN_VALUE (i2 <=? i1))
  | _ => None
  end.

Definition is_meta (op : OpKind) : bool :=
  match op with META_EQUAL_OP | META_NOT_EQUAL_OP => true | _ => false end.

(** The tail of [doComparison]: the switch on the coerced type. *)
Definition compareCoerced (op : OpKind) (ct : ValueType) (v1 v2 : Value) : option Value :=
  match ct with
  | T_STRING => match v1, v2 with
                | STRING_VALUE s1, STRING_VALUE s2 => Some (compareStrings op s1 s2)
                | _, _ => Some ERROR_VALUE
                end
  | T_INTEGER => match v1, v2 with
                 | INTEGER_VALUE i1, INTEGER_VALUE i2 => compareIntegers op i1 i2
                 | _, _ => None
                 end
  | T_REAL => match v1, v2 with
              | REAL_VALUE r1, REAL_VALUE r2 => compareReals op r1 r2
              | _, _ => None
              end
  | T_BOOLEAN => match v1, v2 with
                 | BOOLEAN_VALUE b1, BOOLEAN_VALUE b2 => compareBools op b1 b2
                 | _, _ => Some ERROR_VALUE
                 end
  | T_LIST | T_SLIST | T_CLASSAD | T_SCLASSAD => Some ERROR_VALUE
  | T_ABSOLUTE_TIME => match v1, v2 with
                       | ABSOLUTE_TIME_VALUE t1, ABSOLUTE_TIME_VALUE t2 =>
                           compareAbsoluteTimes op t1 t2
                       | _, _ => Some ERROR_VALUE
                       end
  | T_RELATIVE_TIME => match v1, v2 with
                       | RELATIVE_TIME_VALUE r1, RELATIVE_TIME_VALUE r2 =>
                           compareRelativeTimes op r1 r2
                       | _, _ => Some ERROR_VALUE
                       end
  | T_NULL | T_ERROR | T_UNDEFINED => None
  end.

(** [doComparison]: the meta operators compare types first and never promote. *)
Definition doComparison (op : OpKind) (v1 v2 : Value) : option (Z * Value) :=
  let '(ct, w1, w2) := if is_meta op then (GetType v1, v1, v2) else coerceToNumber v1 v2 in
  if is_meta op && negb (bool_decide (GetType w1 = GetType w2))
  then Some (SIG_BOTH, BOOLEAN_VALUE (bool_decide (op = META_NOT_EQUAL_OP)))
  else if is_meta op && IsExceptional w1
  then Some (SIG_BOTH, BOOLEAN_VALUE (bool_decide (op = META_EQUAL_OP)))
  else v ← compareCoerced op ct w1 w2; Some (SIG_BOTH, v).

(** ** Arithmetic *)

(** [errno] is set by [MODULUS_OP] only; a result of [+infinity] is an error. *)
Definition doRealArithmetic (op : OpKind) (r1 r2 : double) : option (Z * Value) :=
  let finish (comp : double) :=
    Some (SIG_BOTH, if d_eqb comp HUGE_VAL then ERROR_VALUE else REAL_VALUE comp) in
  match op with
  | ADDITION_OP => finish (d_add r1 r2)
  | SUBTRACTION_OP => finish (d_sub r1 r2)
  | MULTIPLICATION_OP => finish (d_mul r1 r2)
  | DIVISION_OP => finish (d_div r1 r2)
  | MODULUS_OP => Some (SIG_BOTH, ERROR_VALUE)
  | _ => None
  end.

(** [doTimeArithmetic], one branch of the code per line, in the code's order. *)
Definition doTimeArithmetic (op : OpKind) (v1 v2 : Value) : Z * Value :=
  let done v := (SIG_BOTH, v) in
  match op, v1, v2 with
  | ADDITION_OP, ABSOLUTE_TIME_VALUE a, RELATIVE_TIME_VALUE r =>
      done (ABSOLUTE_TIME_VALUE (mk_abstime (wrap64 (secs a + d_to_int32 r)) (offset a)))
  | ADDITION_OP, RELATIVE_TIME_VALUE r, ABSOLUTE_TIME_VALUE a =>
      done (ABSOLUTE_TIME_VALUE (mk_abstime (wrap64 (secs a + d_to_int32 r)) (offset a)))
  | ADDITION_OP, RELATIVE_TIME_VALUE r1, RELATIVE_TIME_VALUE r2 =>
      done (RELATIVE_TIME_VALUE (d_add r1 r2))
  | SUBTRACTION_OP, ABSOLUTE_TIME_VALUE a1, ABSOLUTE_TIME_VALUE a2 =>
      done (RELATIVE_TIME_VALUE (d_of_Z (wrap64 (secs a1 - secs a2))))
  | SUBTRACTION_OP, ABSOLUTE_TIME_VALUE a, RELATIVE_TIME_VALUE r =>
      done (ABSOLUTE_TIME_VALUE (mk_abstime (wrap64 (secs a - d_to_int32 r)) (offset a)))
  | SUBTRACTION_OP, RELATIVE_TIME_VALUE r1, RELATIVE_TIME_VALUE r2 =>
      done (RELATIVE_TIME_VALUE (d_sub r1 r2))
  | MULTIPLICATION_OP, RELATIVE_TIME_VALUE r, INTEGER_VALUE n =>
      done (RELATIVE_TIME_VALUE (d_mul r (d_of_Z n)))
  | DIVISION_OP, RELATIVE_TIME_VALUE r, INTEGER_VALUE n =>
      done (RELATIVE_TIME_VALUE (d_div r (d_of_Z n)))
  | MULTIPLICATION_OP, RELATIVE_TIME_VALUE r, REAL_VALUE n =>
      done (RELATIVE_TIME_VALUE (d_mul r n))
  | DIVISION_OP, RELATIVE_TIME_VALUE r, REAL_VALUE n =>
      done (RELATIVE_TIME_VALUE (d_div r n))
  | MULTIPLICATION_OP, INTEGER_VALUE n, RELATIVE_TIME_VALUE r =>
      done (RELATIVE_TIME_VALUE (d_mul (d_of_Z n) r))
      (* the two operands are read through the wrong members of the union of doubles,
         which swaps them *)
  | MULTIPLICATION_OP, REAL_VALUE n, RELATIVE_TIME_VALUE r =>
      done (RELATIVE_TIME_VALUE (d_mul n r))
  | _, _, _ => done ERROR_VALUE
  end.

(** The operand types [doArithmetic] accepts. *)
Definition arith_operand (v : Value) : bool :=
  match v with
  | INTEGER_VALUE _ | REAL_VALUE _ | ABSOLUTE_TIME_VALUE _ | RELATIVE_TIME_VALUE _
  | BOOLEAN_VALUE _ => true
  | _ => false
  end.

(** Integer division and remainder truncate; the two cases that would trap are caught. *)
Definition int_divide (i1 i2 : Z) : Value :=
  if (i1 =? INT64_MIN) && (i2 =? -1) then INTEGER_VALUE INT64_MAX
  else if negb (i2 =? 0) then INTEGER_VALUE (Z.quot i1 i2) else ERROR_VALUE.
Definition int_modulus (i1 i2 : Z) : Value :=
  if (i1 =? INT64_MIN) && (i2 =? -1) then INTEGER_VALUE 0
  else if negb (i2 =? 0) then INTEGER_VALUE (Z.rem i1 i2) else ERROR_VALUE.

(** The unary minus branch. For a boolean the code sets the negated boolean, does not
    return, and overwrites it with the error value below. *)
Definition doUnaryMinus (v1 : Value) : Z * Value :=
  match v1 with
  | INTEGER_VALUE i1 => (SIG_CHLD1, INTEGER_VALUE (wrap64 (- i1)))
  | REAL_VALUE r1 => (SIG_CHLD1, REAL_VALUE (d_opp r1))
  | RELATIVE_TIME_VALUE t1 => (SIG_CHLD1, RELATIVE_TIME_VALUE (d_opp t1))
  | UNDEFINED_VALUE | ERROR_VALUE => (SIG_CHLD1, v1)
  | _ => (SIG_CHLD1, ERROR_VALUE)
  end.

(** [doArithmetic]; sums, differences and products wrap around at 64 bits. *)
Definition doArithmetic (op : OpKind) (v1 v2 : Value) : option (Z * Value) :=
  if negb (arith_operand v1) || (negb (bool_decide (op = UNARY_MINUS_OP)) && negb (arith_operand v2))
  then Some (SIG_BOTH, ERROR_VALUE)
  else if bool_decide (op = UNARY_MINUS_OP) then Some (doUnaryMinus v1)
  else
    let '(ct, w1, w2) := coerceToNumber v1 v2 in
    match ct, w1, w2 with
    | T_INTEGER, INTEGER_VALUE i1, INTEGER_VALUE i2 =>
        match op with
        | ADDITION_OP => Some (SIG_BOTH, INTEGER_VALUE (wrap64 (i1 + i2)))
        | SUBTRACTION_OP => Some (SIG_BOTH, INTEGER_VALUE (wrap64 (i1 - i2)))
        | MULTIPLICATION_OP => Some (SIG_BOTH, INTEGER_VALUE (wrap64 (i1 * i2)))
        | DIVISION_OP => Some (SIG_BOTH, int_divide i1 i2)
        | MODULUS_OP => Some (SIG_BOTH, int_modulus i1 i2)
        | _ => None
        end
    | T_REAL, REAL_VALUE r1, REAL_VALUE r2 => doRealArithmetic op r1 r2
    | T_ABSOLUTE_TIME, _, _ | T_RELATIVE_TIME, _, _ => Some (doTimeArithmetic op w1 w2)
    | _, _, _ => None
    end.

(** ** Logic *)

(** [doLogical] first turns numbers into booleans. *)
Definition coerce_bool (v : Value) : Value :=
  match IsBooleanValueEquiv v with Some b => BOOLEAN_VALUE b | None => v end.

Definition logical_operand (v : Value) : bool :=
  match v with UNDEFINED_VALUE | ERROR_VALUE | BOOLEAN_VALUE _ => true | _ => false end.

Definition doLogical (op : OpKind) (v1 v2 : Value) : option (Z * Value) :=
  let w1 := coerce_bool v1 in
  let w2 := coerce_bool v2 in
  if negb (logical_operand w1) then Some (SIG_CHLD1, ERROR_VALUE)
  else if negb (logical_operand w2) then Some (SIG_CHLD2, ERROR_VALUE)
  else match op with
  | LOGICAL_NOT_OP =>
      Some (SIG_CHLD1, match w1 with BOOLEAN_VALUE b1 => BOOLEAN_VALUE (negb b1) | _ => w1 end)
  | LOGICAL_OR_OP =>
      match w1, w2 with
      | BOOLEAN_VALUE true, _ => Some (SIG_CHLD1, BOOLEAN_VALUE true)
      | ERROR_VALUE, _ => Some (SIG_CHLD1, ERROR_VALUE)
      | BOOLEAN_VALUE false, _ => Some (SIG_BOTH, w2)
      | _, BOOLEAN_VALUE true => Some (SIG_BOTH, BOOLEAN_VALUE true)
      | _, BOOLEAN_VALUE false => Some (SIG_BOTH, UNDEFINED_VALUE)
      | _, _ => Some (SIG_BOTH, w2)
      end
  | LOGICAL_AND_OP =>
      match w1, w2 with
      | BOOLEAN_VALUE false, _ => Some (SIG_CHLD1, BOOLEAN_VALUE false)
      | ERROR_VALUE, _ => Some (SIG_CHLD1, ERROR_VALUE)
      | BOOLEAN_VALUE true, _ => Some (SIG_BOTH, w2)
      | _, BOOLEAN_VALUE false => Some (SIG_BOTH, BOOLEAN_VALUE false)
      | _, BOOLEAN_VALUE true => Some (SIG_BOTH, UNDEFINED_VALUE)
      | _, _ => Some (SIG_BOTH, w2)
      end
  | _ => None
  end.

(** ** Bits *)

(** The count of a 64-bit shift: C++ leaves counts outside 0..63 undefined, the x86-64
    shift instructions use the low six bits. *)
Definition shift_count (n : Z) : Z := n mod 64.
Definition shl64 (x n : Z) : Z := wrap64 (Z.shiftl x (shift_count n)).
Definition sar64 (x n : Z) : Z := Z.shiftr x (shift_count n).
(** [~LLONG_MAX] *)
Definition signMask : Z := INT64_MIN.

(** The loop of the signed right shift of a negative number. *)
Definition rshift_loop (n : nat) (val : Z) : Z :=
  Nat.iter n (fun v => Z.lor (Z.shiftr v 1) signMask) val.

Definition doBitwise (op : OpKind) (v1 v2 : Value) : option (Z * Value) :=
  match op with
  | BITWISE_NOT_OP =>
      match v1 with
      | INTEGER_VALUE i1 => Some (SIG_CHLD1, INTEGER_VALUE (Z.lnot i1))
      | _ => Some (SIG_CHLD1, ERROR_VALUE)
      end
  | _ =>
      match v1, v2 with
      | INTEGER_VALUE i1, INTEGER_VALUE i2 =>
          let done z := Some (SIG_BOTH, INTEGER_VALUE z) in
          match op with
          | BITWISE_OR_OP => done (Z.lor i1 i2)
          | BITWISE_AND_OP => done (Z.land i1 i2)
          | BITWISE_XOR_OP => done (Z.lxor i1 i2)
          | LEFT_SHIFT_OP => done (shl64 i1 i2)
          | URIGHT_SHIFT_OP =>
              if 0 <=? i1 then done (sar64 i1 i2)
              else done (sar64 (Z.land (Z.shiftr i1 1) INT64_MAX) (wrap64 (i2 - 1)))
          | RIGHT_SHIFT_OP =>
              if 0 <=? i1 then done (sar64 i1 i2)
              else done (rshift_loop (Z.to_nat (Z.min 64 i2)) i1)
          | _ => None
          end
      | _, _ => Some (SIG_BOTH, ERROR_VALUE)
      end
  end.

(** ** [_doOperation] *)

(** The strictness prologue: the first error, else the first undefined operand, among
    the operands that are present, with its significance. (The code tests the first
    operand for the error value without looking at [valid1].) *)
Definition strict_exception (v1 v2 v3 : Value) (valid1 valid2 valid3 : bool)
  : option (Z * Value) :=
  if IsErrorValue v1 then Some (SIG_CHLD1, ERROR_VALUE)
  else if valid2 && IsErrorValue v2 then Some (SIG_CHLD2, ERROR_VALUE)
  else if valid3 && IsErrorValue v3 then Some (SIG_CHLD3, ERROR_VALUE)
  else if valid1 && IsUndefinedValue v1 then Some (SIG_CHLD1, UNDEFINED_VALUE)
  else if valid2 && IsUndefinedValue v2 then Some (SIG_CHLD2, UNDEFINED_VALUE)
  else if valid3 && IsUndefinedValue v3 then Some (SIG_CHLD3, UNDEFINED_VALUE)
  else None.

Definition doUnaryPlus (v1 : Value) : Value :=
  match v1 with
  | BOOLEAN_VALUE _ | STRING_VALUE _ | LIST_VALUE _ | SLIST_VALUE _ | CLASSAD_VALUE _
  | SCLASSAD_VALUE _ | ABSOLUTE_TIME_VALUE _ => ERROR_VALUE
  | _ => v1
  end.

Definition doTernary (v1 v2 v3 : Value) (valid2 : bool) : Z * Value :=
  if IsUndefinedValue v1 && valid2 then (SIG_CHLD1, UNDEFINED_VALUE)
  else if negb valid2 then
    if IsUndefinedValue v1 then (SIG_CHLD3, v3) else (SIG_CHLD1, v1)
  else match IsBooleanValueEquiv v1 with
  | None => (SIG_CHLD1, ERROR_VALUE)
  | Some true => (SIG_CHLD2, v2)
  | Some false => (SIG_CHLD3, v3)
  end.

(** The list index is read into an [int], which keeps its low 32 bits. *)
Definition doSubscript (v1 v2 : Value) : OpResult :=
  match IsClassAdValue v1, IsListValue v1, v2 with
  | Some ad, _, STRING_VALUE index => OpSubscriptAd ad index
  | _, Some elist, INTEGER_VALUE i =>
      let index := wrap32 i in
      if (index <? 0) || (Z.of_nat (length elist) <=? index)
      then OpDone SIG_CHLD2 ERROR_VALUE
      else OpSubscriptList elist index
  | _, _, _ => OpDone SIG_BOTH ERROR_VALUE
  end.

Definition _doOperation (op : OpKind) (v1 v2 v3 : Value) (valid1 valid2 valid3 : bool)
  : OpResult :=
  match op with
  | __NO_OP__ | PARENTHESES_OP => OpDone SIG_CHLD1 v1
  | UNARY_PLUS_OP => OpDone SIG_CHLD1 (doUnaryPlus v1)
  | _ =>
      match (if IsStrictOperator op
             then strict_exception v1 v2 v3 valid1 valid2 valid3 else None) with
      | Some (sig, v) => OpDone sig v
      | None =>
          if is_comparison op then op_result (doComparison op v1 v2)
          else if is_arithmetic op then op_result (doArithmetic op v1 v2)
          else if is_logical op then op_result (doLogical op v1 v2)
          else if is_bitwise op then op_result (doBitwise op v1 v2)
          else match op with
          | TERNARY_OP => let '(sig, v) := doTernary v1 v2 v3 valid2 in OpDone sig v
          | SUBSCRIPT_OP => doSubscript v1 v2
          | _ => OpExcept
          end
      end
  end.

(** [Operate], the public entry points for binary and ternary operators. *)
Definition Operate2 (op : OpKind) (v1 v2 : Value) : OpResult :=
  _doOperation op v1 v2 UNDEFINED_VALUE true true false.
Definition Operate3 (op : OpKind) (v1 v2 v3 : Value) : OpResult :=
  _doOperation op v1 v2 v3 true true true.
