(* ===== verification/OperatorFacts.v ===== *)
(** * Properties of the operators *)
From Stdlib Require Import ZArith Lia Ascii String.
From stdpp Require Import base list strings.
From S2P Require Import Prelude Double Tree Values Operators.

(** ** No operator reaches [CLASSAD_EXCEPT] *)

(** The operators with one, two and three operands. *)
Definition op_arity (op : OpKind) : nat :=
  match op with
  | __NO_OP__ | UNARY_PLUS_OP | UNARY_MINUS_OP | LOGICAL_NOT_OP | BITWISE_NOT_OP
  | PARENTHESES_OP => 1
  | TERNARY_OP => 3
  | _ => 2
  end.

Lemma coerceToNumber_numeric v1 v2 :
  arith_operand v1 = true -> arith_operand v2 = true ->
  match coerceToNumber v1 v2 with
  | (T_INTEGER, INTEGER_VALUE _, INTEGER_VALUE _) => True
  | (T_REAL, REAL_VALUE _, REAL_VALUE _) => True
  | (T_ABSOLUTE_TIME, w1, w2) => w1 = v1 /\ w2 = v2
  | (T_RELATIVE_TIME, w1, w2) => w1 = v1 /\ w2 = v2
  | _ => False
  end.
Proof. destruct v1, v2; simpl; intros; simplify_eq; cbn; auto. Qed.

(** The type the promotion answers, and the operands it leaves, for operands that are
    neither error nor undefined. *)
Lemma coerceToNumber_defined v1 v2 :
  IsExceptional v1 = false -> IsExceptional v2 = false ->
  match coerceToNumber v1 v2 with
  | (T_INTEGER, INTEGER_VALUE _, INTEGER_VALUE _) => True
  | (T_REAL, REAL_VALUE _, REAL_VALUE _) => True
  | (T_ABSOLUTE_TIME, _, _) | (T_RELATIVE_TIME, _, _)
  | (T_CLASSAD, _, _) | (T_LIST, _, _) | (T_STRING, _, _) => True
  | _ => False
  end.
Proof. destruct v1, v2; simpl; intros; simplify_eq; cbn; exact I. Qed.

Lemma compareCoerced_total op v1 v2 :
  is_comparison op = true -> is_meta op = false ->
  IsExceptional v1 = false -> IsExceptional v2 = false ->
  let '(ct, w1, w2) := coerceToNumber v1 v2 in is_Some (compareCoerced op ct w1 w2).
Proof.
  intros Hc Hm H1 H2. pose proof (coerceToNumber_defined v1 v2 H1 H2) as H.
  destruct (coerceToNumber v1 v2) as [[ct w1] w2].
  destruct ct; try done; destruct w1; try done; destruct w2; try done;
    destruct op; try discriminate Hc; try discriminate Hm; eexists; reflexivity.
Qed.

Lemma doComparison_total op v1 v2 :
  is_comparison op = true ->
  (is_meta op = false -> IsExceptional v1 = false /\ IsExceptional v2 = false) ->
  is_Some (doComparison op v1 v2).
Proof.
  intros Hc Hx. unfold doComparison. destruct (is_meta op) eqn:Hm.
  - simpl. destruct (bool_decide (GetType v1 = GetType v2)) eqn:Ht; [|eexists; reflexivity].
    apply bool_decide_eq_true in Ht.
    destruct (IsExceptional v1) eqn:Hx1; [eexists; reflexivity|]. simpl.
    destruct op; try discriminate Hm; destruct v1; try discriminate Hx1; destruct v2;
      try discriminate Ht; eexists; reflexivity.
  - destruct (Hx eq_refl) as [H1 H2].
    pose proof (compareCoerced_total op v1 v2 Hc Hm H1 H2) as H.
    destruct (coerceToNumber v1 v2) as [[ct w1] w2]. destruct H as [v Hv].
    cbn [andb]. rewrite Hv. eexists; reflexivity.
Qed.

Lemma doArithmetic_total op v1 v2 :
  is_arithmetic op = true -> op <> UNARY_PLUS_OP -> is_Some (doArithmetic op v1 v2).
Proof.
  intros Ha Hp. unfold doArithmetic.
  destruct (arith_operand v1) eqn:H1; [|eexists; reflexivity].
  destruct (bool_decide (op = UNARY_MINUS_OP)) eqn:Hu; [eexists; reflexivity|].
  destruct (arith_operand v2) eqn:H2; [|eexists; reflexivity].
  pose proof (coerceToNumber_numeric v1 v2 H1 H2) as H.
  destruct (coerceToNumber v1 v2) as [[ct w1] w2]. apply bool_decide_eq_false in Hu.
  destruct ct; try done; destruct w1; try done; destruct w2; try done;
    destruct op; try discriminate Ha; try done; eexists; reflexivity.
Qed.

Lemma doLogical_total op v1 v2 : is_logical op = true -> is_Some (doLogical op v1 v2).
Proof.
  intros Hl. unfold doLogical.
  destruct (negb _); [eexists; reflexivity|]. destruct (negb _); [eexists; reflexivity|].
  destruct op; try discriminate Hl; try (eexists; reflexivity);
    destruct (coerce_bool v1) as [| |[]| | | | | | | | |];
    destruct (coerce_bool v2) as [| |[]| | | | | | | | |]; eexists; reflexivity.
Qed.

Lemma doBitwise_total op v1 v2 : is_bitwise op = true -> is_Some (doBitwise op v1 v2).
Proof.
  intros Hb. destruct op; try discriminate Hb; destruct v1, v2; cbn;
    try destruct (0 <=? _); eexists; reflexivity.
Qed.

Lemma IsExceptional_split v : IsExceptional v = IsUndefinedValue v || IsErrorValue v.
Proof. by destruct v. Qed.

Lemma strict_exception_none v1 v2 v3 valid1 valid2 valid3 :
  strict_exception v1 v2 v3 valid1 valid2 valid3 = None ->
  (valid1 = true -> IsExceptional v1 = false) /\ (valid2 = true -> IsExceptional v2 = false).
Proof.
  unfold strict_exception. rewrite !IsExceptional_split.
  destruct (IsErrorValue v1); [done|]. destruct valid1, valid2; simpl;
    repeat case_match; simplify_eq; split; intros; simplify_eq; try done;
    by destruct (IsUndefinedValue v1), (IsUndefinedValue v2), (IsErrorValue v2).
Qed.

(** For every operator applied with the operands its arity asks for, [_doOperation]
    answers a value or a subscript request: the [CLASSAD_EXCEPT ("Should not get here")]
    branches of the operator code are unreachable, whatever the operand values are. *)
Theorem doOperation_no_except op v1 v2 v3 valid2 valid3 :
  (op_arity op = 2%nat -> valid2 = true) ->
  _doOperation op v1 v2 v3 true valid2 valid3 <> OpExcept.
Proof.
  intros Hv. unfold _doOperation.
  destruct (if IsStrictOperator op then strict_exception v1 v2 v3 true valid2 valid3 else None)
    as [[sig v]|] eqn:Hs; [by destruct op|].
  destruct (is_comparison op) eqn:Hc.
  { assert (is_Some (doComparison op v1 v2)) as [[sg v] Hd].
    { apply doComparison_total; [done|]. intros Hm.
      destruct op; try discriminate Hc; try discriminate Hm; simpl in Hs;
        apply strict_exception_none in Hs as [H1 H2]; split; auto. }
    rewrite Hd. by destruct op. }
  destruct (is_arithmetic op) eqn:Ha.
  { destruct (decide (op = UNARY_PLUS_OP)) as [->|Hp]; [done|].
    destruct (doArithmetic_total op v1 v2 Ha Hp) as [[sg v] Hd]. rewrite Hd. by destruct op. }
  destruct (is_logical op) eqn:Hl.
  { destruct (doLogical_total op v1 v2 Hl) as [[sg v] Hd]. rewrite Hd. by destruct op. }
  destruct (is_bitwise op) eqn:Hb.
  { destruct (doBitwise_total op v1 v2 Hb) as [[sg v] Hd]. rewrite Hd. by destruct op. }
  destruct op; try discriminate; try done.
  - unfold doSubscript. by repeat case_match.
  - by destruct (doTernary v1 v2 v3 valid2).
Qed.

Lemma doOperation_no_except_witness :
  _doOperation ADDITION_OP (STRING_VALUE "a") (INTEGER_VALUE 1) UNDEFINED_VALUE true true false
  <> OpExcept.
Proof. apply doOperation_no_except. reflexivity. Defined.

(** ** Three-valued logic *)

(** Kleene's strong three-valued logic, the specification of the logical operators. *)
Inductive kleene : Set := KF | KU | KT.
#[export] Instance kleene_eq_dec : EqDecision kleene.
Proof. solve_decision. Defined.

Definition kand (a b : kleene) : kleene :=
  match a, b with KF, _ | _, KF => KF | KT, KT => KT | _, _ => KU end.
Definition kor (a b : kleene) : kleene :=
  match a, b with KT, _ | _, KT => KT | KF, KF => KF | _, _ => KU end.
Definition knot (a : kleene) : kleene := match a with KF => KT | KU => KU | KT => KF end.

(** The truth value an operand stands for: booleans, numbers (zero is false) and
    undefined have one, every other value has none. *)
Definition truth (v : Value) : option kleene :=
  match v with
  | UNDEFINED_VALUE => Some KU
  | _ => (fun b : bool => if b then KT else KF) <$> IsBooleanValueEquiv v
  end.
Definition of_truth (k : kleene) : Value :=
  match k with KF => BOOLEAN_VALUE false | KU => UNDEFINED_VALUE | KT => BOOLEAN_VALUE true end.

(** The abstract operators on all values: Kleene logic on truth values; an operand
    without truth value is an error, except that an absorbing left operand hides an
    error value (and nothing else) on the right. *)
Definition logic_spec (f : kleene -> kleene -> kleene) (absorbing : kleene) (v1 v2 : Value) : Value :=
  match truth v1, truth v2 with
  | Some a, Some b => of_truth (f a b)
  | Some a, None =>
      match v2 with
      | ERROR_VALUE => if decide (f a KT = absorbing /\ f a KF = absorbing)
                       then of_truth absorbing else ERROR_VALUE
      | _ => ERROR_VALUE
      end
  | None, _ => ERROR_VALUE
  end.

(** Every value is, for [doLogical], a boolean, undefined, error, or something else. *)
Lemma coerce_bool_cases v :
  (truth v = Some KT /\ coerce_bool v = BOOLEAN_VALUE true) \/
  (truth v = Some KF /\ coerce_bool v = BOOLEAN_VALUE false) \/
  (truth v = Some KU /\ coerce_bool v = UNDEFINED_VALUE) \/
  (v = ERROR_VALUE) \/
  (truth v = None /\ v <> ERROR_VALUE /\ logical_operand (coerce_bool v) = false).
Proof.
  unfold coerce_bool, truth.
  destruct v as [| |[]|i|r| | | | | | |]; simpl; auto 10;
    [destruct (negb (i =? 0)) | destruct (d_to_bool r)]; auto.
Qed.

(** The logical operators implement three-valued logic: on booleans, numbers and
    undefined, [&&], [||] and [!] are Kleene's conjunction, disjunction and negation;
    any other operand makes the result an error, except an error value on the right of
    an absorbing operand. This is the whole behaviour of [doLogical]. *)
Theorem doLogical_refines v1 v2 :
  (snd <$> doLogical LOGICAL_AND_OP v1 v2) = Some (logic_spec kand KF v1 v2) /\
  (snd <$> doLogical LOGICAL_OR_OP v1 v2) = Some (logic_spec kor KT v1 v2) /\
  (snd <$> doLogical LOGICAL_NOT_OP v1 UNDEFINED_VALUE)
    = Some (match truth v1 with Some a => of_truth (knot a) | None => ERROR_VALUE end).
Proof.
  unfold doLogical, logic_spec.
  destruct (coerce_bool_cases v1) as [[E1 C1]|[[E1 C1]|[[E1 C1]|[->|(E1&N1&C1)]]]];
    destruct (coerce_bool_cases v2) as [[E2 C2]|[[E2 C2]|[[E2 C2]|[->|(E2&N2&C2)]]]];
    rewrite ?E1, ?E2, ?C1, ?C2; split_and?; try done; by destruct v2.
Qed.

(** Conjunction and disjunction do not depend on the order of the operands unless an
    operand has no truth value, and De Morgan's laws hold. *)
Theorem doLogical_commutes v1 v2 :
  truth v1 <> None -> truth v2 <> None ->
  (snd <$> doLogical LOGICAL_AND_OP v1 v2) = (snd <$> doLogical LOGICAL_AND_OP v2 v1) /\
  (snd <$> doLogical LOGICAL_OR_OP v1 v2) = (snd <$> doLogical LOGICAL_OR_OP v2 v1) /\
  (exists a n1 n2 o,
     (snd <$> doLogical LOGICAL_AND_OP v1 v2) = Some a /\
     (snd <$> doLogical LOGICAL_NOT_OP v1 UNDEFINED_VALUE) = Some n1 /\
     (snd <$> doLogical LOGICAL_NOT_OP v2 UNDEFINED_VALUE) = Some n2 /\
     (snd <$> doLogical LOGICAL_OR_OP n1 n2) = Some o /\
     (snd <$> doLogical LOGICAL_NOT_OP a UNDEFINED_VALUE) = Some o).
Proof.
  intros H1 H2.
  destruct (doLogical_refines v1 v2) as (A12 & O12 & N1).
  destruct (doLogical_refines v2 v1) as (A21 & O21 & N2).
  rewrite A12, A21, O12, O21. unfold logic_spec in *.
  destruct (truth v1) as [a|]; [|done]. destruct (truth v2) as [b|]; [|done].
  split; [by destruct a, b|]. split; [by destruct a, b|].
  exists (of_truth (kand a b)), (of_truth (knot a)), (of_truth (knot b)), (of_truth (kor (knot a) (knot b))).
  split_and!; auto; by destruct a, b.
Qed.

Lemma doLogical_commutes_witness :
  (snd <$> doLogical LOGICAL_AND_OP UNDEFINED_VALUE (INTEGER_VALUE 0)) =
  (snd <$> doLogical LOGICAL_AND_OP (INTEGER_VALUE 0) UNDEFINED_VALUE).
Proof. apply (doLogical_commutes UNDEFINED_VALUE (INTEGER_VALUE 0)); discriminate. Defined.

(** ** Machine width *)
Lemma coerceToNumber_ok v1 v2 : value_ok v1 -> value_ok v2 ->
  let '(_, w1, w2) := coerceToNumber v1 v2 in value_ok w1 /\ value_ok w2.
Proof.
  destruct v1 as [| |[]| | | | | | | | |], v2 as [| |[]| | | | | | | | |]; simpl; intros;
    split; cbn; auto; split; discriminate.
Qed.

Lemma rshift_loop_int64 n v : in_int64 v -> in_int64 (rshift_loop n v).
Proof.
  intros Hv. induction n as [|n IH]; [done|]. unfold rshift_loop in *. simpl.
  apply in_int64_lor; [by apply in_int64_shiftr_n|split; discriminate].
Qed.

Lemma sar64_int64 x n : in_int64 x -> in_int64 (sar64 x n).
Proof.
  intros H. apply in_int64_shiftr_n; [|done]. unfold shift_count.
  pose proof (Z.mod_pos_bound n 64). lia.
Qed.

Lemma doBitwise_ok op v1 v2 sig v :
  value_ok v1 -> value_ok v2 -> doBitwise op v1 v2 = Some (sig, v) -> value_ok v.
Proof.
  intros H1 H2 E. destruct op, v1; simpl in E; simplify_eq; simpl in *; auto with classad;
    destruct v2; simplify_eq; simpl in *; auto with classad.
  - apply wrap64_range.
  - case_match; simplify_eq; simpl; [by apply sar64_int64|by apply rshift_loop_int64].
  - case_match; simplify_eq; simpl; apply sar64_int64; [done|].
    apply in_int64_land; [by apply in_int64_shiftr_n|split; discriminate].
Qed.

Lemma int_divide_ok i1 i2 : in_int64 i1 -> value_ok (int_divide i1 i2).
Proof.
  intros H1. unfold int_divide. destruct (_ && _) eqn:E; [split; discriminate|].
  destruct (i2 =? 0) eqn:E0; [done|]. apply in_int64_quot; [done|lia|].
  intros [-> ->]. discriminate E.
Qed.

Lemma int_modulus_ok i1 i2 : in_int64 i2 -> value_ok (int_modulus i1 i2).
Proof.
  intros H1. unfold int_modulus. destruct (_ && _) eqn:E; [split; discriminate|].
  destruct (i2 =? 0) eqn:E0; [done|]. apply in_int64_rem; [done|lia].
Qed.

Lemma doTimeArithmetic_ok op v1 v2 : value_ok (doTimeArithmetic op v1 v2).2.
Proof. destruct op, v1; try done; destruct v2; try done; apply wrap64_range. Qed.

Lemma doRealArithmetic_ok op r1 r2 sig v :
  doRealArithmetic op r1 r2 = Some (sig, v) -> value_ok v.
Proof. destruct op; simpl; intros; simplify_eq; try done; by destruct (d_eqb _ _). Qed.

Lemma doArithmetic_ok op v1 v2 sig v :
  value_ok v1 -> value_ok v2 -> doArithmetic op v1 v2 = Some (sig, v) -> value_ok v.
Proof.
  intros H1 H2. unfold doArithmetic.
  destruct (negb _ || _); [intros; by simplify_eq|].
  destruct (bool_decide _).
  { intros E. destruct v1; cbn in E; simplify_eq; try done; apply wrap64_range. }
  pose proof (coerceToNumber_ok v1 v2 H1 H2) as H.
  destruct (coerceToNumber v1 v2) as [[ct w1] w2]. destruct H as [K1 K2].
  destruct ct; try discriminate.
  - destruct w1, w2; try discriminate. destruct op; intros; simplify_eq; simpl;
      try apply wrap64_range; [by apply int_divide_ok|by apply int_modulus_ok].
  - destruct w1, w2; try discriminate. apply doRealArithmetic_ok.
  - intros [= E]. pose proof (doTimeArithmetic_ok op w1 w2) as K. by rewrite E in K.
  - intros [= E]. pose proof (doTimeArithmetic_ok op w1 w2) as K. by rewrite E in K.
Qed.

Lemma coerce_bool_ok v : value_ok v -> value_ok (coerce_bool v).
Proof. by destruct v. Qed.

Lemma doLogical_ok op v1 v2 sig v :
  value_ok v1 -> value_ok v2 -> doLogical op v1 v2 = Some (sig, v) -> value_ok v.
Proof.
  intros H1%coerce_bool_ok H2%coerce_bool_ok. unfold doLogical.
  revert H1 H2. generalize (coerce_bool v1), (coerce_bool v2). intros w1 w2 H1 H2 E.
  repeat case_match; by simplify_eq.
Qed.

Lemma doComparison_ok op v1 v2 sig v :
  doComparison op v1 v2 = Some (sig, v) -> value_ok v.
Proof.
  unfold doComparison.
  destruct (if is_meta op then _ else _) as [[ct w1] w2].
  destruct (is_meta op && negb _); [intros; by simplify_eq|].
  destruct (is_meta op && _); [intros; by simplify_eq|].
  destruct (compareCoerced op ct w1 w2) as [u|] eqn:E; [|done]. intros [= <- <-].
  destruct ct, w1; simplify_eq/=; try done; destruct w2; simplify_eq/=; try done;
    destruct op; by simplify_eq/=.
Qed.

(** Every operator keeps the 64-bit invariant of values: from operands whose integers
    and time stamps fit in 64 bits it never produces one that does not. *)
Theorem doOperation_value_ok op v1 v2 v3 valid1 valid2 valid3 sig v :
  value_ok v1 -> value_ok v2 -> value_ok v3 ->
  _doOperation op v1 v2 v3 valid1 valid2 valid3 = OpDone sig v -> value_ok v.
Proof.
  intros H1 H2 H3. unfold _doOperation.
  destruct (if IsStrictOperator op then _ else None) as [[sg u]|] eqn:Hs.
  { assert (value_ok u) as Hu.
    { destruct (IsStrictOperator op); [|done]. unfold strict_exception in Hs.
      repeat case_match; by simplify_eq. }
    destruct op; intros; simplify_eq; auto; by destruct v1. }
  assert (forall r, (forall s w, r = Some (s, w) -> value_ok w) ->
    op_result r = OpDone sig v -> value_ok v) as Hr.
  { intros [[]|] H E; simplify_eq/=; eauto. }
  destruct op; cbn -[doComparison doArithmetic doLogical doBitwise doTernary doSubscript];
    try match goal with
        | |- op_result (doComparison ?o _ _) = _ -> _ => apply Hr; intros s w; apply (doComparison_ok o)
        | |- op_result (doArithmetic ?o _ _) = _ -> _ => apply Hr; intros s w; by apply (doArithmetic_ok o)
        | |- op_result (doLogical ?o _ _) = _ -> _ => apply Hr; intros s w; by apply (doLogical_ok o)
        | |- op_result (doBitwise ?o _ _) = _ -> _ => apply Hr; intros s w; by apply (doBitwise_ok o)
        end.
  - by intros [= <- <-].
  - intros [= <- <-]. by destruct v1.
  - by intros [= <- <-].
  - unfold doSubscript. intros E. repeat case_match; by simplify_eq.
  - destruct (doTernary v1 v2 v3 valid2) as [s u] eqn:E. intros [= <- <-].
    unfold doTernary in E. repeat case_match; by simplify_eq.
Qed.

Lemma doOperation_value_ok_witness :
  value_ok (INTEGER_VALUE INT64_MIN).
Proof.
  apply (doOperation_value_ok ADDITION_OP (INTEGER_VALUE INT64_MAX) (INTEGER_VALUE 1)
    UNDEFINED_VALUE true true false SIG_BOTH); try (split; discriminate); reflexivity.
Defined.

(** ** Integer arithmetic *)

(** The integer a boolean or integer operand contributes to integer arithmetic. *)
Definition int_operand (v : Value) : option Z :=
  match v with
  | INTEGER_VALUE i => Some i
  | BOOLEAN_VALUE b => Some (if b then 1 else 0)
  | _ => None
  end.

Lemma coerceToNumber_ints v1 v2 i1 i2 :
  int_operand v1 = Some i1 -> int_operand v2 = Some i2 ->
  coerceToNumber v1 v2 = (T_INTEGER, INTEGER_VALUE i1, INTEGER_VALUE i2).
Proof. destruct v1, v2; intros; simplify_eq/=; done. Qed.

Lemma int_operand_arith v i : int_operand v = Some i -> arith_operand v = true.
Proof. by destruct v. Qed.

(** On integers and booleans (promoted to 0 and 1), [+], [-] and [*] are the ring
    operations modulo 2^64, read as signed 64-bit numbers; [/] truncates and satisfies
    the division identity with [%]; division by zero is the error value; and the one
    quotient that does not fit, INT64_MIN / -1, saturates with remainder zero. *)
Theorem integer_arithmetic v1 v2 i1 i2 :
  int_operand v1 = Some i1 -> int_operand v2 = Some i2 ->
  (snd <$> doArithmetic ADDITION_OP v1 v2) = Some (INTEGER_VALUE (wrap64 (i1 + i2))) /\
  (snd <$> doArithmetic SUBTRACTION_OP v1 v2) = Some (INTEGER_VALUE (wrap64 (i1 - i2))) /\
  (snd <$> doArithmetic MULTIPLICATION_OP v1 v2) = Some (INTEGER_VALUE (wrap64 (i1 * i2))) /\
  (i2 = 0 -> (snd <$> doArithmetic DIVISION_OP v1 v2) = Some ERROR_VALUE /\
             (snd <$> doArithmetic MODULUS_OP v1 v2) = Some ERROR_VALUE) /\
  (i2 <> 0 -> exists q r,
     (snd <$> doArithmetic DIVISION_OP v1 v2) = Some (INTEGER_VALUE q) /\
     (snd <$> doArithmetic MODULUS_OP v1 v2) = Some (INTEGER_VALUE r) /\
     (if decide (i1 = INT64_MIN /\ i2 = -1) then q = INT64_MAX /\ r = 0
      else i1 = i2 * q + r /\ Z.abs r < Z.abs i2 /\ 0 <= r * i1)).
Proof.
  intros H1 H2. pose proof (int_operand_arith _ _ H1) as A1. pose proof (int_operand_arith _ _ H2) as A2.
  unfold doArithmetic. rewrite A1, A2, (coerceToNumber_ints _ _ _ _ H1 H2). cbn.
  unfold int_divide, int_modulus. split_and!; try done.
  - intros ->. split; cbn; by rewrite !andb_false_r.
  - intros Hz. destruct (Z.eqb_spec i2 0) as [|_]; [done|]. cbn [negb].
    destruct (decide (i1 = INT64_MIN /\ i2 = -1)) as [[-> ->]|Hn].
    + exists INT64_MAX, 0. done.
    + assert ((i1 =? INT64_MIN) && (i2 =? -1) = false) as -> by lia.
      exists (Z.quot i1 i2), (Z.rem i1 i2). split; [done|]. split; [done|].
      split; [apply Z.quot_rem'|]. split; [by apply Z.rem_bound_abs|].
      by apply Z.rem_sign_mul.
Qed.

Lemma integer_arithmetic_witness :
  (snd <$> doArithmetic ADDITION_OP (INTEGER_VALUE INT64_MAX) (BOOLEAN_VALUE true))
  = Some (INTEGER_VALUE (wrap64 (INT64_MAX + 1))).
Proof.
  apply (integer_arithmetic (INTEGER_VALUE INT64_MAX) (BOOLEAN_VALUE true) INT64_MAX 1);
    reflexivity.
Defined.

(** ** Shifts *)
Lemma lor_signMask a : INT64_MIN <= a < 0 -> Z.lor a signMask = a.
Proof.
  intros Ha. unfold signMask, INT64_MIN in *. apply Z.bits_inj'. intros n Hn.
  rewrite Z.lor_spec. replace (-9223372036854775808) with (Z.lnot (Z.ones 63)) by reflexivity.
  rewrite Z.lnot_spec by done. destruct (Z.lt_ge_cases n 63).
  - rewrite Z.ones_spec_low by lia. by rewrite orb_false_r.
  - rewrite Z.ones_spec_high by lia. rewrite orb_true_r.
    symmetry. replace a with (Z.lnot (Z.lnot a)) by apply Z.lnot_involutive.
    rewrite Z.lnot_spec by done. rewrite <- (Z.mod_small (Z.lnot a) (2 ^ 63)).
    + by rewrite Z.mod_pow2_bits_high by lia.
    + unfold Z.lnot. change (2 ^ 63) with 9223372036854775808. lia.
Qed.

Lemma shiftr_neg a n : 0 <= n -> INT64_MIN <= a < 0 -> INT64_MIN <= Z.shiftr a n < 0.
Proof.
  intros Hn Ha. split.
  - apply in_int64_shiftr_n; [done|]. unfold in_int64, INT64_MIN, INT64_MAX in *. lia.
  - apply Z.shiftr_neg. lia.
Qed.

Lemma rshift_loop_spec n a :
  INT64_MIN <= a < 0 -> rshift_loop n a = Z.shiftr a (Z.of_nat n).
Proof.
  intros Ha. induction n as [|n IH]; [done|].
  change (rshift_loop (S n) a) with (Z.lor (Z.shiftr (rshift_loop n a) 1) signMask).
  rewrite IH, lor_signMask.
  - rewrite Z.shiftr_shiftr by lia. f_equal. lia.
  - apply shiftr_neg; [lia|]. apply shiftr_neg; [lia|done].
Qed.

Lemma shiftr_saturates a n : INT64_MIN <= a < 0 -> 63 <= n -> Z.shiftr a n = -1.
Proof.
  intros Ha Hn. rewrite Z.shiftr_div_pow2 by lia. symmetry.
  assert (9223372036854775808 <= 2 ^ n).
  { change 9223372036854775808 with (2 ^ 63). apply Z.pow_le_mono_r; lia. }
  unfold INT64_MIN in *. apply (Z.div_unique_pos _ _ _ (a + 2 ^ n)); lia.
Qed.

Lemma shift_count_id n : 0 <= n < 64 -> shift_count n = n.
Proof. apply Z.mod_small. Qed.

(** The shifts of 64-bit integers by counts in range: [<<] multiplies by 2^n modulo
    2^64, [>>] is floor division by 2^n (the sign-extending loop the code runs for
    negative numbers included), and [>>>] divides the unsigned reading of the operand
    by 2^n, for negative operands when n is at least one. *)
Theorem shifts_correct i n :
  in_int64 i -> 0 <= n < 64 ->
  (snd <$> doBitwise LEFT_SHIFT_OP (INTEGER_VALUE i) (INTEGER_VALUE n))
    = Some (INTEGER_VALUE (wrap64 (i * 2 ^ n))) /\
  (snd <$> doBitwise RIGHT_SHIFT_OP (INTEGER_VALUE i) (INTEGER_VALUE n))
    = Some (INTEGER_VALUE (i / 2 ^ n)) /\
  (0 <= i \/ 1 <= n ->
   (snd <$> doBitwise URIGHT_SHIFT_OP (INTEGER_VALUE i) (INTEGER_VALUE n))
    = Some (INTEGER_VALUE ((i mod two64) / 2 ^ n))).
Proof.
  intros Hi Hn. unfold doBitwise, sar64, shl64. rewrite (shift_count_id n Hn).
  pose proof Hi as [Hlo Hhi]. unfold INT64_MIN, INT64_MAX in Hlo, Hhi. split_and!.
  - by rewrite Z.shiftl_mul_pow2 by lia.
  - destruct (Z.leb_spec 0 i); simpl; rewrite ?Z.shiftr_div_pow2 by lia; [done|].
    rewrite rshift_loop_spec by (unfold INT64_MIN; lia).
    rewrite Z2Nat.id, Z.min_r, Z.shiftr_div_pow2 by lia. done.
  - intros Hc. unfold two64. destruct (Z.leb_spec 0 i); simpl; do 2 f_equal.
    + rewrite Z.mod_small by lia. by rewrite Z.shiftr_div_pow2 by lia.
    + rewrite wrap64_id by (unfold in_int64, INT64_MIN, INT64_MAX; lia).
      rewrite shift_count_id by lia.
      change INT64_MAX with (Z.ones 63). rewrite Z.land_ones by lia.
      rewrite !Z.shiftr_div_pow2 by lia.
      replace (i mod 18446744073709551616) with (i + 18446744073709551616)
        by (apply (Z.mod_unique_pos _ _ (-1)); lia).
      replace ((i / 2 ^ 1) mod 2 ^ 63) with ((i + 18446744073709551616) / 2 ^ 1).
      * rewrite Z.div_div by lia. f_equal. rewrite <- Z.pow_add_r by lia. f_equal. lia.
      * change (2 ^ 1) with 2. change (2 ^ 63) with 9223372036854775808.
        replace (i + 18446744073709551616) with (i + 9223372036854775808 * 2) by lia.
        rewrite Z.div_add by lia.
        apply (Z.mod_unique_pos _ _ (-1)); [|lia].
        pose proof (Z.div_mod i 2). pose proof (Z.mod_pos_bound i 2). lia.
Qed.

Lemma shifts_correct_witness :
  (snd <$> doBitwise RIGHT_SHIFT_OP (INTEGER_VALUE (-5)) (INTEGER_VALUE 1))
    = Some (INTEGER_VALUE (-5 / 2 ^ 1)).
Proof. apply (shifts_correct (-5) 1); [split; discriminate|split; [discriminate|reflexivity]]. Defined.

(** The unsigned right shift of a negative number by zero, which should be the
    number itself, shifts by -1 on its last step: with the six-bit shift counts of
    x86-64 the answer is 0 for every negative operand. *)
Theorem uright_shift_by_zero i :
  INT64_MIN <= i < 0 ->
  doBitwise URIGHT_SHIFT_OP (INTEGER_VALUE i) (INTEGER_VALUE 0) = Some (SIG_BOTH, INTEGER_VALUE 0).
Proof.
  intros Hi. unfold doBitwise. destruct (Z.leb_spec 0 i); [lia|]. do 3 f_equal.
  unfold sar64. change (shift_count (wrap64 (0 - 1))) with 63.
  change INT64_MAX with (Z.ones 63). rewrite Z.land_ones, !Z.shiftr_div_pow2 by lia.
  apply Z.div_small, Z.mod_pos_bound. done.
Qed.

Lemma uright_shift_by_zero_witness :
  doBitwise URIGHT_SHIFT_OP (INTEGER_VALUE (-1)) (INTEGER_VALUE 0) = Some (SIG_BOTH, INTEGER_VALUE 0).
Proof. apply uright_shift_by_zero. split; [discriminate|reflexivity]. Defined.

(** ** Comparisons *)

(** Whether a comparison operator holds of the outcome of one comparison; [None] is the
    unordered outcome of a comparison with a NaN. *)
Definition cmp_holds (op : OpKind) (c : option comparison) : bool :=
  match op, c with
  | LESS_THAN_OP, Some Lt | LESS_OR_EQUAL_OP, Some (Lt | Eq)
  | EQUAL_OP, Some Eq | GREATER_OR_EQUAL_OP, Some (Gt | Eq)
  | GREATER_THAN_OP, Some Gt | NOT_EQUAL_OP, (Some (Lt | Gt) | None) => true
  | _, _ => false
  end.

Definition is_strict_comparison (op : OpKind) : bool := is_comparison op && negb (is_meta op).

Lemma compareIntegers_spec op i1 i2 : is_strict_comparison op = true ->
  compareIntegers op i1 i2 = Some (BOOLEAN_VALUE (cmp_holds op (Some (i1 ?= i2)))).
Proof.
  intros H. destruct op; try discriminate H; simpl; do 2 f_equal;
    destruct (Z.compare_spec i1 i2); lia.
Qed.

Lemma compareAbsoluteTimes_spec op t1 t2 : is_strict_comparison op = true ->
  compareAbsoluteTimes op t1 t2
  = Some (BOOLEAN_VALUE (cmp_holds op (Some (secs t1 ?= secs t2)))).
Proof. intros H. rewrite <- compareIntegers_spec by done. by destruct op. Qed.

Lemma compareStrings_spec op s1 s2 : is_strict_comparison op = true ->
  compareStrings op s1 s2 = BOOLEAN_VALUE (cmp_holds op (Some (strcasecmp s1 s2))).
Proof.
  intros H. destruct op; try discriminate H; unfold compareStrings; by destruct (strcasecmp s1 s2).
Qed.

Lemma compare_doubles_spec op r1 r2 : is_strict_comparison op = true ->
  compare_doubles op r1 r2 = Some (BOOLEAN_VALUE (cmp_holds op (d_compare r1 r2))).
Proof.
  intros H. destruct op; try discriminate H; simpl; do 2 f_equal;
    rewrite ?d_ltb_spec, ?d_leb_spec, ?d_eqb_spec, ?(d_compare_antisym r1 r2);
    by destruct (d_compare r1 r2) as [[]|].
Qed.

(** The six ordinary comparison operators are coherent: for any two defined operands
    either all six are errors, or there is one comparison outcome (case-insensitive for
    strings, after promotion for numbers, unordered for NaN) they all report. *)
Theorem comparison_coherent v1 v2 :
  IsExceptional v1 = false -> IsExceptional v2 = false ->
  (forall op, is_strict_comparison op = true ->
     doComparison op v1 v2 = Some (SIG_BOTH, ERROR_VALUE)) \/
  (exists c, forall op, is_strict_comparison op = true ->
     doComparison op v1 v2 = Some (SIG_BOTH, BOOLEAN_VALUE (cmp_holds op c))).
Proof.
  intros H1 H2. pose proof (coerceToNumber_defined v1 v2 H1 H2) as H.
  assert (forall op, is_strict_comparison op = true ->
    doComparison op v1 v2 = let '(ct, w1, w2) := coerceToNumber v1 v2 in
      v ← compareCoerced op ct w1 w2; Some (SIG_BOTH, v)) as E.
  { intros op [_ Hm%negb_true_iff]%andb_prop. unfold doComparison. rewrite Hm.
    by destruct (coerceToNumber v1 v2) as [[??]?]. }
  destruct (coerceToNumber v1 v2) as [[ct w1] w2].
  destruct ct; try done; try (left; intros op Ho; by rewrite (E op Ho));
    destruct w1; try done; try (left; intros op Ho; by rewrite (E op Ho));
    destruct w2; try done; try (left; intros op Ho; by rewrite (E op Ho));
    right; eexists; intros op Ho; rewrite (E op Ho); simpl;
    unfold compareReals, compareRelativeTimes;
    rewrite ?compareIntegers_spec, ?compareAbsoluteTimes_spec, ?compareStrings_spec,
      ?compare_doubles_spec by done; reflexivity.
Qed.

Lemma comparison_coherent_witness :
  (forall op, is_strict_comparison op = true ->
     doComparison op (BOOLEAN_VALUE true) (REAL_VALUE (d_of_Z 2)) = Some (SIG_BOTH, ERROR_VALUE)) \/
  (exists c, forall op, is_strict_comparison op = true ->
     doComparison op (BOOLEAN_VALUE true) (REAL_VALUE (d_of_Z 2))
     = Some (SIG_BOTH, BOOLEAN_VALUE (cmp_holds op c))).
Proof. apply comparison_coherent; reflexivity. Defined.

(** *** The operators on integers *)

Definition answers (r : OpResult) (v : Value) : Prop := exists sig, r = OpDone sig v.
(** [c] is [z], cut down to 64 bits with a sign. *)
Definition reads_as (c z : Z) : Prop := in_int64 c /\ exists k, c = z + k * two64.
Lemma wrap64_reads z : reads_as (wrap64 z) z.
Proof. split; [apply wrap64_range|apply wrap64_eq]. Qed.

(** An operation on two integers is that of its group. *)
Lemma integer_operation op a b :
  let r := _doOperation op (INTEGER_VALUE a) (INTEGER_VALUE b) UNDEFINED_VALUE true true false in
  let x := INTEGER_VALUE a in let y := INTEGER_VALUE b in
  (is_comparison op = true -> r = op_result (doComparison op x y)) /\
  (is_arithmetic op = true -> op <> UNARY_PLUS_OP -> r = op_result (doArithmetic op x y)) /\
  (is_bitwise op = true -> r = op_result (doBitwise op x y)).
Proof. intros r x y. destruct op; split_and!; done. Qed.
Lemma op_result_answers o v : (snd <$> o) = Some v -> answers (op_result o) v.
Proof. destruct o as [[sig w]|]; [|done]. intros [= ->]. by exists sig. Qed.

(** C38: What the operators compute on two 64-bit integers. The comparisons say how the
    integers compare; [+], [-] and [*] give the sum, difference and product cut down to 64
    bits; [/] and [%] are an error for a divisor of zero, otherwise the truncated quotient
    and its remainder, except for the one quotient that does not fit, which saturates;
    [&], [|] and [^] work on each bit; and for counts below 64 [<<] multiplies by a power of
    two, cut down to 64 bits, [>>] divides by it, rounding down, and [>>>] does so with the
    integer read without its sign (for a negative one the count is at least one: by zero it
    gives zero, [uright_shift_by_zero]). *)
Theorem operators_on_integers a b : in_int64 a -> in_int64 b ->
  let r op := _doOperation op (INTEGER_VALUE a) (INTEGER_VALUE b) UNDEFINED_VALUE true true false in
  let gives op P := exists c, answers (r op) (INTEGER_VALUE c) /\ P c in
  (forall op, is_strict_comparison op = true -> answers (r op) (BOOLEAN_VALUE (cmp_holds op (Some (a ?= b))))) /\
  gives ADDITION_OP (fun c => reads_as c (a + b)) /\
  gives SUBTRACTION_OP (fun c => reads_as c (a - b)) /\
  gives MULTIPLICATION_OP (fun c => reads_as c (a * b)) /\
  (b = 0 -> answers (r DIVISION_OP) ERROR_VALUE /\ answers (r MODULUS_OP) ERROR_VALUE) /\
  (b <> 0 -> gives DIVISION_OP (fun q => gives MODULUS_OP (fun m =>
     if decide (a = INT64_MIN /\ b = -1) then q = INT64_MAX /\ m = 0
     else a = b * q + m /\ Z.abs m < Z.abs b /\ 0 <= m * a))) /\
  gives BITWISE_AND_OP (fun c => forall i, Z.testbit c i = Z.testbit a i && Z.testbit b i) /\
  gives BITWISE_OR_OP (fun c => forall i, Z.testbit c i = Z.testbit a i || Z.testbit b i) /\
  gives BITWISE_XOR_OP (fun c => forall i, Z.testbit c i = xorb (Z.testbit a i) (Z.testbit b i)) /\
  (0 <= b < 64 ->
    gives LEFT_SHIFT_OP (fun c => reads_as c (a * 2 ^ b)) /\
    gives RIGHT_SHIFT_OP (fun c => c = a / 2 ^ b) /\
    (0 <= a \/ 1 <= b -> gives URIGHT_SHIFT_OP (fun c => c = (a mod two64) / 2 ^ b))).
Proof.
  intros Ha Hb r gives.
  assert (Hg : forall op c (P : Z -> Prop),
    (is_arithmetic op = true /\ op <> UNARY_PLUS_OP /\ (snd <$> doArithmetic op (INTEGER_VALUE a) (INTEGER_VALUE b)) = Some (INTEGER_VALUE c) \/
     is_bitwise op = true /\ (snd <$> doBitwise op (INTEGER_VALUE a) (INTEGER_VALUE b)) = Some (INTEGER_VALUE c)) ->
    P c -> gives op P).
  { intros op c P H HP. exists c. split; [|exact HP]. unfold r. destruct (integer_operation op a b) as (_&H1&H2).
    destruct H as [(Ho&Hu&E)|[Ho E]]; [rewrite (H1 Ho Hu)|rewrite (H2 Ho)]; by apply op_result_answers. }
  destruct (integer_arithmetic (INTEGER_VALUE a) (INTEGER_VALUE b) a b eq_refl eq_refl) as (Hadd&Hsub&Hmul&Hzero&Hdiv).
  split_and!.
  - intros op Ho. unfold r. pose proof Ho as [Hc Hm%negb_true_iff]%andb_prop.
    rewrite (proj1 (integer_operation op a b) Hc). apply op_result_answers. unfold doComparison. rewrite Hm. simpl.
    by rewrite compareIntegers_spec.
  - eapply Hg; [by left|apply wrap64_reads].
  - eapply Hg; [by left|apply wrap64_reads].
  - eapply Hg; [by left|apply wrap64_reads].
  - intros H0. destruct (Hzero H0) as [E1 E2]. by split; apply op_result_answers.
  - intros H0. destruct (Hdiv H0) as (q&m&E1&E2&H). eapply Hg; [by left|]. eapply Hg; [by left|]. exact H.
  - eapply Hg; [by right|]. apply Z.land_spec.
  - eapply Hg; [by right|]. apply Z.lor_spec.
  - eapply Hg; [by right|]. apply Z.lxor_spec.
  - intros Hn. destruct (shifts_correct a b Ha Hn) as (E1&E2&E3). split_and!.
    + eapply Hg; [by right|apply wrap64_reads].
    + eapply Hg; [by right|done].
    + intros Hc. eapply Hg; [right; split; [done|by apply E3]|done].
Qed.

Lemma operators_on_integers_witness :
  answers (_doOperation LESS_THAN_OP (INTEGER_VALUE INT64_MIN) (INTEGER_VALUE 3) UNDEFINED_VALUE true true false)
    (BOOLEAN_VALUE true) /\
  exists c, answers (_doOperation ADDITION_OP (INTEGER_VALUE INT64_MIN) (INTEGER_VALUE 3) UNDEFINED_VALUE true true false)
    (INTEGER_VALUE c) /\ reads_as c (INT64_MIN + 3).
Proof.
  destruct (operators_on_integers INT64_MIN 3) as (Hc&Ha&_); [by split|by split|].
  split; [exact (Hc LESS_THAN_OP eq_refl)|exact Ha].
Defined.

(** The meta comparisons [=?=] and [=!=] never answer undefined: they are errors for
    two lists or two ClassAds of the same kind, and otherwise booleans of opposite
    value. Values of different types are never [=?=], undefined and error are [=?=] to
    themselves, and strings are compared case-sensitively. *)
Theorem meta_comparison v1 v2 :
  (doComparison META_EQUAL_OP v1 v2 = Some (SIG_BOTH, ERROR_VALUE) /\
   doComparison META_NOT_EQUAL_OP v1 v2 = Some (SIG_BOTH, ERROR_VALUE) /\
   GetType v1 = GetType v2 /\ is_scalar v1 = false) \/
  (exists b, doComparison META_EQUAL_OP v1 v2 = Some (SIG_BOTH, BOOLEAN_VALUE b) /\
   doComparison META_NOT_EQUAL_OP v1 v2 = Some (SIG_BOTH, BOOLEAN_VALUE (negb b)) /\
   (b = true -> GetType v1 = GetType v2) /\
   match v1, v2 with
   | UNDEFINED_VALUE, UNDEFINED_VALUE | ERROR_VALUE, ERROR_VALUE => b = true
   | STRING_VALUE s1, STRING_VALUE s2 => b = true <-> c_str s1 = c_str s2
   | INTEGER_VALUE i1, INTEGER_VALUE i2 => b = true <-> i1 = i2
   | BOOLEAN_VALUE b1, BOOLEAN_VALUE b2 => b = true <-> b1 = b2
   | _, _ => True
   end).
Proof.
  destruct v1 as [| |b1|i1|r1|r1|t1|s1| | | |], v2 as [| |b2|i2|r2|r2|t2|s2| | | |]; cbn;
    try (left; done); right; try (exists false; done); try (exists true; done);
    eexists; split_and!; try reflexivity.
  - by destruct b1, b2.
  - by destruct b1, b2.
  - lia.
  - by rewrite negb_andb.
  - unfold compareStrings. by destruct (strcmp s1 s2).
  - unfold strcmp. split; [|intros ->; by rewrite str_cmp_refl].
    destruct (str_cmp (c_str s1) (c_str s2)) eqn:E; intros; simplify_eq.
    by apply str_cmp_eq.
Qed.

Lemma doComparison_strings op s1 s2 : is_comparison op = true ->
  doComparison op (STRING_VALUE s1) (STRING_VALUE s2)
  = Some (SIG_BOTH, compareStrings op s1 s2).
Proof. intros H. by destruct op. Qed.

(** Equality of strings with [==] ignores letter case: it holds exactly for names
    that an attribute table would file under the same key; [=?=] implies it. *)
Theorem string_equality s1 s2 :
  (doComparison EQUAL_OP (STRING_VALUE s1) (STRING_VALUE s2)
     = Some (SIG_BOTH, BOOLEAN_VALUE true) <-> attr_key s1 = attr_key s2) /\
  (doComparison META_EQUAL_OP (STRING_VALUE s1) (STRING_VALUE s2)
     = Some (SIG_BOTH, BOOLEAN_VALUE true) ->
   doComparison EQUAL_OP (STRING_VALUE s1) (STRING_VALUE s2)
     = Some (SIG_BOTH, BOOLEAN_VALUE true)).
Proof.
  rewrite <- strcasecmp_key, !doComparison_strings by done. unfold compareStrings. split.
  - destruct (strcasecmp s1 s2); split; intros; by simplify_eq.
  - destruct (strcmp s1 s2) eqn:E; intros; simplify_eq.
    unfold strcasecmp. rewrite (str_cmp_eq _ _ E), str_cmp_refl. done.
Qed.

(** Unary minus negates numbers, but of a boolean it is the error value: the branch
    for booleans sets the negation and then falls through to the error. *)
Theorem unary_minus_boolean b :
  _doOperation UNARY_MINUS_OP (BOOLEAN_VALUE b) UNDEFINED_VALUE UNDEFINED_VALUE true false false
  = OpDone SIG_CHLD1 ERROR_VALUE.
Proof. reflexivity. Qed.
