(* ===== verification/FlatMap.v ===== *)
(** * [ClassAdFlatMap]: the attribute table ([classad/classad_flat_map.h])

    A vector of (name, expression) pairs ordered by the size of the name and then by
    [strcasecmp]. The theorems show that on a vector in that order the operations
    implement a finite map from case-folded names. *)
From Stdlib Require Import ZArith Lia Ascii String Sorted.
From stdpp Require Import base list gmap strings sorting.
From S2P Require Import Prelude.

Section flat_map.
Context {V : Type}.

(** [ClassAdFlatMapOrder]: is the entry named [k] before [key]? *)
Definition FlatMapOrder (k key : string) : bool :=
  if (String.length k <? String.length key)%nat then true
  else if (String.length key <? String.length k)%nat then false
  else match strcasecmp k key with Lt => true | _ => false end.

Definition FlatMapEqual (k key : string) : bool :=
  match strcasecmp k key with Eq => true | _ => false end.

(** [std::lower_bound]: the first entry that is not before [key]. *)
Fixpoint lower_bound (l : list (string * V)) (key : string) : nat :=
  match l with
  | [] => 0
  | (k, _) :: l' => if FlatMapOrder k key then S (lower_bound l' key) else 0
  end.

(** [find]: the position of the entry, [None] for [end ()]. *)
Definition fm_find (l : list (string * V)) (key : string) : option nat :=
  let lb := lower_bound l key in
  match l !! lb with
  | Some (k, _) => if FlatMapEqual k key then Some lb else None
  | None => None
  end.

(** The value found, the [itr->second] of the callers. *)
Definition fm_lookup (l : list (string * V)) (key : string) : option V :=
  match fm_find l key with Some i => snd <$> l !! i | None => None end.

(** [emplace]: an existing entry is left alone; the flag says whether one was added. *)
Definition fm_emplace (l : list (string * V)) (key : string) (v : V)
  : list (string * V) * nat * bool :=
  let lb := lower_bound l key in
  match fm_find l key with
  | Some i => (l, i, false)
  | None => (take lb l ++ (key, v) :: drop lb l, lb, true)
  end.

(** [emplace], then overwriting the expression of an existing entry: how the callers
    insert. The spelling of the first insertion stays. *)
Definition fm_insert (l : list (string * V)) (key : string) (v : V) : list (string * V) :=
  match fm_emplace l key v with
  | (l', i, false) => alter (fun kv => (fst kv, v)) i l'
  | (l', _, true) => l'
  end.

(** [erase] by name; the flag says whether an entry was removed. *)
Definition fm_erase (l : list (string * V)) (key : string) : list (string * V) * bool :=
  match fm_find l key with
  | Some i => (delete i l, true)
  | None => (l, false)
  end.

(** ** The invariant and the abstract map *)
Definition fm_sorted (l : list (string * V)) : Prop :=
  StronglySorted (fun x y => FlatMapOrder x.1 y.1 = true) l.
Definition fm_ok (l : list (string * V)) : Prop :=
  fm_sorted l /\ Forall (fun kv => nul_free kv.1) l.

Definition fm_map (l : list (string * V)) : gmap string (string * V) :=
  list_to_map ((fun kv => (attr_key kv.1, kv)) <$> l).

(** ** The contract

    The callers' view: a finite map from case-folded names to the spelling first
    inserted and the expression last inserted. *)
Inductive fm_op :=
| FInsert (key : string) (v : V)
| FErase (key : string).

Definition fm_op_key (o : fm_op) : string :=
  match o with FInsert key _ | FErase key => key end.

Definition fm_step (l : list (string * V)) (o : fm_op) : list (string * V) :=
  match o with
  | FInsert key v => fm_insert l key v
  | FErase key => (fm_erase l key).1
  end.

Definition map_step (m : gmap string (string * V)) (o : fm_op) : gmap string (string * V) :=
  match o with
  | FInsert key v => <[attr_key key := (from_option fst key (m !! attr_key key), v)]> m
  | FErase key => delete (attr_key key) m
  end.

(** ** The order *)
Definition key_order (x y : string) : Prop :=
  (String.length x < String.length y)%nat \/
  (String.length x = String.length y /\ str_cmp x y = Lt).

Lemma FlatMapOrder_spec k key : nul_free k -> nul_free key ->
  FlatMapOrder k key = true <-> key_order (attr_key k) (attr_key key).
Proof.
  intros Hk Hkey. unfold FlatMapOrder, key_order.
  rewrite (attr_key_length k Hk), (attr_key_length key Hkey).
  change (strcasecmp k key) with (str_cmp (attr_key k) (attr_key key)).
  destruct (Nat.ltb_spec (String.length k) (String.length key)); [naive_solver lia|].
  destruct (Nat.ltb_spec (String.length key) (String.length k)); [naive_solver lia|].
  destruct (str_cmp _ _); naive_solver lia.
Qed.

Lemma FlatMapEqual_spec k key : FlatMapEqual k key = true <-> attr_key k = attr_key key.
Proof.
  rewrite <- strcasecmp_key. unfold FlatMapEqual. by destruct (strcasecmp k key).
Qed.

Lemma key_order_irrefl x : ~ key_order x x.
Proof. unfold key_order. rewrite str_cmp_refl. naive_solver lia. Qed.

Lemma key_order_trans x y z : key_order x y -> key_order y z -> key_order x z.
Proof. unfold key_order. intros [|[]] [|[]]; eauto using str_cmp_trans with lia. Qed.

Lemma key_order_total x y : ~ key_order x y -> ~ key_order y x -> x = y.
Proof.
  unfold key_order. intros H1 H2. apply str_cmp_total; intros E; [apply H1|apply H2];
    right; split; auto; destruct (Nat.lt_trichotomy (String.length x) (String.length y))
      as [|[|]]; naive_solver lia.
Qed.

(** ** Lookup *)
Lemma fm_map_cons k v l : fm_map ((k, v) :: l) = <[attr_key k := (k, v)]> (fm_map l).
Proof. done. Qed.

Lemma fm_map_None l x :
  Forall (fun kv => attr_key kv.1 <> x) l -> fm_map l !! x = None.
Proof.
  induction 1 as [|[k v] l H _ IH]; [done|]. by rewrite fm_map_cons, lookup_insert_ne.
Qed.

(** What is after an entry that is not before [key] is not named [key]. *)
Lemma fm_map_beyond k v l key :
  fm_ok ((k, v) :: l) -> nul_free key -> FlatMapOrder k key = false ->
  fm_map l !! attr_key key = None.
Proof.
  intros [Hs Hn] Hkey Ho. inversion Hs as [|? ? _ Hall]; inversion Hn as [|? ? Hk Hn']; subst.
  apply fm_map_None. rewrite Forall_forall in Hall, Hn' |- *. intros [k' v'] Hin E. simpl in *.
  specialize (Hall _ Hin). specialize (Hn' _ Hin). simpl in *.
  apply (FlatMapOrder_spec k k' Hk Hn') in Hall. rewrite E in Hall.
  apply (FlatMapOrder_spec k key) in Hall; congruence.
Qed.

Lemma fm_find_spec l key :
  fm_ok l -> nul_free key ->
  match fm_find l key with
  | Some i => exists k v, l !! i = Some (k, v) /\ fm_map l !! attr_key key = Some (k, v)
              /\ attr_key k = attr_key key
  | None => fm_map l !! attr_key key = None
  end.
Proof.
  intros Hok Hkey. unfold fm_find. induction l as [|[k v] l IH]; [done|]. simpl.
  destruct (FlatMapOrder k key) eqn:Ho.
  - destruct Hok as [Hs Hn]. inversion Hs; inversion Hn; subst. simpl.
    assert (attr_key k <> attr_key key) as Hne.
    { apply FlatMapOrder_spec in Ho; [|done..]. intros E. rewrite E in Ho.
      by apply key_order_irrefl in Ho. }
    rewrite fm_map_cons, lookup_insert_ne by done.
    specialize (IH (conj H1 H6)). destruct (l !! lower_bound l key) as [[k' v']|]; [|done].
    destruct (FlatMapEqual k' key); [|done]. destruct IH as (k''&v''&E&?&?).
    exists k'', v''. auto.
  - simpl. destruct (FlatMapEqual k key) eqn:He.
    + apply FlatMapEqual_spec in He. exists k, v. rewrite fm_map_cons, He.
      by rewrite lookup_insert_eq.
    + assert (attr_key k <> attr_key key) by (rewrite <- FlatMapEqual_spec; congruence).
      rewrite fm_map_cons, lookup_insert_ne by done. by eapply fm_map_beyond.
Qed.

Lemma fm_lookup_spec l key :
  fm_ok l -> nul_free key -> fm_lookup l key = snd <$> fm_map l !! attr_key key.
Proof.
  intros Hok Hkey. pose proof (fm_find_spec l key Hok Hkey) as H. unfold fm_lookup.
  destruct (fm_find l key) as [i|]; [|by rewrite H].
  destruct H as (k&v&E1&E2&_). by rewrite E1, E2.
Qed.

(** ** Updates

    An operation at the position of an entry acts on the split of the vector there. *)
Lemma fm_find_split l key i :
  fm_find l key = Some i ->
  exists l1 k v l2, l = l1 ++ (k, v) :: l2 /\ i = length l1 /\ attr_key k = attr_key key.
Proof.
  unfold fm_find. intros H. destruct (l !! lower_bound l key) as [[k v]|] eqn:E; [|done].
  destruct (FlatMapEqual k key) eqn:He; simplify_eq. apply FlatMapEqual_spec in He.
  apply list_elem_of_split_length in E as (l1&l2&->&->). naive_solver.
Qed.

Lemma fm_ok_keys l1 kv l2 :
  fm_ok (l1 ++ kv :: l2) ->
  Forall (fun x => attr_key x.1 <> attr_key kv.1) (l1 ++ l2).
Proof.
  intros [Hs Hn]. apply Forall_app in Hn as [Hn1 Hn2]. inversion_clear Hn2 as [|? ? Hk Hn2'].
  apply StronglySorted_app in Hs as (H1&_&H2).
  apply Forall_app; split; apply Forall_forall; intros x Hx E.
  - specialize (H1 x kv Hx ltac:(left)). rewrite Forall_forall in Hn1.
    apply FlatMapOrder_spec in H1; [|by auto..]. rewrite E in H1. by apply key_order_irrefl in H1.
  - apply StronglySorted_inv in H2 as [_ H2]. rewrite Forall_forall in H2, Hn2'.
    specialize (H2 x Hx). apply FlatMapOrder_spec in H2; [|by auto..]. rewrite E in H2.
    by apply key_order_irrefl in H2.
Qed.

Lemma fm_map_middle l1 kv l2 :
  Forall (fun x => attr_key x.1 <> attr_key kv.1) l1 ->
  fm_map (l1 ++ kv :: l2) = <[attr_key kv.1 := kv]> (fm_map (l1 ++ l2)).
Proof.
  intros H. induction H as [|[k v] l1 Hne _ IH]; [by destruct kv|]. simpl.
  rewrite !fm_map_cons, IH. by apply insert_insert_ne.
Qed.

(** The order looks at the names only. *)
Lemma fm_ok_cons k v l :
  fm_ok ((k, v) :: l) <->
  nul_free k /\ Forall (fun k' => FlatMapOrder k k' = true) l.*1 /\ fm_ok l.
Proof.
  unfold fm_ok, fm_sorted. rewrite Forall_cons, Forall_fmap. split.
  - intros [[? ?]%StronglySorted_inv [? ?]]. auto.
  - intros (?&?&?&?). split; [by constructor|auto].
Qed.

Lemma fm_ok_names l l' : l.*1 = l'.*1 -> fm_ok l -> fm_ok l'.
Proof.
  revert l'. induction l as [|[k v] l IH]; intros [|[k' v'] l'] E; simplify_eq/=; [done|].
  rewrite !fm_ok_cons. intros (?&?&?). split_and!; [done|congruence|auto].
Qed.

Lemma fm_map_None_inv l x :
  fm_map l !! x = None -> Forall (fun kv => attr_key kv.1 <> x) l.
Proof.
  induction l as [|[k v] l IH]; [constructor|]. rewrite fm_map_cons.
  intros [??]%lookup_insert_None. constructor; auto.
Qed.

(** The position an absent name is inserted at. *)
Lemma lower_bound_split l key :
  fm_ok l -> nul_free key ->
  (lower_bound l key <= length l)%nat /\
  Forall (fun kv => FlatMapOrder kv.1 key = true) (take (lower_bound l key) l) /\
  Forall (fun kv => FlatMapOrder kv.1 key = false) (drop (lower_bound l key) l).
Proof.
  intros Hok Hkey. induction l as [|[k v] l IH]; [done|]. simpl.
  pose proof Hok as [Hs Hn]. apply StronglySorted_inv in Hs as [Hs Ha].
  inversion_clear Hn as [|? ? Hk Hn'].
  destruct (FlatMapOrder k key) eqn:Ho; simpl.
  - destruct (IH (conj Hs Hn')) as (?&?&?). split_and!; [lia|by constructor|done].
  - split_and!; [lia|by constructor|]. constructor; [done|].
    rewrite Forall_forall in Ha, Hn' |- *. intros [k' v'] Hin. specialize (Ha _ Hin).
    specialize (Hn' _ Hin). simpl in *. apply not_true_iff_false. intros Ho'.
    apply not_true_iff_false in Ho. apply Ho. apply FlatMapOrder_spec; [done..|].
    eapply key_order_trans; by apply FlatMapOrder_spec; [..|eauto|eauto].
Qed.

Lemma fm_ok_middle l1 l2 k v :
  fm_ok (l1 ++ l2) -> nul_free k ->
  Forall (fun kv => FlatMapOrder kv.1 k = true) l1 ->
  Forall (fun kv => FlatMapOrder k kv.1 = true) l2 ->
  fm_ok (l1 ++ (k, v) :: l2).
Proof.
  intros Hok Hk H1 H2. induction H1 as [|[k1 v1] l1 H1 _ IH]; simpl in *.
  - apply fm_ok_cons. by rewrite Forall_fmap.
  - apply fm_ok_cons in Hok as (?&Ha&?). apply fm_ok_cons. split_and!; [done| |auto].
    rewrite fmap_app in Ha |- *. apply Forall_app in Ha as [??].
    apply Forall_app; split; [done|]. by constructor.
Qed.

Lemma fm_emplace_absent l key v :
  fm_ok l -> nul_free key -> fm_find l key = None ->
  exists l1 l2, l = l1 ++ l2 /\ fm_emplace l key v = (l1 ++ (key, v) :: l2, length l1, true) /\
    fm_ok (l1 ++ (key, v) :: l2) /\ Forall (fun x => attr_key x.1 <> attr_key key) l1.
Proof.
  intros Hok Hkey Hf. destruct (lower_bound_split l key Hok Hkey) as (Hle&H1&H2).
  exists (take (lower_bound l key) l), (drop (lower_bound l key) l).
  rewrite take_drop, length_take_le by done. unfold fm_emplace. rewrite Hf.
  split_and!; [done..| |].
  - apply fm_ok_middle; [by rewrite take_drop|done|done|].
    pose proof (fm_find_spec l key Hok Hkey) as Hm. rewrite Hf in Hm.
    apply fm_map_None_inv in Hm. destruct Hok as [_ Hn].
    rewrite Forall_forall in H2, Hm, Hn |- *. intros [k' v'] Hin.
    assert (Hin' : (k', v') ∈ l).
    { rewrite <- (take_drop (lower_bound l key) l). apply elem_of_app. by right. }
    specialize (H2 _ Hin). specialize (Hn _ Hin'). specialize (Hm _ Hin'). simpl in *.
    apply dec_stable. intros Hno. apply Hm.
    apply key_order_total; rewrite <- FlatMapOrder_spec by done; congruence.
  - pose proof (fm_find_spec l key Hok Hkey) as Hm. rewrite Hf in Hm.
    apply fm_map_None_inv in Hm. by apply Forall_take.
Qed.

Lemma fm_ok_remove l1 kv l2 : fm_ok (l1 ++ kv :: l2) -> fm_ok (l1 ++ l2).
Proof.
  destruct kv as [k v]. induction l1 as [|[k1 v1] l1 IH]; simpl; rewrite !fm_ok_cons; [naive_solver|].
  intros (?&Ha&?). split_and!; [done| |auto]. rewrite fmap_app in Ha |- *.
  apply Forall_app in Ha as [? Ha]. inversion Ha. by apply Forall_app.
Qed.

Lemma fm_insert_found l1 k v0 l2 key v i :
  fm_find (l1 ++ (k, v0) :: l2) key = Some i -> i = length l1 ->
  fm_insert (l1 ++ (k, v0) :: l2) key v = l1 ++ (k, v) :: l2.
Proof.
  intros Hf ->. unfold fm_insert, fm_emplace. rewrite Hf.
  rewrite <- (Nat.add_0_r (length l1)). by rewrite alter_app_r.
Qed.

Lemma fm_insert_ok l key v : fm_ok l -> nul_free key -> fm_ok (fm_insert l key v).
Proof.
  intros Hok Hkey. destruct (fm_find l key) as [i|] eqn:Hf.
  - destruct (fm_find_split _ _ _ Hf) as (l1&k&v0&l2&->&Hi&_).
    rewrite (fm_insert_found l1 k v0 l2 key v i) by done.
    eapply fm_ok_names; [|exact Hok]. by rewrite !fmap_app.
  - destruct (fm_emplace_absent l key v Hok Hkey Hf) as (l1&l2&->&E&?&_).
    unfold fm_insert. by rewrite E.
Qed.

Lemma fm_insert_spec l key v :
  fm_ok l -> nul_free key ->
  fm_map (fm_insert l key v) =
    <[attr_key key := (from_option fst key (fm_map l !! attr_key key), v)]> (fm_map l).
Proof.
  intros Hok Hkey. pose proof (fm_find_spec l key Hok Hkey) as Hs.
  destruct (fm_find l key) as [i|] eqn:Hf.
  - destruct (fm_find_split _ _ _ Hf) as (l1&k&v0&l2&->&->&Ek).
    rewrite (fm_insert_found l1 k v0 l2 key v _ Hf eq_refl).
    pose proof (fm_ok_keys _ _ _ Hok) as Hne. apply Forall_app in Hne as [Hne _].
    rewrite !fm_map_middle by done. simpl. rewrite Ek, insert_insert_eq.
    by rewrite lookup_insert_eq.
  - destruct (fm_emplace_absent l key v Hok Hkey Hf) as (l1&l2&->&E&?&Hne).
    unfold fm_insert. rewrite E, Hs, fm_map_middle by done. done.
Qed.

Lemma fm_erase_spec l key :
  fm_ok l -> nul_free key ->
  fm_ok (fm_erase l key).1 /\
  fm_map (fm_erase l key).1 = delete (attr_key key) (fm_map l) /\
  (fm_erase l key).2 = bool_decide (is_Some (fm_map l !! attr_key key)).
Proof.
  intros Hok Hkey. pose proof (fm_find_spec l key Hok Hkey) as Hs. unfold fm_erase.
  destruct (fm_find l key) as [i|] eqn:Hf; simpl.
  - destruct (fm_find_split _ _ _ Hf) as (l1&k&v0&l2&->&->&Ek).
    pose proof (fm_ok_keys _ _ _ Hok) as Hne. pose proof Hne as [Hne1 _]%Forall_app.
    destruct Hs as (?&?&?&Hm&?). rewrite Hm, bool_decide_true by done.
    rewrite delete_middle, fm_map_middle by done. simpl. rewrite Ek, delete_insert_id.
    + split_and!; [|done..]. by eapply fm_ok_remove.
    + rewrite <- Ek. by apply fm_map_None.
  - rewrite Hs, bool_decide_false by (intros [? ?]; done).
    split_and!; [done| |done]. symmetry. by apply delete_id.
Qed.

(** What a lookup sees of an insertion and of a removal. *)
Lemma fm_lookup_insert l key v key' :
  fm_ok l -> nul_free key -> nul_free key' ->
  fm_lookup (fm_insert l key v) key' =
    if decide (attr_key key' = attr_key key) then Some v else fm_lookup l key'.
Proof.
  intros Hok Hk Hk'. rewrite !fm_lookup_spec, fm_insert_spec by auto using fm_insert_ok.
  case_decide as E; [by rewrite E, lookup_insert_eq|by rewrite lookup_insert_ne].
Qed.

Lemma fm_lookup_erase l key key' :
  fm_ok l -> nul_free key -> nul_free key' ->
  fm_lookup (fm_erase l key).1 key' =
    if decide (attr_key key' = attr_key key) then None else fm_lookup l key'.
Proof.
  intros Hok Hk Hk'. destruct (fm_erase_spec l key Hok Hk) as (Hok'&E&_).
  rewrite !fm_lookup_spec, E by done.
  case_decide as Ek; [by rewrite Ek, lookup_delete_eq|by rewrite lookup_delete_ne].
Qed.

Lemma fm_erase_flag l key :
  fm_ok l -> nul_free key -> (fm_erase l key).2 = bool_decide (is_Some (fm_lookup l key)).
Proof.
  intros Hok Hk. destruct (fm_erase_spec l key Hok Hk) as (_&_&->).
  rewrite fm_lookup_spec by done. apply bool_decide_ext. by rewrite fmap_is_Some.
Qed.

Lemma fm_step_refines l o :
  fm_ok l -> nul_free (fm_op_key o) ->
  fm_ok (fm_step l o) /\ fm_map (fm_step l o) = map_step (fm_map l) o.
Proof.
  destruct o as [key v|key]; simpl; intros Hok Hk.
  - split; [by apply fm_insert_ok|by apply fm_insert_spec].
  - destruct (fm_erase_spec l key Hok Hk) as (?&?&_). done.
Qed.

(** C35: The sorted attribute vector of a ClassAd ([ClassAdFlatMap], with its binary
    search, [emplace] and [erase]) implements a case-insensitive finite map: after any
    sequence of insertions and removals from an empty vector, the vector is ordered
    without two entries of one name, and [find] answers what the abstract map holds. *)
Theorem flat_map_refines ops key :
  Forall (fun o => nul_free (fm_op_key o)) ops -> nul_free key ->
  fm_ok (foldl fm_step [] ops) /\
  fm_map (foldl fm_step [] ops) = foldl map_step ∅ ops /\
  fm_lookup (foldl fm_step [] ops) key = snd <$> foldl map_step ∅ ops !! attr_key key.
Proof.
  intros Hops Hkey.
  assert (H : forall l, fm_ok l -> fm_ok (foldl fm_step l ops) /\
    fm_map (foldl fm_step l ops) = foldl map_step (fm_map l) ops).
  { induction Hops as [|o ops Ho _ IH]; intros l Hl; [done|]. simpl.
    destruct (fm_step_refines l o Hl Ho) as [H1 H2]. rewrite <- H2. auto. }
  destruct (H []) as [H1 H2]; [by split; constructor|].
  split_and!; [done..|]. by rewrite fm_lookup_spec, H2.
Qed.
End flat_map.

Lemma flat_map_refines_witness :
  let ops := [FInsert "Requirements" 1; FInsert "CPUS" 2; FInsert "cpus" 3; FErase "REQUIREMENTS"] in
  foldl fm_step [] ops = [("CPUS", 3)] /\
  fm_lookup (foldl fm_step [] ops) "Cpus" = snd <$> foldl map_step ∅ ops !! attr_key "Cpus".
Proof.
  split; [reflexivity|]. apply flat_map_refines; [|reflexivity].
  repeat constructor.
Defined.
