(* ===== verification/AdStore.v ===== *)
(** * ClassAds and their store ([classad/classad.h], [classad.cpp])

    A ClassAd is a shared mutable object: expressions nest it, other ClassAds chain to
    it or are scoped in it, evaluation states point at it. The store maps addresses to
    ClassAds; every operation takes the store and returns the new one. [None] stands for
    a call that has no outcome: a dangling [this] pointer, or a recursion through the
    store (chain, nesting) that does not end. Memory is never reclaimed. *)
From Stdlib Require Import ZArith Lia Ascii String.
From stdpp Require Import base list gmap strings.
From S2P Require Import Prelude Double Tree Values FlatMap.

(** The dirty set ([std::set] ordered by [strcasecmp]) is a set of case-folded names. *)
Record ClassAd := mk_ClassAd {
  attrList : list (string * ExprTree);
  dirtyAttrList : gset string;
  do_dirty_tracking : bool;
  chained_parent_ad : option adref;
  alternateScope : option adref;
  parentScope : option adref
}.

Abbreviation heap := (gmap adref ClassAd).

Definition new_ClassAd : ClassAd := mk_ClassAd [] ∅ false None None None.

(** [new ClassAd] *)
Definition alloc_ad (h : heap) : heap * adref :=
  let a := fresh (dom h) in (<[a := new_ClassAd]> h, a).

(** ** Assignments to one field *)
Definition set_attrList l ad :=
  mk_ClassAd l (dirtyAttrList ad) (do_dirty_tracking ad) (chained_parent_ad ad)
    (alternateScope ad) (parentScope ad).
Definition set_dirtyAttrList d ad :=
  mk_ClassAd (attrList ad) d (do_dirty_tracking ad) (chained_parent_ad ad)
    (alternateScope ad) (parentScope ad).
Definition set_do_dirty_tracking b ad :=
  mk_ClassAd (attrList ad) (dirtyAttrList ad) b (chained_parent_ad ad)
    (alternateScope ad) (parentScope ad).
Definition set_chained_parent_ad p ad :=
  mk_ClassAd (attrList ad) (dirtyAttrList ad) (do_dirty_tracking ad) p
    (alternateScope ad) (parentScope ad).
Definition set_alternateScope s ad :=
  mk_ClassAd (attrList ad) (dirtyAttrList ad) (do_dirty_tracking ad) (chained_parent_ad ad)
    s (parentScope ad).
Definition set_parentScope s ad :=
  mk_ClassAd (attrList ad) (dirtyAttrList ad) (do_dirty_tracking ad) (chained_parent_ad ad)
    (alternateScope ad) s.

(** [f] applied to the ClassAd at [a]. *)
Definition on_ad (a : adref) (f : ClassAd -> ClassAd) (h : heap) : option heap :=
  ad ← h !! a; Some (<[a := f ad]> h).

(** A fold that stops when a step has no outcome. *)
Fixpoint foldM {A B : Type} (f : A -> B -> option A) (a : A) (l : list B) : option A :=
  match l with
  | [] => Some a
  | b :: l' => a' ← f a b; foldM f a' l'
  end.

(** A map that threads a state and stops when a step has no outcome. *)
Definition map_st {S A B : Type} (f : S -> A -> option (S * B)) :=
  fix go (s : S) (l : list A) : option (S * list B) :=
    match l with
    | [] => Some (s, [])
    | x :: l' => '(s1, y) ← f s x; '(s2, l2) ← go s1 l'; Some (s2, y :: l2)
    end.

(** ** Lookup *)
Definition LookupIgnoreChain (h : heap) (a : adref) (name : string) : option (option ExprTree) :=
  ad ← h !! a; Some (fm_lookup (attrList ad) name).

(** [Lookup]: the ClassAd, then the chain of its parents. *)
Fixpoint Lookup_chain (n : nat) (h : heap) (a : adref) (name : string)
  : option (option ExprTree) :=
  match n with
  | O => None
  | S n' =>
      ad ← h !! a;
      match fm_lookup (attrList ad) name with
      | Some tree => Some (Some tree)
      | None =>
          match chained_parent_ad ad with
          | Some p => Lookup_chain n' h p name
          | None => Some None
          end
      end
  end.

(** A chain without repetition is not longer than the store. *)
Definition Lookup (h : heap) (a : adref) (name : string) : option (option ExprTree) :=
  Lookup_chain (size h) h a name.

(** ** Dirty tracking *)
Definition MarkAttributeDirty (name : string) (ad : ClassAd) : ClassAd :=
  if do_dirty_tracking ad
  then set_dirtyAttrList ({[attr_key name]} ∪ dirtyAttrList ad) ad else ad.
Definition MarkAttributeClean (name : string) (ad : ClassAd) : ClassAd :=
  if do_dirty_tracking ad
  then set_dirtyAttrList (dirtyAttrList ad ∖ {[attr_key name]}) ad else ad.
Definition IsAttributeDirty (name : string) (ad : ClassAd) : bool :=
  bool_decide (attr_key name ∈ dirtyAttrList ad).
Definition ClearAllDirtyFlags (ad : ClassAd) : ClassAd := set_dirtyAttrList ∅ ad.
Definition EnableDirtyTracking (ad : ClassAd) : ClassAd := set_do_dirty_tracking true ad.
Definition DisableDirtyTracking (ad : ClassAd) : ClassAd := set_do_dirty_tracking false ad.

(** ** Insertion *)

(** [SetParentScope (scope)] on a tree: its effect on the ClassAds the tree nests. *)
Definition scope_nested (scope : option adref) (tree : ExprTree) (h : heap) : heap :=
  foldr (fun c => alter (set_parentScope scope) c) h (nested_ads tree).

Definition insert_attr (name : string) (tree : ExprTree) (ad : ClassAd) : ClassAd :=
  MarkAttributeDirty name (set_attrList (fm_insert (attrList ad) name tree) ad).

Definition Insert (h : heap) (a : adref) (name : string) (tree : option ExprTree)
  : option (heap * bool) :=
  if String.eqb name "" then Some (h, false)
  else match tree with
  | None => Some (h, false)
  | Some tree =>
      h' ← on_ad a (insert_attr name (SetParentScope (Some a) tree))
             (scope_nested (Some a) tree h);
      Some (h', true)
  end.

(** The optimised insertions of literals ([InsertAttr] of [long long], [double], [bool]
    and counted strings, and [InsertLiteral]): the name is not checked. *)
Definition InsertLiteral (h : heap) (a : adref) (name : string) (lit : ExprTree)
  : option (heap * bool) :=
  h' ← on_ad a (insert_attr name lit) h; Some (h', true).

Definition InsertAttr_longlong h a name (value : Z) :=
  InsertLiteral h a name (IntegerLiteral value).
Definition InsertAttr_double h a name (value : double) :=
  InsertLiteral h a name (RealLiteral value).
Definition InsertAttr_bool h a name (value : bool) :=
  InsertLiteral h a name (BooleanLiteral value).
(** [InsertAttr] of [int], [long] and [std::string]. *)
Definition InsertAttr_int h a name (value : Z) :=
  Insert h a name (MakeLiteral (INTEGER_VALUE value)).
Definition InsertAttr_string h a name (value : string) :=
  Insert h a name (Some (StringLiteral value)).

(** ** Chaining *)
Definition ChainToAd (h : heap) (a : adref) (new_parent : option adref) : option heap :=
  match new_parent with
  | Some _ => on_ad a (set_chained_parent_ad new_parent) h
  | None => Some h
  end.
Definition Unchain (h : heap) (a : adref) : option heap :=
  on_ad a (set_chained_parent_ad None) h.

Definition clear_ad (ad : ClassAd) : ClassAd := set_attrList [] (set_chained_parent_ad None ad).
Definition Clear (h : heap) (a : adref) : option heap := on_ad a clear_ad h.

(** ** Deletion and removal *)

(** The attribute as the chained parent shows it; null without a parent. *)
Definition parent_lookup (h : heap) (a : adref) (name : string) : option (option ExprTree) :=
  ad ← h !! a;
  match chained_parent_ad ad with
  | Some p => Lookup h p name
  | None => Some None
  end.

Definition erase_attr (name : string) (ad : ClassAd) : ClassAd :=
  set_attrList (fm_erase (attrList ad) name).1 ad.

Definition Delete (h : heap) (a : adref) (name : string) : option (heap * bool) :=
  ad ← h !! a;
  let deleted_attribute := (fm_erase (attrList ad) name).2 in
  let h1 := <[a := erase_attr name ad]> h in
  inherited ← parent_lookup h1 a name;
  match inherited with
  | Some _ => '(h2, _) ← Insert h1 a name (Some UndefinedLiteral); Some (h2, true)
  | None => Some (h1, deleted_attribute)
  end.

(** ** Copies

    [Copy] of a tree copies the ClassAds it nests: each gets a new address. *)
Section copy.
Variable copy_ad : heap -> adref -> option (heap * adref).

Fixpoint copy_tree (h : heap) (e : ExprTree) : option (heap * ExprTree) :=
  match e with
  | AttributeReference sc None a b => Some (h, AttributeReference sc None a b)
  | AttributeReference sc (Some x) a b =>
      '(h1, x') ← copy_tree h x; Some (h1, AttributeReference sc (Some x') a b)
  | Operation1 sc op c =>
      '(h1, c') ← copy_tree h c; Some (h1, Operation1 sc op c')
  | OperationParens sc c =>
      '(h1, c') ← copy_tree h c; Some (h1, OperationParens sc c')
  | Operation2 sc op c1 c2 =>
      '(h1, c1') ← copy_tree h c1;
      '(h2, c2') ← copy_tree h1 c2;
      Some (h2, Operation2 sc op c1' c2')
  | Operation3 sc c1 None c3 =>
      '(h1, c1') ← copy_tree h c1;
      '(h3, c3') ← copy_tree h1 c3;
      Some (h3, Operation3 sc c1' None c3')
  | Operation3 sc c1 (Some c2) c3 =>
      '(h1, c1') ← copy_tree h c1;
      '(h2, c2') ← copy_tree h1 c2;
      '(h3, c3') ← copy_tree h2 c3;
      Some (h3, Operation3 sc c1' (Some c2') c3')
  | FunctionCall sc f l => '(h1, l') ← map_st copy_tree h l; Some (h1, FunctionCall sc f l')
  | ExprList sc l => '(h1, l') ← map_st copy_tree h l; Some (h1, ExprList sc l')
  | ClassAdNode c => '(h1, c') ← copy_ad h c; Some (h1, ClassAdNode c')
  | _ => Some (h, e)
  end.

(** The loop of [Copy], [CopyFrom] and [Update]: copy an entry, insert the copy. *)
Definition copy_entry (a : adref) (h : heap) (kv : string * ExprTree) : option (heap * bool) :=
  '(h1, tree) ← copy_tree h kv.2; Insert h1 a kv.1 (Some tree).
End copy.

(** [ClassAd::Copy]. The fuel bounds the nesting of ClassAds. *)
Fixpoint Copy_ad (n : nat) (h : heap) (a : adref) : option (heap * adref) :=
  match n with
  | O => None
  | S n' =>
      ad ← h !! a;
      let newAd := fresh (dom h) in
      let ad0 := set_parentScope (parentScope ad)
                   (set_chained_parent_ad (chained_parent_ad ad) new_ClassAd) in
      h' ← foldM (fun h kv => fst <$> copy_entry (Copy_ad n') newAd h kv)
             (<[newAd := ad0]> h) (attrList ad);
      Some (h', newAd)
  end.

Definition Copy (h : heap) (a : adref) : option (heap * adref) := Copy_ad (size h) h a.
Definition CopyTree (h : heap) (e : ExprTree) : option (heap * ExprTree) :=
  copy_tree (fun h' c => Copy_ad (size h) h' c) h e.

Definition Remove (h : heap) (a : adref) (name : string) : option (heap * option ExprTree) :=
  ad ← h !! a;
  let tree := fm_lookup (attrList ad) name in
  let h0 := <[a := erase_attr name ad]> h in
  let h1 := match tree with Some t => scope_nested None t h0 | None => h0 end in
  let tree1 := SetParentScope None <$> tree in
  inherited ← parent_lookup h1 a name;
  match inherited with
  | Some parent_expr =>
      '(h2, tree2) ← match tree1 with
                     | Some t => Some (h1, t)
                     | None =>
                         '(h', c) ← CopyTree h1 parent_expr;
                         Some (scope_nested None c h', SetParentScope None c)
                     end;
      '(h3, _) ← Insert h2 a name (Some UndefinedLiteral);
      Some (h3, Some tree2)
  | None => Some (h1, tree1)
  end.

(** [Update]: stops at the first insertion that is refused. *)
Fixpoint update_loop (h : heap) (a : adref) (l : list (string * ExprTree))
  : option (heap * bool) :=
  match l with
  | [] => Some (h, true)
  | kv :: l' =>
      '(h1, ok) ← copy_entry (Copy_ad (size h)) a h kv;
      if (ok : bool) then update_loop h1 a l' else Some (h1, false)
  end.
Definition Update (h : heap) (a ad : adref) : option (heap * bool) :=
  src ← h !! ad; update_loop h a (attrList src).

(** [CopyFrom]; the dirty set of the receiver is not cleared. *)
Definition CopyFrom (h : heap) (a b : adref) : option (heap * bool) :=
  if bool_decide (a = b) then Some (h, false)
  else
    src ← h !! b;
    h1 ← on_ad a (fun dst =>
           set_do_dirty_tracking false
             (set_parentScope (parentScope src)
               (set_alternateScope (alternateScope src)
                 (set_chained_parent_ad (chained_parent_ad src) (clear_ad dst))))) h;
    h2 ← foldM (fun h kv =>
           '(h', _) ← copy_entry (Copy_ad (size h)) a h kv;
           if do_dirty_tracking src && IsAttributeDirty kv.1 src
           then on_ad a (fun dst =>
                  set_dirtyAttrList ({[attr_key kv.1]} ∪ dirtyAttrList dst) dst) h'
           else Some h') h1 (attrList src);
    h3 ← on_ad a (set_do_dirty_tracking (do_dirty_tracking src)) h2;
    Some (h3, true).

Fixpoint UpdateFromChain_n (n : nat) (h : heap) (a ad : adref) : option (heap * bool) :=
  match n with
  | O => None
  | S n' =>
      src ← h !! ad;
      '(h1, ok) ← match chained_parent_ad src with
                  | Some parent => UpdateFromChain_n n' h a parent
                  | None => Some (h, true)
                  end;
      if (ok : bool) then Update h1 a ad else Some (h1, false)
  end.
Definition UpdateFromChain (h : heap) (a ad : adref) : option (heap * bool) :=
  UpdateFromChain_n (size h) h a ad.

Definition CopyFromChain (h : heap) (a ad : adref) : option (heap * bool) :=
  if bool_decide (a = ad) then Some (h, false)
  else h1 ← Clear h a; UpdateFromChain h1 a ad.

(** ** Comparison *)

(** Elementwise comparison that stops at the first difference. *)
Definition forall2_same {A : Type} (same : A -> A -> option bool) :=
  fix go (l1 l2 : list A) : option bool :=
    match l1, l2 with
    | [], _ => Some true
    | _, [] => Some false
    | x :: l1', y :: l2' => b ← same x y; if (b : bool) then go l1' l2' else Some false
    end.

Section same.
Variable same_ad : adref -> adref -> option bool.

(** [SameAs]. Two nodes of the model are the same node when they are ClassAds of one
    address; the other classes' shortcut for one object compared to itself is left out. *)
Fixpoint same_tree (e1 e2 : ExprTree) : option bool :=
  let and_then (o : option bool) (k : option bool) : option bool :=
    b ← o; if (b : bool) then k else Some false in
  match e1, e2 with
  | AttributeReference _ x1 s1 abs1, AttributeReference _ x2 s2 abs2 =>
      if negb (Bool.eqb abs1 abs2) || negb (String.eqb s1 s2) then Some false
      else match x1, x2 with
      | None, None => Some true
      | Some x1, Some x2 => same_tree x1 x2
      | _, _ => Some false
      end
  | Operation1 _ op1 c1, Operation1 _ op2 c2 =>
      if bool_decide (op1 = op2) then same_tree c1 c2 else Some false
  | OperationParens _ c1, OperationParens _ c2 => same_tree c1 c2
  | Operation2 _ op1 a1 b1, Operation2 _ op2 a2 b2 =>
      if bool_decide (op1 = op2) then and_then (same_tree a1 a2) (same_tree b1 b2)
      else Some false
  | Operation3 _ a1 b1 c1, Operation3 _ a2 b2 c2 =>
      and_then (same_tree a1 a2)
        (and_then match b1, b2 with
                  | None, None => Some true
                  | Some b1, Some b2 => same_tree b1 b2
                  | _, _ => Some false
                  end
           (same_tree c1 c2))
  | FunctionCall _ f1 l1, FunctionCall _ f2 l2 =>
      if String.eqb f1 f2 && (length l1 =? length l2)%nat then forall2_same same_tree l1 l2 else Some false
  | ExprList _ l1, ExprList _ l2 =>
      if (length l1 =? length l2)%nat then forall2_same same_tree l1 l2 else Some false
  | ClassAdNode a1, ClassAdNode a2 => same_ad a1 a2
  | _, _ => Some (default false (literal_SameAs e1 e2))
  end.
End same.

(** [ClassAd::SameAs]: as many attributes, each found in the other ClassAd or in its
    chain with the same expression. The fuel bounds the nesting of ClassAds. *)
Fixpoint same_ad_n (n : nat) (h : heap) (a b : adref) : option bool :=
  match n with
  | O => None
  | S n' =>
      if bool_decide (a = b) then Some true
      else
        ad ← h !! a; other ← h !! b;
        if negb (length (attrList ad) =? length (attrList other))%nat then Some false
        else
          (fix loop (l : list (string * ExprTree)) : option bool :=
             match l with
             | [] => Some true
             | (name, this_tree) :: l' =>
                 found ← Lookup h b name;
                 match found with
                 | None => Some false
                 | Some other_tree =>
                     same ← same_tree (same_ad_n n' h) this_tree other_tree;
                     if (same : bool) then loop l' else Some false
                 end
             end) (attrList ad)
  end.
Definition SameAs_ad (h : heap) (a b : adref) : option bool := same_ad_n (S (size h)) h a b.
Definition SameAs (h : heap) (e1 e2 : ExprTree) : option bool :=
  same_tree (SameAs_ad h) e1 e2.

(** ** Pruning of what the chained parent repeats *)
Definition PruneChildAttr (h : heap) (a : adref) (attrName : string) (if_child_matches : bool)
  : option (heap * bool) :=
  ad ← h !! a;
  match chained_parent_ad ad with
  | None => Some (h, false)
  | Some p =>
      match fm_find (attrList ad) attrName ≫= fun i => attrList ad !! i with
      | None => Some (h, false)
      | Some (name, child_tree) =>
          prune_it ← if if_child_matches then
                       found ← Lookup h p name;
                       match found with
                       | Some tree => SameAs h tree child_tree
                       | None => Some false
                       end
                     else Some true;
          if (prune_it : bool) then Some (<[a := erase_attr attrName ad]> h, true)
          else Some (h, false)
      end
  end.

(** Does the chained parent [p] repeat the entry? *)
Definition repeats (h : heap) (p : adref) (kv : string * ExprTree) : option bool :=
  found ← Lookup h p kv.1;
  match found with
  | Some tree => SameAs h tree kv.2
  | None => Some false
  end.

Fixpoint victims (h : heap) (p : adref) (l : list (string * ExprTree)) : option (list string) :=
  match l with
  | [] => Some []
  | kv :: l' =>
      b ← repeats h p kv;
      vs ← victims h p l';
      Some (if (b : bool) then kv.1 :: vs else vs)
  end.

Definition PruneChildAd (h : heap) (a : adref) : option (heap * Z) :=
  ad ← h !! a;
  match chained_parent_ad ad with
  | None => Some (h, 0)
  | Some p =>
      vs ← victims h p (attrList ad);
      let ad1 := foldl (fun ad s => MarkAttributeClean s ad) ad vs in
      let ad2 := foldl (fun ad s => erase_attr s ad) ad1 vs in
      Some (<[a := ad2]> h, Z.of_nat (length vs))
  end.

(** ** The invariant of stored ClassAds

    The table is in order and every expression has the ClassAd as its scope. *)
Definition ad_ok (a : adref) (ad : ClassAd) : Prop :=
  fm_ok (attrList ad) /\
  Forall (fun kv => SetParentScope (Some a) kv.2 = kv.2) (attrList ad).
Definition heap_ok (h : heap) : Prop := map_Forall ad_ok h.
