(* ===== verification/Parser.v ===== *)
(** * The parser ([source.cpp])

    Recursive descent over a source of tokens, which is given by a type class: the lexer is
    one instance. The methods of [ClassAdParser] are programs over the store, which gets
    the ClassAds a text denotes, and the source. The code returns a flag and a tree
    pointer, and most callers look at the pointer only; the pointer is null exactly when
    the flag is false, so an [option] stands for both. *)
From Stdlib Require Import ZArith Lia Ascii String.
From stdpp Require Import base list gmap strings.
From S2P Require Import Prelude Double Numerals Tree Values Lexer FlatMap AdStore.

Open Scope res_scope.

(** ** Sources of tokens *)
Class TokenSource (L : Type) := {
  peek : L -> option (Token * L);
  consume : L -> option (Token * L)
}.

Section parser.
Context {L : Type} `{TokenSource L}.

(** [_useOldClassAdSemantics], and the literals [absTime] and [relTime] denote. *)
Variable oldSemantics : bool.
Variables MakeAbsTime MakeRelTime : string -> option ExprTree.

Abbreviation P A := (heap * L -> Res (heap * L) A).

Definition on_tokens (f : L -> option (Token * L)) : P Token := fun st =>
  match f st.2 with Some (t, l) => Ret t (st.1, l) | None => Except end.
Definition PeekTok : P Token := on_tokens peek.
Definition ConsumeTok : P Token := on_tokens consume.
Definition on_store {A} (f : heap -> option (heap * A)) : P A := fun st =>
  match f st.1 with Some (h, a) => Ret a (h, st.2) | None => NoFuel end.
Definition out_of_fuel {A} : P A := fun _ => NoFuel.

(** ** Binary operators, one table per level *)
Definition logical_or_op (t : Token) : option OpKind :=
  match t with LEX_LOGICAL_OR => Some LOGICAL_OR_OP | _ => None end.
Definition logical_and_op (t : Token) : option OpKind :=
  match t with LEX_LOGICAL_AND => Some LOGICAL_AND_OP | _ => None end.
Definition inclusive_or_op (t : Token) : option OpKind :=
  match t with LEX_BITWISE_OR => Some BITWISE_OR_OP | _ => None end.
Definition exclusive_or_op (t : Token) : option OpKind :=
  match t with LEX_BITWISE_XOR => Some BITWISE_XOR_OP | _ => None end.
Definition and_op (t : Token) : option OpKind :=
  match t with LEX_BITWISE_AND => Some BITWISE_AND_OP | _ => None end.
Definition equality_op (t : Token) : option OpKind :=
  match t with
  | LEX_EQUAL => Some EQUAL_OP
  | LEX_NOT_EQUAL => Some NOT_EQUAL_OP
  | LEX_META_EQUAL => Some META_EQUAL_OP
  | LEX_META_NOT_EQUAL => Some META_NOT_EQUAL_OP
  | _ => None
  end.
Definition relational_op (t : Token) : option OpKind :=
  match t with
  | LEX_LESS_THAN => Some LESS_THAN_OP
  | LEX_LESS_OR_EQUAL => Some LESS_OR_EQUAL_OP
  | LEX_GREATER_THAN => Some GREATER_THAN_OP
  | LEX_GREATER_OR_EQUAL => Some GREATER_OR_EQUAL_OP
  | _ => None
  end.
Definition shift_op (t : Token) : option OpKind :=
  match t with
  | LEX_LEFT_SHIFT => Some LEFT_SHIFT_OP
  | LEX_RIGHT_SHIFT => Some RIGHT_SHIFT_OP
  | LEX_URIGHT_SHIFT => Some URIGHT_SHIFT_OP
  | _ => None
  end.
Definition additive_op (t : Token) : option OpKind :=
  match t with LEX_PLUS => Some ADDITION_OP | LEX_MINUS => Some SUBTRACTION_OP | _ => None end.
Definition multiplicative_op (t : Token) : option OpKind :=
  match t with
  | LEX_MULTIPLY => Some MULTIPLICATION_OP
  | LEX_DIVIDE => Some DIVISION_OP
  | LEX_MODULUS => Some MODULUS_OP
  | _ => None
  end.
Definition unary_op (t : Token) : option OpKind :=
  match t with
  | LEX_MINUS => Some UNARY_MINUS_OP
  | LEX_PLUS => Some UNARY_PLUS_OP
  | LEX_BITWISE_NOT => Some BITWISE_NOT_OP
  | LEX_LOGICAL_NOT => Some LOGICAL_NOT_OP
  | _ => None
  end.

(** The loop every binary level has, and a level: [tree op tree op ...]. *)
Fixpoint binary_loop (n : nat) (op_of : Token -> option OpKind) (next : P (option ExprTree))
    (tree : ExprTree) : P (option ExprTree) :=
  match n with
  | O => out_of_fuel
  | S n' =>
      let! tk := PeekTok in
      match op_of tk with
      | None => rret (Some tree)
      | Some op =>
          let! _ := ConsumeTok in
          let! treeR := next in
          match MakeOperation op (Some tree) treeR None with
          | Some newTree => binary_loop n' op_of next newTree
          | None => rret None
          end
      end
  end.
Definition parse_level (n : nat) (op_of : Token -> option OpKind) (next : P (option ExprTree))
  : P (option ExprTree) :=
  let! tree := next in
  match tree with
  | Some tree => binary_loop n op_of next tree
  | None => rret None
  end.

Section with_parseExpression.
(** [n] is the fuel of the loops, [parse_expr] is [parseExpression] one level deeper. *)
Variable n : nat.
Variable parse_expr : P (option ExprTree).

(** ** Arguments, lists, ClassAds *)

(** The loop of [parseArgumentList]; [tk] is the next token, or the separator consumed. *)
Fixpoint arguments_loop (n : nat) (tk : Token) (argList : list ExprTree)
  : P (option (list ExprTree)) :=
  match n with
  | O => out_of_fuel
  | S n' =>
      match tk with
      | LEX_CLOSE_PAREN => let! _ := ConsumeTok in rret (Some argList)
      | _ =>
          let! tree := parse_expr in
          match tree with
          | None => rret None
          | Some tree =>
              let! tk := PeekTok in
              match tk with
              | LEX_COMMA => let! _ := ConsumeTok in arguments_loop n' tk (argList ++ [tree])
              | LEX_SEMICOLON =>
                  if oldSemantics then let! _ := ConsumeTok in arguments_loop n' tk (argList ++ [tree])
                  else rret None
              | LEX_CLOSE_PAREN => arguments_loop n' tk (argList ++ [tree])
              | _ => rret None
              end
          end
      end
  end.
Definition parseArgumentList : P (option (list ExprTree)) :=
  let! tk := ConsumeTok in
  match tk with
  | LEX_OPEN_PAREN => let! tk := PeekTok in arguments_loop n tk []
  | _ => rret None
  end.

Fixpoint list_loop (n : nat) (tk : Token) (loe : list ExprTree) : P (option ExprTree) :=
  match n with
  | O => out_of_fuel
  | S n' =>
      match tk with
      | LEX_CLOSE_BRACE => let! _ := ConsumeTok in rret (Some (ExprList None loe))
      | _ =>
          let! tree := parse_expr in
          match tree with
          | None => rret None
          | Some tree =>
              let! tk := PeekTok in
              match tk with
              | LEX_COMMA => let! _ := ConsumeTok in list_loop n' tk (loe ++ [tree])
              | LEX_CLOSE_BRACE => list_loop n' tk (loe ++ [tree])
              | _ => rret None
              end
          end
      end
  end.
Definition parseExprList : P (option ExprTree) :=
  let! tk := ConsumeTok in
  match tk with
  | LEX_OPEN_BRACE => let! tk := PeekTok in list_loop n tk []
  | _ => rret None
  end.

(** Extra semicolons; the token after them. *)
Fixpoint skip_semicolons (n : nat) (tk : Token) : P Token :=
  match tk with
  | LEX_SEMICOLON =>
      match n with
      | O => out_of_fuel
      | S n' => let! _ := ConsumeTok in let! tk := PeekTok in skip_semicolons n' tk
      end
  | _ => rret tk
  end.

Fixpoint attributes_loop (n : nat) (ad : adref) (tk : Token) : P bool :=
  match n with
  | O => out_of_fuel
  | S n' =>
      match tk with
      | LEX_CLOSE_BOX => let! _ := ConsumeTok in rret true
      | _ =>
          let! tk := ConsumeTok in
          match tk with
          | LEX_SEMICOLON => attributes_loop n' ad tk
          | LEX_IDENTIFIER s =>
              let! tk := ConsumeTok in
              match tk with
              | LEX_BOUND_TO =>
                  let! tree := parse_expr in
                  match tree with
                  | None => rret false
                  | Some tree =>
                      let! ok := on_store (fun h => Insert h ad s (Some tree)) in
                      if negb ok then rret false
                      else
                        let! tk := PeekTok in
                        match tk with
                        | LEX_SEMICOLON | LEX_CLOSE_BOX =>
                            let! tk := skip_semicolons n' tk in attributes_loop n' ad tk
                        | _ => rret false
                        end
                  end
              | _ => rret false
              end
          | _ => rret false
          end
      end
  end.
Definition parseClassAd (ad : adref) : P bool :=
  let! _ := on_store (fun h => h' ← Clear h ad; Some (h', tt)) in
  let! tk := ConsumeTok in
  match tk with
  | LEX_OPEN_BOX => let! tk := PeekTok in attributes_loop n ad tk
  | _ => rret false
  end.

(** ** Primary expressions *)
Definition shouldEvaluateAtParseTime (functionName : string) (argList : list ExprTree) : bool :=
  (bool_decide (attr_key functionName = "abstime") || bool_decide (attr_key functionName = "reltime"))
  && match argList with [StringLiteral _] => true | _ => false end.
Definition evaluateFunction (functionName : string) (argList : list ExprTree) : option ExprTree :=
  match argList with
  | StringLiteral s :: _ =>
      if bool_decide (attr_key functionName = "abstime") then MakeAbsTime s
      else if bool_decide (attr_key functionName = "reltime") then MakeRelTime s
      else Some (FunctionCall None functionName argList)
  | _ => Some (FunctionCall None functionName argList)
  end.

Definition parsePrimaryExpression : P (option ExprTree) :=
  let! tv := PeekTok in
  match tv with
  | LEX_IDENTIFIER s =>
      let! _ := ConsumeTok in
      let! tk := PeekTok in
      match tk with
      | LEX_OPEN_PAREN =>
          let! argList := parseArgumentList in
          rret match argList with
               | None => None
               | Some argList =>
                   if shouldEvaluateAtParseTime s argList then evaluateFunction s argList
                   else Some (FunctionCall None s argList)
               end
      | _ => rret (Some (AttributeReference None None s false))
      end
  | LEX_SELECTION =>
      let! _ := ConsumeTok in
      let! tk := ConsumeTok in
      rret match tk with
           | LEX_IDENTIFIER s => Some (AttributeReference None None s true)
           | _ => None
           end
  | LEX_OPEN_PAREN =>
      let! _ := ConsumeTok in
      let! treeL := parse_expr in
      match treeL with
      | None => rret None
      | Some _ =>
          let! tk := ConsumeTok in
          rret match tk with
               | LEX_CLOSE_PAREN => MakeOperation PARENTHESES_OP treeL None None
               | _ => None
               end
      end
  | LEX_OPEN_BOX =>
      let! newAd := on_store (fun h => Some (alloc_ad h)) in
      let! ok := parseClassAd newAd in
      rret (if (ok : bool) then Some (ClassAdNode newAd) else None)
  | LEX_OPEN_BRACE => parseExprList
  | LEX_UNDEFINED_VALUE => let! _ := ConsumeTok in rret (Some UndefinedLiteral)
  | LEX_ERROR_VALUE => let! _ := ConsumeTok in rret (Some ErrorLiteral)
  | LEX_BOOLEAN_VALUE b => let! _ := ConsumeTok in rret (Some (BooleanLiteral b))
  | LEX_INTEGER_VALUE i _ => let! _ := ConsumeTok in rret (Some (IntegerLiteral i))
  | LEX_REAL_VALUE r _ => let! _ := ConsumeTok in rret (Some (RealLiteral r))
  | LEX_STRING_VALUE s => let! _ := ConsumeTok in rret (Some (StringLiteral s))
  | _ => rret None
  end.

(** ** Postfix and unary expressions *)
Fixpoint postfix_loop (n : nat) (tree : ExprTree) : P (option ExprTree) :=
  match n with
  | O => out_of_fuel
  | S n' =>
      let! tk := PeekTok in
      match tk with
      | LEX_OPEN_BOX =>
          let! _ := ConsumeTok in
          let! treeR := parse_expr in
          match MakeOperation SUBSCRIPT_OP (Some tree) treeR None with
          | Some newTree =>
              let! tk := ConsumeTok in
              match tk with
              | LEX_CLOSE_BOX => postfix_loop n' newTree
              | _ => rret None
              end
          | None => rret None
          end
      | LEX_SELECTION =>
          let! _ := ConsumeTok in
          let! tk := ConsumeTok in
          match tk with
          | LEX_IDENTIFIER s => postfix_loop n' (AttributeReference None (Some tree) s false)
          | _ => rret None
          end
      | _ => rret (Some tree)
      end
  end.
Definition parsePostfixExpression : P (option ExprTree) :=
  let! tree := parsePrimaryExpression in
  match tree with
  | Some tree => postfix_loop n tree
  | None => rret None
  end.

Fixpoint parseUnaryExpression (n : nat) : P (option ExprTree) :=
  match n with
  | O => out_of_fuel
  | S n' =>
      let! tk := PeekTok in
      match unary_op tk with
      | Some op =>
          let! _ := ConsumeTok in
          let! treeM := parseUnaryExpression n' in
          rret (MakeOperation op treeM None None)
      | None => parsePostfixExpression
      end
  end.

(** ** The levels *)
Definition parseMultiplicativeExpression := parse_level n multiplicative_op (parseUnaryExpression n).
Definition parseAdditiveExpression := parse_level n additive_op parseMultiplicativeExpression.
Definition parseShiftExpression := parse_level n shift_op parseAdditiveExpression.
Definition parseRelationalExpression := parse_level n relational_op parseShiftExpression.
Definition parseEqualityExpression := parse_level n equality_op parseRelationalExpression.
Definition parseANDExpression := parse_level n and_op parseEqualityExpression.
Definition parseExclusiveORExpression := parse_level n exclusive_or_op parseANDExpression.
Definition parseInclusiveORExpression := parse_level n inclusive_or_op parseExclusiveORExpression.
Definition parseLogicalANDExpression := parse_level n logical_and_op parseInclusiveORExpression.
Definition parseLogicalORExpression := parse_level n logical_or_op parseLogicalANDExpression.

(** The conditional operator; the outcome of its middle expression is not looked at. *)
Definition parse_conditional (full : bool) : P (option ExprTree) :=
  let! tree := parseLogicalORExpression in
  match tree with
  | None => rret None
  | Some treeL =>
      let! tk := PeekTok in
      match tk with
      | LEX_QMARK =>
          let! _ := ConsumeTok in
          let! tk := PeekTok in
          let! middle :=
            match tk with
            | LEX_COLON => let! _ := ConsumeTok in rret (Some None)
            | _ =>
                let! treeM := parse_expr in
                let! tk := ConsumeTok in
                rret match tk with LEX_COLON => Some treeM | _ => None end
            end in
          match middle with
          | None => rret None
          | Some treeM =>
              let! treeR := parse_expr in
              rret (MakeOperation TERNARY_OP (Some treeL) treeM treeR)
          end
      | _ =>
          if (full : bool) then
            let! tk := ConsumeTok in
            rret match tk with LEX_END_OF_INPUT => Some treeL | _ => None end
          else rret (Some treeL)
      end
  end.
End with_parseExpression.

Definition MAX_PARSE_DEPTH : Z := 1000.

(** [parseExpression]; [depth] is the member that counts the calls in progress. *)
Fixpoint parseExpression (n : nat) (depth : Z) (full : bool) : P (option ExprTree) :=
  match n with
  | O => out_of_fuel
  | S n' =>
      if (MAX_PARSE_DEPTH <? depth + 1)%Z then rret None
      else parse_conditional n' (parseExpression n' (depth + 1)%Z false) full
  end.
End parser.

(** ** Entry points *)
Section text.
Variables oldSemantics oldClassAdLex : bool.
Variables MakeAbsTime MakeRelTime : string -> option ExprTree.

#[export] Instance Lexer_tokens : TokenSource Lexer := {|
  peek := PeekToken oldSemantics oldClassAdLex;
  consume := ConsumeToken oldSemantics oldClassAdLex
|}.

(** [ParseExpression] of a string. *)
Definition ParseExpression (n : nat) (h : heap) (lx : Lexer) (source : string) (full : bool)
  : Res (heap * Lexer) (option ExprTree) :=
  parseExpression oldSemantics MakeAbsTime MakeRelTime n 0 full
    (h, Initialize (list_ascii_of_string source) lx).

(** [ParseClassAd] of a string, into a new ClassAd. *)
Definition ParseClassAd (n : nat) (h : heap) (lx : Lexer) (source : string) (full : bool)
  : Res (heap * Lexer) (option adref) :=
  let '(h1, ad) := alloc_ad h in
  (let! ok := parseClassAd n (parseExpression oldSemantics MakeAbsTime MakeRelTime n 0 false) ad in
   if negb ok then rret None
   else if full then
     let! tk := ConsumeTok in
     rret match tk with LEX_END_OF_INPUT => Some ad | _ => None end
   else rret (Some ad))
  (h1, Initialize (list_ascii_of_string source) lx).
End text.
