(* ===== verification/Unparser.v ===== *)
(** * The unparser ([sink.cpp])

    [ClassAdUnParser] in the new syntax and in the old one (as [ExprTreeToString] sets it, in
    which the daemons keep and send expressions), without the XML flag: the text of a tree.
    Nested ClassAds are read from the store, with fuel for the nesting. *)
From Stdlib Require Import ZArith Lia Ascii String SpecFloat.
From stdpp Require Import base list gmap strings.
From S2P Require Import Prelude Double Numerals Tree Values Lexer FlatMap AdStore.

Definition txt : string -> text := list_ascii_of_string.
Definition of_text : text -> string := string_of_list_ascii.

(** [opString], in the order of the enumeration. *)
Definition opString (op : OpKind) : text :=
  txt match op with
  | __NO_OP__ => ""
  | LESS_THAN_OP => " < " | LESS_OR_EQUAL_OP => " <= " | NOT_EQUAL_OP => " != "
  | EQUAL_OP => " == " | GREATER_OR_EQUAL_OP => " >= " | GREATER_THAN_OP => " > "
  | META_EQUAL_OP => " is " | META_NOT_EQUAL_OP => " isnt "
  | UNARY_PLUS_OP => " +" | UNARY_MINUS_OP => " -"
  | ADDITION_OP => " + " | SUBTRACTION_OP => " - " | MULTIPLICATION_OP => " * "
  | DIVISION_OP => " / " | MODULUS_OP => " % "
  | LOGICAL_NOT_OP => " !" | LOGICAL_OR_OP => " || " | LOGICAL_AND_OP => " && "
  | BITWISE_NOT_OP => " ~" | BITWISE_OR_OP => " | " | BITWISE_XOR_OP => " ^ "
  | BITWISE_AND_OP => " & " | LEFT_SHIFT_OP => " << " | RIGHT_SHIFT_OP => " >> "
  | URIGHT_SHIFT_OP => " >>> "
  | PARENTHESES_OP => " () " | SUBSCRIPT_OP => " [] " | TERNARY_OP => " ?: "
  end.

(** ** Strings and names *)

(** Three octal digits. *)
Definition octal3 (c : ascii) : text :=
  let n := code c in [digit (n / 64); digit (n / 8 mod 8); digit (n mod 8)].

Definition escape_char (delimiter c : ascii) : text :=
  if Ascii.eqb c delimiter then
    (if Ascii.eqb delimiter dquote then ["\"%char; dquote] else ["\"%char; squote])
  else if Ascii.eqb c "007" then txt "\a"
  else if Ascii.eqb c "008" then txt "\b"
  else if Ascii.eqb c "012" then txt "\f"
  else if Ascii.eqb c "010" then txt "\n"
  else if Ascii.eqb c "013" then txt "\r"
  else if Ascii.eqb c "009" then txt "\t"
  else if Ascii.eqb c "011" then txt "\v"
  else if Ascii.eqb c "\" then txt "\\"
  else if Ascii.eqb c squote || Ascii.eqb c dquote then [c]
  else if negb (isprint c) then "\"%char :: octal3 c
  else [c].
Definition escape (delimiter : ascii) (s : text) : text := s ≫= escape_char delimiter.

(** In the old syntax only the delimiter is escaped. *)
Definition escape_old (delimiter : ascii) (s : text) : text :=
  s ≫= fun c => if Ascii.eqb c delimiter then ["\"%char; c] else [c].

(** ** The syntax: new, or old ([oldClassAd]) as [ExprTreeToString] asks for *)
Section syntax.
Variable oldClassAd : bool.
Definition escape_in (delimiter : ascii) (s : text) : text :=
  if oldClassAd then escape_old delimiter s else escape delimiter s.
Definition UnparseString (delimiter : ascii) (source : string) : text :=
  dquote :: escape_in delimiter (txt source) ++ [dquote].

Definition reserved_words : list string :=
  ["error"; "false"; "is"; "isnt"; "parent"; "true"; "undefined"].
Definition identifierNeedsQuoting (str : text) : bool :=
  match str with
  | c :: s => negb (isalpha c || Ascii.eqb c "_") || negb (forallb isword s)
  | [] => true
  end || bool_decide (attr_key (string_of_list_ascii str) ∈ reserved_words).

(** [UnparseAux] of a name: the escaped name, quoted if it must be. *)
Definition unparse_name (identifier : string) : text :=
  let idstr := escape_in squote (txt identifier) in
  if identifierNeedsQuoting idstr then squote :: idstr ++ [squote] else idstr.

(** ** Numbers *)
Definition UnparseReal (real : double) : text :=
  match real with
  | S754_zero s => txt (if s then "-0.0" else "0.0")
  | S754_nan => txt "real(" ++ dquote :: txt "NaN" ++ [dquote] ++ txt ")"
  | S754_infinity s => txt "real(" ++ dquote :: txt (if s then "-INF" else "INF") ++ [dquote] ++ txt ")"
  | S754_finite s m e =>
      if oldClassAd then
        let t := format_G16 s m e in
        if existsb (fun c => Ascii.eqb c "." || Ascii.eqb c "E" || Ascii.eqb c "e") t then t else t ++ txt ".0"
      else format_E15 s m e
  end.

(** The sign of a binary operator. *)
Definition binary_string (op : OpKind) : text :=
  match op with
  | META_EQUAL_OP => if oldClassAd then txt " =?= " else opString op
  | META_NOT_EQUAL_OP => if oldClassAd then txt " =!= " else opString op
  | _ => opString op
  end.
End syntax.

Section unparse.
Variable oldClassAd : bool.
Abbreviation UnparseString := (UnparseString oldClassAd).
Abbreviation unparse_name := (unparse_name oldClassAd).
(** The texts of times ([absTimeToString], [relTimeToString]) and of a nested ClassAd. *)
Variable absTimeToString : abstime_t -> text.
Variable relTimeToString : double -> text.

(** Texts separated by [sep]. *)
Fixpoint join (sep : text) (l : list text) : text :=
  match l with
  | [] => []
  | [x] => x
  | x :: l' => x ++ sep ++ join sep l'
  end.

Definition quoted_call (name : string) (arg : text) : text :=
  txt name ++ "("%char :: dquote :: arg ++ [dquote; ")"%char].

Section with_ads.
Variable unparse_ad : adref -> text.

Definition is_unary (op : OpKind) : bool :=
  match op with
  | UNARY_PLUS_OP | UNARY_MINUS_OP | LOGICAL_NOT_OP | BITWISE_NOT_OP => true
  | _ => false
  end.

(** [Unparse] of a tree. An operation with a null operand prints it as an error text. *)
Fixpoint Unparse (tree : ExprTree) : text :=
  match tree with
  | ErrorLiteral => txt "error"
  | UndefinedLiteral => txt "undefined"
  | BooleanLiteral b => txt (if b then "true" else "false")
  | IntegerLiteral i => append_long [] i
  | RealLiteral r => UnparseReal oldClassAd r
  | ReltimeLiteral r => quoted_call "relTime" (relTimeToString r)
  | AbstimeLiteral t => quoted_call "absTime" (absTimeToString t)
  | StringLiteral s => UnparseString dquote s
  | AttributeReference _ expr ref absolute =>
      match expr with
      | Some e => Unparse e ++ "."%char :: txt ref
      | None => (if absolute then ["."%char] else []) ++ unparse_name ref
      end
  | Operation1 _ op t1 => opString op ++ Unparse t1
  | OperationParens _ t1 => "("%char :: Unparse t1 ++ [")"%char]
  | Operation2 _ op t1 t2 =>
      match op with
      | SUBSCRIPT_OP => Unparse t1 ++ "["%char :: Unparse t2 ++ ["]"%char]
      | _ => Unparse t1 ++ binary_string oldClassAd op ++ Unparse t2
      end
  | Operation3 _ t1 t2 t3 =>
      Unparse t1 ++
      match t2 with
      | Some t2 => txt " ? " ++ Unparse t2 ++ txt " : "
      | None => txt " ?: "
      end ++ Unparse t3
  | FunctionCall _ fnName args => txt fnName ++ "("%char :: join (txt ",") (Unparse <$> args) ++ [")"%char]
  | ExprList _ exprs => txt "{ " ++ join (txt ",") (Unparse <$> exprs) ++ txt " }"
  | ClassAdNode a => unparse_ad a
  end.

(** [UnparseAux] of the attributes of a ClassAd. *)
Definition unparse_attrs (attrs : list (string * ExprTree)) : text :=
  txt "[ " ++ join (txt "; ") ((fun kv => unparse_name kv.1 ++ txt " = " ++ Unparse kv.2) <$> attrs)
    ++ txt " ]".
End with_ads.

(** The fuel bounds the nesting of ClassAds; a missing ClassAd has no text. *)
Fixpoint unparse_ad (n : nat) (h : heap) (a : adref) : text :=
  match n with
  | O => []
  | S n' => match h !! a with
            | Some ad => unparse_attrs (unparse_ad n' h) (attrList ad)
            | None => []
            end
  end.
Definition UnparseTree (h : heap) (tree : ExprTree) : string :=
  string_of_list_ascii (Unparse (unparse_ad (size h) h) tree).
Definition UnparseAd (h : heap) (a : adref) : string :=
  string_of_list_ascii (unparse_ad (S (size h)) h a).
End unparse.

(** [ExprTreeToString]: a tree in the old syntax. *)
Definition ExprTreeToString (absTimeToString : abstime_t -> text) (relTimeToString : double -> text)
    (h : heap) (expr : ExprTree) : string :=
  c_str (UnparseTree true absTimeToString relTimeToString h expr).

Lemma of_text_txt s : of_text (txt s) = s.
Proof. apply string_of_list_ascii_of_string. Qed.
Lemma txt_of_text t : txt (of_text t) = t.
Proof. apply list_ascii_of_string_of_list_ascii. Qed.
