(* ===== verification/LexerFacts.v ===== *)
(** * The lexer: what it reads from a text *)
From Stdlib Require Import ZArith Lia Ascii String.
From stdpp Require Import base list gmap strings.
From S2P Require Import Prelude Double Numerals Tree Values Lexer FlatMap AdStore Unparser.

(** ** Characters *)
Lemma eqb_eq c d : Ascii.eqb c d = true <-> c = d.
Proof. destruct (Ascii.eqb_spec c d); split; congruence. Qed.
Lemma eqb_refl c : Ascii.eqb c c = true.
Proof. by apply eqb_eq. Qed.
Lemma eqb_ne c d : c <> d -> Ascii.eqb c d = false.
Proof. by destruct (Ascii.eqb_spec c d). Qed.

(** A property of characters, checked on all 256. *)
Definition all_chars : list ascii := ascii_of_nat <$> seq 0 256.
Lemma all_chars_spec c : c ∈ all_chars.
Proof.
  apply list_elem_of_fmap. exists (nat_of_ascii c). split; [by rewrite ascii_nat_embedding|].
  apply elem_of_seq. pose proof (nat_ascii_bounded c). lia.
Qed.
Lemma by_chars (p : ascii -> bool) : forallb p all_chars = true -> forall c, p c = true.
Proof. intros H c. rewrite forallb_forall in H. apply H, list_elem_of_In, all_chars_spec. Qed.
Ltac by_chars P := generalize (by_chars P eq_refl).

#[export] Instance Ch_eq_dec : EqDecision Ch.
Proof. solve_decision. Defined.

(** ** Digits *)
Lemma digit_cases z : 0 <= z < 10 ->
  isdigit (digit z) = true /\ digit_value (digit z) = z /\ (digit z = "0"%char <-> z = 0).
Proof.
  intros H. assert (z = 0 \/ z = 1 \/ z = 2 \/ z = 3 \/ z = 4 \/ z = 5 \/ z = 6 \/ z = 7 \/ z = 8 \/ z = 9) by lia.
  repeat match goal with H : _ \/ _ |- _ => destruct H as [->|H] | H : z = 9 |- _ => rewrite H end;
    (split; [done|split; [done|split; done]]).
Qed.

(** What [append_long] writes for a number that is not negative. *)
Record decimal_digits (l : Z) (d : text) : Prop := mk_decimal {
  dec_digits : forallb isdigit d = true;
  dec_nonempty : d <> [];
  dec_value : forall v s, digits_value v (d ++ s) = digits_value (v * 10 ^ Z.of_nat (length d) + l) s;
  dec_head : head d = Some "0"%char -> d = ["0"%char]
}.

Lemma digits_loop_spec n : forall l acc, 0 <= l < 10 ^ Z.of_nat n -> (0 < n)%nat ->
  exists d, digits_loop n l acc = d ++ acc /\ decimal_digits l d.
Proof.
  induction n as [|n IH]; intros l acc Hl Hn; [lia|]. cbn [digits_loop].
  pose proof (Z.mod_pos_bound l 10 ltac:(lia)) as Hm. destruct (digit_cases _ Hm) as (D1&D2&D3).
  assert (Hone : forall q, l = 10 * q + l mod 10 -> q = 0 -> decimal_digits l [digit (l mod 10)]).
  { intros q Hq ->. split; simpl; [by rewrite D1|done| |by intros [= ->]].
    intros v s. rewrite D1, D2. f_equal. lia. }
  pose proof (Z.div_mod l 10 ltac:(lia)) as Hdm. destruct (Z.eqb_spec (l / 10) 0) as [E|E].
  - exists [digit (l mod 10)]. split; [done|]. apply (Hone (l / 10)); lia.
  - assert (Hq : 0 < l / 10) by (pose proof (Z.div_pos l 10); lia).
    destruct n as [|n].
    { change (10 ^ Z.of_nat 1) with 10 in Hl. rewrite Z.div_small in E by lia. done. }
    destruct (IH (l / 10) (digit (l mod 10) :: acc)) as (d&->&[Dd Dn Dv Dh]); [|lia|].
    { split; [lia|]. apply Z.div_lt_upper_bound; [lia|].
      replace (10 * 10 ^ Z.of_nat (S n)) with (10 ^ Z.of_nat (S (S n))); [lia|].
      rewrite (Nat2Z.inj_succ (S n)), Z.pow_succ_r by lia. lia. }
    exists (d ++ [digit (l mod 10)]). split; [by rewrite <- app_assoc|]. split.
    + rewrite forallb_app, Dd. simpl. by rewrite D1.
    + by destruct d.
    + intros v s. rewrite <- app_assoc, Dv. simpl. rewrite D1, D2. f_equal.
      rewrite length_app, Nat2Z.inj_add, Z.pow_add_r by lia. simpl length. change (10 ^ Z.of_nat 1) with 10. lia.
    + intros Hh. destruct d as [|c d]; [done|]. simpl in Hh. simplify_eq.
      rewrite Dh in Dv by done. specialize (Dv 0 []). cbn [digits_value app] in Dv.
      change (isdigit "0") with true in Dv. change (digit_value "0") with 0 in Dv. lia.
Qed.
Lemma digits_spec l : 0 <= l <= two63 -> decimal_digits l (digits l).
Proof.
  intros Hl. unfold two63 in Hl. destruct (digits_loop_spec 20 l []) as (d&E&Hd); [|lia|].
  - change (10 ^ Z.of_nat 20) with 100000000000000000000. lia.
  - unfold digits. by rewrite E, app_nil_r.
Qed.

(** Reading back what [append_long] writes. *)
Lemma from_chars_append_long i : in_int64 i -> from_chars (append_long [] i) = i.
Proof.
  unfold in_int64, INT64_MIN, INT64_MAX. intros Hi. unfold append_long. destruct (Z.leb_spec 0 i) as [Hp|Hp].
  - destruct (digits_spec i) as [Dd Dn Dv _]; [unfold two63; lia|]. simpl.
    specialize (Dv 0 []). rewrite app_nil_r in Dv. simpl in Dv. unfold from_chars.
    destruct (digits i) as [|c d] eqn:E; [done|]. destruct (Ascii.eqb_spec c "-") as [->|]; [done|].
    rewrite Dv. unfold INT64_MIN, INT64_MAX.
    destruct (_ && _) eqn:E2; [done|]. apply andb_false_iff in E2. lia.
  - destruct (digits_spec (- i)) as [Dd Dn Dv _]; [unfold two63; lia|]. simpl.
    specialize (Dv 0 []). rewrite app_nil_r in Dv. simpl in Dv. unfold from_chars. simpl.
    rewrite Dv. unfold INT64_MIN, INT64_MAX.
    destruct (_ && _) eqn:E2; [lia|]. apply andb_false_iff in E2. lia.
Qed.

(** ** Positions

    [upcoming]: the characters the lexer has not used yet. White space before a token
    does not matter, so positions are compared without it. *)
Definition upcoming (lx : Lexer) : text :=
  match ch lx with Chr c => c :: rest lx | EMPTY => rest lx | EOF => [] end.

Fixpoint drop_ws (s : text) : text :=
  match s with
  | c :: s' => if isspace c then drop_ws s' else s
  | [] => []
  end.

Lemma split_at_absent c s : c ∉ s -> split_at c s = (s, None).
Proof.
  induction s as [|d s IH]; [done|]. intros [Hd Hs]%not_elem_of_cons. simpl.
  rewrite (proj2 (Ascii.eqb_neq d c)) by done. by rewrite IH.
Qed.
Lemma split_at_present c s t : c ∉ s -> split_at c (s ++ c :: t) = (s, Some t).
Proof.
  induction s as [|d s IH]; simpl; [by rewrite Ascii.eqb_refl|]. intros [Hd Hs]%not_elem_of_cons.
  rewrite (proj2 (Ascii.eqb_neq d c)) by done. by rewrite IH.
Qed.
Definition no_nul (s : text) : Prop := Forall (fun c => c <> "000"%char) s.

Lemma no_nul_cons c s : no_nul (c :: s) <-> c <> "000"%char /\ no_nul s.
Proof. unfold no_nul. by rewrite Forall_cons. Qed.
Lemma no_nul_app s t : no_nul (s ++ t) <-> no_nul s /\ no_nul t.
Proof. unfold no_nul. by rewrite Forall_app. Qed.

(** [lx] is about to read [s]. *)
Record reads (lx : Lexer) (s : text) : Prop := mk_reads {
  reads_upcoming : drop_ws (upcoming lx) = drop_ws s;
  reads_no_nul : no_nul (upcoming lx)
}.

(** The lexer holds the character [c], and [r] follows. *)
Record holds (lx : Lexer) (c : ascii) (r : text) : Prop := mk_holds {
  holds_ch : ch lx = Chr c;
  holds_rest : rest lx = r;
  holds_nul : no_nul (c :: r)
}.

Lemma drop_ws_no_nul s : no_nul s -> no_nul (drop_ws s).
Proof. induction 1 as [|c s Hc Hs IH]; simpl; [constructor|]. by case_match; [|constructor]. Qed.

Lemma drop_ws_idem s : drop_ws (drop_ws s) = drop_ws s.
Proof. induction s as [|c s IH]; simpl; [done|]. case_match eqn:E; [done|]. simpl. by rewrite E. Qed.
Lemma drop_ws_space s : drop_ws (" "%char :: s) = drop_ws s.
Proof. done. Qed.
Lemma reads_ws lx s s' : drop_ws s = drop_ws s' -> reads lx s -> reads lx s'.
Proof. intros E [H1 H2]. split; [congruence|done]. Qed.

(** ** Moving forward *)
Lemma ReadCharacter_cons lx c r :
  rest lx = c :: r -> c <> "000"%char ->
  ReadCharacter lx = (Chr c, set_source (c :: before lx) r lx).
Proof. intros H Hc. unfold ReadCharacter. rewrite H. by rewrite eqb_ne. Qed.
Lemma ReadCharacter_nil lx : rest lx = [] -> ReadCharacter lx = (EOF, lx).
Proof. intros H. unfold ReadCharacter. by rewrite H. Qed.

(** The state after [wind] when [c] is held and [r] follows. *)
Definition wound (lx : Lexer) (c : ascii) (r : text) : Lexer :=
  let buf := if accumulating lx then c :: lexBuffer lx else lexBuffer lx in
  match r with
  | [] => mk_Lexer (before lx) [] EOF buf (accumulating lx) (tokenType lx) (tokenConsumed lx)
  | d :: r' => mk_Lexer (d :: before lx) r' (Chr d) buf (accumulating lx) (tokenType lx) (tokenConsumed lx)
  end.
Lemma wind_holds lx c r : holds lx c r -> wind lx = wound lx c r.
Proof.
  intros [Hc Hr Hn]. unfold wind, wound, accumulate. rewrite Hc. inversion Hn as [|? ? _ Hn']; subst.
  destruct (accumulating lx) eqn:Ha, (rest lx) as [|d r'] eqn:Er; simpl.
  - rewrite ReadCharacter_nil by done. by destruct lx; simpl in *; subst.
  - inversion Hn'; subst. rewrite (ReadCharacter_cons _ d r') by done. by destruct lx; simpl in *; subst.
  - rewrite ReadCharacter_nil by done. by destruct lx; simpl in *; subst.
  - inversion Hn'; subst. rewrite (ReadCharacter_cons _ d r') by done. by destruct lx; simpl in *; subst.
Qed.

(** The text that follows is what the new state is about to read. *)
Lemma wound_upcoming lx c r : upcoming (wound lx c r) = r.
Proof. by destruct r. Qed.
Lemma wound_holds lx c d r : no_nul (d :: r) -> holds (wound lx c (d :: r)) d r.
Proof. done. Qed.

Lemma fetch_empty lx s :
  ch lx = EMPTY -> rest lx = s -> no_nul s ->
  fetch lx = match s with
             | [] => set_ch EOF lx
             | c :: r => set_ch (Chr c) (set_source (c :: before lx) r lx)
             end.
Proof.
  intros H1 H2 Hn. unfold fetch. rewrite H1. destruct s as [|c r].
  - by rewrite ReadCharacter_nil.
  - inversion Hn; subst. by rewrite (ReadCharacter_cons _ c r).
Qed.

(** ** Loops over characters *)

(** The longest prefix of characters with [p], and the rest. *)
Fixpoint span (p : ascii -> bool) (s : text) : text * text :=
  match s with
  | c :: s' => if p c then let '(a, b) := span p s' in (c :: a, b) else ([], s)
  | [] => ([], [])
  end.
Lemma span_app p s : (span p s).1 ++ (span p s).2 = s.
Proof. induction s as [|c s IH]; simpl; [done|]. case_match; [|done]. destruct (span p s). simpl in *. congruence. Qed.

Definition stops_at (p : ascii -> bool) (k : text) : Prop :=
  match k with c :: _ => p c = false | [] => True end.
Lemma span_prefix p w k : forallb p w = true -> stops_at p k -> span p (w ++ k) = (w, k).
Proof.
  induction w as [|c w IH]; simpl; intros Hw Hk.
  - destruct k as [|c k]; simpl in *; [done|]. by rewrite Hk.
  - apply andb_prop in Hw as [-> Hw]. by rewrite IH.
Qed.

(** Inside a token: [lx'] has read [w] more than [lx], and [k] is to come. *)
Record moved (lx : Lexer) (w : text) (lx' : Lexer) (k : text) : Prop := mk_moved {
  moved_upcoming : upcoming lx' = k;
  moved_ch : ch lx' <> EMPTY;
  moved_buffer : lexBuffer lx' = rev w ++ lexBuffer lx;
  moved_accumulating : accumulating lx' = true
}.
(** Inside a token, with [s] to come. *)
Definition inside (lx : Lexer) (s : text) : Prop :=
  upcoming lx = s /\ ch lx <> EMPTY /\ accumulating lx = true /\ no_nul s.

Lemma inside_cons lx c r : inside lx (c :: r) -> holds lx c r.
Proof.
  intros (Hu&He&_&Hn). unfold upcoming in Hu. destruct (ch lx) eqn:E; simplify_eq. by split.
Qed.
Lemma inside_stops p lx k : inside lx k -> stops_at p k -> ch_is p lx = false.
Proof.
  intros (Hu&He&_&_) Hk. unfold ch_is. unfold upcoming in Hu. destruct (ch lx); simplify_eq/=; done.
Qed.
Lemma moved_refl lx k : inside lx k -> moved lx [] lx k.
Proof. intros (?&?&?&?). by split. Qed.
Lemma moved_inside lx w lx' k : moved lx w lx' k -> no_nul k -> inside lx' k.
Proof. intros [? ? ? ?] ?. by split_and!. Qed.
Lemma moved_trans lx w lx1 k1 w' lx2 k2 :
  moved lx w lx1 k1 -> moved lx1 w' lx2 k2 -> moved lx (w ++ w') lx2 k2.
Proof. intros [? ? B1 ?] [? ? B2 ?]. split; try done. by rewrite B2, B1, rev_app_distr, app_assoc. Qed.
Lemma wind_moved lx c r : inside lx (c :: r) -> moved lx [c] (wind lx) r.
Proof.
  intros Hi. rewrite (wind_holds _ c r (inside_cons _ _ _ Hi)). destruct Hi as (_&_&Ha&_).
  split; [apply wound_upcoming|by destruct r|unfold wound; rewrite Ha; by destruct r|by destruct r].
Qed.

Lemma wind_while_n_moved p w k : stops_at p k -> forall n lx,
  inside lx (w ++ k) -> forallb p w = true -> (length w <= n)%nat ->
  moved lx w (wind_while_n n p lx) k.
Proof.
  intros Hk. induction w as [|c w IH]; intros n lx Hi Hp Hn; simpl in *.
  - destruct n as [|n]; simpl; [by apply moved_refl|].
    rewrite (inside_stops _ _ _ Hi Hk). by apply moved_refl.
  - apply andb_prop in Hp as [Hc Hw]. destruct n as [|n]; [lia|]. cbn [wind_while_n].
    unfold ch_is at 1. rewrite (holds_ch _ _ _ (inside_cons _ _ _ Hi)), Hc.
    assert (Hm := wind_moved _ _ _ Hi). apply (moved_trans _ [c] (wind lx) (w ++ k) w); [done|].
    apply IH; [|done|lia]. eapply moved_inside; [exact Hm|]. destruct Hi as (_&_&_&Hn').
    by apply no_nul_cons in Hn' as [_ ?].
Qed.
Lemma wind_while_moved p w k lx :
  stops_at p k -> inside lx (w ++ k) -> forallb p w = true -> moved lx w (wind_while p lx) k.
Proof.
  intros Hk Hi Hp. apply wind_while_n_moved; try done. destruct Hi as (Hu&He&_&_).
  unfold upcoming in Hu. destruct (ch lx); [done| |]; apply (f_equal length) in Hu;
    rewrite length_app in Hu; simpl in Hu; lia.
Qed.

Lemma mark_inside lx c r : holds lx c r -> inside (mark lx) (c :: r).
Proof. intros [H1 H2 H3]. unfold inside, upcoming. simpl. by rewrite H1, H2. Qed.
Lemma moved_no_nul lx w lx' k s : inside lx s -> s = w ++ k -> moved lx w lx' k -> inside lx' k.
Proof.
  intros (_&_&_&Hn) -> Hm. eapply moved_inside; [exact Hm|]. by apply no_nul_app in Hn as [_ ?].
Qed.
Lemma moved_reads lx w lx' k s acc :
  inside lx s -> s = w ++ k -> moved lx w lx' k -> reads (set_buffer acc false lx') k.
Proof.
  intros Hi Hs Hm. destruct (moved_no_nul _ _ _ _ _ Hi Hs Hm) as (Hu&_&_&Hn).
  unfold upcoming in Hu. split; unfold upcoming; simpl; [congruence|]. by rewrite Hu.
Qed.

(** ** Before a token *)
Lemma wound_fields lx c r :
  tokenType (wound lx c r) = tokenType lx /\ tokenConsumed (wound lx c r) = tokenConsumed lx /\
  ch (wound lx c r) <> EMPTY.
Proof. unfold wound. by destruct r. Qed.

Lemma skip_blanks_to c r : forall n lx,
  ch lx <> EMPTY -> drop_ws (upcoming lx) = c :: r -> no_nul (upcoming lx) ->
  (length (upcoming lx) <= n)%nat ->
  exists lx' m, skip_blanks n lx = skip_blanks (S m) lx' /\ holds lx' c r /\
    tokenType lx' = tokenType lx /\ tokenConsumed lx' = tokenConsumed lx.
Proof.
  induction n as [|n IH]; intros lx He Hd Hn Hlen.
  { destruct (upcoming lx); simpl in *; [done|lia]. }
  unfold upcoming in Hd, Hn, Hlen.
  destruct (ch lx) as [| |d] eqn:Hch; [done|done|]. simpl in Hd. destruct (isspace d) eqn:Hs.
  - assert (Hl : holds lx d (rest lx)) by done.
    inversion Hn as [|? ? _ Hn']; subst. destruct (wound_fields lx d (rest lx)) as (F1&F2&F3).
    destruct (IH (wound lx d (rest lx)) F3) as (lx'&m&?&?&?&?); rewrite ?wound_upcoming; try done.
    { simpl in Hlen. lia. }
    exists lx', m. split_and!; [|done|congruence|congruence].
    cbn [skip_blanks]. unfold ch_is at 1. by rewrite Hch, Hs, (wind_holds _ _ _ Hl).
  - injection Hd as <- <-. by exists lx, n.
Qed.

Lemma skip_blanks_token c r m lx :
  holds lx c r -> isspace c = false -> c <> "/"%char -> skip_blanks (S m) lx = (SkipDone, lx).
Proof.
  intros [H1 H2 H3] Hs Hc. cbn [skip_blanks]. unfold at_char, ch_is. rewrite H1, Hs.
  by rewrite (eqb_ne "/" c) by congruence.
Qed.
Lemma skip_blanks_divide r m lx :
  holds lx "/" (" "%char :: r) ->
  exists lx', skip_blanks (S m) lx = (SkipDivide, lx') /\ reads lx' (" "%char :: r).
Proof.
  intros [H1 H2 H3]. cbn [skip_blanks]. unfold at_char, ch_is at 1 2. rewrite H1. cbn -[wind mark].
  assert (Hm : holds (mark lx) "/" (" "%char :: r)) by done.
  rewrite (wind_holds _ _ _ Hm). inversion H3; subst. eexists. split; [reflexivity|]. by split.
Qed.

Lemma drop_ws_head s c r : drop_ws s = c :: r -> isspace c = false.
Proof. induction s as [|d s IH]; simpl; [done|]. case_match eqn:E; [done|]. intros [= <- <-]. done. Qed.

(** ** One token

    [at_text lx prev s]: between tokens, [prev] being the last one, [s] to come. *)
Definition at_text (lx : Lexer) (prev : Token) (s : text) : Prop :=
  reads lx s /\ tokenConsumed lx = true /\ tokenType lx = prev.

Section tokens.
Variables oldSemantics oldClassAdLex : bool.

Definition lexes (prev : Token) (s : text) (t : Token) (k : text) : Prop :=
  forall lx, at_text lx prev s ->
  exists lx', ConsumeToken oldSemantics oldClassAdLex lx = Some (t, lx') /\ at_text lx' t k.

(** The state in which a token that begins with [c] is read. *)
Definition ready (lx : Lexer) (prev : Token) (c : ascii) (r : text) : Prop :=
  holds lx c r /\ tokenType lx = prev /\ tokenConsumed lx = false.

Lemma fetch_reads lx s :
  reads lx s -> let lx0 := fetch (set_consumed false lx) in
  ch lx0 <> EMPTY /\ reads lx0 s /\ tokenType lx0 = tokenType lx /\ tokenConsumed lx0 = false.
Proof.
  intros [H1 H2]. cbn zeta. assert (Hfetched : ch lx <> EMPTY -> fetch (set_consumed false lx) = set_consumed false lx).
  { unfold fetch. simpl. by destruct (ch lx). }
  destruct (decide (ch lx = EMPTY)) as [Hch|Hch].
  - unfold upcoming in *. rewrite Hch in *. rewrite (fetch_empty _ (rest lx)) by done.
    destruct (rest lx) as [|c r] eqn:Hr; simpl; split_and!; try done; by split.
  - rewrite Hfetched by done. split_and!; done.
Qed.

Lemma lexes_intro prev s c r t k :
  drop_ws s = c :: r -> c <> "/"%char ->
  (forall lx, ready lx prev c r ->
     exists lx', next_token oldSemantics oldClassAdLex lx = Some (t, lx') /\ reads lx' k) ->
  lexes prev s t k.
Proof.
  intros Hs Hc Hnext lx (Hr&Hcons&Hprev). unfold ConsumeToken, PeekToken. rewrite Hcons. cbn [negb].
  destruct (fetch_reads lx s Hr) as (He&[Hu Hn]&Ht&Htc). cbn zeta.
  set (lx0 := fetch (set_consumed false lx)) in *.
  destruct (skip_blanks_to c r (S (length (rest lx0))) lx0) as (lx1&m&E&Hh&Ht1&Hc1); try done.
  - by rewrite Hu.
  - unfold upcoming. destruct (ch lx0); simpl; lia.
  - rewrite E, (skip_blanks_token c r) by (done || by eapply drop_ws_head).
    destruct (Hnext lx1) as (lx2&E2&Hr2).
    { split; [done|]. split; congruence. }
    rewrite E2. simpl. eexists. split; [done|]. split; [|done]. by destruct Hr2, lx2.
Qed.

(** *** Punctuation *)
Definition single (c : ascii) : option Token :=
  if Ascii.eqb c "*" then Some LEX_MULTIPLY else if Ascii.eqb c "%" then Some LEX_MODULUS
  else if Ascii.eqb c "+" then Some LEX_PLUS else if Ascii.eqb c "~" then Some LEX_BITWISE_NOT
  else if Ascii.eqb c "^" then Some LEX_BITWISE_XOR else if Ascii.eqb c "?" then Some LEX_QMARK
  else if Ascii.eqb c ":" then Some LEX_COLON else if Ascii.eqb c ";" then Some LEX_SEMICOLON
  else if Ascii.eqb c "," then Some LEX_COMMA else if Ascii.eqb c "[" then Some LEX_OPEN_BOX
  else if Ascii.eqb c "]" then Some LEX_CLOSE_BOX else if Ascii.eqb c "(" then Some LEX_OPEN_PAREN
  else if Ascii.eqb c ")" then Some LEX_CLOSE_PAREN else if Ascii.eqb c "{" then Some LEX_OPEN_BRACE
  else if Ascii.eqb c "}" then Some LEX_CLOSE_BRACE else None.

Lemma wind_last_reads lx c r acc : holds lx c r -> reads (set_buffer acc false (wind_last (mark lx))) r.
Proof.
  intros [H1 H2 H3]. inversion H3. destruct lx; simpl in *; subst. by split.
Qed.

(** The characters that follow have been seen before. *)
Ltac finish_no_nul :=
  repeat match goal with H : no_nul (_ :: _) |- _ => apply no_nul_cons in H as [? H] end;
  unfold upcoming; cbn [ch rest];
  repeat (apply no_nul_cons; split; [done|]); done.

(** Run the lexer on a state with a known character and look ahead. *)
Ltac run_lexer :=
  let lx := fresh "lx" in
  intros lx ([? ? ?]&?&?); destruct lx; simpl in *; subst;
  eexists; split; [vm_compute; reflexivity|split; [done|]]; finish_no_nul.

Lemma lexes_single prev s c r t :
  drop_ws s = c :: r -> single c = Some t -> lexes prev s t r.
Proof.
  intros Hs Hc. unfold single in Hc.
  repeat match type of Hc with (if Ascii.eqb ?x ?y then _ else _) = _ =>
    destruct (Ascii.eqb_spec x y); [simplify_eq/=; apply (lexes_intro _ _ _ _ _ _ Hs); [done|run_lexer]|] end.
  done.
Qed.

Lemma lexes_divide prev s r :
  drop_ws s = "/"%char :: " "%char :: r -> lexes prev s LEX_DIVIDE r.
Proof.
  intros Hs lx (Hr&Hcons&Hprev). unfold ConsumeToken, PeekToken. rewrite Hcons. cbn [negb].
  destruct (fetch_reads lx s Hr) as (He&[Hu Hn]&Ht&Htc). cbn zeta.
  set (lx0 := fetch (set_consumed false lx)) in *.
  destruct (skip_blanks_to "/" (" "%char :: r) (S (length (rest lx0))) lx0) as (lx1&m&E&Hh&_&_); try done.
  - by rewrite Hu.
  - unfold upcoming. destruct (ch lx0); simpl; lia.
  - rewrite E. destruct (skip_blanks_divide r m lx1 Hh) as (lx2&->&[Hu2 Hn2]). simpl.
    eexists. split; [done|]. split; [|done]. by split.
Qed.

(** *** Operators *)
Definition op_token (op : OpKind) : Token :=
  match op with
  | LESS_THAN_OP => LEX_LESS_THAN | LESS_OR_EQUAL_OP => LEX_LESS_OR_EQUAL
  | NOT_EQUAL_OP => LEX_NOT_EQUAL | EQUAL_OP => LEX_EQUAL
  | GREATER_OR_EQUAL_OP => LEX_GREATER_OR_EQUAL | GREATER_THAN_OP => LEX_GREATER_THAN
  | META_EQUAL_OP => LEX_META_EQUAL | META_NOT_EQUAL_OP => LEX_META_NOT_EQUAL
  | UNARY_PLUS_OP | ADDITION_OP => LEX_PLUS | UNARY_MINUS_OP | SUBTRACTION_OP => LEX_MINUS
  | MULTIPLICATION_OP => LEX_MULTIPLY | DIVISION_OP => LEX_DIVIDE | MODULUS_OP => LEX_MODULUS
  | LOGICAL_NOT_OP => LEX_LOGICAL_NOT | LOGICAL_OR_OP => LEX_LOGICAL_OR
  | LOGICAL_AND_OP => LEX_LOGICAL_AND | BITWISE_NOT_OP => LEX_BITWISE_NOT
  | BITWISE_OR_OP => LEX_BITWISE_OR | BITWISE_XOR_OP => LEX_BITWISE_XOR
  | BITWISE_AND_OP => LEX_BITWISE_AND | LEFT_SHIFT_OP => LEX_LEFT_SHIFT
  | RIGHT_SHIFT_OP => LEX_RIGHT_SHIFT | URIGHT_SHIFT_OP => LEX_URIGHT_SHIFT
  | _ => LEX_TOKEN_ERROR
  end.

(** The binary operators, with the level of the parser that reads them. *)
Definition bin_level (op : OpKind) : option Z :=
  match op with
  | LOGICAL_OR_OP => Some 1 | LOGICAL_AND_OP => Some 2
  | BITWISE_OR_OP => Some 3 | BITWISE_XOR_OP => Some 4 | BITWISE_AND_OP => Some 5
  | EQUAL_OP | NOT_EQUAL_OP | META_EQUAL_OP | META_NOT_EQUAL_OP => Some 6
  | LESS_THAN_OP | LESS_OR_EQUAL_OP | GREATER_THAN_OP | GREATER_OR_EQUAL_OP => Some 7
  | LEFT_SHIFT_OP | RIGHT_SHIFT_OP | URIGHT_SHIFT_OP => Some 8
  | ADDITION_OP | SUBTRACTION_OP => Some 9
  | MULTIPLICATION_OP | DIVISION_OP | MODULUS_OP => Some 10
  | _ => None
  end.

Lemma lexes_binary prev op s :
  is_Some (bin_level op) -> ends_operand prev = true ->
  lexes prev (opString op ++ s) (op_token op) s.
Proof.
  intros [l Hl] Hprev. destruct op; try discriminate Hl.
  all: try (eapply lexes_divide; reflexivity).
  all: eapply lexes_intro; [reflexivity|done|].
  all: intros lx ([H1 H2 H3]&H4&H5); destruct lx; simpl in *; subst;
    unfold next_token; simpl; rewrite ?Hprev.
  all: eexists; split; [vm_compute; reflexivity|split; [done|]].
  all: finish_no_nul.
Qed.
(** The signs of the old syntax for [is] and [isnt]. *)
Lemma lexes_binary_in old prev op s :
  is_Some (bin_level op) -> ends_operand prev = true ->
  lexes prev (binary_string old op ++ s) (op_token op) s.
Proof.
  intros Hop Hprev. assert (H : binary_string old op = opString op \/
    binary_string old op = txt " =?= " /\ op = META_EQUAL_OP \/ binary_string old op = txt " =!= " /\ op = META_NOT_EQUAL_OP).
  { destruct op, old; auto. }
  destruct H as [->|[[-> ->]|[-> ->]]]; [by apply lexes_binary|..].
  all: eapply lexes_intro; [reflexivity|done|]; intros lx ([H1 H2 H3]&H4&H5); destruct lx; simpl in *; subst;
    unfold next_token; simpl; rewrite ?Hprev.
  all: eexists; split; [vm_compute; reflexivity|split; [done|]].
  all: finish_no_nul.
Qed.

(** *** Words *)
Definition word_char (c : ascii) : bool := isalpha c || Ascii.eqb c "_".
Definition is_word (w : text) : bool :=
  match w with c :: w' => word_char c && forallb isword w' | [] => false end.

Lemma word_char_head c :
  word_char c = true ->
  Ascii.eqb c "-" = false /\ isdigit c || Ascii.eqb c "." = false /\ isspace c = false /\ c <> "/"%char.
Proof.
  by_chars (fun c => negb (word_char c) || negb (Ascii.eqb c "-") && negb (isdigit c || Ascii.eqb c ".")
    && negb (isspace c) && negb (Ascii.eqb c "/")).
  intros H Hc. specialize (H c). rewrite Hc in H. simpl in H.
  repeat (apply andb_prop in H as [H ?]).
  repeat match goal with E : negb _ = true |- _ => apply negb_true_iff in E end.
  split_and!; try done. by apply Ascii.eqb_neq.
Qed.

Lemma span_stops p s : stops_at p (span p s).2.
Proof. induction s as [|c s IH]; simpl; [done|]. destruct (p c) eqn:E; [|done]. by destruct (span p s). Qed.
Lemma span_all p s : forallb p (span p s).1 = true.
Proof. induction s as [|c s IH]; simpl; [done|]. destruct (p c) eqn:E; [|done]. destruct (span p s). simpl in *. by rewrite E. Qed.

Lemma isword_split c : isword c = isalpha c || (isdigit c || Ascii.eqb c "_").
Proof. unfold isword, isalnum. by rewrite orb_assoc. Qed.

Lemma stops_weaken (p q : ascii -> bool) k :
  (forall c, q c = true -> p c = true) -> stops_at p k -> stops_at q k.
Proof.
  intros H. destruct k as [|c k]; simpl; [done|]. intros Hp. destruct (q c) eqn:E; [|done].
  apply H in E. congruence.
Qed.

Definition word_token (w : text) : Token :=
  if forallb isalpha w then reserved_word (string_of_list_ascii w)
  else LEX_IDENTIFIER (string_of_list_ascii w).

Lemma buffer_of lx w lx' k : lexBuffer lx = [] -> moved lx w lx' k -> buffer (cut lx') = w.
Proof.
  intros H [_ _ Hb _]. unfold buffer. simpl. by rewrite Hb, H, app_nil_r, rev_involutive.
Qed.

(** [tokenizeAlphaHead] reads the longest word. *)
Lemma tokenizeAlphaHead_spec lx c w k :
  holds lx c (w ++ k) -> is_word (c :: w) = true -> stops_at isword k ->
  exists lx', tokenizeAlphaHead lx = (word_token (c :: w), lx') /\ reads lx' k.
Proof.
  intros Hh Hw Hk. simpl in Hw. apply andb_prop in Hw as [Hc Hw].
  assert (Hi := mark_inside _ _ _ Hh : inside (mark lx) ((c :: w) ++ k)).
  assert (Hwords : forallb isword (c :: w) = true).
  { simpl. rewrite Hw, isword_split. unfold word_char in Hc. destruct (isalpha c); [done|].
    simpl in Hc. by rewrite Hc, orb_true_r. }
  unfold tokenizeAlphaHead. pose proof (span_app isalpha (c :: w)) as Hsp.
  pose proof (span_all isalpha (c :: w)) as Ha. pose proof (span_stops isalpha (c :: w)) as Hb.
  destruct (span isalpha (c :: w)) as [a b]. simpl in Hsp, Ha, Hb. rewrite <- Hsp in Hi, Hwords.
  rewrite <- app_assoc in Hi. rewrite forallb_app in Hwords. apply andb_prop in Hwords as [_ Hwb].
  assert (Hstop : stops_at isalpha (b ++ k)).
  { destruct b; [|done]. apply (stops_weaken isword); [|done]. intros d. rewrite isword_split.
    by intros ->. }
  assert (Hm := wind_while_moved isalpha a (b ++ k) (mark lx) Hstop Hi Ha).
  assert (Hi1 := moved_no_nul _ _ _ _ _ Hi eq_refl Hm).
  set (lx1 := wind_while isalpha (mark lx)) in *. destruct b as [|d b].
  - rewrite (inside_stops _ lx1 k); [|done|].
    2: { apply (stops_weaken isword); [|done]. intros d. rewrite isword_split. intros ->.
         by rewrite orb_true_r. }
    eexists. split; [|by eapply moved_reads; [exact Hi| |exact Hm]]. f_equal.
    unfold word_token, buffer_string. rewrite <- Hsp, app_nil_r, Ha.
    by rewrite (buffer_of (mark lx) a lx1 k).
  - simpl in Hwb. apply andb_prop in Hwb as [Hd Hwb]. simpl in Hb.
    rewrite isword_split, Hb in Hd. simpl in Hd.
    unfold ch_is. rewrite (holds_ch _ _ _ (inside_cons _ _ _ Hi1)), Hd.
    assert (Hm2 := wind_moved _ _ _ Hi1). assert (Hi2 := moved_no_nul lx1 [d] (wind lx1) (b ++ k) _ Hi1 eq_refl Hm2).
    assert (Hm3 := wind_while_moved isword b k (wind lx1) Hk Hi2 Hwb).
    assert (Hm13 := moved_trans _ _ _ _ _ _ _ (moved_trans _ _ _ _ _ _ _ Hm Hm2) Hm3).
    eexists. split; [|eapply moved_reads; [exact Hi| |exact Hm13]; by rewrite <- !app_assoc].
    f_equal. unfold word_token, buffer_string. rewrite <- Hsp, forallb_app. simpl. rewrite Hb, andb_false_r.
    rewrite (buffer_of (mark lx) _ _ _ eq_refl Hm13). by rewrite <- app_assoc.
Qed.

Lemma lexes_word prev w k :
  is_word w = true -> stops_at isword k -> lexes prev (w ++ k) (word_token w) k.
Proof.
  destruct w as [|c w]; [done|]. intros Hw Hk.
  assert (Hc : word_char c = true) by (simpl in Hw; by destruct (word_char c)).
  destruct (word_char_head c Hc) as (H1&H2&H3&H4).
  apply (lexes_intro _ _ c (w ++ k)); [simpl; by rewrite H3|done|].
  intros lx (Hh&Ht&_). destruct (tokenizeAlphaHead_spec lx c w k Hh Hw Hk) as (lx'&E&Hr).
  exists lx'. split; [|done]. unfold next_token. rewrite (holds_ch _ _ _ Hh), H1, H2.
  unfold word_char in Hc. by rewrite Hc, E.
Qed.

(** *** Integers *)
Definition number_letters : text := ["x"; "e"; "b"; "k"; "m"; "g"; "t"]%char.
Lemma lower_is_stops l lx k :
  l ∈ number_letters -> inside lx k -> stops_at isword k -> lower_is l lx = false.
Proof.
  intros Hl Hi Hk. apply (inside_stops _ _ _ Hi).
  apply (stops_weaken isword); [|done]. clear -Hl.
  by_chars (fun d => forallb (fun l => negb (Ascii.eqb l (tolower d)) || isword d) number_letters).
  intros H d Hd. specialize (H d). rewrite forallb_forall in H.
  specialize (H l (proj1 (list_elem_of_In _ _) Hl)). by rewrite Hd in H.
Qed.

(** What may follow a number: no word character, no point. *)
Definition stops_number (k : text) : Prop := stops_at isword k /\ stops_at (Ascii.eqb ".") k.

Lemma finish_integer lx k :
  inside lx k -> stops_number k ->
  (length (lexBuffer lx) <= 1 \/ head (buffer lx) <> Some "0"%char)%nat ->
  exists lx', finish_number oldSemantics INTEGER lx =
    Some (LEX_INTEGER_VALUE (from_chars (buffer lx)) NO_FACTOR, lx') /\ reads lx' k.
Proof.
  intros Hi [Hk _] Hz. exists (cut lx). split.
  - assert (Hf : factor_of (cut lx) = NO_FACTOR).
    { unfold factor_of. assert (Hl : forall l, l ∈ number_letters -> lower_is l (cut lx) = false).
      { intros l Hl. exact (lower_is_stops l lx k Hl Hi Hk). }
      by rewrite !Hl by (unfold number_letters; set_solver). }
    unfold finish_number. rewrite Hf. change (buffer (cut lx)) with (buffer lx).
    destruct (buffer lx) as [|c [|d b]] eqn:Hb; [done..|].
    destruct (oldSemantics && Ascii.eqb c "0") eqn:E; [|done].
    apply andb_prop in E as [_ ->%eqb_eq]. destruct Hz as [Hz|Hz]; [|done].
    unfold buffer in Hb. apply (f_equal length) in Hb. rewrite length_rev in Hb. simpl in Hb. lia.
  - destruct Hi as (Hu&_&_&Hn). unfold upcoming in Hu. split; unfold upcoming; simpl; [congruence|].
    by rewrite Hu.
Qed.

Lemma number_whole_integer och w lx k :
  inside lx (w ++ k) -> stops_number k -> forallb isdigit (och :: w) = true ->
  (och = "0"%char -> w = []) ->
  (length (rev w ++ lexBuffer lx) <= 1 \/ head (rev (lexBuffer lx) ++ w) <> Some "0"%char)%nat ->
  exists lx', number_whole oldSemantics och lx =
    Some (LEX_INTEGER_VALUE (from_chars (rev (lexBuffer lx) ++ w)) NO_FACTOR, lx') /\ reads lx' k.
Proof.
  intros Hi [Hk Hdot] Hw H0 Hz. simpl in Hw. apply andb_prop in Hw as [Ho Hw].
  assert (Hdigit : stops_at isdigit k).
  { apply (stops_weaken isword); [|done]. intros d. rewrite isword_split. intros ->. by rewrite orb_true_r. }
  assert (Hfin : forall lx1, moved lx w lx1 k ->
    exists lx', number_fraction oldSemantics false INTEGER lx1 =
      Some (LEX_INTEGER_VALUE (from_chars (rev (lexBuffer lx) ++ w)) NO_FACTOR, lx') /\ reads lx' k).
  { intros lx1 Hm. assert (Hi1 := moved_no_nul _ _ _ _ _ Hi eq_refl Hm).
    unfold number_fraction, at_char. rewrite (inside_stops _ _ _ Hi1 Hdot). simpl.
    assert (Hb : buffer lx1 = rev (lexBuffer lx) ++ w).
    { destruct Hm as [_ _ Hb _]. unfold buffer. by rewrite Hb, rev_app_distr, rev_involutive. }
    rewrite <- Hb. apply finish_integer; [done|done|]. rewrite Hb.
    destruct Hm as [_ _ -> _]. exact Hz. }
  unfold number_whole. destruct (Ascii.eqb_spec och "0") as [->|Hne].
  - rewrite H0 in * by done. simpl in Hi.
    rewrite (lower_is_stops "x" lx k) by (done || unfold number_letters; set_solver).
    cbn [octal_digits]. rewrite (inside_stops _ _ _ Hi Hdigit). unfold at_char.
    rewrite (inside_stops _ _ _ Hi Hdot), (lower_is_stops "e" lx k) by (done || unfold number_letters; set_solver).
    simpl. apply Hfin. by apply moved_refl.
  - rewrite Ho. assert (Hm := wind_while_moved isdigit w k lx Hdigit Hi Hw).
    assert (Hi1 := moved_no_nul _ _ _ _ _ Hi eq_refl Hm). cbn zeta. unfold at_char at 1.
    rewrite (inside_stops _ _ _ Hi1 Hdot), (lower_is_stops "e" _ k) by (done || unfold number_letters; set_solver).
    by apply Hfin.
Qed.

Lemma digit_head c : isdigit c = true -> Ascii.eqb c "-" = false /\ isspace c = false /\ c <> "/"%char.
Proof.
  by_chars (fun c => negb (isdigit c) || negb (Ascii.eqb c "-") && negb (isspace c) && negb (Ascii.eqb c "/")).
  intros H Hc. specialize (H c). rewrite Hc in H. simpl in H. repeat (apply andb_prop in H as [H ?]).
  repeat match goal with E : negb _ = true |- _ => apply negb_true_iff in E end.
  split_and!; try done. by apply Ascii.eqb_neq.
Qed.

(** Reading back with [strtol] what [append_long] writes. *)
Lemma span_digits_app d k : forallb isdigit d = true -> stops_at isdigit k -> span_digits (d ++ k) = (d, k).
Proof.
  intros Hd Hk. induction d as [|c d IH]; simpl.
  - destruct k as [|c k]; simpl in *; [done|]. by rewrite Hk.
  - simpl in Hd. apply andb_true_iff in Hd as [-> Hd]. by rewrite IH.
Qed.
Lemma strtol_append_long i k : in_int64 i -> stops_at isdigit k -> strtol (append_long [] i ++ k) = (i, k).
Proof.
  unfold in_int64, INT64_MIN, INT64_MAX. intros Hi Hk. unfold append_long. cbn [app].
  assert (Hclamp : forall z, z = i -> Z.max (-9223372036854775808) (Z.min 9223372036854775807 z) = i) by lia.
  destruct (Z.leb_spec 0 i) as [Hp|Hp].
  - destruct (digits_spec i) as [Dd Dn Dv _]; [unfold two63; lia|]. specialize (Dv 0 []). rewrite app_nil_r in Dv.
    pose proof (span_digits_app _ k Dd Hk) as Hs. unfold strtol. destruct (digits i) as [|c d]; [done|].
    pose proof Dd as Dd'. simpl in Dd'. apply andb_true_iff in Dd' as [Hc _]. destruct (digit_head c Hc) as (Hm&Hsp&_).
    rewrite <- app_comm_cons in *. cbn [skip_space]. rewrite Hsp, Hm.
    destruct (Ascii.eqb_spec c "+") as [->|_]; [done|]. rewrite Hs, Dv. cbn [digits_value]. f_equal. by apply Hclamp.
  - destruct (digits_spec (- i)) as [Dd Dn Dv _]; [unfold two63; lia|]. specialize (Dv 0 []). rewrite app_nil_r in Dv.
    pose proof (span_digits_app _ k Dd Hk) as Hs. unfold strtol. cbn [app skip_space].
    change (isspace "-") with false. cbv iota beta.
    change (Ascii.eqb "-" "-") with true. cbv iota beta. rewrite Hs.
    destruct (digits (- i)) as [|c d]; [done|]. rewrite Dv. cbn [digits_value]. f_equal. apply Hclamp. lia.
Qed.

Lemma lexes_integer prev i k :
  in_int64 i -> stops_number k -> (i < 0 -> ends_operand prev = false) ->
  lexes prev (append_long [] i ++ k) (LEX_INTEGER_VALUE i NO_FACTOR) k.
Proof.
  intros Hi Hk Hprev. assert (Hrange := Hi). unfold in_int64, INT64_MIN, INT64_MAX in Hrange.
  rewrite <- (from_chars_append_long i Hi) at 2. unfold append_long.
  destruct (Z.leb_spec 0 i) as [Hp|Hp]; simpl app.
  - destruct (digits_spec i) as [Dd Dn _ Dh]; [unfold two63; lia|].
    destruct (digits i) as [|c w]; [done|]. assert (Hc : isdigit c = true) by (simpl in Dd; by destruct (isdigit c)).
    destruct (digit_head c Hc) as (H1&H2&H3).
    apply (lexes_intro _ _ c (w ++ k)); [simpl; by rewrite H2|done|].
    intros lx (Hh&_&_). assert (Hm := mark_inside _ _ _ Hh). assert (Hw := wind_moved _ _ _ Hm).
    assert (Hi1 := moved_no_nul _ [c] _ (w ++ k) _ Hm eq_refl Hw). destruct Hw as [_ _ Hb _].
    destruct (number_whole_integer c w (wind (mark lx)) k Hi1 Hk Dd) as (lx'&E&Hr).
    { intros ->. by injection (Dh eq_refl). }
    { rewrite Hb. simpl. destruct (decide (c = "0"%char)) as [->|]; [|right; congruence].
      left. injection (Dh eq_refl) as ->. simpl. lia. }
    exists lx'. split; [|done]. unfold next_token. rewrite (holds_ch _ _ _ Hh), H1, Hc. simpl.
    unfold tokenizeNumber. rewrite (holds_ch _ _ _ Hh), H1, E, Hb. done.
  - destruct (digits_spec (- i)) as [Dd Dn _ Dh]; [unfold two63; lia|].
    destruct (digits (- i)) as [|c w]; [done|]. assert (Hc : isdigit c = true) by (simpl in Dd; by destruct (isdigit c)).
    eapply lexes_intro; [reflexivity|done|].
    intros lx (Hh&Ht&_). assert (Hm := mark_inside _ _ _ Hh). assert (Hw := wind_moved _ _ _ Hm).
    assert (Hi1 := moved_no_nul _ ["-"%char] _ (c :: w ++ k) _ Hm eq_refl Hw).
    assert (Hw2 := wind_moved _ _ _ Hi1).
    assert (Hi2 := moved_no_nul _ [c] _ (w ++ k) _ Hi1 eq_refl Hw2).
    destruct (moved_trans _ _ _ _ _ _ _ Hw Hw2) as [_ _ Hb _].
    destruct (number_whole_integer c w (wind (wind (mark lx))) k Hi2 Hk Dd) as (lx'&E&Hr).
    { intros ->. by injection (Dh eq_refl). }
    { rewrite Hb. right. done. }
    exists lx'. split; [|done]. unfold next_token. rewrite (holds_ch _ _ _ Hh). simpl.
    rewrite Ht, Hprev by done. unfold tokenizeNumber. rewrite (holds_ch _ _ _ Hh). simpl.
    rewrite (holds_ch _ _ _ (inside_cons _ _ _ Hi1)), Hc, E, Hb. done.
Qed.
End tokens.

(** *** Strings and quoted names *)

(** One step of the scan: the state is whether the last character was a backslash and
    whether an odd backslash is pending; none at the end of the string. *)
Definition scan_step (delim : ascii) (st : bool * bool) (c : ascii) : option (bool * bool) :=
  if negb (Ascii.eqb c delim) || (st.1 && st.2)
  then Some (Ascii.eqb c "\", negb st.2 && Ascii.eqb c "\") else None.
Fixpoint scan_run (delim : ascii) (st : bool * bool) (w : text) : option (bool * bool) :=
  match w with
  | [] => Some st
  | c :: w' => st' ← scan_step delim st c; scan_run delim st' w'
  end.

Lemma scan_run_app delim st w1 w2 :
  scan_run delim st (w1 ++ w2) = (st' ← scan_run delim st w1; scan_run delim st' w2).
Proof.
  revert st. induction w1 as [|c w1 IH]; intros st; simpl; [done|].
  destruct (scan_step delim st c); simpl; [apply IH|done].
Qed.

Definition is_quote (c : ascii) : bool := Ascii.eqb c dquote || Ascii.eqb c squote.
Lemma is_quote_cases d : is_quote d = true -> d = dquote \/ d = squote.
Proof. unfold is_quote. intros [->%eqb_eq| ->%eqb_eq]%orb_prop; auto. Qed.

(** An escaped text does not end the string. *)
Lemma scan_escape_char delim b c :
  is_quote delim = true -> exists b', scan_run delim (b, false) (escape_char delim c) = Some (b', false).
Proof.
  intros Hq. assert (H : match scan_run delim (b, false) (escape_char delim c) with
                         | Some (_, false) => true | _ => false end = true).
  { generalize c. apply by_chars. destruct (is_quote_cases _ Hq) as [->| ->], b; reflexivity. }
  destruct (scan_run _ _ _) as [[b' []]|]; [done|by exists b'|done].
Qed.
Lemma scan_escape delim b s :
  is_quote delim = true -> exists b', scan_run delim (b, false) (escape delim s) = Some (b', false).
Proof.
  intros Hq. revert b. induction s as [|c s IH]; intros b; [by exists b|].
  unfold escape. simpl. rewrite scan_run_app. destruct (scan_escape_char delim b c Hq) as [b1 ->].
  apply IH.
Qed.

Lemma scan_string_moved delim w : forall n lx st st' k,
  scan_run delim st w = Some st' -> scan_step delim st' delim = None ->
  inside lx (w ++ delim :: k) -> (length w <= n)%nat ->
  moved lx w (scan_string n delim st.1 st.2 lx) (delim :: k).
Proof.
  induction w as [|c w IH]; intros n lx st st' k Hrun Hstop Hi Hn; simpl in *.
  - injection Hrun as ->. destruct n as [|n]; simpl; [by apply moved_refl|].
    rewrite (holds_ch _ _ _ (inside_cons _ _ _ Hi)).
    unfold scan_step in Hstop. case_match; [done|]. by apply moved_refl.
  - destruct (scan_step delim st c) as [st1|] eqn:E; [|done]. simpl in Hrun.
    destruct n as [|n]; [lia|]. cbn [scan_string].
    rewrite (holds_ch _ _ _ (inside_cons _ _ _ Hi)).
    unfold scan_step in E. case_match; [|done]. injection E as <-.
    assert (Hm := wind_moved _ _ _ Hi). assert (Hi1 := moved_no_nul lx [c] _ (w ++ delim :: k) _ Hi eq_refl Hm).
    apply (moved_trans lx [c] (wind lx) (w ++ delim :: k) w _ (delim :: k)); [done|].
    exact (IH n (wind lx) (Ascii.eqb c "\", negb st.2 && Ascii.eqb c "\") st' k Hrun Hstop Hi1 ltac:(lia)).
Qed.

(** White space after a string is read with it. *)
Lemma read_past_space_spec n : forall lx,
  no_nul (rest lx) -> (length (rest lx) <= n)%nat ->
  exists b, read_past_space n lx =
    match drop_ws (rest lx) with
    | c :: r => (Chr c, set_source b r lx)
    | [] => (EOF, set_source b [] lx)
    end.
Proof.
  induction n as [|n IH]; intros lx Hn Hlen; cbn [read_past_space].
  - destruct (rest lx) as [|c r] eqn:E; simpl in Hlen; [|lia].
    rewrite ReadCharacter_nil by done. exists (before lx). by destruct lx; simpl in *; subst.
  - destruct (rest lx) as [|c r] eqn:E.
    + rewrite ReadCharacter_nil by done. exists (before lx). by destruct lx; simpl in *; subst.
    + apply no_nul_cons in Hn as [Hc Hr]. rewrite (ReadCharacter_cons _ c r) by done. simpl.
      destruct (isspace c) eqn:Hs; [|by exists (c :: before lx)].
      destruct (IH (set_source (c :: before lx) r lx)) as [b ->]; simpl in *; [done|lia|].
      exists b. by destruct (drop_ws r).
Qed.
