(* ===== verification/NaturalCmp.v ===== *)
(** * Natural order of strings ([classad/natural_cmp.cpp])

    [natural_cmp] compares like [strcmp] except where the first mismatch touches digits in
    both strings. The pointers of the code are positions here: [s1] and [s2] at the first
    mismatch have the same one. A key, a list of numbers to compare in lexicographic order,
    gives the meaning of the comparison. *)
From Stdlib Require Import ZArith Lia Ascii String.
From stdpp Require Import base list strings.
From S2P Require Import Prelude Double Numerals Lexer LexerFacts Unparser.

(** ** The code *)

(** [s[i]] of a C string, the terminator included; a [char] is signed. *)
Definition char_at (s : text) (i : nat) : ascii := default "000"%char (s !! i).
Definition schar (c : ascii) : Z := if code c <? 128 then code c else code c - 256.

(** The position of the first mismatch, or of the terminators. *)
Fixpoint mismatch (s1 s2 : text) : nat :=
  match s1, s2 with
  | c1 :: s1', c2 :: s2' => if Ascii.eqb c1 c2 then S (mismatch s1' s2') else 0
  | _, _ => 0
  end.
(** Where the digits that lead up to position [i] begin. *)
Fixpoint digits_begin (s : text) (i : nat) : nat :=
  match i with
  | O => O
  | S j => if isdigit (char_at s j) then digits_begin s j else i
  end.
(** How many characters of [s] from its start satisfy [p]. *)
Fixpoint count_while (p : ascii -> bool) (s : text) : nat :=
  match s with c :: s' => if p c then S (count_while p s') else 0 | [] => 0 end.
(** The leading zeros of a number, not counting a final one. *)
Definition leading_zeros (s : text) : nat :=
  let z := count_while (Ascii.eqb "0") s in
  if (0 <? z)%nat && negb (isdigit (char_at s z)) then (z - 1)%nat else z.
Definition number_length (s : text) : nat := count_while isdigit s.

Definition natural_cmp (s1 s2 : text) : Z :=
  let i := mismatch s1 s2 in
  let c1 := char_at s1 i in
  let c2 := char_at s2 i in
  if Ascii.eqb c1 c2 then 0
  else
    let n := digits_begin s1 i in
    if (n =? i)%nat && (negb (isdigit c1) || negb (isdigit c2)) then schar c1 - schar c2
    else
      let n1 := drop n s1 in
      let n2 := drop n s2 in
      let z1 := leading_zeros n1 in
      let z2 := leading_zeros n2 in
      if negb (z1 =? z2)%nat then wrap32 (Z.of_nat z2 - Z.of_nat z1)
      else if (0 <? z1)%nat then schar c1 - schar c2
      else if negb (number_length n1 =? number_length n2)%nat
      then wrap32 (Z.of_nat (number_length n1) - Z.of_nat (number_length n2))
      else schar c1 - schar c2.

(** ** The key of a string

    Outside of numbers a character counts for itself. A number counts as a digit, then the
    more leading zeros the smaller, then without leading zeros the longer the greater, then
    digit by digit. [in_number] says that the previous character was a digit. *)
Fixpoint natural_key (in_number : bool) (s : text) : list Z :=
  match s with
  | [] => [0]
  | c :: s' =>
      if isdigit c then
        (if in_number then []
         else [48; - Z.of_nat (leading_zeros s);
               if (leading_zeros s =? 0)%nat then Z.of_nat (number_length s) else 0])
          ++ schar c :: natural_key true s'
      else schar c :: natural_key false s'
  end.

(** Lexicographic order. *)
Fixpoint key_compare (k1 k2 : list Z) : comparison :=
  match k1, k2 with
  | [], [] => Eq
  | [], _ :: _ => Lt
  | _ :: _, [] => Gt
  | x :: k1', y :: k2' => match x ?= y with Eq => key_compare k1' k2' | r => r end
  end.

Definition sign (z : Z) : comparison := z ?= 0.

(** ** The order of keys *)
Lemma key_compare_app k k1 k2 : key_compare (k ++ k1) (k ++ k2) = key_compare k1 k2.
Proof. induction k as [|x k IH]; simpl; [done|]. by rewrite Z.compare_refl. Qed.

Lemma key_compare_antisym k1 k2 : key_compare k2 k1 = CompOpp (key_compare k1 k2).
Proof.
  revert k2. induction k1 as [|x k1 IH]; intros [|y k2]; simpl; try done.
  rewrite (Z.compare_antisym x y). destruct (x ?= y); simpl; auto.
Qed.

Lemma key_compare_eq k1 k2 : key_compare k1 k2 = Eq <-> k1 = k2.
Proof.
  split; [|intros ->; rewrite <- (app_nil_r k2); by rewrite key_compare_app].
  revert k2. induction k1 as [|x k1 IH]; intros [|y k2]; simpl; try done.
  destruct (Z.compare_spec x y) as [->| |]; [|done..]. intros H. by rewrite (IH k2).
Qed.

Lemma key_compare_le k1 k2 k3 :
  key_compare k1 k2 <> Gt -> key_compare k2 k3 <> Gt -> key_compare k1 k3 <> Gt.
Proof.
  revert k2 k3. induction k1 as [|x k1 IH]; intros [|y k2] [|z k3]; simpl; try done.
  destruct (Z.compare_spec x y), (Z.compare_spec y z), (Z.compare_spec x z); try lia; try done.
  apply IH.
Qed.

(** ** Characters *)
Lemma schar_inj c d : schar c = schar d -> c = d.
Proof.
  intros H. assert (code c = code d) as E.
  { revert H. unfold schar, code. pose proof (nat_ascii_bounded c). pose proof (nat_ascii_bounded d).
    destruct (Z.ltb_spec (Z.of_nat (nat_of_ascii c)) 128), (Z.ltb_spec (Z.of_nat (nat_of_ascii d)) 128); lia. }
  unfold code in E. apply Nat2Z.inj in E. rewrite <- (ascii_nat_embedding c), <- (ascii_nat_embedding d).
  by rewrite E.
Qed.

Lemma schar_sign c d : sign (schar c - schar d) = (schar c ?= schar d).
Proof.
  unfold sign. destruct (Z.compare_spec (schar c) (schar d)); [apply Z.compare_eq_iff|
    apply Z.compare_lt_iff|apply Z.compare_gt_iff]; lia.
Qed.

Lemma schar_digit c : isdigit c = true -> 48 <= schar c <= 57.
Proof.
  unfold isdigit, between, schar. change (code "0") with 48. change (code "9") with 57.
  intros H. apply andb_prop in H as [H1 H2]. apply Z.leb_le in H1, H2.
  destruct (Z.ltb_spec (code c) 128); lia.
Qed.
Lemma schar_nondigit c : isdigit c = false -> schar c < 48 \/ 57 < schar c.
Proof.
  unfold isdigit, between, schar. change (code "0") with 48. change (code "9") with 57.
  intros H. pose proof (nat_ascii_bounded c) as B. unfold code in *.
  apply andb_false_iff in H as [H|H]; apply Z.leb_gt in H;
    destruct (Z.ltb_spec (Z.of_nat (nat_of_ascii c)) 128); lia.
Qed.

(** ** Positions *)
Lemma char_at_app p x i : char_at (p ++ x) (length p + i) = char_at x i.
Proof. unfold char_at. rewrite lookup_app_r by lia. do 2 f_equal. lia. Qed.
Lemma char_at_end p x : char_at (p ++ x) (length p) = char_at x 0.
Proof. by rewrite <- (char_at_app p x 0), Nat.add_0_r. Qed.
Lemma char_at_inside p x i : (i < length p)%nat -> char_at (p ++ x) i = char_at p i.
Proof. intros H. unfold char_at. by rewrite lookup_app_l. Qed.

Lemma mismatch_split s t : no_nul s -> no_nul t -> exists p s' t',
  s = p ++ s' /\ t = p ++ t' /\ mismatch s t = length p /\
  (char_at s' 0 = char_at t' 0 -> s' = [] /\ t' = []).
Proof.
  revert t. induction s as [|c s IH]; intros t Hs Ht.
  { exists [], [], t. split_and!; try done. destruct t as [|d t]; [done|].
    intros Hd. change ("000"%char = d) in Hd. by apply no_nul_cons in Ht as [[] _]. }
  destruct t as [|d t].
  { exists [], (c :: s), []. split_and!; try done. intros Hc.
    change (c = "000"%char) in Hc. by apply no_nul_cons in Hs as [[] _]. }
  apply no_nul_cons in Hs as [? Hs], Ht as [? Ht]. simpl.
  destruct (Ascii.eqb_spec c d) as [->|Hne].
  - destruct (IH t Hs Ht) as (p&s'&t'&->&->&->&He). by exists (d :: p), s', t'.
  - by exists [], (c :: s), (d :: t).
Qed.

Definition ends_nondigit (q : text) : Prop := q = [] \/ exists q0 c, q = q0 ++ [c] /\ isdigit c = false.

Lemma digits_begin_split p x : exists q r, p = q ++ r /\ forallb isdigit r = true /\
  ends_nondigit q /\ digits_begin (p ++ x) (length p) = length q.
Proof.
  revert x. induction p as [|c p IH] using rev_ind; intros x.
  { exists [], []. split_and!; try done. by left. }
  rewrite length_app, Nat.add_1_r, <- app_assoc. simpl. rewrite char_at_end. simpl.
  change (char_at (c :: x) 0) with c. destruct (isdigit c) eqn:Hc.
  - destruct (IH (c :: x)) as (q&r&->&Hr&Hq&->). exists q, (r ++ [c]).
    split_and!; [by rewrite app_assoc| |done..]. by rewrite forallb_app, Hr; simpl; rewrite Hc.
  - exists (p ++ [c]), []. split_and!; [by rewrite app_nil_r|done|right; by exists p, c|].
    rewrite length_app. simpl. lia.
Qed.

(** ** What the key of a number depends on *)
Lemma count_while_stops p l c x : p c = false -> count_while p (l ++ c :: x) = count_while p (l ++ [c]).
Proof. intros Hc. induction l as [|d l IH]; simpl; [by rewrite Hc|]. by rewrite IH. Qed.
Lemma count_while_length p l : (count_while p l <= length l)%nat.
Proof. induction l as [|c l IH]; simpl; [lia|]. destruct (p c); lia. Qed.
Lemma zero_digit c : isdigit c = false -> Ascii.eqb "0" c = false.
Proof. intros H. destruct (Ascii.eqb_spec "0" c) as [<-|]; [by vm_compute in H|done]. Qed.

Lemma leading_zeros_stops l c x : isdigit c = false ->
  leading_zeros (l ++ c :: x) = leading_zeros (l ++ [c]).
Proof.
  intros Hc. unfold leading_zeros. rewrite count_while_stops by (by apply zero_digit).
  set (z := count_while _ (l ++ [c])). assert (Hz : (z <= length l)%nat).
  { subst z. clear x. induction l as [|d l IH]; cbn [count_while app length]; [by rewrite zero_digit|].
    destruct (Ascii.eqb "0" d); lia. }
  replace (l ++ c :: x) with ((l ++ [c]) ++ x) by (by rewrite <- app_assoc).
  rewrite (char_at_inside (l ++ [c])) by (rewrite length_app; simpl; lia). done.
Qed.

Lemma natural_key_prefix q c : isdigit c = false -> forall b, exists k, forall x,
  natural_key b (q ++ c :: x) = k ++ natural_key false x.
Proof.
  intros Hc. induction q as [|d q IH]; intros b.
  { exists [schar c]. intros x. simpl. by rewrite Hc. }
  destruct (isdigit d) eqn:Hd; simpl.
  - destruct (IH true) as [k Hk]. eexists. intros x. rewrite Hd, Hk.
    change (d :: q ++ c :: x) with ((d :: q) ++ c :: x). rewrite leading_zeros_stops by done.
    unfold number_length. rewrite count_while_stops by done. rewrite app_comm_cons, app_assoc. done.
  - destruct (IH false) as [k Hk]. exists (schar d :: k). intros x. by rewrite Hd, Hk.
Qed.

Lemma natural_key_after q x y : ends_nondigit q ->
  key_compare (natural_key false (q ++ x)) (natural_key false (q ++ y)) =
  key_compare (natural_key false x) (natural_key false y).
Proof.
  intros [->|(q0&c&->&Hc)]; [done|]. destruct (natural_key_prefix q0 c Hc false) as [k Hk].
  rewrite <- !app_assoc. simpl. by rewrite !Hk, key_compare_app.
Qed.

Lemma natural_key_number s : isdigit (char_at s 0) = true -> natural_key false s =
  48 :: - Z.of_nat (leading_zeros s) ::
    (if (leading_zeros s =? 0)%nat then Z.of_nat (number_length s) else 0) :: natural_key true s.
Proof. destruct s as [|c s]; [done|]. change (char_at (c :: s) 0) with c. simpl. by intros ->. Qed.

Lemma natural_key_in_number r x : forallb isdigit r = true ->
  natural_key true (r ++ x) = (schar <$> r) ++ natural_key true x.
Proof.
  induction r as [|c r IH]; [done|]. intros [Hc Hr]%andb_prop. simpl. rewrite Hc. simpl.
  by rewrite IH.
Qed.
Lemma natural_key_head_in s : exists k, natural_key true s = schar (char_at s 0) :: k.
Proof. destruct s as [|c s]; [by exists []|]. simpl. destruct (isdigit c); by eexists. Qed.
Lemma natural_key_head s : exists k, natural_key false s =
  (if isdigit (char_at s 0) then 48 else schar (char_at s 0)) :: k.
Proof.
  destruct s as [|c s]; [by exists []|]. change (char_at (c :: s) 0) with c. simpl.
  destruct (isdigit c); by eexists.
Qed.

(** ** The comparison is the comparison of keys *)
Definition short (s : text) : Prop := Z.of_nat (length s) <= INT32_MAX.

Lemma wrap32_small z : INT32_MIN <= z <= INT32_MAX -> wrap32 z = z.
Proof. unfold INT32_MIN, INT32_MAX, wrap32. intros H. rewrite Z.mod_small; lia. Qed.
Lemma sign_sub a b : sign (a - b) = (a ?= b).
Proof.
  unfold sign. destruct (Z.compare_spec a b); [apply Z.compare_eq_iff|
    apply Z.compare_lt_iff|apply Z.compare_gt_iff]; lia.
Qed.
Lemma sign_length_sub a b (s t : text) : short s -> short t -> (a <= length s)%nat -> (b <= length t)%nat ->
  sign (wrap32 (Z.of_nat a - Z.of_nat b)) = (Z.of_nat a ?= Z.of_nat b).
Proof.
  unfold short, INT32_MAX. intros. rewrite wrap32_small; [apply sign_sub|].
  unfold INT32_MIN, INT32_MAX. lia.
Qed.
Lemma leading_zeros_length s : (leading_zeros s <= length s)%nat.
Proof.
  unfold leading_zeros. pose proof (count_while_length (Ascii.eqb "0") s).
  destruct (_ && _); lia.
Qed.
Lemma opp_compare a b : (- Z.of_nat a ?= - Z.of_nat b) = (Z.of_nat b ?= Z.of_nat a).
Proof. apply Z.compare_opp. Qed.
Lemma short_drop q s : short (q ++ s) -> short s.
Proof. unfold short. rewrite length_app. lia. Qed.
Lemma of_nat_compare_ne a b : a <> b -> (Z.of_nat a ?= Z.of_nat b) <> Eq.
Proof. rewrite Z.compare_eq_iff. lia. Qed.

(** Two numbers that start together, their digits equal up to a mismatch. *)
Lemma number_compare r x y : forallb isdigit r = true -> char_at x 0 <> char_at y 0 ->
  isdigit (char_at (r ++ x) 0) = true -> isdigit (char_at (r ++ y) 0) = true ->
  short (r ++ x) -> short (r ++ y) ->
  let n1 := r ++ x in let n2 := r ++ y in
  sign (if negb (leading_zeros n1 =? leading_zeros n2)%nat
        then wrap32 (Z.of_nat (leading_zeros n2) - Z.of_nat (leading_zeros n1))
        else if (0 <? leading_zeros n1)%nat then schar (char_at x 0) - schar (char_at y 0)
        else if negb (number_length n1 =? number_length n2)%nat
        then wrap32 (Z.of_nat (number_length n1) - Z.of_nat (number_length n2))
        else schar (char_at x 0) - schar (char_at y 0)) =
  key_compare (natural_key false n1) (natural_key false n2).
Proof.
  intros Hr Hne D1 D2 S1 S2 n1 n2. rewrite !natural_key_number by done.
  assert (Hmis : key_compare (natural_key true n1) (natural_key true n2) =
    sign (schar (char_at x 0) - schar (char_at y 0))).
  { subst n1 n2. rewrite !natural_key_in_number, key_compare_app by done.
    destruct (natural_key_head_in x) as [k1 ->], (natural_key_head_in y) as [k2 ->]. simpl.
    rewrite schar_sign. destruct (Z.compare_spec (schar (char_at x 0)) (schar (char_at y 0))) as [E| |]; [|done..].
    by apply schar_inj in E. }
  cbn [key_compare]. rewrite Z.compare_refl, opp_compare.
  destruct (Nat.eqb_spec (leading_zeros n1) (leading_zeros n2)) as [Ez|Ez]; cbn [negb].
  - rewrite <- Ez, Z.compare_refl. destruct (Nat.ltb_spec 0 (leading_zeros n1)).
    + replace (leading_zeros n1 =? 0)%nat with false by (symmetry; apply Nat.eqb_neq; lia).
      by rewrite Z.compare_refl, Hmis.
    + replace (leading_zeros n1 =? 0)%nat with true by (symmetry; apply Nat.eqb_eq; lia).
      destruct (Nat.eqb_spec (number_length n1) (number_length n2)) as [El|El]; cbn [negb].
      * by rewrite El, Z.compare_refl, Hmis.
      * rewrite (sign_length_sub _ _ n1 n2) by (done || apply count_while_length).
        apply of_nat_compare_ne in El. by destruct (_ ?= _).
  - rewrite (sign_length_sub _ _ n2 n1) by (done || apply leading_zeros_length).
    apply not_eq_sym, of_nat_compare_ne in Ez. by destruct (_ ?= _).
Qed.

(** Two mismatched characters that are not both digits. *)
Lemma plain_compare x y : char_at x 0 <> char_at y 0 ->
  isdigit (char_at x 0) = false \/ isdigit (char_at y 0) = false ->
  sign (schar (char_at x 0) - schar (char_at y 0)) = key_compare (natural_key false x) (natural_key false y).
Proof.
  intros Hne Hd. rewrite schar_sign.
  destruct (natural_key_head x) as [k1 ->], (natural_key_head y) as [k2 ->]. cbn [key_compare].
  assert (Hs : schar (char_at x 0) <> schar (char_at y 0)) by (intros E; by apply schar_inj in E).
  destruct (isdigit (char_at x 0)) eqn:D1; [|destruct (isdigit (char_at y 0)) eqn:D2].
  - destruct Hd as [|D2]; [done|]. rewrite D2. apply schar_digit in D1. apply schar_nondigit in D2.
    destruct (Z.compare_spec 48 (schar (char_at y 0))), (Z.compare_spec (schar (char_at x 0)) (schar (char_at y 0)));
      done || lia.
  - apply schar_nondigit in D1. apply schar_digit in D2.
    destruct (Z.compare_spec (schar (char_at x 0)) 48), (Z.compare_spec (schar (char_at x 0)) (schar (char_at y 0)));
      done || lia.
  - by destruct (Z.compare_spec (schar (char_at x 0)) (schar (char_at y 0))).
Qed.

Lemma natural_cmp_key s t : no_nul s -> no_nul t -> short s -> short t ->
  sign (natural_cmp s t) = key_compare (natural_key false s) (natural_key false t).
Proof.
  intros Ns Nt Ss St. destruct (mismatch_split s t Ns Nt) as (p&x&y&->&->&Em&Hxy).
  unfold natural_cmp. cbv zeta. rewrite Em, !char_at_end.
  destruct (Ascii.eqb_spec (char_at x 0) (char_at y 0)) as [E|E].
  { destruct (Hxy E) as [-> ->]. symmetry. by apply key_compare_eq. }
  destruct (digits_begin_split p x) as (q&r&->&Hr&Hq&->). clear Hxy Em.
  rewrite <- !app_assoc, !drop_app_length, natural_key_after by done.
  rewrite <- !app_assoc in Ss, St. apply short_drop in Ss, St. rewrite length_app.
  destruct (_ && _) eqn:B.
  - apply andb_prop in B as [Hn Hd]. apply Nat.eqb_eq in Hn.
    assert (r = []) as -> by (apply length_zero_iff_nil; lia). apply plain_compare; [done|].
    by apply orb_prop in Hd as [?%negb_true_iff|?%negb_true_iff]; [left|right].
  - apply (number_compare r x y); try done; destruct r as [|c r];
      try (by apply andb_prop in Hr as []); simpl in B; rewrite Nat.add_0_r, Nat.eqb_refl in B;
      by apply orb_false_iff in B as [?%negb_false_iff ?%negb_false_iff].
Qed.

Lemma natural_key_nonempty b s : natural_key b s <> [].
Proof. destruct s as [|c s]; simpl; [done|]. destruct (isdigit c), b; done. Qed.

Lemma natural_key_inj b s t : natural_key b s = natural_key b t -> no_nul s -> no_nul t -> s = t.
Proof.
  revert b t. induction s as [|c s IH]; intros b t H Hs Ht.
  - destruct t as [|d t]; [done|]. simpl in H. destruct (isdigit d), b; cbn [app] in H; injection H as H0 H1; try discriminate H1;
      exfalso; eapply natural_key_nonempty; eauto using eq_sym.
  - destruct t as [|d t].
    { simpl in H. destruct (isdigit c), b; cbn [app] in H; injection H as H0 H1; try discriminate H1;
        exfalso; eapply natural_key_nonempty; eauto using eq_sym. }
    apply no_nul_cons in Hs as [_ Hs], Ht as [_ Ht]. cbn [natural_key] in H.
    destruct (isdigit c) eqn:D1, (isdigit d) eqn:D2.
    + assert (schar c :: natural_key true s = schar d :: natural_key true t) as [= E1%schar_inj E2].
      { destruct b; [done|]. cbn [app] in H. injection H. intros. by f_equal. }
      rewrite E1. f_equal. by apply (IH true).
    + apply schar_digit in D1. pose proof (schar_nondigit d D2).
      destruct b; cbn [app] in H; injection H; intros; lia.
    + apply schar_digit in D2. pose proof (schar_nondigit c D1).
      destruct b; cbn [app] in H; injection H; intros; lia.
    + injection H as E1%schar_inj E2. rewrite E1. f_equal. by apply (IH false).
Qed.

(** C9: [natural_cmp] is a total order of C strings: it is zero on equal strings only,
    swapping the arguments swaps the sign, and it is transitive, although the comparison of
    two strings depends on where they differ and on the digits around that place. *)
Theorem natural_cmp_total_order s t u :
  no_nul s -> no_nul t -> no_nul u -> short s -> short t -> short u ->
  (natural_cmp s t = 0 <-> s = t) /\
  sign (natural_cmp t s) = CompOpp (sign (natural_cmp s t)) /\
  (natural_cmp s t <= 0 -> natural_cmp t u <= 0 -> natural_cmp s u <= 0).
Proof.
  intros Ns Nt Nu Ss St Su. split_and!.
  - rewrite <- Z.compare_eq_iff. change (natural_cmp s t ?= 0) with (sign (natural_cmp s t)).
    rewrite natural_cmp_key, key_compare_eq by done.
    split; [intros H; by eapply natural_key_inj|by intros ->].
  - rewrite !natural_cmp_key by done. apply key_compare_antisym.
  - unfold Z.le. change (?z ?= 0) with (sign z). rewrite !natural_cmp_key by done. apply key_compare_le.
Qed.

(** ** Numbers in the texts *)
Lemma digits_value_number d : forallb isdigit d = true -> forall v,
  digits_value v d = v * 10 ^ Z.of_nat (length d) + digits_value 0 d /\
  0 <= digits_value 0 d < 10 ^ Z.of_nat (length d).
Proof.
  induction d as [|c d IH]; intros Hd v.
  { simpl. lia. }
  simpl in Hd. apply andb_prop in Hd as [Hc Hd]. cbn [digits_value length]. rewrite Hc.
  rewrite Nat2Z.inj_succ, Z.pow_succ_r by lia.
  destruct (IH Hd (v * 10 + digit_value c)) as [-> _], (IH Hd (0 * 10 + digit_value c)) as [-> Hb].
  assert (0 <= digit_value c <= 9).
  { unfold isdigit, between in Hc. apply andb_prop in Hc as [H1%Z.leb_le H2%Z.leb_le].
    unfold digit_value. change (code "0") with 48 in H1. change (code "9") with 57 in H2. lia. }
  nia.
Qed.

Lemma digits_compare d : forall e k k', length d = length e ->
  forallb isdigit d = true -> forallb isdigit e = true ->
  key_compare ((schar <$> d) ++ k) ((schar <$> e) ++ k') =
  match digits_value 0 d ?= digits_value 0 e with Eq => key_compare k k' | r => r end.
Proof.
  induction d as [|c d IH]; intros [|c' e] k k' Hl Hd He; try done.
  simpl in Hd, He. apply andb_prop in Hd as [Hc Hd], He as [Hc' He]. injection Hl as Hl.
  cbn [digits_value fmap list_fmap app key_compare]. rewrite Hc, Hc', (IH e k k') by done.
  assert (Hv : forall x, isdigit x = true -> schar x = digit_value x + 48).
  { intros x Hx. unfold isdigit, between in Hx. apply andb_prop in Hx as [H1%Z.leb_le H2%Z.leb_le].
    change (code "0") with 48 in H1. change (code "9") with 57 in H2.
    unfold schar, digit_value. destruct (Z.ltb_spec (code x) 128); lia. }
  rewrite !Hv by done.
  destruct (digits_value_number d Hd (0 * 10 + digit_value c)) as [-> B1].
  destruct (digits_value_number e He (0 * 10 + digit_value c')) as [-> B2]. rewrite <- Hl in *.
  destruct (Z.compare_spec (digit_value c + 48) (digit_value c' + 48)).
  - replace (digit_value c') with (digit_value c) by lia. by rewrite Zcompare_plus_compat.
  - symmetry. match goal with |- match ?x with _ => _ end = _ => replace x with Lt; [done|] end.
    symmetry. apply Z.compare_lt_iff. nia.
  - symmetry. match goal with |- match ?x with _ => _ end = _ => replace x with Gt; [done|] end.
    symmetry. apply Z.compare_gt_iff. nia.
Qed.

(** The decimal text of a number [l], and what follows it. *)
Lemma decimal_value l d : decimal_digits l d -> digits_value 0 d = l /\
  l < 10 ^ Z.of_nat (length d) /\ ((1 < length d)%nat -> 10 ^ Z.of_nat (length d - 1) <= l).
Proof.
  intros [Dd Dn Dv Dh]. assert (Hval : digits_value 0 d = l).
  { rewrite <- (app_nil_r d), Dv. simpl. done. }
  destruct (digits_value_number d Dd 0) as [_ B]. split; [done|]. split; [lia|]. intros Hl.
  rewrite <- Hval. destruct d as [|c d]; [done|]. simpl in Dd. apply andb_prop in Dd as [Hc Hd].
  cbn [digits_value]. rewrite Hc. destruct (digits_value_number d Hd (0 * 10 + digit_value c)) as [-> B'].
  simpl length in *. rewrite Nat.sub_succ, Nat.sub_0_r.
  assert (digit_value c <> 0).
  { intros E. assert (c = "0"%char) as ->; [|specialize (Dh eq_refl); injection Dh as ->; simpl in Hl; lia].
    unfold digit_value, code in E. rewrite <- (ascii_nat_embedding c).
    by replace (nat_of_ascii c) with 48%nat by lia. }
  apply andb_prop in Hc as [H1%Z.leb_le _]. change (code "0") with 48 in H1. unfold digit_value in *. nia.
Qed.

Lemma count_while_prefix p d x : forallb p d = true -> stops_at p x -> count_while p (d ++ x) = length d.
Proof.
  induction d as [|c d IH]; intros Hd Hx; simpl in *.
  - destruct x as [|c x]; simpl in *; [done|]. by rewrite Hx.
  - apply andb_prop in Hd as [-> Hd]. by rewrite IH.
Qed.

Lemma decimal_leading_zeros l d x : decimal_digits l d -> stops_at isdigit x -> leading_zeros (d ++ x) = 0%nat.
Proof.
  intros [Dd Dn _ Dh] Hx. destruct d as [|c d]; [done|]. unfold leading_zeros.
  cbn [app count_while]. destruct (Ascii.eqb_spec "0" c) as [<-|]; [|done].
  injection (Dh eq_refl) as ->. destruct x as [|c x]; [done|]. simpl in Hx.
  cbn [app count_while]. rewrite zero_digit by done.
  change (char_at ("0"%char :: c :: x) 1) with c. by rewrite Hx.
Qed.

Lemma decimal_key l d x : decimal_digits l d -> stops_at isdigit x -> natural_key false (d ++ x) =
  48 :: 0 :: Z.of_nat (length d) :: (schar <$> d) ++ natural_key true x.
Proof.
  intros Hd Hx. rewrite natural_key_number.
  - rewrite (decimal_leading_zeros l) by done. unfold number_length.
    rewrite count_while_prefix by (done || apply Hd). by rewrite natural_key_in_number by apply Hd.
  - destruct Hd as [Dd Dn _ _]. destruct d as [|c d]; [done|]. by apply andb_prop in Dd as [].
Qed.

Lemma decimal_compare a b d e x y : decimal_digits a d -> decimal_digits b e ->
  stops_at isdigit x -> stops_at isdigit y -> a <> b ->
  key_compare (natural_key false (d ++ x)) (natural_key false (e ++ y)) = (a ?= b).
Proof.
  intros Ha Hb Hx Hy Hne. rewrite (decimal_key a), (decimal_key b) by done.
  destruct (decimal_value a d Ha) as (Va&Ua&La), (decimal_value b e Hb) as (Vb&Ub&Lb).
  cbn [key_compare]. rewrite !Z.compare_refl.
  assert (0 < length d)%nat by (destruct Ha as [_ Dn _ _]; by destruct d; simpl; [|lia]).
  assert (0 < length e)%nat by (destruct Hb as [_ Dn _ _]; by destruct e; simpl; [|lia]).
  destruct (Z.compare_spec (Z.of_nat (length d)) (Z.of_nat (length e))) as [E|E|E].
  - rewrite digits_compare by (apply Ha || apply Hb || lia). rewrite Va, Vb.
    by destruct (Z.compare_spec a b).
  - symmetry. apply Z.compare_lt_iff.
    pose proof (Z.pow_le_mono_r 10 (Z.of_nat (length d)) (Z.of_nat (length e - 1))). lia.
  - symmetry. apply Z.compare_gt_iff.
    pose proof (Z.pow_le_mono_r 10 (Z.of_nat (length e)) (Z.of_nat (length d - 1))). lia.
Qed.

(** [natural_cmp] compares numbers inside texts by value: when two strings agree up to a
    place where each has a decimal number, and the numbers differ, the sign is that of the
    numbers, whatever their lengths and whatever comes after them. *)
Theorem natural_cmp_numbers p a b x y :
  ends_nondigit p -> 0 <= a <= two63 -> 0 <= b <= two63 -> a <> b ->
  stops_at isdigit x -> stops_at isdigit y ->
  no_nul (p ++ digits a ++ x) -> no_nul (p ++ digits b ++ y) ->
  short (p ++ digits a ++ x) -> short (p ++ digits b ++ y) ->
  sign (natural_cmp (p ++ digits a ++ x) (p ++ digits b ++ y)) = (a ?= b).
Proof.
  intros Hp Ha Hb Hne Hx Hy Na Nb Sa Sb. rewrite natural_cmp_key, natural_key_after by done.
  apply (decimal_compare a b); try done; by apply digits_spec.
Qed.

Lemma natural_cmp_total_order_witness :
  natural_cmp (txt "8.9.13") (txt "8.10.2") < 0 /\
  (natural_cmp (txt "8.9.13") (txt "8.10.2") <= 0 -> natural_cmp (txt "8.10.2") (txt "8.10.2rc1") <= 0 ->
   natural_cmp (txt "8.9.13") (txt "8.10.2rc1") <= 0).
Proof.
  split; [vm_compute; reflexivity|].
  apply (natural_cmp_total_order (txt "8.9.13") (txt "8.10.2") (txt "8.10.2rc1"));
    first [by vm_compute; repeat (constructor; [discriminate|]); constructor|by vm_compute].
Defined.

Lemma natural_cmp_numbers_witness :
  sign (natural_cmp (txt "8." ++ digits 9 ++ txt ".13") (txt "8." ++ digits 10 ++ txt ".2")) = Lt.
Proof.
  apply (natural_cmp_numbers (txt "8.") 9 10 (txt ".13") (txt ".2"));
    first [by right; exists (txt "8"), "."%char|by vm_compute; repeat (constructor; [discriminate|]); constructor|by vm_compute].
Defined.

(** The comment of the code says that fewer leading zeros come first; more do, as
    [strverscmp] has it. *)
Lemma more_zeros_first : natural_cmp (txt "1.05") (txt "1.5") = -1 /\ natural_cmp (txt "00") (txt "0") = -1.
Proof. by vm_compute. Qed.
