(* ===== verification/LexerLaws.v ===== *)
(** * The lexer: strings, names, and the state it keeps

    What the unparser writes for strings and names is read back as the token it stands
    for; the lexer never aborts; looking at a token does not use it. *)
From Stdlib Require Import ZArith Lia Ascii String.
From stdpp Require Import base list gmap strings.
From S2P Require Import Prelude Double Numerals Tree Values Lexer FlatMap AdStore Unparser LexerFacts.

(** ** Escapes *)

(** The character a backslash and [e] stand for. *)
Definition unescape (e : ascii) : ascii :=
  if Ascii.eqb e "a" then "007" else if Ascii.eqb e "b" then "008" else if Ascii.eqb e "f" then "012"
  else if Ascii.eqb e "n" then "010" else if Ascii.eqb e "r" then "013" else if Ascii.eqb e "t" then "009"
  else if Ascii.eqb e "v" then "011" else e.
Lemma convert_escapes_simple e s r v :
  isodigit e = false -> convert_escapes s = (r, v) ->
  convert_escapes ("\"%char :: e :: s) = (unescape e :: r, v).
Proof. intros He Hs. simpl. unfold unescape. rewrite He, Hs. by repeat case_match. Qed.

Lemma convert_escapes_octal d1 d2 d3 s r v :
  isodigit d1 = true -> isodigit d2 = true -> isodigit d3 = true ->
  (digit_value d1 * 8 + digit_value d2 <? 32) = true -> convert_escapes s = (r, v) ->
  let n := ((digit_value d1 * 8 + digit_value d2) * 8 + digit_value d3) mod 256 in
  convert_escapes ("\"%char :: d1 :: d2 :: d3 :: s) =
    (ascii_of_nat (Z.to_nat n) :: r, v && negb (n =? 0)%Z).
Proof.
  intros H1 H2 H3 Hn Hs. cbn zeta. simpl. rewrite H1, H2, Hn, H3, Hs.
  assert (H : forall x, isodigit x = false -> Ascii.eqb d1 x = false).
  { intros x Hx. apply eqb_ne. congruence. }
  by rewrite !H.
Qed.

(** Every escape is one of these two, or the character itself. *)
Definition escape_reads_back (delim c : ascii) : bool :=
  match escape_char delim c with
  | [x] => Ascii.eqb x c && negb (Ascii.eqb x "\")
  | [b; e] => Ascii.eqb b "\" && negb (isodigit e) && Ascii.eqb (unescape e) c
  | [b; d1; d2; d3] =>
      let n := ((digit_value d1 * 8 + digit_value d2) * 8 + digit_value d3) mod 256 in
      Ascii.eqb b "\" && isodigit d1 && isodigit d2 && isodigit d3 &&
      (digit_value d1 * 8 + digit_value d2 <? 32)%Z &&
      Ascii.eqb (ascii_of_nat (Z.to_nat n)) c && negb (n =? 0)%Z
  | _ => false
  end.
Lemma escape_char_reads_back delim c :
  is_quote delim = true -> c <> "000"%char -> escape_reads_back delim c = true.
Proof.
  intros Hq Hc. assert (H : (Ascii.eqb c "000" || escape_reads_back delim c) = true).
  { generalize c. apply by_chars. by destruct (is_quote_cases _ Hq) as [->| ->]. }
  by rewrite (eqb_ne c) in H.
Qed.

Lemma convert_escapes_char delim c s r v :
  is_quote delim = true -> c <> "000"%char -> convert_escapes s = (r, v) ->
  convert_escapes (escape_char delim c ++ s) = (c :: r, v).
Proof.
  intros Hq Hc Hs. pose proof (escape_char_reads_back delim c Hq Hc) as H. unfold escape_reads_back in H.
  destruct (escape_char delim c) as [|b [|d1 [|d2 [|d3 [|]]]]]; try done; simpl app;
    repeat match goal with H : _ && _ = true |- _ => apply andb_prop in H as [H ?] end;
    repeat match goal with H : Ascii.eqb _ _ = true |- _ => apply eqb_eq in H end; subst b.
  - simpl. by case_match; rewrite ?Hs.
  - rewrite (convert_escapes_simple d1 s r v); [by subst c|by apply negb_true_iff|done].
  - rewrite (convert_escapes_octal d1 d2 d3 s r v) by done. cbn zeta. subst c.
    match goal with E : negb _ = true |- _ => rewrite E end. by rewrite andb_true_r.
Qed.

Lemma convert_escapes_escape delim s :
  is_quote delim = true -> no_nul s -> convert_escapes (escape delim s) = (s, true).
Proof.
  intros Hq Hn. induction Hn as [|c s Hc Hs IH]; [done|].
  unfold escape. simpl. by apply convert_escapes_char.
Qed.

(** ** Quoted texts *)
Section strings.
Variable oldSemantics : bool.
Abbreviation lexes := (lexes oldSemantics false).

Lemma read_past_space_after lx1 delim k :
  inside lx1 (delim :: k) ->
  exists lx2, read_past_space (length (rest lx1)) lx1 =
    (match drop_ws k with c :: _ => Chr c | [] => EOF end, lx2) /\
  rest lx2 = List.tl (drop_ws k) /\ lexBuffer lx2 = lexBuffer lx1.
Proof.
  intros Hi. destruct (inside_cons _ _ _ Hi) as [_ Hr Hn]. apply no_nul_cons in Hn as [_ Hn].
  destruct (read_past_space_spec (length (rest lx1)) lx1) as [b E]; [by rewrite Hr|done|].
  rewrite E, Hr. destruct (drop_ws k) as [|c r]; eexists; done.
Qed.

(** One round of [string_pieces] reads a whole string. *)
Lemma string_pieces_spec n delim w k lx :
  is_quote delim = true -> inside lx (escape delim w ++ delim :: k) ->
  stops_at (Ascii.eqb delim) (drop_ws k) ->
  exists lx', string_pieces (S n) delim lx = (true, lx') /\ at_char delim lx' = false /\
    lexBuffer lx' = rev (escape delim w) ++ lexBuffer lx /\ ch lx' <> EMPTY /\
    upcoming lx' = drop_ws k.
Proof.
  intros Hq Hi Hk. destruct (scan_escape delim false w Hq) as [b Hrun].
  assert (Hstop : scan_step delim (b, false) delim = None).
  { unfold scan_step. simpl. by rewrite eqb_refl, andb_false_r. }
  assert (Hlen : (length (escape delim w) <= S (length (rest lx)))%nat).
  { destruct Hi as (Hu&He&_&_). unfold upcoming in Hu. destruct (ch lx); [done| |];
      apply (f_equal length) in Hu; rewrite length_app in Hu; simpl in Hu; lia. }
  assert (Hm := scan_string_moved delim _ _ lx (false, false) (b, false) k Hrun Hstop Hi Hlen).
  assert (Hi1 := moved_no_nul _ _ _ _ _ Hi eq_refl Hm). cbn [string_pieces]. simpl fst in *. simpl snd in *.
  set (lx1 := scan_string _ _ _ _ _) in *.
  unfold at_char at 1, ch_is. rewrite (holds_ch _ _ _ (inside_cons _ _ _ Hi1)), eqb_refl.
  destruct (read_past_space_after lx1 delim k Hi1) as (lx2&->&Hr&Hb).
  assert (Hb2 : lexBuffer lx2 = rev (escape delim w) ++ lexBuffer lx).
  { rewrite Hb. by destruct Hm as [_ _ -> _]. }
  destruct (drop_ws k) as [|c r] eqn:E.
  - eexists. split; [done|]. unfold at_char, ch_is, upcoming. simpl. by split_and!.
  - simpl in Hk, Hr. rewrite Ascii.eqb_sym, Hk. eexists. split; [done|].
    unfold at_char, ch_is, upcoming. simpl. split_and!; try done. by rewrite Hr.
Qed.

Lemma lexes_quoted prev delim s k :
  is_quote delim = true -> no_nul (txt s) -> stops_at (Ascii.eqb delim) (drop_ws k) ->
  lexes prev (delim :: escape delim (txt s) ++ delim :: k) (string_token delim s) k.
Proof.
  intros Hq Hs Hk.
  assert (Hd : drop_ws (delim :: escape delim (txt s) ++ delim :: k) =
               delim :: escape delim (txt s) ++ delim :: k).
  { by destruct (is_quote_cases _ Hq) as [->| ->]. }
  apply (lexes_intro _ _ _ _ _ _ _ _ Hd); [by destruct (is_quote_cases _ Hq) as [->| ->]|].
  intros lx (Hh&_&_).
  assert (E : next_token oldSemantics false lx = Some (tokenizeString false delim lx)).
  { unfold next_token. rewrite (holds_ch _ _ _ Hh). by destruct (is_quote_cases _ Hq) as [->| ->]. }
  rewrite E. clear E.
  assert (Hi : inside (mark (wind lx)) (escape delim (txt s) ++ delim :: k)).
  { rewrite (wind_holds _ _ _ Hh). destruct Hh as [_ _ Hn]. apply no_nul_cons in Hn as [_ Hn].
    set (t := escape delim (txt s) ++ delim :: k) in *. unfold inside. split_and!; try done.
    - change (upcoming (wound lx delim t) = t). apply wound_upcoming.
    - by apply wound_fields. }
  unfold tokenizeString. cbn zeta.
  destruct (string_pieces_spec (length (rest lx)) delim (txt s) k _ Hq Hi Hk) as (lx1&->&H1&H2&H3&H4).
  cbn [negb]. change (at_char delim (cut lx1)) with (at_char delim lx1). rewrite H1.
  assert (Hb : buffer (cut lx1) = escape delim (txt s)).
  { unfold buffer. simpl. rewrite H2. simpl. by rewrite app_nil_r, rev_involutive. }
  rewrite Hb, convert_escapes_escape by done. eexists. split.
  - do 3 f_equal. unfold txt. by rewrite string_of_list_ascii_of_string.
  - destruct Hi as (_&_&_&Hn). apply no_nul_app in Hn as [_ Hn]. apply no_nul_cons in Hn as [_ Hn].
    assert (Hu : upcoming (cut lx1) = drop_ws k) by done.
    split; [by rewrite Hu, drop_ws_idem|]. rewrite Hu. by apply drop_ws_no_nul.
Qed.
End strings.

(** ** Quoted texts in the old syntax *)

(** The strings that are read back: a quote before a newline ends the string, and so does
    the closing quote only if no backslash is before it. *)
Fixpoint fits_old (delim : ascii) (s : text) : bool :=
  match s with
  | [] => true
  | c :: s' =>
      match s' with
      | [] => negb (Ascii.eqb c "\")
      | d :: _ => negb (Ascii.eqb c delim && Ascii.eqb d "010")
      end && fits_old delim s'
  end.

Section old_strings.
Variable oldSemantics : bool.
Abbreviation lexes := (lexes oldSemantics true).

Lemma escape_old_cons delim c s :
  escape_old delim (c :: s) = (if Ascii.eqb c delim then ["\"%char; c] else [c]) ++ escape_old delim s.
Proof. done. Qed.
Lemma escape_old_id delim s : forallb (fun c => negb (Ascii.eqb c delim)) s = true -> escape_old delim s = s.
Proof.
  induction s as [|c s IH]; [done|]. cbn [forallb]. intros [Hc Hs]%andb_prop. rewrite escape_old_cons, IH by done.
  apply negb_true_iff in Hc. by rewrite Hc.
Qed.
Lemma escape_old_length delim s : (length s <= length (escape_old delim s))%nat.
Proof.
  induction s as [|c s IH]; [done|]. rewrite escape_old_cons, length_app. destruct (Ascii.eqb c delim); simpl; lia.
Qed.
Lemma escape_old_app delim s s' : escape_old delim (s ++ s') = escape_old delim s ++ escape_old delim s'.
Proof. unfold escape_old. apply bind_app. Qed.
Lemma escape_old_first delim s k : exists c r, escape_old delim s ++ delim :: k = c :: r /\
  (c = "010"%char -> delim = "010"%char \/ head s = Some "010"%char).
Proof.
  destruct s as [|c s]; [by eexists _, _; split; [reflexivity|left]|]. rewrite escape_old_cons.
  destruct (Ascii.eqb_spec c delim) as [->|]; eexists _, _; (split; [reflexivity|]); [done|]. intros ->. by right.
Qed.

(** The first delimiter of a string. *)
Lemma split_delim delim (s : text) : forallb (fun c => negb (Ascii.eqb c delim)) s = true \/
  exists w1 w2, s = w1 ++ delim :: w2 /\ forallb (fun c => negb (Ascii.eqb c delim)) w1 = true.
Proof.
  induction s as [|c s [IH|(w1&w2&->&IH)]]; [by left| |].
  - destruct (Ascii.eqb_spec c delim) as [->|Hne]; [right; by exists [], s|left].
    simpl. rewrite IH. by rewrite eqb_ne.
  - right. destruct (Ascii.eqb_spec c delim) as [->|Hne]; [by exists [], (w1 ++ delim :: w2)|].
    exists (c :: w1), w2. split; [done|]. simpl. rewrite IH. by rewrite eqb_ne.
Qed.
Lemma fits_old_tail delim w1 w2 : fits_old delim (w1 ++ w2) = true -> fits_old delim w2 = true.
Proof. induction w1 as [|c w1 IH]; [done|]. cbn [app fits_old]. intros [_ H]%andb_prop. auto. Qed.
Lemma fits_old_last delim w c : fits_old delim (w ++ [c]) = true -> c <> "\"%char.
Proof. intros H%fits_old_tail ->. by cbn in H. Qed.
Lemma fits_old_quote delim w1 w2 : fits_old delim (w1 ++ delim :: w2) = true -> head w2 <> Some "010"%char.
Proof.
  intros H%fits_old_tail. destruct w2 as [|d w2]; [done|]. cbn [fits_old] in H. apply andb_prop in H as [H _].
  rewrite eqb_refl in H. simpl in *. intros [= ->]. done.
Qed.

(** The characters up to the next delimiter, and the last of them. *)
Lemma round_old lx w delim k : inside lx (w ++ delim :: k) -> forallb (fun c => negb (Ascii.eqb c delim)) w = true ->
  let lx1 := wind_while (fun c => negb (Ascii.eqb c delim)) lx in
  moved lx w lx1 (delim :: k) /\ inside lx1 (delim :: k) /\
  (if (length (rest lx1) <? length (rest lx))%nat then head (lexBuffer lx1) else None) = last w.
Proof.
  intros Hi Hw lx1.
  assert (Hm : moved lx w lx1 (delim :: k)).
  { apply wind_while_moved; [simpl; by rewrite eqb_refl|done|done]. }
  assert (Hi1 := moved_no_nul _ _ _ _ _ Hi eq_refl Hm). split; [done|]. split; [done|].
  assert (Hr : length (rest lx) = (length (rest lx1) + length w)%nat).
  { destruct (inside_cons _ _ _ Hi1) as [_ Hr1 _]. rewrite Hr1. destruct Hi as (Hu&He&_&_). unfold upcoming in Hu.
    destruct (ch lx); [done| |].
    - apply (f_equal length) in Hu. rewrite length_app in Hu. simpl in Hu. lia.
    - apply (f_equal length) in Hu. rewrite length_app in Hu. simpl in Hu. lia. }
  destruct Hm as [_ _ -> _]. destruct w as [|c w] using rev_ind.
  - simpl in Hr. rewrite (proj2 (Nat.ltb_ge _ _)) by lia. done.
  - rewrite (proj2 (Nat.ltb_lt _ _)) by (rewrite length_app in Hr; simpl in Hr; lia).
    by rewrite rev_app_distr, last_snoc.
Qed.

(** The loop reads a string up to the delimiter that closes it. *)
Lemma string_old_spec delim n : forall w lx k, is_quote delim = true ->
  inside lx (escape_old delim w ++ delim :: k) -> fits_old delim w = true -> (length w < n)%nat ->
  exists lx', string_old n delim lx = (true, lx') /\ holds lx' delim k /\
    lexBuffer lx' = rev w ++ lexBuffer lx /\ accumulating lx' = true.
Proof.
  induction n as [|n IH]; intros w lx k Hq Hi Hf Hn; [lia|]. cbn [string_old]. cbn zeta.
  destruct (split_delim delim w) as [Hw|(w1&w2&->&Hw1)].
  - rewrite escape_old_id in Hi by done. destruct (round_old _ _ _ _ Hi Hw) as (Hm&Hi1&E). rewrite E.
    set (lx1 := wind_while _ lx) in *. assert (Hh := inside_cons _ _ _ Hi1).
    unfold at_char at 1, ch_is. rewrite (holds_ch _ _ _ Hh), eqb_refl.
    assert (Hlast : match last w with Some o => Ascii.eqb o "\" | None => false end = false).
    { destruct w as [|c w _] using rev_ind; [done|]. rewrite last_snoc. apply eqb_ne. by eapply fits_old_last. }
    exists lx1. destruct Hm as [_ _ Hb Ha].
    split; [by destruct (last w) as [o|]; [rewrite Hlast|]|]. split_and!; [done..|]. by destruct Hi1 as (_&_&?&_).
  - assert (Hne : Ascii.eqb "\" delim = false) by (by destruct (is_quote_cases _ Hq) as [->| ->]).
    rewrite escape_old_app, escape_old_cons, eqb_refl, escape_old_id in Hi by done.
    assert (Hi' : inside lx ((w1 ++ ["\"%char]) ++ delim :: (escape_old delim w2 ++ delim :: k))).
    { rewrite <- !app_assoc in Hi |- *. exact Hi. }
    destruct (round_old _ _ _ _ Hi') as (Hm&Hi1&E).
    { rewrite forallb_app, Hw1. cbn [forallb andb]. by rewrite Hne. }
    rewrite E, last_snoc. set (lx1 := wind_while _ lx) in *. assert (Hh := inside_cons _ _ _ Hi1).
    unfold at_char at 1, ch_is. rewrite (holds_ch _ _ _ Hh), eqb_refl. cbn [Ascii.eqb eqb Bool.eqb].
    destruct (escape_old_first delim w2 k) as (c&r&Ec&Hc). destruct Hh as [_ Hr Hnul]. rewrite Ec in Hr, Hnul.
    apply no_nul_cons in Hnul as [_ Hnul]. apply no_nul_cons in Hnul as [Hc0 Hnul].
    rewrite (ReadCharacter_cons lx1 c r) by done. cbn iota beta.
    rewrite eqb_ne.
    2: { intros ->. destruct (Hc eq_refl) as [->|Hd]; [by destruct (is_quote_cases _ Hq)|].
         by apply (fits_old_quote delim w1 w2). }
    match goal with |- context [string_old n delim ?l] => set (lx2 := l) end.
    assert (Hi2 : inside lx2 (escape_old delim w2 ++ delim :: k)).
    { rewrite Ec. unfold lx2. split_and!; [done|done| |by apply no_nul_cons].
      by destruct Hi1 as (_&_&?&_). }
    destruct (IH w2 lx2 k Hq Hi2) as (lx'&E'&Hh'&Hb'&Ha').
    { by eapply (fits_old_tail delim (w1 ++ [delim])); rewrite <- app_assoc. }
    { rewrite length_app in Hn. simpl in Hn. lia. }
    exists lx'. split_and!; [done..| |done]. rewrite Hb'. unfold lx2. simpl. destruct Hm as [_ _ -> _].
    rewrite !rev_app_distr. simpl. rewrite <- !app_assoc. done.
Qed.

Lemma lexes_quoted_old prev delim s k :
  is_quote delim = true -> no_nul (txt s) -> fits_old delim (txt s) = true ->
  lexes prev (delim :: escape_old delim (txt s) ++ delim :: k) (string_token delim s) k.
Proof.
  intros Hq Hs Hf.
  assert (Hd : drop_ws (delim :: escape_old delim (txt s) ++ delim :: k) = delim :: escape_old delim (txt s) ++ delim :: k).
  { by destruct (is_quote_cases _ Hq) as [->| ->]. }
  apply (lexes_intro _ _ _ _ _ _ _ _ Hd); [by destruct (is_quote_cases _ Hq) as [->| ->]|].
  intros lx (Hh&_&_).
  assert (E : next_token oldSemantics true lx = Some (tokenizeString true delim lx)).
  { unfold next_token. rewrite (holds_ch _ _ _ Hh). by destruct (is_quote_cases _ Hq) as [->| ->]. }
  rewrite E. clear E. set (t := escape_old delim (txt s) ++ delim :: k) in *.
  assert (Hi : inside (mark (wind lx)) t).
  { rewrite (wind_holds _ _ _ Hh). destruct Hh as [_ _ Hn]. apply no_nul_cons in Hn as [_ Hn].
    unfold inside. split_and!; try done.
    - change (upcoming (wound lx delim t) = t). apply wound_upcoming.
    - by apply wound_fields. }
  unfold tokenizeString. cbn zeta.
  destruct (string_old_spec delim (S (length (rest lx))) (txt s) _ k Hq Hi Hf) as (lx1&->&Hh1&Hb1&_).
  { destruct Hh as [_ -> _]. unfold t. rewrite length_app. simpl.
    pose proof (escape_old_length delim (txt s)). lia. }
  cbn [negb]. unfold at_char, ch_is. change (ch (cut lx1)) with (ch lx1).
  rewrite (holds_ch _ _ _ Hh1), eqb_refl. eexists. split.
  - do 3 f_equal. unfold buffer_string, buffer, wind_last, accumulate. simpl. rewrite (holds_ch _ _ _ Hh1). simpl.
    rewrite Hb1. simpl. rewrite app_nil_r, rev_involutive. unfold txt. by rewrite string_of_list_ascii_of_string.
  - destruct Hh1 as [Hc Hr Hn]. apply no_nul_cons in Hn as [_ Hn].
    unfold wind_last, accumulate. simpl. rewrite Hc. simpl. split; unfold upcoming; simpl; by rewrite Hr.
Qed.
End old_strings.

(** ** Strings in either syntax *)
Section either.
Variables oldSemantics oldClassAdLex : bool.
Abbreviation lexes := (lexes oldSemantics oldClassAdLex).

Definition fits (delim : ascii) (s : string) : bool := negb oldClassAdLex || fits_old delim (txt s).
Lemma lexes_quoted_in prev delim s k :
  is_quote delim = true -> no_nul (txt s) -> fits delim s = true -> stops_at (Ascii.eqb delim) (drop_ws k) ->
  lexes prev (delim :: escape_in oldClassAdLex delim (txt s) ++ delim :: k) (string_token delim s) k.
Proof.
  unfold fits, escape_in. destruct oldClassAdLex; simpl; intros; [by apply lexes_quoted_old|by apply lexes_quoted].
Qed.

Lemma lexes_string prev s k :
  no_nul (txt s) -> fits dquote s = true -> stops_at (Ascii.eqb dquote) (drop_ws k) ->
  lexes prev (UnparseString oldClassAdLex dquote s ++ k) (LEX_STRING_VALUE s) k.
Proof.
  intros Hs Hf Hk. unfold UnparseString. simpl. rewrite <- app_assoc. by apply (lexes_quoted_in _ dquote).
Qed.

(** ** Names *)

(** A text of word characters escapes nothing. *)
Lemma escape_word delim s : is_quote delim = true -> forallb isword (escape delim s) = true -> escape delim s = s.
Proof.
  intros Hq. induction s as [|c s IH]; [done|].
  change (escape delim (c :: s)) with (escape_char delim c ++ escape delim s).
  rewrite forallb_app. intros [Hc Hs]%andb_prop. rewrite IH by done.
  assert (H : (negb (forallb isword (escape_char delim c)) || bool_decide (escape_char delim c = [c])) = true).
  { generalize c. apply by_chars. by destruct (is_quote_cases _ Hq) as [->| ->]. }
  rewrite Hc in H. simpl in H. by apply bool_decide_eq_true in H as ->.
Qed.

Lemma needs_no_quoting s :
  identifierNeedsQuoting s = false -> is_word s = true /\ attr_key (string_of_list_ascii s) ∉ reserved_words.
Proof.
  unfold identifierNeedsQuoting. intros [H1 H2]%orb_false_iff. apply bool_decide_eq_false in H2.
  split; [|done]. destruct s as [|c s]; [done|].
  apply orb_false_iff in H1 as [H1%negb_false_iff H3%negb_false_iff]. simpl. unfold word_char. by rewrite H1, H3.
Qed.
Lemma reserved_word_none s : attr_key s ∉ reserved_words -> reserved_word s = LEX_IDENTIFIER s.
Proof.
  unfold reserved_words, reserved_word. intros H.
  repeat (rewrite bool_decide_false; [|intros E; rewrite E in H; set_solver]). done.
Qed.
Lemma is_word_all w : is_word w = true -> forallb isword w = true.
Proof.
  destruct w as [|c w]; simpl; [done|]. intros [H ->]%andb_prop. rewrite isword_split.
  unfold word_char in H. destruct (isalpha c); [done|]. simpl in *. by rewrite H, orb_true_r.
Qed.

Lemma escape_in_word delim s : is_quote delim = true -> forallb isword (escape_in oldClassAdLex delim s) = true ->
  escape_in oldClassAdLex delim s = s.
Proof.
  unfold escape_in. destruct oldClassAdLex; [|apply escape_word]. intros Hq H. apply escape_old_id.
  induction s as [|c s IH]; [done|]. rewrite escape_old_cons, forallb_app in H. apply andb_prop in H as [Hc Hs].
  simpl. rewrite IH by done. destruct (Ascii.eqb_spec c delim) as [->|]; [|done].
  by destruct (is_quote_cases _ Hq) as [->| ->].
Qed.

(** What may follow a name: neither a word character nor, after white space, a quote. *)
Definition stops_name (k : text) : Prop := stops_at isword k /\ stops_at is_quote (drop_ws k).

(** A word that [unparse_name] leaves as it is. *)
Definition plain_word (s : string) : Prop := identifierNeedsQuoting (txt s) = false.
Lemma lexes_plain_word prev s k :
  plain_word s -> stops_at isword k -> lexes prev (txt s ++ k) (LEX_IDENTIFIER s) k.
Proof.
  intros Hs Hk. destruct (needs_no_quoting _ Hs) as [Hw Hr]. unfold txt in Hr.
  rewrite string_of_list_ascii_of_string in Hr.
  assert (E : LEX_IDENTIFIER s = word_token (txt s)); [|rewrite E; by apply lexes_word].
  unfold word_token, txt. rewrite string_of_list_ascii_of_string. rewrite reserved_word_none by done. by case_match.
Qed.

Lemma lexes_name prev s k :
  no_nul (txt s) -> fits squote s = true -> stops_name k ->
  lexes prev (unparse_name oldClassAdLex s ++ k) (LEX_IDENTIFIER s) k.
Proof.
  intros Hs Hf [Hk1 Hk2]. unfold unparse_name. destruct (identifierNeedsQuoting _) eqn:E.
  - simpl. rewrite <- app_assoc. apply (lexes_quoted_in _ squote); [done|done|done|].
    apply (stops_weaken is_quote); [|done]. by intros c <-%eqb_eq.
  - assert (Hw : escape_in oldClassAdLex squote (txt s) = txt s).
    { apply escape_in_word; [done|]. by apply is_word_all, needs_no_quoting. }
    rewrite Hw in *. by apply lexes_plain_word.
Qed.
End either.

(** ** Unary operators and points *)
Section unary.
Variables oldSemantics oldClassAdLex : bool.
Abbreviation lexes := (lexes oldSemantics oldClassAdLex).

(** What may follow a minus sign: nothing that begins a number. *)
Definition stops_minus (k : text) : Prop :=
  stops_at isdigit k /\ match k with "."%char :: r => stops_at isdigit r | _ => True end.

Lemma wind_mark lx c r : holds lx c r ->
  let lx' := wind (mark lx) in upcoming lx' = r /\ ch lx' <> EMPTY /\ no_nul (upcoming lx').
Proof.
  intros Hh. cbn zeta. assert (Hm := wind_moved _ _ _ (mark_inside _ _ _ Hh)).
  destruct Hm as [-> ? _ _]. destruct Hh as [_ _ Hn]. by apply no_nul_cons in Hn as [_ Hn].
Qed.
Lemma cut_reads lx k : upcoming lx = k -> no_nul (upcoming lx) -> reads (cut lx) k.
Proof. intros Hu Hn. split; [|done]. by change (drop_ws (upcoming lx) = drop_ws k); rewrite Hu. Qed.

Lemma ch_is_upcoming p lx : ch lx <> EMPTY ->
  ch_is p lx = match upcoming lx with c :: _ => p c | [] => false end.
Proof. unfold ch_is, upcoming. by destruct (ch lx). Qed.

Lemma tokenizeNumber_minus lx k :
  holds lx "-" k -> stops_minus k ->
  exists lx', tokenizeNumber oldSemantics lx = Some (LEX_MINUS, lx') /\ reads lx' k.
Proof.
  intros Hh [Hk1 Hk2]. unfold tokenizeNumber. rewrite (holds_ch _ _ _ Hh). cbn -[wind mark].
  destruct (wind_mark _ _ _ Hh) as (Hu&He&Hn). cbn zeta in *. set (lx1 := wind (mark lx)) in *.
  destruct (ch lx1) as [| |c1] eqn:E; [done|eexists; split; [done|by apply cut_reads]|].
  assert (Hk : k = c1 :: rest lx1) by (by rewrite <- Hu; unfold upcoming; rewrite E).
  rewrite Hk in Hk1. simpl in Hk1. rewrite Hk1.
  destruct (Ascii.eqb_spec c1 ".") as [->|]; [|eexists; split; [done|by apply cut_reads]].
  rewrite Hk in Hk2. simpl in Hk2. rewrite Hu in Hn. rewrite Hk in Hn. apply no_nul_cons in Hn as [_ Hn].
  destruct (rest lx1) as [|d r] eqn:Er.
  - rewrite ReadCharacter_nil by done. eexists. split; [done|].
    apply cut_reads; [done|]. rewrite Hu, Hk. by apply no_nul_cons.
  - apply no_nul_cons in Hn as [Hd Hr]. rewrite (ReadCharacter_cons _ d r) by done.
    simpl in Hk2. rewrite Hk2. eexists. split; [done|].
    destruct lx1; simpl in *; subst. apply cut_reads; [done|]. by repeat (apply no_nul_cons; split; [done|]).
Qed.

Lemma lexes_not prev k : stops_at (Ascii.eqb "=") k -> lexes prev (opString LOGICAL_NOT_OP ++ k) LEX_LOGICAL_NOT k.
Proof.
  intros Hk. eapply lexes_intro; [reflexivity|done|]. intros lx (Hh&Ht&_).
  unfold next_token. rewrite (holds_ch _ _ _ Hh). cbn -[tokenizePunctOperator].
  assert (E : tokenizePunctOperator lx =
    let r := longer LEX_LOGICAL_NOT LEX_NOT_EQUAL "=" (fetch (wind_last (mark lx))) in (r.1, cut r.2)).
  { unfold tokenizePunctOperator. by rewrite (holds_ch _ _ _ Hh). }
  rewrite E. cbn zeta. destruct Hh as [H1 H2 H3]. apply no_nul_cons in H3 as [_ H3].
  assert (Hempty : ch (wind_last (mark lx)) = EMPTY /\ rest (wind_last (mark lx)) = k).
  { unfold wind_last, accumulate. simpl. rewrite H1. by split. }
  destruct Hempty as [Hempty1 Hempty2]. rewrite (fetch_empty _ k) by done.
  set (lx0 := wind_last (mark lx)) in *. unfold longer, at_char, ch_is. destruct k as [|c k].
  - eexists. split; [done|]. by apply cut_reads.
  - simpl in Hk. simpl. rewrite Hk. eexists. split; [done|]. by apply cut_reads.
Qed.

Lemma lexes_unary prev op k :
  is_unary op = true -> ends_operand prev = false -> stops_at (Ascii.eqb "=") k ->
  (op = UNARY_MINUS_OP -> stops_minus k) ->
  lexes prev (opString op ++ k) (op_token op) k.
Proof.
  intros Hop Hprev Hk Hm. destruct op; try discriminate Hop.
  - by eapply lexes_single.
  - eapply lexes_intro; [reflexivity|done|]. intros lx (Hh&Ht&_).
    unfold next_token. rewrite (holds_ch _ _ _ Hh), Ht, Hprev. cbn -[tokenizeNumber].
    apply tokenizeNumber_minus; auto.
  - by apply lexes_not.
  - by eapply lexes_single.
Qed.

Lemma lexes_point prev k :
  stops_at isdigit k -> stops_at (Ascii.eqb ".") k -> lexes prev ("."%char :: k) LEX_SELECTION k.
Proof.
  intros Hk1 Hk2. eapply lexes_intro; [reflexivity|done|]. intros lx (Hh&_&_).
  unfold next_token. rewrite (holds_ch _ _ _ Hh). cbn -[tokenizeNumber].
  unfold tokenizeNumber. rewrite (holds_ch _ _ _ Hh). cbn -[wind mark number_fraction].
  destruct (wind_mark _ _ _ Hh) as (Hu&He&Hn). cbn zeta in *. set (lx1 := wind (mark lx)) in *.
  assert (Hdot : at_char "." lx1 = false).
  { unfold at_char. rewrite ch_is_upcoming, Hu by done. by destruct k. }
  assert (Hdigit : ch_is isdigit lx1 = false).
  { rewrite ch_is_upcoming, Hu by done. by destruct k. }
  unfold number_fraction. cbn [orb]. cbn zeta. rewrite Hdot, Hdigit.
  eexists. split; [done|]. by apply cut_reads.
Qed.
End unary.
