(* ===== verification/LexerProgress.v ===== *)
(** * The lexer: every call returns and uses up text

    [PeekToken] and [ConsumeToken] never abort, a token that was looked at is the one
    consumed next, and every token but the end of input uses up a part of the text. *)
From Stdlib Require Import ZArith Lia Ascii String.
From stdpp Require Import base list gmap strings.
From S2P Require Import Prelude Double Numerals Tree Values Lexer FlatMap AdStore Unparser LexerFacts.

(** ** What is left to read

    An equals sign counts twice: at the end of the source the text [=!] is read as the
    token [=] and then the exclamation mark is read again. *)
Definition char_weight (c : ascii) : nat := if Ascii.eqb c "=" then 2 else 1.
Definition text_weight (s : text) : nat := sum_list_with char_weight s.
Definition weight (lx : Lexer) : nat := text_weight (upcoming lx).

Lemma char_weight_pos c : (1 <= char_weight c <= 2)%nat.
Proof. unfold char_weight. case_match; lia. Qed.
Lemma text_weight_length s : (length s <= text_weight s <= 2 * length s)%nat.
Proof.
  unfold text_weight. induction s as [|c s IH]; simpl; [lia|]. pose proof (char_weight_pos c). lia.
Qed.

(** [lx'] is the lexer after some of the text was read. *)
Definition adv (lx lx' : Lexer) : Prop :=
  tokenConsumed lx' = tokenConsumed lx /\ (weight lx' <= weight lx)%nat.
Definition adv1 (lx lx' : Lexer) : Prop :=
  tokenConsumed lx' = tokenConsumed lx /\ (weight lx' < weight lx)%nat.

#[export] Instance adv_preorder : PreOrder adv.
Proof. split; [by intros ?|]. intros x y z [? ?] [? ?]. split; [congruence|lia]. Qed.
Lemma adv1_adv lx lx' : adv1 lx lx' -> adv lx lx'.
Proof. intros [? ?]. split; [done|lia]. Qed.
Lemma adv1_then lx lx1 lx2 : adv1 lx lx1 -> adv lx1 lx2 -> adv1 lx lx2.
Proof. intros [? ?] [? ?]. split; [congruence|lia]. Qed.
Lemma adv_then1 lx lx1 lx2 : adv lx lx1 -> adv1 lx1 lx2 -> adv1 lx lx2.
Proof. intros [? ?] [? ?]. split; [congruence|lia]. Qed.

Lemma set_buffer_adv b acc lx : adv lx (set_buffer b acc lx).
Proof. by split. Qed.
Lemma cut_adv lx : adv lx (cut lx).
Proof. by split. Qed.
Lemma mark_adv lx : adv lx (mark lx).
Proof. by split. Qed.

Lemma upcoming_length lx : ch lx <> EMPTY -> (length (upcoming lx) <= S (length (rest lx)))%nat.
Proof. unfold upcoming. destruct (ch lx); simpl; [done|lia|lia]. Qed.

(** [ReadCharacter], with what it reads as the new current character. *)
Lemma ReadCharacter_fetched lx c lx' :
  ReadCharacter lx = (c, lx') -> tokenConsumed lx' = tokenConsumed lx /\ ch lx' = ch lx /\ c <> EMPTY /\
  lexBuffer lx' = lexBuffer lx /\ accumulating lx' = accumulating lx /\
  (text_weight (match c with Chr d => d :: rest lx' | _ => [] end) <= text_weight (rest lx))%nat /\
  (length (rest lx') <= length (rest lx))%nat /\ (text_weight (rest lx') <= text_weight (rest lx))%nat.
Proof.
  unfold ReadCharacter. destruct (rest lx) as [|d r] eqn:E; [intros [= <- <-]; rewrite E; simpl; split_and!; (done || lia)|].
  destruct (Ascii.eqb d "000"); intros [= <- <-]; simpl; rewrite ?E; unfold text_weight; simpl; split_and!; try done; lia.
Qed.

Lemma fetch_adv lx : adv lx (fetch lx).
Proof.
  unfold fetch. destruct (ch lx) eqn:E; [|done..]. destruct (ReadCharacter lx) as [c lx'] eqn:Er.
  destruct (ReadCharacter_fetched _ _ _ Er) as (H1&_&Hc&_&_&H2&_). split; [done|].
  unfold weight, upcoming in *. simpl. rewrite E. by destruct c.
Qed.

(** Winding past a character uses it up. *)
Lemma wind_adv1 lx c : ch lx = Chr c -> adv1 lx (wind lx).
Proof.
  intros Hc. assert (Ha : adv lx (accumulate lx) /\ rest (accumulate lx) = rest lx).
  { unfold accumulate. rewrite Hc. by case_match. }
  destruct Ha as [[Ha1 Ha2] Hr]. unfold wind. rewrite Hc.
  destruct (ReadCharacter (accumulate lx)) as [d lx'] eqn:Er.
  destruct (ReadCharacter_fetched _ _ _ Er) as (H1&_&Hd&_&_&H2&_). split; [simpl; congruence|].
  rewrite Hr in H2. unfold weight, upcoming in *. simpl. rewrite Hc.
  pose proof (char_weight_pos c). unfold text_weight in *. simpl. destruct d; simpl in *; [done|lia|lia].
Qed.
Lemma wind_adv lx : ch lx <> EMPTY -> adv lx (wind lx).
Proof.
  intros He. destruct (ch lx) as [| |c] eqn:E; [done| |by eapply adv1_adv, wind_adv1].
  unfold wind. by rewrite E.
Qed.
Lemma wind_last_adv1 lx c : ch lx = Chr c -> adv1 lx (wind_last lx).
Proof.
  intros Hc. unfold wind_last, accumulate. rewrite Hc. pose proof (char_weight_pos c).
  destruct (accumulating lx); (split; [done|]); unfold weight, upcoming, text_weight; simpl; rewrite Hc; simpl; lia.
Qed.
Lemma wind_last_adv lx : ch lx <> EMPTY -> adv lx (wind_last lx).
Proof.
  intros He. destruct (ch lx) as [| |c] eqn:E; [done| |by eapply adv1_adv, wind_last_adv1].
  unfold wind_last. by rewrite E.
Qed.

(** A lexer with a current character, or at the end of the source. *)
Definition fetched (lx : Lexer) : Prop := ch lx <> EMPTY.
Lemma wind_fetched lx : fetched (wind lx).
Proof.
  unfold fetched, wind. destruct (ch lx) eqn:E; [|congruence|];
    destruct (ReadCharacter _) eqn:Er; by destruct (ReadCharacter_fetched _ _ _ Er) as (_&_&?&_).
Qed.
Lemma wind_while_n_adv n p lx : fetched lx -> adv lx (wind_while_n n p lx) /\ fetched (wind_while_n n p lx).
Proof.
  revert lx. induction n as [|n IH]; intros lx Hl; simpl; [done|]. case_match; [|done].
  destruct (IH (wind lx) (wind_fetched lx)) as [Ha Hf]. split; [|done]. etrans; [by apply wind_adv|done].
Qed.
Lemma wind_while_adv p lx : fetched lx -> adv lx (wind_while p lx) /\ fetched (wind_while p lx).
Proof. apply wind_while_n_adv. Qed.
Lemma ch_is_Chr p lx : ch_is p lx = true -> exists c, ch lx = Chr c /\ p c = true.
Proof. unfold ch_is. destruct (ch lx); [done|done|]. eauto. Qed.

(** ** Tokens *)
Section tokens.
Variables oldSemantics oldClassAdLex : bool.

(** The function returns a token, having read on from [lx]. *)
Definition returns (lx : Lexer) (r : option (Token * Lexer)) : Prop :=
  exists t lx', r = Some (t, lx') /\ adv lx lx'.
Lemma returns_then lx lx1 r : adv lx lx1 -> returns lx1 r -> returns lx r.
Proof. intros H (t&lx'&->&H'). exists t, lx'. split; [done|]. by etrans. Qed.
Lemma returns_Some lx t lx' : adv lx lx' -> returns lx (Some (t, lx')).
Proof. intros H. by exists t, lx'. Qed.

Lemma finish_number_returns ty lx : ty <> NONE -> fetched lx -> returns lx (finish_number oldSemantics ty lx).
Proof.
  intros Ht Hf. apply (returns_then _ (cut lx)); [by split|].
  assert (Hw : adv (cut lx) (wind (cut lx))) by by apply wind_adv.
  unfold finish_number. destruct ty; [done| |].
  - repeat case_match; by apply returns_Some.
  - repeat case_match; by apply returns_Some.
Qed.

Lemma if_wind_adv (b : bool) lx : fetched lx ->
  adv lx (if b then wind lx else lx) /\ fetched (if b then wind lx else lx).
Proof. intros Hf. destruct b; [|done]. split; [by apply wind_adv|apply wind_fetched]. Qed.

Lemma number_exponent_returns ty lx : ty <> NONE -> fetched lx -> returns lx (number_exponent oldSemantics ty lx).
Proof.
  intros Ht Hf. unfold number_exponent. destruct ty; [done|by apply finish_number_returns|].
  destruct (lower_is "e" lx); [|by apply finish_number_returns].
  pose proof (wind_adv lx Hf) as H1. pose proof (wind_fetched lx) as F1. cbn zeta.
  destruct (if_wind_adv (at_char "+" (wind lx) || at_char "-" (wind lx)) (wind lx) F1) as [H2 F2].
  set (lx2 := if (_ || _ : bool) then (_ : Lexer) else _) in *. apply (returns_then _ lx2); [by etrans|].
  destruct (negb (ch_is isdigit lx2)); [by apply returns_Some, cut_adv|].
  destruct (wind_while_adv isdigit lx2 F2) as [H3 F3]. eapply returns_then; [done|]. by apply finish_number_returns.
Qed.

(** Where no digit was read the token is a point. *)
Lemma number_fraction_returns dot ty lx :
  ty <> NONE \/ dot || at_char "." lx = true -> fetched lx ->
  returns lx (number_fraction oldSemantics dot ty lx).
Proof.
  intros Ht Hf. unfold number_fraction. destruct (dot || at_char "." lx) eqn:E.
  - destruct (if_wind_adv (at_char "." lx) lx Hf) as [H1 F1]. cbn zeta. set (lx1 := if (_ : bool) then (_ : Lexer) else _) in *.
    apply (returns_then _ lx1); [done|]. destruct (ch_is isdigit lx1).
    + destruct (wind_while_adv isdigit lx1 F1) as [H2 F2]. eapply returns_then; [exact H2|].
      by apply number_exponent_returns.
    + destruct ty; by apply returns_Some, cut_adv.
  - apply number_exponent_returns; [|done]. by destruct Ht.
Qed.

Lemma octal_digits_adv n b lx : fetched lx ->
  adv lx (octal_digits n b lx).2 /\ fetched (octal_digits n b lx).2.
Proof.
  revert b lx. induction n as [|n IH]; intros b lx Hf; simpl; [done|]. case_match; [|done].
  destruct (IH (b && ch_is isodigit lx) (wind lx) (wind_fetched lx)) as [Ha Hf']. split; [|done].
  etrans; [by apply wind_adv|done].
Qed.

Lemma number_whole_returns och lx :
  isdigit och || Ascii.eqb och "." || at_char "." lx = true -> fetched lx ->
  returns lx (number_whole oldSemantics och lx).
Proof.
  intros Hc Hf. unfold number_whole. destruct (Ascii.eqb_spec och "0") as [->|Hne].
  - destruct (lower_is "x" lx).
    + pose proof (wind_adv lx Hf) as H1. pose proof (wind_fetched lx) as F1. cbn zeta.
      apply (returns_then _ (wind lx)); [done|]. destruct (negb _); [by apply returns_Some, cut_adv|].
      destruct (wind_while_adv isxdigit (wind lx) F1) as [H2 F2]. eapply returns_then; [exact H2|].
      apply number_fraction_returns; auto.
    + destruct (octal_digits_adv (S (length (rest lx))) true lx Hf) as [H1 F1].
      destruct (octal_digits _ _ _) as [o lx1]. simpl in H1, F1. apply (returns_then _ lx1); [done|].
      destruct (at_char "." lx1 || _); [apply number_fraction_returns; auto|].
      destruct (negb o); [by apply returns_Some, cut_adv|apply number_fraction_returns; auto].
  - destruct (isdigit och) eqn:E.
    + destruct (wind_while_adv isdigit lx Hf) as [H2 F2]. eapply returns_then; [exact H2|].
      apply number_fraction_returns; [|done]. left. by case_match.
    + apply number_fraction_returns; [|done]. right. by rewrite Ascii.eqb_sym.
Qed.

(** [UnreadCharacter] takes back what [ReadCharacter] read. *)
Lemma unread_read lx c lx' : ReadCharacter lx = (Chr c, lx') -> UnreadCharacter lx' = lx.
Proof.
  unfold ReadCharacter. destruct (rest lx) as [|d r] eqn:E; [done|]. case_match; [done|].
  intros [= <- <-]. destruct lx; simpl in *. by subst.
Qed.

Lemma tokenizeNumber_returns lx och :
  ch lx = Chr och -> isdigit och || Ascii.eqb och "." || Ascii.eqb och "-" = true ->
  exists t lx', tokenizeNumber oldSemantics lx = Some (t, lx') /\ adv1 lx lx'.
Proof.
  intros Hch Hc. assert (Hm : ch (mark lx) = Chr och) by done.
  assert (H1 : adv1 lx (wind (mark lx))) by (eapply adv_then1; [apply mark_adv|by eapply wind_adv1]).
  assert (F1 := wind_fetched (mark lx)).
  assert (returns (wind (mark lx)) (tokenizeNumber oldSemantics lx)) as (t&lx'&->&H).
  2: { exists t, lx'. split; [done|]. by eapply adv1_then. }
  unfold tokenizeNumber. rewrite Hch. cbn zeta. set (lx1 := wind (mark lx)) in *.
  destruct (Ascii.eqb_spec och "-") as [->|Hne].
  2: { apply number_whole_returns; [|done]. rewrite orb_false_r in Hc. by rewrite Hc. }
  assert (Hminus : returns lx1 (Some (LEX_MINUS, cut lx1))) by apply returns_Some, cut_adv.
  destruct (ch lx1) as [| |c1] eqn:E1; [done|done|]. destruct (isdigit c1) eqn:Ed.
  - apply (returns_then _ (wind lx1)); [by eapply adv1_adv, wind_adv1|].
    apply number_whole_returns; [by rewrite Ed|apply wind_fetched].
  - destruct (Ascii.eqb_spec c1 ".") as [->|]; [|done].
    destruct (ReadCharacter lx1) as [ch2 lx2] eqn:Er.
    destruct (ReadCharacter_fetched _ _ _ Er) as (Hr1&Hr2&_&_&_&Hr3&_&Hr4). destruct ch2 as [| |c2].
    + apply returns_Some. etrans; [|apply cut_adv]. split; [done|].
      unfold weight, upcoming. rewrite Hr2, E1. unfold text_weight in *. simpl in *. lia.
    + apply returns_Some. etrans; [|apply cut_adv]. split; [done|].
      unfold weight, upcoming. rewrite Hr2, E1. unfold text_weight in *. simpl in *. lia.
    + rewrite (unread_read _ _ _ Er). destruct (isdigit c2); [|done].
      apply number_whole_returns; [|done]. unfold at_char, ch_is. rewrite E1. by rewrite orb_true_r.
Qed.

Lemma tokenizeAlphaHead_adv1 lx c :
  ch lx = Chr c -> isalpha c || Ascii.eqb c "_" = true -> adv1 lx (tokenizeAlphaHead lx).2.
Proof.
  intros Hch Hc. unfold tokenizeAlphaHead. assert (Hm : ch (mark lx) = Chr c) by done.
  assert (Hf : fetched (mark lx)) by (unfold fetched; congruence).
  destruct (wind_while_adv isalpha (mark lx) Hf) as [H1 F1]. set (lx1 := wind_while isalpha (mark lx)) in *.
  destruct (isalpha c) eqn:Ea.
  - assert (H2 : adv1 (mark lx) lx1).
    { unfold lx1, wind_while. cbn [wind_while_n]. unfold ch_is at 1. rewrite Hm, Ea.
      eapply adv1_then; [by eapply wind_adv1|]. apply wind_while_n_adv, wind_fetched. }
    eapply adv_then1; [apply mark_adv|]. eapply adv1_then; [exact H2|].
    destruct (ch_is _ lx1); [|apply cut_adv]. simpl.
    destruct (wind_while_adv isword (wind lx1) (wind_fetched lx1)) as [H3 _].
    etrans; [by apply wind_adv|]. etrans; [exact H3|apply cut_adv].
  - assert (E1 : lx1 = mark lx).
    { unfold lx1, wind_while. cbn [wind_while_n]. unfold ch_is. by rewrite Hm, Ea. }
    rewrite E1. unfold ch_is. rewrite Hm. rewrite orb_comm. simpl in Hc. rewrite Hc. cbn [orb snd].
    destruct (wind_while_adv isword (wind (mark lx)) (wind_fetched (mark lx))) as [H3 _].
    eapply adv_then1; [apply mark_adv|]. eapply adv1_then; [by eapply wind_adv1|].
    etrans; [exact H3|apply cut_adv].
Qed.

(** *** Strings *)
Lemma scan_string_adv n delim a b lx : fetched lx ->
  adv lx (scan_string n delim a b lx) /\ fetched (scan_string n delim a b lx).
Proof.
  revert a b lx. induction n as [|n IH]; intros a b lx Hf; simpl; [done|].
  destruct (ch lx); [done|done|]. case_match; [|done]. destruct (IH (Ascii.eqb c "\") (negb b && Ascii.eqb c "\") (wind lx) (wind_fetched lx)) as [Ha Hf'].
  split; [|done]. etrans; [by apply wind_adv|done].
Qed.

(** Reading ahead of a character that stays the current one. *)
Lemma ahead_adv lx lx' c d :
  ch lx = Chr c -> tokenConsumed lx' = tokenConsumed lx -> ch lx' = ch lx ->
  (text_weight (match d with Chr e => e :: rest lx' | _ => [] end) <= text_weight (rest lx))%nat ->
  d <> EMPTY -> adv lx (set_ch d lx').
Proof.
  intros Hc Ht He Hw Hd. split; [done|]. unfold weight, upcoming. simpl. rewrite Hc.
  unfold text_weight in *. simpl. destruct d; simpl in *; [done|lia|lia].
Qed.
Lemma read_past_space_fetched n lx : let r := read_past_space n lx in
  tokenConsumed r.2 = tokenConsumed lx /\ ch r.2 = ch lx /\ r.1 <> EMPTY /\
  (text_weight (match r.1 with Chr e => e :: rest r.2 | _ => [] end) <= text_weight (rest lx))%nat /\
  (text_weight (rest r.2) <= text_weight (rest lx))%nat.
Proof.
  revert lx. induction n as [|n IH]; intros lx; cbn [read_past_space];
    destruct (ReadCharacter lx) as [c lx'] eqn:Er;
    destruct (ReadCharacter_fetched _ _ _ Er) as (H1&H2&H3&_&_&H4&_&H5); [done|].
  destruct c as [| |c]; [done|done|]. destruct (isspace c); [|done].
  destruct (IH lx') as (I1&I2&I3&I4&I5). cbn zeta. split_and!; (congruence || done || lia).
Qed.

Lemma string_pieces_adv n delim lx : fetched lx ->
  adv lx (string_pieces n delim lx).2 /\ fetched (string_pieces n delim lx).2.
Proof.
  revert lx. induction n as [|n IH]; intros lx Hf; [done|]. cbn [string_pieces].
  destruct (scan_string_adv (S (length (rest lx))) delim false false lx Hf) as [H1 F1].
  set (lx1 := scan_string _ _ _ _ _) in *. destruct (at_char delim lx1) eqn:E; [|done].
  apply ch_is_Chr in E as (c&Hc&_).
  destruct (read_past_space_fetched (length (rest lx1)) lx1) as (R1&R2&R3&R4&R5).
  destruct (read_past_space _ _) as [t lx2]. simpl in R1, R2, R3, R4, R5.
  assert (Hend : adv lx (set_ch t lx2) /\ fetched (set_ch t lx2)).
  { split; [|done]. etrans; [exact H1|]. by eapply ahead_adv. }
  destruct t as [| |e]; [done|done|]. destruct (Ascii.eqb e delim); [|done].
  destruct (IH (set_buffer (List.tl (lexBuffer (wind lx2))) (accumulating (wind lx2)) (wind lx2))) as [H3 F3].
  { apply wind_fetched. }
  split; [|done]. etrans; [exact H1|]. etrans; [|exact H3].
  assert (H2 : adv lx1 lx2).
  { split; [done|]. unfold weight, upcoming. rewrite R2, Hc. unfold text_weight in *. simpl. lia. }
  etrans; [exact H2|]. etrans; [apply wind_adv; unfold fetched; congruence|by split].
Qed.

Lemma string_old_adv n delim lx : fetched lx ->
  adv lx (string_old n delim lx).2 /\ fetched (string_old n delim lx).2.
Proof.
  revert lx. induction n as [|n IH]; intros lx Hf; [done|]. cbn [string_old].
  destruct (wind_while_adv (fun c => negb (Ascii.eqb c delim)) lx Hf) as [H1 F1].
  set (lx1 := wind_while _ lx) in *. destruct (at_char delim lx1) eqn:E; [|done].
  apply ch_is_Chr in E as (c&Hc&_). set (oldCh := if (_ <? _)%nat then _ else _). clearbody oldCh.
  destruct oldCh as [o|]; [|done]. destruct (Ascii.eqb o "\"); [|done].
  destruct (ReadCharacter lx1) as [t lx2] eqn:Er.
  destruct (ReadCharacter_fetched _ _ _ Er) as (R1&R2&R3&_&_&R4&_&R5).
  assert (H2 : adv lx lx2 /\ fetched lx2).
  { split; [|unfold fetched; congruence]. etrans; [exact H1|]. split; [done|].
    unfold weight, upcoming. rewrite R2, Hc. unfold text_weight in *. simpl. lia. }
  destruct t as [| |e]; [done|done|]. destruct (Ascii.eqb e "010"); [done|].
  destruct (IH (set_ch (Chr e) (set_buffer (delim :: List.tl (lexBuffer lx2)) (accumulating lx2) lx2))) as [H3 F3]; [done|].
  split; [|done]. etrans; [exact H1|]. etrans; [|exact H3].
  by apply (ahead_adv lx1 (set_buffer (delim :: List.tl (lexBuffer lx2)) (accumulating lx2) lx2) c (Chr e)).
Qed.

Lemma tokenizeString_adv1 delim lx c : ch lx = Chr c -> adv1 lx (tokenizeString oldClassAdLex delim lx).2.
Proof.
  intros Hc. eapply adv1_then; [by eapply wind_adv1|]. etrans; [apply mark_adv|]. unfold tokenizeString.
  cbn zeta. set (lx0 := mark (wind lx)). assert (F0 : fetched lx0) by apply wind_fetched.
  set (r := if oldClassAdLex then _ else _).
  assert (Hr : adv lx0 r.2 /\ fetched r.2) by (unfold r; destruct oldClassAdLex;
    [by apply string_old_adv|by apply string_pieces_adv]).
  destruct r as [complete lx1]. simpl in Hr. destruct Hr as [H1 F1]. destruct (negb complete); [done|].
  assert (H2 : adv lx0 (if at_char delim (cut lx1) then wind_last (cut lx1) else cut lx1)).
  { etrans; [exact H1|]. etrans; [apply cut_adv|]. case_match; [|done]. by apply wind_last_adv. }
  destruct oldClassAdLex; [done|]. by destruct (convert_escapes _).
Qed.

(** *** Operators *)
Lemma fetch_fetched lx : fetched (fetch lx).
Proof.
  unfold fetched, fetch. destruct (ch lx) eqn:E; [|congruence|congruence].
  destruct (ReadCharacter lx) eqn:Er. by destruct (ReadCharacter_fetched _ _ _ Er) as (_&_&?&_).
Qed.
Lemma longer_adv t1 t2 c lx : fetched lx -> adv lx (longer t1 t2 c lx).2.
Proof. intros Hf. unfold longer. case_match; [by apply wind_last_adv|done]. Qed.

(** The character after an equals sign may be read twice; the sign makes up for it. *)
Lemma bound_to_adv1 lx lx2 t :
  ch lx = Chr "=" -> let lx1 := fetch (wind_last (mark lx)) in
  at_char "!" lx1 = true -> ReadCharacter lx1 = (t, lx2) -> adv1 lx (UnreadCharacter lx2).
Proof.
  intros Hc lx1 Hat Er. assert (H0 : tokenConsumed (wind_last (mark lx)) = tokenConsumed lx /\
    ch (wind_last (mark lx)) = EMPTY /\ rest (wind_last (mark lx)) = rest lx).
  { unfold wind_last, accumulate. simpl. by rewrite Hc. }
  set (lx0 := wind_last (mark lx)) in *. destruct H0 as (H1&H2&H3).
  assert (Hw : weight lx = (2 + text_weight (rest lx))%nat) by (unfold weight, upcoming; by rewrite Hc).
  assert (Hf : adv lx0 lx1) by apply fetch_adv. destruct Hf as [Hf1 Hf2].
  assert (Hw0 : weight lx0 = text_weight (rest lx)) by (unfold weight, upcoming; by rewrite H2, H3).
  destruct t as [| |d].
  - by destruct (ReadCharacter_fetched _ _ _ Er) as (_&_&?&_).
  - assert (E2 : lx2 = lx1).
    { unfold ReadCharacter in Er. destruct (rest lx1); [congruence|]. by case_match; simplify_eq. }
    subst lx2. apply ch_is_Chr in Hat as (e&He&<-%eqb_eq).
    assert (Hb : exists b, before lx1 = "!"%char :: b).
    { unfold lx1, fetch in He |- *. rewrite H2 in *. unfold ReadCharacter in *. rewrite H3 in *.
      destruct (rest lx) as [|d r]; [done|]. destruct (Ascii.eqb d "000"); simpl in *; [done|].
      injection He as ->. eauto. }
    destruct Hb as [b Hb]. split; [unfold UnreadCharacter; rewrite Hb; simpl; congruence|].
    unfold UnreadCharacter. rewrite Hb. unfold weight, upcoming in *. simpl in *. rewrite He in *.
    unfold text_weight in *. simpl in *. lia.
  - rewrite (unread_read _ _ _ Er). split; [congruence|lia].
Qed.

Lemma tokenizePunctOperator_adv1 lx c : ch lx = Chr c -> adv1 lx (tokenizePunctOperator lx).2.
Proof.
  intros Hc. assert (H0 : adv1 lx (wind_last (mark lx))).
  { eapply adv_then1; [apply mark_adv|by eapply wind_last_adv1]. }
  assert (H1 := fetch_adv (wind_last (mark lx))). assert (F1 := fetch_fetched (wind_last (mark lx))).
  assert (H01 : adv1 lx (fetch (wind_last (mark lx)))) by by eapply adv1_then.
  assert (Hw : forall lx1 lx2, fetched lx1 -> adv1 lx lx1 -> lx2 = wind_last lx1 -> adv1 lx (cut lx2)).
  { intros lx1 lx2 Hf Ha ->. eapply adv1_then; [exact Ha|]. etrans; [by apply wind_last_adv|apply cut_adv]. }
  assert (Hl : forall t1 t2 d lx1, fetched lx1 -> adv1 lx lx1 -> adv1 lx (cut (longer t1 t2 d lx1).2)).
  { intros t1 t2 d lx1 Hf Ha. eapply adv1_then; [exact Ha|]. etrans; [by apply longer_adv|apply cut_adv]. }
  unfold tokenizePunctOperator. cbn zeta. rewrite Hc.
  assert (Hbound : forall lx2 t, c = "="%char -> at_char "!" (fetch (wind_last (mark lx))) = true ->
    ReadCharacter (fetch (wind_last (mark lx))) = (t, lx2) -> adv1 lx (UnreadCharacter lx2)).
  { intros lx2 t ->. by apply bound_to_adv1. }
  set (lx0 := wind_last (mark lx)) in *. set (lx1 := fetch lx0) in *.
  repeat match goal with |- context [if Ascii.eqb c ?d then _ else _] =>
    destruct (Ascii.eqb_spec c d); cbn [snd];
    [first [exact H0 | by apply Hl | idtac]|] end; try exact H0.
  - destruct (at_char "=" lx1); cbn [snd]; [by eapply Hw|by apply Hl].
  - destruct (at_char "=" lx1); cbn [snd]; [by eapply Hw|].
    destruct (at_char ">" lx1); cbn [snd]; [|exact H01].
    apply Hl; [apply wind_fetched|]. eapply adv1_then; [exact H01|by apply wind_adv].
  - destruct (at_char "=" lx1); cbn [snd]; [by eapply Hw|].
    destruct (at_char "?" lx1).
    + assert (H2 : adv1 lx (wind lx1)) by (eapply adv1_then; [exact H01|by apply wind_adv]).
      destruct (at_char "=" (wind lx1)); cbn [snd]; [|done]. eapply Hw; [|exact H2|done]. apply wind_fetched.
    + destruct (at_char "!" lx1) eqn:Eb; [|exact H01].
      destruct (ReadCharacter lx1) as [t lx2] eqn:Er. specialize (Hbound _ _ e eq_refl eq_refl).
      destruct t as [| |d]; [done|done|]. destruct (Ascii.eqb d "="); [|done]. cbn [snd].
      assert (Hf : fetched (UnreadCharacter lx2)) by by rewrite (unread_read _ _ _ Er).
      eapply (Hw (wind (UnreadCharacter lx2))); [apply wind_fetched| |done].
      eapply adv1_then; [exact Hbound|by apply wind_adv].
Qed.

(** *** The next token *)
Lemma next_token_adv lx : fetched lx ->
  exists t lx', next_token oldSemantics oldClassAdLex lx = Some (t, lx') /\ adv lx lx' /\
    (ch lx = EOF /\ t = LEX_END_OF_INPUT \/ adv1 lx lx').
Proof.
  intros Hf. unfold next_token. destruct (ch lx) as [| |c] eqn:Hc; [done|eexists _, _; split_and!; [done..|by left]|].
  assert (Hany : forall r : Token * Lexer, adv1 lx r.2 -> exists t lx', Some r = Some (t, lx') /\ adv lx lx' /\
    (Chr c = EOF /\ t = LEX_END_OF_INPUT \/ adv1 lx lx')).
  { intros [t lx'] H. exists t, lx'. split; [done|]. split; [by apply adv1_adv|by right]. }
  assert (Hnumber : isdigit c || Ascii.eqb c "." || Ascii.eqb c "-" = true ->
    exists t lx', tokenizeNumber oldSemantics lx = Some (t, lx') /\ adv lx lx' /\
    (Chr c = EOF /\ t = LEX_END_OF_INPUT \/ adv1 lx lx')).
  { intros H. destruct (tokenizeNumber_returns lx c Hc H) as (t&lx'&->&Ha). by apply (Hany (t, lx')). }
  destruct (Ascii.eqb c "-") eqn:E1.
  - destruct (ends_operand _); [by eapply Hany, tokenizePunctOperator_adv1|].
    apply Hnumber. by rewrite orb_true_r.
  - destruct (isdigit c || Ascii.eqb c ".") eqn:E2; [apply Hnumber; by rewrite orb_false_r|].
    destruct (isalpha c || Ascii.eqb c "_") eqn:E3; [by eapply Hany, tokenizeAlphaHead_adv1|].
    destruct (Ascii.eqb c dquote); [by eapply Hany, tokenizeString_adv1|].
    destruct (Ascii.eqb c squote); [by eapply Hany, tokenizeString_adv1|].
    by eapply Hany, tokenizePunctOperator_adv1.
Qed.

Lemma comment_loop_adv n lx : fetched lx ->
  adv lx (comment_loop n lx) /\ fetched (comment_loop n lx).
Proof.
  revert lx. induction n as [|n IH]; intros lx Hf; [done|]. cbn [comment_loop].
  assert (H1 := wind_adv lx Hf). assert (F1 := wind_fetched lx).
  destruct (IH (wind lx) F1) as [H2 F2].
  destruct (ch (wind lx)); [done|done|]. case_match; [done|]. split; [by etrans|done].
Qed.

(** A comment or a slash uses up text; white space does not matter. *)
Lemma skip_blanks_adv n lx : fetched lx ->
  let r := skip_blanks n lx in adv lx r.2 /\ fetched r.2 /\ (r.1 <> SkipDone -> adv1 lx r.2).
Proof.
  revert lx. induction n as [|n IH]; intros lx Hf; cbn zeta; cbn [skip_blanks]; [done|].
  assert (Hthen : forall lx1, adv1 lx lx1 -> fetched lx1 -> let r := skip_blanks n lx1 in
    adv lx r.2 /\ fetched r.2 /\ (r.1 <> SkipDone -> adv1 lx r.2)).
  { intros lx1 H1 F1. destruct (IH lx1 F1) as (H2&F2&_). cbn zeta.
    assert (adv1 lx (skip_blanks n lx1).2) by by eapply adv1_then. split_and!; [by apply adv1_adv|done|done]. }
  destruct (ch_is isspace lx) eqn:E1.
  { apply ch_is_Chr in E1 as (c&Hc&_). apply Hthen; [by eapply wind_adv1|apply wind_fetched]. }
  destruct (at_char "/" lx) eqn:E2; [|by split_and!]. apply ch_is_Chr in E2 as (c&Hc&_).
  assert (H1 : adv1 lx (wind (mark lx))) by (eapply adv_then1; [apply mark_adv|by eapply wind_adv1]).
  assert (F1 := wind_fetched (mark lx)). set (lx1 := wind (mark lx)) in *.
  destruct (at_char "/" lx1).
  { destruct (wind_while_adv (fun c => negb (Ascii.eqb c "010")) lx1 F1) as [H2 F2].
    apply Hthen; [by eapply adv1_then|done]. }
  destruct (at_char "*" lx1) eqn:E4.
  2: { split_and!; [by apply adv1_adv|done|done]. }
  apply ch_is_Chr in E4 as (d&Hd&<-%eqb_eq).
  assert (H2 : adv lx1 (set_ch (Chr "010") lx1)).
  { split; [done|]. unfold weight, upcoming. by rewrite Hd. }
  destruct (comment_loop_adv (S (length (rest lx1))) (set_ch (Chr "010") lx1)) as [H3 F3]; [done|].
  set (lx2 := comment_loop _ _) in *. cbn zeta.
  assert (H4 : adv1 lx lx2) by (eapply adv1_then; [exact H1|by etrans]).
  destruct (ch lx2) eqn:E5.
  - done.
  - split_and!; [by apply adv1_adv|done|done].
  - apply Hthen; [|apply wind_fetched]. eapply adv1_then; [exact H4|by apply wind_adv].
Qed.

(** The lexer after [PeekToken] holds the token. *)
Lemma PeekToken_returns lx :
  exists t lx', PeekToken oldSemantics oldClassAdLex lx = Some (t, lx') /\
    tokenConsumed lx' = false /\ tokenType lx' = t /\ (weight lx' <= weight lx)%nat /\
    (tokenConsumed lx = true -> t = LEX_END_OF_INPUT \/ weight lx' < weight lx)%nat.
Proof.
  unfold PeekToken. destruct (tokenConsumed lx) eqn:E; cbn [negb]; [|by exists (tokenType lx), lx].
  set (lx0 := fetch (set_consumed false lx)).
  assert (H0 : tokenConsumed lx0 = false /\ (weight lx0 <= weight lx)%nat) by exact (fetch_adv (set_consumed false lx)).
  assert (F0 : fetched lx0) by apply fetch_fetched. cbn zeta.
  destruct (skip_blanks_adv (S (length (rest lx0))) lx0 F0) as ([H1 W1]&F1&Hs).
  destruct (skip_blanks _ _) as [sk lx1]. simpl in H1, W1, F1, Hs.
  destruct H0 as [H0 W0]. destruct sk.
  - destruct (next_token_adv lx1 F1) as (t&lx2&->&[H2 W2]&Ht). exists t, (set_token t lx2).
    change (weight (set_token t lx2)) with (weight lx2).
    split_and!; [done|simpl; congruence|done|lia|]. intros _.
    destruct Ht as [[_ ->]|[_ ?]]; [by left|right; lia].
  - destruct Hs as [_ ?]; [done|]. eexists _, (set_token LEX_DIVIDE lx1).
    change (weight (set_token LEX_DIVIDE lx1)) with (weight lx1). split_and!; [done|simpl; congruence|done|lia|].
    right. lia.
  - destruct Hs as [_ ?]; [done|]. eexists _, (set_token LEX_TOKEN_ERROR lx1).
    change (weight (set_token LEX_TOKEN_ERROR lx1)) with (weight lx1). split_and!; [done|simpl; congruence|done|lia|].
    right. lia.
Qed.
End tokens.
