(* ===== verification/AdStoreFacts.v ===== *)
(** * The ClassAd store: properties of lookup, insertion, deletion and chaining *)
From Stdlib Require Import ZArith Lia Ascii String.
From stdpp Require Import base list gmap strings fin_maps fin_map_dom.
From S2P Require Import Prelude Double Tree Values FlatMap AdStore.

(** ** What lookup depends on *)

(** The two fields [Lookup] reads. *)
Definition view (name : string) (ad : ClassAd) : option ExprTree * option adref :=
  (fm_lookup (attrList ad) name, chained_parent_ad ad).

Lemma Lookup_chain_ext n h1 h2 a name :
  (forall x, view name <$> h1 !! x = view name <$> h2 !! x) ->
  Lookup_chain n h1 a name = Lookup_chain n h2 a name.
Proof.
  intros H. revert a. induction n as [|n IH]; intros a; [done|]. simpl.
  specialize (H a). destruct (h1 !! a) as [ad1|], (h2 !! a) as [ad2|]; simpl in *; try done.
  injection H as E1 E2. rewrite E1, E2.
  destruct (fm_lookup (attrList ad2) name); [done|]. destruct (chained_parent_ad ad2); auto.
Qed.

Lemma Lookup_ext h1 h2 a name :
  size h1 = size h2 ->
  (forall x, view name <$> h1 !! x = view name <$> h2 !! x) ->
  Lookup h1 a name = Lookup h2 a name.
Proof. unfold Lookup. intros -> H. by apply Lookup_chain_ext. Qed.

Lemma Lookup_chain_mono n m h a name r :
  Lookup_chain n h a name = Some r -> (n <= m)%nat -> Lookup_chain m h a name = Some r.
Proof.
  revert m a. induction n as [|n IH]; intros m a; simpl; [done|]. destruct m as [|m]; [lia|].
  simpl. destruct (h !! a) as [ad|]; simpl; [|done].
  destruct (fm_lookup (attrList ad) name); [done|].
  destruct (chained_parent_ad ad); [|done]. intros. apply IH; [done|lia].
Qed.

(** ** The chain as a relation

    [chain_lookup h a name path r]: the recursive calls of [Lookup] on [a] visit the
    ClassAds of [path] and return [r]. *)
Inductive chain_lookup (h : heap) (name : string) : adref -> list adref -> option ExprTree -> Prop :=
| chain_here a ad tree :
    h !! a = Some ad -> fm_lookup (attrList ad) name = Some tree ->
    chain_lookup h name a [a] (Some tree)
| chain_end a ad :
    h !! a = Some ad -> fm_lookup (attrList ad) name = None -> chained_parent_ad ad = None ->
    chain_lookup h name a [a] None
| chain_up a ad p path r :
    h !! a = Some ad -> fm_lookup (attrList ad) name = None -> chained_parent_ad ad = Some p ->
    chain_lookup h name p path r -> chain_lookup h name a (a :: path) r.

Lemma chain_lookup_det h name a p1 r1 :
  chain_lookup h name a p1 r1 -> forall p2 r2, chain_lookup h name a p2 r2 -> p1 = p2 /\ r1 = r2.
Proof.
  induction 1; intros p2 r2 H'; inversion H'; simplify_eq; try done.
  match goal with H : chain_lookup _ _ _ _ r2 |- _ => by destruct (IHchain_lookup _ _ H) as [-> ->] end.
Qed.

Lemma chain_lookup_dom h name a path r :
  chain_lookup h name a path r -> Forall (fun x => x ∈ dom h) path.
Proof. induction 1; repeat constructor; eauto; apply elem_of_dom; eauto. Qed.

(** A visited ClassAd has its own visit, with the rest of the path. *)
Lemma chain_lookup_visit h name a path r x :
  chain_lookup h name a path r -> x ∈ path ->
  exists pre suf, path = pre ++ suf /\ chain_lookup h name x suf r.
Proof.
  induction 1; rewrite ?list_elem_of_singleton, ?elem_of_cons.
  - intros ->. eexists [], _. split; [done|]. by eapply chain_here.
  - intros ->. eexists [], _. split; [done|]. by eapply chain_end.
  - intros [->|Hx].
    + eexists [], _. split; [done|]. by eapply chain_up.
    + destruct (IHchain_lookup Hx) as (pre&suf&->&?). by exists (a :: pre), suf.
Qed.

(** A lookup that returns visits no ClassAd twice. *)
Lemma chain_lookup_NoDup h name a path r : chain_lookup h name a path r -> NoDup path.
Proof.
  induction 1 as [| |a ad p path r ??? Hc IH]; [by apply NoDup_singleton..|].
  constructor; [|done]. intros Hin.
  destruct (chain_lookup_visit _ _ _ _ _ _ Hc Hin) as (pre&suf&->&Hs).
  assert (Hup : chain_lookup h name a (a :: pre ++ suf) r) by (by eapply chain_up).
  destruct (chain_lookup_det _ _ _ _ _ Hup _ _ Hs) as [E _].
  apply (f_equal length) in E. simpl in E. rewrite length_app in E. lia.
Qed.

Lemma chain_lookup_length h name a path r :
  chain_lookup h name a path r -> (length path <= size h)%nat.
Proof.
  intros H. pose proof (chain_lookup_NoDup _ _ _ _ _ H) as Hnd.
  pose proof (chain_lookup_dom _ _ _ _ _ H) as Hd. rewrite Forall_forall in Hd.
  rewrite <- (size_list_to_set (C:=gset adref) path Hnd), <- (size_dom h).
  apply subseteq_size. intros x. rewrite elem_of_list_to_set. auto.
Qed.

Lemma Lookup_chain_complete h name a path r :
  chain_lookup h name a path r -> Lookup_chain (length path) h a name = Some r.
Proof.
  induction 1; simpl; repeat match goal with E : _ = _ |- _ => rewrite E; clear E; simpl end; done.
Qed.

Lemma Lookup_chain_sound n h name a r :
  Lookup_chain n h a name = Some r -> exists path, chain_lookup h name a path r.
Proof.
  revert a. induction n as [|n IH]; intros a; simpl; [done|].
  destruct (h !! a) as [ad|] eqn:Ea; simpl; [|done].
  destruct (fm_lookup (attrList ad) name) eqn:El.
  { intros [= <-]. eexists. by eapply chain_here. }
  destruct (chained_parent_ad ad) eqn:Ec.
  - intros [path ?]%IH. eexists. by eapply chain_up.
  - intros [= <-]. eexists. by eapply chain_end.
Qed.

(** [Lookup] with the size of the store as fuel is the recursion of the code: it has
    a result exactly when the recursive calls along [chained_parent_ad] return, the result
    they return, and then no ClassAd of the chain was visited twice. *)
Theorem Lookup_terminates h a name r :
  Lookup h a name = Some r <->
  exists path, chain_lookup h name a path r /\ NoDup path /\ (length path <= size h)%nat.
Proof.
  split.
  - intros [path H]%Lookup_chain_sound.
    exists path. eauto using chain_lookup_NoDup, chain_lookup_length.
  - intros (path&H&_&Hl). eapply Lookup_chain_mono; [by eapply Lookup_chain_complete|done].
Qed.

Lemma Lookup_terminates_witness :
  let p := 1%positive in let c := 2%positive in
  let h := <[p := set_attrList [("Owner", StringLiteral "u")] new_ClassAd]>
             (<[c := set_chained_parent_ad (Some p) new_ClassAd]> (∅ : heap)) in
  Lookup h c "OWNER" = Some (Some (StringLiteral "u")) /\
  exists path, chain_lookup h "OWNER" c path (Some (StringLiteral "u")) /\
    NoDup path /\ (length path <= size h)%nat.
Proof.
  intros p c h.
  assert (E : Lookup h c "OWNER" = Some (Some (StringLiteral "u"))) by reflexivity.
  split; [exact E|]. apply (proj1 (Lookup_terminates h c "OWNER" _) E).
Defined.

(** ** Writes to the store *)
Lemma scope_nested_lookup s t h x :
  scope_nested s t h !! x =
    (if decide (x ∈ nested_ads t) then set_parentScope s else id) <$> h !! x.
Proof.
  unfold scope_nested. induction (nested_ads t) as [|c l IH]; simpl.
  { by rewrite option_fmap_id. }
  destruct (decide (x = c)) as [->|Hne].
  - rewrite lookup_alter_eq, IH. rewrite (decide_True (P:=c ∈ c :: l)) by set_solver.
    destruct (h !! c); simpl; [|done]. by case_decide.
  - rewrite lookup_alter_ne, IH by done. do 2 case_decide; set_solver.
Qed.

Lemma scope_nested_view s t h x name :
  view name <$> scope_nested s t h !! x = view name <$> h !! x.
Proof. rewrite scope_nested_lookup. case_decide; by destruct (h !! x). Qed.

Lemma scope_nested_dom s t h : dom (scope_nested s t h) = dom h.
Proof.
  apply set_eq. intros x. rewrite !elem_of_dom, scope_nested_lookup. by rewrite fmap_is_Some.
Qed.

Lemma dom_size {A B} (h1 : gmap adref A) (h2 : gmap adref B) : dom h1 = dom h2 -> size h1 = size h2.
Proof. intros E. by rewrite <- (size_dom h1), <- (size_dom h2), E. Qed.

Lemma on_ad_Some a f h h' :
  on_ad a f h = Some h' -> exists ad, h !! a = Some ad /\ h' = <[a := f ad]> h.
Proof. unfold on_ad. destruct (h !! a); naive_solver. Qed.

Lemma dom_insert_same {A} (h : gmap adref A) a v v' : h !! a = Some v -> dom (<[a := v']> h) = dom h.
Proof. intros E. rewrite dom_insert_L. apply elem_of_dom_2 in E. set_solver. Qed.

Lemma insert_attr_attrList name t ad : attrList (insert_attr name t ad) = fm_insert (attrList ad) name t.
Proof. unfold insert_attr, MarkAttributeDirty. simpl. by destruct (do_dirty_tracking ad). Qed.
Lemma insert_attr_chain name t ad : chained_parent_ad (insert_attr name t ad) = chained_parent_ad ad.
Proof. unfold insert_attr, MarkAttributeDirty. simpl. by destruct (do_dirty_tracking ad). Qed.

Lemma heap_ok_at h a ad : heap_ok h -> h !! a = Some ad -> ad_ok a ad.
Proof. intros H. apply H. Qed.

(** The outcome of an accepted insertion. *)
Lemma Insert_inv h a name t h' b :
  name <> ""%string -> Insert h a name (Some t) = Some (h', b) ->
  b = true /\ exists ad, h !! a = Some ad /\
    h' = <[a := insert_attr name (SetParentScope (Some a) t)
                  ((if decide (a ∈ nested_ads t) then set_parentScope (Some a) else id) ad)]>
           (scope_nested (Some a) t h).
Proof.
  unfold Insert. intros Hne. apply String.eqb_neq in Hne. rewrite Hne.
  destruct (on_ad _ _ _) as [h1|] eqn:E; simpl; [|done]. intros [= -> <-].
  apply on_ad_Some in E as (ad&E&->). rewrite scope_nested_lookup in E.
  destruct (h !! a) as [ad0|] eqn:E0; simplify_eq/=. split; [done|]. by exists ad0.
Qed.

Lemma Insert_dom h a name t h' b : Insert h a name t = Some (h', b) -> dom h' = dom h.
Proof.
  destruct (String.eqb_spec name "") as [->|Hne]; [by intros [= <- _]|].
  destruct t as [t|].
  - intros H. destruct (Insert_inv _ _ _ _ _ _ Hne H) as (_&ad&E&->).
    rewrite dom_insert_L, scope_nested_dom. apply elem_of_dom_2 in E. set_solver.
  - unfold Insert. apply String.eqb_neq in Hne. rewrite Hne. by intros [= <- _].
Qed.

Lemma Insert_view h a name t h' b x name' :
  heap_ok h -> nul_free name -> nul_free name' -> name <> ""%string ->
  Insert h a name (Some t) = Some (h', b) ->
  view name' <$> h' !! x =
    if decide (x = a /\ attr_key name' = attr_key name)
    then (fun ad => (Some (SetParentScope (Some a) t), chained_parent_ad ad)) <$> h !! a
    else view name' <$> h !! x.
Proof.
  intros Hok Hn Hn' Hne H. destruct (Insert_inv _ _ _ _ _ _ Hne H) as (_&ad&E&->).
  pose proof (heap_ok_at _ _ _ Hok E) as [Hfm _].
  destruct (decide (x = a)) as [->|Hx].
  - rewrite lookup_insert_eq, E. simpl. unfold view.
    rewrite insert_attr_attrList, insert_attr_chain.
    assert (Ea : attrList ((if decide (a ∈ nested_ads t) then set_parentScope (Some a) else id) ad)
                 = attrList ad) by (by destruct (decide (a ∈ nested_ads t))).
    assert (Ec : chained_parent_ad ((if decide (a ∈ nested_ads t) then set_parentScope (Some a) else id) ad)
                 = chained_parent_ad ad) by (by destruct (decide (a ∈ nested_ads t))).
    rewrite Ea, Ec, fm_lookup_insert by done.
    destruct (decide (attr_key name' = attr_key name));
      [by rewrite decide_True by done|by rewrite decide_False by naive_solver].
  - rewrite lookup_insert_ne, scope_nested_view by done.
    rewrite decide_False by naive_solver. done.
Qed.

Lemma Lookup_here h a ad name t :
  h !! a = Some ad -> fm_lookup (attrList ad) name = Some t -> Lookup h a name = Some (Some t).
Proof.
  intros E Hf. apply (Lookup_chain_mono 1); simpl; [by rewrite E; simpl; rewrite Hf|].
  destruct (decide (size h = 0%nat)) as [Hs|]; [|lia].
  apply map_size_empty_inv in Hs. by rewrite Hs in E.
Qed.

Lemma Insert_then_Lookup_same h a name t h' b name' :
  heap_ok h -> nul_free name -> nul_free name' -> name <> ""%string ->
  Insert h a name (Some t) = Some (h', b) -> attr_key name' = attr_key name ->
  Lookup h' a name' = Some (Some (SetParentScope (Some a) t)).
Proof.
  intros Hok Hn Hn' Hne H Ek. pose proof (Insert_view h a name t h' b a name' Hok Hn Hn' Hne H) as Hv.
  rewrite decide_True in Hv by done.
  destruct (Insert_inv _ _ _ _ _ _ Hne H) as (_&ad&E&->). rewrite E, lookup_insert_eq in Hv.
  simpl in Hv. injection Hv as Hv _.
  eapply Lookup_here; [by rewrite lookup_insert_eq|done].
Qed.

Lemma Insert_then_Lookup_other h a name t h' b name' :
  heap_ok h -> nul_free name -> nul_free name' -> name <> ""%string ->
  Insert h a name (Some t) = Some (h', b) -> attr_key name' <> attr_key name ->
  forall x, Lookup h' x name' = Lookup h x name'.
Proof.
  intros Hok Hn Hn' Hne H Ek x. apply Lookup_ext.
  - apply dom_size. by eapply Insert_dom.
  - intros y. rewrite (Insert_view h a name t h' b) by done. by rewrite decide_False by naive_solver.
Qed.

(** An attribute inserted under a name is what [Lookup] then finds under every
    spelling of that name, with the ClassAd as its scope; in every ClassAd, the attributes
    of other names are found as before. *)
Theorem Insert_then_Lookup h a name t h' b name' :
  heap_ok h -> nul_free name -> nul_free name' -> name <> ""%string ->
  Insert h a name (Some t) = Some (h', b) ->
  b = true /\
  (attr_key name' = attr_key name ->
     Lookup h' a name' = Some (Some (SetParentScope (Some a) t))) /\
  (attr_key name' <> attr_key name -> forall x, Lookup h' x name' = Lookup h x name').
Proof.
  intros Hok Hn Hn' Hne H. split_and!.
  - by eapply Insert_inv.
  - by eapply Insert_then_Lookup_same.
  - by eapply Insert_then_Lookup_other.
Qed.

Lemma Insert_then_Lookup_witness :
  let a := 1%positive in
  let h := <[a := set_attrList [("Cpus", IntegerLiteral 1)] new_ClassAd]> (∅ : heap) in
  let t := AttributeReference None None "Memory" false in
  exists h', Insert h a "CPUS" (Some t) = Some (h', true) /\
    Lookup h' a "cpus" = Some (Some (AttributeReference (Some a) None "Memory" false)).
Proof.
  intros a h t. eexists. split; [reflexivity|].
  refine (proj1 (proj2 (Insert_then_Lookup h a "CPUS" t _ true "cpus" _ _ _ _ _)) _);
    try reflexivity; [|done].
  intros x ad [[<- <-]|[_ [=]]]%lookup_insert_Some.
  split; [split|]; repeat constructor.
Defined.

(** ** The invariant *)
Lemma Forall_fm_erase {V} (P : string * V -> Prop) (l : list (string * V)) key :
  Forall P l -> Forall P (fm_erase l key).1.
Proof.
  unfold fm_erase. destruct (fm_find l key); simpl; [|done].
  rewrite !Forall_forall. intros H x Hin. apply H.
  eapply elem_of_sublist; [exact Hin|apply sublist_delete].
Qed.

Lemma Forall_fm_insert {V} (P : V -> Prop) (l : list (string * V)) key v :
  fm_ok l -> nul_free key -> P v -> Forall (fun kv => P kv.2) l ->
  Forall (fun kv => P kv.2) (fm_insert l key v).
Proof.
  intros Hok Hk Hv Hl. destruct (fm_find l key) as [i|] eqn:Hf.
  - destruct (fm_find_split _ _ _ Hf) as (l1&k&v0&l2&->&->&_).
    rewrite (fm_insert_found l1 k v0 l2 key v _ Hf eq_refl).
    rewrite Forall_app, Forall_cons in Hl |- *. naive_solver.
  - destruct (fm_emplace_absent l key v Hok Hk Hf) as (l1&l2&->&E&_&_).
    unfold fm_insert. rewrite E. rewrite Forall_app, Forall_cons in *. naive_solver.
Qed.

Lemma ad_ok_attrs a ad ad' : attrList ad' = attrList ad -> ad_ok a ad -> ad_ok a ad'.
Proof. unfold ad_ok. by intros ->. Qed.

Lemma erase_attr_ok a name ad : nul_free name -> ad_ok a ad -> ad_ok a (erase_attr name ad).
Proof.
  intros Hn [Hfm Hsc]. split; simpl; [by apply fm_erase_spec|by apply Forall_fm_erase].
Qed.

Lemma insert_attr_ok a name t ad :
  nul_free name -> SetParentScope (Some a) t = t -> ad_ok a ad -> ad_ok a (insert_attr name t ad).
Proof.
  intros Hn Ht [Hfm Hsc]. unfold ad_ok. rewrite insert_attr_attrList.
  split; [by apply fm_insert_ok|]. by apply (Forall_fm_insert (fun t => SetParentScope (Some a) t = t)).
Qed.

Lemma heap_ok_insert h a ad : heap_ok h -> ad_ok a ad -> heap_ok (<[a := ad]> h).
Proof. intros H1 H2. by apply map_Forall_insert_2. Qed.

Lemma heap_ok_on_ad h a f h' :
  heap_ok h -> (forall ad, ad_ok a ad -> ad_ok a (f ad)) -> on_ad a f h = Some h' -> heap_ok h'.
Proof.
  intros Hok Hf (ad&E&->)%on_ad_Some. apply heap_ok_insert; [done|]. apply Hf. by apply Hok.
Qed.

Lemma scope_nested_ok s t h : heap_ok h -> heap_ok (scope_nested s t h).
Proof.
  intros Hok x ad. rewrite scope_nested_lookup. destruct (h !! x) as [ad0|] eqn:E; [|done].
  intros [= <-]. specialize (Hok x ad0 E). by destruct (decide _).
Qed.

Lemma Insert_ok h a name t h' b :
  heap_ok h -> nul_free name -> Insert h a name t = Some (h', b) -> heap_ok h'.
Proof.
  intros Hok Hn. unfold Insert. destruct (String.eqb name ""); [by intros [= <- _]|].
  destruct t as [t|]; [|by intros [= <- _]].
  destruct (on_ad _ _ _) as [h1|] eqn:E; simpl; [|done]. intros [= <- _].
  eapply heap_ok_on_ad; [by apply scope_nested_ok| |exact E].
  intros ad. apply insert_attr_ok; [done|apply SetParentScope_idem].
Qed.

Lemma Delete_ok h a name h' b :
  heap_ok h -> nul_free name -> Delete h a name = Some (h', b) -> heap_ok h'.
Proof.
  intros Hok Hn. unfold Delete. destruct (h !! a) as [ad|] eqn:Ea; simpl; [|done].
  assert (Hok1 : heap_ok (<[a:=erase_attr name ad]> h)).
  { apply heap_ok_insert, erase_attr_ok; eauto using heap_ok_at. }
  destruct (parent_lookup _ _ _) as [[t|]|]; simpl; [|by intros [= <- _]|done].
  destruct (Insert _ a name _) as [[h2 ?]|] eqn:Ei; simpl; [|done]. intros [= <- _].
  by eapply Insert_ok.
Qed.

(** *** Copies *)
Section copy_ok.
Variable P : heap -> Prop.
Variable copy_ad : heap -> adref -> option (heap * adref).
Hypothesis copy_ad_P : forall h a h' a', P h -> copy_ad h a = Some (h', a') -> P h'.

Lemma map_st_P (f : heap -> ExprTree -> option (heap * ExprTree)) l h h' l' :
  Forall (fun x => forall h h' x', P h -> f h x = Some (h', x') -> P h') l ->
  P h -> map_st f h l = Some (h', l') -> P h'.
Proof.
  intros Hf. revert h l'. induction Hf as [|x l Hx _ IH]; intros h l' HP; simpl; [by intros [= <- _]|].
  destruct (f h x) as [[h1 y]|] eqn:E1; simpl; [|done].
  destruct (map_st f h1 l) as [[h2 l2]|] eqn:E2; simpl; [|done]. intros [= <- _]. eauto.
Qed.

Lemma copy_tree_P e h h' e' : P h -> copy_tree copy_ad h e = Some (h', e') -> P h'.
Proof.
  revert h h' e'. induction e using ExprTree_induct; intros h h' e' HP; simpl;
    try (by intros [= <- _]).
  all: try (repeat (match goal with
       | |- context [copy_tree copy_ad ?h0 ?x] =>
           destruct (copy_tree copy_ad h0 x) as [[? ?]|] eqn:?; simpl; [|done]
       end); intros [= <- _]; by eauto 6).
  3: { destruct (copy_ad h a) as [[h1 c]|] eqn:E; simpl; [|done]. intros [= <- _]. eauto. }
  all: destruct (map_st _ _ _) as [[h1 l']|] eqn:E; simpl; [|done];
    intros [= <- _]; by eapply map_st_P.
Qed.
End copy_ok.

Lemma foldM_P {A B} (P : A -> Prop) (f : A -> B -> option A) a l a' :
  P a -> (forall a b a', b ∈ l -> P a -> f a b = Some a' -> P a') -> foldM f a l = Some a' -> P a'.
Proof.
  intros HP Hf. revert a HP. induction l as [|b l IH]; intros a HP; simpl; [by intros [= <-]|].
  destruct (f a b) as [a1|] eqn:E; simpl; [|done]. apply IH.
  - intros ? b' ??. apply Hf. by right.
  - eapply Hf; [by left|exact HP|done].
Qed.

Lemma ad_ok_nul_free a ad kv : ad_ok a ad -> kv ∈ attrList ad -> nul_free kv.1.
Proof. intros [[_ Hn] _] Hin. rewrite Forall_forall in Hn. by apply (Hn kv). Qed.

Lemma copy_entry_ok copy_ad a h kv h' b :
  (forall h a h' a', heap_ok h -> copy_ad h a = Some (h', a') -> heap_ok h') ->
  heap_ok h -> nul_free kv.1 -> copy_entry copy_ad a h kv = Some (h', b) -> heap_ok h'.
Proof.
  intros Hc Hok Hn. unfold copy_entry.
  destruct (copy_tree _ h kv.2) as [[h1 t]|] eqn:E; simpl; [|done]. intros Hi.
  eapply Insert_ok; [|exact Hn|exact Hi]. by eapply copy_tree_P.
Qed.

Lemma Copy_ad_ok n h a h' a' : heap_ok h -> Copy_ad n h a = Some (h', a') -> heap_ok h'.
Proof.
  revert h a h' a'. induction n as [|n IH]; intros h a h' a' Hok; simpl; [done|].
  destruct (h !! a) as [ad|] eqn:Ea; simpl; [|done].
  destruct (foldM _ _ _) as [h1|] eqn:E; simpl; [|done]. intros [= <- _].
  refine (foldM_P heap_ok _ _ _ _ _ _ E).
  - apply heap_ok_insert; [done|]. repeat constructor.
  - intros h2 kv h3 Hin Hok2. destruct (copy_entry _ _ h2 kv) as [[h4 b]|] eqn:Ec; simpl; [|done].
    intros [= <-]. eapply copy_entry_ok; [exact IH|exact Hok2| |exact Ec].
    eapply ad_ok_nul_free; [by apply Hok|done].
Qed.

Lemma CopyTree_ok h e h' e' : heap_ok h -> CopyTree h e = Some (h', e') -> heap_ok h'.
Proof. apply copy_tree_P. intros ???? . apply Copy_ad_ok. Qed.

Lemma Remove_ok h a name h' t :
  heap_ok h -> nul_free name -> Remove h a name = Some (h', t) -> heap_ok h'.
Proof.
  intros Hok Hn. unfold Remove. destruct (h !! a) as [ad|] eqn:Ea; simpl; [|done].
  set (h1 := match fm_lookup (attrList ad) name with Some _ => _ | None => _ end).
  assert (Hok1 : heap_ok h1).
  { assert (heap_ok (<[a:=erase_attr name ad]> h)).
    { apply heap_ok_insert, erase_attr_ok; eauto using heap_ok_at. }
    subst h1. case_match; [by apply scope_nested_ok|done]. }
  clearbody h1. destruct (parent_lookup h1 a name) as [[pe|]|]; simpl; [|by intros [= <- _]|done].
  destruct (fm_lookup (attrList ad) name) as [t0|]; simpl.
  - destruct (Insert _ a name _) as [[h2 ?]|] eqn:Ei; simpl; [|done]. intros [= <- _].
    by eapply Insert_ok.
  - destruct (CopyTree h1 pe) as [[h2 c]|] eqn:Ec; simpl; [|done].
    destruct (Insert _ a name _) as [[h3 ?]|] eqn:Ei; simpl; [|done]. intros [= <- _].
    eapply Insert_ok; [|done|exact Ei]. apply scope_nested_ok. by eapply CopyTree_ok.
Qed.

Lemma update_loop_ok h a l h' b :
  heap_ok h -> Forall (fun kv => nul_free kv.1) l -> update_loop h a l = Some (h', b) -> heap_ok h'.
Proof.
  intros Hok Hl. revert h Hok. induction Hl as [|kv l Hn _ IH]; intros h Hok; simpl; [by intros [= <- _]|].
  destruct (copy_entry _ a h kv) as [[h1 b1]|] eqn:E; simpl; [|done].
  assert (Hok1 : heap_ok h1).
  { eapply copy_entry_ok; [intros ????; apply Copy_ad_ok|exact Hok|exact Hn|exact E]. }
  destruct b1; [by apply IH|by intros [= <- _]].
Qed.

Lemma Update_ok h a ad h' b : heap_ok h -> Update h a ad = Some (h', b) -> heap_ok h'.
Proof.
  intros Hok. unfold Update. destruct (h !! ad) as [src|] eqn:E; simpl; [|done].
  apply update_loop_ok; [done|]. by apply (heap_ok_at _ _ _ Hok E).
Qed.

Lemma UpdateFromChain_ok n h a ad h' b :
  heap_ok h -> UpdateFromChain_n n h a ad = Some (h', b) -> heap_ok h'.
Proof.
  revert h ad h' b. induction n as [|n IH]; intros h ad h' b Hok; simpl; [done|].
  destruct (h !! ad) as [src|]; simpl; [|done]. destruct (chained_parent_ad src) as [p|]; simpl.
  - destruct (UpdateFromChain_n n h a p) as [[h1 ok]|] eqn:E; simpl; [|done].
    apply IH in E; [|done]. destruct ok; [by apply Update_ok|by intros [= <- _]].
  - by apply Update_ok.
Qed.

Lemma CopyFrom_ok h a b h' ok : heap_ok h -> CopyFrom h a b = Some (h', ok) -> heap_ok h'.
Proof.
  intros Hok. unfold CopyFrom. case_bool_decide; [by intros [= <- _]|].
  destruct (h !! b) as [src|] eqn:Eb; simpl; [|done].
  destruct (on_ad a _ h) as [h1|] eqn:E1; simpl; [|done].
  destruct (foldM _ h1 _) as [h2|] eqn:E2; simpl; [|done].
  destruct (on_ad a _ h2) as [h3|] eqn:E3; simpl; [|done]. intros [= <- _].
  refine (heap_ok_on_ad _ _ _ _ _ _ E3); [|intros ad; by apply ad_ok_attrs].
  refine (foldM_P heap_ok _ _ _ _ _ _ E2).
  - refine (heap_ok_on_ad _ _ _ _ Hok _ E1). repeat constructor.
  - intros h4 kv h5 Hin Hok4. destruct (copy_entry _ a h4 kv) as [[h6 ?]|] eqn:Ec; simpl; [|done].
    assert (Hok6 : heap_ok h6).
    { eapply copy_entry_ok; [intros ????; apply Copy_ad_ok|exact Hok4| |exact Ec].
      eapply ad_ok_nul_free; [by apply Hok|done]. }
    destruct (_ && _); [|by intros [= <-]].
    intros E. refine (heap_ok_on_ad _ _ _ _ Hok6 _ E). intros ad. by apply ad_ok_attrs.
Qed.

Lemma PruneChildAttr_ok h a name m h' b :
  heap_ok h -> nul_free name -> PruneChildAttr h a name m = Some (h', b) -> heap_ok h'.
Proof.
  intros Hok Hn. unfold PruneChildAttr. destruct (h !! a) as [ad|] eqn:Ea; simpl; [|done].
  destruct (chained_parent_ad ad); [|by intros [= <- _]].
  destruct (_ ≫= _) as [[k t]|]; [|by intros [= <- _]].
  match goal with |- context [?x ≫= _] => destruct x as [[]|]; simpl end; intros [= <- _]; [|done].
  apply heap_ok_insert; [done|]. apply erase_attr_ok; [done|]. by apply Hok.
Qed.

(** The names of pruned attributes are names of the ClassAd. *)
Lemma victims_sublist h p l vs : victims h p l = Some vs -> vs `sublist_of` l.*1.
Proof.
  revert vs. induction l as [|kv l IH]; intros vs; simpl; [by intros [= <-]|].
  destruct (repeats h p kv) as [b|]; simpl; [|done].
  destruct (victims h p l) as [vs'|]; simpl; [|done]. intros [= <-].
  specialize (IH vs' eq_refl). destruct b; by constructor.
Qed.

Definition prune_ad (ad : ClassAd) (vs : list string) : ClassAd :=
  foldl (fun ad s => erase_attr s ad) (foldl (fun ad s => MarkAttributeClean s ad) ad vs) vs.

Lemma MarkAttributeClean_attrs s ad : attrList (MarkAttributeClean s ad) = attrList ad.
Proof. unfold MarkAttributeClean. by destruct (do_dirty_tracking ad). Qed.
Lemma MarkAttributeClean_chain s ad : chained_parent_ad (MarkAttributeClean s ad) = chained_parent_ad ad.
Proof. unfold MarkAttributeClean. by destruct (do_dirty_tracking ad). Qed.

Lemma clean_all_fields ad vs :
  attrList (foldl (fun ad s => MarkAttributeClean s ad) ad vs) = attrList ad /\
  chained_parent_ad (foldl (fun ad s => MarkAttributeClean s ad) ad vs) = chained_parent_ad ad.
Proof.
  revert ad. induction vs as [|v vs IH]; intros ad; simpl; [done|].
  destruct (IH (MarkAttributeClean v ad)) as [-> ->].
  by rewrite MarkAttributeClean_attrs, MarkAttributeClean_chain.
Qed.

Lemma erase_all_fields ad vs :
  attrList (foldl (fun ad s => erase_attr s ad) ad vs) =
    foldl (fun l s => (fm_erase l s).1) (attrList ad) vs /\
  chained_parent_ad (foldl (fun ad s => erase_attr s ad) ad vs) = chained_parent_ad ad.
Proof.
  revert ad. induction vs as [|v vs IH]; intros ad; simpl; [done|]. apply (IH (erase_attr v ad)).
Qed.

Lemma prune_ad_spec ad vs :
  attrList (prune_ad ad vs) = foldl (fun l s => (fm_erase l s).1) (attrList ad) vs /\
  chained_parent_ad (prune_ad ad vs) = chained_parent_ad ad.
Proof.
  unfold prune_ad. destruct (clean_all_fields ad vs) as [<- <-]. apply erase_all_fields.
Qed.

Lemma erase_all_ok a l vs :
  Forall nul_free vs -> fm_ok l -> Forall (fun kv => SetParentScope (Some a) kv.2 = kv.2) l ->
  fm_ok (foldl (fun l s => (fm_erase l s).1) l vs) /\
  Forall (fun kv => SetParentScope (Some a) kv.2 = kv.2) (foldl (fun l s => (fm_erase l s).1) l vs).
Proof.
  intros Hvs. revert l. induction Hvs as [|v vs Hv _ IH]; intros l H1 H2; simpl; [done|].
  apply IH; [by apply fm_erase_spec|by apply Forall_fm_erase].
Qed.

Lemma PruneChildAd_ok h a h' n : heap_ok h -> PruneChildAd h a = Some (h', n) -> heap_ok h'.
Proof.
  intros Hok. unfold PruneChildAd. destruct (h !! a) as [ad|] eqn:Ea; simpl; [|done].
  destruct (chained_parent_ad ad) as [p|]; [|by intros [= <- _]].
  destruct (victims h p _) as [vs|] eqn:Ev; simpl; [|done]. intros [= <- _].
  pose proof (heap_ok_at _ _ _ Hok Ea) as [H1 H2]. apply heap_ok_insert; [done|].
  destruct (prune_ad_spec ad vs) as [E _]. unfold prune_ad in E. unfold ad_ok. rewrite E.
  apply erase_all_ok; [|done..]. apply victims_sublist in Ev.
  rewrite Forall_forall. intros v Hv. apply (elem_of_sublist _ _ _ Hv), list_elem_of_fmap in Ev
    as (kv&->&Hin). by eapply ad_ok_nul_free.
Qed.

(** ** Reachable stores *)
Definition is_literal (e : ExprTree) : bool := bool_decide (is_Some (literal_Evaluate e)).

(** One call of an operation on ClassAds: construction, insertion, deletion and removal,
    copies, updates, chaining, pruning, and the marks of dirty attributes.
    [ClassAd::Flatten] is none of them: the ClassAds it makes have expressions of other
    scopes, or none ([flattening_leaves_scopes] of [FlattenMerge]). *)
Inductive ad_step (h : heap) : heap -> Prop :=
| step_new a : h !! a = None -> ad_step h (<[a := new_ClassAd]> h)
| step_Insert a name t h' b :
    nul_free name -> Insert h a name t = Some (h', b) -> ad_step h h'
| step_InsertLiteral a name lit h' b :
    nul_free name -> is_literal lit = true ->
    InsertLiteral h a name lit = Some (h', b) -> ad_step h h'
| step_Delete a name h' b : nul_free name -> Delete h a name = Some (h', b) -> ad_step h h'
| step_Remove a name h' t : nul_free name -> Remove h a name = Some (h', t) -> ad_step h h'
| step_Clear a h' : Clear h a = Some h' -> ad_step h h'
| step_Copy a h' a' : Copy h a = Some (h', a') -> ad_step h h'
| step_CopyTree e h' e' : CopyTree h e = Some (h', e') -> ad_step h h'
| step_CopyFrom a b h' ok : CopyFrom h a b = Some (h', ok) -> ad_step h h'
| step_CopyFromChain a b h' ok : CopyFromChain h a b = Some (h', ok) -> ad_step h h'
| step_Update a b h' ok : Update h a b = Some (h', ok) -> ad_step h h'
| step_UpdateFromChain a b h' ok : UpdateFromChain h a b = Some (h', ok) -> ad_step h h'
| step_ChainToAd a p h' : ChainToAd h a p = Some h' -> ad_step h h'
| step_Unchain a h' : Unchain h a = Some h' -> ad_step h h'
| step_PruneChildAttr a name m h' b :
    nul_free name -> PruneChildAttr h a name m = Some (h', b) -> ad_step h h'
| step_PruneChildAd a h' n : PruneChildAd h a = Some (h', n) -> ad_step h h'
| step_alternate a s h' : on_ad a (set_alternateScope s) h = Some h' -> ad_step h h'
| step_dirty a f h' :
    f ∈ [EnableDirtyTracking; DisableDirtyTracking; ClearAllDirtyFlags] ->
    on_ad a f h = Some h' -> ad_step h h'
| step_mark a name h' :
    on_ad a (MarkAttributeDirty name) h = Some h' -> ad_step h h'
| step_clean a name h' :
    on_ad a (MarkAttributeClean name) h = Some h' -> ad_step h h'.

Lemma is_literal_scope s e : is_literal e = true -> SetParentScope s e = e.
Proof. unfold is_literal. intros H%bool_decide_eq_true. destruct e; simpl in *; naive_solver. Qed.

Lemma clear_ad_ok a ad : ad_ok a (clear_ad ad).
Proof. repeat constructor. Qed.

Lemma ad_step_ok h h' : ad_step h h' -> heap_ok h -> heap_ok h'.
Proof.
  destruct 1; intros Hok;
    try match goal with H : Update _ _ _ = _ |- _ => by eapply Update_ok end;
    try (match goal with H : on_ad _ _ _ = _ |- _ => refine (heap_ok_on_ad _ _ _ _ Hok _ H) end;
         intros ad Had).
  - apply heap_ok_insert; [done|]. repeat constructor.
  - by eapply Insert_ok.
  - unfold InsertLiteral in *. destruct (on_ad _ _ _) eqn:E; simplify_eq/=.
    refine (heap_ok_on_ad _ _ _ _ Hok _ E). intros ad. apply insert_attr_ok; [done|].
    by apply is_literal_scope.
  - by eapply Delete_ok.
  - by eapply Remove_ok.
  - refine (heap_ok_on_ad _ _ _ _ Hok _ H). intros. apply clear_ad_ok.
  - by eapply Copy_ad_ok.
  - by eapply CopyTree_ok.
  - by eapply CopyFrom_ok.
  - unfold CopyFromChain in *. case_bool_decide; simplify_eq/=; [done|].
    destruct (Clear h a) as [h1|] eqn:E; simpl in *; [|done].
    eapply UpdateFromChain_ok; [|done]. refine (heap_ok_on_ad _ _ _ _ Hok _ E).
    intros. apply clear_ad_ok.
  - by eapply UpdateFromChain_ok.
  - destruct p; simpl in *; [|by simplify_eq].
    refine (heap_ok_on_ad _ _ _ _ Hok _ H). intros ad. by apply ad_ok_attrs.
  - refine (heap_ok_on_ad _ _ _ _ Hok _ H). intros ad. by apply ad_ok_attrs.
  - by eapply PruneChildAttr_ok.
  - by eapply PruneChildAd_ok.
  - by eapply ad_ok_attrs.
  - rewrite !elem_of_cons in H. eapply ad_ok_attrs, Had.
    destruct H as [->|[->|[->|[]%elem_of_nil]]]; done.
  - eapply ad_ok_attrs, Had. unfold MarkAttributeDirty. by destruct (do_dirty_tracking ad).
  - eapply ad_ok_attrs, Had. apply MarkAttributeClean_attrs.
Qed.

(** C34: In every store that the operations of [ad_step] can build, each attribute table is in
    order with at most one entry per case-folded name, and every expression has the ClassAd
    that holds it as its scope: construction, insertion, deletion, removal, deep and shallow
    copies, updates, chaining, pruning and dirty marks all keep this. [ClassAd::Flatten] is
    not among them, and does not. *)
Theorem reachable_heap_ok h : rtc ad_step ∅ h -> heap_ok h.
Proof.
  intros H. assert (Hok : heap_ok ∅) by (apply map_Forall_empty).
  induction H; eauto using ad_step_ok.
Qed.

Lemma reachable_heap_ok_witness :
  heap_ok (<[1%positive := set_attrList [("A", AttributeReference (Some 1%positive) None "B" false)]
             new_ClassAd]> ∅).
Proof.
  apply reachable_heap_ok.
  eapply rtc_l; [apply (step_new _ 1%positive); reflexivity|].
  eapply rtc_l; [|apply rtc_refl].
  eapply (step_Insert _ 1%positive "A" (Some (AttributeReference None None "B" false)) _ true);
    reflexivity.
Defined.
