(* ===== verification/AdStoreLaws.v ===== *)
(** * The ClassAd store: laws of deletion, copying and pruning *)
From Stdlib Require Import ZArith Lia Ascii String.
From stdpp Require Import base list gmap strings fin_maps fin_map_dom sorting.
From S2P Require Import Prelude Double Tree Values FlatMap AdStore AdStoreFacts.

(** [Lookup] does not depend on the spelling of the name. *)
Lemma Lookup_spelling h a name name' :
  heap_ok h -> nul_free name -> nul_free name' -> attr_key name = attr_key name' ->
  Lookup h a name = Lookup h a name'.
Proof.
  intros Hok Hn Hn' Hk. unfold Lookup. generalize (size h) as n. intros n.
  revert a. induction n as [|n IH]; intros a; simpl; [done|].
  destruct (h !! a) as [ad|] eqn:E; simpl; [|done].
  pose proof (heap_ok_at _ _ _ Hok E) as [Hfm _].
  rewrite !fm_lookup_spec, Hk by done. destruct (snd <$> _); [done|].
  destruct (chained_parent_ad ad); [apply IH|done].
Qed.

(** ** Deletion *)

(** A lookup that returns and does not visit [a] does not depend on what is at [a]. *)
Lemma chain_lookup_elsewhere h a ad' name x path r :
  a ∉ path -> chain_lookup (<[a := ad']> h) name x path r -> chain_lookup h name x path r.
Proof.
  intros Hn H. induction H as [x ad t E Hl|x ad E Hl Hc|x ad p path r E Hl Hc H IH];
    rewrite ?not_elem_of_cons in Hn; destruct Hn as [Hne Hn];
    rewrite lookup_insert_ne in E by done.
  - by eapply chain_here.
  - by eapply chain_end.
  - eapply chain_up; [done..|]. by apply IH.
Qed.

(** With the name erased at [a], the parent of [a] answers as it did before. *)
Lemma parent_lookup_erased h a ad name r :
  heap_ok h -> nul_free name -> h !! a = Some ad ->
  parent_lookup (<[a := erase_attr name ad]> h) a name = Some r ->
  parent_lookup h a name = Some r.
Proof.
  intros Hok Hn Ea. unfold parent_lookup. rewrite lookup_insert_eq, Ea. simpl.
  pose proof (heap_ok_at _ _ _ Hok Ea) as [Hfm _].
  destruct (chained_parent_ad ad) as [p|] eqn:Ec; [|done].
  intros [path Hp]%Lookup_chain_sound.
  assert (Hna : a ∉ path).
  { intros Hin. pose proof (chain_lookup_NoDup _ _ _ _ _ Hp) as Hnd.
    destruct (chain_lookup_visit _ _ _ _ _ _ Hp Hin) as (pre&suf&->&Hs).
    assert (He : fm_lookup (attrList (erase_attr name ad)) name = None).
    { simpl. by rewrite fm_lookup_erase, decide_True. }
    inversion Hs; rewrite lookup_insert_eq in *; simplify_eq/=; try congruence.
    match goal with H : chain_lookup _ _ p _ _ |- _ =>
      destruct (chain_lookup_det _ _ _ _ _ Hp _ _ H) as [E _] end.
    apply (f_equal length) in E. rewrite length_app in E. simpl in E. lia. }
  apply chain_lookup_elsewhere in Hp; [|done].
  eapply Lookup_chain_mono; [by eapply Lookup_chain_complete|by eapply chain_lookup_length].
Qed.

Lemma Lookup_own_or_parent h a ad name r :
  h !! a = Some ad -> parent_lookup h a name = Some r ->
  (fm_lookup (attrList ad) name = None -> Lookup h a name = Some r) /\
  (forall t, fm_lookup (attrList ad) name = Some t -> Lookup h a name = Some (Some t)).
Proof.
  intros Ea Hp. split; [|by intros t; apply Lookup_here].
  intros Hn. unfold parent_lookup in Hp. rewrite Ea in Hp. simpl in Hp.
  assert (exists path, chain_lookup h name a path r) as [path H].
  { destruct (chained_parent_ad ad) as [p|] eqn:Ec.
    - apply Lookup_chain_sound in Hp as [path Hp]. eexists. by eapply chain_up.
    - simplify_eq. eexists. by eapply chain_end. }
  eapply Lookup_chain_mono; [by eapply Lookup_chain_complete|by eapply chain_lookup_length].
Qed.

Lemma erase_view h a ad name x name' :
  heap_ok h -> nul_free name -> nul_free name' -> h !! a = Some ad ->
  view name' <$> (<[a := erase_attr name ad]> h) !! x =
    if decide (x = a /\ attr_key name' = attr_key name)
    then Some (None, chained_parent_ad ad) else view name' <$> h !! x.
Proof.
  intros Hok Hn Hn' Ea. pose proof (heap_ok_at _ _ _ Hok Ea) as [Hfm _].
  destruct (decide (x = a)) as [->|Hx].
  - rewrite lookup_insert_eq, Ea. unfold view. simpl. rewrite fm_lookup_erase by done.
    destruct (decide (attr_key name' = attr_key name));
      [by rewrite decide_True by done|by rewrite decide_False by naive_solver].
  - rewrite lookup_insert_ne by done. by rewrite decide_False by naive_solver.
Qed.

Lemma erase_Lookup_other h a ad name x name' :
  heap_ok h -> nul_free name -> nul_free name' -> h !! a = Some ad ->
  attr_key name' <> attr_key name ->
  Lookup (<[a := erase_attr name ad]> h) x name' = Lookup h x name'.
Proof.
  intros Hok Hn Hn' Ea Hk. apply Lookup_ext.
  - apply dom_size. by eapply dom_insert_same.
  - intros y. rewrite (erase_view h a ad name y name') by done.
    by rewrite decide_False by naive_solver.
Qed.

(** What [Lookup] finds under the erased name: the chained parent's attribute. *)
Lemma erase_Lookup_same h a ad name name' r :
  heap_ok h -> nul_free name -> nul_free name' -> h !! a = Some ad ->
  attr_key name' = attr_key name ->
  parent_lookup (<[a := erase_attr name ad]> h) a name = Some r ->
  Lookup (<[a := erase_attr name ad]> h) a name' = Some r.
Proof.
  intros Hok Hn Hn' Ea Hk Hp. pose proof (heap_ok_at _ _ _ Hok Ea) as Had.
  assert (Hok' : heap_ok (<[a := erase_attr name ad]> h)).
  { apply heap_ok_insert; [done|]. by apply erase_attr_ok. }
  rewrite (Lookup_spelling _ a name' name) by done. eapply Lookup_own_or_parent; [apply lookup_insert_eq|done|].
  simpl. destruct Had as [Hfm _]. by rewrite fm_lookup_erase, decide_True by done.
Qed.

(** What [Delete] leaves alone. *)
Lemma Delete_Lookup_other h a name h' b name' x :
  heap_ok h -> nul_free name -> nul_free name' -> name <> ""%string ->
  Delete h a name = Some (h', b) -> attr_key name' <> attr_key name -> Lookup h' x name' = Lookup h x name'.
Proof.
  intros Hok Hn Hn' Hne. unfold Delete. destruct (h !! a) as [ad|] eqn:Ea; simpl; [|done].
  assert (Hok1 : heap_ok (<[a := erase_attr name ad]> h)).
  { apply heap_ok_insert; [done|]. pose proof (heap_ok_at _ _ _ Hok Ea). by apply erase_attr_ok. }
  destruct (parent_lookup _ a name) as [inh|]; simpl; [|done].
  intros H Hk. destruct inh as [t|]; simpl in H.
  - destruct (Insert _ a name _) as [[h2 b2]|] eqn:Ei; simplify_eq/=.
    rewrite (Insert_then_Lookup_other _ _ _ _ _ _ _ Hok1 Hn Hn' Hne Ei Hk).
    by apply erase_Lookup_other.
  - simplify_eq. by apply erase_Lookup_other.
Qed.

(** [Delete] answers whether [Lookup] found the attribute. Afterwards the name is not
    found, unless the chained parent has it: then the deleted attribute is defined as the
    undefined literal, so that the parent's does not show through. In every ClassAd the
    attributes of other names are found as before. *)
Theorem Delete_spec h a name h' b name' :
  heap_ok h -> nul_free name -> nul_free name' -> name <> ""%string ->
  Delete h a name = Some (h', b) ->
  exists found inherited,
    Lookup h a name = Some found /\ parent_lookup h a name = Some inherited /\
    b = bool_decide (is_Some found) /\
    (attr_key name' = attr_key name -> Lookup h' a name' = Some ((fun _ => UndefinedLiteral) <$> inherited)) /\
    (attr_key name' <> attr_key name -> forall x, Lookup h' x name' = Lookup h x name').
Proof.
  intros Hok Hn Hn' Hne. unfold Delete. destruct (h !! a) as [ad|] eqn:Ea; simpl; [|done].
  pose proof (heap_ok_at _ _ _ Hok Ea) as Had. pose proof Had as [Hfm _].
  assert (Hok1 : heap_ok (<[a := erase_attr name ad]> h)).
  { apply heap_ok_insert; [done|]. by apply erase_attr_ok. }
  destruct (parent_lookup (<[a := erase_attr name ad]> h) a name) as [inh|] eqn:Ep;
    simpl; [|done].
  pose proof (parent_lookup_erased _ _ _ _ _ Hok Hn Ea Ep) as Ep0.
  destruct (Lookup_own_or_parent _ _ _ _ _ Ea Ep0) as [HN HS].
  intros H. exists (from_option Some inh (fm_lookup (attrList ad) name)), inh.
  split_and!; [by destruct (fm_lookup _ _) eqn:?; simpl; auto|done|..].
  - destruct inh as [t|]; simpl in H.
    + destruct (Insert _ a name _) as [[h2 b2]|] eqn:Ei; simplify_eq/=.
      rewrite bool_decide_true; [done|]. by destruct (fm_lookup _ _).
    + simplify_eq. rewrite fm_erase_flag by done. apply bool_decide_ext.
      by destruct (fm_lookup (attrList ad) name).
  - intros Hk. destruct inh as [t|]; simpl in H.
    + destruct (Insert _ a name _) as [[h2 b2]|] eqn:Ei; simplify_eq/=.
      by apply (Insert_then_Lookup_same _ _ _ _ _ _ _ Hok1 Hn Hn' Hne Ei).
    + simplify_eq. by eapply erase_Lookup_same.
  - intros Hk x. eapply (Delete_Lookup_other h a name); try done. unfold Delete. rewrite Ea. simpl. by rewrite Ep.
Qed.

(** A child [2] chained to a parent [1]: both define [Cpus]. *)
Definition chained_example : heap :=
  <[1%positive := set_attrList [("Cpus", IntegerLiteral 8)] new_ClassAd]>
    (<[2%positive := set_chained_parent_ad (Some 1%positive)
         (set_attrList [("CPUS", IntegerLiteral 8); ("Memory", IntegerLiteral 1)] new_ClassAd)]> ∅).

Lemma chained_example_ok : heap_ok chained_example.
Proof.
  intros x ad. unfold chained_example.
  rewrite !lookup_insert_Some, lookup_empty. intros [[<- <-]|[_ [[<- <-]|[_ [=]]]]];
    (split; [split|]); repeat constructor.
Defined.

Lemma Delete_spec_witness :
  exists h', Delete chained_example 2%positive "cpus" = Some (h', true) /\
    Lookup h' 2%positive "Cpus" = Some (Some UndefinedLiteral).
Proof.
  eexists. split; [reflexivity|].
  destruct (Delete_spec chained_example 2%positive "cpus" _ true "Cpus" chained_example_ok
    eq_refl eq_refl ltac:(done) eq_refl) as (f&i&_&Ei&_&H&_).
  rewrite (H eq_refl). vm_compute in Ei. by injection Ei as <-.
Defined.

(** ** Copies *)

(** A tree without its scopes and without the identity of the ClassAds it nests. *)
Fixpoint shape (e : ExprTree) : ExprTree :=
  match e with
  | AttributeReference _ x a b => AttributeReference None (shape <$> x) a b
  | Operation1 _ op c => Operation1 None op (shape c)
  | OperationParens _ c => OperationParens None (shape c)
  | Operation2 _ op c1 c2 => Operation2 None op (shape c1) (shape c2)
  | Operation3 _ c1 c2 c3 => Operation3 None (shape c1) (shape <$> c2) (shape c3)
  | FunctionCall _ f l => FunctionCall None f (shape <$> l)
  | ExprList _ l => ExprList None (shape <$> l)
  | ClassAdNode _ => ClassAdNode 1%positive
  | _ => e
  end.

Lemma shape_SetParentScope s e : shape (SetParentScope s e) = shape e.
Proof.
  induction e using ExprTree_induct; simpl; try congruence.
  all: f_equal; rewrite <- list_fmap_compose; apply list_fmap_ext;
    intros i x Hx; eapply Forall_lookup in H; [|exact Hx]; done.
Qed.

(** What a copy is: the old store is intact and the copied nodes are new. *)
Definition tree_copied (h : heap) (e : ExprTree) (h' : heap) (e' : ExprTree) : Prop :=
  h ⊆ h' /\ Forall (fun c => h !! c = None) (nested_ads e') /\ shape e' = shape e.

Section copied.
Variable copy_ad : heap -> adref -> option (heap * adref).
Hypothesis copy_ad_new : forall h a h' a', copy_ad h a = Some (h', a') -> h ⊆ h' /\ h !! a' = None.

Lemma fresh_weaken (h h' : heap) (l : list adref) :
  h ⊆ h' -> Forall (fun c => h' !! c = None) l -> Forall (fun c => h !! c = None) l.
Proof. intros Hs Hl. eapply Forall_impl; [exact Hl|]. intros c Hc. exact (lookup_weaken_None _ _ _ Hc Hs). Qed.

Lemma map_st_copied l h h' l' :
  Forall (fun x => forall h h' x', copy_tree copy_ad h x = Some (h', x') -> tree_copied h x h' x') l ->
  map_st (copy_tree copy_ad) h l = Some (h', l') ->
  h ⊆ h' /\ Forall (fun c => h !! c = None) (concat (nested_ads <$> l')) /\ shape <$> l' = shape <$> l.
Proof.
  intros Hl. revert h h' l'. induction Hl as [|x l Hx _ IH]; intros h h' l'; simpl.
  { by intros [= <- <-]. }
  destruct (copy_tree copy_ad h x) as [[h1 y]|] eqn:E1; simpl; [|done].
  destruct (map_st _ h1 l) as [[h2 l2]|] eqn:E2; simpl; [|done]. intros [= <- <-].
  destruct (Hx _ _ _ E1) as (H1&H2&H3). destruct (IH _ _ _ E2) as (I1&I2&I3).
  split_and!; [by etrans| |exact (f_equal2 cons H3 I3)].
  apply Forall_app. eauto using fresh_weaken.
Qed.

Lemma copy_tree_copied e h h' e' :
  copy_tree copy_ad h e = Some (h', e') -> tree_copied h e h' e'.
Proof.
  revert h h' e'. induction e using ExprTree_induct; intros h h' e'; simpl;
    try (intros [= <- <-]; by split_and!; simpl; eauto).
  all: try (repeat (match goal with
       | |- context [copy_tree copy_ad ?h0 ?x] =>
           destruct (copy_tree copy_ad h0 x) as [[? ?]|] eqn:?; simpl; [|done]
       end); intros [= <- <-];
       repeat match goal with
       | IH : forall h h' e', copy_tree copy_ad h ?x = _ -> _, E : copy_tree copy_ad _ ?x = _ |- _ =>
           destruct (IH _ _ _ E) as (?&?&?); clear IH E
       end;
       unfold tree_copied; simpl; rewrite ?Forall_app; split_and!; eauto using fresh_weaken;
       try (congruence || (repeat (etrans; [eassumption|]); reflexivity)); fail).
  3: { destruct (copy_ad h a) as [[h1 c]|] eqn:E; simpl; [|done]. intros [= <- <-].
       apply copy_ad_new in E as [??]. split_and!; [done| |done]. by repeat constructor. }
  all: destruct (map_st _ _ _) as [[h1 l']|] eqn:E; simpl; [|done]; intros [= <- <-];
    destruct (map_st_copied _ _ _ _ H E) as (?&?&Hs); split_and!; [done..|];
    simpl; f_equal; exact Hs.
Qed.
End copied.

(** Insertions of ordered names build the table by appending. *)
Lemma fm_insert_snoc {V} (l : list (string * V)) key v v0 :
  fm_ok (l ++ [(key, v0)]) -> fm_insert l key v = l ++ [(key, v)].
Proof.
  intros [Hs _]. apply StronglySorted_app in Hs as (Hlt&_&_).
  assert (Hlb : lower_bound l key = length l).
  { assert (H : forall x, x ∈ l -> FlatMapOrder x.1 key = true).
    { intros x Hx. exact (Hlt x (key, v0) Hx (list_elem_of_here _ _)). }
    clear Hlt. induction l as [|[k w] l IH]; simpl; [done|].
    pose proof (H (k, w) ltac:(left)) as Hk. simpl in Hk. rewrite Hk, IH; [done|]. intros x Hx. apply H. by right. }
  unfold fm_insert, fm_emplace, fm_find. rewrite Hlb.
  rewrite (lookup_ge_None_2 l) by lia. by rewrite take_ge, drop_ge by lia.
Qed.

Definition entry_copied (kv kv' : string * ExprTree) : Prop :=
  kv'.1 = kv.1 /\ shape kv'.2 = shape kv.2.

(** The copying loop, one entry. *)
Lemma copy_entry_step copy_ad h hc newAd adc kv h' b :
  (forall h a h' a', copy_ad h a = Some (h', a') -> h ⊆ h' /\ h !! a' = None) ->
  h ⊆ hc -> h !! newAd = None -> hc !! newAd = Some adc ->
  copy_entry copy_ad newAd hc kv = Some (h', b) ->
  exists adc', h ⊆ h' /\ h' !! newAd = Some adc' /\
    chained_parent_ad adc' = chained_parent_ad adc /\ parentScope adc' = parentScope adc /\
    (kv.1 <> ""%string -> exists t, attrList adc' = fm_insert (attrList adc) kv.1 t /\
                             shape t = shape kv.2).
Proof.
  intros Hnew Hsub Hfresh Ec. unfold copy_entry.
  destruct (copy_tree copy_ad hc kv.2) as [[h1 t]|] eqn:Et; simpl; [|done].
  intros Hi. destruct (copy_tree_copied _ Hnew _ _ _ _ Et) as (H1&H2&H3).
  rewrite Forall_forall in H2. pose proof (lookup_weaken _ _ _ _ Ec H1) as Ec1.
  destruct (decide (kv.1 = ""%string)) as [He|Hne].
  { rewrite He in Hi. injection Hi as <- <-. exists adc. split_and!; [by etrans|done..]. }
  destruct (Insert_inv _ _ _ _ _ _ Hne Hi) as (_&ad&Ea&->). simplify_eq.
  rewrite decide_False by (intros Hin; specialize (H2 _ Hin); congruence).
  eexists. split_and!; [|by rewrite lookup_insert_eq|by rewrite insert_attr_chain|..].
  - apply map_subseteq_spec. intros x adx Hx.
    assert (x <> newAd) by congruence. rewrite lookup_insert_ne, scope_nested_lookup by done.
    pose proof (lookup_weaken _ _ _ _ Hx Hsub) as Hx1.
    rewrite decide_False by (intros Hin; specialize (H2 _ Hin); congruence).
    by rewrite (lookup_weaken _ _ _ _ Hx1 H1).
  - unfold insert_attr, MarkAttributeDirty. simpl. by destruct (do_dirty_tracking adc).
  - intros _. rewrite insert_attr_attrList. eexists. split; [done|]. by rewrite shape_SetParentScope.
Qed.

Lemma entry_copied_extend done kv rest l t :
  fm_ok (done ++ kv :: rest) -> Forall2 entry_copied done l -> shape t = shape kv.2 ->
  Forall2 entry_copied (done ++ [kv]) (fm_insert l kv.1 t).
Proof.
  intros Hok Hd Ht. rewrite (fm_insert_snoc _ _ _ kv.2).
  - apply Forall2_app; [done|]. by repeat constructor.
  - assert (Hn : l.*1 = done.*1).
    { clear -Hd. induction Hd as [|?? ?? [? _] _ IH]; [done|]. by apply (f_equal2 cons). }
    eapply (fm_ok_names (done ++ [kv])); [by rewrite !fmap_app, Hn|].
    replace (done ++ kv :: rest) with ((done ++ [kv]) ++ rest) in Hok by by rewrite <- app_assoc.
    destruct Hok as [Hs Hnf]. apply StronglySorted_app in Hs as (_&?&_).
    by apply Forall_app in Hnf as [? _].
Qed.

Lemma copy_loop copy_ad h newAd rest :
  (forall h a h' a', copy_ad h a = Some (h', a') -> h ⊆ h' /\ h !! a' = None) ->
  h !! newAd = None ->
  forall hc adc h',
  h ⊆ hc -> hc !! newAd = Some adc ->
  foldM (fun h kv => fst <$> copy_entry copy_ad newAd h kv) hc rest = Some h' ->
  exists ad', h ⊆ h' /\ h' !! newAd = Some ad' /\
    chained_parent_ad ad' = chained_parent_ad adc /\ parentScope ad' = parentScope adc /\
    forall done, fm_ok (done ++ rest) -> Forall (fun kv => kv.1 <> ""%string) rest ->
      Forall2 entry_copied done (attrList adc) ->
      Forall2 entry_copied (done ++ rest) (attrList ad').
Proof.
  intros Hnew Hfresh. induction rest as [|kv rest IH]; intros hc adc h' Hsub Ec; simpl.
  { intros [= <-]. exists adc. split_and!; [done..|]. intros done. by rewrite app_nil_r. }
  destruct (copy_entry _ _ hc kv) as [[h1 b]|] eqn:E; simpl; [|done]. intros Hf.
  destruct (copy_entry_step _ _ _ _ _ _ _ _ Hnew Hsub Hfresh Ec E) as (adc1&Hs1&Ec1&Hc1&Hp1&Ht).
  destruct (IH _ _ _ Hs1 Ec1 Hf) as (ad'&?&?&Hc2&Hp2&Hall).
  exists ad'. split_and!; [done|done|congruence|congruence|]. intros done Hok Hne Hd.
  inversion_clear Hne as [|? ? Hk Hne']. destruct (Ht Hk) as (t&Et&Hsh).
  replace (done ++ kv :: rest) with ((done ++ [kv]) ++ rest) by by rewrite <- app_assoc.
  apply Hall; [by rewrite <- app_assoc|done|]. rewrite Et. by eapply entry_copied_extend.
Qed.

Lemma Copy_ad_new n h a h' a' : Copy_ad n h a = Some (h', a') -> h ⊆ h' /\ h !! a' = None.
Proof.
  revert h a h' a'. induction n as [|n IH]; intros h a h' a'; simpl; [done|].
  destruct (h !! a) as [ad|] eqn:Ea; simpl; [|done].
  destruct (foldM _ _ _) as [h1|] eqn:E; simpl; [|done]. intros [= <- <-].
  assert (Hf : h !! fresh (dom h) = None) by (apply not_elem_of_dom, is_fresh).
  split; [|done]. destruct (copy_loop _ _ _ _ IH Hf _ _ _
    ltac:(by apply insert_subseteq) ltac:(apply lookup_insert_eq) E) as (?&?&_). done.
Qed.

(** [ClassAd::Copy] makes a deep copy: no existing ClassAd changes, the copy is a new
    one with the chain and scope of the original, and it has the attributes of the original
    in the same order, with equal expressions up to their scopes and the identity of the
    ClassAds nested in them. *)
Theorem Copy_spec h a ad h' c :
  heap_ok h -> h !! a = Some ad -> Forall (fun kv => kv.1 <> ""%string) (attrList ad) ->
  Copy h a = Some (h', c) ->
  h ⊆ h' /\ h !! c = None /\
  exists ad', h' !! c = Some ad' /\
    chained_parent_ad ad' = chained_parent_ad ad /\ parentScope ad' = parentScope ad /\
    Forall2 entry_copied (attrList ad) (attrList ad').
Proof.
  intros Hok Ea Hne. unfold Copy. destruct (size h) as [|n]; simpl; [done|].
  rewrite Ea. simpl. destruct (foldM _ _ _) as [h1|] eqn:E; simpl; [|done]. intros [= <- <-].
  assert (Hf : h !! fresh (dom h) = None) by (apply not_elem_of_dom, is_fresh).
  destruct (copy_loop _ _ _ _ (Copy_ad_new n) Hf _ _ _
    ltac:(by apply insert_subseteq) ltac:(apply lookup_insert_eq) E) as (ad'&?&?&?&?&Hall).
  split_and!; [done..|]. exists ad'. split_and!; [done..|].
  apply (Hall []); [|done|constructor]. by apply (heap_ok_at _ _ _ Hok Ea).
Qed.

Lemma Copy_spec_witness :
  exists h' c, Copy chained_example 2%positive = Some (h', c) /\
    chained_example ⊆ h' /\ chained_example !! c = None.
Proof.
  eexists _, _. split; [vm_compute; reflexivity|].
  refine ((fun H => conj (proj1 H) (proj1 (proj2 H)))
    (Copy_spec chained_example 2%positive _ _ _ chained_example_ok eq_refl _ _)).
  - repeat constructor; done.
  - vm_compute. reflexivity.
Defined.

(** ** Pruning *)

(** One link of the chain. *)
Definition chained (h : heap) (x y : adref) : Prop :=
  exists ad, h !! x = Some ad /\ chained_parent_ad ad = Some y.

Lemma chain_lookup_above h name a path r x :
  chain_lookup h name a path r -> x ∈ path -> rtc (chained h) a x.
Proof.
  induction 1; rewrite ?list_elem_of_singleton, ?elem_of_cons; [by intros ->..|].
  intros [->|Hx]; [done|]. eapply rtc_l; [by exists ad|auto].
Qed.

(** A lookup above [a] does not depend on what is at [a]. *)
Lemma Lookup_above h a ad' p name :
  ~ rtc (chained h) p a -> a ∈ dom h ->
  forall r, Lookup h p name = Some r -> Lookup (<[a := ad']> h) p name = Some r.
Proof.
  intros Hn Hd r [path H]%Lookup_chain_sound.
  assert (Ha : a ∉ path) by (intros Hin; by eapply Hn, chain_lookup_above).
  assert (H' : chain_lookup (<[a := ad']> h) name p path r).
  { clear Hn. induction H as [x ad t E Hl|x ad E Hl Hc|x ad q path r E Hl Hc H IH];
      rewrite ?not_elem_of_cons in Ha; destruct Ha as [Hne Hn];
      rewrite <- (lookup_insert_ne _ a _ ad') in E by done.
    - by eapply chain_here.
    - by eapply chain_end.
    - eapply chain_up; [done..|]. by apply IH. }
  eapply Lookup_chain_mono; [by eapply Lookup_chain_complete|by eapply chain_lookup_length].
Qed.

Lemma erase_all_lookup {V} (l : list (string * V)) vs name :
  fm_ok l -> Forall nul_free vs -> nul_free name ->
  fm_lookup (foldl (fun l s => (fm_erase l s).1) l vs) name =
    if decide (attr_key name ∈ attr_key <$> vs) then None else fm_lookup l name.
Proof.
  intros Hok Hvs Hn. revert l Hok. induction Hvs as [|v vs Hv _ IH]; intros l Hok.
  { rewrite decide_False; [done|]. apply not_elem_of_nil. }
  simpl foldl.
  rewrite IH, fm_lookup_erase by (by try apply fm_erase_spec).
  destruct (decide (attr_key name ∈ attr_key <$> vs)) as [Hin|Hout].
  - rewrite decide_True; [done|]. by right.
  - destruct (decide (attr_key name = attr_key v)) as [->|Hne].
    + rewrite decide_True; [done|]. by left.
    + rewrite decide_False; [done|]. intros [?|?]%elem_of_cons; done.
Qed.

Lemma victims_spec h p l vs :
  victims h p l = Some vs ->
  forall s, s ∈ vs <-> exists kv, kv ∈ l /\ kv.1 = s /\ repeats h p kv = Some true.
Proof.
  revert vs. induction l as [|kv l IH]; intros vs; simpl.
  { intros [= <-] s. split; [by intros ?%elem_of_nil|]. by intros (?&?%elem_of_nil&_). }
  destruct (repeats h p kv) as [b|] eqn:Er; simpl; [|done].
  destruct (victims h p l) as [vs'|] eqn:Ev; simpl; [|done]. intros [= <-] s.
  specialize (IH vs' eq_refl s). destruct b; rewrite ?elem_of_cons, IH.
  - split; [intros [->|(kv'&?&?&?)]; [by exists kv; set_solver|exists kv'; set_solver]|].
    intros (kv'&[->|?]%elem_of_cons&?&?); [by left|right; eauto].
  - split; [intros (kv'&?&?&?); exists kv'; set_solver|].
    intros (kv'&[->|?]%elem_of_cons&?&?); [congruence|eauto].
Qed.

(** The entry of a table that a lookup finds. *)
Lemma fm_lookup_entry {V} (l : list (string * V)) name t :
  fm_lookup l name = Some t -> exists k, (k, t) ∈ l /\ attr_key k = attr_key name.
Proof.
  unfold fm_lookup. destruct (fm_find l name) as [i|] eqn:E; [|done].
  destruct (fm_find_split _ _ _ E) as (l1&k&v&l2&->&->&Hk).
  rewrite lookup_app_r, Nat.sub_diag by lia. intros [= <-].
  exists k. split; [|done]. rewrite elem_of_app, elem_of_cons. auto.
Qed.

Lemma fm_lookup_of_entry {V} (l : list (string * V)) k t :
  fm_ok l -> (k, t) ∈ l -> fm_lookup l k = Some t.
Proof.
  intros Hok (l1&l2&->)%list_elem_of_split.
  assert (nul_free k).
  { destruct Hok as [_ Hn]. apply Forall_app in Hn as [_ Hn]. by inversion Hn. }
  rewrite fm_lookup_spec by done. rewrite fm_map_middle; simpl; [by rewrite lookup_insert_eq|].
  apply fm_ok_keys in Hok. by apply Forall_app in Hok as [? _].
Qed.

(** [PruneChildAd] keeps what a reader of the chained ClassAd sees: every lookup through
    the child, of a removed attribute or another, finds an expression that is the one found
    before or [SameAs] it. *)
Theorem PruneChildAd_view h a ad p h' n name r :
  heap_ok h -> nul_free name -> h !! a = Some ad -> chained_parent_ad ad = Some p ->
  ~ rtc (chained h) p a ->
  PruneChildAd h a = Some (h', n) -> Lookup h a name = Some r ->
  exists r', Lookup h' a name = Some r' /\
    (r' = r \/ exists t t', r = Some t /\ r' = Some t' /\ SameAs h t' t = Some true).
Proof.
  intros Hok Hn Ea Ec Hac. unfold PruneChildAd. rewrite Ea. simpl. rewrite Ec.
  destruct (victims h p _) as [vs|] eqn:Ev; simpl; [|done]. intros [= <- _] Hl.
  pose proof (heap_ok_at _ _ _ Hok Ea) as Had. pose proof Had as [Hfm _].
  fold (prune_ad ad vs). destruct (prune_ad_spec ad vs) as [Eattr Echain].
  assert (Hvs : Forall nul_free vs).
  { rewrite Forall_forall. intros s Hs. apply (victims_spec _ _ _ _ Ev) in Hs as (kv&?&<-&_).
    by eapply ad_ok_nul_free. }
  assert (Hd : a ∈ dom h) by (by eapply elem_of_dom_2).
  assert (E' : fm_lookup (attrList (prune_ad ad vs)) name =
    if decide (attr_key name ∈ attr_key <$> vs) then None else fm_lookup (attrList ad) name)
    by (by rewrite Eattr; apply erase_all_lookup).
  assert (Hup : forall rp, fm_lookup (attrList (prune_ad ad vs)) name = None ->
    Lookup h p name = Some rp -> Lookup (<[a := prune_ad ad vs]> h) a name = Some rp).
  { intros rp HN Hp. eapply Lookup_own_or_parent; [apply lookup_insert_eq| |done].
    unfold parent_lookup. rewrite lookup_insert_eq. simpl. rewrite Echain, Ec.
    by apply Lookup_above. }
  destruct (decide (attr_key name ∈ attr_key <$> vs)) as [Hv|Hv].
  - apply list_elem_of_fmap in Hv as (s&Hk&Hs).
    apply (victims_spec _ _ _ _ Ev) in Hs as ([k t]&Hin&<-&Hr). simpl in Hk. unfold repeats in Hr.
    simpl in Hr. destruct (Lookup h p k) as [[t'|]|] eqn:Ep; simplify_eq/=.
    assert (Hkn : nul_free k) by (by eapply (ad_ok_nul_free _ _ (k, t))).
    rewrite (Lookup_spelling h a name k), (Lookup_here _ _ _ _ _ Ea
      (fm_lookup_of_entry _ _ _ Hfm Hin)) in Hl by done. injection Hl as <-.
    exists (Some t'). split; [|right; eauto]. apply Hup; [done|].
    by rewrite (Lookup_spelling h p name k).
  - exists r. split; [|by left]. destruct (fm_lookup (attrList ad) name) as [t|] eqn:Ef.
    + rewrite (Lookup_here _ _ _ _ _ Ea Ef) in Hl. injection Hl as <-.
      by eapply Lookup_here; [apply lookup_insert_eq|].
    + apply Hup; [done|]. unfold Lookup in Hl |- *. destruct (size h) as [|m] eqn:Em; [done|].
      simpl in Hl. rewrite Ea in Hl. simpl in Hl. rewrite Ef, Ec in Hl.
      eapply Lookup_chain_mono; [done|lia].
Qed.

Lemma PruneChildAd_view_witness :
  exists h', PruneChildAd chained_example 2%positive = Some (h', 1) /\
    exists r', Lookup h' 2%positive "cpus" = Some r' /\
      (r' = Some (IntegerLiteral 8) \/
       exists t t', Some (IntegerLiteral 8) = Some t /\ r' = Some t' /\
         SameAs chained_example t' t = Some true).
Proof.
  eexists. split; [reflexivity|].
  eapply (PruneChildAd_view chained_example 2%positive _ 1%positive _ 1 "cpus"
    _ chained_example_ok eq_refl eq_refl eq_refl); [|reflexivity|reflexivity].
  intros H. inversion H as [|? y ? (ad&E&Ec) _]. vm_compute in E. injection E as <-. done.
Defined.
