(* ===== verification/Eval.v ===== *)
(** * Evaluation ([exprTree.cpp], [attrrefs.cpp], [exprList.cpp], [operators.cpp],
    [classad.cpp])

    [_Evaluate] of every node kind, in a monad over the store and the [EvalState]. The
    first argument of [Evaluate] is fuel: the C++ recursion is bounded only where it goes
    through [depth_remaining]. A C++ evaluation that returns [false] leaves in its result
    reference what was there before or what it wrote on the way, so [Evaluate] takes the
    former content and returns the flag with the content. *)
From Stdlib Require Import ZArith Lia Ascii String.
From stdpp Require Import base list gmap strings.
From S2P Require Import Prelude Double Tree Values Operators FlatMap AdStore.

Open Scope res_scope.

(** ** The evaluation state *)
Record EvalState := mk_EvalState {
  depth_remaining : Z;
  rootAd : option adref;
  curAd : option adref;
  flattenAndInline : bool
}.

Definition MAX_CLASSAD_RECURSION : Z := 400.

Abbreviation state := (heap * EvalState)%type.
Abbreviation M A := (state -> Res state A).

Definition set_depth d s := mk_EvalState d (rootAd s) (curAd s) (flattenAndInline s).
Definition set_curAd c s := mk_EvalState (depth_remaining s) (rootAd s) c (flattenAndInline s).

(** ** Elementary actions *)
Definition get_state : M EvalState := fun st => Ret st.2 st.
Definition modify_state (f : EvalState -> EvalState) : M unit := fun st => Ret tt (st.1, f st.2).
(** A read of the store, and an operation on it, with no outcome when they have none. *)
Definition read_heap {A} (f : heap -> option A) : M A :=
  fun st => match f st.1 with Some a => Ret a st | None => NoFuel end.
Definition on_heap {A} (f : heap -> option (heap * A)) : M A :=
  fun st => match f st.1 with Some (h, a) => Ret a (h, st.2) | None => NoFuel end.
Definition no_fuel {A} : M A := fun _ => NoFuel.
Definition classad_except {A} : M A := fun _ => Except.

(** [GetParentScope] of a tree. *)
Definition tree_scope (tree : ExprTree) : M (option adref) :=
  match tree with
  | ClassAdNode a => read_heap (fun h => parentScope <$> h !! a)
  | _ => rret (GetParentScope (fun _ => None) tree)
  end.

(** [SetRootScope]: null when the scopes come back to [curAd]. The fuel bounds the walk. *)
Fixpoint root_loop (n : nat) (h : heap) (curAd : adref) (prevScope : adref)
    (curScope : option adref) : option (option adref) :=
  match curScope with
  | None => Some (Some prevScope)
  | Some s =>
      match n with
      | O => None
      | S n' =>
          if bool_decide (s = curAd) then Some None
          else ad ← h !! s; root_loop n' h curAd s (parentScope ad)
      end
  end.
Definition SetRootScope (h : heap) (curAd : option adref) : option (option adref) :=
  match curAd with
  | None => Some None
  | Some c => ad ← h !! c; root_loop (size h) h c c (parentScope ad)
  end.

(** A computation in an [EvalState] of its own: [EvalState s; s.SetScopes (scope)]. *)
Definition in_new_state {A} (depth : Z) (inline : bool) (scope : option adref) (m : M A) : M A :=
  fun st =>
    match SetRootScope st.1 scope with
    | None => NoFuel
    | Some root =>
        match m (st.1, mk_EvalState depth root scope inline) with
        | Ret a st' => Ret a (st'.1, st.2)
        | NoFuel => NoFuel
        | Except => Except
        end
    end.

(** ** Lookup through the scopes *)

(** [EvalResult] with the expression found. *)
Inductive FindResult :=
| EVAL_FAIL
| EVAL_ERROR
| EVAL_UNDEF
| EVAL_OK (tree : ExprTree).

Section evaluation.
(** [_useOldClassAdSemantics] *)
Variable oldSemantics : bool.

(** [getSpecialAttrNames] *)
Definition specialAttrNames : list string :=
  ["toplevel"; "root"; "self"; "parent"]
    ++ (if oldSemantics then ["my"; "currenttime"] else []).
Definition is_special (name : string) : bool := bool_decide (attr_key name ∈ specialAttrNames).
Definition is_name (name attr : string) : bool := bool_decide (attr_key name = attr).

Definition special_lookup (name : string) (root : option adref) (current : adref)
    (superScope : option adref) : FindResult :=
  if is_name name "toplevel" || is_name name "root" then
    match root with Some r => EVAL_OK (ClassAdNode r) | None => EVAL_FAIL end
  else if is_name name "self" || is_name name "my" then EVAL_OK (ClassAdNode current)
  else if is_name name "parent" then
    match superScope with Some s => EVAL_OK (ClassAdNode s) | None => EVAL_UNDEF end
  else EVAL_OK (FunctionCall None "time" []).

Fixpoint LookupInScope_n (n : nat) (this : adref) (name : string) (current : option adref)
  : M FindResult :=
  match current with
  | None => rret EVAL_UNDEF
  | Some c =>
      match n with
      | O => no_fuel
      | S n' =>
          let! _ := modify_state (set_curAd (Some c)) in
          let! expr := read_heap (fun h => Lookup h c name) in
          match expr with
          | Some tree => rret (EVAL_OK tree)
          | None =>
              let! s := get_state in
              let! scope := read_heap (fun h => parentScope <$> h !! c) in
              let superScope := if bool_decide (rootAd s = Some c) then None else scope in
              if is_special name then rret (special_lookup name (rootAd s) c superScope)
              else if bool_decide (superScope = Some this) then rret EVAL_UNDEF
              else LookupInScope_n n' this name superScope
          end
      end
  end.
Definition LookupInScope (this : adref) (name : string) : M FindResult :=
  fun st => LookupInScope_n (S (size st.1)) this name (Some this) st.

(** ** Values that own what they point to *)
Definition MakeSelfContained (v : Value) : M Value :=
  match v with
  | LIST_VALUE l =>
      on_heap (fun h =>
        '(h1, t) ← CopyTree h (ExprList None l);
        match SetParentScope None t with
        | ExprList _ l' => Some (scope_nested None t h1, SLIST_VALUE l')
        | _ => None
        end)
  | CLASSAD_VALUE a =>
      on_heap (fun h =>
        '(h1, a') ← Copy h a;
        h2 ← on_ad a' (set_parentScope None) h1;
        Some (h2, SCLASSAD_VALUE a'))
  | _ => rret v
  end.

(** [SafetyCheck]: the flag is false when the value was cleared. *)
Definition SafetyCheck (mask : Z) (v : Value) : M (bool * Value) :=
  let testmask := if mask =? 0 then SAFE_VALUES else mask in
  if negb (Z.land (vt_bit (GetType v)) testmask =? 0) then rret (true, v)
  else if negb (IsSelfContained v) then
    if (negb (Z.land testmask (vt_bit T_SLIST) =? 0) && bool_decide (GetType v = T_LIST))
       || (negb (Z.land testmask (vt_bit T_SCLASSAD) =? 0) && bool_decide (GetType v = T_CLASSAD))
    then let! v' := MakeSelfContained v in rret (true, v')
    else rret (false, UNDEFINED_VALUE)
  else rret (true, v).

(** ** The evaluators, over the evaluator of the subtrees *)
Abbreviation evaluator := (ExprTree -> Value -> M (bool * Value)).

(** A built-in or registered function: it is given the evaluator, the unevaluated
    arguments and the result's former content. *)
Definition ClassAdFunc : Type := evaluator -> list ExprTree -> Value -> M (bool * Value).

(** The function table, which [RegisterFunction] and shared libraries extend. *)
Variable functionTable : string -> option ClassAdFunc.

Section with_evaluator.
Variable ev : evaluator.

(** [ClassAd::EvaluateAttr] *)
Definition EvaluateAttr_with (this : adref) (attr : string) (val : Value) (mask : Z)
  : M (bool * Value) :=
  in_new_state MAX_CLASSAD_RECURSION false (Some this)
    (let! r := LookupInScope this attr in
     match r with
     | EVAL_OK tree =>
         let! (ok, v) := ev tree val in
         let! (safe, v') := SafetyCheck mask v in
         rret (ok && safe, v')
     | EVAL_UNDEF => rret (true, UNDEFINED_VALUE)
     | EVAL_ERROR => rret (true, ERROR_VALUE)
     | EVAL_FAIL => rret (false, val)
     end).

(** [ClassAd::EvaluateExpr] of a tree *)
Definition EvaluateExpr_with (this : adref) (tree : ExprTree) (val : Value) (mask : Z)
  : M (bool * Value) :=
  in_new_state MAX_CLASSAD_RECURSION false (Some this)
    (let! (ok, v) := ev tree val in
     if (ok : bool) then SafetyCheck mask v else rret (false, v)).

(** *** Attribute references *)

(** One element of the list a reference is applied to; [None] when its evaluation fails. *)
Definition select_element (attributeStr : string) (currExpr : ExprTree) : M (option ExprTree) :=
  let! copy := on_heap (fun h => CopyTree h currExpr) in
  let! s := get_state in
  let! (ok, val) :=
    in_new_state (depth_remaining s) false (curAd s)
      (ev (AttributeReference None (Some copy) attributeStr false) UNDEFINED_VALUE) in
  if negb ok then rret None
  else
    match IsClassAdValue val, IsListValue val with
    | Some a, _ => let! item := on_heap (fun h => CopyTree h (ClassAdNode a)) in rret (Some item)
    | None, Some l => let! item := on_heap (fun h => CopyTree h (ExprList None l)) in rret (Some item)
    | None, None => rret (MakeLiteral val)
    end.

Fixpoint select_elements (attributeStr : string) (l : list ExprTree)
  : M (option (list ExprTree)) :=
  match l with
  | [] => rret (Some [])
  | x :: l' =>
      let! item := select_element attributeStr x in
      match item with
      | None => rret None
      | Some item =>
          let! items := select_elements attributeStr l' in
          rret (cons item <$> items)
      end
  end.

(** The end of [FindExpr]: the scopes of [current], then, for a plain name that is not
    found there, those of its alternate scope. *)
Definition search_scopes (expr : option ExprTree) (attributeStr : string) (absolute : bool)
    (current : option adref) : M FindResult :=
  match current with
  | None => rret EVAL_UNDEF
  | Some c =>
      let! rc := LookupInScope c attributeStr in
      let! alternate := read_heap (fun h => alternateScope <$> h !! c) in
      match expr, absolute, rc, alternate with
      | None, false, EVAL_UNDEF, Some alt => LookupInScope alt attributeStr
      | _, _, _, _ => rret rc
      end
  end.

Definition FindExpr (expr : option ExprTree) (attributeStr : string) (absolute : bool)
  : M FindResult :=
  let search := search_scopes expr attributeStr absolute in
  let! s := get_state in
  match expr with
  | None =>
      if absolute then
        match rootAd s with None => rret EVAL_FAIL | Some r => search (Some r) end
      else search (curAd s)
  | Some e =>
      let! (ok, val) := ev e UNDEFINED_VALUE in
      if negb ok then rret EVAL_FAIL
      else if IsUndefinedValue val then rret EVAL_UNDEF
      else if IsErrorValue val then rret EVAL_ERROR
      else
        match IsClassAdValue val, IsListValue val with
        | Some c, _ => search (Some c)
        | None, Some adList =>
            let! items := select_elements attributeStr adList in
            match items with
            | None => rret EVAL_FAIL
            | Some eVector =>
                let! _ := on_heap (fun h => Some (scope_nested None (ExprList None eVector) h, tt)) in
                rret (EVAL_OK (SetParentScope None (ExprList None eVector)))
            end
        | None, None => rret EVAL_ERROR
        end
  end.

Definition attrref_Evaluate (expr : option ExprTree) (attributeStr : string) (absolute : bool)
    (val : Value) : M (bool * Value) :=
  let! s0 := get_state in
  let restore := modify_state (set_curAd (curAd s0)) in
  let! r := FindExpr expr attributeStr absolute in
  match r with
  | EVAL_FAIL => rret (false, val)
  | EVAL_ERROR => let! _ := restore in rret (true, ERROR_VALUE)
  | EVAL_UNDEF => let! _ := restore in rret (true, UNDEFINED_VALUE)
  | EVAL_OK tree =>
      let! s := get_state in
      if depth_remaining s <=? 0 then let! _ := restore in rret (false, ERROR_VALUE)
      else
        let! _ := modify_state (set_depth (depth_remaining s - 1)) in
        let! rv := ev tree val in
        let! s' := get_state in
        let! _ := modify_state (set_depth (depth_remaining s' + 1)) in
        let! _ := restore in
        rret rv
  end.

(** *** Lists: [GetValueAt], which ignores the outcome of the element's evaluation *)
Definition GetValueAt (elist : list ExprTree) (location : Z) (val : Value) : M (bool * Value) :=
  let! s := get_state in
  if depth_remaining s <=? 0 then rret (false, ERROR_VALUE)
  else
    match elist !! Z.to_nat location with
    | None => no_fuel
    | Some tree =>
        let! _ := modify_state (set_depth (depth_remaining s - 1)) in
        let! scope := tree_scope tree in
        let! _ := modify_state (set_curAd scope) in
        let! (_, v) := ev tree val in
        let! _ := modify_state (set_curAd (curAd s)) in
        let! s' := get_state in
        let! _ := modify_state (set_depth (depth_remaining s' + 1)) in
        rret (true, v)
    end.

(** *** Operations *)

(** [shortCircuit]: the flag says that the operation is done. *)
Definition shortCircuit (op : OpKind) (child1 : ExprTree) (child2 child3 : option ExprTree)
    (arg1 : Value) (result : Value) : M (bool * Value) :=
  match op, IsBooleanValueEquiv arg1 with
  | LOGICAL_OR_OP, Some true => rret (true, BOOLEAN_VALUE true)
  | LOGICAL_AND_OP, Some false => rret (true, BOOLEAN_VALUE false)
  | TERNARY_OP, Some true =>
      match child2 with Some c2 => ev c2 result | None => rret (false, result) end
  | TERNARY_OP, Some false =>
      match child2, child3 with
      | Some _, Some c3 => ev c3 result
      | None, _ => ev child1 result
      | Some _, None => rret (false, result)
      end
  | _, _ => rret (false, result)
  end.

(** The end of [_doOperation] for subscripts, [SIG_NONE] being the failure. *)
Definition finish_operation (r : OpResult) (result : Value) : M (bool * Value) :=
  match r with
  | OpDone sig v => rret (negb (sig =? SIG_NONE), v)
  | OpSubscriptAd ad index =>
      let! found := read_heap (fun h => Lookup h ad index) in
      match found with
      | None => rret (true, UNDEFINED_VALUE)
      | Some _ =>
          let! (ok, v) := EvaluateAttr_with ad index result SAFE_VALUES in
          rret (true, if (ok : bool) then v else ERROR_VALUE)
      end
  | OpSubscriptList l index =>
      let! (ok, v) := GetValueAt l index result in
      rret (true, if (ok : bool) then v else ERROR_VALUE)
  | OpExcept => classad_except
  end.

(** A child that may be absent. *)
Definition eval_child (c : option ExprTree) : M (bool * Value) :=
  match c with Some c => ev c UNDEFINED_VALUE | None => rret (true, UNDEFINED_VALUE) end.
Definition present {A} (c : option A) : bool := match c with Some _ => true | None => false end.

Definition operation_Evaluate (op : OpKind) (child1 : ExprTree) (child2 child3 : option ExprTree)
    (result : Value) : M (bool * Value) :=
  let! (ok1, val1) := ev child1 UNDEFINED_VALUE in
  if negb ok1 then rret (false, ERROR_VALUE)
  else
    let! (finished, result1) := shortCircuit op child1 child2 child3 val1 result in
    if (finished : bool) then rret (true, result1)
    else
      let! (ok2, val2) := eval_child child2 in
      if negb ok2 then rret (false, ERROR_VALUE)
      else
        let! (ok3, val3) := eval_child child3 in
        if negb ok3 then rret (false, ERROR_VALUE)
        else finish_operation
               (_doOperation op val1 val2 val3 true (present child2) (present child3)) result1.

Definition parens_Evaluate (child1 : ExprTree) (result : Value) : M (bool * Value) :=
  let! (ok, v) := ev child1 result in
  rret (if (ok : bool) then (true, v) else (false, ERROR_VALUE)).
End with_evaluator.

(** [ExprTree::Evaluate]. *)
Fixpoint Evaluate (n : nat) (e : ExprTree) (val : Value) : M (bool * Value) :=
  match n with
  | O => no_fuel
  | S n' =>
      let ev := Evaluate n' in
      match e with
      | AttributeReference _ expr attributeStr absolute =>
          attrref_Evaluate ev expr attributeStr absolute val
      | Operation1 _ op c1 => operation_Evaluate ev op c1 None None val
      | OperationParens _ c1 => parens_Evaluate ev c1 val
      | Operation2 _ op c1 c2 => operation_Evaluate ev op c1 (Some c2) None val
      | Operation3 _ c1 c2 c3 => operation_Evaluate ev TERNARY_OP c1 c2 (Some c3) val
      | FunctionCall _ f args =>
          match functionTable f with
          | Some function => function ev args val
          | None => rret (true, ERROR_VALUE)
          end
      | ExprList _ l => rret (true, LIST_VALUE l)
      | ClassAdNode a => rret (true, CLASSAD_VALUE a)
      | _ => rret match literal_Evaluate e with Some v => (true, v) | None => (false, val) end
      end
  end.

(** ** Entry points *)
Definition EvaluateAttr (n : nat) := EvaluateAttr_with (Evaluate n).
Definition EvaluateExpr (n : nat) := EvaluateExpr_with (Evaluate n).

(** [EvaluateAttrInt] and its siblings: evaluate, then read the value. *)
Definition EvaluateAttr_as {A} (n : nat) (mask : Z) (read : Value -> option A)
    (this : adref) (attr : string) : M (option A) :=
  let! (ok, v) := EvaluateAttr n this attr UNDEFINED_VALUE mask in
  rret (if (ok : bool) then read v else None).
Definition EvaluateAttrInt n := EvaluateAttr_as n NUMBER_VALUES IsIntegerValue_int.
Definition EvaluateAttrLongLong n := EvaluateAttr_as n NUMBER_VALUES IsIntegerValue.
Definition EvaluateAttrReal n := EvaluateAttr_as n NUMBER_VALUES IsRealValue.
Definition EvaluateAttrNumber n := EvaluateAttr_as n NUMBER_VALUES IsNumber_longlong.
Definition EvaluateAttrString n := EvaluateAttr_as n (vt_bit T_STRING) IsStringValue.
Definition EvaluateAttrBool n := EvaluateAttr_as n NUMBER_VALUES IsBooleanValue.
Definition EvaluateAttrBoolEquiv n := EvaluateAttr_as n NUMBER_VALUES IsBooleanValueEquiv.

(** [ExprTree::Evaluate (Value &)]: the scope is the one the tree carries. *)
Definition Evaluate_top (n : nat) (e : ExprTree) : M (bool * Value) :=
  let! scope := tree_scope e in
  in_new_state MAX_CLASSAD_RECURSION false scope (Evaluate n e UNDEFINED_VALUE).

(** [_GetDeepScope]: the scope expression is given this ClassAd as its scope. *)
Definition GetDeepScope (n : nat) (this : adref) (tree : option ExprTree) : M (option adref) :=
  match tree with
  | None => rret None
  | Some tree =>
      let! _ := on_heap (fun h => Some (scope_nested (Some this) tree h, tt)) in
      let! (ok, v) := Evaluate_top n (SetParentScope (Some this) tree) in
      rret (if (ok : bool) then IsClassAdValue v else None)
  end.
End evaluation.
