(* ===== verification/Functions.v ===== *)
(** * Built-in functions ([classad/fnCall.cpp], and [value.cpp] for their conversions)

    Each function of the dispatch table as a [ClassAdFunc], with the name it is called by
    as first argument where the code looks at it. Functions that read the clock, match
    regular expressions or draw random numbers are not here: [extra] stands for them and
    for what [RegisterFunction] adds. *)
From Stdlib Require Import ZArith Lia Ascii String SpecFloat.
From stdpp Require Import base list gmap strings.
From S2P Require Import Prelude Double Numerals Tree Values Lexer Operators FlatMap AdStore Parser.
From S2P Require Import Unparser NaturalCmp Eval.

Open Scope res_scope.

Abbreviation evaluator := (ExprTree -> Value -> M (bool * Value)).

(** ** Doubles rounded to integers *)

(** [floor], [ceil] and [rint]: [f] divides, rounding; a zero keeps the sign. *)
Definition d_integral (f : Z -> Z -> Z) (r : double) : double :=
  match r with
  | S754_finite s m e =>
      if 0 <=? e then r
      else let z := f (if s then Z.neg m else Z.pos m) (2 ^ (- e)) in
           if z =? 0 then S754_zero s else d_of_Z z
  | _ => r
  end.
Definition d_floor : double -> double := d_integral Z.div.
Definition d_ceil : double -> double := d_integral (fun a b => - (- a / b)).
Definition d_rint : double -> double := d_integral div_round.

(** ** Steps that functions share *)

(** The error value, from a function that succeeded and from one that failed. *)
Definition error_value : M (bool * Value) := rret (true, ERROR_VALUE).
Definition failed : M (bool * Value) := rret (false, ERROR_VALUE).

(** [Operation::Operate] into a value. The operators of this file do not subscript. *)
Definition Operate_value (op : OpKind) (v1 v2 : Value) : M Value :=
  match Operate2 op v1 v2 with
  | OpDone _ v => rret v
  | _ => classad_except
  end.

Section functions.
Variable ev : evaluator.

(** A function of one argument, of two and of three, evaluated in order; a failure stops. *)
Definition eval_arg (a : ExprTree) (k : Value -> M (bool * Value)) : M (bool * Value) :=
  let! (ok, v) := ev a UNDEFINED_VALUE in
  if (ok : bool) then k v else failed.
Definition with_one (args : list ExprTree) (k : Value -> M (bool * Value)) : M (bool * Value) :=
  match args with [a] => eval_arg a k | _ => error_value end.
Definition with_two (args : list ExprTree) (k : Value -> Value -> M (bool * Value))
  : M (bool * Value) :=
  match args with
  | [a0; a1] => eval_arg a0 (fun v0 => eval_arg a1 (k v0))
  | _ => error_value
  end.
Definition with_three (args : list ExprTree) (k : Value -> Value -> Value -> M (bool * Value))
  : M (bool * Value) :=
  match args with
  | [a0; a1; a2] => eval_arg a0 (fun v0 => eval_arg a1 (fun v1 => eval_arg a2 (k v0 v1)))
  | _ => error_value
  end.

(** ** Type predicates *)
Definition isType (name : string) (args : list ExprTree) (val : Value) : M (bool * Value) :=
  with_one args (fun arg => rret (true,
    if is_name name "isundefined" then BOOLEAN_VALUE (IsUndefinedValue arg)
    else if is_name name "iserror" then BOOLEAN_VALUE (IsErrorValue arg)
    else if is_name name "isinteger" then BOOLEAN_VALUE (present (IsIntegerValue arg))
    else if is_name name "isstring" then BOOLEAN_VALUE (present (IsStringValue arg))
    else if is_name name "isreal" then BOOLEAN_VALUE (present (IsRealValue arg))
    else if is_name name "isboolean" then BOOLEAN_VALUE (present (IsBooleanValue arg))
    else if is_name name "isclassad" then BOOLEAN_VALUE (present (IsClassAdValue arg))
    else if is_name name "islist" then BOOLEAN_VALUE (present (IsListValue arg))
    else if is_name name "isabstime" then BOOLEAN_VALUE (present (IsAbsoluteTimeValue arg))
    else if is_name name "isreltime" then BOOLEAN_VALUE (present (IsRelativeTimeValue arg))
    else ERROR_VALUE)).

(** ** Lists *)

(** The loop of [testMember]; [cArg] keeps what the last evaluation left. *)
Fixpoint member_loop (op : OpKind) (arg0 : Value) (el : list ExprTree) (cArg : Value)
  : M (bool * Value) :=
  match el with
  | [] => rret (true, BOOLEAN_VALUE false)
  | tree :: el' =>
      let! (ok, cArg) := ev tree cArg in
      if negb ok then failed
      else
        let! val := Operate_value op cArg arg0 in
        match val with
        | BOOLEAN_VALUE true => rret (true, val)
        | _ => member_loop op arg0 el' cArg
        end
  end.

Definition testMember (name : string) (args : list ExprTree) (val : Value) : M (bool * Value) :=
  let useIS := is_name name "identicalmember" in
  with_two args (fun arg0 arg1 =>
    if IsUndefinedValue arg1 || negb useIS && IsUndefinedValue arg0
    then rret (true, UNDEFINED_VALUE)
    else
      match IsListValue arg1 with
      | None => error_value
      | Some el =>
          if present (IsListValue arg0) || present (IsClassAdValue arg0) then error_value
          else if negb useIS && IsErrorValue arg0 then error_value
          else member_loop (if useIS then META_EQUAL_OP else EQUAL_OP) arg0 el UNDEFINED_VALUE
      end).

(** The number of elements, of attributes or of characters, which goes through an [int]. *)
Definition size (args : list ExprTree) (val : Value) : M (bool * Value) :=
  with_one args (fun arg =>
    if IsUndefinedValue arg then rret (true, UNDEFINED_VALUE)
    else
      match IsListValue arg, IsClassAdValue arg, arg with
      | Some l, _, _ => rret (true, INTEGER_VALUE (wrap32 (Z.of_nat (length l))))
      | None, Some a, _ =>
          let! n := read_heap (fun h => (fun ad => length (attrList ad)) <$> h !! a) in
          rret (true, INTEGER_VALUE (wrap32 (Z.of_nat n)))
      | None, None, STRING_VALUE s => rret (true, INTEGER_VALUE (wrap32 (Z.of_nat (String.length s))))
      | None, None, _ => error_value
      end).

(** The argument of a function of one list. *)
Definition with_list (args : list ExprTree) (k : list ExprTree -> M (bool * Value))
  : M (bool * Value) :=
  with_one args (fun listVal =>
    if IsUndefinedValue listVal then rret (true, UNDEFINED_VALUE)
    else match IsListValue listVal with Some l => k l | None => error_value end).

(** A walk over the numbers of a list: undefined elements are skipped, an element that is
    not a number makes the result an error. [step] gets the result so far, if any. *)
Fixpoint numbers_loop (step : Value -> Value -> M Value) (l : list ExprTree) (elem : Value)
    (len : Z) (result : option Value) (finish : Z -> option Value -> M (bool * Value))
  : M (bool * Value) :=
  match l with
  | [] => finish len result
  | tree :: l' =>
      let! (ok, elem) := ev tree elem in
      if negb ok then failed
      else if IsUndefinedValue elem then numbers_loop step l' elem len result finish
      else
        match IsNumber_double elem with
        | None => error_value
        | Some _ =>
            let! result := match result with
                           | None => rret elem
                           | Some r => step r elem
                           end in
            numbers_loop step l' elem (len + 1) (Some result) finish
        end
  end.

(** The average of no number at all: the code sets the undefined value and overwrites it
    with the sum. *)
Definition sumAvg (name : string) (args : list ExprTree) (val : Value) : M (bool * Value) :=
  let onlySum := is_name name "sum" in
  with_list args (fun listToSum =>
    numbers_loop (Operate_value ADDITION_OP) listToSum UNDEFINED_VALUE 0 None (fun len result =>
      let result := default (INTEGER_VALUE 0) result in
      if onlySum then rret (true, result)
      else if 0 <? len then
        let! result := Operate_value DIVISION_OP result (REAL_VALUE (d_of_Z len)) in
        rret (true, result)
      else rret (true, result))).

(** The comparison is chosen by the second letter of the name. *)
Definition minMax (fn : string) (args : list ExprTree) (val : Value) : M (bool * Value) :=
  let op := match String.get 1 fn with
            | Some c => if Ascii.eqb (tolower c) "i" then LESS_THAN_OP else GREATER_THAN_OP
            | None => GREATER_THAN_OP
            end in
  with_list args (fun listToBound =>
    numbers_loop (fun result elem =>
        let! cmp := Operate_value op elem result in
        rret match cmp with BOOLEAN_VALUE true => elem | _ => result end)
      listToBound UNDEFINED_VALUE 0 None (fun _ result =>
      rret (true, default UNDEFINED_VALUE result))).

Definition comparison_operator (s : string) : option OpKind :=
  if String.eqb s "<" then Some LESS_THAN_OP
  else if String.eqb s "<=" then Some LESS_OR_EQUAL_OP
  else if String.eqb s "!=" then Some NOT_EQUAL_OP
  else if String.eqb s "==" then Some EQUAL_OP
  else if String.eqb s ">" then Some GREATER_THAN_OP
  else if String.eqb s ">=" then Some GREATER_OR_EQUAL_OP
  else if String.eqb s "is" then Some META_EQUAL_OP
  else if String.eqb s "isnt" then Some META_NOT_EQUAL_OP
  else None.

(** The loop of [listCompare]. A comparison that is undefined ends it, for both names. *)
Fixpoint compare_loop (needAllMatch : bool) (op : OpKind) (compareVal : Value)
    (l : list ExprTree) (elem : Value) : M (bool * Value) :=
  match l with
  | [] => rret (true, BOOLEAN_VALUE needAllMatch)
  | tree :: l' =>
      let! (ok, elem) := ev tree elem in
      if negb ok then failed
      else
        let! r := Operate_value op elem compareVal in
        match r with
        | BOOLEAN_VALUE b =>
            if Bool.eqb b needAllMatch then compare_loop needAllMatch op compareVal l' elem
            else rret (true, BOOLEAN_VALUE b)
        | UNDEFINED_VALUE => rret (true, BOOLEAN_VALUE false)
        | _ => error_value
        end
  end.

Definition listCompare (fn : string) (args : list ExprTree) (val : Value) : M (bool * Value) :=
  match args with
  | [a0; a1; a2] =>
      eval_arg a0 (fun stringValue =>
        if IsUndefinedValue stringValue then rret (true, UNDEFINED_VALUE)
        else
          match s ← IsStringValue stringValue; comparison_operator s with
          | None => error_value
          | Some op =>
              eval_arg a1 (fun listVal =>
                if IsUndefinedValue listVal then rret (true, UNDEFINED_VALUE)
                else
                  match IsListValue listVal with
                  | None => error_value
                  | Some l =>
                      eval_arg a2 (fun compareVal =>
                        compare_loop (negb (is_name fn "anycompare")) op compareVal l UNDEFINED_VALUE)
                  end)
          end)
  | _ => error_value
  end.

(** ** Conversions

    The C library's [strtod] and [pow], the texts of times and the local time are
    parameters. *)
Variable strtod : string -> double * nat.
Variable pow : double -> double -> double.
Variable absTimeToString : abstime_t -> text.
Variable relTimeToString : double -> text.
(** [Literal::findOffset], and the broken-down local time of [getLocalTime]. *)
Variable findOffset : Z -> Z.

Definition unparse_tree (tree : ExprTree) : M string :=
  read_heap (fun h => Some (UnparseTree false absTimeToString relTimeToString h tree)).

(** [convertValueToStringValue] *)
Definition convertValueToStringValue (value : Value) : M (bool * Value) :=
  let unparsed tree := let! s := unparse_tree tree in rret (true, STRING_VALUE s) in
  match value with
  | UNDEFINED_VALUE => rret (false, UNDEFINED_VALUE)
  | ERROR_VALUE => rret (false, ERROR_VALUE)
  | STRING_VALUE _ => rret (true, value)
  | CLASSAD_VALUE a | SCLASSAD_VALUE a => unparsed (ClassAdNode a)
  | LIST_VALUE l | SLIST_VALUE l => unparsed (ExprList None l)
  | BOOLEAN_VALUE b => unparsed (BooleanLiteral b)
  | INTEGER_VALUE i => unparsed (IntegerLiteral i)
  | REAL_VALUE r => unparsed (RealLiteral r)
  | ABSOLUTE_TIME_VALUE t => rret (true, STRING_VALUE (of_text (absTimeToString t)))
  | RELATIVE_TIME_VALUE r =>
      rret (true, STRING_VALUE (of_text (relTimeToString (d_of_Z (d_to_int32 r)))))
  end.

Definition convInt (args : list ExprTree) (val : Value) : M (bool * Value) :=
  with_one args (fun arg => rret (true, (convertValueToIntegerValue strtod arg).2)).
Definition convReal (args : list ExprTree) (val : Value) : M (bool * Value) :=
  with_one args (fun arg => rret (true, (convertValueToRealValue strtod arg).2)).
Definition convString (args : list ExprTree) (val : Value) : M (bool * Value) :=
  with_one args (fun arg => let! (_, v) := convertValueToStringValue arg in rret (true, v)).

Definition convBool (args : list ExprTree) (val : Value) : M (bool * Value) :=
  with_one args (fun arg => rret (true,
    match arg with
    | UNDEFINED_VALUE => UNDEFINED_VALUE
    | ERROR_VALUE | CLASSAD_VALUE _ | SCLASSAD_VALUE _ | LIST_VALUE _ | SLIST_VALUE _
    | ABSOLUTE_TIME_VALUE _ => ERROR_VALUE
    | BOOLEAN_VALUE b => BOOLEAN_VALUE b
    | INTEGER_VALUE i => BOOLEAN_VALUE (negb (i =? 0))
    | REAL_VALUE r => BOOLEAN_VALUE (negb (d_eqb r d_zero))
    | STRING_VALUE buf =>
        if bool_decide (strcasecmp "false" buf = Eq) then BOOLEAN_VALUE false
        else if bool_decide (strcasecmp "true" buf = Eq) then BOOLEAN_VALUE true
        else UNDEFINED_VALUE
    | RELATIVE_TIME_VALUE r => BOOLEAN_VALUE (negb (d_to_int32 r =? 0))
    end)).

(** The second argument of [absTime]: an offset in seconds. *)
Definition time_offset (v : Value) : option Z :=
  match v with
  | INTEGER_VALUE i => Some (wrap32 i)
  | REAL_VALUE r | RELATIVE_TIME_VALUE r => Some (d_to_int32 r)
  | _ => None
  end.

(** The switch of [convTime] on the first argument. A string falls through to the absolute
    times: it is no absolute time, so it counts as the epoch, or is the result itself. *)
Definition convTime_value (relative : bool) (arg : Value) (off : option Z) : bool * Value :=
  let absolute s := mk_abstime s (default (findOffset s) off) in
  match arg with
  | UNDEFINED_VALUE => (true, UNDEFINED_VALUE)
  | ERROR_VALUE | CLASSAD_VALUE _ | SCLASSAD_VALUE _ | LIST_VALUE _ | SLIST_VALUE _
  | BOOLEAN_VALUE _ => (true, ERROR_VALUE)
  | INTEGER_VALUE i =>
      if relative then (true, RELATIVE_TIME_VALUE (d_of_Z (wrap32 i)))
      else if offset (absolute (wrap32 i)) =? -1 then (false, ERROR_VALUE)
      else (true, ABSOLUTE_TIME_VALUE (absolute (wrap32 i)))
  | REAL_VALUE r =>
      if relative then (true, RELATIVE_TIME_VALUE r)
      else (true, ABSOLUTE_TIME_VALUE (absolute (d_to_int32 r)))
  | STRING_VALUE _ => if relative then (true, RELATIVE_TIME_VALUE (d_of_Z 0)) else (true, arg)
  | ABSOLUTE_TIME_VALUE t => if relative then (true, RELATIVE_TIME_VALUE (d_of_Z (secs t))) else (true, arg)
  | RELATIVE_TIME_VALUE r =>
      if relative then (true, arg) else (true, ABSOLUTE_TIME_VALUE (absolute (d_to_int32 r)))
  end.

(** [convTime]; [currentTime] is what [absTime] without arguments returns. *)
Definition convTime (currentTime : M (bool * Value)) (name : string) (args : list ExprTree) (val : Value)
  : M (bool * Value) :=
  let relative := is_name name "reltime" in
  match args with
  | [] => if relative then error_value else currentTime
  | [a0] => eval_arg a0 (fun arg => rret (convTime_value relative arg None))
  | [a0; a1] =>
      eval_arg a0 (fun arg => eval_arg a1 (fun arg2 =>
        if relative then error_value
        else match time_offset arg2 with
             | Some o => rret (convTime_value relative arg (Some o))
             | None => error_value
             end))
  | _ => error_value
  end.

(** ** Strings *)

(** What an argument of a string function counts as: a string for itself, another value for
    its text; [None] when it has none, with the value to return. *)
Definition string_of (val : Value) : M (string + Value) :=
  match val with
  | STRING_VALUE s => rret (inl s)
  | _ =>
      let! (_, stringVal) := convertValueToStringValue val in
      rret match stringVal with
           | STRING_VALUE s => inl s
           | UNDEFINED_VALUE => inr UNDEFINED_VALUE
           | _ => inr ERROR_VALUE
           end
  end.

(** The loop of [strCat]: [i] is the position of the argument, [sep] the separator, which
    [join] takes from the first one. [strcat] stops at an undefined argument, [join] goes
    on. An evaluation that fails leaves the depth one less than it was. *)
Fixpoint cat_loop (is_join : bool) (i : nat) (args : list ExprTree) (sep buf : string)
    (undefFlag defFlag : bool) : M (bool * Value) :=
  match args with
  | [] => rret (true, if undefFlag && negb defFlag then UNDEFINED_VALUE else STRING_VALUE buf)
  | a :: args' =>
      let! s := get_state in
      if depth_remaining s <=? 0 then failed
      else
        let! _ := modify_state (set_depth (depth_remaining s - 1)) in
        let! (rval, val) := ev a UNDEFINED_VALUE in
        if negb rval then failed
        else
          let! s' := get_state in
          let! _ := modify_state (set_depth (depth_remaining s' + 1)) in
          let! r := string_of val in
          match r with
          | inl s =>
              if is_join && (i =? 0)%nat then cat_loop is_join (S i) args' s buf undefFlag defFlag
              else
                let buf := if is_join && negb (String.eqb buf "") then (buf ++ sep)%string else buf in
                cat_loop is_join (S i) args' sep (buf ++ s)%string undefFlag true
          | inr UNDEFINED_VALUE =>
              if is_join then cat_loop is_join (S i) args' sep buf true defFlag
              else rret (true, UNDEFINED_VALUE)
          | inr _ => error_value
          end
  end.

(** [strcat] and [join]: with one or two arguments and a list for the last, [join] takes the
    elements of the list, after the other argument or the empty string. *)
Definition strCat (name : string) (args : list ExprTree) (val : Value) : M (bool * Value) :=
  let is_join := is_name name "join" in
  let cat l := cat_loop is_join 0 l "" "" false false in
  match is_join, args with
  | true, [_] | true, [_; _] =>
      let! s := get_state in
      if depth_remaining s <=? 0 then failed
      else
        let! _ := modify_state (set_depth (depth_remaining s - 1)) in
        let! (rval, listVal) := ev (List.last args (StringLiteral "")) UNDEFINED_VALUE in
        let! s' := get_state in
        let! _ := modify_state (set_depth (depth_remaining s' + 1)) in
        match (rval : bool), IsListValue listVal, args with
        | true, Some l, [_] => cat (StringLiteral "" :: l)
        | true, Some l, a0 :: _ => cat (a0 :: l)
        | _, _, _ => cat args
        end
  | _, _ => cat args
  end.

Fixpoint map_string (f : ascii -> ascii) (s : string) : string :=
  match s with EmptyString => EmptyString | String c s' => String (f c) (map_string f s') end.

Definition changeCase (name : string) (args : list ExprTree) (val : Value) : M (bool * Value) :=
  with_one args (fun v =>
    let! r := string_of v in
    rret (true, match r with
                | inl s => STRING_VALUE (map_string (if is_name name "tolower" then tolower else toupper) s)
                | inr e => e
                end)).

(** The characters [subString] keeps: where they start and how many they are, in a string of
    [alen]. [len] is zero when it is not given. *)
Definition substring_range (alen offset : Z) (given : option Z) : Z * Z :=
  let offset := if offset <? 0 then Z.max 0 (alen + offset)
                else if alen <=? offset then alen else offset in
  let len := default 0 given in
  let len := if len <=? 0 then Z.max 0 (alen - offset + len)
             else if alen - offset <? len then alen - offset else len in
  (offset, match given with Some 0 => 0 | _ => len end).

Definition subString_values (arg0 arg1 : Value) (arg2 : option Value) : Value :=
  if IsUndefinedValue arg0 || IsUndefinedValue arg1 || from_option IsUndefinedValue false arg2
  then UNDEFINED_VALUE
  else
    match IsStringValue arg0, IsIntegerValue_int arg1, IsIntegerValue_int <$> arg2 with
    | Some buf, Some off, None =>
        let '(o, n) := substring_range (Z.of_nat (String.length buf)) off None in
        STRING_VALUE (String.substring (Z.to_nat o) (Z.to_nat n) buf)
    | Some buf, Some off, Some (Some len) =>
        let '(o, n) := substring_range (Z.of_nat (String.length buf)) off (Some len) in
        STRING_VALUE (String.substring (Z.to_nat o) (Z.to_nat n) buf)
    | _, _, _ => ERROR_VALUE
    end.

Definition subString (args : list ExprTree) (val : Value) : M (bool * Value) :=
  match args with
  | [a0; a1] => eval_arg a0 (fun arg0 => eval_arg a1 (fun arg1 =>
      rret (true, subString_values arg0 arg1 None)))
  | [a0; a1; a2] => eval_arg a0 (fun arg0 => eval_arg a1 (fun arg1 => eval_arg a2 (fun arg2 =>
      rret (true, subString_values arg0 arg1 (Some arg2)))))
  | _ => error_value
  end.

(** The strings that values convert to, if they all do. *)
Fixpoint strings_of (vals : list Value) : M (option (list string)) :=
  match vals with
  | [] => rret (Some [])
  | v :: vals' =>
      let! (ok, c) := convertValueToStringValue v in
      match (ok : bool), c with
      | true, STRING_VALUE s =>
          let! r := strings_of vals' in rret (cons s <$> r)
      | _, _ => rret None
      end
  end.

(** [natural_cmp (s1.c_str (), s2.c_str ())] *)
Definition natural_cmp_str (s1 s2 : string) : Z := natural_cmp (txt (c_str s1)) (txt (c_str s2)).

Definition versionInRange (args : list ExprTree) (val : Value) : M (bool * Value) :=
  with_three args (fun test min max =>
    if IsUndefinedValue min || IsUndefinedValue max then rret (true, UNDEFINED_VALUE)
    else
      let! r := strings_of [test; min; max] in
      rret (true, match r with
                  | Some [sTest; sMin; sMax] =>
                      BOOLEAN_VALUE ((natural_cmp_str sMin sTest <=? 0) && (natural_cmp_str sTest sMax <=? 0))
                  | _ => ERROR_VALUE
                  end)).

(** The name is compared without regard to case for [versioncmp] only. *)
Definition version_result (name : string) (r : Z) : Value :=
  if is_name name "versioncmp" then INTEGER_VALUE r
  else if String.eqb (c_str name) "versionLE" then BOOLEAN_VALUE (r <=? 0)
  else if String.eqb (c_str name) "versionLT" then BOOLEAN_VALUE (r <? 0)
  else if String.eqb (c_str name) "versionGE" then BOOLEAN_VALUE (0 <=? r)
  else if String.eqb (c_str name) "versionGT" then BOOLEAN_VALUE (0 <? r)
  else if String.eqb (c_str name) "versionEQ" then BOOLEAN_VALUE (r =? 0)
  else ERROR_VALUE.

Definition compareVersion (name : string) (args : list ExprTree) (val : Value) : M (bool * Value) :=
  with_two args (fun left right =>
    if IsUndefinedValue left || IsUndefinedValue right then rret (true, UNDEFINED_VALUE)
    else
      let! r := strings_of [left; right] in
      rret (true, match r with
                  | Some [sLeft; sRight] => version_result name (natural_cmp_str sLeft sRight)
                  | _ => ERROR_VALUE
                  end)).

Definition order_value (c : comparison) : Value :=
  INTEGER_VALUE match c with Lt => -1 | Eq => 0 | Gt => 1 end.

Definition compareString (name : string) (args : list ExprTree) (val : Value) : M (bool * Value) :=
  with_two args (fun arg0 arg1 =>
    if IsUndefinedValue arg0 || IsUndefinedValue arg1 then rret (true, UNDEFINED_VALUE)
    else
      let! r := strings_of [arg0; arg1] in
      rret (true, match r with
                  | Some [s0; s1] =>
                      order_value (if is_name name "strcmp" then strcmp s0 s1 else strcasecmp s0 s1)
                  | _ => ERROR_VALUE
                  end)).

(** [split_string_list]: the pieces of [str] between the characters of [delim] that are not
    empty; [item] is the piece under way. *)
Fixpoint split_string_list (delim str item : text) : list text :=
  let flush := match item with [] => [] | _ => [item] end in
  match str with
  | [] => flush
  | c :: str' =>
      if bool_decide (c ∈ delim) then flush ++ split_string_list delim str' []
      else split_string_list delim str' (item ++ [c])
  end.
Definition default_delim (delim : text) : text := match delim with [] => txt " ," | _ => delim end.

Definition intersect (delim s0 s1 : string) : bool :=
  let split s := split_string_list (default_delim (txt (c_str delim))) (txt (c_str s)) [] in
  existsb (fun item => bool_decide (item ∈ split s1)) (split s0).

(** An argument of [stringListsIntersect]: a failure to evaluate is an error value, and the
    function succeeds all the same. *)
Definition lenient_arg (a : ExprTree) (k : Value -> M (bool * Value)) : M (bool * Value) :=
  let! (ok, v) := ev a UNDEFINED_VALUE in
  if (ok : bool) then k v else error_value.

Definition intersect_values (arg0 arg1 : Value) (arg2 : option Value) : Value :=
  if IsErrorValue arg0 || IsErrorValue arg1 || from_option IsErrorValue false arg2 then ERROR_VALUE
  else if IsUndefinedValue arg0 || IsUndefinedValue arg1 || from_option IsUndefinedValue false arg2
  then UNDEFINED_VALUE
  else
    match match arg2 with None => Some ""%string | Some v => IsStringValue v end,
          IsStringValue arg0, IsStringValue arg1 with
    | Some delim, Some str0, Some str1 => BOOLEAN_VALUE (intersect delim str0 str1)
    | _, _, _ => ERROR_VALUE
    end.

Definition stringListsIntersect (args : list ExprTree) (val : Value) : M (bool * Value) :=
  match args with
  | [a0; a1] => lenient_arg a0 (fun arg0 => lenient_arg a1 (fun arg1 =>
      rret (true, intersect_values arg0 arg1 None)))
  | [a0; a1; a2] => lenient_arg a0 (fun arg0 => lenient_arg a1 (fun arg1 => lenient_arg a2 (fun arg2 =>
      rret (true, intersect_values arg0 arg1 (Some arg2)))))
  | _ => error_value
  end.

(** ** Numbers *)
Definition doRound (name : string) (args : list ExprTree) (val : Value) : M (bool * Value) :=
  with_one args (fun arg => rret (true,
    match arg with
    | INTEGER_VALUE _ => arg
    | _ =>
        match convertValueToRealValue strtod arg with
        | (true, REAL_VALUE rvalue) =>
            if is_name name "floor" then INTEGER_VALUE (d_to_int64 (d_floor rvalue))
            else if is_name name "ceil" || is_name name "ceiling"
            then INTEGER_VALUE (d_to_int64 (d_ceil rvalue))
            else if is_name name "round" then INTEGER_VALUE (d_to_int64 (d_rint rvalue))
            else ERROR_VALUE
        | _ => ERROR_VALUE
        end
    end)).

Definition d_half : double := S754_finite false 4503599627370496 (-53).

Definition power (arg arg2 : Value) : Value :=
  match arg, arg2 with
  | INTEGER_VALUE ival, INTEGER_VALUE ibase =>
      if 0 <=? ibase then INTEGER_VALUE (d_to_int64 (d_add (pow (d_of_Z ival) (d_of_Z ibase)) d_half))
      else REAL_VALUE (pow (d_of_Z ival) (d_of_Z ibase))
  | _, _ =>
      match convertValueToRealValue strtod arg, convertValueToRealValue strtod arg2 with
      | (true, REAL_VALUE rvalue), (true, REAL_VALUE rbase) => REAL_VALUE (pow rvalue rbase)
      | _, _ => ERROR_VALUE
      end
  end.

(** The next multiple of an integer base; dividing the least integer by -1 traps. *)
Definition quantize_integer (ival ibase : Z) : option Z :=
  let n := wrap64 (wrap64 (ival + ibase) - 1) in
  if (n =? INT64_MIN) && (ibase =? -1) then None else Some (wrap64 (Z.quot n ibase * ibase)).

Definition quantize_epsilon : double := decimal false 1 (-8).

(** The end of [quantize]: [rval] and [rbase] are [arg] and [arg2] as reals. *)
Definition quantize_to (arg arg2 : Value) (rval rbase : double) : M (bool * Value) :=
  match arg2 with
  | INTEGER_VALUE ibase =>
      if ibase =? 0 then rret (true, arg)
      else match arg with
           | INTEGER_VALUE ival =>
               match quantize_integer ival ibase with
               | Some q => rret (true, INTEGER_VALUE q)
               | None => classad_except
               end
           | _ => rret (true, REAL_VALUE (d_mul (d_ceil (d_div rval (d_of_Z ibase))) (d_of_Z ibase)))
           end
  | _ =>
      if d_leb (d_opp quantize_epsilon) rbase && d_leb rbase quantize_epsilon then rret (true, arg)
      else rret (true, REAL_VALUE (d_mul (d_ceil (d_div rval rbase)) rbase))
  end.

(** The loop over a list of bases: the first that is not less than [rval] is the result. *)
Fixpoint quantize_loop (arg : Value) (rval : double) (l : list ExprTree) (base : Value) (rbase : double)
  : M (bool * Value) :=
  match l with
  | [] => quantize_to arg base rval rbase
  | expr :: l' =>
      let! (ok, base) := ev expr base in
      if negb ok then failed
      else
        match convertValueToRealValue strtod base with
        | (true, REAL_VALUE rbase) =>
            if d_leb rval rbase then rret (true, base) else quantize_loop arg rval l' base rbase
        | _ => error_value
        end
  end.

Definition quantize (arg arg2 : Value) : M (bool * Value) :=
  match convertValueToRealValue strtod arg with
  | (true, REAL_VALUE rval) =>
      match IsListValue arg2 with
      | Some l => quantize_loop arg rval l (REAL_VALUE d_zero) d_zero
      | None =>
          match convertValueToRealValue strtod arg2 with
          | (true, REAL_VALUE rbase) => quantize_to arg arg2 rval rbase
          | _ => error_value
          end
      end
  | _ => error_value
  end.

Definition doMath2 (name : string) (args : list ExprTree) (val : Value) : M (bool * Value) :=
  with_two args (fun arg arg2 =>
    if is_name name "pow" then rret (true, power arg arg2)
    else if is_name name "quantize" then quantize arg arg2
    else error_value).

(** ** Control *)

(** [ifThenElse]: only the branch taken is evaluated. *)
Definition ifThenElse (args : list ExprTree) (val : Value) : M (bool * Value) :=
  match args with
  | [a0; a1; a2] =>
      eval_arg a0 (fun arg1 =>
        match IsBooleanValueEquiv arg1 with
        | Some b =>
            let! (ok, v) := ev (if b then a1 else a2) val in
            rret (if (ok : bool) then (true, v) else (false, ERROR_VALUE))
        | None => rret (true, if IsUndefinedValue arg1 then UNDEFINED_VALUE else ERROR_VALUE)
        end)
  | _ => error_value
  end.

(** [_useOldClassAdSemantics], and the literals [absTime] and [relTime] denote. *)
Variable oldSemantics : bool.
Variables MakeAbsTime MakeRelTime : string -> option ExprTree.

(** [parser.ParseExpression (s, expr, true)], into the store; the fuel is enough for any
    text ([TextLaws.ParseExpression_returns]). *)
Definition parse (s : string) : M (option ExprTree) := fun st =>
  match ParseExpression oldSemantics false MakeAbsTime MakeRelTime (1002 + 2 * String.length s) st.1
          new_Lexer s true with
  | Ret tree (h, _) => Ret tree (h, st.2)
  | NoFuel => NoFuel
  | Except => Except
  end.

Definition eval (args : list ExprTree) (val : Value) : M (bool * Value) :=
  with_one args (fun arg =>
    let! (ok, strarg) := convertValueToStringValue arg in
    match (ok : bool), strarg with
    | true, STRING_VALUE s =>
        let! st := get_state in
        if depth_remaining st <=? 0 then failed
        else
          let! expr := parse (c_str s) in
          match expr with
          | None => error_value
          | Some expr =>
              let! _ := modify_state (set_depth (depth_remaining st - 1)) in
              let! _ := on_heap (fun h => Some (scope_nested (curAd st) expr h, tt)) in
              let! (eval_ok, v) := ev (SetParentScope (curAd st) expr) val in
              let! st' := get_state in
              let! _ := modify_state (set_depth (depth_remaining st' + 1)) in
              rret (if (eval_ok : bool) then (true, v) else (false, ERROR_VALUE))
          end
    | _, _ => error_value
    end).

(** ** Time intervals *)

(** ["%02d"] *)
Definition interval_digits (n : Z) : text := if n <? 10 then "0"%char :: digits n else digits n.

(** The text of a number of seconds, an [int]. *)
Definition interval_text (tot_secs : Z) : text :=
  let days := Z.quot tot_secs 86400 in
  let tot_secs := Z.rem tot_secs 86400 in
  let hours := Z.quot tot_secs 3600 in
  let tot_secs := Z.rem tot_secs 3600 in
  let min := Z.quot tot_secs 60 in
  let secs := Z.rem tot_secs 60 in
  let two n := ":"%char :: interval_digits (Z.abs n) in
  if negb (days =? 0)
  then append_long [] days ++ "+"%char :: interval_digits (Z.abs hours) ++ two min ++ two secs
  else if negb (hours =? 0) then append_long [] hours ++ two min ++ two secs
  else if negb (min =? 0) then append_long [] min ++ two secs
  else append_long [] secs.

Definition interval (args : list ExprTree) (val : Value) : M (bool * Value) :=
  with_one args (fun arg => rret (true,
    match convertValueToIntegerValue strtod arg with
    | (true, INTEGER_VALUE i) => STRING_VALUE (of_text (interval_text (wrap32 i)))
    | _ => ERROR_VALUE
    end)).
End functions.

(** ** The dispatch table *)
Section table.
Variable strtod : string -> double * nat.
Variable pow : double -> double -> double.
Variable absTimeToString : abstime_t -> text.
Variable relTimeToString : double -> text.
Variable findOffset : Z -> Z.
Variable oldSemantics : bool.
Variables MakeAbsTime MakeRelTime : string -> option ExprTree.
(** The functions that are not modelled, and those registered. *)
Variable extra : string -> option ClassAdFunc.

(** [currentTime], which the table has under that name too. *)
Definition currentTime (ev : evaluator) (val : Value) : M (bool * Value) :=
  match extra "currenttime" with Some f => f ev [] val | None => error_value end.

(** The names of the table, whose comparison ignores case; the function gets the name it
    was called by. *)
Definition builtins : list (string * (string -> ClassAdFunc)) :=
  let str f : string -> ClassAdFunc := fun name ev => f ev absTimeToString relTimeToString name in
  let str1 f : string -> ClassAdFunc := fun name ev => f ev absTimeToString relTimeToString in
  map (fun name => (name, fun name ev => isType ev name))
    ["isundefined"; "iserror"; "isstring"; "isinteger"; "isreal"; "islist"; "isclassad";
     "isboolean"; "isabstime"; "isreltime"]
  ++ [("member", fun name ev => testMember ev name);
      ("identicalmember", fun name ev => testMember ev name);
      ("size", fun _ ev => size ev);
      ("sum", fun name ev => sumAvg ev name); ("avg", fun name ev => sumAvg ev name);
      ("min", fun name ev => minMax ev name); ("max", fun name ev => minMax ev name);
      ("anycompare", fun name ev => listCompare ev name);
      ("allcompare", fun name ev => listCompare ev name);
      ("strcat", str strCat); ("join", str strCat);
      ("toupper", str changeCase); ("tolower", str changeCase);
      ("substr", fun _ ev => subString ev);
      ("strcmp", str compareString); ("stricmp", str compareString);
      ("versioncmp", str compareVersion);
      ("versionle", str compareVersion); ("versionlt", str compareVersion);
      ("versionge", str compareVersion); ("versiongt", str compareVersion);
      ("versioneq", str compareVersion);
      ("version_in_range", str1 versionInRange);
      ("int", fun _ ev => convInt ev strtod);
      ("real", fun _ ev => convReal ev strtod);
      ("string", str1 convString);
      ("bool", fun _ ev => convBool ev);
      ("abstime", fun name ev args val => convTime ev findOffset (currentTime ev val) name args val);
      ("reltime", fun name ev args val => convTime ev findOffset (currentTime ev val) name args val);
      ("floor", fun name ev => doRound ev strtod name); ("ceil", fun name ev => doRound ev strtod name);
      ("ceiling", fun name ev => doRound ev strtod name); ("round", fun name ev => doRound ev strtod name);
      ("pow", fun name ev => doMath2 ev strtod pow name);
      ("quantize", fun name ev => doMath2 ev strtod pow name);
      ("ifthenelse", fun _ ev => ifThenElse ev);
      ("interval", fun _ ev => interval ev strtod);
      ("eval", fun _ ev => eval ev absTimeToString relTimeToString oldSemantics MakeAbsTime MakeRelTime);
      ("stringlistsintersect", fun _ ev => stringListsIntersect ev)].

(** The search of [MakeFunctionCall] in the table. *)
Definition functionTable (name : string) : option ClassAdFunc :=
  match list_find (fun entry => entry.1 = attr_key name) builtins with
  | Some (_, (_, f)) => Some (f name)
  | None => extra name
  end.
End table.
