(* ===== verification/EvalFacts.v ===== *)
(** * Evaluation: what it preserves, and its fuel *)
From Stdlib Require Import ZArith Lia Ascii String.
From stdpp Require Import base list gmap strings fin_maps.
From S2P Require Import Prelude Double Tree Values Operators FlatMap AdStore AdStoreFacts.
From S2P Require Import AdStoreLaws Eval.

Open Scope res_scope.

(** ** Postconditions *)
Definition post {A} (m : M A) (st : state) (Q : A -> state -> Prop) : Prop :=
  forall a st', m st = Ret a st' -> Q a st'.

Lemma post_ret {A} (a : A) st (Q : A -> state -> Prop) : Q a st -> post (rret a) st Q.
Proof. by intros H a' st' [= <- <-]. Qed.

Lemma post_bind {A B} (m : M A) (k : A -> M B) st (Q : B -> state -> Prop) :
  post m st (fun a st' => post (k a) st' Q) -> post (rbind m k) st Q.
Proof. unfold post, rbind. intros H b st'. destruct (m st) eqn:E; naive_solver. Qed.

Lemma post_mono {A} (m : M A) st (Q1 Q2 : A -> state -> Prop) :
  post m st Q1 -> (forall a st', Q1 a st' -> Q2 a st') -> post m st Q2.
Proof. unfold post. eauto. Qed.

Lemma post_get st (Q : EvalState -> state -> Prop) : Q st.2 st -> post get_state st Q.
Proof. by intros H a st' [= <- <-]. Qed.
Lemma post_modify f st (Q : unit -> state -> Prop) :
  Q tt (st.1, f st.2) -> post (modify_state f) st Q.
Proof. by intros H a st' [= <- <-]. Qed.
Lemma post_read {A} (f : heap -> option A) st (Q : A -> state -> Prop) :
  (forall a, f st.1 = Some a -> Q a st) -> post (read_heap f) st Q.
Proof. unfold post, read_heap. intros H a st'. destruct (f st.1); naive_solver. Qed.
Lemma post_heap {A} (f : heap -> option (heap * A)) st (Q : A -> state -> Prop) :
  (forall h a, f st.1 = Some (h, a) -> Q a (h, st.2)) -> post (on_heap f) st Q.
Proof. unfold post, on_heap. intros H a st'. destruct (f st.1) as [[]|]; naive_solver. Qed.
Lemma post_no_fuel {A} st (Q : A -> state -> Prop) : post no_fuel st Q.
Proof. done. Qed.
Lemma post_except {A} st (Q : A -> state -> Prop) : post classad_except st Q.
Proof. done. Qed.

(** One step of symbolic execution. *)
Ltac post_step :=
  lazymatch goal with
  | |- post (rret _) _ _ => apply post_ret
  | |- post (rbind _ _) _ _ => apply post_bind
  | |- post get_state _ _ => apply post_get
  | |- post (modify_state _) _ _ => apply post_modify
  | |- post (read_heap _) _ _ => apply post_read; intros ? ?
  | |- post no_fuel _ _ => apply post_no_fuel
  | |- post classad_except _ _ => apply post_except
  | |- post (match ?x with _ => _ end) _ _ => destruct x eqn:?
  end.

(** ** The frame of an evaluation

    [wframe]: the ClassAds that existed are unchanged and the evaluation state is the
    same but for the current scope. [frame]: the current scope is restored, when the state
    has a root scope. When it is [lossy] the recursion budget may be lower afterwards. *)
Definition wframe_at (lossy : bool) (st st' : state) : Prop :=
  st.1 ⊆ st'.1 /\
  (if lossy then (depth_remaining st'.2 <= depth_remaining st.2)%Z
   else depth_remaining st'.2 = depth_remaining st.2) /\
  rootAd st'.2 = rootAd st.2 /\ flattenAndInline st'.2 = flattenAndInline st.2.
Definition frame_at (lossy : bool) (st st' : state) : Prop :=
  wframe_at lossy st st' /\ (rootAd st.2 <> None -> curAd st'.2 = curAd st.2).
Definition frames_at (lossy : bool) (ev : ExprTree -> Value -> M (bool * Value)) : Prop :=
  forall e v st, post (ev e v) st (fun _ st' => frame_at lossy st st').

Section lossy.
Context {lossy : bool}.
Abbreviation wframe := (wframe_at lossy).
Abbreviation frame := (frame_at lossy).
Abbreviation frames := (frames_at lossy).

Lemma wframe_heap st h : st.1 ⊆ h -> wframe st (h, st.2).
Proof. by destruct lossy. Qed.
Lemma wframe_refl st : wframe st st.
Proof. by destruct lossy. Qed.
Lemma wframe_trans a b c : wframe a b -> wframe b c -> wframe a c.
Proof.
  intros (?&?&?&?) (?&?&?&?). split_and!; [by etrans|destruct lossy; lia|congruence..].
Qed.
Lemma frame_refl st : frame st st.
Proof. split; [apply wframe_refl|done]. Qed.
Lemma frame_trans a b c : frame a b -> frame b c -> frame a c.
Proof.
  intros [W1 C1] [W2 C2]. split; [by eapply wframe_trans|].
  destruct W1 as (_&_&E&_). intros H. rewrite C2, C1; congruence.
Qed.
Lemma frame_wframe a b : frame a b -> wframe a b.
Proof. by intros []. Qed.
Lemma wframe_curAd st c : wframe st (st.1, set_curAd c st.2).
Proof. by destruct lossy. Qed.
Lemma frame_heap st h : st.1 ⊆ h -> frame st (h, st.2).
Proof. split; [by apply wframe_heap|done]. Qed.
#[local] Hint Resolve wframe_refl frame_refl frame_wframe wframe_curAd : core.

(** ** Copies made on the way *)
Lemma CopyTree_new h e h' e' : CopyTree h e = Some (h', e') -> tree_copied h e h' e'.
Proof. apply copy_tree_copied. intros h1 a h2 a'. apply Copy_ad_new. Qed.

Lemma scope_nested_new s t (h h' : heap) :
  h ⊆ h' -> Forall (fun c => h !! c = None) (nested_ads t) -> h ⊆ scope_nested s t h'.
Proof.
  intros Hs Hn. apply map_subseteq_spec. intros x ad Hx. rewrite scope_nested_lookup.
  rewrite decide_False.
  - by rewrite (lookup_weaken _ _ _ _ Hx Hs).
  - intros Hin. rewrite Forall_forall in Hn. specialize (Hn x Hin). congruence.
Qed.

Lemma MakeSelfContained_frame v st : post (MakeSelfContained v) st (fun _ st' => frame st st').
Proof.
  destruct v; try (by apply post_ret); apply post_heap; intros h v' E; apply frame_heap.
  - destruct (Copy _ _) as [[h1 a']|] eqn:Ec; simpl in E; [|done].
    apply Copy_ad_new in Ec as [Hs Hn].
    destruct (on_ad _ _ h1) as [h2|] eqn:Eo; simplify_eq/=.
    apply on_ad_Some in Eo as (ad0&?&->). by apply insert_subseteq_r.
  - destruct (CopyTree _ _) as [[h1 t]|] eqn:Ec; simpl in E; [|done].
    apply CopyTree_new in Ec as (Hs&Hn&_).
    destruct (SetParentScope None t); simplify_eq. by apply scope_nested_new.
Qed.

Lemma SafetyCheck_frame mask v st : post (SafetyCheck mask v) st (fun _ st' => frame st st').
Proof.
  unfold SafetyCheck. repeat (post_step; try apply frame_refl).
  eapply post_mono; [apply MakeSelfContained_frame|]. intros v' st' H. by apply post_ret.
Qed.

(** A computation in a new state changes nothing but the store. *)
Lemma in_new_state_frame {A} d i sc (m : M A) st :
  (forall st0, post m st0 (fun _ st' => wframe st0 st')) ->
  post (in_new_state d i sc m) st (fun _ st' => frame st st').
Proof.
  unfold post, in_new_state. intros H a st'. destruct (SetRootScope _ _) as [root|]; [|done].
  destruct (m _) as [a1 st1| |] eqn:E; [|done..]. intros [= <- <-].
  apply H in E as (Hs&_). by apply frame_heap.
Qed.

Section frame.
Variable oldSemantics : bool.
Variable functionTable : string -> option ClassAdFunc.

Hypothesis functions_frame : forall f fn, functionTable f = Some fn ->
  forall ev, frames ev -> forall args v st, post (fn ev args v) st (fun _ st' => frame st st').

Lemma LookupInScope_n_post n this name current st :
  post (LookupInScope_n oldSemantics n this name current) st (fun r st' =>
    wframe st st' /\ (r = EVAL_FAIL -> rootAd st.2 = None)).
Proof.
  revert current st. induction n as [|n IH]; intros current st; simpl;
    (destruct current as [c|]; [|by apply post_ret]); [apply post_no_fuel|].
  repeat post_step; try (split; [apply wframe_curAd|]).
  - done.
  - unfold special_lookup. intros Hr. simpl in *. repeat case_match; done.
  - done.
  - eapply post_mono; [apply IH|]. intros r st' [H1 H2]. by split.
Qed.

Lemma LookupInScope_post this name st :
  post (LookupInScope oldSemantics this name) st (fun r st' =>
    wframe st st' /\ (r = EVAL_FAIL -> rootAd st.2 = None)).
Proof. apply LookupInScope_n_post. Qed.

Section ev.
Variable ev : ExprTree -> Value -> M (bool * Value).
Hypothesis ev_frame : frames ev.

(** Run the evaluator and keep going. *)
Ltac post_ev ok v st F := eapply post_mono; [apply ev_frame|intros [ok v] st F].

Lemma EvaluateAttr_frame this attr v mask st :
  post (EvaluateAttr_with oldSemantics ev this attr v mask) st (fun _ st' => frame st st').
Proof.
  apply in_new_state_frame. intros st0. apply post_bind.
  eapply post_mono; [apply LookupInScope_post|]. intros r st1 [H1 _].
  destruct r; try (by apply post_ret). apply post_bind. post_ev ok v1 st2 F2. apply post_bind.
  eapply post_mono; [apply SafetyCheck_frame|]. intros [? ?] st3 H3. apply post_ret.
  eauto using wframe_trans, frame_wframe.
Qed.

Lemma EvaluateExpr_frame this tree v mask st :
  post (EvaluateExpr_with ev this tree v mask) st (fun _ st' => frame st st').
Proof.
  apply in_new_state_frame. intros st0. apply post_bind. post_ev ok v1 st1 F1. post_step.
  - eapply post_mono; [apply SafetyCheck_frame|]. eauto using wframe_trans, frame_wframe.
  - apply post_ret. by apply frame_wframe.
Qed.

(** Nodes that did not exist in the store. *)
Definition new_nodes (h : heap) (items : list ExprTree) : Prop :=
  Forall (fun c => h !! c = None) (concat (nested_ads <$> items)).

Lemma select_element_frame s e st :
  post (select_element ev s e) st (fun item st' =>
    frame st st' /\ forall x, item = Some x -> new_nodes st.1 [x]).
Proof.
  unfold select_element, new_nodes. apply post_bind, post_heap. intros h copy Hc.
  apply CopyTree_new in Hc as (Hs&_&_). repeat post_step.
  eapply post_mono; [apply in_new_state_frame; intros; eapply post_mono; [apply ev_frame|];
    intros ???; by apply frame_wframe|].
  intros [ok val] st1 H1. assert (F : frame st st1).
  { eapply frame_trans; [by apply frame_heap|exact H1]. }
  assert (Hcopied : forall e0 st2 x, CopyTree st1.1 e0 = Some (st2, x) ->
    st1.1 ⊆ st2 /\ Forall (fun c => st.1 !! c = None) (nested_ads x ++ [])).
  { intros e0 st2 x (H2&H3&_)%CopyTree_new. split; [done|]. rewrite app_nil_r.
    eapply fresh_weaken; [|exact H3]. by destruct F as [[? _] _]. }
  repeat post_step; try (apply post_heap; intros h2 x (?&?)%Hcopied; apply post_ret);
    try (split; [done|]); try (split; [by eapply frame_trans; [|apply frame_heap]|]).
  - done.
  - by intros ? [= ->].
  - by intros ? [= ->].
  - intros x Hx. rewrite fmap_cons. simpl. destruct val; simpl in Hx; simplify_eq; constructor.
Qed.

Lemma select_elements_frame s l st :
  post (select_elements ev s l) st (fun items st' =>
    frame st st' /\ forall xs, items = Some xs -> new_nodes st.1 xs).
Proof.
  revert st. induction l as [|x l IH]; intros st; simpl.
  { apply post_ret. split; [done|]. intros xs [= <-]. constructor. }
  apply post_bind. eapply post_mono; [apply select_element_frame|].
  intros item st1 [F1 N1]. destruct item as [item|]; [|by apply post_ret].
  apply post_bind. eapply post_mono; [apply IH|]. intros items st2 [F2 N2].
  apply post_ret. split; [by eapply frame_trans|]. intros xs Hxs.
  destruct items as [items|]; simplify_eq/=. specialize (N1 _ eq_refl). specialize (N2 _ eq_refl).
  unfold new_nodes in *. simpl in *. rewrite app_nil_r in N1. apply Forall_app. split; [done|].
  eapply fresh_weaken; [|exact N2]. by destruct F1 as [[? _] _].
Qed.

(** [FindExpr] may leave the scope it found the expression in, not a failure. *)
Definition find_frame_at (st : state) (r : FindResult) (st' : state) : Prop :=
  wframe st st' /\ (r = EVAL_FAIL -> rootAd st.2 <> None -> curAd st'.2 = curAd st.2).
Abbreviation find_frame := find_frame_at.

Lemma find_frame_after st st1 r st2 : frame st st1 -> find_frame st1 r st2 -> find_frame st r st2.
Proof.
  intros [W1 C1] [W2 C2]. split; [by eapply wframe_trans|]. destruct W1 as (_&_&E&_).
  intros Hr Hroot. rewrite C2, C1; congruence.
Qed.

Lemma LookupInScope_find this name st :
  post (LookupInScope oldSemantics this name) st (fun r st' => find_frame st r st').
Proof.
  eapply post_mono; [apply LookupInScope_post|]. intros r st' [W H]. split; [done|].
  intros Hr Hroot. by destruct (Hroot (H Hr)).
Qed.

Lemma search_scopes_frame expr s absolute current st :
  post (search_scopes oldSemantics expr s absolute current) st (fun r st' => find_frame st r st').
Proof.
  destruct current as [c|]; [|by apply post_ret]. apply post_bind.
  eapply post_mono; [apply LookupInScope_find|]. intros rc st1 H1. repeat post_step; try exact H1.
  eapply post_mono; [apply LookupInScope_post|]. intros r2 st2 [W2 C2].
  destruct H1 as [W1 _]. split; [by eapply wframe_trans|]. intros -> Hroot.
  destruct W1 as (_&_&E&_). rewrite E in C2. by destruct (Hroot (C2 eq_refl)).
Qed.

Lemma FindExpr_frame expr s absolute st :
  post (FindExpr oldSemantics ev expr s absolute) st (fun r st' => find_frame st r st').
Proof.
  unfold FindExpr. cbv zeta. apply post_bind, post_get. destruct expr as [e|].
  - apply post_bind. post_ev ok v1 st1 F1.
    assert (Hdone : forall r, find_frame st r st1) by by intros r; destruct F1.
    post_step; [by apply post_ret|]. post_step; [by apply post_ret|].
    post_step; [by apply post_ret|]. post_step.
    + eapply post_mono; [apply search_scopes_frame|]. intros r st2. by apply find_frame_after.
    + post_step; [|by apply post_ret]. apply post_bind.
      eapply post_mono; [apply select_elements_frame|]. intros items st2 [F2 N2].
      destruct items as [items|]; [|apply post_ret, (find_frame_after _ _ _ _ F1); by destruct F2].
      apply post_bind, post_heap. intros h [] [= <-]. apply post_ret.
      apply (find_frame_after _ _ _ _ F1). split; [|done].
      destruct F2 as [(Hs&?&?&?) _]. split_and!; [|done..].
      apply scope_nested_new; [exact Hs|]. exact (N2 _ eq_refl).
  - post_step; [post_step|]; try (by apply post_ret); apply search_scopes_frame.
Qed.

Lemma attrref_frame expr s absolute v st :
  post (attrref_Evaluate oldSemantics ev expr s absolute v) st (fun _ st' => frame st st').
Proof.
  apply post_bind, post_get, post_bind.
  eapply post_mono; [apply FindExpr_frame|]. intros r st1 [W1 C1].
  assert (Hrestore : forall st2, wframe st1 st2 -> frame st (st2.1, set_curAd (curAd st.2) st2.2)).
  { intros st2 W2. split; [|done]. exact (wframe_trans _ _ _ W1 W2). }
  destruct r; repeat post_step; try (by apply Hrestore); [by split; auto|].
  post_ev ok v1 st2 F2. repeat post_step. split; [|done].
  destruct W1 as (Hs1&Hd1&Hr1&Hi1), F2 as [(Hs2&Hd2&Hr2&Hi2) _]. simpl in *.
  split_and!; simpl; [by etrans|clear -Hd1 Hd2; destruct lossy; lia|congruence|congruence].
Qed.

Lemma tree_scope_post t st : post (tree_scope t) st (fun _ st' => st' = st).
Proof. destruct t; try by apply post_ret. by apply post_read. Qed.

Lemma GetValueAt_frame l i v st :
  post (GetValueAt ev l i v) st (fun _ st' => frame st st').
Proof.
  unfold GetValueAt. do 4 (post_step; try done). repeat post_step.
  eapply post_mono; [apply tree_scope_post|]. intros scope st1 ->. repeat post_step.
  post_ev ok v1 st2 F2. repeat post_step.
  destruct F2 as [(Hs2&Hd2&Hr2&Hi2) _]. simpl in *. split; [|done].
  split_and!; simpl; [done|clear -Hd2; destruct lossy; lia|done|done].
Qed.

Lemma shortCircuit_frame op c1 c2 c3 v r st :
  post (shortCircuit ev op c1 c2 c3 v r) st (fun _ st' => frame st st').
Proof.
  unfold shortCircuit. repeat post_step; try done; apply ev_frame.
Qed.

Lemma finish_frame r v st :
  post (finish_operation oldSemantics ev r v) st (fun _ st' => frame st st').
Proof.
  destruct r; simpl; repeat post_step; try done.
  - eapply post_mono; [apply EvaluateAttr_frame|]. intros [? ?] st1 F1. by apply post_ret.
  - eapply post_mono; [apply GetValueAt_frame|]. intros [? ?] st1 F1. by apply post_ret.
Qed.

Lemma eval_child_frame c st : post (eval_child ev c) st (fun _ st' => frame st st').
Proof. destruct c; simpl; [apply ev_frame|by apply post_ret]. Qed.

Lemma operation_frame op c1 c2 c3 v st :
  post (operation_Evaluate oldSemantics ev op c1 c2 c3 v) st (fun _ st' => frame st st').
Proof.
  unfold operation_Evaluate. apply post_bind. post_ev ok1 v1 st1 F1.
  post_step; [by apply post_ret|]. apply post_bind.
  eapply post_mono; [apply shortCircuit_frame|]. intros [fin r1] st2 F2.
  assert (F12 := frame_trans _ _ _ F1 F2). post_step; [by apply post_ret|]. apply post_bind.
  eapply post_mono; [apply eval_child_frame|]. intros [ok2 v2] st3 F3.
  assert (F13 := frame_trans _ _ _ F12 F3). post_step; [by apply post_ret|]. apply post_bind.
  eapply post_mono; [apply eval_child_frame|]. intros [ok3 v3] st4 F4.
  assert (F14 := frame_trans _ _ _ F13 F4). post_step; [by apply post_ret|].
  eapply post_mono; [apply finish_frame|]. intros ? st5. by apply frame_trans.
Qed.

Lemma parens_frame c v st : post (parens_Evaluate ev c v) st (fun _ st' => frame st st').
Proof. apply post_bind. post_ev ok v1 st1 F. by apply post_ret. Qed.
End ev.

Lemma Evaluate_frames n : frames (Evaluate oldSemantics functionTable n).
Proof.
  induction n as [|n IH]; intros e v st; simpl; [apply post_no_fuel|].
  destruct e; try (by apply post_ret);
    auto using attrref_frame, operation_frame, parens_frame.
  post_step; [|by apply post_ret]. by eapply functions_frame.
Qed.

End frame.
End lossy.
#[export] Hint Resolve wframe_refl frame_refl frame_wframe wframe_curAd : classad.

(** The recursion budget is restored, unless stated otherwise. *)
Abbreviation wframe := (wframe_at false).
Abbreviation frame := (frame_at false).
Abbreviation frames := (frames_at false).
Abbreviation find_frame := (find_frame_at (lossy := false)).

(** Evaluation leaves the ClassAds alone: whatever the expression, every ClassAd of the
    store is unchanged (new ones may appear, the copies made for list results), the
    recursion budget and the root scope are what they were, and so is the current scope
    whenever there is a root scope, even when the evaluation fails. The functions of the
    function table are assumed to have this property when the evaluator they call has it. *)
Theorem Evaluate_frame oldSemantics functionTable
    (functions_frame : forall f fn, functionTable f = Some fn ->
       forall ev, frames ev -> forall args v st, post (fn ev args v) st (fun _ st' => frame st st')) n e v st ok v' st' :
  Evaluate oldSemantics functionTable n e v st = Ret (ok, v') st' ->
  st.1 ⊆ st'.1 /\ depth_remaining st'.2 = depth_remaining st.2 /\ rootAd st'.2 = rootAd st.2 /\
  (rootAd st.2 <> None -> curAd st'.2 = curAd st.2).
Proof. intros H. apply (Evaluate_frames (lossy := false)) in H as [(?&?&?&_) ?]; done. Qed.

(** A ClassAd [B = A + 1; A = 2; L = {[x = A]}; C = L.x], with the scopes insertion sets. *)
Definition eval_example : heap :=
  let a := 1%positive in
  <[a := set_attrList
       [("A", IntegerLiteral 2);
        ("B", Operation2 (Some a) ADDITION_OP (AttributeReference (Some a) None "A" false)
                (IntegerLiteral 1));
        ("C", AttributeReference (Some a) (Some (AttributeReference (Some a) None "L" false)) "x" false);
        ("L", ExprList (Some a) [ClassAdNode 2%positive])] new_ClassAd]>
    (<[2%positive := set_parentScope (Some a)
         (set_attrList [("x", AttributeReference (Some 2%positive) None "A" false)] new_ClassAd)]> ∅).

Definition eval_state (h : heap) (a : adref) : state :=
  (h, mk_EvalState MAX_CLASSAD_RECURSION (Some a) (Some a) false).
Definition no_functions : string -> option ClassAdFunc := fun _ => None.

Lemma no_functions_frame f fn : no_functions f = Some fn ->
  forall ev, frames ev -> forall args v st, post (fn ev args v) st (fun _ st' => frame st st').
Proof. done. Qed.

Lemma Evaluate_frame_witness :
  exists st', Evaluate false no_functions 10 (AttributeReference None None "C" false)
    UNDEFINED_VALUE (eval_state eval_example 1%positive) =
      Ret (true, LIST_VALUE [IntegerLiteral 2]) st' /\
    eval_example ⊆ st'.1.
Proof.
  eexists. split; [vm_compute; reflexivity|].
  apply (Evaluate_frame false no_functions no_functions_frame 10
    (AttributeReference None None "C" false) UNDEFINED_VALUE
    (eval_state eval_example 1%positive) true (LIST_VALUE [IntegerLiteral 2])).
  vm_compute. reflexivity.
Defined.

(** ** Fuel

    [le_res m1 m2]: [m2] does what [m1] does, if [m1] has an outcome. *)
Definition le_res {A} (m1 m2 : M A) : Prop := forall st, m1 st <> NoFuel -> m2 st = m1 st.

Lemma le_refl {A} (m : M A) : le_res m m.
Proof. done. Qed.
Lemma le_bind {A B} (m1 m2 : M A) (k1 k2 : A -> M B) :
  le_res m1 m2 -> (forall a, le_res (k1 a) (k2 a)) -> le_res (rbind m1 k1) (rbind m2 k2).
Proof.
  unfold le_res, rbind. intros Hm Hk st H. rewrite Hm by by destruct (m1 st).
  destruct (m1 st); [by apply Hk|done..].
Qed.
Lemma le_no_fuel {A} (m : M A) : le_res no_fuel m.
Proof. by intros st H. Qed.
Lemma le_new_state {A} d i sc (m1 m2 : M A) :
  le_res m1 m2 -> le_res (in_new_state d i sc m1) (in_new_state d i sc m2).
Proof.
  unfold le_res, in_new_state. intros Hm st H. destruct (SetRootScope _ _) as [root|]; [|done].
  rewrite Hm; [done|]. intros E. by rewrite E in H.
Qed.

Ltac le_step :=
  lazymatch goal with
  | |- le_res (rbind _ _) (rbind _ _) => apply le_bind; [|intros ?]
  | |- le_res (in_new_state _ _ _ _) _ => apply le_new_state
  | |- le_res ?m ?m => apply le_refl
  | |- le_res (match ?x with _ => _ end) _ => destruct x
  | |- le_res ((fun _ => _) _) _ => cbv beta
  end.

Section fuel.
Variable oldSemantics : bool.
Variable functionTable : string -> option ClassAdFunc.

Definition le_ev (ev1 ev2 : ExprTree -> Value -> M (bool * Value)) : Prop :=
  forall e v, le_res (ev1 e v) (ev2 e v).

Hypothesis functions_mono : forall f fn, functionTable f = Some fn ->
  forall ev1 ev2, le_ev ev1 ev2 -> forall args v, le_res (fn ev1 args v) (fn ev2 args v).

Section ev.
Variables ev1 ev2 : ExprTree -> Value -> M (bool * Value).
Hypothesis Hev : le_ev ev1 ev2.

Ltac le_go := repeat (le_step || apply Hev).

Lemma EvaluateAttr_le a n v m : le_res (EvaluateAttr_with oldSemantics ev1 a n v m)
                                       (EvaluateAttr_with oldSemantics ev2 a n v m).
Proof. unfold EvaluateAttr_with. le_go. Qed.
Lemma EvaluateExpr_le a t v m : le_res (EvaluateExpr_with ev1 a t v m) (EvaluateExpr_with ev2 a t v m).
Proof. unfold EvaluateExpr_with. le_go. Qed.
Lemma select_element_le s e : le_res (select_element ev1 s e) (select_element ev2 s e).
Proof. unfold select_element. le_go. Qed.
Lemma select_elements_le s l : le_res (select_elements ev1 s l) (select_elements ev2 s l).
Proof. induction l; simpl; repeat (le_step || apply select_element_le || done). Qed.
Lemma FindExpr_le e s b : le_res (FindExpr oldSemantics ev1 e s b) (FindExpr oldSemantics ev2 e s b).
Proof. unfold FindExpr. cbv zeta. repeat (le_step || apply Hev || apply select_elements_le). Qed.
Lemma attrref_le e s b v :
  le_res (attrref_Evaluate oldSemantics ev1 e s b v) (attrref_Evaluate oldSemantics ev2 e s b v).
Proof. unfold attrref_Evaluate. cbv zeta. repeat (le_step || apply Hev || apply FindExpr_le). Qed.
Lemma GetValueAt_le l i v : le_res (GetValueAt ev1 l i v) (GetValueAt ev2 l i v).
Proof. unfold GetValueAt. le_go. Qed.
Lemma shortCircuit_le op c1 c2 c3 v r :
  le_res (shortCircuit ev1 op c1 c2 c3 v r) (shortCircuit ev2 op c1 c2 c3 v r).
Proof. unfold shortCircuit. le_go. Qed.
Lemma finish_le r v :
  le_res (finish_operation oldSemantics ev1 r v) (finish_operation oldSemantics ev2 r v).
Proof.
  destruct r; simpl; repeat (le_step || apply EvaluateAttr_le || apply GetValueAt_le).
Qed.
Lemma eval_child_le c : le_res (eval_child ev1 c) (eval_child ev2 c).
Proof. unfold eval_child. le_go. Qed.
Lemma operation_le op c1 c2 c3 v :
  le_res (operation_Evaluate oldSemantics ev1 op c1 c2 c3 v)
         (operation_Evaluate oldSemantics ev2 op c1 c2 c3 v).
Proof.
  unfold operation_Evaluate.
  repeat (le_step || apply Hev || apply shortCircuit_le || apply eval_child_le || apply finish_le).
Qed.
Lemma parens_le c v : le_res (parens_Evaluate ev1 c v) (parens_Evaluate ev2 c v).
Proof. unfold parens_Evaluate. le_go. Qed.
End ev.

Lemma Evaluate_le n m : (n <= m)%nat ->
  le_ev (Evaluate oldSemantics functionTable n) (Evaluate oldSemantics functionTable m).
Proof.
  revert m. induction n as [|n IH]; intros m Hm e v; [apply le_no_fuel|].
  destruct m as [|m]; [lia|]. simpl. specialize (IH m ltac:(lia)).
  destruct e; eauto using attrref_le, operation_le, parens_le, le_refl.
  destruct (functionTable _) eqn:E; [by eapply functions_mono|apply le_refl].
Qed.

Lemma Evaluate_fuel n m e v st r :
  Evaluate oldSemantics functionTable n e v st = r -> r <> NoFuel -> (n <= m)%nat ->
  Evaluate oldSemantics functionTable m e v st = r.
Proof. intros <- H Hm. by apply Evaluate_le. Qed.
End fuel.
