(* ===== verification/ParserStore.v ===== *)
(** * The parser and the store: parsing leaves the ClassAds that exist alone, and the trees
    it builds nest new ones only *)
From Stdlib Require Import ZArith Lia Ascii String.
From stdpp Require Import base list gmap strings.
From S2P Require Import Prelude Double Numerals Tree Values Lexer FlatMap AdStore AdStoreFacts AdStoreLaws Parser Eval EvalFacts.

Open Scope res_scope.

Section parser.
Context {L : Type} `{TokenSource L}.
Variable oldSemantics : bool.
Variables MakeAbsTime MakeRelTime : string -> option ExprTree.
(** The literals of times nest no ClassAd. *)
Hypothesis abs_plain : forall s t, MakeAbsTime s = Some t -> nested_ads t = [].
Hypothesis rel_plain : forall s t, MakeRelTime s = Some t -> nested_ads t = [].
Variable h0 : heap.

Abbreviation P A := (heap * L -> Res (heap * L) A).

(** [keeps m Q]: [m] leaves the ClassAds of [h0] alone, and what it returns satisfies [Q]. *)
Definition keeps {A} (m : P A) (Q : A -> Prop) : Prop := forall st a st',
  h0 ⊆ st.1 -> m st = Ret a st' -> h0 ⊆ st'.1 /\ Q a.

Definition new_ads (l : list adref) : Prop := Forall (fun c => h0 !! c = None) l.
Definition new_tree (t : ExprTree) : Prop := new_ads (nested_ads t).
Definition new_opt (o : option ExprTree) : Prop := forall t, o = Some t -> new_tree t.
Definition new_list (o : option (list ExprTree)) : Prop := forall l, o = Some l -> Forall new_tree l.

Lemma keeps_ret {A} (a : A) (Q : A -> Prop) : Q a -> keeps (rret a) Q.
Proof. by intros HQ st a' st' Hs [= <- <-]. Qed.
Lemma keeps_bind {A B} (m : P A) (k : A -> P B) Q1 Q2 :
  keeps m Q1 -> (forall a, Q1 a -> keeps (k a) Q2) -> keeps (rbind m k) Q2.
Proof.
  intros Hm Hk st b st' Hs. unfold rbind. destruct (m st) as [a st1| |] eqn:E; [|done..].
  destruct (Hm _ _ _ Hs E). by apply Hk.
Qed.
Lemma keeps_mono {A} (m : P A) (Q1 Q2 : A -> Prop) : keeps m Q1 -> (forall a, Q1 a -> Q2 a) -> keeps m Q2.
Proof. intros Hm HQ st a st' Hs E. destruct (Hm _ _ _ Hs E). auto. Qed.
Lemma keeps_tokens f (Q : Token -> Prop) : (forall t, Q t) -> keeps (on_tokens f) Q.
Proof.
  intros HQ st a st' Hs. unfold on_tokens. destruct (f st.2) as [[t l]|]; [|done]. by intros [= <- <-].
Qed.
Lemma keeps_no_fuel {A} (Q : A -> Prop) : keeps out_of_fuel Q.
Proof. done. Qed.
Lemma keeps_store {A} (f : heap -> option (heap * A)) (Q : A -> Prop) :
  (forall h h' a, h0 ⊆ h -> f h = Some (h', a) -> h0 ⊆ h' /\ Q a) -> keeps (on_store f) Q.
Proof.
  intros Hf st a st' Hs. unfold on_store. destruct (f st.1) as [[h' a']|] eqn:E; [|done].
  intros [= <- <-]. by apply Hf in E.
Qed.

(** What a tree nests, its parts nest. *)
Lemma new_tree_op op c1 c2 c3 t : MakeOperation op c1 c2 c3 = Some t ->
  new_opt c1 -> new_opt c2 -> new_opt c3 -> new_tree t.
Proof.
  unfold new_opt, new_tree, new_ads. intros E H1 H2 H3.
  destruct op, c1, c2, c3; simplify_eq/=; rewrite ?Forall_app; naive_solver.
Qed.
Lemma new_tree_list l : Forall new_tree l -> new_ads (concat (nested_ads <$> l)).
Proof. unfold new_ads. induction 1; simpl; [constructor|]. by apply Forall_app. Qed.
Lemma new_opt_op op c1 c2 c3 : new_opt c1 -> new_opt c2 -> new_opt c3 -> new_opt (MakeOperation op c1 c2 c3).
Proof. intros ??? t E. by eapply new_tree_op. Qed.
Lemma new_opt_some t : new_tree t -> new_opt (Some t).
Proof. by intros Ht t' [= <-]. Qed.
Lemma new_opt_none : new_opt None.
Proof. done. Qed.
Lemma new_leaf t : nested_ads t = [] -> new_tree t.
Proof. unfold new_tree, new_ads. by intros ->. Qed.
Hint Resolve new_opt_some new_opt_none new_opt_op : core.

(** One step through a parsing program. *)
Ltac keeps_step :=
  lazymatch goal with
  | |- keeps (rret _) _ => apply keeps_ret
  | |- keeps (rbind PeekTok _) _ => eapply (keeps_bind _ _ (fun _ => True)); [by apply keeps_tokens|intros ? _]
  | |- keeps (rbind ConsumeTok _) _ => eapply (keeps_bind _ _ (fun _ => True)); [by apply keeps_tokens|intros ? _]
  | |- keeps (rbind _ _) _ => eapply keeps_bind; [|intros ? ?]
  | |- keeps out_of_fuel _ => apply keeps_no_fuel
  | |- keeps (match ?x with _ => _ end) _ => destruct x eqn:?; simplify_eq
  end.
Ltac keeps_go := repeat keeps_step; eauto.

Section with_parseExpression.
Variable n : nat.
Variable parse_expr : P (option ExprTree).
Hypothesis parse_expr_keeps : keeps parse_expr new_opt.

Lemma binary_loop_keeps m op_of next : keeps next new_opt -> forall tree, new_tree tree ->
  keeps (binary_loop m op_of next tree) new_opt.
Proof.
  intros Hn. induction m as [|m IH]; intros tree Ht; [apply keeps_no_fuel|]. simpl.
  keeps_step. keeps_step; [|keeps_go]. keeps_step. keeps_step; [exact Hn|].
  keeps_step; [|keeps_go]. apply IH. eapply new_tree_op; eauto.
Qed.
Lemma parse_level_keeps m op_of next : keeps next new_opt -> keeps (parse_level m op_of next) new_opt.
Proof.
  intros Hn. unfold parse_level. keeps_step; [exact Hn|]. keeps_step; [|keeps_go].
  apply binary_loop_keeps; auto.
Qed.

Lemma new_snoc l t : Forall new_tree l -> new_opt (Some t) -> Forall new_tree (l ++ [t]).
Proof. intros Hl Ht. apply Forall_app. split; [done|]. constructor; auto. Qed.
Hint Resolve new_snoc : core.

Lemma arguments_loop_keeps m : forall tk l, Forall new_tree l ->
  keeps (arguments_loop oldSemantics parse_expr m tk l) new_list.
Proof.
  induction m as [|m IH]; intros tk l Hl; [apply keeps_no_fuel|]. cbn [arguments_loop].
  assert (Hend : new_list (Some l)) by (by intros l' [= <-]).
  assert (Hnone : new_list None) by done.
  destruct tk; repeat (keeps_step; try exact parse_expr_keeps); auto.
Qed.
Lemma parseArgumentList_keeps : keeps (parseArgumentList oldSemantics n parse_expr) new_list.
Proof.
  unfold parseArgumentList. assert (Hnone : new_list None) by done.
  keeps_step. destruct a; try by apply keeps_ret. keeps_step. by apply arguments_loop_keeps.
Qed.

Lemma list_loop_keeps m : forall tk l, Forall new_tree l -> keeps (list_loop parse_expr m tk l) new_opt.
Proof.
  induction m as [|m IH]; intros tk l Hl; [apply keeps_no_fuel|]. cbn [list_loop].
  assert (Hend : new_opt (Some (ExprList None l))) by (apply new_opt_some; by apply new_tree_list).
  destruct tk; repeat (keeps_step; try exact parse_expr_keeps); auto.
Qed.
Lemma parseExprList_keeps : keeps (parseExprList n parse_expr) new_opt.
Proof.
  unfold parseExprList. keeps_step. destruct a; try (apply keeps_ret; done). keeps_step.
  by apply list_loop_keeps.
Qed.

(** Changing a ClassAd that [h0] does not have. *)
Lemma on_ad_keeps a f h h' : h0 !! a = None -> h0 ⊆ h -> on_ad a f h = Some h' -> h0 ⊆ h'.
Proof. intros Ha Hs (ad&?&->)%on_ad_Some. by apply insert_subseteq_r. Qed.

Lemma skip_semicolons_keeps m tk : keeps (skip_semicolons m tk) (fun _ => True).
Proof. revert tk. induction m as [|m IH]; intros tk; destruct tk; simpl; keeps_go. Qed.

Lemma attributes_loop_keeps m : forall ad tk, h0 !! ad = None ->
  keeps (attributes_loop parse_expr m ad tk) (fun _ => True).
Proof.
  induction m as [|m IH]; intros ad tk Had; [apply keeps_no_fuel|]. cbn [attributes_loop].
  assert (Hins : forall s t, new_tree t ->
    keeps (on_store (fun h => Insert h ad s (Some t))) (fun _ => True)).
  { intros s t Ht. apply keeps_store. intros h h' b Hs. unfold Insert.
    destruct (String.eqb s ""); [by intros [= <- <-]|].
    destruct (on_ad _ _ _) as [h2|] eqn:E; simpl; [|done]. intros [= <- <-]. split; [|done].
    eapply on_ad_keeps; [exact Had| |exact E]. by apply scope_nested_new. }
  assert (Hnext : forall tk0, keeps (let! tk := skip_semicolons m tk0 in attributes_loop parse_expr m ad tk) (fun _ => True)).
  { intros tk0. keeps_step; [apply skip_semicolons_keeps|auto]. }
  assert (Hbody : keeps (let! tk := ConsumeTok in
    match tk with
    | LEX_SEMICOLON => attributes_loop parse_expr m ad tk
    | LEX_IDENTIFIER s =>
        let! tk := ConsumeTok in
        match tk with
        | LEX_BOUND_TO =>
            let! tree := parse_expr in
            match tree with
            | None => rret false
            | Some tree =>
                let! ok := on_store (fun h => Insert h ad s (Some tree)) in
                if negb ok then rret false
                else
                  let! tk := PeekTok in
                  match tk with
                  | LEX_SEMICOLON | LEX_CLOSE_BOX =>
                      let! tk := skip_semicolons m tk in attributes_loop parse_expr m ad tk
                  | _ => rret false
                  end
            end
        | _ => rret false
        end
    | _ => rret false
    end) (fun _ => True)).
  { keeps_step. destruct a; try (by apply keeps_ret); [|by apply IH].
    keeps_step. destruct a; try (by apply keeps_ret). keeps_step; [exact parse_expr_keeps|].
    destruct a as [t|]; [|by apply keeps_ret]. keeps_step; [apply Hins; eauto|].
    keeps_step; [by apply keeps_ret|]. keeps_step. case_match; auto; by apply keeps_ret. }
  destruct tk; try exact Hbody. keeps_step. by apply keeps_ret.
Qed.

Lemma parseClassAd_keeps ad : h0 !! ad = None -> keeps (parseClassAd n parse_expr ad) (fun _ => True).
Proof.
  intros Had. unfold parseClassAd. eapply (keeps_bind _ _ (fun _ => True)).
  { apply keeps_store. intros h h' [] Hs E. destruct (Clear h ad) as [h1|] eqn:Ec; simplify_eq/=.
    split; [|done]. by eapply on_ad_keeps. }
  intros _ _. keeps_step. destruct a; try by apply keeps_ret. keeps_step. by apply attributes_loop_keeps.
Qed.

Lemma evaluateFunction_new s l : Forall new_tree l -> new_opt (evaluateFunction MakeAbsTime MakeRelTime s l).
Proof.
  intros Hl. assert (Hc : new_opt (Some (FunctionCall None s l))).
  { apply new_opt_some. by apply new_tree_list. }
  unfold evaluateFunction. destruct l as [|[] l]; try done.
  repeat case_bool_decide; try done; intros t Ht; apply new_leaf; eauto.
Qed.

Lemma parsePrimaryExpression_keeps :
  keeps (parsePrimaryExpression oldSemantics MakeAbsTime MakeRelTime n parse_expr) new_opt.
Proof.
  assert (Hleaf : forall t, nested_ads t = [] -> new_opt (Some t)) by (intros; by apply new_opt_some, new_leaf).
  unfold parsePrimaryExpression. keeps_step. destruct a;
    try (keeps_step; apply keeps_ret; by auto); try (by apply keeps_ret).
  - keeps_step. keeps_step. destruct a0; try (apply keeps_ret; by auto).
    eapply keeps_bind; [apply parseArgumentList_keeps|]. intros [l|] Hl; apply keeps_ret; [|done].
    specialize (Hl l eq_refl). destruct (shouldEvaluateAtParseTime _ _); [by apply evaluateFunction_new|].
    apply new_opt_some. by apply new_tree_list.
  - keeps_step. keeps_step. apply keeps_ret. case_match; eauto.
  - apply (keeps_bind _ _ (fun a => h0 !! a = None)).
    + apply keeps_store. intros h h' a Hs [= <- <-].
      assert (Hf : h !! fresh (dom h) = None) by (apply not_elem_of_dom, is_fresh).
      assert (h0 !! fresh (dom h) = None) by (by eapply lookup_weaken_None).
      split; [|done]. by apply insert_subseteq_r.
    + intros ad Had. eapply keeps_bind; [by apply parseClassAd_keeps|]. intros [] _; apply keeps_ret; [|done].
      apply new_opt_some. by constructor.
  - keeps_step. keeps_step; [exact parse_expr_keeps|]. keeps_step; [|keeps_go]. keeps_step.
    apply keeps_ret. case_match; eauto.
  - apply parseExprList_keeps.
Qed.

Lemma postfix_loop_keeps m : forall t, new_tree t -> keeps (postfix_loop parse_expr m t) new_opt.
Proof.
  induction m as [|m IH]; intros t Ht; [apply keeps_no_fuel|]. cbn [postfix_loop].
  keeps_step. destruct a; try (apply keeps_ret; by auto).
  - keeps_step. keeps_step. destruct a0; try (apply keeps_ret; by auto). by apply IH.
  - keeps_step. keeps_step; [exact parse_expr_keeps|]. keeps_step; [|keeps_go]. keeps_step.
    case_match; try (apply keeps_ret; by auto). apply IH. eapply new_tree_op; eauto.
Qed.

Lemma parseUnaryExpression_keeps m :
  keeps (parseUnaryExpression oldSemantics MakeAbsTime MakeRelTime n parse_expr m) new_opt.
Proof.
  induction m as [|m IH]; [apply keeps_no_fuel|]. cbn [parseUnaryExpression]. keeps_step. keeps_step.
  - keeps_step. keeps_step; [exact IH|]. keeps_go.
  - unfold parsePostfixExpression. keeps_step; [apply parsePrimaryExpression_keeps|].
    keeps_step; [|keeps_go]. apply postfix_loop_keeps; auto.
Qed.

Lemma parse_conditional_keeps full :
  keeps (parse_conditional oldSemantics MakeAbsTime MakeRelTime n parse_expr full) new_opt.
Proof.
  unfold parse_conditional. eapply keeps_bind.
  { do 10 (apply parse_level_keeps). apply parseUnaryExpression_keeps. }
  intros [t|] Ht; [|keeps_go]. keeps_step. assert (Hend : keeps
    (if full then let! tk := ConsumeTok in
       rret match tk with LEX_END_OF_INPUT => Some t | _ => None end else rret (Some t)) new_opt).
  { destruct full; [|keeps_go]. keeps_step. apply keeps_ret. by case_match. }
  destruct a; try exact Hend. keeps_step. keeps_step.
  apply (keeps_bind _ _ (fun o => forall m, o = Some m -> new_opt m)).
  - assert (Hm : keeps (let! treeM := parse_expr in let! tk := ConsumeTok in
      rret match tk with LEX_COLON => Some treeM | _ => None end)
      (fun o => forall m, o = Some m -> new_opt m)).
    { keeps_step; [exact parse_expr_keeps|]. keeps_step. apply keeps_ret.
      intros m Em. case_match; by simplify_eq. }
    match goal with |- keeps (match ?tk with _ => _ end) _ => destruct tk end; try exact Hm. keeps_step. apply keeps_ret. intros m Em. by simplify_eq.
  - intros [m|] Hm; [|keeps_go]. keeps_step; [exact parse_expr_keeps|]. keeps_go.
Qed.
End with_parseExpression.

Lemma parseExpression_keeps n : forall depth full,
  keeps (parseExpression oldSemantics MakeAbsTime MakeRelTime n depth full) new_opt.
Proof.
  induction n as [|n IH]; intros depth full; [apply keeps_no_fuel|]. cbn [parseExpression].
  destruct (_ <? _); [by apply keeps_ret|]. by apply parse_conditional_keeps.
Qed.
End parser.

(** Parsing a text leaves the ClassAds that exist alone, and the ClassAds it nests are new. *)
Lemma ParseExpression_new oldSemantics oldClassAdLex MakeAbsTime MakeRelTime n h lx source full r h' lx' :
  (forall s t, MakeAbsTime s = Some t -> nested_ads t = []) ->
  (forall s t, MakeRelTime s = Some t -> nested_ads t = []) ->
  ParseExpression oldSemantics oldClassAdLex MakeAbsTime MakeRelTime n h lx source full = Ret r (h', lx') ->
  h ⊆ h' /\ new_opt h r.
Proof.
  intros Ha Hr E. by apply (parseExpression_keeps (H := Lexer_tokens oldSemantics oldClassAdLex)
    oldSemantics MakeAbsTime MakeRelTime Ha Hr h n 0 full) in E.
Qed.
