(* ===== verification/FunctionsFacts.v ===== *)
(** * The built-in functions inside the evaluator: their fuel and their frame *)
From Stdlib Require Import ZArith Lia Ascii String.
From stdpp Require Import base list gmap strings.
From S2P Require Import Prelude Double Numerals Tree Values Lexer Operators FlatMap AdStore AdStoreFacts AdStoreLaws Parser.
From S2P Require Import Unparser NaturalCmp Eval Functions EvalFacts ParserStore.

Open Scope res_scope.

(** ** More fuel, the same results *)
Section mono.
Variables ev1 ev2 : ExprTree -> Value -> M (bool * Value).
Hypothesis Hev : le_ev ev1 ev2.

Lemma eval_arg_le a k1 k2 : (forall v, le_res (k1 v) (k2 v)) -> le_res (eval_arg ev1 a k1) (eval_arg ev2 a k2).
Proof. intros Hk. unfold eval_arg. le_step; [apply Hev|]. le_step. le_step; [apply Hk|le_step]. Qed.
Lemma with_one_le l k1 k2 : (forall v, le_res (k1 v) (k2 v)) -> le_res (with_one ev1 l k1) (with_one ev2 l k2).
Proof. intros Hk. unfold with_one. repeat (le_step || apply eval_arg_le); auto. Qed.
Lemma with_two_le l k1 k2 : (forall v w, le_res (k1 v w) (k2 v w)) ->
  le_res (with_two ev1 l k1) (with_two ev2 l k2).
Proof. intros Hk. unfold with_two. repeat (le_step || (apply eval_arg_le; intros ?)); auto. Qed.
Lemma with_three_le l k1 k2 : (forall v w x, le_res (k1 v w x) (k2 v w x)) ->
  le_res (with_three ev1 l k1) (with_three ev2 l k2).
Proof. intros Hk. unfold with_three. repeat (le_step || (apply eval_arg_le; intros ?)); auto. Qed.
Lemma lenient_arg_le a k1 k2 : (forall v, le_res (k1 v) (k2 v)) ->
  le_res (lenient_arg ev1 a k1) (lenient_arg ev2 a k2).
Proof. intros Hk. unfold lenient_arg. le_step; [apply Hev|]. le_step. le_step; [apply Hk|le_step]. Qed.

Lemma member_loop_le op v l : forall c, le_res (member_loop ev1 op v l c) (member_loop ev2 op v l c).
Proof. induction l as [|e l IH]; intros c; simpl; repeat (le_step || apply Hev || apply IH). Qed.
Lemma compare_loop_le b op v l : forall c, le_res (compare_loop ev1 b op v l c) (compare_loop ev2 b op v l c).
Proof. induction l as [|e l IH]; intros c; simpl; repeat (le_step || apply Hev || apply IH). Qed.
Lemma numbers_loop_le step l finish : forall elem len r,
  le_res (numbers_loop ev1 step l elem len r finish) (numbers_loop ev2 step l elem len r finish).
Proof. induction l as [|e l IH]; intros; simpl; repeat (le_step || apply Hev || apply IH). Qed.
Lemma quantize_loop_le strtod arg rval l : forall base rbase,
  le_res (quantize_loop ev1 strtod arg rval l base rbase) (quantize_loop ev2 strtod arg rval l base rbase).
Proof. induction l as [|e l IH]; intros; simpl; repeat (le_step || apply Hev || apply IH). Qed.
Lemma cat_loop_le ta tr j l : forall i s b u d,
  le_res (cat_loop ev1 ta tr j i l s b u d) (cat_loop ev2 ta tr j i l s b u d).
Proof. induction l as [|e l IH]; intros; simpl; repeat (le_step || apply Hev || apply IH). Qed.
End mono.

Ltac le_function H :=
  repeat lazymatch goal with
  | |- le_res (eval_arg _ _ _) _ => apply (eval_arg_le _ _ H); intros ?
  | |- le_res (with_one _ _ _) _ => apply (with_one_le _ _ H); intros ?
  | |- le_res (with_two _ _ _) _ => apply (with_two_le _ _ H); intros ? ?
  | |- le_res (with_three _ _ _) _ => apply (with_three_le _ _ H); intros ? ? ?
  | |- le_res (lenient_arg _ _ _) _ => apply (lenient_arg_le _ _ H); intros ?
  | |- le_res (member_loop _ _ _ _ _) _ => apply (member_loop_le _ _ H)
  | |- le_res (compare_loop _ _ _ _ _ _) _ => apply (compare_loop_le _ _ H)
  | |- le_res (numbers_loop _ _ _ _ _ _ _) _ => apply (numbers_loop_le _ _ H)
  | |- le_res (quantize_loop _ _ _ _ _ _ _) _ => apply (quantize_loop_le _ _ H)
  | |- le_res (cat_loop _ _ _ _ _ _ _ _ _ _) _ => apply (cat_loop_le _ _ H)
  | |- _ => first [apply H | le_step]
  end.

(** ** Frames

    [framed m]: [m] only adds to the store and puts the evaluation state back; when it is
    [lossy], it may leave a lower recursion budget. *)
Definition framed_at (lossy : bool) {A} (m : M A) : Prop := forall st, post m st (fun _ st' => frame_at lossy st st').

Section lossy.
Context {lossy : bool}.
Abbreviation frame := (frame_at lossy).
Abbreviation frames := (frames_at lossy).
Abbreviation framed := (framed_at lossy).

Lemma framed_ret {A} (a : A) : framed (rret a).
Proof. intros st. apply post_ret, frame_refl. Qed.
Lemma framed_bind {A B} (m : M A) (k : A -> M B) : framed m -> (forall a, framed (k a)) -> framed (rbind m k).
Proof.
  intros Hm Hk st. apply post_bind. eapply post_mono; [apply Hm|]. intros a st1 F1.
  eapply post_mono; [apply Hk|]. intros b st2 F2. exact (frame_trans _ _ _ F1 F2).
Qed.
Lemma framed_read {A} (f : heap -> option A) : framed (read_heap f).
Proof. intros st. apply post_read. intros a _. apply frame_refl. Qed.
Lemma framed_except {A} : framed (classad_except : M A).
Proof. by intros st a st'. Qed.
Lemma framed_Operate op v1 v2 : framed (Operate_value op v1 v2).
Proof. unfold Operate_value. destruct (Operate2 _ _ _); apply framed_ret || apply framed_except. Qed.

(** A step one level down: the evaluation in between has a frame, so has the whole. *)
Lemma framed_below {A} (m : M A) st : framed m ->
  post m (st.1, set_depth (depth_remaining st.2 - 1) st.2)
    (fun _ st' => frame st (st'.1, set_depth (depth_remaining st'.2 + 1) st'.2)).
Proof.
  intros Hm. eapply post_mono; [apply Hm|]. intros a st' [(Hs&Ed&Er&Ef) Ec].
  split; [split_and!; simpl in *; [exact Hs|destruct lossy; lia|congruence..]|done].
Qed.
End lossy.

Ltac framed_step :=
  lazymatch goal with
  | |- framed_at _ (rret _) => apply framed_ret
  | |- framed_at _ (rbind _ _) => apply framed_bind; [|intros ?]
  | |- framed_at _ (read_heap _) => apply framed_read
  | |- framed_at _ classad_except => apply framed_except
  | |- framed_at _ error_value => apply framed_ret
  | |- framed_at _ failed => apply framed_ret
  | |- framed_at _ (Operate_value _ _ _) => apply framed_Operate
  | |- framed_at _ (match ?x with _ => _ end) => destruct x
  | |- framed_at _ ((fun _ => _) _) => cbv beta
  end.

Section framed.
Context {lossy : bool}.
Abbreviation frame := (frame_at lossy).
Abbreviation frames := (frames_at lossy).
Abbreviation framed := (framed_at lossy).
Variable ev : ExprTree -> Value -> M (bool * Value).
Hypothesis ev_frame : frames ev.

Lemma framed_ev e v : framed (ev e v).
Proof. intros st. apply ev_frame. Qed.

Lemma eval_arg_framed a k : (forall v, framed (k v)) -> framed (eval_arg ev a k).
Proof. intros Hk. unfold eval_arg. repeat (framed_step || apply framed_ev || apply Hk). Qed.
Lemma with_one_framed l k : (forall v, framed (k v)) -> framed (with_one ev l k).
Proof. intros Hk. unfold with_one. repeat (framed_step || apply eval_arg_framed); auto. Qed.
Lemma with_two_framed l k : (forall v w, framed (k v w)) -> framed (with_two ev l k).
Proof. intros Hk. unfold with_two. repeat (framed_step || (apply eval_arg_framed; intros ?)); auto. Qed.
Lemma with_three_framed l k : (forall v w x, framed (k v w x)) -> framed (with_three ev l k).
Proof. intros Hk. unfold with_three. repeat (framed_step || (apply eval_arg_framed; intros ?)); auto. Qed.
Lemma lenient_arg_framed a k : (forall v, framed (k v)) -> framed (lenient_arg ev a k).
Proof. intros Hk. unfold lenient_arg. repeat (framed_step || apply framed_ev || apply Hk). Qed.

Lemma member_loop_framed op v l : forall c, framed (member_loop ev op v l c).
Proof. induction l as [|e l IH]; intros c; simpl; repeat (framed_step || apply framed_ev || apply IH). Qed.
Lemma compare_loop_framed b op v l : forall c, framed (compare_loop ev b op v l c).
Proof. induction l as [|e l IH]; intros c; simpl; repeat (framed_step || apply framed_ev || apply IH). Qed.
Lemma numbers_loop_framed step l finish : (forall r e, framed (step r e)) -> (forall n r, framed (finish n r)) ->
  forall elem len r, framed (numbers_loop ev step l elem len r finish).
Proof.
  intros Hs Hf. induction l as [|e l IH]; intros; simpl; [apply Hf|].
  repeat (framed_step || apply framed_ev || apply Hs || apply IH).
Qed.
Lemma quantize_to_framed arg arg2 rval rbase : framed (quantize_to arg arg2 rval rbase).
Proof. unfold quantize_to. repeat framed_step. Qed.
Lemma quantize_loop_framed strtod arg rval l : forall base rbase,
  framed (quantize_loop ev strtod arg rval l base rbase).
Proof.
  induction l as [|e l IH]; intros; simpl; [apply quantize_to_framed|].
  repeat (framed_step || apply framed_ev || apply IH).
Qed.
Lemma convert_framed ta tr v : framed (convertValueToStringValue ta tr v).
Proof. unfold convertValueToStringValue, unparse_tree. repeat framed_step. Qed.
Lemma string_of_framed ta tr v : framed (string_of ta tr v).
Proof. unfold string_of. repeat (framed_step || apply convert_framed). Qed.
Lemma strings_of_framed ta tr l : framed (strings_of ta tr l).
Proof. induction l as [|v l IH]; simpl; repeat (framed_step || apply convert_framed || apply IH). Qed.

(** [eval]: the ClassAds of the text are new, and the depth goes down and up again. *)
Lemma eval_framed ta tr oldSemantics MakeAbsTime MakeRelTime args v :
  (forall s t, MakeAbsTime s = Some t -> nested_ads t = []) ->
  (forall s t, MakeRelTime s = Some t -> nested_ads t = []) ->
  framed (eval ev ta tr oldSemantics MakeAbsTime MakeRelTime args v).
Proof.
  intros Ha Hr. apply with_one_framed. intros arg. framed_step; [apply convert_framed|].
  destruct a as [[] []]; try apply framed_ret. intros st. post_step. apply post_get.
  destruct (_ <=? 0); [apply post_ret, frame_refl|]. post_step. intros expr st1. unfold parse.
  destruct (ParseExpression _ _ _ _ _ _ _ _ _) as [r [h' lx']| |] eqn:E; [|done..]. intros [= <- <-].
  apply ParseExpression_new in E as [Hs Hn]; [|done..].
  destruct r as [t|]; [|by apply post_ret, frame_heap].
  post_step. apply post_modify. post_step. apply post_heap. intros h2 [] [= <-].
  apply post_bind.
  pose proof (scope_nested_new (curAd st.2) t st.1 h' Hs (Hn t eq_refl)) as Hs2.
  eapply post_mono; [apply (framed_below _ (scope_nested (curAd st.2) t h', st.2) (framed_ev _ _))|].
  intros [ok w] st3 F3. post_step. apply post_get. post_step. apply post_modify. apply post_ret.
  eapply frame_trans; [by apply (frame_heap st)|exact F3].
Qed.
(** [strcat] and [join] have a frame when they succeed; when one of their arguments fails,
    the depth may stay one lower. *)
Definition leaky (st : state) (r : bool * Value) (st' : state) : Prop := exists n,
  frame st (st'.1, set_depth n st'.2) /\ (r.1 = true -> n = depth_remaining st'.2) /\
  (n = depth_remaining st'.2 \/ n = depth_remaining st'.2 + 1).

Lemma leaky_lossy st r st' : lossy = true -> leaky st r st' -> frame st st'.
Proof.
  intros Hl (n&[(Hs&Hd&Hr&Hi) Hc]&_&Hn). rewrite Hl in *. split; [|exact Hc].
  split_and!; [exact Hs|simpl in *; lia|exact Hr|exact Hi].
Qed.

Lemma leaky_frame st r st' : frame st st' -> leaky st r st'.
Proof.
  intros F. exists (depth_remaining st'.2). split_and!; [|done|by left].
  destruct st' as [h' []]. exact F.
Qed.
Lemma leaky_after st st1 r st' : frame st st1 -> leaky st1 r st' -> leaky st r st'.
Proof. intros F (n&F'&H). exists n. split; [exact (frame_trans _ _ _ F F')|exact H]. Qed.

Lemma cat_loop_leaky ta tr j l : forall i s b u d st,
  post (cat_loop ev ta tr j i l s b u d) st (leaky st).
Proof.
  induction l as [|e l IH]; intros i s b u d st; simpl.
  { apply post_ret, leaky_frame, frame_refl. }
  apply post_bind, post_get. destruct (_ <=? 0); [apply post_ret, leaky_frame, frame_refl|].
  apply post_bind, post_modify, post_bind.
  eapply post_mono; [apply (framed_below _ st (framed_ev _ _))|]. intros [ok v] st1 F1.
  destruct ok; simpl; [|apply post_ret; exists (depth_remaining st1.2 + 1); split_and!; [exact F1|done|by right]].
  apply post_bind, post_get, post_bind, post_modify, post_bind.
  eapply post_mono; [apply string_of_framed|]. intros r st2 F2.
  assert (F : frame st st2) by exact (frame_trans _ _ _ F1 F2).
  assert (Hend : forall w, post (rret w) st2 (leaky st)) by (intros w; by apply post_ret, leaky_frame).
  assert (Hloop : forall i s b u d, post (cat_loop ev ta tr j i l s b u d) st2 (leaky st)).
  { intros. eapply post_mono; [apply IH|]. intros r' st3. by apply leaky_after. }
  destruct r as [s2|[]]; try apply Hend; [|destruct j; [apply Hloop|apply Hend]].
  destruct (_ && _); apply Hloop.
Qed.

Lemma strCat_leaky ta tr name args v st : post (strCat ev ta tr name args v) st (leaky st).
Proof.
  assert (Hlist : post (let! s := get_state in
    if depth_remaining s <=? 0 then failed
    else
      let! _ := modify_state (set_depth (depth_remaining s - 1)) in
      let! (rval, listVal) := ev (List.last args (StringLiteral "")) UNDEFINED_VALUE in
      let! s' := get_state in
      let! _ := modify_state (set_depth (depth_remaining s' + 1)) in
      match (rval : bool), IsListValue listVal, args with
      | true, Some l, [_] => cat_loop ev ta tr true 0 (StringLiteral "" :: l) "" "" false false
      | true, Some l, a0 :: _ => cat_loop ev ta tr true 0 (a0 :: l) "" "" false false
      | _, _, _ => cat_loop ev ta tr true 0 args "" "" false false
      end) st (leaky st)).
  { apply post_bind, post_get. destruct (_ <=? 0); [apply post_ret, leaky_frame, frame_refl|].
    apply post_bind, post_modify, post_bind.
    eapply post_mono; [apply (framed_below _ st (framed_ev _ _))|]. intros [ok w] st1 F1.
    apply post_bind, post_get, post_bind, post_modify.
    assert (Hcat : forall l, post (cat_loop ev ta tr true 0 l "" "" false false)
      (st1.1, set_depth (depth_remaining st1.2 + 1) st1.2) (leaky st)).
    { intros l. eapply post_mono; [apply cat_loop_leaky|]. intros r st2. by apply leaky_after. }
    destruct ok, (IsListValue w), args as [|? []]; apply Hcat. }
  unfold strCat. cbv zeta. destruct (is_name name "join"); [|apply cat_loop_leaky].
  destruct args as [|? [|? []]]; try exact Hlist; apply cat_loop_leaky.
Qed.
End framed.

Ltac framed_function H :=
  repeat lazymatch goal with
  | |- framed_at _ (eval_arg _ _ _) => apply (eval_arg_framed _ H); intros ?
  | |- framed_at _ (with_one _ _ _) => apply (with_one_framed _ H); intros ?
  | |- framed_at _ (with_two _ _ _) => apply (with_two_framed _ H); intros ? ?
  | |- framed_at _ (with_three _ _ _) => apply (with_three_framed _ H); intros ? ? ?
  | |- framed_at _ (lenient_arg _ _ _) => apply (lenient_arg_framed _ H); intros ?
  | |- framed_at _ (member_loop _ _ _ _ _) => apply (member_loop_framed _ H)
  | |- framed_at _ (compare_loop _ _ _ _ _ _) => apply (compare_loop_framed _ H)
  | |- framed_at _ (numbers_loop _ _ _ _ _ _ _) => apply (numbers_loop_framed _ H); intros ? ?
  | |- framed_at _ (quantize_loop _ _ _ _ _ _ _) => apply (quantize_loop_framed _ H)
  | |- framed_at _ (quantize_to _ _ _ _) => apply quantize_to_framed
  | |- framed_at _ (convertValueToStringValue _ _ _) => apply convert_framed
  | |- framed_at _ (string_of _ _ _) => apply string_of_framed
  | |- framed_at _ (strings_of _ _ _) => apply strings_of_framed
  | |- _ => first [framed_step | apply (framed_ev _ H)]
  end.

Section table.
Variable strtod : string -> double * nat.
Variable pow : double -> double -> double.
Variable absTimeToString : abstime_t -> text.
Variable relTimeToString : double -> text.
Variable findOffset : Z -> Z.
Variable oldSemantics : bool.
Variables MakeAbsTime MakeRelTime : string -> option ExprTree.
Variable extra : string -> option ClassAdFunc.
Abbreviation table := (functionTable strtod pow absTimeToString relTimeToString findOffset
  oldSemantics MakeAbsTime MakeRelTime extra).
Abbreviation builtins := (builtins strtod pow absTimeToString relTimeToString findOffset
  oldSemantics MakeAbsTime MakeRelTime extra).

(** What every entry of the table satisfies, every function found in it does. *)
Lemma table_cases (P : string -> ClassAdFunc -> Prop) name f :
  Forall (fun entry => forall n, attr_key n = entry.1 -> P n (entry.2 n)) builtins ->
  (forall f, extra name = Some f -> P name f) ->
  table name = Some f -> P name f.
Proof.
  intros Hb He. unfold functionTable. destruct (list_find _ builtins) as [[i [n g]]|] eqn:E; [|apply He].
  intros [= <-]. apply list_find_Some in E as (Hl&Hn&_). simpl in Hn.
  eapply Forall_lookup in Hb; [|exact Hl]. by apply Hb.
Qed.

Hypothesis extra_mono : forall f fn, extra f = Some fn ->
  forall ev1 ev2, le_ev ev1 ev2 -> forall args v, le_res (fn ev1 args v) (fn ev2 args v).

Lemma functionTable_mono name fn : table name = Some fn ->
  forall ev1 ev2, le_ev ev1 ev2 -> forall args v, le_res (fn ev1 args v) (fn ev2 args v).
Proof.
  intros E ev1 ev2 H args v. revert E. apply (table_cases (fun _ fn => le_res (fn ev1 args v) (fn ev2 args v)));
    [|intros f Hf; by eapply extra_mono].
  assert (Hcur : le_res (currentTime extra ev1 v) (currentTime extra ev2 v)).
  { unfold currentTime. destruct (extra _) eqn:Ex; [by eapply extra_mono|le_step]. }
  repeat (apply Forall_cons; split; [intros n _; cbn [fst snd]|]); [..|apply Forall_nil_2].
  all: unfold isType, testMember, size, sumAvg, minMax, with_list, listCompare, strCat, changeCase, subString,
    compareString, compareVersion, versionInRange, convInt, convReal, convString, convBool, convTime,
    doRound, doMath2, quantize, ifThenElse, interval, eval, stringListsIntersect; cbv zeta.
  all: le_function H; try exact Hcur.
Qed.

(** The functions that put the state back even when an argument fails. *)
Definition restores (name : string) : bool := bool_decide (attr_key name ∉ ["strcat"; "join"]).

Hypothesis abs_plain : forall s t, MakeAbsTime s = Some t -> nested_ads t = [].
Hypothesis rel_plain : forall s t, MakeRelTime s = Some t -> nested_ads t = [].

(** The others do but for the recursion budget, which may be lower. *)
Variable lossy : bool.
Hypothesis extra_frame : forall f fn, extra f = Some fn ->
  forall ev, frames_at lossy ev -> forall args v, framed_at lossy (fn ev args v).

Lemma functionTable_frame name fn : table name = Some fn -> lossy || restores name = true ->
  forall ev, frames_at lossy ev -> forall args v, framed_at lossy (fn ev args v).
Proof.
  intros E Hname ev H args v. revert E Hname.
  apply (table_cases (fun name fn => lossy || restores name = true -> framed_at lossy (fn ev args v)));
    [|intros f Hf _; by eapply extra_frame].
  assert (Hcur : framed_at lossy (currentTime extra ev v)).
  { unfold currentTime. destruct (extra _) eqn:Ex; [by eapply extra_frame|framed_step]. }
  assert (Hcat : forall name, lossy || restores name = true -> restores name = false ->
    framed_at lossy (strCat ev absTimeToString relTimeToString name args v)).
  { intros n Hn Hr st. rewrite Hr, orb_false_r in Hn. eapply post_mono; [by apply (strCat_leaky (lossy := lossy))|].
    intros r st'. by apply (leaky_lossy ev). }
  repeat (apply Forall_cons; split; [intros n Hn Hr; cbn [fst snd] in *|]); [..|apply Forall_nil_2].
  all: try (apply Hcat; [done|]; unfold restores; rewrite Hn; by vm_compute).
  all: unfold isType, testMember, size, sumAvg, minMax, with_list, listCompare, changeCase, subString,
    compareString, compareVersion, versionInRange, convInt, convReal, convString, convBool, convTime,
    doRound, doMath2, quantize, ifThenElse, interval, stringListsIntersect; cbv zeta.
  all: framed_function H; try exact Hcur; by apply eval_framed.
Qed.
End table.
