(* ===== verification/FunctionsLaws.v ===== *)
(** * What the built-in functions compute *)
From Stdlib Require Import ZArith Lia Ascii String.
From stdpp Require Import base list gmap strings.
From S2P Require Import Prelude Double Numerals Tree Values Lexer LexerFacts Operators FlatMap AdStore Parser Unparser NaturalCmp.
From S2P Require Import Eval Functions EvalFacts ParserStore FunctionsFacts.

Open Scope res_scope.

(** ** [quantize] *)

(** [quantize] of integers that are not negative gives the next multiple of the base,
    when the 64-bit sum the code forms does not overflow: a multiple, not less than the
    number, and less than a base away from it. (For a negative number the division, which
    truncates, can go one base too far.) *)
Theorem quantize_next_multiple ival ibase : 0 <= ival -> 0 < ibase -> ival + ibase <= INT64_MAX ->
  exists q, quantize_integer ival ibase = Some q /\ (ibase | q) /\ ival <= q < ival + ibase.
Proof.
  intros Hi Hb Ho. unfold quantize_integer.
  assert (Hw : wrap64 (wrap64 (ival + ibase) - 1) = ival + ibase - 1).
  { rewrite (wrap64_id (ival + ibase)), wrap64_id; unfold in_int64, INT64_MIN, INT64_MAX in *; lia. }
  rewrite Hw. replace (ibase =? -1) with false by (symmetry; apply Z.eqb_neq; lia).
  rewrite andb_false_r, Z.quot_div_nonneg by lia.
  pose proof (Z.div_mod (ival + ibase - 1) ibase ltac:(lia)).
  pose proof (Z.mod_pos_bound (ival + ibase - 1) ibase Hb).
  assert (E : wrap64 ((ival + ibase - 1) / ibase * ibase) = (ival + ibase - 1) / ibase * ibase).
  { apply wrap64_id. unfold in_int64, INT64_MIN, INT64_MAX in *. nia. }
  rewrite E. eexists. split; [done|]. split; [by apply Z.divide_factor_r|]. nia.
Qed.

Lemma quantize_next_multiple_witness : exists q, quantize_integer 4097 1024 = Some q /\ 4097 <= q < 5121.
Proof.
  destruct (quantize_next_multiple 4097 1024) as (q&E&_&H); [lia|lia|by vm_compute|].
  exists q. split; [exact E|]. lia.
Defined.

(** The next multiple of 3 after -4 is -3; the code says 0. *)
Lemma quantize_negative : quantize_integer (-4) 3 = Some 0 /\ quantize_integer (-5) 3 = Some (-3).
Proof. by vm_compute. Qed.

(** ** [substr] *)
Definition in_int32 (z : Z) : Prop := INT32_MIN <= z <= INT32_MAX.

(** C37: [substr] stays inside the string for every offset and length an [int] can hold: it
    starts at most at the end and takes no more than what is left, and the sums the code
    forms on the way fit an [int]. *)
Theorem substring_within alen off given :
  0 <= alen <= INT32_MAX -> in_int32 off -> (forall len, given = Some len -> in_int32 len) ->
  let '(o, n) := substring_range alen off given in
  0 <= o <= alen /\ 0 <= n /\ o + n <= alen /\
  (off < 0 -> in_int32 (alen + off)) /\
  (default 0 given <= 0 -> in_int32 (alen - o + default 0 given)).
Proof.
  unfold in_int32, INT32_MIN, INT32_MAX, substring_range. intros Ha Ho Hg.
  set (o := if off <? 0 then _ else _). assert (Hr : 0 <= o <= alen).
  { subst o. destruct (Z.ltb_spec off 0), (Z.leb_spec alen off); lia. }
  clearbody o. destruct given as [len|]; cbn [default from_option id];
    [specialize (Hg len eq_refl); destruct len as [|len|len]|];
    repeat match goal with
    | |- context [?a <=? ?b] => destruct (Z.leb_spec a b)
    | |- context [?a <? ?b] => destruct (Z.ltb_spec a b)
    end; lia.
Qed.

Lemma substring_within_witness : substring_range 5 (-3) (Some (-1)) = (2, 2) /\ 2 + 2 <= 5.
Proof.
  split; [reflexivity|]. refine (proj1 (proj2 (proj2 (substring_within 5 (-3) (Some (-1)) _ _ _)))).
  - by vm_compute.
  - by vm_compute.
  - intros len [= <-]. by vm_compute.
Defined.

(** ** [stringListsIntersect] *)

(** A piece of a text: characters that are not separators, as many as there are. *)
Definition is_piece (delim item str : text) : Prop := item <> [] /\ Forall (.∉ delim) item /\
  exists before after, str = before ++ item ++ after /\
    (before = [] \/ exists b c, before = b ++ [c] /\ c ∈ delim) /\
    (after = [] \/ exists c a, after = c :: a /\ c ∈ delim).

(** The pieces found after [item], a piece under way: its end, or those of what follows. *)
Lemma split_string_list_spec delim str : forall item, Forall (.∉ delim) item ->
  forall x, x ∈ split_string_list delim str item <->
    (exists w rest, str = w ++ rest /\ Forall (.∉ delim) w /\ x = item ++ w /\ x <> [] /\
       (rest = [] \/ exists c r, rest = c :: r /\ c ∈ delim)) \/
    (exists b c, c ∈ delim /\ exists s', str = b ++ c :: s' /\ exists after, s' = x ++ after /\
       x <> [] /\ Forall (.∉ delim) x /\ (after = [] \/ exists c a, after = c :: a /\ c ∈ delim)).
Proof.
  induction str as [|c str IH]; intros item Hi x; cbn [split_string_list].
  - split.
    + intros Hx. left. exists [], [].
      destruct item as [|d item]; [by apply elem_of_nil in Hx|].
      apply list_elem_of_singleton in Hx as ->. split_and!; rewrite ?app_nil_r; try done. by left.
    + intros [(w&rest&E&_&->&Hne&_)|(b&c&_&s'&E&_)]; [|by destruct b].
      symmetry in E. apply app_eq_nil in E as [-> _]. rewrite app_nil_r in *.
      destruct item; [done|]. by apply list_elem_of_singleton.
  - case_bool_decide as Hc.
    + rewrite elem_of_app, (IH []) by constructor. split.
      * intros [Hx|[(w&rest&->&Hw&->&Hne&Hr)|(b&c0&Hc0&s'&->&after&->&H)]].
        -- left. exists [], (c :: str). destruct item as [|d item]; [by apply elem_of_nil in Hx|].
           apply list_elem_of_singleton in Hx as ->. split_and!; rewrite ?app_nil_r; try done. right. eauto.
        -- right. exists [], c. split; [done|]. exists (w ++ rest). split; [done|]. exists rest. done.
        -- right. exists (c :: b), c0. split; [done|]. eexists. split; [done|]. eauto.
      * intros [(w&rest&E&Hw&->&Hne&Hr)|(b&c0&Hc0&s'&E&after&->&Hne&Hw&Ha)].
        -- left. destruct w as [|d w].
           ++ rewrite app_nil_r in *. destruct item; [done|]. by apply list_elem_of_singleton.
           ++ injection E as <- E. apply Forall_cons in Hw as [Hw _]. done.
        -- right. destruct b as [|d b]; injection E as E1 E2.
           ++ left. exists x, after. by rewrite E2.
           ++ right. exists b, c0. split; [done|]. eexists. split; [exact E2|]. eauto.
    + rewrite IH by (apply Forall_app; split; [done|by constructor]). split.
      * intros [(w&rest&->&Hw&->&Hne&Hr)|(b&c0&Hc0&s'&->&H)].
        -- left. exists (c :: w), rest. rewrite <- app_assoc in Hne |- *. split_and!; try done. by constructor.
        -- right. exists (c :: b), c0. split; [done|]. eauto.
      * intros [(w&rest&E&Hw&->&Hne&Hr)|(b&c0&Hc0&s'&E&H)].
        -- left. destruct w as [|d w].
           ++ simpl in E. subst rest. destruct Hr as [|(c1&r&[= <- <-]&?)]; done.
           ++ injection E as <- ->. apply Forall_cons in Hw as [_ Hw]. exists w, rest.
              rewrite <- app_assoc. done.
        -- right. destruct b as [|d b]; injection E as -> E2; [done|].
           exists b, c0. split; [done|]. exists s'. by split.
Qed.

Lemma split_is_piece delim str x : x ∈ split_string_list delim str [] <-> is_piece delim x str.
Proof.
  rewrite split_string_list_spec by constructor. unfold is_piece. split.
  - intros [(w&rest&->&Hw&->&Hne&Hr)|(b&c&Hc&s'&->&after&->&Hne&Hw&Ha)]; (split; [done|split; [done|]]).
    + exists [], rest. split; [done|]. by split; [left|].
    + exists (b ++ [c]), after. rewrite <- app_assoc. split; [done|]. split; [right; eauto|done].
  - intros (Hne&Hw&before&after&->&[->|(b&c&->&Hc)]&Ha).
    + left. by exists x, after.
    + right. exists b, c. split; [done|]. exists (x ++ after). rewrite <- app_assoc. split; [done|].
      by exists after.
Qed.

(** [stringListsIntersect] finds a common element: it is true exactly when some maximal
    run of characters that are not separators, not empty, is in both strings, as C strings,
    the separators being blank and comma when none are given. *)
Theorem stringListsIntersect_spec ev v s0 s1 st st1 st2 a0 a1 :
  ev a0 UNDEFINED_VALUE st = Ret (true, STRING_VALUE s0) st1 ->
  ev a1 UNDEFINED_VALUE st1 = Ret (true, STRING_VALUE s1) st2 ->
  exists b, stringListsIntersect ev [a0; a1] v st = Ret (true, BOOLEAN_VALUE b) st2 /\
    (b = true <-> exists item, is_piece (txt " ,") item (txt (c_str s0)) /\ is_piece (txt " ,") item (txt (c_str s1))).
Proof.
  intros E0 E1. exists (intersect "" s0 s1). split.
  - unfold stringListsIntersect, lenient_arg, rbind. rewrite E0, E1. done.
  - unfold intersect. rewrite existsb_exists. setoid_rewrite <- split_is_piece.
    setoid_rewrite bool_decide_eq_true. setoid_rewrite <- list_elem_of_In. done.
Qed.

(** ** Lists of integers *)
Section integers.
Variable ev : ExprTree -> Value -> M (bool * Value).
Hypothesis ev_integer : forall i v st, ev (IntegerLiteral i) v st = Ret (true, INTEGER_VALUE i) st.

Lemma Operate_compare op i j st : is_comparison op = true ->
  Operate_value op (INTEGER_VALUE i) (INTEGER_VALUE j) st =
  match compareIntegers op i j with Some v => Ret v st | None => Except end.
Proof. destruct op; try done; intros _; reflexivity. Qed.
Lemma Operate_add i j st :
  Operate_value ADDITION_OP (INTEGER_VALUE i) (INTEGER_VALUE j) st = Ret (INTEGER_VALUE (wrap64 (i + j))) st.
Proof. reflexivity. Qed.

Lemma member_loop_integers x l : forall c st,
  member_loop ev EQUAL_OP (INTEGER_VALUE x) (IntegerLiteral <$> l) c st =
  Ret (true, BOOLEAN_VALUE (bool_decide (x ∈ l))) st.
Proof.
  induction l as [|y l IH]; intros c st; [done|]. cbn [fmap list_fmap member_loop]. unfold rbind at 1.
  rewrite ev_integer. cbn [negb]. unfold rbind. rewrite Operate_compare by done. cbn [compareIntegers].
  destruct (Z.eqb_spec y x) as [->|Hne].
  - rewrite bool_decide_eq_true_2 by left. done.
  - rewrite IH. do 3 f_equal. apply bool_decide_ext. rewrite elem_of_cons. naive_solver.
Qed.

Lemma compare_loop_integers all op (r : Z -> Z -> bool) x l : is_comparison op = true ->
  (forall i, compareIntegers op i x = Some (BOOLEAN_VALUE (r i x))) -> forall c st,
  compare_loop ev all op (INTEGER_VALUE x) (IntegerLiteral <$> l) c st =
  Ret (true, BOOLEAN_VALUE (if all then forallb (fun i => r i x) l else existsb (fun i => r i x) l)) st.
Proof.
  intros Hop Hr. induction l as [|y l IH]; intros c st; [by destruct all|].
  cbn [fmap list_fmap compare_loop]. unfold rbind at 1. rewrite ev_integer. cbn [negb]. unfold rbind.
  rewrite Operate_compare, Hr by done. destruct all; cbn [forallb existsb]; destruct (r y x); cbn [Bool.eqb];
    by rewrite ?IH.
Qed.

(** The walk over integers, when the step takes integers to integers. *)
Lemma numbers_loop_integers step f l finish : (forall i j st, step (INTEGER_VALUE i) (INTEGER_VALUE j) st = Ret (INTEGER_VALUE (f i j)) st) ->
  forall r elem len st, numbers_loop ev step (IntegerLiteral <$> l) elem len (Some (INTEGER_VALUE r)) finish st =
    finish (len + Z.of_nat (length l)) (Some (INTEGER_VALUE (foldl f r l))) st.
Proof.
  intros Hs. induction l as [|y l IH]; intros r elem len st; cbn [fmap list_fmap numbers_loop].
  { simpl. by rewrite Z.add_0_r. }
  unfold rbind. rewrite ev_integer. cbn [negb IsUndefinedValue IsNumber_double]. rewrite Hs, IH.
  cbn [length foldl]. f_equal. lia.
Qed.
Lemma numbers_loop_first step f x l finish : (forall i j st, step (INTEGER_VALUE i) (INTEGER_VALUE j) st = Ret (INTEGER_VALUE (f i j)) st) ->
  forall elem st, numbers_loop ev step (IntegerLiteral <$> x :: l) elem 0 None finish st =
    finish (1 + Z.of_nat (length l)) (Some (INTEGER_VALUE (foldl f x l))) st.
Proof.
  intros Hs elem st. cbn [fmap list_fmap numbers_loop]. unfold rbind. rewrite ev_integer.
  cbn [negb IsUndefinedValue IsNumber_double]. unfold rret. rewrite (numbers_loop_integers step f) by done.
  done.
Qed.
End integers.

Lemma foldl_wrap_sum l : forall a, in_int64 a -> foldl (fun i j => wrap64 (i + j)) a l = wrap64 (a + foldr Z.add 0 l).
Proof.
  induction l as [|x l IH]; intros a Ha; simpl; [rewrite Z.add_0_r; by rewrite wrap64_id|].
  rewrite IH by apply wrap64_range. rewrite wrap64_add_l. f_equal. lia.
Qed.
(** The smallest and the greatest, as the loop of [minMax] chooses them. *)
Lemma foldl_best (lt : Z -> Z -> bool) l : (forall a b, lt a b = false -> lt b a = true \/ a = b) ->
  (forall a b c, lt a b = true -> lt b c = true -> lt a c = true) -> (forall a, lt a a = false) ->
  forall a, let m := foldl (fun r e => if lt e r then e else r) a l in
    m ∈ a :: l /\ forall y, y ∈ a :: l -> lt y m = false.
Proof.
  intros Htot Htr Hirr. assert (Hirr2 : forall a b, lt a b = true -> lt b a = false).
  { intros a b H. destruct (lt b a) eqn:E; [|done]. specialize (Htr _ _ _ H E). by rewrite Hirr in Htr. }
  induction l as [|x l IH]; intros a m.
  { split; [by left|]. by intros y ->%list_elem_of_singleton. }
  simpl in m. subst m. set (b := if lt x a then x else a). destruct (IH b) as [Hm Hy]. split.
  - apply elem_of_cons in Hm as [->|Hm]; [|by do 2 right]. subst b. destruct (lt x a); [by right; left|by left].
  - set (m := foldl _ b l) in *. intros y Hin. assert (Hb : lt b m = false) by (apply Hy; by left).
    assert (Hle : forall z, lt z b = false -> lt z m = false).
    { intros z Hz. destruct (lt z m) eqn:E; [|done]. destruct (Htot _ _ Hb) as [E2|E2]; [|congruence].
      by rewrite (Htr _ _ _ E E2) in Hz. }
    apply elem_of_cons in Hin as [->|[->|Hin]%elem_of_cons]; [apply Hle|apply Hle|apply Hy; by right];
      subst b; destruct (lt x a) eqn:E; auto.
Qed.

Section table.
Variable strtod : string -> double * nat.
Variable pow : double -> double -> double.
Variable absTimeToString : abstime_t -> text.
Variable relTimeToString : double -> text.
Variable findOffset : Z -> Z.
Variable oldSemantics : bool.
Variables MakeAbsTime MakeRelTime : string -> option ExprTree.
Variable extra : string -> option ClassAdFunc.
Abbreviation table := (functionTable strtod pow absTimeToString relTimeToString findOffset
  oldSemantics MakeAbsTime MakeRelTime extra).

(** A call of a function of the table. *)
Definition call (n : nat) (name : string) (args : list ExprTree) : M (bool * Value) :=
  Evaluate oldSemantics table n (FunctionCall None name args) UNDEFINED_VALUE.
Definition integers (l : list Z) : ExprTree := ExprList None (IntegerLiteral <$> l).

(** The average: a real quotient. *)
Definition quotient (total : Z) (len : nat) : Value :=
  let q := d_div (d_of_Z total) (d_of_Z (Z.of_nat len)) in
  if d_eqb q HUGE_VAL then ERROR_VALUE else REAL_VALUE q.
Definition average (len : Z) (result : option Value) : M (bool * Value) :=
  let result := default (INTEGER_VALUE 0) result in
  if 0 <? len then
    let! result := Operate_value DIVISION_OP result (REAL_VALUE (d_of_Z len)) in
    rret (true, result)
  else rret (true, result).

Lemma minmax_integers op lt name a l ev st : (forall i v st, ev (IntegerLiteral i) v st = Ret (true, INTEGER_VALUE i) st) ->
  is_comparison op = true -> (forall i j, compareIntegers op i j = Some (BOOLEAN_VALUE (lt i j))) ->
  (match String.get 1 name with
   | Some c => if Ascii.eqb (tolower c) "i" then LESS_THAN_OP else GREATER_THAN_OP
   | None => GREATER_THAN_OP
   end) = op -> (forall v st, ev (integers (a :: l)) v st = Ret (true, LIST_VALUE (IntegerLiteral <$> a :: l)) st) ->
  minMax ev name [integers (a :: l)] UNDEFINED_VALUE st =
  Ret (true, INTEGER_VALUE (foldl (fun r e => if lt e r then e else r) a l)) st.
Proof.
  intros Hev Hop Hlt Hname Hlist. unfold minMax, with_list, with_one, eval_arg, rbind at 1. rewrite Hname, Hlist.
  cbn [IsUndefinedValue IsListValue]. erewrite numbers_loop_first; [done|done|].
  intros i j st0. unfold rbind. rewrite Operate_compare, Hlt by done. by destruct (lt j i).
Qed.

(** C16: the list functions on lists of integers, called through the table: [size] counts,
    [sum] is the sum modulo 2^64, [member] is membership, [anycompare] and [allcompare] are
    the disjunction and the conjunction of the comparisons, [min] and [max] are the least
    and the greatest element, undefined without elements, and [avg] divides the sum. *)
Theorem list_functions_on_integers n l x st : Forall in_int64 l -> Z.of_nat (length l) <= INT32_MAX ->
  let total := wrap64 (foldr Z.add 0 l) in
  call (S (S n)) "size" [integers l] st = Ret (true, INTEGER_VALUE (Z.of_nat (length l))) st /\
  call (S (S n)) "sum" [integers l] st = Ret (true, INTEGER_VALUE total) st /\
  call (S (S n)) "member" [IntegerLiteral x; integers l] st = Ret (true, BOOLEAN_VALUE (bool_decide (x ∈ l))) st /\
  call (S (S n)) "anycompare" [StringLiteral "<"; integers l; IntegerLiteral x] st =
    Ret (true, BOOLEAN_VALUE (existsb (fun y => y <? x) l)) st /\
  call (S (S n)) "allcompare" [StringLiteral ">="; integers l; IntegerLiteral x] st =
    Ret (true, BOOLEAN_VALUE (forallb (fun y => x <=? y) l)) st /\
  match l with
  | [] => call (S (S n)) "min" [integers l] st = Ret (true, UNDEFINED_VALUE) st
  | _ =>
      (exists m, call (S (S n)) "min" [integers l] st = Ret (true, INTEGER_VALUE m) st /\
         m ∈ l /\ forall y, y ∈ l -> m <= y) /\
      (exists m, call (S (S n)) "max" [integers l] st = Ret (true, INTEGER_VALUE m) st /\
         m ∈ l /\ forall y, y ∈ l -> y <= m) /\
      call (S (S n)) "avg" [integers l] st =
        Ret (true, quotient total (length l)) st
  end.
Proof.
  intros Hl Hlen total.
  assert (Hev : forall i v st0, Evaluate oldSemantics table (S n) (IntegerLiteral i) v st0 = Ret (true, INTEGER_VALUE i) st0) by done.
  assert (Hadd : forall a l', l = a :: l' -> foldl (fun i j => wrap64 (i + j)) a l' = total).
  { intros a l' ->. apply Forall_cons in Hl as [Ha _]. by rewrite foldl_wrap_sum. }
  set (ev := Evaluate oldSemantics table (S n)) in *.
  split_and!.
  - change (Ret (true, INTEGER_VALUE (wrap32 (Z.of_nat (length (IntegerLiteral <$> l))))) st =
      Ret (true, INTEGER_VALUE (Z.of_nat (length l))) st).
    rewrite length_fmap, wrap32_small; [done|]. unfold INT32_MIN. lia.
  - change (numbers_loop ev (Operate_value ADDITION_OP) (IntegerLiteral <$> l) UNDEFINED_VALUE 0 None
      (fun _ result => rret (true, default (INTEGER_VALUE 0) result)) st = Ret (true, INTEGER_VALUE total) st).
    destruct l as [|a l']; [done|]. rewrite (numbers_loop_first ev Hev _ _ _ _ _ Operate_add).
    by rewrite (Hadd a l').
  - change (member_loop ev EQUAL_OP (INTEGER_VALUE x) (IntegerLiteral <$> l) UNDEFINED_VALUE st =
      Ret (true, BOOLEAN_VALUE (bool_decide (x ∈ l))) st). by apply member_loop_integers.
  - change (compare_loop ev false LESS_THAN_OP (INTEGER_VALUE x) (IntegerLiteral <$> l) UNDEFINED_VALUE st =
      Ret (true, BOOLEAN_VALUE (existsb (fun y => y <? x) l)) st).
    by apply (compare_loop_integers ev Hev false LESS_THAN_OP Z.ltb).
  - change (compare_loop ev true GREATER_OR_EQUAL_OP (INTEGER_VALUE x) (IntegerLiteral <$> l) UNDEFINED_VALUE st =
      Ret (true, BOOLEAN_VALUE (forallb (fun y => x <=? y) l)) st).
    by apply (compare_loop_integers ev Hev true GREATER_OR_EQUAL_OP (fun a b => b <=? a)).
  - destruct l as [|a l']; [done|]. split_and!.
    + destruct (foldl_best Z.ltb l') with (a := a) as [Hin Hle]; [lia..|].
      eexists. split; [|split; [exact Hin|intros y Hy; apply Hle in Hy; lia]].
      by apply (minmax_integers LESS_THAN_OP Z.ltb).
    + destruct (foldl_best (fun a b => b <? a) l') with (a := a) as [Hin Hle]; [lia..|].
      eexists. split; [|split; [exact Hin|intros y Hy; apply Hle in Hy; lia]].
      by apply (minmax_integers GREATER_THAN_OP (fun a b => b <? a)).
    + change (numbers_loop ev (Operate_value ADDITION_OP) (IntegerLiteral <$> a :: l') UNDEFINED_VALUE 0 None
        average st = Ret (true, quotient total (length (a :: l'))) st).
      rewrite (numbers_loop_first ev Hev _ _ _ _ _ Operate_add), (Hadd a l') by done.
      replace (1 + Z.of_nat (length l')) with (Z.of_nat (length (a :: l'))) by (simpl; lia).
      unfold average. replace (0 <? Z.of_nat (length (a :: l'))) with true by (symmetry; apply Z.ltb_lt; simpl; lia).
      reflexivity.
Qed.
(** More fuel does not change what an expression evaluates to, with this table. *)
Lemma call_fuel n m e v st r :
  (forall f fn, extra f = Some fn -> forall ev1 ev2, le_ev ev1 ev2 -> forall args v, le_res (fn ev1 args v) (fn ev2 args v)) ->
  Evaluate oldSemantics table n e v st = r -> r <> NoFuel -> (n <= m)%nat ->
  Evaluate oldSemantics table m e v st = r.
Proof. intros Hx. apply Evaluate_fuel. intros f fn. by apply functionTable_mono. Qed.

(** A program without [strcat] and [join] gives the whole budget back. *)
Lemma budget_is_restored n e v st ok v' st' :
  (forall s t, MakeAbsTime s = Some t -> nested_ads t = []) ->
  (forall s t, MakeRelTime s = Some t -> nested_ads t = []) ->
  (forall f fn, extra f = Some fn -> forall ev, frames ev -> forall args v, framed_at false (fn ev args v)) ->
  Evaluate oldSemantics (fun name => if restores name then table name else None) n e v st = Ret (ok, v') st' ->
  depth_remaining st'.2 = depth_remaining st.2.
Proof.
  intros Ha Hr Hx E. refine (proj1 (proj2 (proj1 (Evaluate_frames (lossy := false) _ _ _ _ _ _ _ _ _ E)))).
  intros f fn Hf ev Hev args w. destruct (restores f) eqn:Hres; [|done].
  by apply (functionTable_frame strtod pow absTimeToString relTimeToString findOffset oldSemantics
    MakeAbsTime MakeRelTime extra Ha Hr false Hx f fn Hf).
Qed.
End table.

(** ** Intervals *)

(** Reading the text of an interval back: the fields between the separators, the last one
    counting seconds. *)
Fixpoint interval_fields (cur : Z) (s : text) : list Z :=
  match s with
  | [] => [cur]
  | c :: s' => if isdigit c then interval_fields (cur * 10 + digit_value c) s' else cur :: interval_fields 0 s'
  end.
Definition seconds (l : list Z) : Z :=
  match l with
  | [s] => s
  | [m; s] => m * 60 + s
  | [h; m; s] => (h * 60 + m) * 60 + s
  | [d; h; m; s] => ((d * 24 + h) * 60 + m) * 60 + s
  | _ => 0
  end.
Definition read_interval (s : text) : Z :=
  match s with
  | c :: s' => if Ascii.eqb c "-" then - seconds (interval_fields 0 s') else seconds (interval_fields 0 s)
  | [] => 0
  end.

Lemma fields_digits d x : forallb isdigit d = true -> forall v, interval_fields v (d ++ x) = interval_fields (digits_value v d) x.
Proof.
  induction d as [|c d IH]; intros Hd v; [done|]. simpl in *. apply andb_prop in Hd as [-> Hd]. by rewrite IH.
Qed.
Lemma fields_number a x : 0 <= a <= two63 -> interval_fields 0 (digits a ++ x) = interval_fields a x.
Proof.
  intros Ha. pose proof (digits_spec a Ha) as Hd. rewrite fields_digits by apply Hd.
  by destruct (decimal_value a _ Hd) as [-> _].
Qed.
Lemma fields_two a x : 0 <= a <= two63 -> interval_fields 0 (interval_digits a ++ x) = interval_fields a x.
Proof. intros Ha. unfold interval_digits. destruct (a <? 10); [|by apply fields_number]. simpl. by apply fields_number. Qed.
Lemma fields_colon a x : interval_fields a (":"%char :: x) = a :: interval_fields 0 x.
Proof. done. Qed.
Lemma fields_plus a x : interval_fields a ("+"%char :: x) = a :: interval_fields 0 x.
Proof. done. Qed.

(** The text of a negative number of seconds is that of its opposite after a sign. *)
Lemma append_long_opp a : 0 < a -> append_long [] (- a) = "-"%char :: append_long [] a.
Proof.
  intros H. unfold append_long. replace (0 <=? - a) with false by (symmetry; apply Z.leb_gt; lia).
  replace (0 <=? a) with true by (symmetry; apply Z.leb_le; lia). by rewrite Z.opp_involutive.
Qed.
Lemma opp_eqb a : (- a =? 0) = (a =? 0).
Proof. destruct (Z.eqb_spec (- a) 0), (Z.eqb_spec a 0); lia. Qed.

Lemma interval_text_opp a : 0 < a -> interval_text (- a) = "-"%char :: interval_text a.
Proof.
  intros Ha. unfold interval_text. repeat first [rewrite Z.quot_opp_l by lia|rewrite Z.rem_opp_l by lia].
  rewrite !opp_eqb, !Z.abs_opp.
  rewrite !(Z.quot_div_nonneg a), !(Z.rem_mod_nonneg a) by lia.
  pose proof (Z.div_mod a 86400 ltac:(lia)). pose proof (Z.mod_pos_bound a 86400 ltac:(lia)).
  set (r := a mod 86400) in *. rewrite !(Z.quot_div_nonneg r), !(Z.rem_mod_nonneg r) by lia.
  pose proof (Z.div_mod r 3600 ltac:(lia)). pose proof (Z.mod_pos_bound r 3600 ltac:(lia)).
  set (m := r mod 3600) in *. rewrite !(Z.quot_div_nonneg m), !(Z.rem_mod_nonneg m) by lia.
  pose proof (Z.div_mod m 60 ltac:(lia)). pose proof (Z.mod_pos_bound m 60 ltac:(lia)).
  pose proof (Z.div_pos a 86400). pose proof (Z.div_pos r 3600). pose proof (Z.div_pos m 60).
  destruct (Z.eqb_spec (a / 86400) 0), (Z.eqb_spec (r / 3600) 0), (Z.eqb_spec (m / 60) 0);
    cbn [negb]; rewrite append_long_opp by lia; done.
Qed.

Lemma interval_text_fields a : 0 <= a <= - INT32_MIN ->
  seconds (interval_fields 0 (interval_text a)) = a /\ exists c s, interval_text a = c :: s /\ Ascii.eqb c "-" = false.
Proof.
  intros Ha. unfold INT32_MIN in Ha. unfold interval_text.
  rewrite !(Z.quot_div_nonneg a), !(Z.rem_mod_nonneg a) by lia.
  pose proof (Z.div_mod a 86400 ltac:(lia)). pose proof (Z.mod_pos_bound a 86400 ltac:(lia)).
  set (r := a mod 86400) in *. rewrite !(Z.quot_div_nonneg r), !(Z.rem_mod_nonneg r) by lia.
  pose proof (Z.div_mod r 3600 ltac:(lia)). pose proof (Z.mod_pos_bound r 3600 ltac:(lia)).
  set (m := r mod 3600) in *. rewrite !(Z.quot_div_nonneg m), !(Z.rem_mod_nonneg m) by lia.
  pose proof (Z.div_mod m 60 ltac:(lia)). pose proof (Z.mod_pos_bound m 60 ltac:(lia)).
  pose proof (Z.div_pos a 86400). pose proof (Z.div_pos r 3600). pose proof (Z.div_pos m 60).
  rewrite !Z.abs_eq by lia.
  assert (Hhead : forall k x, 0 <= k <= two63 -> exists c s, digits k ++ x = c :: s /\ Ascii.eqb c "-" = false).
  { intros k x Hk. destruct (digits_spec k Hk) as [Dd Dn _ _]. destruct (digits k) as [|c d]; [done|].
    apply andb_prop in Dd as [Dd _]. exists c, (d ++ x). split; [done|].
    destruct (Ascii.eqb_spec c "-") as [->|]; [by vm_compute in Dd|done]. }
  assert (Hap : forall k, 0 <= k -> append_long [] k = digits k).
  { intros k Hk. unfold append_long. by replace (0 <=? k) with true by (symmetry; by apply Z.leb_le). }
  unfold two63 in *. rewrite !Hap by lia.
  destruct (Z.eqb_spec (a / 86400) 0), (Z.eqb_spec (r / 3600) 0), (Z.eqb_spec (m / 60) 0); cbn [negb];
    (split; [|first [apply Hhead; lia|rewrite <- (app_nil_r (digits _)); apply Hhead; lia]]).
  all: rewrite <- (app_nil_r (interval_digits (m mod 60))) || rewrite <- (app_nil_r (digits (m mod 60))).
  all: rewrite <- ?app_assoc; cbn [app].
  all: rewrite ?fields_number, ?fields_plus, ?fields_two, ?fields_colon, ?fields_two, ?fields_colon, ?fields_two
    by (unfold two63; lia).
  all: cbn [interval_fields seconds]; lia.
Qed.

(** the text [interval] makes of a number of seconds determines it: reading days, hours,
    minutes and seconds back gives the number, for every [int], negative ones included. *)
Theorem interval_roundtrip n : in_int32 n -> read_interval (interval_text n) = n.
Proof.
  unfold in_int32, INT32_MIN, INT32_MAX. intros Hn. destruct (Z_lt_ge_dec n 0).
  - replace n with (- (- n)) at 1 by lia. rewrite interval_text_opp by lia. unfold read_interval.
    change (Ascii.eqb "-" "-") with true. cbv iota.
    destruct (interval_text_fields (- n)) as [-> _]; [unfold INT32_MIN|]; lia.
  - destruct (interval_text_fields n) as [E (c&s&Es&Ec)]; [unfold INT32_MIN; lia|].
    unfold read_interval. rewrite Es, Ec, <- Es. exact E.
Qed.

Lemma interval_roundtrip_witness : of_text (interval_text (-90061)) = "-1+01:01:01"%string /\
  read_interval (interval_text (-90061)) = -90061.
Proof. split; [by vm_compute|]. apply interval_roundtrip. by vm_compute. Defined.

(** ** The table at work

    Parameters for the examples: no [strtod], no power, no texts of times, and one function
    that is not modelled, which fails. *)
Module Sample.
Definition failing : ClassAdFunc := fun _ _ _ => rret (false, ERROR_VALUE).
Definition extra (name : string) : option ClassAdFunc :=
  if bool_decide (attr_key name = "random") then Some failing else None.
Definition table := functionTable (fun _ => (d_zero, 0%nat)) (fun x _ => x) (fun _ => []) (fun _ => [])
  (fun _ => 0) false (fun _ => None) (fun _ => None) extra.
Definition start : state := (∅, mk_EvalState MAX_CLASSAD_RECURSION None None false).
Definition run (e : ExprTree) : Res state (bool * Value) := Evaluate false table 6 e UNDEFINED_VALUE start.
Definition fn (name : string) (args : list ExprTree) : ExprTree := FunctionCall None name args.
Definition value (r : Res state (bool * Value)) : option (bool * Value) :=
  match r with Ret v _ => Some v | _ => None end.
Definition depth (r : Res state (bool * Value)) : option Z :=
  match r with Ret _ st => Some (depth_remaining st.2) | _ => None end.
End Sample.

Lemma list_functions_on_integers_witness :
  Sample.run (Sample.fn "min" [integers [5; 3; 8]]) = Ret (true, INTEGER_VALUE 3) Sample.start /\
  Sample.run (Sample.fn "sum" [integers [5; 3; 8]]) = Ret (true, INTEGER_VALUE 16) Sample.start.
Proof.
  split; [vm_compute; reflexivity|].
  refine (proj1 (proj2 (list_functions_on_integers (fun _ => (d_zero, 0%nat)) (fun x _ => x) (fun _ => [])
    (fun _ => []) (fun _ => 0) false (fun _ => None) (fun _ => None) Sample.extra 4 [5; 3; 8] 5 Sample.start _ _))).
  - repeat constructor; by vm_compute.
  - by vm_compute.
Defined.

Lemma stringListsIntersect_spec_witness :
  exists b, stringListsIntersect (Evaluate false Sample.table 2)
    [StringLiteral "vm,docker java"; StringLiteral "java standard"] UNDEFINED_VALUE Sample.start =
    Ret (true, BOOLEAN_VALUE b) Sample.start /\ b = true.
Proof.
  destruct (stringListsIntersect_spec (Evaluate false Sample.table 2) UNDEFINED_VALUE "vm,docker java" "java standard"
    Sample.start Sample.start Sample.start (StringLiteral "vm,docker java") (StringLiteral "java standard"))
    as (b&E&H); [reflexivity|reflexivity|]. exists b. split; [exact E|]. apply H.
  exists (txt "java"). split; apply split_is_piece; vm_compute; repeat constructor.
Defined.


(** ** Corners *)

(** The average of no element is 0: the undefined value is set and overwritten. *)
Lemma empty_average : Sample.value (Sample.run (Sample.fn "avg" [integers []])) = Some (true, INTEGER_VALUE 0).
Proof. by vm_compute. Qed.

(** [anycompare] gives up at an undefined comparison, before an element that satisfies. *)
Lemma anycompare_gives_up :
  Sample.value (Sample.run (Sample.fn "anycompare" [StringLiteral "<";
    ExprList None [UndefinedLiteral; IntegerLiteral 1]; IntegerLiteral 5])) = Some (true, BOOLEAN_VALUE false) /\
  Sample.value (Sample.run (Sample.fn "anycompare" [StringLiteral "<";
    ExprList None [IntegerLiteral 1; UndefinedLiteral]; IntegerLiteral 5])) = Some (true, BOOLEAN_VALUE true).
Proof. by vm_compute. Qed.

(** Function names ignore case, except for the result of the version comparisons. *)
Lemma version_name_case :
  Sample.value (Sample.run (Sample.fn "versionLE" [StringLiteral "8.9"; StringLiteral "8.10"])) =
    Some (true, BOOLEAN_VALUE true) /\
  Sample.value (Sample.run (Sample.fn "versionle" [StringLiteral "8.9"; StringLiteral "8.10"])) =
    Some (true, ERROR_VALUE).
Proof. by vm_compute. Qed.

(** [absTime] of a string that is not a literal is the string. *)
Lemma absTime_of_string :
  Sample.value (Sample.run (Sample.fn "absTime" [OperationParens None (StringLiteral "2024-01-01")])) =
    Some (true, STRING_VALUE "2024-01-01").
Proof. by vm_compute. Qed.

(** [strcat] lowers the recursion budget when an argument fails, and a caller that goes on
    keeps the loss. *)
Lemma strcat_leaks_depth :
  let e := Sample.fn "stringListsIntersect" [Sample.fn "strcat" [Sample.fn "random" []]; StringLiteral "a"] in
  Sample.value (Sample.run e) = Some (true, ERROR_VALUE) /\
  Sample.depth (Sample.run e) = Some (MAX_CLASSAD_RECURSION - 1).
Proof. by vm_compute. Qed.
