(* ===== verification/EvalLaws.v ===== *)
(** * Evaluation: termination, short-circuiting, and reading back what was inserted *)
From Stdlib Require Import ZArith Lia Ascii String.
From stdpp Require Import base list gmap strings fin_maps.
From S2P Require Import Prelude Double Tree Values Operators FlatMap AdStore AdStoreFacts.
From S2P Require Import AdStoreLaws Eval EvalFacts.

Open Scope res_scope.

(** ** Plain expressions

    No list, no function call and no subscript: the constructs whose evaluation is not
    bounded by [depth_remaining] alone. *)
Fixpoint plain (e : ExprTree) : bool :=
  match e with
  | AttributeReference _ x _ _ => match x with Some x => plain x | None => true end
  | Operation1 _ op c => negb (bool_decide (op = SUBSCRIPT_OP)) && plain c
  | OperationParens _ c => plain c
  | Operation2 _ op c1 c2 => negb (bool_decide (op = SUBSCRIPT_OP)) && plain c1 && plain c2
  | Operation3 _ c1 c2 c3 =>
      plain c1 && match c2 with Some c2 => plain c2 | None => true end && plain c3
  | FunctionCall _ _ _ | ExprList _ _ => false
  | _ => true
  end.

(** A store that evaluation can walk: its pointers do not dangle, its chains and its scopes
    end (witnessed by two rankings), its expressions are plain and no larger than [size]. *)
Record walkable (h : heap) (max_size : nat) : Prop := mk_walkable {
  w_chain : exists rank : adref -> nat, forall a ad, h !! a = Some ad ->
    (rank a < size h)%nat /\
    forall p, chained_parent_ad ad = Some p -> p ∈ dom h /\ (rank p < rank a)%nat;
  w_scope : exists rank : adref -> nat, forall a ad, h !! a = Some ad ->
    (rank a < size h)%nat /\
    forall p, parentScope ad = Some p -> p ∈ dom h /\ (rank p < rank a)%nat;
  w_alternate : forall a ad p, h !! a = Some ad -> alternateScope ad = Some p -> p ∈ dom h;
  w_trees : forall a ad kv, h !! a = Some ad -> kv ∈ attrList ad ->
    plain kv.2 = true /\ Forall (fun c => c ∈ dom h) (nested_ads kv.2) /\
    (tree_size kv.2 <= max_size)%nat
}.

(** Computations that end; [CLASSAD_EXCEPT] is an end. *)
Definition ends {A} (m : M A) (st : state) (Q : A -> state -> Prop) : Prop :=
  match m st with Ret a st' => Q a st' | NoFuel => False | Except => True end.

Lemma ends_ret {A} (a : A) st (Q : A -> state -> Prop) : Q a st -> ends (rret a) st Q.
Proof. done. Qed.
Lemma ends_bind {A B} (m : M A) (k : A -> M B) st (Q : B -> state -> Prop) :
  ends m st (fun a st' => ends (k a) st' Q) -> ends (rbind m k) st Q.
Proof. unfold ends, rbind. by destruct (m st). Qed.
Lemma ends_mono {A} (m : M A) st (Q1 Q2 : A -> state -> Prop) :
  ends m st Q1 -> (forall a st', Q1 a st' -> Q2 a st') -> ends m st Q2.
Proof. unfold ends. destruct (m st); auto. Qed.
Lemma ends_get st (Q : EvalState -> state -> Prop) : Q st.2 st -> ends get_state st Q.
Proof. done. Qed.
Lemma ends_modify f st (Q : unit -> state -> Prop) :
  Q tt (st.1, f st.2) -> ends (modify_state f) st Q.
Proof. done. Qed.
Lemma ends_read {A} (f : heap -> option A) st a (Q : A -> state -> Prop) :
  f st.1 = Some a -> Q a st -> ends (read_heap f) st Q.
Proof. unfold ends, read_heap. by intros ->. Qed.

Ltac ends_step :=
  lazymatch goal with
  | |- ends (rret _) _ _ => apply ends_ret
  | |- ends (rbind _ _) _ _ => apply ends_bind
  | |- ends get_state _ _ => apply ends_get
  | |- ends (modify_state _) _ _ => apply ends_modify
  | |- ends classad_except _ _ => exact I
  end.

(** ** Lookups end *)
Lemma Lookup_ends h m a name :
  walkable h m -> a ∈ dom h -> exists r, Lookup h a name = Some r /\
    forall t, r = Some t -> plain t = true /\ Forall (fun c => c ∈ dom h) (nested_ads t) /\
      (tree_size t <= m)%nat.
Proof.
  intros [[rank Hr] _ _ Ht] Ha. unfold Lookup.
  assert (Hb : (rank a < size h)%nat).
  { apply elem_of_dom in Ha as [ad E]. by apply (Hr a ad E). }
  revert Hb. generalize (size h) as n. intros n. revert a Ha.
  induction n as [|n IH]; intros a Ha Hb; [lia|]. simpl.
  apply elem_of_dom in Ha as [ad E]. rewrite E. simpl.
  destruct (fm_lookup (attrList ad) name) as [t|] eqn:El.
  - exists (Some t). split; [done|]. intros ? [= <-].
    apply fm_lookup_entry in El as (k&Hin&_). by apply (Ht _ _ (k, t) E).
  - destruct (chained_parent_ad ad) as [p|] eqn:Ec; [|by exists None].
    destruct (Hr a ad E) as [_ Hp]. destruct (Hp p Ec) as [Hd Hlt]. apply IH; [done|lia].
Qed.

(** ** Operators make no lists and no ClassAds *)
Definition scalar_result (r : OpResult) : Prop :=
  forall sig v, r = OpDone sig v -> is_scalar v = true.

Lemma compareCoerced_scalar op ct v1 v2 v : compareCoerced op ct v1 v2 = Some v -> is_scalar v = true.
Proof.
  unfold compareCoerced, compareStrings, compareIntegers, compareReals, compareBools,
    compareAbsoluteTimes, compareRelativeTimes, compare_doubles.
  intros H. repeat case_match; by simplify_eq.
Qed.

Lemma doComparison_scalar op v1 v2 : scalar_result (op_result (doComparison op v1 v2)).
Proof.
  intros sig v. unfold doComparison. destruct (if is_meta op then _ else _) as [[ct w1] w2].
  destruct (is_meta op && _); [by intros [= _ <-]|]. destruct (is_meta op && _); [by intros [= _ <-]|].
  destruct (compareCoerced op ct w1 w2) as [v'|] eqn:E; simpl; [|done]. intros [= _ <-].
  by eapply compareCoerced_scalar.
Qed.

Lemma doArithmetic_scalar op v1 v2 : scalar_result (op_result (doArithmetic op v1 v2)).
Proof.
  intros sig v. unfold doArithmetic. destruct (_ || _); [by intros [= _ <-]|].
  case_bool_decide; [destruct v1; by intros [= _ <-]|].
  destruct (coerceToNumber v1 v2) as [[ct w1] w2].
  unfold int_divide, int_modulus, doRealArithmetic, doTimeArithmetic.
  intros Hr. repeat case_match; by simplify_eq/=.
Qed.

Lemma doLogical_scalar op v1 v2 : scalar_result (op_result (doLogical op v1 v2)).
Proof.
  intros sig v. unfold doLogical. destruct (coerce_bool v1) eqn:E1; simpl; try (by intros [= _ <-]);
    destruct (coerce_bool v2) eqn:E2; simpl; try (by intros [= _ <-]);
    destruct op; simpl; try done; repeat case_match; by intros [= _ <-].
Qed.

Lemma doBitwise_scalar op v1 v2 : scalar_result (op_result (doBitwise op v1 v2)).
Proof.
  intros sig v. unfold doBitwise. intros Hr. repeat case_match; by simplify_eq/=.
Qed.

(** A result is a scalar or one of the operands. *)
Lemma doOperation_result op v1 v2 v3 b1 b2 b3 sig v :
  _doOperation op v1 v2 v3 b1 b2 b3 = OpDone sig v ->
  is_scalar v = true \/ v = v1 \/ v = v2 \/ v = v3 .
Proof.
  unfold _doOperation. destruct op; try (intros [= _ <-]; auto).
  all: try (destruct (if IsStrictOperator _ then _ else _) as [[sg w]|] eqn:Es; simpl;
    [intros [= _ <-]; left; simpl in Es; unfold strict_exception in Es;
     repeat case_match; simplify_eq; done|]).
  all: try (intros H; left; first [by eapply doComparison_scalar|by eapply doArithmetic_scalar|
    by eapply doLogical_scalar|by eapply doBitwise_scalar]).
  all: try (unfold doUnaryPlus; destruct v1; by eauto).
  all: try (unfold doSubscript; simpl; intros H; repeat case_match; simplify_eq/=; by left).
  all: unfold doTernary; simpl; intros H; repeat case_match; simplify_eq/=; auto.
Qed.

Section termination.
Variable oldSemantics : bool.
Variable functionTable : string -> option ClassAdFunc.
Variables (h : heap) (max_size : nat).
Hypothesis Hw : walkable h max_size.

(** The [time] function, which the old [CurrentTime] attribute calls. *)
Hypothesis time_ends : forall fn ev v st, functionTable "time" = Some fn ->
  exists w, fn ev [] v st = Ret (true, w) st /\ IsListValue w = None /\ IsClassAdValue w = None.

Definition in_store (o : option adref) : Prop := forall a, o = Some a -> a ∈ dom h.

(** The states met: the store is [h] and the scopes are in it. *)
Definition good (st : state) : Prop :=
  st.1 = h /\ in_store (rootAd st.2) /\ in_store (curAd st.2).

(** The expressions met at a recursion depth. *)
Definition good_tree (t : ExprTree) : Prop :=
  (plain t = true \/ t = FunctionCall None "time" []) /\
  Forall (fun c => c ∈ dom h) (nested_ads t) /\ (tree_size t <= S max_size)%nat.

Definition good_value (v : Value) : Prop :=
  IsListValue v = None /\ in_store (IsClassAdValue v).

Definition good_found (r : FindResult) : Prop :=
  match r with EVAL_OK t => good_tree t | _ => True end.

Lemma good_curAd st c : good st -> in_store c -> good (st.1, set_curAd c st.2).
Proof. by intros (?&?&?) ?. Qed.

Lemma special_lookup_good name root c sup :
  in_store root -> c ∈ dom h -> in_store sup -> good_found (special_lookup name root c sup).
Proof.
  intros Hr Hc Hs. unfold special_lookup.
  repeat case_match; simplify_eq/=; try done; unfold good_tree; simpl;
    split_and!; auto with lia; repeat constructor; eauto.
Qed.

Lemma LookupInScope_n_ends rank this name n current st :
  (forall a ad, h !! a = Some ad -> forall p, parentScope ad = Some p ->
     p ∈ dom h /\ (rank p < rank a)%nat) ->
  good st -> in_store current -> (forall c, current = Some c -> (rank c < n)%nat) ->
  ends (LookupInScope_n oldSemantics n this name current) st (fun r st' =>
    good st' /\ depth_remaining st'.2 = depth_remaining st.2 /\ good_found r).
Proof.
  intros Hr. revert current st. induction n as [|n IH]; intros current st Hg Hin Hb; simpl;
    (destruct current as [c|]; [|by apply ends_ret]); [by specialize (Hb c eq_refl); lia|].
  specialize (Hb c eq_refl). pose proof (Hin c eq_refl) as Hc.
  do 2 ends_step. assert (Hg1 := good_curAd st (Some c) Hg Hin). ends_step.
  destruct Hg as (Eh&Hroot&Hcur).
  destruct (Lookup_ends h max_size c name Hw Hc) as (r&Er&Ht).
  eapply ends_read; [by simpl; rewrite Eh|]. destruct r as [t|].
  { apply ends_ret. split_and!; [done|done|]. destruct (Ht t eq_refl) as (?&?&?).
    split_and!; [by left|done|lia]. }
  do 3 ends_step. apply elem_of_dom in Hc as [ad Ead].
  eapply ends_read; [by simpl; rewrite Eh, Ead|]. simpl.
  assert (Hsup : in_store (if bool_decide (rootAd st.2 = Some c) then None else parentScope ad)).
  { case_bool_decide; [done|]. intros p Hp. by eapply Hr. }
  destruct (is_special _ name).
  { apply ends_ret. split_and!; [done|done|].
    apply special_lookup_good; [done|by eapply elem_of_dom_2|done]. }
  match goal with |- ends (if ?b then _ else _) _ _ => destruct b; [by apply ends_ret|] end.
  eapply ends_mono; [apply IH; [done|done|]|done].
  intros p Hp. case_bool_decide; [done|]. destruct (Hr c ad Ead p Hp). lia.
Qed.

Lemma LookupInScope_ends this name st :
  good st -> this ∈ dom h ->
  ends (LookupInScope oldSemantics this name) st (fun r st' =>
    good st' /\ depth_remaining st'.2 = depth_remaining st.2 /\ good_found r).
Proof.
  intros Hg Hthis. destruct (w_scope _ _ Hw) as [rank Hr].
  apply (LookupInScope_n_ends rank); [by intros a ad E; apply (Hr a ad E)|done|by intros a [= <-]|].
  intros c [= <-]. destruct Hg as (->&_). apply elem_of_dom in Hthis as [ad E].
  destruct (Hr _ _ E). lia.
Qed.

(** ** The fuel

    [need d e] is enough for [e] at recursion depth [d]. *)
Definition need (d : Z) (e : ExprTree) : nat := Z.to_nat d * (max_size + 2) + tree_size e.

Definition good_result (st : state) (r : bool * Value) (st' : state) : Prop :=
  good st' /\ depth_remaining st'.2 = depth_remaining st.2 /\ (r.1 = true -> good_value r.2).

Definition ends_for (ev : ExprTree -> Value -> M (bool * Value)) (n : nat) : Prop :=
  forall e v st, good st -> good_tree e -> (need (depth_remaining st.2) e <= n)%nat ->
    ends (ev e v) st (good_result st).

Section ev.
Variable ev : ExprTree -> Value -> M (bool * Value).
Variable n : nat.
Hypothesis Hev : ends_for ev n.

(** Run the evaluator on a subtree. *)
Ltac ends_ev ok v st Hg Hd Hv :=
  eapply ends_mono; [apply Hev; [try done|try done|]|intros [ok v] st (Hg&Hd&Hv)].

Lemma search_ends expr s absolute current st :
  good st -> in_store current ->
  ends (search_scopes oldSemantics expr s absolute current) st (fun r st' =>
    good st' /\ depth_remaining st'.2 = depth_remaining st.2 /\ good_found r).
Proof.
  intros Hg Hc. destruct current as [c|]; [|by apply ends_ret]. simpl.
  specialize (Hc c eq_refl). apply ends_bind.
  eapply ends_mono; [by apply LookupInScope_ends|]. intros rc st1 (Hg1&Hd1&Hf1).
  apply ends_bind. apply elem_of_dom in Hc as [ad E].
  eapply ends_read; [by destruct Hg1 as (->&_); rewrite E|].
  assert (Hend : ends (rret rc) st1 (fun r st' =>
    good st' /\ depth_remaining st'.2 = depth_remaining st.2 /\ good_found r)) by done.
  destruct expr, absolute, rc, (alternateScope ad) as [alt|] eqn:Ea; try exact Hend.
  eapply ends_mono; [apply LookupInScope_ends; [done|by eapply w_alternate]|].
  intros r st2 (?&?&?). split_and!; congruence || done.
Qed.

Lemma FindExpr_ends expr s absolute st :
  good st -> (forall x, expr = Some x -> good_tree x /\ (need (depth_remaining st.2) x <= n)%nat) ->
  ends (FindExpr oldSemantics ev expr s absolute) st (fun r st' =>
    good st' /\ depth_remaining st'.2 = depth_remaining st.2 /\ good_found r).
Proof.
  intros Hg Hx. pose proof Hg as (Eh&Hroot&Hcur). unfold FindExpr. cbv zeta.
  do 2 ends_step. destruct expr as [x|].
  - destruct (Hx x eq_refl) as [Hgx Hn]. ends_step. ends_ev ok v st1 Hg1 Hd1 Hv1; [done|].
    destruct ok; cbn [negb]; [|by apply ends_ret].
    specialize (Hv1 eq_refl) as [Hl Ha]. simpl in Hl, Ha.
    destruct (IsUndefinedValue v); [by apply ends_ret|].
    destruct (IsErrorValue v); [by apply ends_ret|].
    destruct (IsClassAdValue v) as [c|].
    + eapply ends_mono; [by apply search_ends|]. intros r st2 (?&?&?). split_and!; congruence || done.
    + rewrite Hl. by apply ends_ret.
  - destruct absolute; [destruct (rootAd st.2) as [r|] eqn:Er|]; try (by apply ends_ret);
      by apply search_ends.
Qed.

Lemma good_literal t v : literal_Evaluate t = Some v -> good_value v.
Proof. destruct t; intros [= <-]; by split. Qed.

Lemma attrref_ends expr s absolute v st :
  good st -> (forall x, expr = Some x -> good_tree x /\ (need (depth_remaining st.2) x <= n)%nat) ->
  (Z.to_nat (depth_remaining st.2) * (max_size + 2) <= n)%nat ->
  ends (attrref_Evaluate oldSemantics ev expr s absolute v) st (good_result st).
Proof.
  intros Hg Hx Hn. pose proof Hg as (Eh&Hroot&Hcur). unfold attrref_Evaluate. cbv zeta.
  do 2 ends_step. ends_step. eapply ends_mono; [by apply FindExpr_ends|].
  intros r st1 (Hg1&Hd1&Hf1). pose proof Hg1 as (E1&Hr1&_).
  assert (Hrest : forall ok w, (ok = true -> good_value w) ->
    good_result st (ok, w) (st1.1, set_curAd (curAd st.2) st1.2)).
  { intros ok w Hw'. split_and!; done. }
  destruct r as [| | |t]; repeat ends_step; try (by apply Hrest); [by split_and!|].
  destruct (Z.leb_spec (depth_remaining st1.2) 0) as [|Hd]; repeat ends_step; [by apply Hrest|].
  ends_ev ok w st2 Hg2 Hd2 Hv2.
  - unfold need. simpl. destruct Hf1 as (_&_&Hs). rewrite Hd1 in *. nia.
  - repeat ends_step. destruct Hg2 as (He2&Hr2&_). simpl in Hd2, Hv2.
    split; [split_and!; assumption|]. split; [simpl; lia|exact Hv2].
Qed.

(** *** Operations *)
Lemma subscript_only op v1 v2 v3 b1 b2 b3 :
  op <> SUBSCRIPT_OP ->
  (exists sig v, _doOperation op v1 v2 v3 b1 b2 b3 = OpDone sig v) \/
  _doOperation op v1 v2 v3 b1 b2 b3 = OpExcept.
Proof.
  intros Hop. unfold _doOperation, op_result.
  destruct op; try done; repeat case_match; simplify_eq; eauto.
Qed.

Lemma good_operation op v1 v2 v3 b1 b2 b3 sig v :
  good_value v1 -> good_value v2 -> good_value v3 ->
  _doOperation op v1 v2 v3 b1 b2 b3 = OpDone sig v -> good_value v.
Proof.
  intros H1 H2 H3 Hr. destruct (doOperation_result _ _ _ _ _ _ _ _ _ Hr) as [Hs|[->|[->| ->]]]; try done.
  by destruct v.
Qed.

Lemma eval_child_ends c st :
  good st ->
  (forall x, c = Some x -> good_tree x /\ (need (depth_remaining st.2) x <= n)%nat) ->
  ends (eval_child ev c) st (good_result st).
Proof.
  intros Hg Hc. destruct c as [c|]; simpl; [|by apply ends_ret; split_and!].
  destruct (Hc c eq_refl). by apply Hev.
Qed.

Definition child_ok (d : Z) (c : option ExprTree) : Prop :=
  forall x, c = Some x -> good_tree x /\ (need d x <= n)%nat.

Lemma good_result_after st st1 r st2 :
  depth_remaining st1.2 = depth_remaining st.2 -> good_result st1 r st2 -> good_result st r st2.
Proof. intros E (?&?&?). split_and!; congruence || done. Qed.

Lemma child_ends x v st :
  good st -> child_ok (depth_remaining st.2) (Some x) -> ends (ev x v) st (good_result st).
Proof. intros Hg H. destruct (H x eq_refl). by apply Hev. Qed.

Lemma shortCircuit_ends op c1 c2 c3 v r st :
  good st -> child_ok (depth_remaining st.2) (Some c1) -> child_ok (depth_remaining st.2) c2 ->
  child_ok (depth_remaining st.2) c3 ->
  ends (shortCircuit ev op c1 c2 c3 v r) st (good_result st).
Proof.
  intros Hg H1 H2 H3. unfold shortCircuit.
  assert (Hd : forall b w, (b = true -> good_value w) -> ends (rret (b, w)) st (good_result st)).
  { intros b w Hw'. by apply ends_ret. }
  destruct op; try (by apply Hd); destruct (IsBooleanValueEquiv v) as [[]|]; try (by apply Hd);
    destruct c2 as [c2|]; try destruct c3 as [c3|]; try (by apply Hd); by apply child_ends.
Qed.

Lemma operation_ends op c1 c2 c3 v st :
  op <> SUBSCRIPT_OP -> good st -> child_ok (depth_remaining st.2) (Some c1) ->
  child_ok (depth_remaining st.2) c2 -> child_ok (depth_remaining st.2) c3 ->
  ends (operation_Evaluate oldSemantics ev op c1 c2 c3 v) st (good_result st).
Proof.
  intros Hop Hg H1 H2 H3. unfold operation_Evaluate. ends_step.
  destruct (H1 c1 eq_refl) as [Hg1 Hn1]. ends_ev ok1 v1 st1 Hs1 Hd1 Hv1; [done|].
  destruct ok1; cbn [negb]; [|by apply ends_ret]. specialize (Hv1 eq_refl). simpl in Hv1.
  rewrite <- Hd1 in *. ends_step.
  eapply ends_mono; [by apply shortCircuit_ends|]. intros [fin r1] st2 (Hs2&Hd2&Hf2).
  destruct fin; [apply ends_ret; split_and!; congruence || auto|].
  rewrite <- Hd2 in *. ends_step.
  eapply ends_mono; [by apply eval_child_ends|]. intros [ok2 v2] st3 (Hs3&Hd3&Hv2).
  destruct ok2; cbn [negb]; [|apply ends_ret; split_and!; congruence || done].
  specialize (Hv2 eq_refl). rewrite <- Hd3 in *. ends_step.
  eapply ends_mono; [by apply eval_child_ends|]. intros [ok3 v3] st4 (Hs4&Hd4&Hv3).
  destruct ok3; cbn [negb]; [|apply ends_ret; split_and!; congruence || done].
  specialize (Hv3 eq_refl).
  destruct (subscript_only op v1 v2 v3 true (present c2) (present c3) Hop) as [(sig&w&E)|E];
    rewrite E; simpl; [|exact I].
  split_and!; [done|congruence|]. intros _. simpl. exact (good_operation _ _ _ _ _ _ _ _ _ Hv1 Hv2 Hv3 E).
Qed.
End ev.

Lemma Evaluate_ends n : ends_for (Evaluate oldSemantics functionTable n) n.
Proof.
  induction n as [|n IH]; intros e v st Hg Ht Hn.
  { unfold need in Hn. pose proof (tree_size_pos e). lia. }
  assert (Hsub : forall x sc, plain x = true -> Forall (fun c => c ∈ dom h) (nested_ads x) ->
    (tree_size x < tree_size e)%nat -> sc = Some x -> child_ok n (depth_remaining st.2) sc).
  { intros x sc H1 H2 H3 -> y [= <-]. destruct Ht as (_&_&Hs). unfold need in *.
    split; [split_and!; auto; lia|lia]. }
  destruct Ht as ([Hp| ->]&Hnest&Hsz).
  2:{ simpl. destruct (functionTable "time") as [fn|] eqn:Ef; [|by apply ends_ret].
      unfold ends. destruct (time_ends fn (Evaluate oldSemantics functionTable n) v st eq_refl)
        as (w&->&?&Ha). split_and!; [done..|]. intros _. split; [done|]. simpl. by rewrite Ha. }
  destruct e; simpl in Hp |- *; try discriminate;
    try (by apply ends_ret; split_and!).

  - apply attrref_ends with (n := n); [done|done| |].
    + destruct expr as [x|]; [|by intros ?]. apply (Hsub x); simpl in *; auto with lia.
    + unfold need in Hn. simpl in Hn. lia.
  - apply andb_true_iff in Hp as [Hop Hp]. apply negb_true_iff, bool_decide_eq_false in Hop.
    apply operation_ends with (n := n); try done. apply (Hsub e); simpl in *; auto with lia.
  - apply ends_bind. simpl in Hnest. destruct (Hsub e _ Hp Hnest ltac:(simpl; lia) eq_refl e eq_refl).
    eapply ends_mono; [by apply IH|]. intros [ok w] st1 (?&?&Hv). apply ends_ret.
    destruct ok; split_and!; auto; done.
  - apply andb_true_iff in Hp as [[Hop Hp1]%andb_true_iff Hp2].
    apply negb_true_iff, bool_decide_eq_false in Hop. simpl in Hnest.
    apply Forall_app in Hnest as [Hn1 Hn2].
    apply operation_ends with (n := n); try done;
      [apply (Hsub e1)|apply (Hsub e2)]; simpl; auto with lia.
  - apply andb_true_iff in Hp as [[Hp1 Hp2]%andb_true_iff Hp3]. simpl in Hnest.
    rewrite !Forall_app in Hnest. destruct Hnest as (Hn1&Hn2&Hn3).
    apply operation_ends with (n := n); try done.
    + apply (Hsub e1); simpl; auto with lia.
    + destruct child2 as [c2|]; [|by intros ?]. apply (Hsub c2); simpl; auto with lia.
    + apply (Hsub e2); simpl; auto with lia.
  - apply ends_ret. split_and!; [done..|]. intros _. split; [done|]. intros a [= <-].
    by inversion Hnest.
Qed.
End termination.

(** C3: Evaluation of a plain expression terminates. In a store whose pointers do not
    dangle and whose chains and scopes end, an expression without lists, calls and
    subscripts, over attributes that are all plain, is evaluated with an amount of fuel
    linear in [depth_remaining] (400 at the entry points) and in the size of the largest
    expression, however the attributes refer to each other; and it leaves the store as it
    was. *)
Theorem plain_evaluation_terminates oldSemantics functionTable h max_size e v s n :
  walkable h max_size ->
  (forall fn ev v st, functionTable "time" = Some fn ->
     exists w, fn ev [] v st = Ret (true, w) st /\ IsListValue w = None /\ IsClassAdValue w = None) ->
  plain e = true -> Forall (fun c => c ∈ dom h) (nested_ads e) -> (tree_size e <= S max_size)%nat ->
  in_store h (rootAd s) -> in_store h (curAd s) ->
  (Z.to_nat (depth_remaining s) * (max_size + 2) + tree_size e <= n)%nat ->
  Evaluate oldSemantics functionTable n e v (h, s) <> NoFuel /\
  forall r st', Evaluate oldSemantics functionTable n e v (h, s) = Ret r st' -> st'.1 = h.
Proof.
  intros Hw Ht Hp Hn Hs Hr Hc Hf.
  assert (H := Evaluate_ends oldSemantics functionTable h max_size Hw Ht n e v (h, s)).
  unfold ends, need in H. specialize (H ltac:(by split_and!) ltac:(split_and!; auto) Hf).
  destruct (Evaluate oldSemantics functionTable n e v (h, s)) as [r st'| |].
  - split; [done|]. intros r' st'' [= <- <-]. by destruct H as ((?&_)&_).
  - done.
  - by split.
Qed.

(** A ClassAd whose attributes refer to each other in a circle. *)
Definition circular_example : heap :=
  let a := 1%positive in
  let ref name := AttributeReference (Some a) None name false in
  <[a := set_attrList
       [("A", Operation2 (Some a) ADDITION_OP (ref "B") (IntegerLiteral 1)); ("B", ref "A")]
       new_ClassAd]> ∅.

Lemma circular_example_walkable : walkable circular_example 3.
Proof.
  assert (H : forall x ad, circular_example !! x = Some ad -> x = 1%positive /\
    circular_example !! 1%positive = Some ad).
  { intros x ad. unfold circular_example. rewrite lookup_insert_Some, lookup_empty.
    intros [[<- <-]|[_ [=]]]. done. }
  split.
  - exists (fun _ => 0%nat). intros x ad [_ E]%H. vm_compute in E. injection E as <-. split; [vm_compute; lia|done].
  - exists (fun _ => 0%nat). intros x ad [_ E]%H. vm_compute in E. injection E as <-. split; [vm_compute; lia|done].
  - intros x ad p [_ E]%H. vm_compute in E. by injection E as <-.
  - intros x ad kv [_ E]%H. vm_compute in E. injection E as <-. simpl.
    rewrite !elem_of_cons. intros [->|[->|[]%elem_of_nil]]; simpl; split_and!; auto; constructor.
Defined.

Lemma plain_evaluation_terminates_witness :
  Evaluate false no_functions 2010 (AttributeReference None None "A" false) UNDEFINED_VALUE
    (eval_state circular_example 1%positive) <> NoFuel.
Proof.
  apply (plain_evaluation_terminates false no_functions circular_example 3); try done.
  - apply circular_example_walkable.
  - simpl. lia.
  - intros a [= <-]. apply elem_of_dom. by eexists.
  - intros a [= <-]. apply elem_of_dom. by eexists.
  - apply Nat.leb_le. vm_compute. reflexivity.
Defined.

(** ** Operators under evaluation *)

(** Short-circuiting. When the first operand of [&&] or [||] decides the result, that is
    the result, in the state the first operand left, whatever the second operand is, even
    one whose evaluation would fail or not end. *)
Theorem short_circuit oldSemantics functionTable n sc op e1 e2 v b v1 st st1 :
  (op = LOGICAL_AND_OP /\ b = false) \/ (op = LOGICAL_OR_OP /\ b = true) ->
  Evaluate oldSemantics functionTable n e1 UNDEFINED_VALUE st = Ret (true, v1) st1 ->
  IsBooleanValueEquiv v1 = Some b ->
  Evaluate oldSemantics functionTable (S n) (Operation2 sc op e1 e2) v st =
    Ret (true, BOOLEAN_VALUE b) st1.
Proof.
  intros Hop H1 Hb. simpl. unfold operation_Evaluate, rbind at 1. rewrite H1. simpl.
  unfold rbind at 1, shortCircuit. rewrite Hb. by destruct Hop as [[-> ->]|[-> ->]].
Qed.

Lemma short_circuit_witness :
  Evaluate false no_functions 2 (Operation2 None LOGICAL_OR_OP (IntegerLiteral 1)
    (FunctionCall None "undefinedFunction" [])) UNDEFINED_VALUE (eval_state ∅ 1%positive) =
  Ret (true, BOOLEAN_VALUE true) (eval_state ∅ 1%positive).
Proof.
  apply (short_circuit false no_functions 1 None LOGICAL_OR_OP (IntegerLiteral 1) _ _ true
    (INTEGER_VALUE 1)); [by right|reflexivity|reflexivity].
Defined.

(** Evaluating both operands makes no difference otherwise: if both evaluate, the value
    of the operation is the one [_doOperation] computes from their values, for every
    operator but the conditional and the subscript, unless the first operand of [&&] or
    [||] decides and the second is no truth value. *)
Theorem operation_is_strict oldSemantics functionTable n sc op e1 e2 v v1 v2 w st st1 st2 sig :
  op <> TERNARY_OP -> op <> SUBSCRIPT_OP ->
  Evaluate oldSemantics functionTable n e1 UNDEFINED_VALUE st = Ret (true, v1) st1 ->
  Evaluate oldSemantics functionTable n e2 UNDEFINED_VALUE st1 = Ret (true, v2) st2 ->
  _doOperation op v1 v2 UNDEFINED_VALUE true true false = OpDone sig w -> sig <> SIG_NONE ->
  (is_logical op = true -> logical_operand (coerce_bool v2) = true) ->
  exists st', Evaluate oldSemantics functionTable (S n) (Operation2 sc op e1 e2) v st =
    Ret (true, w) st' /\ (st' = st1 \/ st' = st2).
Proof.
  intros Hop Hop' H1 H2 Hdo Hsig Hlog. simpl. unfold operation_Evaluate, rbind at 1. rewrite H1. simpl.
  unfold rbind at 1.
  assert (Hfull : rbind (eval_child (Evaluate oldSemantics functionTable n) (Some e2))
    (fun '(ok2, val2) =>
       if negb ok2 then rret (false, ERROR_VALUE)
       else
         let! (ok3, val3) := eval_child (Evaluate oldSemantics functionTable n) None in
         if negb ok3 then rret (false, ERROR_VALUE)
         else finish_operation oldSemantics (Evaluate oldSemantics functionTable n)
                (_doOperation op v1 val2 val3 true true false) v) st1 = Ret (true, w) st2).
  { unfold rbind at 1. simpl. rewrite H2. simpl. unfold rbind, rret. simpl. rewrite Hdo. simpl.
    by destruct (Z.eqb_spec sig SIG_NONE). }
  assert (Hno : shortCircuit (Evaluate oldSemantics functionTable n) op e1 (Some e2) None v1 v st1 =
      Ret (false, v) st1 \/ exists b, IsBooleanValueEquiv v1 = Some b /\
      ((op = LOGICAL_AND_OP /\ b = false) \/ (op = LOGICAL_OR_OP /\ b = true))).
  { unfold shortCircuit. destruct op; simpl; try done; auto;
      destruct (IsBooleanValueEquiv v1) as [[]|]; eauto 6. }
  destruct Hno as [Hno|(b&Hb&Hcase)].
  - rewrite Hno. exists st2. split; [exact Hfull|auto].
  - exists st1. split; [|by left].
    assert (Hw : w = BOOLEAN_VALUE b).
    { assert (Hc1 : coerce_bool v1 = BOOLEAN_VALUE b) by (unfold coerce_bool; by rewrite Hb).
      destruct Hcase as [[-> ->]|[-> ->]]; cbn in Hdo; unfold doLogical in Hdo;
        rewrite Hc1, Hlog in Hdo by done; simpl in Hdo; congruence. }
    unfold shortCircuit. rewrite Hb, Hw. by destruct Hcase as [[-> ->]|[-> ->]].
Qed.

Lemma operation_is_strict_witness :
  exists st', Evaluate false no_functions 2 (Operation2 None LOGICAL_AND_OP (BooleanLiteral true)
    UndefinedLiteral) UNDEFINED_VALUE (eval_state ∅ 1%positive) = Ret (true, UNDEFINED_VALUE) st' /\
    (st' = eval_state ∅ 1%positive \/ st' = eval_state ∅ 1%positive).
Proof.
  by eapply (operation_is_strict false no_functions 1 None LOGICAL_AND_OP (BooleanLiteral true)
    UndefinedLiteral _ (BOOLEAN_VALUE true) UNDEFINED_VALUE).
Defined.
