(* ===== verification/MatchClassAd.v ===== *)
(** * Match ClassAds ([matchClassad.cpp], [classad/matchClassad.h])

    A match ClassAd holds a left and a right ClassAd and the two context ClassAds through
    which each names the other. Every operation takes the store and the match ClassAd's
    own members and returns them; [None] stands for a call without outcome, as in
    [AdStore]. The texts the code parses are given by the trees they denote. *)
From Stdlib Require Import ZArith Lia Ascii String.
From stdpp Require Import base list gmap strings.
From S2P Require Import Prelude Double Tree Values Operators FlatMap AdStore Eval.

(** [self] is the address of the match ClassAd as a ClassAd. *)
Record MatchClassAd := mk_MatchClassAd {
  self : adref;
  lad : option adref;
  rad : option adref;
  lCtx : option adref;
  rCtx : option adref;
  ladParent : option adref;
  radParent : option adref;
  lAlias : string;
  rAlias : string;
  symmetric_match : option ExprTree;
  right_matches_left : option ExprTree;
  left_matches_right : option ExprTree
}.

(** The assignments the operations make. *)
Definition set_left (ad parent : option adref) (m : MatchClassAd) : MatchClassAd :=
  mk_MatchClassAd (self m) ad (rad m) (lCtx m) (rCtx m) parent (radParent m)
    (lAlias m) (rAlias m) (symmetric_match m) (right_matches_left m) (left_matches_right m).
Definition set_right (ad parent : option adref) (m : MatchClassAd) : MatchClassAd :=
  mk_MatchClassAd (self m) (lad m) ad (lCtx m) (rCtx m) (ladParent m) parent
    (lAlias m) (rAlias m) (symmetric_match m) (right_matches_left m) (left_matches_right m).
Definition set_aliases (l r : string) (m : MatchClassAd) : MatchClassAd :=
  mk_MatchClassAd (self m) (lad m) (rad m) (lCtx m) (rCtx m) (ladParent m) (radParent m)
    l r (symmetric_match m) (right_matches_left m) (left_matches_right m).

(** ** The expressions of the match ClassAd *)
Definition ref (name : string) : ExprTree := AttributeReference None None name false.
Definition absref (name : string) : ExprTree := AttributeReference None None name true.
Definition select (side name : string) : ExprTree :=
  AttributeReference None (Some (ref side)) name false.

Definition match_attrs : list (string * ExprTree) :=
  [("symmetricMatch", Operation2 None LOGICAL_AND_OP (select "RIGHT" "requirements")
                        (select "LEFT" "requirements"));
   ("leftMatchesRight", select "RIGHT" "requirements");
   ("rightMatchesLeft", select "LEFT" "requirements");
   ("leftRankValue", select "LEFT" "rank");
   ("rightRankValue", select "RIGHT" "rank")].

(** The context of the side [mine]; the other side is [theirs]. *)
Definition context_attrs (mine theirs : string) : list (string * ExprTree) :=
  [("other", absref theirs); ("target", absref theirs); ("my", absref mine); ("ad", absref mine)].

(** A new ClassAd with these attributes: what the parser builds for a record. *)
Definition insert_all (a : adref) (h : heap) (l : list (string * ExprTree)) : option heap :=
  foldM (fun h kv => fst <$> Insert h a kv.1 (Some kv.2)) h l.
Definition build_ad (h : heap) (l : list (string * ExprTree)) : option (heap * adref) :=
  let '(h0, a) := alloc_ad h in h1 ← insert_all a h0 l; Some (h1, a).

(** [SetParentScope] of a ClassAd. *)
Definition scope_ad (a : adref) (s : option adref) (h : heap) : option heap :=
  on_ad a (set_parentScope s) h.
Definition ad_scope (h : heap) (a : adref) : option (option adref) := parentScope <$> h !! a.

Section match_ad.
(** [_useOldClassAdSemantics] *)
Variable oldSemantics : bool.

(** [side->alternateScope = other], where the code does it only in old semantics. *)
Definition set_alternate (side : option adref) (other : option adref) (h : heap) : option heap :=
  match side with
  | Some a => if oldSemantics then on_ad a (set_alternateScope other) h else Some h
  | None => Some h
  end.

(** ** Left and right ClassAds *)
Definition ReplaceLeftAd (h : heap) (m : MatchClassAd) (ad : option adref)
  : option (heap * MatchClassAd * bool) :=
  match ad with
  | Some a =>
      parent ← ad_scope h a;
      let m1 := set_left (Some a) parent m in
      '(h1, ok) ← Insert h (self m) "LEFT" (Some (ClassAdNode a));
      if negb ok then
        '(h2, _) ← Delete h1 (self m) "LEFT";
        Some (h2, set_left None None m, false)
      else
        ctx ← lCtx m;
        h2 ← scope_ad ctx (Some (self m)) h1;
        h3 ← scope_ad a (Some ctx) h2;
        h4 ← set_alternate (Some a) (rad m) h3;
        h5 ← set_alternate (rad m) (Some a) h4;
        Some (h5, m1, true)
  | None =>
      '(h1, _) ← Delete h (self m) "LEFT";
      h2 ← set_alternate (rad m) None h1;
      Some (h2, set_left None None m, true)
  end.

Definition ReplaceRightAd (h : heap) (m : MatchClassAd) (ad : option adref)
  : option (heap * MatchClassAd * bool) :=
  match ad with
  | Some a =>
      parent ← ad_scope h a;
      let m1 := set_right (Some a) parent m in
      '(h1, ok) ← Insert h (self m) "RIGHT" (Some (ClassAdNode a));
      if negb ok then
        '(h2, _) ← Delete h1 (self m) "RIGHT";
        Some (h2, set_right None None m, false)
      else
        ctx ← rCtx m;
        h2 ← scope_ad ctx (Some (self m)) h1;
        h3 ← scope_ad a (Some ctx) h2;
        h4 ← set_alternate (Some a) (lad m) h3;
        h5 ← set_alternate (lad m) (Some a) h4;
        Some (h5, m1, true)
  | None =>
      '(h1, _) ← Delete h (self m) "RIGHT";
      h2 ← set_alternate (lad m) None h1;
      Some (h2, set_right None None m, true)
  end.

(** The end of [RemoveLeftAd] and [RemoveRightAd]: the ClassAd goes back to its scope,
    and in old semantics the two ClassAds forget each other. *)
Definition release (ad parent other : option adref) (h : heap) : option heap :=
  match ad with
  | Some a =>
      h1 ← scope_ad a parent h;
      match other with
      | Some _ => h2 ← set_alternate (Some a) None h1; set_alternate other None h2
      | None => Some h1
      end
  | None => Some h
  end.

Definition RemoveLeftAd (h : heap) (m : MatchClassAd)
  : option (heap * MatchClassAd * option adref) :=
  '(h1, _) ← Remove h (self m) "LEFT";
  h2 ← release (lad m) (ladParent m) (rad m) h1;
  Some (h2, set_left None None m, lad m).
Definition RemoveRightAd (h : heap) (m : MatchClassAd)
  : option (heap * MatchClassAd * option adref) :=
  '(h1, _) ← Remove h (self m) "RIGHT";
  h2 ← release (rad m) (radParent m) (lad m) h1;
  Some (h2, set_right None None m, rad m).

(** ** Construction *)

(** A null argument is replaced by an empty ClassAd. *)
Definition or_new (h : heap) (ad : option adref) : heap * adref :=
  match ad with Some a => (h, a) | None => alloc_ad h end.

(** [InitMatchClassAd] of the ClassAd at [self]; the two parses cannot fail. *)
Definition InitMatchClassAd (h : heap) (this : adref) (aliases : string * string)
    (adl adr : option adref) : option (heap * MatchClassAd * bool) :=
  h1 ← on_ad this DisableDirtyTracking h;
  h2 ← Clear h1 this;
  '(h3, upd) ← build_ad h2 match_attrs;
  '(h4, _) ← Update h3 this upd;
  '(h5, lc) ← build_ad h4 (context_attrs "LEFT" "RIGHT");
  '(h6, rc) ← build_ad h5 (context_attrs "RIGHT" "LEFT");
  '(h7, _) ← Insert h6 this "lCtx" (Some (ClassAdNode lc));
  '(h8, _) ← Insert h7 this "rCtx" (Some (ClassAdNode rc));
  symmetric ← Lookup h8 this "symmetricMatch";
  right_left ← Lookup h8 this "rightMatchesLeft";
  left_right ← Lookup h8 this "leftMatchesRight";
  let '(h9, l) := or_new h8 adl in
  let '(h10, r) := or_new h9 adr in
  let m := mk_MatchClassAd this None None (Some lc) (Some rc) None None
             aliases.1 aliases.2 symmetric right_left left_right in
  '(h11, m1, _) ← ReplaceLeftAd h10 m (Some l);
  '(h12, m2, _) ← ReplaceRightAd h11 m1 (Some r);
  Some (h12, m2, true).

Definition MakeMatchClassAd (h : heap) (adl adr : option adref)
  : option (heap * MatchClassAd * bool) :=
  let '(h0, this) := alloc_ad h in InitMatchClassAd h0 this ("", "") adl adr.

(** ** Aliases *)
Definition same_name (n1 n2 : string) : bool := bool_decide (attr_key n1 = attr_key n2).

(** Both alias setters delete the new name, not the old alias, from the contexts. *)
Definition SetAlias (h : heap) (m : MatchClassAd) (old name : string)
    (in_left in_right : ExprTree) : option heap :=
  lc ← lCtx m; rc ← rCtx m;
  h1 ← (if String.eqb old "" then Some h
        else '(h', _) ← Delete h lc name; '(h'', _) ← Delete h' rc name; Some h'');
  if String.eqb name "" then Some h1
  else '(h2, _) ← Insert h1 lc name (Some in_left);
       '(h3, _) ← Insert h2 rc name (Some in_right); Some h3.

Definition SetLeftAlias (h : heap) (m : MatchClassAd) (name : string)
  : option (heap * MatchClassAd) :=
  if same_name name (lAlias m) then Some (h, m)
  else h' ← SetAlias h m (lAlias m) name (ref "ad") (absref "LEFT");
       Some (h', set_aliases name (rAlias m) m).
Definition SetRightAlias (h : heap) (m : MatchClassAd) (name : string)
  : option (heap * MatchClassAd) :=
  if same_name name (rAlias m) then Some (h, m)
  else h' ← SetAlias h m (rAlias m) name (absref "RIGHT") (ref "ad");
       Some (h', set_aliases (lAlias m) name m).

Definition UnoptimizeAdForMatchmaking (h : heap) (ad : adref) : option (heap * bool) :=
  '(h1, orig_requirements) ← Remove h ad "UnoptimizedRequirements";
  match orig_requirements with
  | Some t => Insert h1 ad "Requirements" (Some t)
  | None => Some (h1, true)
  end.

(** ** Matching *)
Variable functionTable : string -> option ClassAdFunc.

(** [EvalMatchExpr]: an integer that is no boolean cannot be met after the first test. *)
Definition EvalMatchExpr (n : nat) (this : adref) (match_expr : option ExprTree) : M bool :=
  match match_expr with
  | None => rret false
  | Some tree =>
      let! (ok, val) := EvaluateExpr oldSemantics functionTable n this tree UNDEFINED_VALUE SAFE_VALUES in
      if negb ok then rret false
      else
        match IsBooleanValueEquiv val with
        | Some result => rret result
        | None =>
            match IsIntegerValue val with
            | Some int_result => rret (negb (int_result =? 0)%Z)
            | None => rret false
            end
        end
  end.
Definition symmetricMatch (n : nat) (m : MatchClassAd) : M bool :=
  EvalMatchExpr n (self m) (symmetric_match m).
Definition rightMatchesLeft (n : nat) (m : MatchClassAd) : M bool :=
  EvalMatchExpr n (self m) (right_matches_left m).
Definition leftMatchesRight (n : nat) (m : MatchClassAd) : M bool :=
  EvalMatchExpr n (self m) (left_matches_right m).
End match_ad.
