(* ===== verification/Flatten.v ===== *)
(** * Flattening ([exprTree.cpp], [operators.cpp], [attrrefs.cpp], [exprList.cpp],
    [fnCall.cpp], [classad.cpp], [matchClassad.cpp])

    [_Flatten] of every node kind: partial evaluation into a value or a residual tree, in
    the monad of [Eval]; and [OptimizeAdForMatchmaking], which flattens the requirements of
    a ClassAd. As there, the first argument is fuel, and a call without outcome (a null
    pointer that is followed) has the outcome [NoFuel]. *)
From Stdlib Require Import ZArith Lia Ascii String.
From stdpp Require Import base list gmap strings.
From S2P Require Import Prelude Double Tree Values Operators FlatMap AdStore Eval MatchClassAd.

Open Scope res_scope.

Abbreviation evaluator := (ExprTree -> Value -> M (bool * Value)).

(** What [_Flatten] returns: the flag and the contents of its three result parameters.
    [fl_op] is what the caller finds in [*opPtr], which it has set to [__NO_OP__]: an
    operator other than that says that the result is [fl_val fl_op fl_tree]. *)
Record Flattened := mk_Flattened {
  fl_ok : bool;
  fl_val : Value;
  fl_tree : option ExprTree;
  fl_op : OpKind
}.

Definition flat_value (v : Value) : Flattened := mk_Flattened true v None __NO_OP__.
Definition flat_tree (v : Value) (t : option ExprTree) : Flattened := mk_Flattened true v t __NO_OP__.
Definition flat_fail (v : Value) : Flattened := mk_Flattened false v None __NO_OP__.

(** The flattened child as an expression: a value becomes a literal, null for lists and
    ClassAds. *)
Definition fl_expr (r : Flattened) : option ExprTree :=
  match fl_tree r with Some t => Some t | None => MakeLiteral (fl_val r) end.

(** The overloads of [MakeOperation] for a value and a tree, in either order: null when the
    tree is, or when the value has no literal. *)
Definition MakeOperation_vt (op : OpKind) (v : Value) (tree : option ExprTree) : option ExprTree :=
  t ← tree; lit ← MakeLiteral v; MakeOperation op (Some lit) (Some t) None.
Definition MakeOperation_tv (op : OpKind) (tree : option ExprTree) (v : Value) : option ExprTree :=
  t ← tree; lit ← MakeLiteral v; MakeOperation op (Some t) (Some lit) None.

(** The operators whose operands are not split into a value and a tree. *)
Definition is_unsplittable (op : OpKind) : bool :=
  is_comparison op ||
  match op with
  | SUBTRACTION_OP | DIVISION_OP | MODULUS_OP | LEFT_SHIFT_OP | RIGHT_SHIFT_OP
  | URIGHT_SHIFT_OP => true
  | _ => false
  end.
Definition is_special_op (op : OpKind) : bool :=
  match op with
  | TERNARY_OP | SUBSCRIPT_OP | UNARY_PLUS_OP | UNARY_MINUS_OP | PARENTHESES_OP
  | LOGICAL_NOT_OP | BITWISE_NOT_OP => true
  | _ => false
  end.

Section flatten.
Variable oldSemantics : bool.
Variable functionTable : string -> option ClassAdFunc.

Section with_evaluator.
Variable ev : evaluator.

(** [_doOperation] without an evaluation state: the element of a list is looked up through
    a null pointer. The significance is not looked at. *)
Definition fold_operation (r : OpResult) (val : Value) : M Value :=
  match r with
  | OpSubscriptList _ _ => no_fuel
  | _ => let! (_, v) := finish_operation oldSemantics ev r val in rret v
  end.
Definition fold2 (op : OpKind) (v1 v2 val : Value) : M Value :=
  fold_operation (_doOperation op v1 v2 UNDEFINED_VALUE true true false) val.

(** *** [combine] *)

(** The don't-care cases of the logical operators with exactly one value: done, or what
    [val] is then. *)
Definition combine_logical (op : OpKind) (val : Value) (v1 : Value) (t1 : option ExprTree)
    (v2 : Value) (t2 : option ExprTree) : M (option Flattened * Value) :=
  let w1 := if present t1 then UNDEFINED_VALUE else v1 in
  let w2 := if present t2 then UNDEFINED_VALUE else v2 in
  let! val := fold2 op w1 w2 val in
  if bool_decide (is_Some (IsBooleanValue val)) then rret (Some (flat_value val), val)
  else if bool_decide (op = LOGICAL_AND_OP) && negb (present t1)
          && bool_decide (IsBooleanValue v1 = Some true) then rret (Some (flat_tree val t2), val)
  else if bool_decide (op = LOGICAL_AND_OP) && negb (present t2)
          && bool_decide (IsBooleanValue v2 = Some true) then rret (Some (flat_tree val t1), val)
  else rret (None, val).

Definition is_no_op (op : OpKind) : bool := bool_decide (op = __NO_OP__).

(** An operand of an operation that cannot be merged with it. *)
Definition rebuild (op : OpKind) (v : Value) (t : option ExprTree) : option ExprTree :=
  if negb (is_no_op op) then MakeOperation_vt op v t
  else match t with Some t => Some t | None => MakeLiteral v end.

(** The cases after the don't-care ones. *)
Definition combine_cases (op : OpKind) (val : Value)
    (op1 : OpKind) (v1 : Value) (t1 : option ExprTree)
    (op2 : OpKind) (v2 : Value) (t2 : option ExprTree) : M Flattened :=
  let both := MakeOperation op t1 t2 None in
  if negb (present t1) && negb (present t2) then
    let! v := fold2 op v1 v2 val in rret (flat_value v)
  else if negb (present t1) && is_no_op op2 then rret (mk_Flattened true v1 t2 op)
  else if negb (present t2) && is_no_op op1 then rret (mk_Flattened true v2 t1 op)
  else if present t1 && is_no_op op1 && present t2 && is_no_op op2 then rret (flat_tree val both)
  else if negb (is_no_op op1 && is_no_op op2) && negb (bool_decide (op = op1))
          && negb (bool_decide (op = op2)) then
    match rebuild op1 v1 t1, rebuild op2 v2 t2 with
    | Some newOp1, Some newOp2 =>
        rret (flat_tree val (MakeOperation op (Some newOp1) (Some newOp2) None))
    | _, _ => rret (flat_fail val)
    end
  else if bool_decide (op = op1) && bool_decide (op = op2) then
    let! v := fold2 op v1 v2 val in rret (mk_Flattened true v both op)
  else if bool_decide (op = op1) then
    if negb (present t2) then
      let! v := fold2 op v1 v2 val in rret (mk_Flattened true v t1 op)
    else rret (mk_Flattened true v1 both op)
  else if bool_decide (op = op2) then
    if negb (present t1) then
      let! v := fold2 op v1 v2 val in rret (mk_Flattened true v t2 op)
    else rret (mk_Flattened true v2 both op)
  else classad_except.

Definition combine (op : OpKind) (val : Value)
    (op1 : OpKind) (v1 : Value) (t1 : option ExprTree)
    (op2 : OpKind) (v2 : Value) (t2 : option ExprTree) : M Flattened :=
  if xorb (present t1) (present t2)
     && (bool_decide (op = LOGICAL_OR_OP) || bool_decide (op = LOGICAL_AND_OP)) then
    let! (finished, val) := combine_logical op val v1 t1 v2 t2 in
    match finished with
    | Some r => rret r
    | None => combine_cases op val op1 v1 t1 op2 v2 t2
    end
  else combine_cases op val op1 v1 t1 op2 v2 t2.

(** ** The flatteners, over the flattener of the subtrees

    The flag of a flattener says that the caller passes [opPtr]. *)
Variable fl : bool -> ExprTree -> Value -> M Flattened.

Definition flat_child (c : ExprTree) : M Flattened := fl false c UNDEFINED_VALUE.

(** A binary operator that is not associative and commutative. *)
Definition flatten_unsplittable (op : OpKind) (child1 child2 : ExprTree) (val : Value)
  : M Flattened :=
  let! r1 := flat_child child1 in
  if negb (fl_ok r1) then rret (flat_fail val)
  else
    let! r2 := flat_child child2 in
    if negb (fl_ok r2) then rret (flat_fail val)
    else
      match fl_tree r1, fl_tree r2 with
      | None, None => let! v := fold2 op (fl_val r1) (fl_val r2) val in rret (flat_value v)
      | Some t1, Some t2 => rret (flat_tree val (MakeOperation op (Some t1) (Some t2) None))
      | Some t1, None => rret (flat_tree val (MakeOperation_tv op (Some t1) (fl_val r2)))
      | None, Some t2 => rret (flat_tree val (MakeOperation_vt op (fl_val r1) (Some t2)))
      end.

(** The operands of an operator that is, each with its operator. *)
Definition flatten_child (c : option ExprTree) : M Flattened :=
  match c with
  | Some c => fl true c UNDEFINED_VALUE
  | None => rret (flat_value UNDEFINED_VALUE)
  end.
Definition flatten_splittable (split : bool) (op : OpKind) (child1 child2 : option ExprTree)
    (val : Value) : M Flattened :=
  let! r1 := flatten_child child1 in
  if negb (fl_ok r1) then rret (flat_fail val)
  else
    let! r2 := flatten_child child2 in
    if negb (fl_ok r2) then rret (flat_fail val)
    else
      let! r := combine op val (fl_op r1) (fl_val r1) (fl_tree r1)
                  (fl_op r2) (fl_val r2) (fl_tree r2) in
      if negb (fl_ok r) || split || is_no_op (fl_op r) then rret r
      else
        match MakeOperation_vt (fl_op r) (fl_val r) (fl_tree r) with
        | Some t => rret (flat_tree (fl_val r) (Some t))
        | None => rret (flat_fail (fl_val r))
        end.

(** [Operation1::flatten] and [OperationParens::flatten] *)
Definition operation1_flatten (op : OpKind) (child1 : ExprTree) (val : Value) : M Flattened :=
  let! r := flat_child child1 in
  if negb (fl_ok r) then rret (flat_fail val)
  else
    match fl_tree r with
    | Some t => rret (flat_tree val (MakeOperation op (Some t) None None))
    | None =>
        let! v := fold_operation
                    (_doOperation op (fl_val r) UNDEFINED_VALUE UNDEFINED_VALUE true false false) val in
        rret (flat_value v)
    end.
Definition parens_flatten (child1 : ExprTree) (val : Value) : M Flattened :=
  let! r := flat_child child1 in
  if negb (fl_ok r) then rret (flat_fail val)
  else
    match fl_tree r with
    | Some t => rret (flat_tree val (MakeOperation PARENTHESES_OP (Some t) None None))
    | None => rret (flat_value (fl_val r))
    end.

(** [Operation2::flatten], for subscripts *)
Definition operation2_flatten (op : OpKind) (child1 child2 : ExprTree) (val : Value)
  : M Flattened :=
  let! r1 := flat_child child1 in
  if negb (fl_ok r1) then rret (flat_fail val)
  else
    let! r2 := flat_child child2 in
    if negb (fl_ok r2) then rret (flat_fail val)
    else if negb (present (fl_tree r1)) && negb (present (fl_tree r2)) then
      let! v := fold2 op (fl_val r1) (fl_val r2) val in rret (flat_value v)
    else
      match fl_expr r1, fl_expr r2 with
      | Some t1, Some t2 => rret (flat_tree val (MakeOperation op (Some t1) (Some t2) None))
      | _, _ => rret (flat_fail val)
      end.

(** [Operation3::flatten]. A middle child whose value has no literal is left out of the
    new node. *)
Definition operation3_flatten (child1 : ExprTree) (child2 : option ExprTree) (child3 : ExprTree)
    (val : Value) : M Flattened :=
  let! r1 := flat_child child1 in
  if negb (fl_ok r1) then rret (flat_fail val)
  else if negb (present (fl_tree r1)) && negb (IsUndefinedValue (fl_val r1)) then
    match IsBooleanValueEquiv (fl_val r1), child2 with
    | None, _ => rret (flat_value ERROR_VALUE)
    | Some true, Some child2 => fl false child2 val
    | Some true, None => rret (flat_fail val)
    | Some false, _ => fl false child3 val
    end
  else
    let! r2 := match child2 with
               | Some child2 => let! r2 := flat_child child2 in rret (Some r2)
               | None => rret None
               end in
    if match r2 with Some r2 => negb (fl_ok r2) | None => false end then rret (flat_fail val)
    else
      let! r3 := flat_child child3 in
      if negb (fl_ok r3) then rret (flat_fail val)
      else
        match fl_expr r3 with
        | None => rret (flat_fail val)
        | Some t3 =>
            let! t1 := match fl_tree r1 with
                       | Some t1 => rret t1
                       | None => on_heap (fun h => CopyTree h child1)
                       end in
            rret (flat_tree val (MakeOperation TERNARY_OP (Some t1) (r2 ≫= fl_expr) (Some t3)))
        end.

(** [Operation::_Flatten] *)
Definition operation_Flatten (split : bool) (op : OpKind) (child1 : ExprTree)
    (child2 child3 : option ExprTree) (val : Value) : M Flattened :=
  if is_unsplittable op then
    match child2 with
    | Some child2 => flatten_unsplittable op child1 child2 val
    | None => no_fuel
    end
  else if is_special_op op then
    match op, child2, child3 with
    | PARENTHESES_OP, _, _ => parens_flatten child1 val
    | TERNARY_OP, _, Some child3 => operation3_flatten child1 child2 child3 val
    | TERNARY_OP, _, None => no_fuel
    | SUBSCRIPT_OP, Some child2, _ => operation2_flatten op child1 child2 val
    | SUBSCRIPT_OP, None, _ => no_fuel
    | _, _, _ => operation1_flatten op child1 val
    end
  else if is_no_op op then flatten_splittable split op None None val
  else flatten_splittable split op (Some child1) child2 val.

(** *** Attribute references *)

Definition is_classad_node (tree : ExprTree) : bool :=
  match tree with ClassAdNode _ => true | _ => false end.

(** [AttributeReference::Copy] *)
Definition copy_ref (this : ExprTree) : M ExprTree :=
  on_heap (fun h => CopyTree h this).

(** The part for [EVAL_UNDEF] under [FlattenAndInline]: the residue of the scope
    expression, null when there is none, and whether the recursion budget is used up. *)
Definition inline_scope (expr : option ExprTree) : M (bool * option ExprTree) :=
  let! s := get_state in
  match expr with
  | Some e =>
      if flattenAndInline s then
        if depth_remaining s <=? 0 then rret (false, None)
        else
          let! _ := modify_state (set_depth (depth_remaining s - 1)) in
          let! r := flat_child e in
          let! s' := get_state in
          let! _ := modify_state (set_depth (depth_remaining s' + 1)) in
          rret (true, if fl_ok r then fl_tree r else None)
      else rret (true, None)
  | None => rret (true, None)
  end.

(** The scope is left where the expression was found when that is a ClassAd, and when a
    residual tree is inlined. *)
Definition attrref_Flatten (sc : option adref) (expr : option ExprTree) (attributeStr : string)
    (absolute : bool) (val : Value) : M Flattened :=
  let this := AttributeReference sc expr attributeStr absolute in
  let! s0 := get_state in
  let restore := modify_state (set_curAd (curAd s0)) in
  let! r := FindExpr oldSemantics ev expr attributeStr absolute in
  match r with
  | EVAL_FAIL => rret (flat_fail val)
  | EVAL_ERROR => let! _ := restore in rret (flat_value ERROR_VALUE)
  | EVAL_UNDEF =>
      let! (ok, expr_ntree) := inline_scope expr in
      if negb ok then let! _ := restore in rret (flat_fail ERROR_VALUE)
      else
        match expr_ntree with
        | Some t =>
            let! _ := restore in
            rret (flat_tree val (Some (AttributeReference None (Some t) attributeStr false)))
        | None =>
            let! ntree := copy_ref this in
            let! _ := restore in rret (flat_tree val (Some ntree))
        end
  | EVAL_OK tree =>
      let! s := get_state in
      if is_classad_node tree then
        let! ntree := copy_ref this in rret (flat_tree UNDEFINED_VALUE (Some ntree))
      else if depth_remaining s <=? 0 then let! _ := restore in rret (flat_fail ERROR_VALUE)
      else
        let! _ := modify_state (set_depth (depth_remaining s - 1)) in
        let! rv := fl false tree val in
        let! s' := get_state in
        let! _ := modify_state (set_depth (depth_remaining s' + 1)) in
        match fl_tree rv with
        | Some t =>
            if flattenAndInline s then rret (flat_tree (fl_val rv) (Some t))
            else
              let! ntree := copy_ref this in
              let! _ := restore in
              rret (mk_Flattened (fl_ok rv) UNDEFINED_VALUE (Some ntree) __NO_OP__)
        | None => let! _ := restore in rret (mk_Flattened (fl_ok rv) (fl_val rv) None __NO_OP__)
        end
  end.

(** *** Lists, calls and ClassAds *)

(** The loops over the elements of a list and the arguments of a call, with one variable for
    the values. The answer is null at a failure; the flag says that all were values. *)
Fixpoint flatten_items (l : list ExprTree) (tempVal : Value) (fold : bool)
  : M (option (list ExprTree * bool)) :=
  match l with
  | [] => rret (Some ([], fold))
  | x :: l' =>
      let! r := fl false x tempVal in
      match (if fl_ok r then fl_expr r else None) with
      | None => rret None
      | Some t =>
          let! rest := flatten_items l' (fl_val r) (fold && negb (present (fl_tree r))) in
          rret (prod_map (cons t) id <$> rest)
      end
  end.

Definition exprlist_Flatten (l : list ExprTree) (val : Value) : M Flattened :=
  let! items := flatten_items l UNDEFINED_VALUE true in
  rret match items with
       | Some (l', _) => flat_tree val (Some (ExprList None l'))
       | None => flat_fail val
       end.

(** Functions are taken to be pure: the call with the arguments as they were written. *)
Definition call_Flatten (functionName : string) (arguments : list ExprTree) (value : Value)
  : M Flattened :=
  match functionTable functionName with
  | None => rret (flat_value ERROR_VALUE)
  | Some function =>
      let! items := flatten_items arguments UNDEFINED_VALUE true in
      match items with
      | None => rret (flat_fail ERROR_VALUE)
      | Some (_, true) =>
          let! (ok, v) := function ev arguments value in
          rret (mk_Flattened ok v None __NO_OP__)
      | Some (args, false) => rret (flat_tree value (Some (FunctionCall None functionName args)))
      end
  end.

(** The loop over the attributes of a ClassAd; each value is cleared before the next. *)
Fixpoint flatten_attrs (l : list (string * ExprTree)) : M (option (list (string * ExprTree))) :=
  match l with
  | [] => rret (Some [])
  | (name, tree) :: l' =>
      let! r := flat_child tree in
      match (if fl_ok r then fl_expr r else None) with
      | None => rret None
      | Some t =>
          let! rest := flatten_attrs l' in
          rret (cons (name, t) <$> rest)
      end
  end.

(** The new ClassAd is filled through its attribute table, so that it has no scope and its
    expressions are not given it as theirs. *)
Definition classad_Flatten (this : adref) (val : Value) : M Flattened :=
  let! newAd := on_heap (fun h => Some (alloc_ad h)) in
  let! s := get_state in
  let restore := modify_state (set_curAd (curAd s)) in
  let! _ := modify_state (set_curAd (Some this)) in
  let! attrs := read_heap (fun h => attrList <$> h !! this) in
  let! items := flatten_attrs attrs in
  let! _ := restore in
  match items with
  | None => rret (flat_fail val)
  | Some l =>
      let! _ := on_heap (fun h => h' ← on_ad newAd (set_attrList l) h; Some (h', tt)) in
      rret (flat_tree val (Some (ClassAdNode newAd)))
  end.
End with_evaluator.

(** [ExprTree::Flatten (EvalState &, ...)] *)
Fixpoint Flatten (n : nat) (split : bool) (e : ExprTree) (val : Value) : M Flattened :=
  match n with
  | O => no_fuel
  | S n' =>
      let ev := Evaluate oldSemantics functionTable n' in
      let fl := Flatten n' in
      match e with
      | AttributeReference sc expr attributeStr absolute =>
          attrref_Flatten ev fl sc expr attributeStr absolute val
      | Operation1 _ op c1 => operation_Flatten ev fl split op c1 None None val
      | OperationParens _ c1 => operation_Flatten ev fl split PARENTHESES_OP c1 None None val
      | Operation2 _ op c1 c2 => operation_Flatten ev fl split op c1 (Some c2) None val
      | Operation3 _ c1 c2 c3 => operation_Flatten ev fl split TERNARY_OP c1 c2 (Some c3) val
      | FunctionCall _ f args => call_Flatten ev fl f args val
      | ExprList _ l => exprlist_Flatten fl l val
      | ClassAdNode a => classad_Flatten fl a val
      | _ => rret match literal_Evaluate e with Some v => flat_value v | None => flat_fail val end
      end
  end.

(** [ClassAd::Flatten], [ClassAd::FlattenAndInline] and [ExprTree::Flatten (Value &, ...)] *)
Definition Flatten_in (n : nat) (inline : bool) (scope : option adref) (tree : ExprTree)
  : M Flattened :=
  in_new_state MAX_CLASSAD_RECURSION inline scope (Flatten n false tree UNDEFINED_VALUE).
Definition ClassAd_Flatten (n : nat) (this : adref) := Flatten_in n false (Some this).
Definition FlattenAndInline (n : nat) (this : adref) := Flatten_in n true (Some this).
Definition Flatten_top (n : nat) (tree : ExprTree) : M Flattened :=
  let! scope := tree_scope tree in Flatten_in n false scope tree.

(** ** [OptimizeAdForMatchmaking] *)

(** Insertion and deletion whose answer is not looked at. *)
Definition insert_ (a : adref) (name : string) (tree : option ExprTree) (h : heap) : option heap :=
  fst <$> Insert h a name tree.
Definition delete_ (a : adref) (name : string) (h : heap) : option heap := fst <$> Delete h a name.
Definition if_named (name : string) (f : heap -> option heap) (h : heap) : option heap :=
  if String.eqb name "" then Some h else f h.

(** Whether one of the names that the optimisation uses is taken. *)
Definition name_taken (h : heap) (ad : adref) (name : string) : option bool :=
  present <$> Lookup h ad name.
Definition reserved_names (left_alias right_alias : string) : list string :=
  ["my"; "target"; "other"]
    ++ (if String.eqb left_alias "" then [] else [left_alias])
    ++ (if String.eqb right_alias "" then [] else [right_alias])
    ++ ["UnoptimizedRequirements"].
Fixpoint any_taken (h : heap) (ad : adref) (names : list string) : option bool :=
  match names with
  | [] => Some false
  | name :: names' =>
      taken ← name_taken h ad name; if (taken : bool) then Some true else any_taken h ad names'
  end.

(** The names a match gives to the two ClassAds. [MakeLiteral] of a ClassAd value is null,
    so ["my"] is not inserted. *)
Definition insert_names (ad : adref) (is_right : bool) (left_alias right_alias : string)
    (h : heap) : option heap :=
  let other := if is_right then "LEFT" else "RIGHT" in
  h1 ← (if oldSemantics then Some h
        else insert_ ad "my" (MakeLiteral (CLASSAD_VALUE ad)) h);
  h2 ← insert_ ad "target" (Some (absref other)) h1;
  h3 ← insert_ ad "other" (Some (absref other)) h2;
  h4 ← if_named left_alias
         (insert_ ad left_alias (Some (if is_right then absref "LEFT" else ref "self"))) h3;
  if_named right_alias
    (insert_ ad right_alias (Some (if is_right then ref "self" else absref "RIGHT"))) h4.
Definition delete_names (ad : adref) (left_alias right_alias : string) (h : heap) : option heap :=
  h1 ← (if oldSemantics then Some h else delete_ ad "my" h);
  h2 ← delete_ ad "other" h1;
  h3 ← delete_ ad "target" h2;
  h4 ← if_named left_alias (delete_ ad left_alias) h3;
  if_named right_alias (delete_ ad right_alias) h4.

(** The requirements replaced by the flattened ones; the answer is the error message. *)
Definition replace_requirements (ad : adref) (flat_requirements : ExprTree) (h : heap)
  : option (heap * option string) :=
  '(h1, orig_requirements) ← Remove h ad "Requirements";
  '(h2, renamed) ← match orig_requirements with
                   | Some orig => Insert h1 ad "UnoptimizedRequirements" (Some orig)
                   | None => Some (h1, true)
                   end;
  if negb renamed then Some (h2, Some "Failed to rename original requirements.")
  else
    '(h3, inserted) ← Insert h2 ad "Requirements" (Some flat_requirements);
    Some (h3, if (inserted : bool) then None else Some "Failed to insert optimized requirements.").

(** The answer is the error message, null when it succeeds. *)
Definition OptimizeAdForMatchmaking (n : nat) (ad : adref) (is_right : bool)
    (left_alias right_alias : string) : M (option string) :=
  let! taken := read_heap (fun h => any_taken h ad (reserved_names left_alias right_alias)) in
  if taken then rret (Some
    "Optimization of matchmaking requirements failed, because ad already contains one of my, target, other, or UnoptimizedRequirements.")
  else
    let! requirements := read_heap (fun h => Lookup h ad "Requirements") in
    match requirements with
    | None => rret (Some "No requirements found in ad to be optimized.")
    | Some requirements =>
        let! _ := on_heap (fun h =>
          h' ← insert_names ad is_right left_alias right_alias h; Some (h', tt)) in
        let! r := FlattenAndInline n ad requirements in
        let! failure :=
          match (if fl_ok r then fl_expr r else None) with
          | Some flat_requirements => on_heap (replace_requirements ad flat_requirements)
          | None => rret None
          end in
        match failure with
        | Some msg => rret (Some msg)
        | None =>
            let! _ := on_heap (fun h =>
              h' ← delete_names ad left_alias right_alias h; Some (h', tt)) in
            rret None
        end
    end.
End flatten.
