(* ===== verification/FlattenFacts.v ===== *)
(** * Flattening: what it leaves alone, and how it folds constants *)
From Stdlib Require Import ZArith Lia Ascii String.
From stdpp Require Import base list gmap strings fin_maps.
From S2P Require Import Prelude Double Tree Values Operators FlatMap AdStore AdStoreFacts.
From S2P Require Import AdStoreLaws Eval EvalFacts MatchClassAd Flatten.

Open Scope res_scope.

(** ** The frame

    [keeps]: the ClassAds that existed are unchanged, and the evaluation state is but for
    the current scope, which flattening does not always restore. *)
Definition keeps {A} (m : M A) : Prop := forall st, post m st (fun _ st' => wframe st st').

Lemma kept_ret {A} (a : A) : keeps (rret a).
Proof. intros st. by apply post_ret. Qed.
Lemma kept_no_fuel {A} : keeps (@no_fuel A).
Proof. intros st. apply post_no_fuel. Qed.
Lemma kept_except {A} : keeps (@classad_except A).
Proof. intros st. apply post_except. Qed.
Lemma kept_bind {A B} (m : M A) (k : A -> M B) :
  keeps m -> (forall a, keeps (k a)) -> keeps (rbind m k).
Proof.
  intros Hm Hk st. apply post_bind. eapply post_mono; [apply Hm|]. intros a st1 H1.
  eapply post_mono; [apply Hk|]. intros b st2 H2. exact (wframe_trans _ _ _ H1 H2).
Qed.
Lemma kept_get : keeps get_state.
Proof. intros st. by apply post_get. Qed.
Lemma kept_curAd c : keeps (modify_state (set_curAd c)).
Proof. intros st. by apply post_modify. Qed.
Lemma kept_read {A} (f : heap -> option A) : keeps (read_heap f).
Proof. intros st. by apply post_read. Qed.
Lemma kept_copy t : keeps (on_heap (fun h => CopyTree h t)).
Proof. intros st. apply post_heap. intros h x (?&_)%CopyTree_new. by apply wframe_heap. Qed.
Lemma kept_frame {A} (m : M A) : (forall st, post m st (fun _ st' => frame st st')) -> keeps m.
Proof. intros H st. eapply post_mono; [apply H|]. intros a st'. apply frame_wframe. Qed.
Lemma kept_find (m : M FindResult) : (forall st, post m st (find_frame st)) -> keeps m.
Proof. intros H st. eapply post_mono; [apply H|]. intros r st' [W _]. exact W. Qed.

(** A computation one level deeper. *)
Definition deeper {A} (m : M A) : M A :=
  let! s := get_state in
  let! _ := modify_state (set_depth (depth_remaining s - 1)) in
  let! r := m in
  let! s' := get_state in
  let! _ := modify_state (set_depth (depth_remaining s' + 1)) in
  rret r.
Lemma kept_deeper {A} (m : M A) : keeps m -> keeps (deeper m).
Proof.
  intros Hm st. unfold deeper. do 4 post_step. apply post_bind.
  eapply post_mono; [apply Hm|]. intros a st1 (H1&H2&H3&H4). repeat post_step. simpl in *.
  split_and!; simpl; [done|lia|done|done].
Qed.

(** Where the code goes one level deeper and goes on. *)
Lemma deeper_bind {A B} (m : M A) (k : A -> M B) st :
  (let! _ := modify_state (set_depth (depth_remaining st.2 - 1)) in
   let! r := m in
   let! s' := get_state in
   let! _ := modify_state (set_depth (depth_remaining s' + 1)) in
   k r) st = rbind (deeper m) k st.
Proof.
  unfold deeper, rbind, get_state, modify_state, rret. simpl.
  by destruct (m _).
Qed.

Lemma kept_at {A} (m m' : M A) st :
  m st = m' st -> keeps m' -> post m st (fun _ st' => wframe st st').
Proof. unfold post. intros -> H. apply H. Qed.

(** One step on a computation that keeps the store. *)
Ltac kept_step :=
  lazymatch goal with
  | |- keeps (rret _) => apply kept_ret
  | |- keeps (rbind _ _) => apply kept_bind; [|intros ?]
  | |- keeps get_state => apply kept_get
  | |- keeps (modify_state (set_curAd _)) => apply kept_curAd
  | |- keeps (read_heap _) => apply kept_read
  | |- keeps (on_heap (fun h => CopyTree h _)) => apply kept_copy
  | |- keeps no_fuel => apply kept_no_fuel
  | |- keeps classad_except => apply kept_except
  | |- keeps (deeper _) => apply kept_deeper
  | |- keeps (copy_ref _) => unfold copy_ref
  | |- keeps (match ?x with _ => _ end) => destruct x
  end.

Section frame.
Variable oldSemantics : bool.
Variable functionTable : string -> option ClassAdFunc.
Hypothesis functions_frame : forall f fn, functionTable f = Some fn ->
  forall ev, frames ev -> forall args v st, post (fn ev args v) st (fun _ st' => frame st st').

Definition keeps_all (fl : bool -> ExprTree -> Value -> M Flattened) : Prop :=
  forall split e v, keeps (fl split e v).

Section fl.
Variable ev : evaluator.
Hypothesis ev_frame : frames ev.
Variable fl : bool -> ExprTree -> Value -> M Flattened.
Hypothesis fl_keeps : keeps_all fl.

Lemma fold_operation_keeps r v : keeps (fold_operation oldSemantics ev r v).
Proof.
  unfold fold_operation. destruct r; repeat kept_step;
    apply kept_frame; intros st; by apply finish_frame.
Qed.
Hint Resolve fold_operation_keeps : core.

Lemma combine_cases_keeps op v op1 v1 t1 op2 v2 t2 :
  keeps (combine_cases oldSemantics ev op v op1 v1 t1 op2 v2 t2).
Proof. unfold combine_cases, fold2. cbv zeta. repeat (kept_step || done); auto. Qed.
Lemma combine_keeps op v op1 v1 t1 op2 v2 t2 :
  keeps (combine oldSemantics ev op v op1 v1 t1 op2 v2 t2).
Proof.
  unfold combine, combine_logical, fold2. cbv zeta.
  repeat (apply combine_cases_keeps || kept_step); auto.
Qed.

Lemma splittable_keeps split op c1 c2 v :
  keeps (flatten_splittable oldSemantics ev fl split op c1 c2 v).
Proof.
  unfold flatten_splittable, flatten_child.
  repeat (apply combine_keeps || kept_step); apply fl_keeps.
Qed.

Lemma operation_keeps split op c1 c2 c3 v :
  keeps (operation_Flatten oldSemantics ev fl split op c1 c2 c3 v).
Proof.
  unfold operation_Flatten. repeat (apply splittable_keeps || case_match);
    unfold flatten_unsplittable, operation1_flatten, parens_flatten, operation2_flatten,
      operation3_flatten, flat_child, fold2;
    repeat (kept_step || done); auto; apply fl_keeps.
Qed.

Lemma inline_scope_keeps expr : keeps (inline_scope fl expr).
Proof.
  unfold inline_scope. intros st. post_step. post_step.
  destruct expr as [e|]; [|by apply post_ret].
  destruct (flattenAndInline st.2); [|by apply post_ret].
  destruct (depth_remaining st.2 <=? 0); [by apply post_ret|]. unfold post. rewrite (deeper_bind (flat_child fl e)).
  revert st. apply kept_bind; [|intros; apply kept_ret]. apply kept_deeper, fl_keeps.
Qed.

Lemma attrref_keeps sc expr s absolute v :
  keeps (attrref_Flatten oldSemantics ev fl sc expr s absolute v).
Proof.
  unfold attrref_Flatten. cbv zeta.
  do 2 kept_step; [apply kept_find; intros st; by apply FindExpr_frame|].
  match goal with |- keeps (match ?r with _ => _ end) => destruct r as [| | |tree] end.
  1-3: repeat (apply inline_scope_keeps || kept_step).
  intros st. apply post_bind, post_get. destruct (is_classad_node tree); [by apply kept_bind; [apply kept_copy|intros; apply kept_ret]|].
  destruct (depth_remaining st.2 <=? 0); [apply (kept_bind _ _ (kept_curAd _)); intros; apply kept_ret|].
  eapply kept_at; [apply deeper_bind|].
  apply kept_bind; [apply kept_deeper, fl_keeps|intros; repeat kept_step].
Qed.

Lemma items_keeps l v b : keeps (flatten_items fl l v b).
Proof.
  revert v b. induction l as [|x l IH]; intros v b; simpl; repeat (apply IH || kept_step).
  apply fl_keeps.
Qed.
Lemma attrs_keeps l : keeps (flatten_attrs fl l).
Proof.
  induction l as [|[name x] l IH]; simpl; repeat (apply IH || kept_step). apply fl_keeps.
Qed.

Lemma list_keeps l v : keeps (exprlist_Flatten fl l v).
Proof. unfold exprlist_Flatten. repeat (apply items_keeps || kept_step). Qed.

Lemma call_keeps f args v : keeps (call_Flatten functionTable ev fl f args v).
Proof.
  unfold call_Flatten. destruct (functionTable f) as [fn|] eqn:E; [|apply kept_ret].
  repeat (apply items_keeps || kept_step). apply kept_frame. intros st. by eapply functions_frame.
Qed.

Lemma classad_keeps a v : keeps (classad_Flatten fl a v).
Proof.
  intros st. unfold classad_Flatten. apply post_bind, post_heap. intros h newAd [= <- <-].
  set (b := fresh (dom st.1)).
  assert (Hb : st.1 !! b = None) by apply not_elem_of_dom, is_fresh.
  do 7 post_step.
  eapply post_mono; [apply attrs_keeps|]. intros items st1 (H1&H2&H3&H4). simpl in *.
  assert (Hs : st.1 ⊆ st1.1) by (etrans; [apply insert_subseteq, Hb|exact H1]).
  do 3 post_step; [|by apply post_ret].
  apply post_bind, post_heap. intros h' [] Eh. apply post_ret. simpl in *.
  destruct (on_ad b _ st1.1) as [h2|] eqn:Eo; simplify_eq/=.
  apply on_ad_Some in Eo as (ad0&?&->). split_and!; [by apply insert_subseteq_r|done..].
Qed.
End fl.

Lemma Flatten_keeps n : keeps_all (Flatten oldSemantics functionTable n).
Proof.
  induction n as [|n IH]; intros split e v; simpl; [apply kept_no_fuel|].
  pose proof (Evaluate_frames oldSemantics functionTable functions_frame n) as Hev.
  destruct e; try apply kept_ret;
    auto using attrref_keeps, operation_keeps, call_keeps, list_keeps, classad_keeps.
Qed.
End frame.
