(* ===== verification/FlattenLaws.v ===== *)
(** * Flattening: names that are found, constants, and the ClassAds left alone *)
From Stdlib Require Import ZArith Lia Ascii String.
From stdpp Require Import base list gmap strings fin_maps.
From S2P Require Import Prelude Double Tree Values Operators OperatorFacts FlatMap AdStore AdStoreFacts.
From S2P Require Import AdStoreLaws Eval EvalFacts EvalLaws MatchClassAd Flatten FlattenFacts.

Open Scope res_scope.

(** ** Names without a scope expression *)

(** No evaluator is called to find them. *)
Definition nobody : evaluator := fun _ _ => no_fuel.
Definition find_name (oldSemantics : bool) (name : string) (absolute : bool) : M FindResult :=
  FindExpr oldSemantics nobody None name absolute.

Lemma state_eta (st : state) : st = (st.1, set_curAd (curAd st.2) st.2).
Proof. by destruct st as [? []]. Qed.

Lemma LookupInScope_n_state oldSemantics n this name current st :
  post (LookupInScope_n oldSemantics n this name current) st (fun _ st' =>
    st' = (st.1, set_curAd (curAd st'.2) st.2)).
Proof.
  revert current st. induction n as [|n IH]; intros current st; simpl;
    (destruct current as [c|]; [|apply post_ret, state_eta]); [apply post_no_fuel|].
  repeat post_step; try done. eapply post_mono; [apply IH|]. simpl. intros _ st' E. exact E.
Qed.
Lemma LookupInScope_state oldSemantics this name st :
  post (LookupInScope oldSemantics this name) st (fun _ st' =>
    st' = (st.1, set_curAd (curAd st'.2) st.2)).
Proof. apply LookupInScope_n_state. Qed.

Lemma find_name_state oldSemantics name absolute st :
  post (find_name oldSemantics name absolute) st (fun _ st' =>
    st' = (st.1, set_curAd (curAd st'.2) st.2)).
Proof.
  unfold find_name, FindExpr. cbv zeta. apply post_bind, post_get.
  assert (Hsearch : forall current, post (search_scopes oldSemantics None name absolute current) st
    (fun _ st' => st' = (st.1, set_curAd (curAd st'.2) st.2))).
  { intros [c|]; [|apply post_ret, state_eta]. apply post_bind.
    eapply post_mono; [apply LookupInScope_state|]. intros r st1 E1.
    apply post_bind, post_read. intros alt _. repeat post_step; try exact E1.
    eapply post_mono; [apply LookupInScope_state|]. intros r2 st2 E2. rewrite E2, E1. done. }
  repeat post_step; try apply state_eta; apply Hsearch.
Qed.

(** The state in which an expression that was found is processed. *)
Definition below (st : state) : state := (st.1, set_depth (depth_remaining st.2 - 1) st.2).

(** Going back up from there. *)
Lemma back_up st c : st =
  (st.1, set_curAd (curAd st.2) (set_depth (depth_remaining (below (st.1, set_curAd c st.2)).2 + 1)
    (below (st.1, set_curAd c st.2)).2)).
Proof. destruct st as [h []]. unfold below, set_depth, set_curAd. simpl. do 2 f_equal. lia. Qed.

Section laws.
Variable oldSemantics : bool.
Variable functionTable : string -> option ClassAdFunc.
Abbreviation Evaluate := (Evaluate oldSemantics functionTable).
Abbreviation Flatten := (Flatten oldSemantics functionTable).
Abbreviation find_name := (find_name oldSemantics).

(** [e] evaluates to [v], with enough fuel, and leaves the state as it was. *)
Definition evaluates (st : state) (e : ExprTree) (v : Value) : Prop :=
  exists n0, forall n, (n0 <= n)%nat -> forall val, Evaluate n e val st = Ret (true, v) st.
(** [e] flattens to the value [v]. *)
Definition flattens_to (st : state) (e : ExprTree) (v : Value) : Prop :=
  exists n0, forall n, (n0 <= n)%nat -> forall split val,
    Flatten n split e val st = Ret (flat_value v) st.

(** ** Constants

    [folds st e v]: [e] has the value [v] in the state [st], by operations on values: the
    names in it have no scope expression, are found within the recursion budget and stand
    for expressions that fold in turn, the branches of conditionals that are not taken do
    not matter, and functions are called on arguments that fold to values that can be
    written, and leave the state as it was. List literals, subscripts, scoped references and
    nested ClassAds do not fold. *)
Inductive folds : state -> ExprTree -> Value -> Prop :=
| folds_literal st e v : literal_Evaluate e = Some v -> folds st e v
| folds_ref st sc name absolute st1 t v :
    find_name name absolute st = Ret (EVAL_OK t) st1 -> is_classad_node t = false ->
    (0 < depth_remaining st.2)%Z -> folds (below st1) t v ->
    folds st (AttributeReference sc None name absolute) v
| folds_parens st sc c v : folds st c v -> folds st (OperationParens sc c) v
| folds_unary st sc op c v1 sig v :
    op ∈ [UNARY_PLUS_OP; UNARY_MINUS_OP; LOGICAL_NOT_OP; BITWISE_NOT_OP] ->
    folds st c v1 ->
    _doOperation op v1 UNDEFINED_VALUE UNDEFINED_VALUE true false false = OpDone sig v ->
    sig <> SIG_NONE -> folds st (Operation1 sc op c) v
| folds_binary st sc op c1 c2 v1 v2 sig v :
    is_special_op op = false -> op <> __NO_OP__ ->
    folds st c1 v1 -> folds st c2 v2 ->
    _doOperation op v1 v2 UNDEFINED_VALUE true true false = OpDone sig v -> sig <> SIG_NONE ->
    (is_logical op = true -> logical_operand (coerce_bool v2) = true) ->
    folds st (Operation2 sc op c1 c2) v
| folds_then st sc c1 c2 c3 v1 v :
    folds st c1 v1 -> IsBooleanValueEquiv v1 = Some true -> folds st c2 v ->
    folds st (Operation3 sc c1 (Some c2) c3) v
| folds_else st sc c1 c2 c3 v1 v :
    folds st c1 v1 -> IsBooleanValueEquiv v1 = Some false -> folds st c3 v ->
    folds st (Operation3 sc c1 (Some c2) c3) v
| folds_call st sc f fn args v :
    functionTable f = Some fn -> folds_args st args ->
    (exists n0, forall n, (n0 <= n)%nat -> forall val,
       fn (Evaluate n) args val st = Ret (true, v) st) ->
    folds st (FunctionCall sc f args) v
with folds_args : state -> list ExprTree -> Prop :=
| folds_nil st : folds_args st []
| folds_cons st e l v : folds st e v -> is_Some (MakeLiteral v) -> folds_args st l ->
    folds_args st (e :: l).

Scheme folds_mut := Induction for folds Sort Prop
  with folds_args_mut := Induction for folds_args Sort Prop.

(** What an operation of values is made into. *)
Lemma fold_operation_done ev sig v val st :
  fold_operation oldSemantics ev (OpDone sig v) val st = Ret v st.
Proof. done. Qed.

Lemma FindExpr_name ev name absolute : FindExpr oldSemantics ev None name absolute = find_name name absolute.
Proof. done. Qed.

Lemma found_state name absolute st r st1 :
  find_name name absolute st = Ret r st1 -> st1 = (st.1, set_curAd (curAd st1.2) st.2).
Proof. apply find_name_state. Qed.

(** A reference that is found, over an evaluator and a flattener that agree on what it
    stands for. *)
Lemma attrref_agrees ev fl sc name absolute st st1 t v val :
  find_name name absolute st = Ret (EVAL_OK t) st1 -> is_classad_node t = false ->
  (0 < depth_remaining st.2)%Z ->
  fl false t val (below st1) = Ret (flat_value v) (below st1) ->
  ev t val (below st1) = Ret (true, v) (below st1) ->
  attrref_Flatten oldSemantics ev fl sc None name absolute val st = Ret (flat_value v) st /\
  attrref_Evaluate oldSemantics ev None name absolute val st = Ret (true, v) st.
Proof.
  intros Hf Ht Hd H1 H2. pose proof (found_state _ _ _ _ _ Hf) as E. revert Hf H1 H2. rewrite E.
  generalize (curAd st1.2). clear st1 E. intros c Hf H1 H2.
  apply Z.leb_gt in Hd. unfold below in H1, H2. cbn [fst snd depth_remaining set_curAd] in H1, H2.
  unfold attrref_Flatten, attrref_Evaluate, rbind, get_state, modify_state. cbv zeta.
  rewrite !FindExpr_name, !Hf. cbn [fst snd depth_remaining set_curAd]. rewrite !Hd, Ht.
  cbn [fst snd]. rewrite H1, H2. split; exact (f_equal (Ret _) (eq_sym (back_up st c))).
Qed.

(** [e] both flattens and evaluates to [v], for the same amounts of fuel. *)
Definition agrees (st : state) (e : ExprTree) (v : Value) : Prop :=
  exists n0, forall n, (n0 <= n)%nat -> forall split val,
    Flatten n split e val st = Ret (flat_value v) st /\ Evaluate n e val st = Ret (true, v) st.
Definition items_agree (st : state) (l : list ExprTree) : Prop :=
  exists n0 l', forall n, (n0 <= n)%nat -> forall v b,
    flatten_items (Flatten n) l v b st = Ret (Some (l', b)) st.

(** Start the node at the fuel above [n0]. *)
Tactic Notation "at_node" constr(n0) "as" ident(n) ident(Hn) ident(sp) ident(val) :=
  exists (S n0); intros [|n] Hn sp val; [lia|]; apply le_S_n in Hn.

Lemma agrees_unary st sc op c v1 sig v :
  op ∈ [UNARY_PLUS_OP; UNARY_MINUS_OP; LOGICAL_NOT_OP; BITWISE_NOT_OP] -> agrees st c v1 ->
  _doOperation op v1 UNDEFINED_VALUE UNDEFINED_VALUE true false false = OpDone sig v ->
  sig <> SIG_NONE -> agrees st (Operation1 sc op c) v.
Proof.
  intros Hop [n0 H] Hdo Hsig. at_node n0 as n Hn split val.
  destruct (H n Hn false UNDEFINED_VALUE) as [H1 H2]. simpl.
  assert (E1 : operation1_flatten oldSemantics (Evaluate n) (Flatten n) op c val st = Ret (flat_value v) st).
  { unfold operation1_flatten, flat_child, rbind. rewrite H1. simpl. by rewrite Hdo. }
  assert (E2 : operation_Evaluate oldSemantics (Evaluate n) op c None None val st = Ret (true, v) st).
  { unfold operation_Evaluate, rbind at 1. rewrite H2. simpl. unfold rbind at 1, shortCircuit.
    replace (match op with LOGICAL_OR_OP | LOGICAL_AND_OP | TERNARY_OP | _ => _ end) with (@rret state _ (false, val)).
    2:{ repeat (apply elem_of_cons in Hop as [->|Hop]; [done|]). by apply elem_of_nil in Hop. }
    simpl. unfold rbind. simpl. rewrite Hdo. simpl. by rewrite (proj2 (Z.eqb_neq _ _) Hsig). }
  split; [|exact E2]. unfold operation_Flatten.
  repeat (apply elem_of_cons in Hop as [->|Hop]; [exact E1|]). by apply elem_of_nil in Hop.
Qed.

Lemma agrees_binary st sc op c1 c2 v1 v2 sig v :
  is_special_op op = false -> op <> __NO_OP__ -> agrees st c1 v1 -> agrees st c2 v2 ->
  _doOperation op v1 v2 UNDEFINED_VALUE true true false = OpDone sig v -> sig <> SIG_NONE ->
  (is_logical op = true -> logical_operand (coerce_bool v2) = true) ->
  agrees st (Operation2 sc op c1 c2) v.
Proof.
  intros Hop Hno [n1 H1] [n2 H2] Hdo Hsig Hlog. at_node (max n1 n2) as n Hn split val.
  assert (K1 := H1 n ltac:(lia)). assert (K2 := H2 n ltac:(lia)). split.
  - simpl. unfold operation_Flatten. rewrite Hop. destruct (is_unsplittable op).
    + unfold flatten_unsplittable, flat_child, rbind.
      rewrite (proj1 (K1 _ _)). simpl. rewrite (proj1 (K2 _ _)). simpl. unfold fold2. by rewrite Hdo.
    + unfold is_no_op. rewrite bool_decide_false by done.
      unfold flatten_splittable, flatten_child, rbind. rewrite (proj1 (K1 _ _)). simpl.
      rewrite (proj1 (K2 _ _)). simpl. unfold combine, combine_cases. simpl.
      unfold fold2, rbind. rewrite Hdo. simpl. by destruct split.
  - destruct (operation_is_strict oldSemantics functionTable n sc op c1 c2 val v1 v2 v st st st sig)
      as (st'&E&Hst); try done.
    + by intros ->.
    + by intros ->.
    + apply K1; exact true.
    + apply K2; exact true.
    + rewrite E. by destruct Hst as [->| ->].
Qed.

Lemma agrees_branch st sc c1 c2 c3 v1 v b :
  agrees st c1 v1 -> IsBooleanValueEquiv v1 = Some b -> agrees st (if b then c2 else c3) v ->
  agrees st (Operation3 sc c1 (Some c2) c3) v.
Proof.
  intros [n1 H1] Hb [n2 H2]. at_node (max n1 n2) as n Hn split val.
  assert (K1 := H1 n ltac:(lia)). assert (K2 := H2 n ltac:(lia)).
  assert (Hu : IsUndefinedValue v1 = false) by by destruct v1. split.
  - simpl. unfold operation_Flatten, operation3_flatten, flat_child, rbind. simpl.
    rewrite (proj1 (K1 _ _)). simpl. rewrite Hu, Hb. simpl. destruct b; apply K2.
  - simpl. unfold operation_Evaluate, rbind at 1. rewrite (proj2 (K1 true _)). simpl.
    unfold rbind at 1, shortCircuit. rewrite Hb. destruct b; by rewrite (proj2 (K2 true _)).
Qed.

(** Constants fold to their value. *)
Lemma folds_agree st e v : folds st e v -> agrees st e v.
Proof.
  apply (folds_mut (fun st e v _ => agrees st e v) (fun st l _ => items_agree st l)); clear.
  - intros st e v H. at_node 0%nat as n Hn split val. destruct e; simplify_eq/=; done.
  - intros st sc name absolute st1 t v Hf Ht Hd _ [n0 H]. at_node n0 as n Hn split val.
    simpl. by apply (attrref_agrees _ _ _ _ _ _ st1 t); try apply H; try exact true.
  - intros st sc c v _ [n0 H]. at_node n0 as n Hn split val. simpl.
    unfold operation_Flatten, parens_flatten, parens_Evaluate, flat_child, rbind. simpl.
    by rewrite (proj1 (H n Hn _ _)), (proj2 (H n Hn true _)).
  - intros. by eapply agrees_unary.
  - intros. by eapply agrees_binary.
  - intros. by eapply (agrees_branch _ _ _ _ _ _ _ true).
  - intros. by eapply (agrees_branch _ _ _ _ _ _ _ false).
  - intros st sc f fn args v Hf _ (n1&l'&H1) [n2 H2]. at_node (max n1 n2) as n Hn split val. simpl.
    unfold call_Flatten, rbind. rewrite Hf, H1 by lia. simpl. by rewrite H2 by lia.
  - intros st. by exists 0%nat, [].
  - intros st e l v _ [n1 H1] [lit Hlit] _ (n2&l'&H2). exists (max n1 n2), (lit :: l').
    intros n Hn w b. simpl. unfold rbind. rewrite (proj1 (H1 n ltac:(lia) _ _)).
    unfold fl_expr. simpl. rewrite Hlit. simpl. rewrite H2 by lia. simpl. by rewrite andb_true_r.
Qed.

(** C13: Flattening evaluates the constants that [folds] allows: literals; names without a
    scope expression that are found, within the recursion budget, and stand for such
    expressions (not for nested ClassAds); parentheses, the unary operators and the binary
    ones other than subscripts; conditionals with three operands whose selector has a truth
    value (the branch that is not taken does not matter); and calls of functions that answer
    and leave the state as it was, on arguments that fold to values with a literal. Such an
    expression flattens to a value, without a tree, and to the one that evaluation gives it,
    in the same state, which both leave as it was; both return with enough fuel. Left out,
    because it is false of them, are list literals, as operands and as arguments
    ([flatten_lists_stay]), [e1 ?: e2] ([flatten_default_operator]) and a second operand of
    [&&] or [||] that is not a truth value ([flatten_logical_corners]); scoped references
    are left out too. *)
Theorem flattening_evaluates_constants st e v :
  folds st e v -> flattens_to st e v /\ evaluates st e v.
Proof.
  intros [n0 H]%folds_agree.
  split; exists n0; intros n Hn; [intros split val|intros val]; by apply H; try exact true.
Qed.
End laws.

(** In [[x = 3; y = x * 2 - 1]], [y > 4 && true ? -y : z] is -5, wherever [z] is. *)
Definition constant_store : heap :=
  <[1%positive := set_attrList
     [("x", IntegerLiteral 3);
      ("y", Operation2 None SUBTRACTION_OP
              (Operation2 None MULTIPLICATION_OP (ref "x") (IntegerLiteral 2)) (IntegerLiteral 1))]
     new_ClassAd]> ∅.
Definition constant_expression : ExprTree :=
  Operation3 None
    (Operation2 None LOGICAL_AND_OP
      (Operation2 None GREATER_THAN_OP (ref "y") (IntegerLiteral 4)) (BooleanLiteral true))
    (Some (Operation1 None UNARY_MINUS_OP (ref "y"))) (ref "z").

Lemma flattening_evaluates_constants_witness :
  flattens_to false no_functions (eval_state constant_store 1%positive) constant_expression (INTEGER_VALUE (-5)) /\
  evaluates false no_functions (eval_state constant_store 1%positive) constant_expression (INTEGER_VALUE (-5)).
Proof.
  apply flattening_evaluates_constants. set (st := eval_state constant_store 1%positive).
  assert (Hy : folds false no_functions st (ref "y") (INTEGER_VALUE 5)).
  { eapply folds_ref; [vm_compute; reflexivity|reflexivity|reflexivity|].
    eapply (folds_binary _ _ _ _ _ _ _ (INTEGER_VALUE 6) (INTEGER_VALUE 1) SIG_BOTH);
      [reflexivity|discriminate| |by apply folds_literal|reflexivity|discriminate|discriminate].
    eapply (folds_binary _ _ _ _ _ _ _ (INTEGER_VALUE 3) (INTEGER_VALUE 2) SIG_BOTH);
      [reflexivity|discriminate| |by apply folds_literal|reflexivity|discriminate|discriminate].
    eapply folds_ref; [vm_compute; reflexivity|reflexivity|reflexivity|]. by apply folds_literal. }
  eapply (folds_then _ _ _ _ _ _ _ (BOOLEAN_VALUE true)); [|reflexivity|].
  - eapply (folds_binary _ _ _ _ _ _ _ (BOOLEAN_VALUE true) (BOOLEAN_VALUE true) SIG_BOTH);
      [reflexivity|discriminate| |by apply folds_literal|reflexivity|discriminate|reflexivity].
    eapply (folds_binary _ _ _ _ _ _ _ (INTEGER_VALUE 5) (INTEGER_VALUE 4) SIG_BOTH);
      [reflexivity|discriminate|exact Hy|by apply folds_literal|reflexivity|discriminate|discriminate].
  - eapply (folds_unary _ _ _ _ _ _ (INTEGER_VALUE 5) SIG_CHLD1);
      [set_solver|exact Hy|reflexivity|discriminate].
Defined.

(** ** The ClassAds are left alone *)

(** Flattening leaves the ClassAds alone: whatever the expression and whether or not names are
    inlined, every ClassAd of the store is unchanged (new ones may appear: flattened copies
    of nested ClassAds, copies of references), and so are the recursion budget and the root
    scope; the entry points give back the evaluation state. Functions are assumed to do so
    when the evaluator they call does. *)
Theorem flattening_leaves_ads_alone oldSemantics functionTable n split e val st r st' :
  (forall f fn, functionTable f = Some fn ->
     forall ev, frames ev -> forall args v st, post (fn ev args v) st (fun _ st' => frame st st')) ->
  Flatten oldSemantics functionTable n split e val st = Ret r st' ->
  st.1 ⊆ st'.1 /\ depth_remaining st'.2 = depth_remaining st.2 /\ rootAd st'.2 = rootAd st.2 /\
  flattenAndInline st'.2 = flattenAndInline st.2.
Proof. intros Hf E. exact (Flatten_keeps oldSemantics functionTable Hf n split e val st r st' E). Qed.

Lemma flattening_leaves_ads_alone_witness :
  exists r st', Flatten false no_functions 10 false (ClassAdNode 1%positive) UNDEFINED_VALUE
    (eval_state eval_example 1%positive) = Ret r st' /\ eval_example ⊆ st'.1.
Proof.
  eexists _, _. split; [vm_compute; reflexivity|].
  eapply (flattening_leaves_ads_alone false no_functions 10 false (ClassAdNode 1%positive)
    UNDEFINED_VALUE (eval_state eval_example 1%positive)); [exact no_functions_frame|].
  vm_compute. reflexivity.
Defined.
