(* ===== verification/FlattenResidual.v ===== *)
(** * Flattening: the residual tree has the value of the expression

    For the expressions that [simple] allows: they are given a reference semantics without
    results by reference, [value_of], which evaluation implements and flattening preserves.
    Other expressions can change their value: the corners of [FlattenMerge] have them. *)
From Stdlib Require Import ZArith Lia Ascii String.
From stdpp Require Import base list gmap strings fin_maps.
From S2P Require Import Prelude Double Tree Values Operators OperatorFacts FlatMap AdStore AdStoreFacts.
From S2P Require Import AdStoreLaws Eval EvalFacts EvalLaws MatchClassAd Flatten FlattenFacts FlattenLaws.

Open Scope res_scope.

(** ** Values without times

    They survive being written as literals; a relative time does not. *)
Definition timeless (v : Value) : bool :=
  match v with
  | ERROR_VALUE | UNDEFINED_VALUE | BOOLEAN_VALUE _ | INTEGER_VALUE _ | REAL_VALUE _
  | STRING_VALUE _ => true
  | _ => false
  end.

Lemma timeless_literal v : timeless v = true ->
  exists l, MakeLiteral v = Some l /\ literal_Evaluate l = Some v.
Proof. destruct v; try done; intros _; by eexists. Qed.

Lemma compareCoerced_timeless op ct v1 v2 v : compareCoerced op ct v1 v2 = Some v -> timeless v = true.
Proof.
  unfold compareCoerced, compareStrings, compareIntegers, compareReals, compareBools,
    compareAbsoluteTimes, compareRelativeTimes, compare_doubles.
  intros H. repeat case_match; by simplify_eq.
Qed.

Lemma doComparison_timeless op v1 v2 sig v :
  op_result (doComparison op v1 v2) = OpDone sig v -> timeless v = true.
Proof.
  unfold doComparison. destruct (if is_meta op then _ else _) as [[ct w1] w2].
  destruct (is_meta op && _); [by intros [= _ <-]|]. destruct (is_meta op && _); [by intros [= _ <-]|].
  destruct (compareCoerced op ct w1 w2) as [v'|] eqn:E; simpl; [|done]. intros [= _ <-].
  by eapply compareCoerced_timeless.
Qed.

Lemma doArithmetic_timeless op v1 v2 sig v : timeless v1 = true -> timeless v2 = true ->
  op_result (doArithmetic op v1 v2) = OpDone sig v -> timeless v = true.
Proof.
  intros H1 H2. destruct v1; try done; destruct v2; try done;
    unfold doArithmetic, doRealArithmetic, int_divide, int_modulus, doUnaryMinus; cbn;
    intros Hr; repeat case_match; simplify_eq/=; done.
Qed.

Lemma doLogical_timeless op v1 v2 sig v :
  op_result (doLogical op v1 v2) = OpDone sig v -> timeless v = true.
Proof.
  unfold doLogical. destruct (coerce_bool v1); cbn [negb logical_operand]; try (by intros [= _ <-]);
    destruct (coerce_bool v2); cbn [negb logical_operand]; try (by intros [= _ <-]);
    destruct op; simpl; try done; repeat case_match; by intros [= _ <-].
Qed.

Lemma doBitwise_timeless op v1 v2 sig v :
  op_result (doBitwise op v1 v2) = OpDone sig v -> timeless v = true.
Proof. unfold doBitwise. intros Hr. repeat case_match; by simplify_eq/=. Qed.

Lemma doOperation_timeless op v1 v2 v3 b1 b2 b3 sig v :
  timeless v1 = true -> timeless v2 = true -> timeless v3 = true ->
  _doOperation op v1 v2 v3 b1 b2 b3 = OpDone sig v -> timeless v = true.
Proof.
  intros H1 H2 H3. unfold _doOperation. destruct op; try (intros [= _ <-]; done).
  all: try (destruct (if IsStrictOperator _ then _ else _) as [[sg w]|] eqn:Es; simpl;
    [intros [= _ <-]; simpl in Es; unfold strict_exception in Es;
     repeat case_match; simplify_eq; done|]).
  all: try (by apply doComparison_timeless || by apply doArithmetic_timeless
    || by apply doLogical_timeless || by apply doBitwise_timeless).
  all: try (by destruct v1; try (by intros [= _ <-]); destruct v2; intros [= _ <-]).
  all: try (intros [= _ <-]; by destruct v1).
  all: unfold doSubscript, doTernary; simpl; intros H; repeat case_match; by simplify_eq/=.
Qed.

(** ** Simple expressions and their reference semantics *)
Definition is_unary (op : OpKind) : bool :=
  match op with UNARY_PLUS_OP | UNARY_MINUS_OP | LOGICAL_NOT_OP | BITWISE_NOT_OP => true | _ => false end.

Section residual.
Variable oldSemantics : bool.
Variable functionTable : string -> option ClassAdFunc.
Abbreviation Evaluate := (Evaluate oldSemantics functionTable).
Abbreviation Flatten := (Flatten oldSemantics functionTable).
Abbreviation find_name := (find_name oldSemantics).

(** Names without a scope expression that are not special ([specialAttrNames]), the unary
    operators, the binary operators whose operands are not split (comparisons, subtraction,
    division, remainder, shifts), parentheses, and the conditional with its three operands,
    on literals other than absolute times. *)
Fixpoint simple (e : ExprTree) : bool :=
  match e with
  | AttributeReference _ None name _ => negb (is_special oldSemantics name)
  | Operation1 _ op c => is_unary op && simple c
  | OperationParens _ c => simple c
  | Operation2 _ op c1 c2 => is_unsplittable op && simple c1 && simple c2
  | Operation3 _ c1 (Some c2) c3 => simple c1 && simple c2 && simple c3
  | ErrorLiteral | UndefinedLiteral | BooleanLiteral _ | IntegerLiteral _ | RealLiteral _
  | ReltimeLiteral _ | StringLiteral _ => true
  | _ => false
  end.

(** The store, which neither evaluation nor flattening of these expressions changes. *)
Variable h : heap.
Definition simple_store : Prop :=
  forall a ad kv, h !! a = Some ad -> kv ∈ attrList ad -> simple kv.2 = true.

(** A value, a failure, or no outcome. *)
Inductive outcome := Value_is (v : Value) | Fails | No_outcome.
Definition then_ (o : outcome) (k : Value -> outcome) : outcome :=
  match o with Value_is v => k v | o => o end.
Definition operate (r : OpResult) : outcome :=
  match r with
  | OpDone sig v => if (sig =? SIG_NONE)%Z then Fails else Value_is v
  | _ => No_outcome
  end.

(** A conditional whose chosen branch fails goes on to the other operands. *)
Definition ternary_outcome (o1 o2 o3 : outcome) : outcome :=
  then_ o1 (fun v1 =>
    match IsBooleanValueEquiv v1 with
    | Some true => o2
    | Some false => match o3 with Fails => then_ o2 (fun _ => Fails) | _ => o3 end
    | None => then_ o2 (fun v2 => then_ o3 (fun v3 =>
        operate (_doOperation TERNARY_OP v1 v2 v3 true true true)))
    end).

Fixpoint value_of (n : nat) (s : EvalState) (e : ExprTree) : outcome :=
  match n with
  | O => No_outcome
  | S n' =>
      match e with
      | AttributeReference _ _ name absolute =>
          match find_name name absolute (h, s) with
          | Ret (EVAL_OK t) st1 =>
              if (depth_remaining s <=? 0)%Z then Fails
              else value_of n' (below st1).2 t
          | Ret EVAL_UNDEF _ => Value_is UNDEFINED_VALUE
          | Ret EVAL_ERROR _ => Value_is ERROR_VALUE
          | Ret EVAL_FAIL _ => Fails
          | _ => No_outcome
          end
      | Operation1 _ op c =>
          then_ (value_of n' s c) (fun v =>
            operate (_doOperation op v UNDEFINED_VALUE UNDEFINED_VALUE true false false))
      | OperationParens _ c => value_of n' s c
      | Operation2 _ op c1 c2 =>
          then_ (value_of n' s c1) (fun v1 => then_ (value_of n' s c2) (fun v2 =>
            operate (_doOperation op v1 v2 UNDEFINED_VALUE true true false)))
      | Operation3 _ c1 (Some c2) c3 =>
          ternary_outcome (value_of n' s c1) (value_of n' s c2) (value_of n' s c3)
      | _ => match literal_Evaluate e with Some v => Value_is v | None => No_outcome end
      end
  end.

Hypothesis Hstore : simple_store.

(** *** What names stand for *)
Lemma Lookup_simple n a name t : Lookup_chain n h a name = Some (Some t) -> simple t = true.
Proof.
  revert a. induction n as [|n IH]; intros a; simpl; [done|].
  destruct (h !! a) as [ad|] eqn:E; simpl; [|done].
  destruct (fm_lookup (attrList ad) name) as [t'|] eqn:El.
  - intros [= <-]. apply fm_lookup_entry in El as (k&Hin&_). by apply (Hstore a ad (k, t')).
  - destruct (chained_parent_ad ad); [apply IH|done].
Qed.

Lemma LookupInScope_simple n this name current s :
  is_special oldSemantics name = false ->
  post (LookupInScope_n oldSemantics n this name current) (h, s) (fun r _ =>
    r <> EVAL_FAIL /\ forall t, r = EVAL_OK t -> simple t = true).
Proof.
  intros Hn. revert current s. induction n as [|n IH]; intros current s; simpl;
    (destruct current as [c|]; [|by apply post_ret]); [apply post_no_fuel|].
  do 3 post_step. apply post_read. simpl. intros [t|] E.
  { apply post_ret. split; [done|]. intros ? [= <-]. by eapply Lookup_simple. }
  do 4 post_step. rewrite Hn. case_match; [by apply post_ret|]. apply IH.
Qed.

Lemma found_simple name absolute s :
  is_special oldSemantics name = false ->
  post (find_name name absolute) (h, s) (fun r st1 =>
    (r = EVAL_FAIL -> st1 = (h, s)) /\ forall t, r = EVAL_OK t -> simple t = true).
Proof.
  intros Hn. unfold FlattenLaws.find_name, FindExpr. cbv zeta. apply post_bind, post_get.
  assert (Hsearch : forall current, post (search_scopes oldSemantics None name absolute current) (h, s)
    (fun r st1 => (r = EVAL_FAIL -> st1 = (h, s)) /\ forall t, r = EVAL_OK t -> simple t = true)).
  { intros [c|]; [|by apply post_ret]. apply post_bind.
    intros r st2 E2. pose proof (LookupInScope_state _ _ _ _ _ _ E2) as Est.
    destruct (LookupInScope_simple _ _ _ _ _ Hn _ _ E2) as [Hf Hr].
    apply post_bind, post_read. intros alt _. repeat post_step; try done.
    rewrite Est. eapply post_mono; [by apply LookupInScope_simple|]. by intros r2 st3 [H1 H2]. }
  repeat post_step; try done; apply Hsearch.
Qed.

(** *** Evaluation implements the reference semantics *)
Definition sim (s : EvalState) (r : Res state (bool * Value)) (o : outcome) : Prop :=
  match o with
  | Value_is v => r = Ret (true, v) (h, s)
  | Fails => exists w, r = Ret (false, w) (h, s)
  | No_outcome => forall a st', r <> Ret a st'
  end.

Lemma sim_operate s r val ev :
  (forall l i, r <> OpSubscriptList l i) -> (forall a i, r <> OpSubscriptAd a i) ->
  sim s (finish_operation oldSemantics ev r val (h, s)) (operate r).
Proof.
  intros H1 H2. destruct r; simpl; [|by destruct (H2 ad index)|by destruct (H1 l index)|done].
  destruct (_ =? _)%Z; simpl; [by exists result|done].
Qed.

Lemma no_subscript op v1 v2 v3 b1 b2 b3 : op <> SUBSCRIPT_OP ->
  (forall l i, _doOperation op v1 v2 v3 b1 b2 b3 <> OpSubscriptList l i) /\
  (forall a i, _doOperation op v1 v2 v3 b1 b2 b3 <> OpSubscriptAd a i).
Proof. intros H. destruct (subscript_only op v1 v2 v3 b1 b2 b3 H) as [(?&?&->)| ->]; done. Qed.

(** The operands of an operation, one after the other. *)
Lemma sim_bind s r o (k : bool * Value -> M (bool * Value)) (ko : Value -> outcome) :
  sim s r o ->
  (forall v, o = Value_is v -> sim s (k (true, v) (h, s)) (ko v)) ->
  (forall w, exists w', k (false, w) (h, s) = Ret (false, w') (h, s)) ->
  sim s (match r with Ret a st' => k a st' | NoFuel => NoFuel | Except => Except end) (then_ o ko).
Proof.
  intros Hr Hk Hf. destruct o as [v| |]; simpl in *.
  - rewrite Hr. by apply Hk.
  - destruct Hr as [w ->]. apply Hf.
  - destruct r as [a st'| |]; [by destruct (Hr a st')|done..].
Qed.

Lemma simple_fails (w : Value) s : exists w', rret (false, w) (h, s) = @Ret state _ (false, w') (h, s).
Proof. by exists w. Qed.

(** No short cut before the second operand. *)
Lemma no_shortCircuit ev op c1 c2 v r s :
  is_unary op || is_unsplittable op = true ->
  shortCircuit ev op c1 c2 None v r (h, s) = Ret (false, r) (h, s).
Proof. by destruct op. Qed.

Lemma operation_sim ev op c1 c2 s val o1 o2 :
  is_unary op || is_unsplittable op = true ->
  sim s (ev c1 UNDEFINED_VALUE (h, s)) o1 ->
  (forall v1, o1 = Value_is v1 -> sim s (eval_child ev c2 (h, s)) o2) ->
  sim s (operation_Evaluate oldSemantics ev op c1 c2 None val (h, s))
    (then_ o1 (fun v1 => then_ o2 (fun v2 =>
       operate (_doOperation op v1 v2 UNDEFINED_VALUE true (present c2) false)))).
Proof.
  intros Hop H1 H2. unfold operation_Evaluate, rbind at 1.
  apply (sim_bind _ _ _ (fun '(ok1, val1) => _)); [exact H1| |intros w; apply simple_fails].
  intros v1 E1. simpl. unfold rbind at 1. rewrite no_shortCircuit by done. simpl. unfold rbind at 1.
  apply (sim_bind _ _ _ (fun '(ok2, val2) => _)); [by eapply H2| |intros w; apply simple_fails].
  intros v2 E2. simpl. unfold rbind. simpl.
  apply sim_operate; apply no_subscript; by intros ->.
Qed.

Lemma ternary_sim ev c1 c2 c3 s val o1 o2 o3 :
  sim s (ev c1 UNDEFINED_VALUE (h, s)) o1 ->
  (forall w, sim s (ev c2 w (h, s)) o2) -> (forall w, sim s (ev c3 w (h, s)) o3) ->
  sim s (operation_Evaluate oldSemantics ev TERNARY_OP c1 (Some c2) (Some c3) val (h, s))
    (ternary_outcome o1 o2 o3).
Proof.
  intros H1 H2 H3. unfold operation_Evaluate, rbind at 1, ternary_outcome.
  apply (sim_bind _ _ _ (fun '(ok1, val1) => _)); [exact H1| |intros w; apply simple_fails].
  intros v1 _. simpl. unfold rbind at 1, shortCircuit.
  assert (Hrest : forall r, sim s (rbind (eval_child ev (Some c2)) (fun '(ok2, val2) =>
    if negb ok2 then rret (false, ERROR_VALUE)
    else let! (ok3, val3) := eval_child ev (Some c3) in
      if negb ok3 then rret (false, ERROR_VALUE)
      else finish_operation oldSemantics ev
        (_doOperation TERNARY_OP v1 val2 val3 true true true) r) (h, s))
    (then_ o2 (fun v2 => then_ o3 (fun v3 =>
       operate (_doOperation TERNARY_OP v1 v2 v3 true true true))))).
  { intros r. unfold rbind at 1.
    apply (sim_bind _ _ _ (fun '(ok2, val2) => _)); [apply H2| |intros w; apply simple_fails].
    intros v2 _. simpl. unfold rbind.
    apply (sim_bind _ _ _ (fun '(ok3, val3) => _)); [apply H3| |intros w; apply simple_fails].
    intros v3 _. simpl.
    destruct (no_subscript TERNARY_OP v1 v2 v3 true true true) as [A B]; [done|]. by apply sim_operate. }
  destruct (IsBooleanValueEquiv v1) as [[]|].
  - specialize (H2 val) as H2'. destruct o2 as [v2| |]; simpl in H2'.
    + by rewrite H2'.
    + destruct H2' as [w ->]. simpl. exact (Hrest w).
    + destruct (ev c2 val (h, s)) as [a st'| |]; [by destruct (H2' a st')|done..].
  - specialize (H3 val) as H3'. destruct o3 as [v3| |]; simpl in H3'.
    + by rewrite H3'.
    + destruct H3' as [w ->]. simpl. exact (Hrest w).
    + destruct (ev c3 val (h, s)) as [a st'| |]; [by destruct (H3' a st')|done..].
  - exact (Hrest val).
Qed.

Lemma attrref_sim ev sc name absolute s val n :
  is_special oldSemantics name = false ->
  (forall t s', simple t = true -> sim s' (ev t val (h, s')) (value_of n s' t)) ->
  sim s (attrref_Evaluate oldSemantics ev None name absolute val (h, s))
    (value_of (S n) s (AttributeReference sc None name absolute)).
Proof.
  intros Hn IH. unfold attrref_Evaluate, rbind, get_state, modify_state. cbv zeta. simpl value_of.
  rewrite !FindExpr_name. destruct (find_name name absolute (h, s)) as [r st1| |] eqn:E; [|done..].
  pose proof (found_state _ _ _ _ _ _ E) as Est. simpl fst in Est. simpl snd in Est.
  destruct (found_simple _ _ _ Hn _ _ E) as [Hf Ht].
  revert E Hf. rewrite Est. generalize (curAd st1.2). clear Est. intros c E Hf.
  assert (Hback : forall A (a : A), @Ret state A a (h, set_curAd (curAd s) (set_curAd c s)) = Ret a (h, s)).
  { intros A a. by destruct s. }
  destruct r as [| | |t]; [|apply Hback..|].
  - rewrite (Hf eq_refl). by eexists.
  - cbn [snd depth_remaining set_curAd]. destruct (_ <=? 0)%Z; [eexists; apply Hback|].
    specialize (IH t (below (h, set_curAd c s)).2 (Ht t eq_refl)). unfold below in *.
    cbn [fst snd depth_remaining set_curAd] in *.
    pose proof (fun A (a : A) => f_equal (@Ret state A a) (eq_sym (back_up (h, s) c))) as Hup.
    destruct (value_of _ _ _) as [v| |].
    + rewrite IH. apply Hup.
    + destruct IH as [w ->]. eexists. apply Hup.
    + destruct (ev t val _) as [a st'| |]; [by destruct (IH a st')|done..].
Qed.

(** Evaluation of a simple expression computes its value, whatever the result reference
    holds, and leaves the state as it was. *)
Lemma Evaluate_sim n e s val : simple e = true -> sim s (Evaluate n e val (h, s)) (value_of n s e).
Proof.
  revert e s val. induction n as [|n IH]; intros e s val He; [by intros ? ?|].
  destruct e as [| | | | | | | |sc [x|] name absolute|sc op c|sc c|sc op c1 c2|sc c1 [c2|] c3| | |];
    try discriminate He; try done; simpl in He.
  - apply attrref_sim; [by destruct (is_special _ _)|auto].
  - apply andb_true_iff in He as [Hop Hc].
    assert (H := operation_sim (Evaluate n) op c None s val _ (Value_is UNDEFINED_VALUE)
      ltac:(by rewrite Hop) (IH c s UNDEFINED_VALUE Hc) ltac:(done)). exact H.
  - simpl. unfold parens_Evaluate, rbind. specialize (IH c s val He).
    destruct (value_of n s c) as [v| |]; simpl in *.
    + by rewrite IH.
    + destruct IH as [w ->]. by eexists.
    + destruct (Evaluate n c val (h, s)) as [a st'| |]; [by destruct (IH a st')|done..].
  - rewrite !andb_true_iff in He. destruct He as [[Hop H1] H2].
    assert (H := operation_sim (Evaluate n) op c1 (Some c2) s val _ (value_of n s c2)
      ltac:(by rewrite Hop, orb_true_r) (IH c1 s UNDEFINED_VALUE H1) ltac:(intros; by apply IH)). exact H.
  - rewrite !andb_true_iff in He. destruct He as [[H1 H2] H3].
    assert (H := ternary_sim (Evaluate n) c1 c2 c3 s val (value_of n s c1) (value_of n s c2)
      (value_of n s c3) (IH c1 s _ H1) (fun w => IH c2 s w H2) (fun w => IH c3 s w H3)). exact H.
Qed.

(** *** Fuel of the reference semantics *)
Lemma then_value o k v : then_ o k = Value_is v -> exists w, o = Value_is w /\ k w = Value_is v.
Proof. destruct o; [by eexists|done..]. Qed.

Lemma value_of_le n m s e v : (n <= m)%nat -> value_of n s e = Value_is v -> value_of m s e = Value_is v.
Proof.
  revert m s e v. induction n as [|n IH]; intros [|m] s e v Hm; try done; try lia.
  apply le_S_n in Hm. specialize (fun s e v => IH m s e v Hm).
  destruct e as [| | | | | | | |sc x name absolute|sc op c|sc c|sc op c1 c2|sc c1 [c2|] c3| | |]; try done; simpl.
  - destruct (find_name _ _ _) as [[| | |t] st1| |]; try done. destruct (_ <=? _)%Z; [done|apply IH].
  - intros (w&->%IH&E)%then_value. exact E.
  - apply IH.
  - intros (w1&->%IH&E)%then_value. apply then_value in E as (w2&->%IH&E). exact E.
  - intros (w1&->%IH&E)%then_value. simpl. unfold ternary_outcome. simpl in *.
    destruct (IsBooleanValueEquiv w1) as [[]|]; [by apply IH| |].
    + destruct (value_of n s c3) as [w| |] eqn:E3; [by rewrite (IH _ _ _ E3)| |done].
      by destruct (value_of n s c2).
    + apply then_value in E as (w2&->%IH&E). apply then_value in E as (w3&->%IH&E). exact E.
Qed.

Lemma value_of_positive n s e v : value_of n s e = Value_is v -> exists n', n = S n'.
Proof. destruct n; [done|by eexists]. Qed.

(** *** What flattening a simple expression gives *)
Lemma copy_simple copy_ad h0 e : simple e = true -> copy_tree copy_ad h0 e = Some (h0, e).
Proof.
  induction e using ExprTree_induct; simpl; try done.
  - intros (?&Hc)%andb_true_iff. by rewrite IHe.
  - intros Hc. by rewrite IHe.
  - rewrite !andb_true_iff. intros [[? H1] H2]. rewrite IHe1 by done. simpl. by rewrite IHe2.
  - rewrite !andb_true_iff. intros [[H1 H2] H3]. rewrite IHe1 by done. simpl.
    rewrite IHe2 by done. simpl. by rewrite IHe3.
Qed.

(** A value without times, or a simple tree; the value of the expression. *)
Record residue (s : EvalState) (e : ExprTree) (r : Flattened) : Prop := mk_residue {
  res_op : fl_op r = __NO_OP__;
  res_shape : match fl_tree r with Some t => simple t = true | None => timeless (fl_val r) = true end;
  res_value : forall m w, value_of m s e = Value_is w ->
    match fl_tree r with Some t => value_of m s t = Value_is w | None => fl_val r = w end
}.

(** The residue as an expression. *)
Lemma residue_expr s e r : residue s e r ->
  exists t, fl_expr r = Some t /\ simple t = true /\
    forall m w, value_of m s e = Value_is w -> value_of m s t = Value_is w.
Proof.
  intros [_ Hs Hv]. unfold fl_expr. destruct (fl_tree r) as [t|]; [by exists t|].
  destruct (timeless_literal _ Hs) as (l&El&Hl). exists l. split; [done|].
  split; [by destruct (fl_val r); simplify_eq/=|].
  intros m w Hw. rewrite <- (Hv m w Hw). apply value_of_positive in Hw as [m' ->].
  by destruct (fl_val r); try discriminate Hs; injection El as <-.
Qed.

Definition sound (fl : bool -> ExprTree -> Value -> M Flattened) : Prop :=
  forall split e val s r st', simple e = true -> flattenAndInline s = false ->
    fl split e val (h, s) = Ret r st' -> fl_ok r = true -> st' = (h, s) /\ residue s e r.

(** The result of an operation on values. *)
Lemma operate_value r w : operate r = Value_is w -> exists sig, r = OpDone sig w.
Proof. destruct r; simpl; try done. destruct (_ =? _)%Z; [done|]. intros [= ->]. by eexists. Qed.

Lemma fold_timeless ev op v1 v2 v3 b1 b2 b3 val s v st' :
  op <> SUBSCRIPT_OP -> timeless v1 = true -> timeless v2 = true -> timeless v3 = true ->
  fold_operation oldSemantics ev (_doOperation op v1 v2 v3 b1 b2 b3) val (h, s) = Ret v st' ->
  exists sig, _doOperation op v1 v2 v3 b1 b2 b3 = OpDone sig v /\ st' = (h, s) /\ timeless v = true.
Proof.
  intros Hop H1 H2 H3 E.
  destruct (subscript_only op v1 v2 v3 b1 b2 b3 Hop) as [(sig&w&Edo)|Edo]; rewrite Edo in E; [|done].
  injection E as <- <-. exists sig. split_and!; [done..|].
  exact (doOperation_timeless _ _ _ _ _ _ _ _ _ H1 H2 H3 Edo).
Qed.

Section fl.
Variable ev : evaluator.
Variable fl : bool -> ExprTree -> Value -> M Flattened.
Hypothesis IH : sound fl.

(** Flatten a child: the state is the same, and there is a residue. *)
Ltac flat c s r R :=
  let E := fresh "E" in let O := fresh "O" in let st1 := fresh "st" in
  destruct (fl false c UNDEFINED_VALUE (h, s)) as [r st1| |] eqn:E; [|done..];
  destruct (fl_ok r) eqn:O; simpl; rewrite ?O; simpl; [|by intros [= <- <-]];
  destruct (IH false c UNDEFINED_VALUE s r st1 ltac:(assumption) ltac:(assumption) E O) as [-> R];
  clear E O.

Lemma unsplittable_sound op sc c1 c2 val s r st' :
  is_unsplittable op = true -> simple c1 = true -> simple c2 = true -> flattenAndInline s = false ->
  flatten_unsplittable oldSemantics ev fl op c1 c2 val (h, s) = Ret r st' -> fl_ok r = true ->
  st' = (h, s) /\ residue s (Operation2 sc op c1 c2) r.
Proof.
  intros Hop H1 H2 Hi. unfold flatten_unsplittable, flat_child, rbind.
  flat c1 s r1 R1. flat c2 s r2 R2.
  destruct (residue_expr _ _ _ R1) as (t1&F1&S1&V1), (residue_expr _ _ _ R2) as (t2&F2&S2&V2).
  assert (Hno : op <> SUBSCRIPT_OP) by by intros ->.
  assert (Htree : forall e1 e2, e1 = t1 -> e2 = t2 ->
    Ret (flat_tree val (MakeOperation op (Some e1) (Some e2) None)) (h, s) = Ret r st' ->
    st' = (h, s) /\ residue s (Operation2 sc op c1 c2) r).
  { intros ? ? -> -> [= <- <-]. split; [done|].
    assert (EM : MakeOperation op (Some t1) (Some t2) None = Some (Operation2 None op t1 t2)) by by destruct op.
    split; simpl; rewrite ?EM; [done|simpl; by rewrite Hop, S1, S2|].
    intros [|m] w; [done|]. simpl. intros (w1&->%V1&E)%then_value.
    apply then_value in E as (w2&->%V2&E). exact E. }
  destruct R1 as [_ T1 W1], R2 as [_ T2 W2]. unfold fl_expr in F1, F2.
  destruct (fl_tree r1) as [t1'|], (fl_tree r2) as [t2'|]; intros Hret _.
  - by apply (Htree t1' t2'); [congruence..|].
  - apply (Htree t1' t2); [congruence..|]. unfold MakeOperation_tv in Hret. by rewrite F2 in Hret.
  - apply (Htree t1 t2'); [congruence..|]. unfold MakeOperation_vt in Hret. by rewrite F1 in Hret.
  - unfold fold2 in Hret.
    destruct (fold_operation _ _ _ _ _) as [v st1| |] eqn:Ef; [|done..].
    apply fold_timeless in Ef as (sig&Edo&->&Hv); [|done..]. injection Hret as <- <-.
    split; [done|]. split; simpl; [done..|]. intros [|m] w; [done|]. simpl.
    intros (w1&Ew1&E)%then_value. apply then_value in E as (w2&Ew2&E).
    rewrite <- (W1 _ _ Ew1), <- (W2 _ _ Ew2), Edo in E.
    by apply operate_value in E as [? [= _ ->]].
Qed.

Lemma unary_sound op sc c val s r st' :
  is_unary op = true -> simple c = true -> flattenAndInline s = false ->
  operation1_flatten oldSemantics ev fl op c val (h, s) = Ret r st' -> fl_ok r = true ->
  st' = (h, s) /\ residue s (Operation1 sc op c) r.
Proof.
  intros Hop Hc Hi. unfold operation1_flatten, flat_child, rbind. flat c s r1 R1.
  destruct R1 as [_ T1 W1]. destruct (fl_tree r1) as [t|]; intros Hret _.
  - injection Hret as <- <-. split; [done|].
    assert (EM : MakeOperation op (Some t) None None = Some (Operation1 None op t)) by by destruct op.
    split; simpl; rewrite ?EM; [done|simpl; by rewrite Hop, T1|].
    intros [|m] w; [done|]. simpl. intros (w1&->%W1&E)%then_value. exact E.
  - destruct (fold_operation _ _ _ _ _) as [v st1| |] eqn:Ef; [|done..].
    apply fold_timeless in Ef as (sig&Edo&->&Hv); [|by destruct op|done..]. injection Hret as <- <-.
    split; [done|]. split; simpl; [done..|]. intros [|m] w; [done|]. simpl.
    intros (w1&Ew1&E)%then_value. rewrite <- (W1 _ _ Ew1), Edo in E.
    by apply operate_value in E as [? [= _ ->]].
Qed.

Lemma parens_sound sc c val s r st' :
  simple c = true -> flattenAndInline s = false ->
  parens_flatten fl c val (h, s) = Ret r st' -> fl_ok r = true ->
  st' = (h, s) /\ residue s (OperationParens sc c) r.
Proof.
  intros Hc Hi. unfold parens_flatten, flat_child, rbind. flat c s r1 R1.
  destruct R1 as [_ T1 W1]. destruct (fl_tree r1) as [t|]; intros [= <- <-] _; (split; [done|]);
    split; simpl; try done; intros [|m] w; try done; simpl; apply W1.
Qed.

(** A selector without a value keeps the conditional, both of whose branches are
    flattened; the one that is not taken is not known to have a value. *)
Lemma conditional_residue sc s c1 c2 c3 t1 t2 t3 val :
  simple t1 = true -> simple t2 = true -> simple t3 = true ->
  (forall m w, value_of m s c1 = Value_is w -> value_of m s t1 = Value_is w) ->
  (forall m w, value_of m s c2 = Value_is w -> value_of m s t2 = Value_is w) ->
  (forall m w, value_of m s c3 = Value_is w -> value_of m s t3 = Value_is w) ->
  residue s (Operation3 sc c1 (Some c2) c3)
    (flat_tree val (MakeOperation TERNARY_OP (Some t1) (Some t2) (Some t3))).
Proof.
  intros S1 S2 S3 V1 V2 V3. split; simpl; [done|by rewrite S1, S2, S3|].
  intros [|m] w; [done|]. simpl. unfold ternary_outcome.
  intros (w1&->%V1&E)%then_value. simpl. destruct (IsBooleanValueEquiv w1) as [[]|]; [by apply V2| |].
  - destruct (value_of m s c3) as [w3| |] eqn:E3; [by rewrite (V3 _ _ E3)| |done].
    by destruct (value_of m s c2).
  - apply then_value in E as (w2&->%V2&E). apply then_value in E as (w3&->%V3&E). exact E.
Qed.

Lemma ternary_sound sc c1 c2 c3 val s r st' :
  simple c1 = true -> simple c2 = true -> simple c3 = true -> flattenAndInline s = false ->
  operation3_flatten fl c1 (Some c2) c3 val (h, s) = Ret r st' -> fl_ok r = true ->
  st' = (h, s) /\ residue s (Operation3 sc c1 (Some c2) c3) r.
Proof.
  intros H1 H2 H3 Hi. unfold operation3_flatten, flat_child, rbind. flat c1 s r1 R1.
  destruct (negb (present (fl_tree r1)) && negb (IsUndefinedValue (fl_val r1))) eqn:Hsel.
  - apply andb_true_iff in Hsel as [Ht Hu]. destruct R1 as [_ T1 W1].
    destruct (fl_tree r1); [done|]. destruct (IsBooleanValueEquiv (fl_val r1)) as [[]|] eqn:Hb.
    + intros E O. destruct (IH false c2 val s r st' H2 Hi E O) as [-> [R2 S2 V2]]. split; [done|].
      split; [done..|]. intros [|m] w; [done|]. simpl. intros (w1&<-%W1&E1)%then_value.
      rewrite Hb in E1. apply V2 in E1.
      destruct (fl_tree r); [exact (value_of_le m (S m) _ _ _ ltac:(lia) E1)|done].
    + intros E O. destruct (IH false c3 val s r st' H3 Hi E O) as [-> [R3 S3 V3]]. split; [done|].
      split; [done..|]. intros [|m] w; [done|]. simpl. intros (w1&<-%W1&E1)%then_value.
      rewrite Hb in E1. assert (E3 : value_of m s c3 = Value_is w).
      { destruct (value_of m s c3); [done| |done]. by destruct (value_of m s c2). }
      apply V3 in E3. destruct (fl_tree r); [exact (value_of_le m (S m) _ _ _ ltac:(lia) E3)|done].
    + intros [= <- <-] _. split; [done|]. split; simpl; [done..|]. intros [|m] w; [done|]. simpl.
      intros (w1&<-%W1&E1)%then_value. rewrite Hb in E1.
      apply then_value in E1 as (w2&_&E1). apply then_value in E1 as (w3&_&E1).
      apply operate_value in E1 as [sig E1]. unfold _doOperation in E1. simpl in E1.
      unfold doTernary in E1. rewrite andb_true_r in E1. apply negb_true_iff in Hu.
      rewrite Hu, Hb in E1. simpl in E1. congruence.
  - clear Hsel. flat c2 s r2 R2. flat c3 s r3 R3.
    destruct (residue_expr _ _ _ R1) as (t1&F1&S1&V1), (residue_expr _ _ _ R2) as (t2&F2&S2&V2),
      (residue_expr _ _ _ R3) as (t3&F3&S3&V3).
    rewrite F3, F2. destruct R1 as [_ T1 W1]. destruct (fl_tree r1) as [t|].
    + intros [= <- <-] _. split; [done|]. by apply conditional_residue.
    + unfold on_heap, CopyTree. simpl. rewrite copy_simple by done.
      intros [= <- <-] _. split; [done|]. by apply conditional_residue.
Qed.

Lemma attrref_sound sc name absolute val s r st' :
  is_special oldSemantics name = false -> flattenAndInline s = false ->
  attrref_Flatten oldSemantics ev fl sc None name absolute val (h, s) = Ret r st' -> fl_ok r = true ->
  st' = (h, s) /\ residue s (AttributeReference sc None name absolute) r.
Proof.
  intros Hn Hi. set (this := AttributeReference sc None name absolute).
  assert (Hthis : simple this = true) by (simpl; by rewrite Hn).
  assert (Hcopy : forall st, st.1 = h -> copy_ref this st = Ret this st).
  { intros [h' s'] Eh. simpl in Eh. subst h'. done. }
  unfold attrref_Flatten, rbind, get_state, modify_state. cbv zeta.
  rewrite FindExpr_name. destruct (find_name name absolute (h, s)) as [r0 st1| |] eqn:Ef; [|done..].
  pose proof (found_state _ _ _ _ _ _ Ef) as Est. simpl fst in Est. simpl snd in Est.
  destruct (found_simple _ _ _ Hn _ _ Ef) as [_ Ht].
  revert Ef. rewrite Est. generalize (curAd st1.2). clear Est. intros c Ef.
  assert (Hback : (h, set_curAd (curAd s) (set_curAd c s)) = (h, s)) by by destruct s.
  assert (Hkeep : forall v, residue s this (flat_tree v (Some this))) by by intros v; split.
  destruct r0 as [| | |t].
  - by intros [= <- <-].
  - intros [= <- <-] _. split; [exact Hback|]. split; simpl; [done..|]. intros [|m] w; [done|].
    simpl. rewrite Ef. by intros [= ->].
  - unfold inline_scope, rbind. simpl. intros [= <- <-] _. split; [exact Hback|apply Hkeep].
  - specialize (Ht t eq_refl).
    replace (is_classad_node t) with false by by destruct t.
    cbn [fst snd depth_remaining set_curAd].
    destruct (depth_remaining s <=? 0)%Z eqn:Hd; [by intros [= <- <-]|]. cbn [fst snd].
    pose proof (IH false t val (below (h, set_curAd c s)).2) as IHt. unfold below in IHt.
    cbn [fst snd depth_remaining set_curAd flattenAndInline] in IHt.
    destruct (fl false t val _) as [rv st2| |] eqn:Ev; [|done..]. cbn [fst snd].
    cbn [flattenAndInline set_curAd]. rewrite Hi. destruct (fl_ok rv) eqn:Orv.
    2:{ destruct (fl_tree rv); [destruct (copy_ref _ _); [|done..]|]; by intros [= <- <-]. }
    destruct (IHt rv st2 Ht Hi eq_refl Orv) as [-> [_ Sv Rv]]. clear IHt.
    destruct (fl_tree rv) as [t0|] eqn:Et.
    + rewrite Hcopy by done. intros [= <- <-] _.
      split; [exact (eq_sym (back_up (h, s) c))|apply Hkeep].
    + intros [= <- <-] _. split; [exact (eq_sym (back_up (h, s) c))|].
      rewrite ?Et in Sv, Rv. split; simpl; [done|exact Sv|]. intros [|m] w; [done|]. simpl.
      rewrite Ef, Hd. apply Rv.
Qed.
End fl.

(** Flattening a simple expression leaves the state as it was, and its result has the value
    of the expression. *)
Lemma Flatten_sound n : sound (Flatten n).
Proof.
  induction n as [|n IH]; intros split e val s r st' He Hi; [done|].
  destruct e as [| | | | | | | |sc [x|] name absolute|sc op c|sc c|sc op c1 c2|sc c1 [c2|] c3| | |];
    try discriminate He; simpl in He; simpl;
    try (intros [= <- <-] _; split; [done|]; split; simpl; try done; intros [|m] w; [done|by intros [= <-]]).
  - apply (attrref_sound (Evaluate n) _ IH); [by destruct (is_special _ _)|done].
  - apply andb_true_iff in He as [Hop Hc]. unfold operation_Flatten.
    pose proof (unary_sound (Evaluate n) _ IH op sc c val s r st' Hop Hc Hi). by destruct op.
  - by apply (parens_sound _ IH).
  - rewrite !andb_true_iff in He. destruct He as [[Hop H1] H2]. unfold operation_Flatten.
    rewrite Hop. by apply (unsplittable_sound (Evaluate n) _ IH).
  - rewrite !andb_true_iff in He. destruct He as [[H1 H2] H3]. by apply (ternary_sound _ IH).
Qed.

(** C4: Flattening preserves the values of [simple] expressions: literals other than absolute
    times; names that have no scope expression and are not [toplevel], [root], [self],
    [parent] (nor [my] and [currenttime] under the old semantics); the unary operators;
    comparisons, subtraction, division, remainder and shifts; parentheses; and conditionals
    with all three operands. If every attribute of every ClassAd of the store is such an
    expression, names are not inlined, and flattening succeeds, it leaves the state as it
    was, and what it answers has the value of the expression wherever that has one: the
    value itself, or a residual tree that evaluates to it with the same fuel. Left out are
    [e1 ?: e2], for which this is false ([flatten_default_operator]), the operators whose
    operands are split (false too: [flatten_drops_factor], [flatten_drops_term]), scoped
    references, lists, subscripts, calls, nested ClassAds and absolute times. *)
Theorem flattening_preserves_values n split e val s r st' m val' w st'' :
  simple e = true -> flattenAndInline s = false ->
  Flatten n split e val (h, s) = Ret r st' -> fl_ok r = true ->
  Evaluate m e val' (h, s) = Ret (true, w) st'' ->
  st' = (h, s) /\
  match fl_tree r with
  | None => fl_val r = w
  | Some t => forall val2, Evaluate m t val2 (h, s) = Ret (true, w) (h, s)
  end.
Proof.
  intros He Hi Hf Ho Hv. destruct (Flatten_sound n split e val s r st' He Hi Hf Ho) as [-> [_ Hs Hw]].
  split; [done|]. assert (Hm : value_of m s e = Value_is w).
  { pose proof (Evaluate_sim m e s val' He) as H. destruct (value_of m s e) as [v| |]; simpl in H.
    - rewrite H in Hv. by injection Hv as <- <-.
    - destruct H as [? H]. by rewrite H in Hv.
    - by destruct (H _ _ Hv). }
  specialize (Hw m w Hm). destruct (fl_tree r) as [t|]; [|done].
  intros val2. pose proof (Evaluate_sim m t s val2 Hs) as H. by rewrite Hw in H.
Qed.
End residual.

(** In [[B = C =?= undefined; D = 7 - 2]], [(B ? D : 1) - (D - 4)] flattens to
    [(B ? 5 : 1) - 1], and both are 4. *)
Definition residual_store : heap :=
  <[1%positive := set_attrList
     [("B", Operation2 None META_EQUAL_OP (ref "C") UndefinedLiteral);
      ("D", Operation2 None SUBTRACTION_OP (IntegerLiteral 7) (IntegerLiteral 2))] new_ClassAd]> ∅.
Definition residual_expression : ExprTree :=
  Operation2 None SUBTRACTION_OP
    (Operation3 None (ref "B") (Some (ref "D")) (IntegerLiteral 1))
    (Operation2 None SUBTRACTION_OP (ref "D") (IntegerLiteral 4)).
Definition residual_tree : ExprTree :=
  Operation2 None SUBTRACTION_OP
    (Operation3 None (ref "B") (Some (IntegerLiteral 5)) (IntegerLiteral 1)) (IntegerLiteral 1).

Lemma flattening_preserves_values_witness :
  Evaluate false no_functions 9 residual_tree UNDEFINED_VALUE (eval_state residual_store 1%positive) =
    Ret (true, INTEGER_VALUE 4) (eval_state residual_store 1%positive).
Proof.
  assert (Hs : simple_store false residual_store).
  { intros a ad kv. unfold residual_store. rewrite lookup_insert_Some, lookup_empty.
    intros [[<- <-]|[_ [=]]]. simpl. rewrite !elem_of_cons.
    intros [->|[->|[]%elem_of_nil]]; reflexivity. }
  refine (proj2 (flattening_preserves_values false no_functions residual_store Hs 9 false
    residual_expression UNDEFINED_VALUE (eval_state residual_store 1%positive).2
    (flat_tree UNDEFINED_VALUE (Some residual_tree)) (eval_state residual_store 1%positive)
    9 UNDEFINED_VALUE (INTEGER_VALUE 4) (eval_state residual_store 1%positive)
    _ _ _ _ _) UNDEFINED_VALUE); vm_compute; reflexivity.
Defined.
