(* ===== verification/FlattenMerge.v ===== *)
(** * Flattening: the integers of a sum are merged; corners

    Sums, products and bitwise combinations, and the places where flattening and evaluation
    differ. *)
From Stdlib Require Import ZArith Lia Ascii String.
From stdpp Require Import base list gmap strings fin_maps.
From S2P Require Import Prelude Double Tree Values Operators FlatMap AdStore AdStoreFacts.
From S2P Require Import AdStoreLaws Eval Functions EvalFacts EvalLaws MatchClassAd Flatten FlattenFacts FlattenLaws.

Open Scope res_scope.

(** ** Sums

    [sem op]: the operation on integers of one of the operators that are split, the logical
    ones left out. *)
Definition sem (op : OpKind) : option (Z -> Z -> Z) :=
  match op with
  | ADDITION_OP => Some (fun a b => wrap64 (a + b))
  | MULTIPLICATION_OP => Some (fun a b => wrap64 (a * b))
  | BITWISE_OR_OP => Some Z.lor
  | BITWISE_AND_OP => Some Z.land
  | BITWISE_XOR_OP => Some Z.lxor
  | _ => None
  end.

Lemma sem_comm op f a b : sem op = Some f -> f a b = f b a.
Proof.
  destruct op; try done; intros [= <-];
    [by rewrite Z.add_comm|by rewrite Z.mul_comm|apply Z.lor_comm|apply Z.lxor_comm|apply Z.land_comm].
Qed.
Lemma sem_assoc op f a b c : sem op = Some f -> f a (f b c) = f (f a b) c.
Proof.
  destruct op; try done; intros [= <-]; autorewrite with wrap;
    [by rewrite Z.add_assoc|by rewrite Z.mul_assoc|apply Z.lor_assoc|symmetry; apply Z.lxor_assoc|
     apply Z.land_assoc].
Qed.
Lemma sem_swap op f a b c : sem op = Some f -> f a (f b c) = f b (f a c).
Proof. intros H. by rewrite !(sem_assoc op f _ _ _ H), (sem_comm op f a b H). Qed.

Lemma sem_operation op f a b : sem op = Some f ->
  exists sig, _doOperation op (INTEGER_VALUE a) (INTEGER_VALUE b) UNDEFINED_VALUE true true false =
    OpDone sig (INTEGER_VALUE (f a b)) /\ sig <> SIG_NONE.
Proof. destruct op; try done; intros [= <-]; eexists; by split. Qed.

Lemma sem_op op f : sem op = Some f ->
  is_unsplittable op = false /\ is_special_op op = false /\ is_no_op op = false /\
  bool_decide (op = LOGICAL_OR_OP) || bool_decide (op = LOGICAL_AND_OP) = false /\
  is_logical op = false.
Proof. by destruct op. Qed.

Section merge.
Variable oldSemantics : bool.
Variable functionTable : string -> option ClassAdFunc.
Abbreviation Evaluate := (Evaluate oldSemantics functionTable).
Abbreviation Flatten := (Flatten oldSemantics functionTable).
Abbreviation evaluates := (evaluates oldSemantics functionTable).

(** [st]: the state of flattening, in which the names of the sum are not found; [st2]: the
    state of the evaluation, in which they are integers. *)
Variables (op : OpKind) (f : Z -> Z -> Z) (st st2 : state).
Hypothesis Hop : sem op = Some f.

(** [integer_sum e]: integer literals and such names under the operator, parentheses
    included. *)
Inductive integer_sum : ExprTree -> Prop :=
| sum_integer i : integer_sum (IntegerLiteral i)
| sum_name sc name absolute st1 i :
    find_name oldSemantics name absolute st = Ret EVAL_UNDEF st1 ->
    evaluates st2 (AttributeReference sc None name absolute) (INTEGER_VALUE i) ->
    integer_sum (AttributeReference sc None name absolute)
| sum_operation sc e1 e2 : integer_sum e1 -> integer_sum e2 -> integer_sum (Operation2 sc op e1 e2)
| sum_parens sc e : integer_sum e -> integer_sum (OperationParens sc e).

(** The number of integer literals, and that of pairs of parentheses. *)
Fixpoint integers_in (e : ExprTree) : nat :=
  match e with
  | IntegerLiteral _ => 1
  | OperationParens _ c => integers_in c
  | Operation2 _ _ e1 e2 => integers_in e1 + integers_in e2
  | _ => 0
  end.
Fixpoint parentheses_in (e : ExprTree) : nat :=
  match e with
  | OperationParens _ c => S (parentheses_in c)
  | Operation2 _ _ e1 e2 => parentheses_in e1 + parentheses_in e2
  | _ => 0
  end.

Lemma evaluates_literal i : evaluates st2 (IntegerLiteral i) (INTEGER_VALUE i).
Proof. exists 1%nat. by intros [|n] Hn val; [lia|]. Qed.

Lemma evaluates_operation sc e1 e2 a b :
  evaluates st2 e1 (INTEGER_VALUE a) -> evaluates st2 e2 (INTEGER_VALUE b) ->
  evaluates st2 (Operation2 sc op e1 e2) (INTEGER_VALUE (f a b)).
Proof.
  intros [n1 H1] [n2 H2]. exists (S (max n1 n2)). intros [|n] Hn val; [lia|].
  destruct (sem_operation op f a b Hop) as (sig&Hdo&Hsig).
  destruct (sem_op op f Hop) as (_&Hspecial&_&_&Hlog).
  destruct (operation_is_strict oldSemantics functionTable n sc op e1 e2 val
    (INTEGER_VALUE a) (INTEGER_VALUE b) (INTEGER_VALUE (f a b)) st2 st2 st2 sig)
    as (st'&E&Hst); try done; try (by intros ->).
  - apply H1. lia.
  - apply H2. lia.
  - rewrite E. by destruct Hst as [->| ->].
Qed.

Lemma evaluates_parens sc e v : evaluates st2 e v -> evaluates st2 (OperationParens sc e) v.
Proof.
  intros [n0 H]. exists (S n0). intros [|n] Hn val; [lia|]. simpl. unfold parens_Evaluate, rbind.
  by rewrite H by lia.
Qed.

(** The result of flattening an operand of the operator, for an expression of value [k]: an
    integer, a tree of at most [p] integers, or both. *)
Inductive merged (p : nat) : Flattened -> Z -> Prop :=
| merged_integer i : merged p (flat_value (INTEGER_VALUE i)) i
| merged_tree v t i : (integers_in t <= p)%nat -> evaluates st2 t (INTEGER_VALUE i) ->
    merged p (flat_tree v (Some t)) i
| merged_both i t j : (integers_in t <= p)%nat -> evaluates st2 t (INTEGER_VALUE j) ->
    merged p (mk_Flattened true (INTEGER_VALUE i) (Some t) op) (f i j).
Lemma merged_mono p q r k : (p <= q)%nat -> merged p r k -> merged q r k.
Proof. intros Hpq [i|v t i Hi Ei|i t j Hi Ei]; constructor; lia || done. Qed.
Lemma merged_success p r k : merged p r k -> fl_ok r = true.
Proof. by destruct 1. Qed.

Lemma make_sum t1 t2 : MakeOperation op (Some t1) (Some t2) None = Some (Operation2 None op t1 t2).
Proof. clear -Hop. by destruct op. Qed.

Lemma fold_sum ev a b val s :
  fold2 oldSemantics ev op (INTEGER_VALUE a) (INTEGER_VALUE b) val s = Ret (INTEGER_VALUE (f a b)) s.
Proof. unfold fold2. by destruct (sem_operation op f a b Hop) as (sig&->&_). Qed.

Lemma combine_merged ev val p1 p2 r1 r2 k1 k2 s : merged p1 r1 k1 -> merged p2 r2 k2 ->
  exists r, combine oldSemantics ev op val (fl_op r1) (fl_val r1) (fl_tree r1)
    (fl_op r2) (fl_val r2) (fl_tree r2) s = Ret r s /\ merged (p1 + p2) r (f k1 k2).
Proof.
  destruct (sem_op op f Hop) as (_&_&Hno&Hlog&_).
  assert (Hsame : bool_decide (op = op) = true) by by apply bool_decide_eq_true.
  assert (Hne : bool_decide (op = __NO_OP__) = false) by exact Hno.
  unfold combine. rewrite Hlog, andb_false_r.
  intros [i|v t i Hi Ei|i t j Hi Ei] [i'|v' t' i' Hi' Ei'|i' t' j' Hi' Ei'];
    unfold combine_cases; cbn [fl_op fl_val fl_tree flat_value flat_tree present negb andb];
    rewrite ?make_sum; change (is_no_op __NO_OP__) with true; rewrite ?Hno; cbn [negb andb];
    rewrite ?Hsame, ?Hne; cbn [negb andb]; unfold rbind; rewrite ?fold_sum.
  - eexists. split; [reflexivity|]. constructor.
  - eexists. split; [reflexivity|]. constructor; [lia|done].
  - eexists. split; [reflexivity|]. rewrite (sem_assoc op f _ _ _ Hop). constructor; [lia|done].
  - eexists. split; [reflexivity|]. rewrite (sem_comm op f _ _ Hop). constructor; [lia|done].
  - eexists. split; [reflexivity|]. constructor; [simpl; lia|by apply evaluates_operation].
  - eexists. split; [reflexivity|]. rewrite (sem_swap op f _ _ _ Hop).
    constructor; [simpl; lia|by apply evaluates_operation].
  - eexists. split; [reflexivity|]. rewrite <- (sem_assoc op f _ _ _ Hop).
    rewrite (sem_comm op f j i' Hop), (sem_assoc op f _ _ _ Hop). constructor; [lia|done].
  - eexists. split; [reflexivity|]. rewrite <- (sem_assoc op f _ _ _ Hop).
    constructor; [simpl; lia|by apply evaluates_operation].
  - eexists. split; [reflexivity|].
    rewrite <- (sem_assoc op f i j _ Hop), (sem_swap op f j i' j' Hop), (sem_assoc op f i i' _ Hop).
    constructor; [simpl; lia|by apply evaluates_operation].
Qed.

(** The result at the place where splitting ends: the integer becomes part of the tree. *)
Definition unsplit (r : Flattened) : option Flattened :=
  if is_no_op (fl_op r) then Some r
  else flat_tree (fl_val r) ∘ Some <$> MakeOperation_vt (fl_op r) (fl_val r) (fl_tree r).
Lemma merged_unsplit p r k : merged p r k ->
  exists r', unsplit r = Some r' /\ merged (S p) r' k /\ fl_op r' = __NO_OP__.
Proof.
  intros [i|v t i Hi Ei|i t j Hi Ei]; unfold unsplit; simpl.
  - eexists. split_and!; [done|constructor|done].
  - eexists. split_and!; [done|constructor; [lia|done]|done].
  - destruct (sem_op op f Hop) as (_&_&->&_). unfold MakeOperation_vt. simpl. rewrite make_sum.
    eexists. split_and!; [done| |done]. constructor; [simpl; lia|].
    apply evaluates_operation; [apply evaluates_literal|done].
Qed.
Lemma merged_expr p r k : merged (S p) r k -> fl_op r = __NO_OP__ ->
  exists t, fl_expr r = Some t /\ (integers_in t <= S p)%nat /\ evaluates st2 t (INTEGER_VALUE k).
Proof.
  intros [i|v t i Hi Ei|i t j Hi Ei] Hno; simpl in Hno.
  - eexists. split_and!; [done|simpl; lia|apply evaluates_literal].
  - by exists t.
  - subst op. done.
Qed.

Lemma flatten_name sc name absolute st1 n split val :
  find_name oldSemantics name absolute st = Ret EVAL_UNDEF st1 ->
  Flatten (S n) split (AttributeReference sc None name absolute) val st =
    Ret (flat_tree val (Some (AttributeReference sc None name absolute))) st.
Proof.
  intros E. pose proof (found_state _ _ _ _ _ _ E) as Est. simpl.
  unfold attrref_Flatten, rbind, get_state, modify_state. cbv zeta.
  rewrite FindExpr_name, E. unfold inline_scope, rbind. simpl. rewrite Est.
  by destruct st as [? []].
Qed.

(** Every way of flattening a sum splits it, up to its parentheses. *)
Lemma flatten_sum e : integer_sum e -> exists k n0, evaluates st2 e (INTEGER_VALUE k) /\
  forall n, (n0 <= n)%nat -> forall val, exists r r',
    Flatten n true e val st = Ret r st /\ merged (parentheses_in e) r k /\
    Flatten n false e val st = Ret r' st /\ merged (S (parentheses_in e)) r' k /\ fl_op r' = __NO_OP__.
Proof.
  destruct (sem_op op f Hop) as (Hu&Hs&Hno&_).
  induction 1 as [i|sc name absolute st1 i Hf He|sc e1 e2 _ (k1&n1&E1&H1) _ (k2&n2&E2&H2)|sc e _ (k&n0&E&H)].
  - exists i, 1%nat. split; [apply evaluates_literal|]. intros [|n] Hn val; [lia|].
    do 2 eexists. split_and!; [reflexivity|constructor|reflexivity|constructor|done].
  - exists i, 1%nat. split; [done|]. intros [|n] Hn val; [lia|].
    do 2 eexists. split_and!; [by eapply flatten_name|by constructor|by eapply flatten_name|constructor; [simpl; lia|done]|done].
  - exists (f k1 k2), (S (max n1 n2)). split; [by apply evaluates_operation|].
    intros [|n] Hn val; [lia|]. simpl. unfold operation_Flatten. rewrite Hu, Hs, Hno.
    destruct (H1 n ltac:(lia) UNDEFINED_VALUE) as (r1&_&F1&M1&_).
    destruct (H2 n ltac:(lia) UNDEFINED_VALUE) as (r2&_&F2&M2&_).
    destruct (combine_merged (Evaluate n) val _ _ r1 r2 k1 k2 st M1 M2) as (r&Fc&M).
    destruct (merged_unsplit _ r _ M) as (r'&Eu&M'&Ho).
    exists r, r'. unfold flatten_splittable, flatten_child, rbind. rewrite F1. simpl.
    rewrite (merged_success _ _ _ M1). simpl. rewrite F2. simpl. rewrite (merged_success _ _ _ M2). simpl.
    rewrite Fc. simpl. rewrite (merged_success _ _ _ M). simpl.
    split_and!; try done. unfold unsplit in Eu.
    destruct (is_no_op (fl_op r)); [by injection Eu as ->|].
    destruct (MakeOperation_vt _ _ _); simpl in Eu; [injection Eu as <-|done]. reflexivity.
  - exists k, (S n0). split; [by apply evaluates_parens|]. intros [|n] Hn val; [lia|].
    destruct (H n ltac:(lia) UNDEFINED_VALUE) as (_&r&_&_&F&M&Ho).
    assert (Hr : exists r', parens_flatten (Flatten n) e val st = Ret r' st /\
      merged (S (parentheses_in e)) r' k /\ fl_op r' = __NO_OP__).
    { unfold parens_flatten, flat_child, rbind. rewrite F. simpl. rewrite (merged_success _ _ _ M). simpl.
      clear F. destruct M as [i|v t i Hi Ei|i t j Hi Ei]; simpl in Ho; [| |by rewrite Ho in Hop];
        (eexists; split_and!; [reflexivity|constructor|done]); [done|by apply evaluates_parens]. }
    destruct Hr as (r'&F'&M'&Ho'). exists r', r'. simpl. unfold operation_Flatten. simpl.
    split_and!; try done. eapply merged_mono; [|done]. lia.
Qed.

End merge.

(** [1 + x + 2 + (4 + y + 3)] where neither is known becomes [3 + (x + (7 + y))], with an
    integer outside of the parentheses and one inside; with [x = 40] and [y = 2^63 - 1] both
    wrap around. *)
Definition sum2 := Operation2 None ADDITION_OP.
Definition sum_expression : ExprTree :=
  sum2 (sum2 (sum2 (IntegerLiteral 1) (ref "x")) (IntegerLiteral 2))
    (OperationParens None (sum2 (sum2 (IntegerLiteral 4) (ref "y")) (IntegerLiteral 3))).
Definition known_store : heap :=
  <[1%positive := set_attrList [("x", IntegerLiteral 40); ("y", IntegerLiteral INT64_MAX)] new_ClassAd]> ∅.
Definition unknown_state : state := eval_state (<[1%positive := new_ClassAd]> ∅) 1%positive.

Lemma known_names name i : (name = "x" /\ i = 40) \/ (name = "y" /\ i = INT64_MAX) ->
  evaluates false no_functions (eval_state known_store 1%positive) (ref name) (INTEGER_VALUE i).
Proof.
  intros H. destruct (folds_agree false no_functions (eval_state known_store 1%positive) (ref name)
    (INTEGER_VALUE i)) as [n0 Hn].
  - destruct H as [[-> ->]|[-> ->]]; (eapply folds_ref; [vm_compute; reflexivity|reflexivity|reflexivity|];
      by apply folds_literal).
  - exists n0. intros n Hle val. by apply (Hn n Hle true).
Qed.


Lemma sum_expression_flattened :
  Flatten false no_functions 9 false sum_expression UNDEFINED_VALUE unknown_state =
    Ret (flat_tree (INTEGER_VALUE 3) (Some (sum2 (IntegerLiteral 3)
      (sum2 (ref "x") (OperationParens None (sum2 (IntegerLiteral 7) (ref "y"))))))) unknown_state.
Proof. by vm_compute. Qed.

(** ** Corners *)
Module Corner.
Definition I := IntegerLiteral.
Definition op2 := Operation2 None.
(** A registered function that answers a list. *)
Definition pair_function : ClassAdFunc := fun _ _ _ => rret (true, SLIST_VALUE [I 1; I 2]).
Definition table (name : string) : option ClassAdFunc :=
  if String.eqb name "pair" then Some pair_function
  else if String.eqb name "size" then Some (fun ev => Functions.size ev) else None.
Definition pair_call : ExprTree := FunctionCall None "pair" [].

Definition flat (e : ExprTree) : option (bool * (Value + ExprTree)) :=
  match Flatten false table 20 false e UNDEFINED_VALUE unknown_state with
  | Ret r _ => Some (fl_ok r, match fl_tree r with Some t => inr t | None => inl (fl_val r) end)
  | _ => None
  end.
Definition value (e : ExprTree) : option (bool * Value) :=
  match Evaluate false table 20 e UNDEFINED_VALUE unknown_state with Ret r _ => Some r | _ => None end.
End Corner.
Import Corner.

(** Lists stay: a subscript of a list literal, and a call with one, flatten to trees, though
    they have values. *)
Lemma flatten_lists_stay :
  let pair := ExprList None [I 1; I 2] in
  flat (op2 SUBSCRIPT_OP pair (I 0)) = Some (true, inr (op2 SUBSCRIPT_OP pair (I 0))) /\
  value (op2 SUBSCRIPT_OP pair (I 0)) = Some (true, INTEGER_VALUE 1) /\
  flat (FunctionCall None "size" [pair]) = Some (true, inr (FunctionCall None "size" [pair])) /\
  value (FunctionCall None "size" [pair]) = Some (true, INTEGER_VALUE 2).
Proof. by vm_compute. Qed.

(** Two operands with an integer each, under different operators: that of the second is
    lost, [x + 1 + y * 2] becomes [1 + (x + y)]. *)
Lemma flatten_drops_factor :
  flat (op2 ADDITION_OP (op2 ADDITION_OP (ref "x") (I 1)) (op2 MULTIPLICATION_OP (ref "y") (I 2))) =
  Some (true, inr (op2 ADDITION_OP (I 1) (op2 ADDITION_OP (ref "x") (ref "y")))).
Proof. by vm_compute. Qed.

(** [true && x + 1] becomes [x]. *)
Lemma flatten_drops_term :
  flat (op2 LOGICAL_AND_OP (BooleanLiteral true) (op2 ADDITION_OP (ref "x") (I 1))) =
  Some (true, inr (ref "x")).
Proof. by vm_compute. Qed.

(** [e1 ?: e2] with a defined [e1] is [e1]; flattened, it fails, is [e2], or an error. *)
Lemma flatten_default_operator :
  let elvis b := Operation3 None b None (I 5) in
  value (elvis (BooleanLiteral true)) = Some (true, BOOLEAN_VALUE true) /\
  flat (elvis (BooleanLiteral true)) = Some (false, inl UNDEFINED_VALUE) /\
  value (elvis (BooleanLiteral false)) = Some (true, BOOLEAN_VALUE false) /\
  flat (elvis (BooleanLiteral false)) = Some (true, inl (INTEGER_VALUE 5)) /\
  value (elvis (StringLiteral "a")) = Some (true, STRING_VALUE "a") /\
  flat (elvis (StringLiteral "a")) = Some (true, inl ERROR_VALUE).
Proof. by vm_compute. Qed.

(** A decided operand does not save the other one: [false && ?] with a string flattens to
    the error value; and [(x && error) && false], an error, flattens to [false]. *)
Lemma flatten_logical_corners :
  let string_behind := op2 LOGICAL_AND_OP (BooleanLiteral false) (StringLiteral "a") in
  let error_before := op2 LOGICAL_AND_OP (op2 LOGICAL_AND_OP (ref "x") ErrorLiteral) (BooleanLiteral false) in
  value string_behind = Some (true, BOOLEAN_VALUE false) /\
  flat string_behind = Some (true, inl ERROR_VALUE) /\
  value error_before = Some (true, ERROR_VALUE) /\
  flat error_before = Some (true, inl (BOOLEAN_VALUE false)).
Proof. by vm_compute. Qed.

(** A list has no literal: where it would be an operand of a residual comparison the tree is
    null and the call succeeds, so that [x =!= pair ()] flattens to [undefined]; as an
    argument it makes the call fail. *)
Lemma flatten_list_operand :
  flat (op2 META_NOT_EQUAL_OP (ref "x") pair_call) = Some (true, inl UNDEFINED_VALUE) /\
  value (op2 META_NOT_EQUAL_OP (ref "x") pair_call) = Some (true, BOOLEAN_VALUE true) /\
  flat (FunctionCall None "pair" [pair_call]) = Some (false, inl ERROR_VALUE).
Proof. by vm_compute. Qed.

(** Flattening [pair ()[0]] follows the null pointer to the evaluation state. *)
Lemma flatten_subscript_has_no_outcome n :
  Flatten false table n false (op2 SUBSCRIPT_OP pair_call (I 0)) UNDEFINED_VALUE unknown_state = NoFuel /\
  value (op2 SUBSCRIPT_OP pair_call (I 0)) = Some (true, INTEGER_VALUE 1).
Proof. split; [by destruct n as [|[|n]]|by vm_compute]. Qed.

(** A ClassAd that flattening makes does not become the scope of its expressions: one that
    stays as it was keeps the old ClassAd, one that is made has none. *)
Definition scoped_store : option heap :=
  '(h1, _) ← Insert (<[1%positive := new_ClassAd]> ∅) 1%positive "p" (Some (ref "q"));
  fst <$> Insert h1 1%positive "r" (Some (op2 SUBTRACTION_OP (ref "q") (I 1))).
Lemma flattening_leaves_scopes :
  let scoped sc := AttributeReference sc None "q" false in
  (h ← scoped_store;
   match Flatten false no_functions 20 false (ClassAdNode 1%positive) UNDEFINED_VALUE (eval_state h 1%positive) with
   | Ret r (h', _) => ad ← h' !! 2%positive; Some (fl_tree r, attrList ad)
   | _ => None
   end) = Some (Some (ClassAdNode 2%positive),
            [("p"%string, scoped (Some 1%positive));
             ("r"%string, op2 SUBTRACTION_OP (scoped (Some 1%positive)) (I 1))]).
Proof. vm_compute. reflexivity. Qed.

(** An inlined reference leaves the scope it was found in: in [[x = 1]] inside
    [[x = 2; p = q + 1]], [x - p] becomes [1 - (1 + q)] but [p - x] becomes [(1 + q) - 2]. *)
Definition nested_store : heap :=
  <[1%positive := set_attrList [("p", op2 ADDITION_OP (ref "q") (I 1)); ("x", I 2)] new_ClassAd]>
    (<[2%positive := set_parentScope (Some 1%positive) (set_attrList [("x", I 1)] new_ClassAd)]> ∅).
Definition inlined (e : ExprTree) : option (option ExprTree) :=
  match FlattenAndInline false no_functions 20 2%positive e (eval_state nested_store 2%positive) with
  | Ret r _ => Some (fl_tree r)
  | _ => None
  end.
Lemma inlining_leaves_scope :
  inlined (op2 SUBTRACTION_OP (ref "x") (ref "p")) =
    Some (Some (op2 SUBTRACTION_OP (I 1) (op2 ADDITION_OP (I 1) (ref "q")))) /\
  inlined (op2 SUBTRACTION_OP (ref "p") (ref "x")) =
    Some (Some (op2 SUBTRACTION_OP (op2 ADDITION_OP (I 1) (ref "q")) (I 2))).
Proof. by vm_compute. Qed.
