(* ===== verification/FlattenOptimize.v ===== *)
(** * [OptimizeAdForMatchmaking] is undone by [UnoptimizeAdForMatchmaking]

    A ClassAd without a parent is seen as a map of its attributes; insertions, deletions and
    the replacement of the requirements are followed in it. *)
From Stdlib Require Import ZArith Lia Ascii String.
From stdpp Require Import base list gmap strings fin_maps.
From S2P Require Import Prelude Double Tree Values Operators FlatMap AdStore AdStoreFacts.
From S2P Require Import AdStoreLaws Eval EvalFacts MatchClassAd Flatten FlattenFacts FlattenLaws.

Open Scope res_scope.

(** ** A ClassAd without a parent, as a map of its attributes *)
Definition attributes (ad : ClassAd) : gmap string ExprTree := snd <$> fm_map (attrList ad).
Definition holds (h : heap) (a : adref) (m : gmap string ExprTree) : Prop :=
  exists ad, h !! a = Some ad /\ ad_ok a ad /\ chained_parent_ad ad = None /\ attributes ad = m.

Lemma holds_weaken h h' a m : h ⊆ h' -> holds h a m -> holds h' a m.
Proof. intros Hs (ad&E&H). exists ad. split; [by eapply lookup_weaken|done]. Qed.

Lemma holds_nested s t h a m : holds h a m -> holds (scope_nested s t h) a m.
Proof.
  intros (ad&E&Hok&Hc&Hm). eexists. rewrite scope_nested_lookup, E. split; [done|].
  by destruct (decide _).
Qed.

Lemma attributes_lookup a ad name : ad_ok a ad -> nul_free name ->
  fm_lookup (attrList ad) name = attributes ad !! attr_key name.
Proof. intros [Hfm _] Hn. unfold attributes. by rewrite fm_lookup_spec, lookup_fmap by done. Qed.

Lemma holds_Lookup h a m name : nul_free name -> holds h a m -> Lookup h a name = Some (m !! attr_key name).
Proof.
  intros Hn (ad&E&Hok&Hc&<-). rewrite <- (attributes_lookup a ad name Hok Hn).
  destruct (fm_lookup (attrList ad) name) as [t|] eqn:El; [by eapply Lookup_here|].
  unfold Lookup. assert (Hsz : (0 < size h)%nat).
  { destruct (size h) eqn:Hs; [|lia]. apply map_size_empty_inv in Hs. by rewrite Hs in E. }
  destruct (size h) as [|n]; [lia|]. simpl. rewrite E. simpl. by rewrite El, Hc.
Qed.

Lemma holds_scope h a m k t : holds h a m -> m !! k = Some t -> SetParentScope (Some a) t = t.
Proof.
  intros (ad&_&[_ Hsc]&_&<-). unfold attributes. rewrite lookup_fmap, fmap_Some.
  intros ([k' t']&E&->). unfold fm_map in E. simpl.
  assert (Hin : (k', t') ∈ attrList ad).
  { clear Hsc. revert E. induction (attrList ad) as [|[k1 v1] l IH]; simpl; [done|].
    rewrite lookup_insert_Some. intros [[_ [= -> ->]]|[_ E]]; [apply list_elem_of_here|].
    apply list_elem_of_further. by apply IH. }
  rewrite Forall_forall in Hsc. by apply (Hsc (k', t')).
Qed.

Lemma holds_insert_attr h a ad name t : nul_free name -> SetParentScope (Some a) t = t ->
  ad_ok a ad -> chained_parent_ad ad = None ->
  holds (<[a := insert_attr name t ad]> h) a (<[attr_key name := t]> (attributes ad)).
Proof.
  intros Hn Ht Hok Hc. eexists. rewrite lookup_insert_eq. split; [done|].
  split; [by apply insert_attr_ok|]. split; [by rewrite insert_attr_chain|].
  unfold attributes. rewrite insert_attr_attrList. destruct Hok as [Hfm _].
  by rewrite fm_insert_spec, fmap_insert by done.
Qed.

Lemma holds_Insert h a m name t : nul_free name -> name <> ""%string -> holds h a m ->
  exists h', Insert h a name (Some t) = Some (h', true) /\
    holds h' a (<[attr_key name := SetParentScope (Some a) t]> m).
Proof.
  intros Hn Hne (ad&E&Hok&Hc&<-). unfold Insert. apply String.eqb_neq in Hne. rewrite Hne.
  unfold on_ad. rewrite scope_nested_lookup, E. simpl. eexists. split; [done|].
  set (ad' := (if decide (a ∈ nested_ads t) then set_parentScope (Some a) else id) ad).
  assert (Ea : attributes ad' = attributes ad) by (unfold ad'; by destruct (decide _)).
  rewrite <- Ea. apply holds_insert_attr; [done|apply SetParentScope_idem|..];
    unfold ad'; by destruct (decide _).
Qed.

Lemma holds_erase h a ad name : nul_free name -> ad_ok a ad -> chained_parent_ad ad = None ->
  holds (<[a := erase_attr name ad]> h) a (delete (attr_key name) (attributes ad)).
Proof.
  intros Hn Hok Hc. eexists. rewrite lookup_insert_eq. split; [done|].
  split; [by apply erase_attr_ok|]. split; [done|]. unfold attributes. simpl.
  destruct Hok as [Hfm _]. destruct (fm_erase_spec (attrList ad) name Hfm Hn) as (_&->&_).
  by rewrite fmap_delete.
Qed.

Lemma holds_parent_lookup h a m name : holds h a m -> parent_lookup h a name = Some None.
Proof. intros (ad&E&_&Hc&_). unfold parent_lookup. rewrite E. simpl. by rewrite Hc. Qed.

Lemma holds_Delete h a m name : nul_free name -> holds h a m ->
  exists h' b, Delete h a name = Some (h', b) /\ holds h' a (delete (attr_key name) m).
Proof.
  intros Hn (ad&E&Hok&Hc&<-). pose proof (holds_erase h a ad name Hn Hok Hc) as He.
  unfold Delete. rewrite E. simpl. rewrite (holds_parent_lookup _ _ _ _ He). simpl. eauto.
Qed.

Lemma holds_Remove h a m name : nul_free name -> holds h a m ->
  exists h', Remove h a name = Some (h', SetParentScope None <$> m !! attr_key name) /\
    holds h' a (delete (attr_key name) m).
Proof.
  intros Hn (ad&E&Hok&Hc&<-). pose proof (holds_erase h a ad name Hn Hok Hc) as He.
  unfold Remove. rewrite E. simpl. rewrite (attributes_lookup a ad name Hok Hn).
  destruct (attributes ad !! attr_key name) as [t|]; simpl.
  - pose proof (holds_nested None t _ _ _ He) as He'.
    rewrite (holds_parent_lookup _ _ _ _ He'). simpl. eauto.
  - rewrite (holds_parent_lookup _ _ _ _ He). simpl. eauto.
Qed.

(** ** Names that are inserted and deleted again

    [m ~ m' off names]: the maps differ at the keys of [names] only. *)
Definition same_off (names : list string) (m m' : gmap string ExprTree) : Prop :=
  forall k, k ∉ attr_key <$> names -> m !! k = m' !! k.

Lemma same_off_insert names m m' name t : name ∈ names -> same_off names m m' ->
  same_off names m (<[attr_key name := t]> m').
Proof.
  intros Hin H k Hk. rewrite lookup_insert_ne; [by apply H|]. intros <-. apply Hk.
  by apply list_elem_of_fmap_2.
Qed.

Section optimize.
Variable oldSemantics : bool.
Variable functionTable : string -> option ClassAdFunc.
Hypothesis functions_frame : forall f fn, functionTable f = Some fn ->
  forall ev, frames ev -> forall args v st, post (fn ev args v) st (fun _ st' => frame st st').
Variables (a : adref) (is_right : bool) (la ra : string).
Hypothesis la_nul : nul_free la.
Hypothesis ra_nul : nul_free ra.
(** The aliases are not the name under which the requirements are kept. *)
Hypothesis la_kept : attr_key la <> attr_key "UnoptimizedRequirements".
Hypothesis ra_kept : attr_key ra <> attr_key "UnoptimizedRequirements".

(** The names in the order of the insertions; ["my"] is never inserted. *)
Definition inserted_names : list string :=
  ["target"; "other"] ++ (if String.eqb la "" then [] else [la]) ++ (if String.eqb ra "" then [] else [ra]).

Lemma not_taken h m names : holds h a m -> Forall nul_free names ->
  any_taken h a names = Some false -> Forall (fun name => m !! attr_key name = None) names.
Proof.
  intros Hh. induction 1 as [|name names Hn _ IH]; [constructor|]. simpl. unfold name_taken.
  rewrite (holds_Lookup h a m name Hn Hh). simpl. destruct (m !! attr_key name) eqn:Em; simpl; [done|].
  intros H. constructor; auto.
Qed.

Lemma insert_same h m m' name t h' : nul_free name -> name <> ""%string -> name ∈ inserted_names ->
  holds h a m' -> same_off inserted_names m m' -> insert_ a name (Some t) h = Some h' ->
  exists m2, holds h' a m2 /\ same_off inserted_names m m2.
Proof.
  intros Hn Hne Hin Hh Hs. destruct (holds_Insert h a m' name t Hn Hne Hh) as (h2&E&H2).
  unfold insert_. rewrite E. intros [= <-]. eexists. split; [exact H2|]. by apply same_off_insert.
Qed.

Lemma if_named_same h m m' name t h' : nul_free name ->
  (name <> ""%string -> name ∈ inserted_names) ->
  holds h a m' -> same_off inserted_names m m' -> if_named name (insert_ a name (Some t)) h = Some h' ->
  exists m2, holds h' a m2 /\ same_off inserted_names m m2.
Proof.
  intros Hn Hin Hh Hs. unfold if_named. destruct (String.eqb_spec name "") as [|Hne].
  - intros [= <-]. eauto.
  - apply (insert_same h m m' name t); auto.
Qed.

Lemma insert_names_same h m h' : holds h a m ->
  insert_names oldSemantics a is_right la ra h = Some h' ->
  exists m', holds h' a m' /\ same_off inserted_names m m'.
Proof.
  intros Hh. unfold insert_names.
  replace (if oldSemantics then Some h else insert_ a "my" (MakeLiteral (CLASSAD_VALUE a)) h)
    with (Some h) by by destruct oldSemantics. simpl.
  destruct (insert_ a "target" _ h) as [h2|] eqn:E2; simpl; [|done].
  apply (insert_same h m m) in E2 as (m2&H2&S2); [|done..|apply list_elem_of_here|done|done].
  destruct (insert_ a "other" _ h2) as [h3|] eqn:E3; simpl; [|done].
  apply (insert_same h2 m m2) in E3 as (m3&H3&S3);
    [|done..|apply list_elem_of_further, list_elem_of_here|done|done].
  destruct (if_named la _ h3) as [h4|] eqn:E4; simpl; [|done].
  apply (if_named_same h3 m m3) in E4 as (m4&H4&S4); [|done| |done|done].
  2:{ intros Hne. apply String.eqb_neq in Hne. unfold inserted_names. rewrite Hne. set_solver. }
  intros E5. apply (if_named_same h4 m m4) in E5; [done|done| |done|done].
  intros Hne. apply String.eqb_neq in Hne. unfold inserted_names. rewrite Hne. set_solver.
Qed.

(** What the deletions leave. *)
Definition deleted_names : list string :=
  (if oldSemantics then [] else ["my"]) ++ ["other"; "target"]
    ++ (if String.eqb la "" then [] else [la]) ++ (if String.eqb ra "" then [] else [ra]).
Definition delete_all (m : gmap string ExprTree) (names : list string) : gmap string ExprTree :=
  foldl (fun m name => delete (attr_key name) m) m names.

Lemma delete_all_lookup m names k :
  delete_all m names !! k = if decide (k ∈ attr_key <$> names) then None else m !! k.
Proof.
  revert m. induction names as [|x l IH]; intros m; [done|]. simpl. unfold delete_all in *. simpl.
  rewrite IH. destruct (decide (k ∈ attr_key <$> l)) as [H|H].
  - rewrite decide_True; [done|]. by apply list_elem_of_further.
  - destruct (decide (k = attr_key x)) as [->|Hne].
    + rewrite lookup_delete_eq, decide_True; [done|apply list_elem_of_here].
    + rewrite lookup_delete_ne, decide_False by (rewrite ?elem_of_cons; naive_solver). done.
Qed.

Lemma delete_same h m name : nul_free name -> holds h a m ->
  exists h', delete_ a name h = Some h' /\ holds h' a (delete (attr_key name) m).
Proof.
  intros Hn Hh. destruct (holds_Delete h a m name Hn Hh) as (h'&b&E&H'). exists h'.
  unfold delete_. by rewrite E.
Qed.

Lemma delete_names_same h m h' : holds h a m -> delete_names oldSemantics a la ra h = Some h' ->
  holds h' a (delete_all m deleted_names).
Proof.
  intros Hh. unfold delete_names, deleted_names, if_named.
  assert (Hstep : forall h m name (k : heap -> option heap) names, nul_free name -> holds h a m ->
    (forall h1, holds h1 a (delete (attr_key name) m) -> k h1 = Some h' ->
       holds h' a (delete_all (delete (attr_key name) m) names)) ->
    (h1 ← delete_ a name h; k h1) = Some h' -> holds h' a (delete_all m (name :: names))).
  { intros h0 m0 name k names Hn H0 Hk. destruct (delete_same h0 m0 name Hn H0) as (h1&->&H1).
    intros E. exact (Hk h1 H1 E). }
  assert (Hlast : forall h m, holds h a m ->
    (h4 ← (if String.eqb la "" then Some h else delete_ a la h);
     (if String.eqb ra "" then Some h4 else delete_ a ra h4)) = Some h' ->
    holds h' a (delete_all m ((if String.eqb la "" then [] else [la])
      ++ (if String.eqb ra "" then [] else [ra])))).
  { intros h0 m0 H0. assert (Hra : forall h1 m1, holds h1 a m1 ->
      (if String.eqb ra "" then Some h1 else delete_ a ra h1) = Some h' ->
      holds h' a (delete_all m1 (if String.eqb ra "" then [] else [ra]))).
    { intros h1 m1 H1. destruct (String.eqb ra ""); [by intros [= <-]|].
      destruct (delete_same h1 m1 ra ra_nul H1) as (h2&->&H2). by intros [= <-]. }
    destruct (String.eqb la ""); [by apply Hra|]. intros E.
    refine (Hstep _ _ la _ _ la_nul H0 _ E). intros h1 H1. by apply Hra. }
  assert (Htwo : forall h0 m0, holds h0 a m0 ->
    (h2 ← delete_ a "other" h0; h3 ← delete_ a "target" h2;
     h4 ← (if String.eqb la "" then Some h3 else delete_ a la h3);
     (if String.eqb ra "" then Some h4 else delete_ a ra h4)) = Some h' ->
    holds h' a (delete_all m0 (["other"; "target"] ++ (if String.eqb la "" then [] else [la])
      ++ (if String.eqb ra "" then [] else [ra])))).
  { intros h0 m0 H0 E. refine (Hstep _ _ "other" _ _ eq_refl H0 _ E). intros h2 H2 E2.
    refine (Hstep _ _ "target" _ _ eq_refl H2 _ E2). intros h3 H3. by apply Hlast. }
  destruct oldSemantics; [by apply Htwo|]. intros E.
  refine (Hstep _ _ "my" _ (["other"; "target"] ++ _) eq_refl Hh _ E). intros h1 H1. by apply Htwo.
Qed.

(** ** The requirements *)
Definition req_key : string := attr_key "Requirements".
Definition kept_key : string := attr_key "UnoptimizedRequirements".

Lemma replace_same h m r flat h' msg : holds h a m -> m !! req_key = Some r ->
  replace_requirements a flat h = Some (h', msg) ->
  msg = None /\
  holds h' a (<[req_key := SetParentScope (Some a) flat]> (<[kept_key := r]> (delete req_key m))).
Proof.
  intros Hh Hr. unfold replace_requirements.
  destruct (holds_Remove h a m "Requirements" eq_refl Hh) as (h1&->&H1). fold req_key in H1.
  fold req_key. rewrite Hr. simpl.
  destruct (holds_Insert h1 a _ "UnoptimizedRequirements" (SetParentScope None r) eq_refl ltac:(done) H1)
    as (h2&->&H2). simpl.
  destruct (holds_Insert h2 a _ "Requirements" flat eq_refl ltac:(done) H2) as (h3&->&H3). simpl.
  intros [= <- <-]. split; [done|]. rewrite SetParentScope_idem in H2, H3.
  by rewrite (holds_scope h a m req_key r Hh Hr) in H3.
Qed.

(** The keys of the names are none of the ClassAd's, and none of the two above. *)
Lemma deleted_reserved name : name ∈ deleted_names -> name ∈ reserved_names la ra.
Proof.
  unfold deleted_names, reserved_names.
  destruct oldSemantics, (String.eqb la ""), (String.eqb ra ""); simpl; set_solver.
Qed.
Lemma inserted_deleted name : name ∈ inserted_names -> name ∈ deleted_names.
Proof. unfold deleted_names, inserted_names. set_solver. Qed.
Lemma kept_not_deleted : kept_key ∉ attr_key <$> deleted_names.
Proof.
  intros (name&E&Hin)%list_elem_of_fmap_1. revert Hin. unfold deleted_names.
  rewrite !elem_of_app, !elem_of_cons.
  intros [Hin|[[->|[->|Hin]]|[Hin|Hin]]]; try (by vm_compute in E); try (by apply elem_of_nil in Hin).
  - destruct oldSemantics; [by apply elem_of_nil in Hin|].
    apply list_elem_of_singleton in Hin as ->. by vm_compute in E.
  - destruct (String.eqb la ""); [by apply elem_of_nil in Hin|].
    apply list_elem_of_singleton in Hin as ->. by apply la_kept.
  - destruct (String.eqb ra ""); [by apply elem_of_nil in Hin|].
    apply list_elem_of_singleton in Hin as ->. by apply ra_kept.
Qed.

(** The two maps that the optimisation can end with, put back. *)
Lemma undone_map m m1 m2 : same_off inserted_names m m1 ->
  (forall k, k ∈ attr_key <$> deleted_names -> m !! k = None) ->
  (forall k, k <> req_key -> k <> kept_key -> m2 !! k = m1 !! k) ->
  forall k, k <> req_key -> k <> kept_key -> delete_all m2 deleted_names !! k = m !! k.
Proof.
  intros Hs Hfree H2 k Hr Hk. rewrite delete_all_lookup. case_decide as Hin; [by rewrite Hfree|].
  rewrite H2 by done. symmetry. apply Hs. intros (name&->&Hn)%list_elem_of_fmap_1. apply Hin.
  by apply list_elem_of_fmap_2, inserted_deleted.
Qed.

Lemma unoptimize_kept h m m3 r : holds h a m3 -> m3 !! kept_key = Some r ->
  SetParentScope (Some a) r = r ->
  m !! req_key = Some r -> m !! kept_key = None ->
  (forall k, k <> req_key -> k <> kept_key -> m3 !! k = m !! k) ->
  exists h2, UnoptimizeAdForMatchmaking h a = Some (h2, true) /\ holds h2 a m.
Proof.
  intros Hh Hr Hsc Hm Hk Hsame. unfold UnoptimizeAdForMatchmaking.
  destruct (holds_Remove h a m3 "UnoptimizedRequirements" eq_refl Hh) as (h1&->&H1).
  fold kept_key in H1. fold kept_key. rewrite Hr. simpl.
  destruct (holds_Insert h1 a _ "Requirements" (SetParentScope None r) eq_refl ltac:(done) H1) as (h2&E&H2).
  exists h2. split; [exact E|]. rewrite SetParentScope_idem, Hsc in H2.
  replace m with (<[req_key := r]> (delete kept_key m3)); [exact H2|]. apply map_eq. intros k.
  destruct (decide (k = req_key)) as [->|Hne]; [by rewrite lookup_insert_eq|].
  rewrite lookup_insert_ne by done.
  destruct (decide (k = kept_key)) as [->|Hne']; [by rewrite lookup_delete_eq|].
  rewrite lookup_delete_ne by done. auto.
Qed.

Lemma unoptimize_absent h m m3 : holds h a m3 -> m3 !! kept_key = None ->
  m !! kept_key = None -> (forall k, k <> kept_key -> m3 !! k = m !! k) ->
  exists h2, UnoptimizeAdForMatchmaking h a = Some (h2, true) /\ holds h2 a m.
Proof.
  intros Hh Hr Hk Hsame. unfold UnoptimizeAdForMatchmaking.
  destruct (holds_Remove h a m3 "UnoptimizedRequirements" eq_refl Hh) as (h1&->&H1).
  fold kept_key in H1. fold kept_key. rewrite Hr. simpl. exists h1. split; [done|].
  replace m with (delete kept_key m3); [exact H1|]. apply map_eq. intros k.
  destruct (decide (k = kept_key)) as [->|Hne]; [by rewrite lookup_delete_eq|].
  rewrite lookup_delete_ne by done. auto.
Qed.

(** What the optimisation leaves: the map without the names, and with the requirements in
    their two places if they were replaced. *)
Lemma optimized_map n h s m st' :
  holds h a m ->
  OptimizeAdForMatchmaking oldSemantics functionTable n a is_right la ra (h, s) = Ret None st' ->
  Forall (fun name => m !! attr_key name = None) (reserved_names la ra) /\
  exists r m1 m2, m !! req_key = Some r /\ same_off inserted_names m m1 /\
    holds st'.1 a (delete_all m2 deleted_names) /\
    (m2 = m1 \/ exists flat, m2 = <[req_key := flat]> (<[kept_key := r]> (delete req_key m1))).
Proof.
  intros Hh. unfold OptimizeAdForMatchmaking.
  unfold rbind at 1, read_heap at 1. simpl fst.
  destruct (any_taken h a _) as [[]|] eqn:Et; [done| |done].
  assert (Hnul : Forall nul_free (reserved_names la ra)).
  { unfold reserved_names. destruct (String.eqb la ""), (String.eqb ra ""); simpl; by repeat constructor. }
  assert (Hfree := not_taken h m _ Hh Hnul Et).
  unfold rbind at 1, read_heap at 1. simpl fst. rewrite (holds_Lookup h a m "Requirements" eq_refl Hh).
  fold req_key. destruct (m !! req_key) as [r|] eqn:Er; [|done].
  unfold rbind at 1, on_heap at 1. simpl fst.
  destruct (insert_names _ _ _ _ _ h) as [h1|] eqn:Ei; simpl; [|done].
  destruct (insert_names_same h m h1 Hh Ei) as (m1&H1&S1).
  unfold rbind at 1. destruct (FlattenAndInline _ _ _ _ _ _) as [fr st1| |] eqn:Ef; [|done..].
  assert (Hs : h1 ⊆ st1.1).
  { apply (in_new_state_frame (lossy := false)) in Ef; [by destruct Ef as [[? _] _]|]. intros st0. by apply Flatten_keeps. }
  pose proof (holds_weaken _ _ _ _ Hs H1) as H1'.
  assert (Hdel : forall h2 m2 s2, holds h2 a m2 ->
    (let! _ := on_heap (fun h => h' ← delete_names oldSemantics a la ra h; Some (h', tt)) in
     rret (@None string)) (h2, s2) = Ret None st' -> holds st'.1 a (delete_all m2 deleted_names)).
  { intros h2 m2 s2 H2. unfold rbind, on_heap. simpl.
    destruct (delete_names _ _ _ _ h2) as [h3|] eqn:Ed; simpl; [|done].
    intros [= <-]. by eapply delete_names_same. }
  assert (Hr1 : m1 !! req_key = Some r).
  { rewrite <- (S1 req_key); [done|]. intros (name&E&Hn)%list_elem_of_fmap_1.
    rewrite Forall_forall in Hfree.
    specialize (Hfree name (deleted_reserved _ (inserted_deleted _ Hn))). congruence. }
  intros E. split; [done|]. exists r, m1. unfold rbind at 1 in E.
  destruct (if fl_ok fr then fl_expr fr else None) as [flat|].
  - unfold on_heap at 1 in E. destruct (replace_requirements a flat st1.1) as [[h2 msg]|] eqn:Ep; [|done].
    destruct (replace_same st1.1 m1 r flat h2 msg H1' Hr1 Ep) as [-> H2].
    eexists. split_and!; [done|done|exact (Hdel _ _ _ H2 E)|]. right. by eexists.
  - exists m1. destruct st1 as [h2 s2]. split_and!; [done|done|exact (Hdel _ _ _ H1' E)|by left].
Qed.

End optimize.

(** [[Requirements = TARGET.Memory > 1000 * 2]], as the right ClassAd. *)
Definition optimized_example : heap :=
  let a := 1%positive in
  <[a := set_attrList [("Requirements",
     Operation2 (Some a) GREATER_THAN_OP
       (AttributeReference (Some a) (Some (AttributeReference (Some a) None "TARGET" false)) "Memory" false)
       (Operation2 (Some a) MULTIPLICATION_OP (IntegerLiteral 1000) (IntegerLiteral 2)))] new_ClassAd]> ∅.

(** The optimised requirements are [.LEFT.Memory > 2000]. *)
Lemma optimized_requirements :
  match OptimizeAdForMatchmaking false no_functions 9 1%positive true "" ""
    (eval_state optimized_example 1%positive) with
  | Ret None st' => Lookup st'.1 1%positive "Requirements" = Some (Some
      (Operation2 (Some 1%positive) GREATER_THAN_OP
        (AttributeReference (Some 1%positive)
          (Some (AttributeReference (Some 1%positive) None "LEFT" true)) "Memory" false)
        (IntegerLiteral 2000)))
  | _ => False
  end.
Proof. by vm_compute. Qed.

