(* ===== verification/MatchFacts.v ===== *)
(** * Match ClassAds: what construction sets up, what the contexts resolve, what matches *)
From Stdlib Require Import ZArith Lia Ascii String.
From stdpp Require Import base list gmap strings fin_maps.
From S2P Require Import Prelude Double Tree Values Operators OperatorFacts FlatMap AdStore.
From S2P Require Import AdStoreFacts AdStoreLaws Eval EvalFacts EvalLaws MatchClassAd.

Open Scope res_scope.

(** ** Values that are safe to return *)
Lemma SafetyCheck_scalar v st b :
  IsBooleanValueEquiv v = Some b -> SafetyCheck SAFE_VALUES v st = Ret (true, v) st.
Proof. by destruct v. Qed.

Lemma MakeSelfContained_kind v st v' st' :
  MakeSelfContained v st = Ret v' st' -> IsBooleanValueEquiv v' = IsBooleanValueEquiv v.
Proof.
  destruct v; try (intros [= <- <-]; done); unfold MakeSelfContained, on_heap; intros H;
    repeat case_match; simplify_eq/=; simplify_option_eq; try done.
  - destruct (Copy _ _) as [[??]|]; simpl in *; [|done]. by simplify_option_eq.
  - destruct (CopyTree _ _) as [[??]|]; simpl in *; [|done]. by repeat case_match; simplify_eq.
Qed.

Lemma SafetyCheck_kind mask v st ok v' st' b :
  SafetyCheck mask v st = Ret (ok, v') st' -> IsBooleanValueEquiv v' = Some b ->
  IsBooleanValueEquiv v = Some b.
Proof.
  unfold SafetyCheck, rret. intros H Hb. repeat case_match; simplify_eq/=; try done.
  all: unfold rbind in H; destruct (MakeSelfContained _ _) as [v1 st1| |] eqn:E; [|done..];
    apply MakeSelfContained_kind in E; simplify_eq; congruence.
Qed.

(** ** When a match expression holds *)
Section matching.
Variable oldSemantics : bool.
Variable functionTable : string -> option ClassAdFunc.
Hypothesis functions_frame : forall f fn, functionTable f = Some fn ->
  forall ev, frames ev -> forall args v st, post (fn ev args v) st (fun _ st' => frame st st').

Abbreviation Evaluate' := (Evaluate oldSemantics functionTable).

(** The state in which the match ClassAd evaluates its expressions. *)
Definition match_state (h : heap) (a : adref) : state :=
  (h, mk_EvalState MAX_CLASSAD_RECURSION (Some a) (Some a) false).

(** A ClassAd in no scope is its own root scope. *)
Lemma top_level_scope h a ad :
  h !! a = Some ad -> parentScope ad = None -> SetRootScope h (Some a) = Some (Some a).
Proof. intros H1 H2. unfold SetRootScope. rewrite H1. simpl. rewrite H2. by destruct (size h). Qed.

Lemma EvalMatchExpr_true n this t ad h s st' :
  h !! this = Some ad -> parentScope ad = None ->
  EvalMatchExpr oldSemantics functionTable n this (Some t) (h, s) = Ret true st' <->
  exists v s', Evaluate' n t UNDEFINED_VALUE (match_state h this) = Ret (true, v) (st'.1, s') /\
    IsBooleanValueEquiv v = Some true /\ st'.2 = s.
Proof.
  intros Ha Hp. unfold EvalMatchExpr, EvaluateExpr, EvaluateExpr_with, in_new_state, rbind at 1.
  cbn [fst snd]. rewrite (top_level_scope _ _ _ Ha Hp). unfold rbind. fold (match_state h this). split.
  - destruct (Evaluate' n t _ _) as [[[] v] [h1 s1]| |] eqn:E; [| |done..].
    2: { intros [=]. }
    destruct (SafetyCheck _ _ _) as [[ok v'] [h2 s2]| |] eqn:Es; [|done..]. simpl.
    destruct (negb ok) eqn:Hok; [by intros [=]|].
    assert (Hv : IsBooleanValueEquiv v' = Some true -> IsBooleanValueEquiv v = Some true).
    { by apply (SafetyCheck_kind _ _ _ _ _ _ _ Es). }
    destruct (IsBooleanValueEquiv v') as [b|] eqn:Eb.
    + intros [= -> <-]. specialize (Hv eq_refl). rewrite (SafetyCheck_scalar _ _ _ Hv) in Es.
      simplify_eq. by exists v', s2.
    + destruct v'; simpl in *; try done; intros [=].
  - intros (v&s'&->&Hv&Hs). rewrite (SafetyCheck_scalar _ _ _ Hv). simpl. rewrite Hv.
    destruct st'; simpl in *. by subst.
Qed.

(** [&&] is true when both operands are, evaluated in turn. *)
Lemma and_true n sc e1 e2 v st st2 w :
  Evaluate' (S n) (Operation2 sc LOGICAL_AND_OP e1 e2) v st = Ret (true, w) st2 ->
  IsBooleanValueEquiv w = Some true ->
  exists v1 v2 st1, Evaluate' n e1 UNDEFINED_VALUE st = Ret (true, v1) st1 /\
    IsBooleanValueEquiv v1 = Some true /\
    Evaluate' n e2 UNDEFINED_VALUE st1 = Ret (true, v2) st2 /\ IsBooleanValueEquiv v2 = Some true.
Proof.
  simpl. unfold operation_Evaluate, rbind at 1. destruct (Evaluate' n e1 _ st) as [[[] v1] st1| |] eqn:E1;
    [simpl|by intros [=]|done..].
  unfold rbind at 1, shortCircuit. intros H Hw.
  assert (Hv1 : IsBooleanValueEquiv v1 <> Some false).
  { intros Hf. rewrite Hf in H. simpl in H. by injection H as <- <-. }
  assert (H' : rbind (Evaluate' n e2 UNDEFINED_VALUE) (fun '(ok2, val2) =>
            if negb ok2 then rret (false, ERROR_VALUE)
            else finish_operation oldSemantics (Evaluate' n)
               (_doOperation LOGICAL_AND_OP v1 val2 UNDEFINED_VALUE true true false) v) st1 =
          Ret (true, w) st2).
  { destruct (IsBooleanValueEquiv v1) as [[]|]; [exact H|done|exact H]. }
  clear H. unfold rbind in H'. destruct (Evaluate' n e2 _ st1) as [[[] v2] st2'| |] eqn:E2;
    [simpl in H'|by injection H' as ? <- <-|done..].
  exists v1, v2, st1. unfold doLogical, coerce_bool in H'.
  destruct (IsBooleanValueEquiv v1) as [[]|] eqn:B1; [|done|].
  - destruct (IsBooleanValueEquiv v2) as [b2|] eqn:B2; simpl in H'.
    + injection H' as <- <-. by simpl in Hw; simplify_eq.
    + destruct v2; simpl in H'; try done; by injection H' as <- <-.
  - destruct (IsBooleanValueEquiv v2) as [[]|] eqn:B2; destruct v1; simpl in H', B1; try done;
      try (by injection H' as <- <-);
      destruct v2; simpl in H', B2; try done; by injection H' as <- <-.
Qed.

Lemma and_true_intro n sc e1 e2 v v1 v2 st st1 st2 :
  Evaluate' n e1 UNDEFINED_VALUE st = Ret (true, v1) st1 -> IsBooleanValueEquiv v1 = Some true ->
  Evaluate' n e2 UNDEFINED_VALUE st1 = Ret (true, v2) st2 -> IsBooleanValueEquiv v2 = Some true ->
  Evaluate' (S n) (Operation2 sc LOGICAL_AND_OP e1 e2) v st = Ret (true, BOOLEAN_VALUE true) st2.
Proof.
  intros H1 B1 H2 B2. simpl. unfold operation_Evaluate, rbind at 1. rewrite H1. simpl.
  unfold rbind at 1, shortCircuit. rewrite B1. simpl. unfold rbind. rewrite H2. simpl.
  unfold doLogical, coerce_bool. by rewrite B1, B2.
Qed.

(** What the members of a match ClassAd are when it is in use. *)
Definition match_exprs (m : MatchClassAd) : Prop :=
  let sel side := SetParentScope (Some (self m)) (select side "requirements") in
  symmetric_match m = Some (Operation2 (Some (self m)) LOGICAL_AND_OP (sel "RIGHT") (sel "LEFT")) /\
  left_matches_right m = Some (sel "RIGHT") /\
  right_matches_left m = Some (sel "LEFT").

End matching.

(** Distinct addresses. *)
Ltac solve_nodup :=
  rewrite !NoDup_cons, !not_elem_of_cons; repeat split; try done;
    try apply not_elem_of_nil; try constructor.

(** ** Construction *)
#[local] Arguments Insert : simpl never.
#[local] Arguments insert_attr : simpl never.

Lemma Insert_plain h a ad name t :
  nested_ads t = [] -> name <> "" -> h !! a = Some ad ->
  Insert h a name (Some t) = Some (<[a := insert_attr name (SetParentScope (Some a) t) ad]> h, true).
Proof.
  intros Hn Hname Ha. unfold Insert. apply String.eqb_neq in Hname as ->.
  unfold on_ad, scope_nested. rewrite Hn. simpl. by rewrite Ha.
Qed.

Lemma Insert_ad h a ad name c cad :
  name <> "" -> a <> c -> h !! a = Some ad -> h !! c = Some cad ->
  Insert h a name (Some (ClassAdNode c)) =
    Some (<[a := insert_attr name (ClassAdNode c) ad]>
           (<[c := set_parentScope (Some a) cad]> h), true).
Proof.
  intros Hname Hac Ha Hc. unfold Insert. apply String.eqb_neq in Hname as ->.
  unfold on_ad, scope_nested. simpl.
  replace (alter (set_parentScope (Some a)) c h) with (<[c := set_parentScope (Some a) cad]> h).
  - by rewrite lookup_insert_ne, Ha by congruence.
  - apply map_eq. intros x. destruct (decide (x = c)) as [->|].
    + by rewrite lookup_insert_eq, lookup_alter_eq, Hc.
    + by rewrite lookup_insert_ne, lookup_alter_ne.
Qed.

(** Attributes without nested ClassAds. *)
Definition plain_attrs (l : list (string * ExprTree)) : Prop :=
  Forall (fun kv => nested_ads kv.2 = [] /\ kv.1 <> "") l.
Definition with_attrs (a : adref) (l : list (string * ExprTree)) (ad : ClassAd) : ClassAd :=
  foldl (fun ad kv => insert_attr kv.1 (SetParentScope (Some a) kv.2) ad) ad l.

Lemma insert_all_plain a ad h l :
  plain_attrs l -> h !! a = Some ad -> insert_all a h l = Some (<[a := with_attrs a l ad]> h).
Proof.
  intros Hl. revert h ad. induction Hl as [|kv l [Hn Hname] _ IH]; intros h ad Ha;
    unfold insert_all; simpl.
  - by rewrite insert_id.
  - rewrite (Insert_plain _ _ _ _ _ Hn Hname Ha). simpl. unfold insert_all in IH.
    rewrite (IH _ (insert_attr kv.1 (SetParentScope (Some a) kv.2) ad)) by apply lookup_insert_eq.
    by rewrite insert_insert_eq.
Qed.

Lemma copy_tree_plain f h e : nested_ads e = [] -> copy_tree f h e = Some (h, e).
Proof.
  assert (Hlist : forall l, Forall (fun x => nested_ads x = [] -> copy_tree f h x = Some (h, x)) l ->
    concat (nested_ads <$> l) = [] -> map_st (copy_tree f) h l = Some (h, l)).
  { induction 1 as [|x l Hx _ IH]; simpl; [done|]. intros [? ?]%app_eq_nil.
    rewrite Hx by done. simpl. by rewrite IH. }
  induction e using ExprTree_induct; simpl; intros Hn; try done;
    repeat match goal with H : _ ++ _ = [] |- _ => apply app_eq_nil in H as [? ?] end.
  all: try (rewrite IHe by done); try (rewrite IHe1 by done); simpl;
    try (rewrite IHe2 by done); simpl; try (rewrite IHe3 by done); try done.
  all: by rewrite Hlist.
Qed.

Lemma update_loop_plain h a ad l :
  plain_attrs l -> h !! a = Some ad ->
  update_loop h a l = Some (<[a := with_attrs a l ad]> h, true).
Proof.
  intros Hl. revert h ad. induction Hl as [|kv l [Hn Hname] _ IH]; intros h ad Ha; simpl.
  - by rewrite insert_id.
  - unfold copy_entry. rewrite copy_tree_plain by done. simpl.
    rewrite (Insert_plain _ _ _ _ _ Hn Hname Ha). simpl.
    rewrite (IH _ (insert_attr kv.1 (SetParentScope (Some a) kv.2) ad)) by apply lookup_insert_eq.
    by rewrite insert_insert_eq.
Qed.

Lemma build_ad_plain h l :
  plain_attrs l ->
  build_ad h l = Some (<[fresh (dom h) := with_attrs (fresh (dom h)) l new_ClassAd]> h, fresh (dom h)).
Proof.
  intros Hl. unfold build_ad, alloc_ad.
  rewrite (insert_all_plain _ new_ClassAd) by (done || apply lookup_insert_eq). simpl.
  by rewrite insert_insert_eq.
Qed.

Lemma match_attrs_plain a : plain_attrs (attrList (with_attrs a match_attrs new_ClassAd)).
Proof. repeat constructor; discriminate. Qed.
Lemma context_attrs_plain mine theirs : plain_attrs (context_attrs mine theirs).
Proof. repeat constructor; discriminate. Qed.

(** The match ClassAd's own record before the two sides are inserted. *)
Definition base_ad (this lc rc : adref) : ClassAd :=
  insert_attr "rCtx" (ClassAdNode rc)
    (insert_attr "lCtx" (ClassAdNode lc) (with_attrs this match_attrs new_ClassAd)).
Definition context_ad (this c : adref) (mine theirs : string) : ClassAd :=
  set_parentScope (Some this) (with_attrs c (context_attrs mine theirs) new_ClassAd).

#[local] Arguments update_loop : simpl never.
#[local] Arguments build_ad : simpl never.
#[local] Arguments with_attrs : simpl never.
#[local] Arguments Lookup : simpl never.
#[local] Arguments ReplaceLeftAd : simpl never.
#[local] Arguments ReplaceRightAd : simpl never.

Lemma base_exprs this lc rc :
  let sel side := SetParentScope (Some this) (select side "requirements") in
  fm_lookup (attrList (base_ad this lc rc)) "symmetricMatch" =
    Some (Operation2 (Some this) LOGICAL_AND_OP (sel "RIGHT") (sel "LEFT")) /\
  fm_lookup (attrList (base_ad this lc rc)) "rightMatchesLeft" = Some (sel "LEFT") /\
  fm_lookup (attrList (base_ad this lc rc)) "leftMatchesRight" = Some (sel "RIGHT").
Proof. repeat split. Qed.

(** Run an option-monad program without unfolding the operations. *)
Ltac run_option := cbn [mbind option_bind fst snd].

Lemma Init_base old h this al adl adr :
  h !! this = Some new_ClassAd ->
  exists upd lc rc h8, NoDup [this; upd; lc; rc] /\ Forall (fun x => x ∉ dom h) [upd; lc; rc] /\
    h8 = <[this := base_ad this lc rc]> (<[rc := context_ad this rc "RIGHT" "LEFT"]>
           (<[lc := context_ad this lc "LEFT" "RIGHT"]>
             (<[upd := with_attrs upd match_attrs new_ClassAd]> h))) /\
    InitMatchClassAd old h this al adl adr =
      (let '(h9, l) := or_new h8 adl in
       let '(h10, r) := or_new h9 adr in
       let sel side := SetParentScope (Some this) (select side "requirements") in
       let m := mk_MatchClassAd this None None (Some lc) (Some rc) None None al.1 al.2
                  (Some (Operation2 (Some this) LOGICAL_AND_OP (sel "RIGHT") (sel "LEFT")))
                  (Some (sel "LEFT")) (Some (sel "RIGHT")) in
       '(h11, m1, _) ← ReplaceLeftAd old h10 m (Some l);
       '(h12, m2, _) ← ReplaceRightAd old h11 m1 (Some r);
       Some (h12, m2, true)).
Proof.
  intros Hthis. pose (upd := fresh (dom h)). pose (h3 := <[upd := with_attrs upd match_attrs new_ClassAd]> h).
  pose (h4 := <[this := with_attrs this match_attrs new_ClassAd]> h3).
  pose (lc := fresh (dom h4)). pose (h5 := <[lc := with_attrs lc (context_attrs "LEFT" "RIGHT") new_ClassAd]> h4).
  pose (rc := fresh (dom h5)).
  assert (Hu : upd ∉ dom h) by apply is_fresh. assert (Hl : lc ∉ dom h4) by apply is_fresh.
  assert (Hr : rc ∉ dom h5) by apply is_fresh.
  assert (Ht : this ∈ dom h) by (apply elem_of_dom; eauto).
  unfold h5, h4, h3 in Hr. unfold h4, h3 in Hl. rewrite !dom_insert in Hl, Hr.
  assert (D : this <> upd /\ this <> lc /\ this <> rc /\ upd <> lc /\ upd <> rc /\ lc <> rc) by set_solver.
  destruct D as (D1&D2&D3&D4&D5&D6).
  eexists upd, lc, rc, _. split; [|split; [|split; [reflexivity|]]].
  { rewrite !NoDup_cons, !not_elem_of_cons. repeat split; try done; try apply not_elem_of_nil.
    constructor. }
  { repeat constructor; set_solver. }
  unfold InitMatchClassAd, Clear, on_ad. rewrite Hthis. run_option. rewrite lookup_insert_eq. run_option.
  rewrite insert_insert_eq, (insert_id h this) by done.
  rewrite build_ad_plain by (repeat constructor; discriminate). run_option. fold upd. fold h3.
  unfold Update. replace (h3 !! upd) with (Some (with_attrs upd match_attrs new_ClassAd))
    by (symmetry; apply lookup_insert_eq). run_option.
  rewrite (update_loop_plain _ _ new_ClassAd); [|apply match_attrs_plain|by unfold h3; simplify_map_eq].
  run_option. change (with_attrs this (attrList (with_attrs upd match_attrs new_ClassAd)) new_ClassAd)
    with (with_attrs this match_attrs new_ClassAd). fold h4.
  rewrite build_ad_plain by apply context_attrs_plain. run_option. fold lc. fold h5.
  rewrite build_ad_plain by apply context_attrs_plain. run_option. fold rc.
  rewrite (Insert_ad _ _ (with_attrs this match_attrs new_ClassAd) _ lc
    (with_attrs lc (context_attrs "LEFT" "RIGHT") new_ClassAd))
    by (done || unfold h5, h4; by simplify_map_eq). run_option.
  rewrite (Insert_ad _ _ (insert_attr "lCtx" (ClassAdNode lc) (with_attrs this match_attrs new_ClassAd))
    _ rc (with_attrs rc (context_attrs "RIGHT" "LEFT") new_ClassAd))
    by (done || unfold h5, h4; by simplify_map_eq). run_option.
  match goal with |- context [Lookup ?h8 this "symmetricMatch"] =>
    assert (E : h8 = <[this := base_ad this lc rc]> (<[rc := context_ad this rc "RIGHT" "LEFT"]>
      (<[lc := context_ad this lc "LEFT" "RIGHT"]> h3))) end.
  { unfold h5, h4. apply map_eq. intros x.
    destruct (decide (x = this)) as [->|]; [by simplify_map_eq|].
    destruct (decide (x = rc)) as [->|]; [by simplify_map_eq|].
    destruct (decide (x = lc)) as [->|]; by simplify_map_eq. }
  rewrite E. destruct (base_exprs this lc rc) as (L1&L2&L3).
  rewrite (Lookup_here _ _ _ _ _ (lookup_insert_eq _ _ _) L1). run_option.
  rewrite (Lookup_here _ _ _ _ _ (lookup_insert_eq _ _ _) L2). run_option.
  by rewrite (Lookup_here _ _ _ _ _ (lookup_insert_eq _ _ _) L3).
Qed.

(** [alternateScope] as old semantics sets it. *)
Definition alternate (old : bool) (other : option adref) (ad : ClassAd) : ClassAd :=
  if old then set_alternateScope other ad else ad.

Lemma set_alternate_some old a other h ad :
  h !! a = Some ad -> set_alternate old (Some a) other h = Some (<[a := alternate old other ad]> h).
Proof.
  intros Ha. unfold set_alternate, alternate, on_ad. destruct old; [by rewrite Ha|].
  by rewrite insert_id.
Qed.

(** Replacing one side: the ClassAd becomes an attribute of the match ClassAd, in the scope
    of its context. *)
Definition placed (h : heap) (this c x : adref) (name : string) (s cad xad : ClassAd) : heap :=
  <[x := set_parentScope (Some c) xad]> (<[c := set_parentScope (Some this) cad]>
    (<[this := insert_attr name (ClassAdNode x) s]> h)).

Lemma place_side h this c x name s cad xad :
  NoDup [this; c; x] -> name <> "" -> h !! this = Some s -> h !! c = Some cad -> h !! x = Some xad ->
  exists h1 h2, Insert h this name (Some (ClassAdNode x)) = Some (h1, true) /\
    scope_ad c (Some this) h1 = Some h2 /\
    scope_ad x (Some c) h2 = Some (placed h this c x name s cad xad).
Proof.
  intros D Hn Hs Hc Hx. rewrite !NoDup_cons, !not_elem_of_cons in D.
  destruct D as ((D1&D2&_)&(D3&_)&_).
  set (h1 := <[this := insert_attr name (ClassAdNode x) s]> (<[x := set_parentScope (Some this) xad]> h)).
  exists h1, (<[c := set_parentScope (Some this) cad]> h1).
  split; [by apply Insert_ad|]. unfold scope_ad, on_ad.
  assert (E1 : h1 !! c = Some cad) by (unfold h1; by simplify_map_eq).
  assert (E2 : h1 !! x = Some (set_parentScope (Some this) xad)) by (unfold h1; by simplify_map_eq).
  rewrite E1. split; [done|]. rewrite lookup_insert_ne, E2 by done. simpl. f_equal. unfold placed, h1.
  apply map_eq. intros y. destruct (decide (y = x)) as [->|]; [by simplify_map_eq|].
  destruct (decide (y = c)) as [->|]; [by simplify_map_eq|].
  destruct (decide (y = this)) as [->|]; by simplify_map_eq.
Qed.

Lemma ReplaceLeftAd_first old h m c x s cad xad :
  NoDup [self m; c; x] -> lCtx m = Some c -> rad m = None ->
  h !! self m = Some s -> h !! c = Some cad -> h !! x = Some xad ->
  ReplaceLeftAd old h m (Some x) =
    Some (<[x := alternate old None (set_parentScope (Some c) xad)]>
            (placed h (self m) c x "LEFT" s cad xad),
          set_left (Some x) (parentScope xad) m, true).
Proof.
  intros D Hc Hr H1 H2 H3.
  destruct (place_side _ _ _ _ "LEFT" _ _ _ D ltac:(done) H1 H2 H3) as (h1&h2&E1&E2&E3).
  unfold ReplaceLeftAd, ad_scope. rewrite H3. cbn [fmap option_fmap option_map mbind option_bind].
  rewrite E1. run_option. cbn [negb]. rewrite Hc, Hr. run_option. rewrite E2. run_option. rewrite E3.
  run_option. by rewrite (set_alternate_some _ _ _ _ (set_parentScope (Some c) xad)) by apply lookup_insert_eq.
Qed.

Lemma ReplaceRightAd_second old h m c x y s cad xad yad :
  NoDup [self m; c; x; y] -> rCtx m = Some c -> lad m = Some y ->
  h !! self m = Some s -> h !! c = Some cad -> h !! x = Some xad -> h !! y = Some yad ->
  ReplaceRightAd old h m (Some x) =
    Some (<[y := alternate old (Some x) yad]>
            (<[x := alternate old (Some y) (set_parentScope (Some c) xad)]>
              (placed h (self m) c x "RIGHT" s cad xad)),
          set_right (Some x) (parentScope xad) m, true).
Proof.
  intros D Hc Hl H1 H2 H3 H4.
  assert (D' : NoDup [self m; c; x]) by by apply (NoDup_app [self m; c; x] [y]) in D as [? _].
  destruct (place_side _ _ _ _ "RIGHT" _ _ _ D' ltac:(done) H1 H2 H3) as (h1&h2&E1&E2&E3).
  unfold ReplaceRightAd, ad_scope. rewrite H3. cbn [fmap option_fmap option_map mbind option_bind].
  rewrite E1. run_option. cbn [negb]. rewrite Hc, Hl. run_option. rewrite E2. run_option. rewrite E3.
  run_option. rewrite (set_alternate_some _ _ _ _ (set_parentScope (Some c) xad)) by apply lookup_insert_eq.
  run_option. rewrite (set_alternate_some _ _ _ _ yad); [done|].
  rewrite !NoDup_cons, !not_elem_of_cons in D. destruct D as ((?&?&?&_)&(?&?&_)&(?&_)&_).
  unfold placed. by rewrite !lookup_insert_ne by done.
Qed.

(** ** The structure of a match ClassAd

    One side: [c] is its context, found in the match ClassAd; the context names [x] as
    [my] and [ad], the other ClassAd as [target] and [other]. *)
Record side_ok (h : heap) (this c x : adref) (mine theirs : string) : Prop := mk_side_ok {
  side_here : exists ad, h !! this = Some ad /\ fm_ok (attrList ad) /\
    fm_lookup (attrList ad) mine = Some (ClassAdNode x);
  side_ad : exists ad, h !! x = Some ad /\ parentScope ad = Some c;
  side_context : exists ad, h !! c = Some ad /\ parentScope ad = Some this /\
    chained_parent_ad ad = None /\
    attrList ad = attrList (with_attrs c (context_attrs mine theirs) new_ClassAd)
}.

Record match_ad (h : heap) (m : MatchClassAd) (lc rc l r : adref) : Prop := mk_match_ad {
  ma_distinct : NoDup [self m; lc; rc; l; r];
  ma_top : exists ad, h !! self m = Some ad /\ parentScope ad = None /\ chained_parent_ad ad = None;
  ma_members : lad m = Some l /\ rad m = Some r /\ lCtx m = Some lc /\ rCtx m = Some rc;
  ma_exprs : match_exprs m;
  ma_left : side_ok h (self m) lc l "LEFT" "RIGHT";
  ma_right : side_ok h (self m) rc r "RIGHT" "LEFT"
}.

(** The record of the match ClassAd in use. *)
Definition match_record (this lc rc l r : adref) : ClassAd :=
  insert_attr "RIGHT" (ClassAdNode r) (insert_attr "LEFT" (ClassAdNode l) (base_ad this lc rc)).

Lemma match_record_ok this lc rc l r :
  let ad := match_record this lc rc l r in
  fm_ok (attrList ad) /\ fm_lookup (attrList ad) "LEFT" = Some (ClassAdNode l) /\
  fm_lookup (attrList ad) "RIGHT" = Some (ClassAdNode r).
Proof.
  intros ad. split; [|done]. unfold ad, match_record, base_ad. rewrite !insert_attr_attrList.
  repeat apply fm_insert_ok; try done. split; constructor.
Qed.

Lemma insert_attr_scope name t ad : parentScope (insert_attr name t ad) = parentScope ad.
Proof. unfold insert_attr, MarkAttributeDirty. by case_match. Qed.
Lemma with_attrs_fields a l ad :
  parentScope (with_attrs a l ad) = parentScope ad /\
  chained_parent_ad (with_attrs a l ad) = chained_parent_ad ad.
Proof.
  unfold with_attrs. revert ad. induction l as [|kv l IH]; intros ad; simpl; [done|].
  destruct (IH (insert_attr kv.1 (SetParentScope (Some a) kv.2) ad)) as [-> ->].
  by rewrite insert_attr_scope, insert_attr_chain.
Qed.
Lemma match_record_top this lc rc l r :
  let ad := match_record this lc rc l r in parentScope ad = None /\ chained_parent_ad ad = None.
Proof.
  unfold match_record, base_ad. rewrite !insert_attr_scope, !insert_attr_chain.
  apply with_attrs_fields.
Qed.
Lemma context_ad_fields this c mine theirs :
  let ad := context_ad this c mine theirs in
  parentScope ad = Some this /\ chained_parent_ad ad = None /\
  attrList ad = attrList (with_attrs c (context_attrs mine theirs) new_ClassAd).
Proof. split; [done|split; [|done]]. apply (with_attrs_fields c (context_attrs mine theirs)). Qed.

Lemma match_ad_intro h m lc rc l r la ra :
  NoDup [self m; lc; rc; l; r] -> match_exprs m ->
  lad m = Some l -> rad m = Some r -> lCtx m = Some lc -> rCtx m = Some rc ->
  h !! self m = Some (match_record (self m) lc rc l r) ->
  h !! lc = Some (context_ad (self m) lc "LEFT" "RIGHT") ->
  h !! rc = Some (context_ad (self m) rc "RIGHT" "LEFT") ->
  h !! l = Some la -> parentScope la = Some lc -> h !! r = Some ra -> parentScope ra = Some rc ->
  match_ad h m lc rc l r.
Proof.
  intros Hd Hm H1 H2 H3 H4 Hs Hlc Hrc Hl Pl Hr Pr.
  destruct (match_record_ok (self m) lc rc l r) as (Hok&HL&HR).
  destruct (match_record_top (self m) lc rc l r) as [T1 T2].
  split; [exact Hd| |auto|exact Hm|split..].
  - exists (match_record (self m) lc rc l r). split; [exact Hs|split; [exact T1|exact T2]].
  - exists (match_record (self m) lc rc l r). split; [exact Hs|split; [exact Hok|exact HL]].
  - exists la. split; [exact Hl|exact Pl].
  - exists (context_ad (self m) lc "LEFT" "RIGHT"). split; [exact Hlc|apply context_ad_fields].
  - exists (match_record (self m) lc rc l r). split; [exact Hs|split; [exact Hok|exact HR]].
  - exists ra. split; [exact Hr|exact Pr].
  - exists (context_ad (self m) rc "RIGHT" "LEFT"). split; [exact Hrc|apply context_ad_fields].
Qed.

Lemma MakeMatchClassAd_spec old h l r la ra :
  h !! l = Some la -> h !! r = Some ra -> l <> r ->
  exists h' m lc rc,
    MakeMatchClassAd old h (Some l) (Some r) = Some (h', m, true) /\
    match_ad h' m lc rc l r /\
    (self m ∉ dom h /\ lc ∉ dom h /\ rc ∉ dom h) /\
    ladParent m = parentScope la /\ radParent m = parentScope ra /\
    h' !! l = Some (alternate old (Some r) (set_parentScope (Some lc) la)) /\
    h' !! r = Some (alternate old (Some l) (set_parentScope (Some rc) ra)) /\
    (forall x, x ∈ dom h -> x <> l -> x <> r -> h' !! x = h !! x).
Proof.
  intros Hl Hr Hlr. unfold MakeMatchClassAd, alloc_ad. set (this := fresh (dom h)).
  set (h0 := <[this := new_ClassAd]> h).
  assert (Hthis : this ∉ dom h) by apply is_fresh.
  destruct (Init_base old h0 this ("", "") (Some l) (Some r)) as (upd&lc&rc&h8&D&F&E8&->);
    [apply lookup_insert_eq|]. cbn [or_new].
  assert (Hdl : l ∈ dom h) by (apply elem_of_dom; eauto).
  assert (Hdr : r ∈ dom h) by (apply elem_of_dom; eauto).
  rewrite !Forall_cons in F. destruct F as (F1&F2&F3&_). unfold h0 in F1, F2, F3.
  rewrite dom_insert in F1, F2, F3.
  rewrite !NoDup_cons, !not_elem_of_cons in D. destruct D as ((D1&D2&D3&_)&(D4&D5&_)&(D6&_)&_).
  assert (this <> l /\ this <> r /\ lc <> l /\ lc <> r /\ rc <> l /\ rc <> r /\ upd <> l /\ upd <> r)
    as (N1&N2&N3&N4&N5&N6&N7&N8) by set_solver.
  erewrite (ReplaceLeftAd_first _ _ _ lc l (base_ad this lc rc) (context_ad this lc "LEFT" "RIGHT") la);
    [|simpl; solve_nodup|done|done|subst h8 h0; simpl; by simplify_map_eq..].
  run_option.
  match goal with |- context [set_left _ _ ?m] => set (m0 := m) end.
  match goal with |- context [ReplaceRightAd _ ?h1 _ _] => set (h9 := h1) end.
  assert (forall x, x <> this -> x <> lc -> x <> l -> h9 !! x = h8 !! x) as Hother.
  { intros x ???. unfold h9, placed. simpl. by rewrite !lookup_insert_ne by done. }
  erewrite (ReplaceRightAd_second _ _ _ rc r l
    (insert_attr "LEFT" (ClassAdNode l) (base_ad this lc rc)) (context_ad this rc "RIGHT" "LEFT") ra);
    [|simpl; solve_nodup|done|done|..].
  2: { unfold h9, placed. simpl. by simplify_map_eq. }
  2: { rewrite Hother by done. subst h8. by simplify_map_eq. }
  2: { rewrite Hother by done. subst h8 h0. by simplify_map_eq. }
  2: { apply lookup_insert_eq. }
  run_option. simpl. eexists _, _, lc, rc. split; [done|].
  match goal with |- match_ad ?hf ?mf _ _ _ _ /\ _ => set (h10 := hf); set (m2 := mf) end.
  assert (Ll : h10 !! l = Some (alternate old (Some r) (set_parentScope (Some lc) la))).
  { unfold h10. rewrite lookup_insert_eq. by destruct old. }
  assert (Lr : h10 !! r = Some (alternate old (Some l) (set_parentScope (Some rc) ra))).
  { unfold h10. by simplify_map_eq. }
  assert (Lo : forall x, x <> l -> x <> r -> x <> rc -> x <> this -> h10 !! x = h9 !! x).
  { intros. unfold h10, placed. by rewrite !lookup_insert_ne by done. }
  assert (F2' : lc ∉ dom h) by set_solver. assert (F3' : rc ∉ dom h) by set_solver.
  split; [|split; [exact (conj Hthis (conj F2' F3'))|split; [done|split; [done|split; [done|split; [done|]]]]]].
  - refine (match_ad_intro h10 m2 lc rc l r _ _ _ _ eq_refl eq_refl eq_refl eq_refl _ _ _ Ll _ Lr _).
    + solve_nodup.
    + done.
    + change (self m2) with this. unfold h10, placed, match_record.
      rewrite !lookup_insert_ne by done. exact (lookup_insert_eq _ _ _).
    + rewrite Lo by done. unfold h9, placed. rewrite 2!lookup_insert_ne by done. apply lookup_insert_eq.
    + unfold h10, placed. rewrite 2!lookup_insert_ne by done.
      rewrite lookup_insert_ne by done. apply lookup_insert_eq.
    + by destruct old.
    + by destruct old.
  - intros x Hx ??. assert (x <> this /\ x <> lc /\ x <> rc /\ x <> upd) as (?&?&?&?) by set_solver.
    rewrite Lo, Hother by done. subst h8 h0. by rewrite !lookup_insert_ne by done.
Qed.

(** What [MatchClassAd (left, right)] builds from two ClassAds: the match ClassAd has
    them as LEFT and RIGHT at its top level, each in the scope of its own context ClassAd,
    which is in the scope of the match ClassAd and names the ClassAd [my] and the other one
    [target]; the three match expressions are set; the former parent scopes are remembered;
    the two keep their attributes and chained parents and every other ClassAd is unchanged. *)
Theorem MakeMatchClassAd_builds old h l r la ra :
  h !! l = Some la -> h !! r = Some ra -> l <> r ->
  exists h' m lc rc,
    MakeMatchClassAd old h (Some l) (Some r) = Some (h', m, true) /\
    match_ad h' m lc rc l r /\
    (self m ∉ dom h /\ lc ∉ dom h /\ rc ∉ dom h) /\
    ladParent m = parentScope la /\ radParent m = parentScope ra /\
    h' !! l = Some (alternate old (Some r) (set_parentScope (Some lc) la)) /\
    h' !! r = Some (alternate old (Some l) (set_parentScope (Some rc) ra)) /\
    (forall x, x ∈ dom h -> x <> l -> x <> r -> h' !! x = h !! x).
Proof. apply MakeMatchClassAd_spec. Qed.

(** ** Example

    A job [Memory = 4; requirements = target.Memory >= Memory] and a machine
    [Memory = 8; Busy = false; requirements = !Busy && TARGET.memory < 16]. *)
Definition select_target (name : string) : ExprTree :=
  AttributeReference None (Some (ref "target")) name false.
Definition job_ad : ClassAd :=
  with_attrs 1%positive
    [("Memory", IntegerLiteral 4);
     ("requirements", Operation2 None GREATER_OR_EQUAL_OP (select_target "Memory") (ref "Memory"))]
    new_ClassAd.
Definition machine_ad : ClassAd :=
  with_attrs 2%positive
    [("Memory", IntegerLiteral 8); ("Busy", BooleanLiteral false);
     ("requirements", Operation2 None LOGICAL_AND_OP (Operation1 None LOGICAL_NOT_OP (ref "Busy"))
        (Operation2 None LESS_THAN_OP (select_target "memory") (IntegerLiteral 16)))]
    new_ClassAd.
Definition example_store : heap := <[1%positive := job_ad]> (<[2%positive := machine_ad]> ∅).
Definition no_match_ad : MatchClassAd :=
  mk_MatchClassAd 1%positive None None None None None None "" "" None None None.
Definition match_example : heap * MatchClassAd :=
  match MakeMatchClassAd false example_store (Some 1%positive) (Some 2%positive) with
  | Some (h, m, _) => (h, m)
  | None => (∅, no_match_ad)
  end.
Definition idle_state : EvalState := mk_EvalState 0 None None false.


Lemma MakeMatchClassAd_builds_witness :
  exists h' m lc rc,
    MakeMatchClassAd false example_store (Some 1%positive) (Some 2%positive) = Some (h', m, true) /\
    match_ad h' m lc rc 1%positive 2%positive.
Proof.
  destruct (MakeMatchClassAd_builds false example_store 1%positive 2%positive job_ad machine_ad)
    as (h'&m&lc&rc&E&Hm&_); [reflexivity|reflexivity|discriminate|].
  exists h', m, lc, rc. split; [exact E|exact Hm].
Defined.
