(* ===== verification/MatchLaws.v ===== *)
(** * Match ClassAds: names resolved through the contexts, removal, and a complete match *)
From Stdlib Require Import ZArith Lia Ascii String.
From stdpp Require Import base list gmap strings fin_maps.
From S2P Require Import Prelude Double Tree Values Operators OperatorFacts FlatMap AdStore.
From S2P Require Import AdStoreFacts AdStoreLaws Eval EvalFacts EvalLaws MatchClassAd MatchFacts.

Open Scope res_scope.

Lemma fm_lookup_key {V} (l : list (string * V)) n1 n2 :
  fm_ok l -> nul_free n1 -> nul_free n2 -> attr_key n1 = attr_key n2 ->
  fm_lookup l n1 = fm_lookup l n2.
Proof. intros Hok H1 H2 E. by rewrite !fm_lookup_spec, E. Qed.

(** ** One lookup *)
Section lookup.
Variable oldSemantics : bool.
Variable functionTable : string -> option ClassAdFunc.

(** One round of the lookup. *)
Lemma LookupInScope_step n this name c h s :
  LookupInScope_n oldSemantics (S n) this name (Some c) (h, s) =
    match Lookup h c name with
    | None => NoFuel
    | Some (Some t) => Ret (EVAL_OK t) (h, set_curAd (Some c) s)
    | Some None =>
        match h !! c with
        | None => NoFuel
        | Some ad =>
            let superScope := if bool_decide (rootAd s = Some c) then None else parentScope ad in
            if is_special oldSemantics name
            then Ret (special_lookup name (rootAd s) c superScope) (h, set_curAd (Some c) s)
            else if bool_decide (superScope = Some this)
            then Ret EVAL_UNDEF (h, set_curAd (Some c) s)
            else LookupInScope_n oldSemantics n this name superScope (h, set_curAd (Some c) s)
        end
    end.
Proof.
  cbn [LookupInScope_n]. unfold rbind, modify_state, read_heap, get_state, rret. cbn [fst snd].
  destruct (Lookup h c name) as [[t|]|]; [done| |done]. cbn [fst snd].
  destruct (h !! c) as [ad|]; [|done]. cbn [fmap option_fmap option_map fst snd].
  change (rootAd (set_curAd (Some c) s)) with (rootAd s).
  destruct (is_special _ _); [done|]. by destruct (bool_decide (_ = Some this)).
Qed.

(** Found in the ClassAd itself. *)
Lemma LookupInScope_here h s a name t :
  Lookup h a name = Some (Some t) ->
  LookupInScope oldSemantics a name (h, s) = Ret (EVAL_OK t) (h, set_curAd (Some a) s).
Proof. intros H. unfold LookupInScope. by rewrite LookupInScope_step, H. Qed.

(** Found in the ClassAd's scope. *)
Lemma LookupInScope_up h s a ad c name t :
  h !! a = Some ad -> parentScope ad = Some c -> rootAd s <> Some a -> c <> a ->
  is_special oldSemantics name = false ->
  Lookup h a name = Some None -> Lookup h c name = Some (Some t) ->
  LookupInScope oldSemantics a name (h, s) = Ret (EVAL_OK t) (h, set_curAd (Some c) s).
Proof.
  intros Ha Hc Hr Hne Hsp H1 H2. unfold LookupInScope. cbn [fst].
  destruct (size h) as [|k] eqn:Hk.
  { apply map_size_empty_inv in Hk. by rewrite Hk in Ha. }
  rewrite LookupInScope_step, H1, Ha, Hsp, Hc, bool_decide_false by done. cbn zeta.
  rewrite bool_decide_false by congruence. by rewrite LookupInScope_step, H2.
Qed.

(** A special name, not defined by the ClassAd. *)
Lemma LookupInScope_my h s a ad name :
  h !! a = Some ad -> oldSemantics = true -> attr_key name = "my" -> Lookup h a name = Some None ->
  LookupInScope oldSemantics a name (h, s) = Ret (EVAL_OK (ClassAdNode a)) (h, set_curAd (Some a) s).
Proof.
  intros Ha Hold Hn H. unfold LookupInScope. rewrite LookupInScope_step, H, Ha. cbn zeta.
  unfold is_special, special_lookup, is_name. rewrite Hn, Hold. by rewrite bool_decide_true by set_solver.
Qed.

(** Evaluating a name found as [t] in [c] evaluates [t] there. *)
Lemma attrref_found n sc name (absolute : bool) from (h : heap) s c t x v :
  (if absolute then rootAd s else curAd s) = Some from -> is_Some (h !! from) ->
  LookupInScope oldSemantics from name (h, s) = Ret (EVAL_OK t) (h, set_curAd (Some c) s) ->
  (0 < depth_remaining s)%Z ->
  (forall s', s' = set_depth (depth_remaining s - 1)%Z (set_curAd (Some c) s) ->
     Evaluate oldSemantics functionTable n t v (h, s') = Ret (true, x) (h, s')) ->
  Evaluate oldSemantics functionTable (S n) (AttributeReference sc None name absolute) v (h, s) =
    Ret (true, x) (h, s).
Proof.
  intros Hfrom [fad Hfad] Hl Hd Hev.
  assert (Hfind : FindExpr oldSemantics (Evaluate oldSemantics functionTable n) None name absolute
            (h, s) = Ret (EVAL_OK t) (h, set_curAd (Some c) s)).
  { assert (Hs : search_scopes oldSemantics None name absolute (Some from) (h, s) =
      Ret (EVAL_OK t) (h, set_curAd (Some c) s)).
    { unfold search_scopes, rbind. rewrite Hl. unfold read_heap, rret. cbn [fst snd]. rewrite Hfad.
      cbn [fmap option_fmap option_map]. by destruct absolute, (alternateScope fad). }
    unfold FindExpr, rbind, get_state. cbn [fst snd]. destruct absolute; by rewrite Hfrom. }
  cbn [Evaluate]. unfold attrref_Evaluate, rbind, get_state, modify_state, rret. cbn [fst snd].
  rewrite Hfind. cbn [fst snd]. replace (depth_remaining (set_curAd (Some c) s) <=? 0)%Z with false
    by (simpl; symmetry; apply Z.leb_gt; lia).
  change (depth_remaining (set_curAd (Some c) s)) with (depth_remaining s).
  cbn [fst snd]. rewrite (Hev _ eq_refl). cbn [fst snd]. change (depth_remaining (set_depth ?d _)) with d.
  f_equal. f_equal. destruct s. unfold set_curAd, set_depth. simpl. f_equal. lia.
Qed.
End lookup.

(** ** Names of the contexts *)
Section contexts.
Variable oldSemantics : bool.
Variable functionTable : string -> option ClassAdFunc.

(** The match ClassAd seen from one side: [x] is this side's ClassAd, [y] the other one. *)
Record seen_from (h : heap) (this c x y : adref) (mine theirs : string) : Prop := mk_seen {
  seen_side : side_ok h this c x mine theirs;
  seen_other : exists ad, h !! this = Some ad /\ fm_lookup (attrList ad) theirs = Some (ClassAdNode y);
  seen_distinct : this <> x /\ c <> x
}.

Lemma match_ad_left h m lc rc l r :
  match_ad h m lc rc l r -> seen_from h (self m) lc l r "LEFT" "RIGHT".
Proof.
  intros [D _ _ _ HL HR]. rewrite !NoDup_cons, !not_elem_of_cons in D. destruct HR as [(ad&?&_&?) _ _].
  split; [done|by exists ad|intuition].
Qed.
Lemma match_ad_right h m lc rc l r :
  match_ad h m lc rc l r -> seen_from h (self m) rc r l "RIGHT" "LEFT".
Proof.
  intros [D _ _ _ HL HR]. rewrite !NoDup_cons, !not_elem_of_cons in D. destruct HL as [(ad&?&_&?) _ _].
  split; [done|by exists ad|intuition].
Qed.

(** [.LEFT] and [.RIGHT] *)
Lemma absref_evaluates n sc h s this ad side x v :
  rootAd s = Some this -> h !! this = Some ad ->
  fm_lookup (attrList ad) side = Some (ClassAdNode x) -> (0 < depth_remaining s)%Z ->
  Evaluate oldSemantics functionTable (S (S n)) (AttributeReference sc None side true) v (h, s) =
    Ret (true, CLASSAD_VALUE x) (h, s).
Proof.
  intros Hr Ha Hf Hd. apply (attrref_found _ _ _ _ _ _ this _ _ this (ClassAdNode x)); try done.
  apply LookupInScope_here. by eapply Lookup_here.
Qed.

Lemma context_lookup c mine theirs name target :
  nul_free name -> nul_free target -> attr_key name = attr_key target ->
  fm_lookup (attrList (with_attrs c (context_attrs mine theirs) new_ClassAd)) name =
  fm_lookup (attrList (with_attrs c (context_attrs mine theirs) new_ClassAd)) target.
Proof.
  intros. apply fm_lookup_key; try done. repeat apply fm_insert_ok; try done. split; constructor.
Qed.

(** A name the context defines, used in the scope of the side's ClassAd. *)
Lemma context_name_evaluates n sc h s this c x y mine theirs name target side z v :
  seen_from h this c x y mine theirs -> rootAd s = Some this -> curAd s = Some x ->
  (1 < depth_remaining s)%Z -> nul_free name -> nul_free target -> attr_key name = attr_key target ->
  is_special oldSemantics name = false -> Lookup h x name = Some None ->
  fm_lookup (attrList (with_attrs c (context_attrs mine theirs) new_ClassAd)) target =
    Some (AttributeReference (Some c) None side true) ->
  (exists ad, h !! this = Some ad /\ fm_lookup (attrList ad) side = Some (ClassAdNode z)) ->
  Evaluate oldSemantics functionTable (S (S (S n))) (AttributeReference sc None name false) v (h, s) =
    Ret (true, CLASSAD_VALUE z) (h, s).
Proof.
  intros [[_ (xad&Hx&Hxs) (cad&Hc&Hcs&_&Hca)] _ [D1 D2]] Hr Hcur Hd Hn Ht Hk Hsp Hl Hctx (ad&Ha&Hside).
  eapply (attrref_found _ _ _ _ _ _ x _ _ c); [done|by exists xad| |lia|].
  - eapply LookupInScope_up; [exact Hx|exact Hxs|congruence|done|done|done|].
    eapply Lookup_here; [exact Hc|]. rewrite Hca, (context_lookup _ _ _ _ target) by done. exact Hctx.
  - intros s' ->. apply absref_evaluates with this ad; simpl; try done. lia.
Qed.

(** C15: In a match ClassAd, evaluation in the scope of one of the two ClassAds resolves
    [target] and [other] to the opposite ClassAd and [my] and [ad] to the ClassAd itself,
    in any spelling, provided the ClassAd and its chain do not define the name; the
    evaluation state is as before. In old semantics [my] is resolved as a special name. *)
Theorem context_resolution h m lc rc l r x y s sc name v n :
  match_ad h m lc rc l r -> (x = l /\ y = r) \/ (x = r /\ y = l) ->
  rootAd s = Some (self m) -> curAd s = Some x -> (1 < depth_remaining s)%Z ->
  nul_free name -> Lookup h x name = Some None ->
  let eval := Evaluate oldSemantics functionTable (3 + n) (AttributeReference sc None name false) v (h, s) in
  (attr_key name ∈ ["target"; "other"] -> eval = Ret (true, CLASSAD_VALUE y) (h, s)) /\
  (attr_key name ∈ ["my"; "ad"] -> eval = Ret (true, CLASSAD_VALUE x) (h, s)).
Proof.
  intros Hm Hxy Hr Hcur Hd Hn Hl eval.
  assert (exists c mine theirs, seen_from h (self m) c x y mine theirs) as (c&mine&theirs&Hseen).
  { destruct Hxy as [[-> ->]|[-> ->]]; eauto using match_ad_left, match_ad_right. }
  assert (Hspecial : attr_key name ∈ ["target"; "other"; "ad"] -> is_special oldSemantics name = false).
  { intros Hin. apply bool_decide_false. rewrite !elem_of_cons in Hin. unfold specialAttrNames.
    destruct Hin as [->|[->|[->|[]%elem_of_nil]]]; destruct oldSemantics; simpl; set_solver. }
  assert (Hmy : attr_key name = "my" -> oldSemantics = false -> is_special oldSemantics name = false).
  { intros E ->. apply bool_decide_false. rewrite E. simpl. set_solver. }
  assert (Hctx : forall target side z, attr_key name = attr_key target -> nul_free target ->
    is_special oldSemantics name = false ->
    fm_lookup (attrList (with_attrs c (context_attrs mine theirs) new_ClassAd)) target =
      Some (AttributeReference (Some c) None side true) ->
    (exists ad, h !! self m = Some ad /\ fm_lookup (attrList ad) side = Some (ClassAdNode z)) ->
    eval = Ret (true, CLASSAD_VALUE z) (h, s)).
  { intros target side z E1 E2 E3 E4 E5.
    exact (context_name_evaluates n sc h s _ _ _ _ _ _ name target side z v Hseen Hr Hcur Hd Hn E2 E1 E3 Hl E4 E5). }
  destruct Hseen as [[(ad&Ha&_&Hmine) (xad&Hx&_) _] Hother _].
  rewrite !elem_of_cons. split; intros [E|[E|[]%elem_of_nil]].
  - apply (Hctx "target" theirs y E); [done|apply Hspecial; rewrite E; set_solver|done|exact Hother].
  - apply (Hctx "other" theirs y E); [done|apply Hspecial; rewrite E; set_solver|done|exact Hother].
  - destruct (Bool.bool_dec oldSemantics true) as [Hold|Hold%not_true_is_false].
    + eapply (attrref_found _ _ _ _ _ _ x _ _ x (ClassAdNode x)); [done|by exists xad| |lia|done].
      by apply LookupInScope_my with xad.
    + apply (Hctx "my" mine x E); [done|by apply Hmy|done|by exists ad].
  - apply (Hctx "ad" mine x E); [done|apply Hspecial; rewrite E; set_solver|done|by exists ad].
Qed.
End contexts.

(** ** Removal *)
Lemma Remove_ad h a name ad c cad :
  h !! a = Some ad -> chained_parent_ad ad = None ->
  fm_lookup (attrList ad) name = Some (ClassAdNode c) -> a <> c -> h !! c = Some cad ->
  Remove h a name =
    Some (<[c := set_parentScope None cad]> (<[a := erase_attr name ad]> h), Some (ClassAdNode c)).
Proof.
  intros Ha Hch Hl Hne Hc. unfold Remove. rewrite Ha. cbn [mbind option_bind]. rewrite Hl.
  assert (E : scope_nested None (ClassAdNode c) (<[a := erase_attr name ad]> h) =
              <[c := set_parentScope None cad]> (<[a := erase_attr name ad]> h)).
  { apply map_eq. intros x. rewrite scope_nested_lookup. simpl. destruct (decide (x ∈ [c])) as [Hx|Hx].
    - apply list_elem_of_singleton in Hx as ->. by rewrite lookup_insert_eq, lookup_insert_ne, Hc by done.
    - rewrite list_elem_of_singleton in Hx. by rewrite (lookup_insert_ne _ c), option_fmap_id by done. }
  rewrite E. unfold parent_lookup. rewrite lookup_insert_ne, lookup_insert_eq by done.
  cbn [mbind option_bind]. change (chained_parent_ad (erase_attr name ad)) with (chained_parent_ad ad).
  by rewrite Hch.
Qed.

(** The match ClassAd without one side. *)
Definition released (old : bool) (h : heap) (this x : adref) (name : string) (s xad : ClassAd)
    (parent other : option adref) : heap :=
  let put := <[x := set_parentScope parent xad]> (<[this := erase_attr name s]> h) in
  match other with
  | Some y =>
      match h !! y with
      | Some yad =>
          <[y := alternate old None yad]>
            (<[x := alternate old None (set_parentScope parent xad)]> (<[this := erase_attr name s]> h))
      | None => put
      end
  | None => put
  end.

Lemma release_spec old h this x name s xad parent other :
  this <> x -> (forall y, other = Some y -> y <> x /\ y <> this /\ is_Some (h !! y)) ->
  release old (Some x) parent other
    (<[x := set_parentScope None xad]> (<[this := erase_attr name s]> h)) =
  Some (released old h this x name s xad parent other).
Proof.
  intros Hne Hother. unfold release, scope_ad, on_ad, released. rewrite lookup_insert_eq.
  cbn [mbind option_bind]. rewrite insert_insert_eq.
  change (set_parentScope parent (set_parentScope None xad)) with (set_parentScope parent xad).
  destruct other as [y|]; [|done]. destruct (Hother y eq_refl) as (H1&H2&[yad Hy]). rewrite Hy.
  rewrite (set_alternate_some _ _ _ _ (set_parentScope parent xad)) by apply lookup_insert_eq.
  cbn [mbind option_bind]. rewrite insert_insert_eq.
  rewrite (set_alternate_some _ _ _ _ yad); [done|]. by rewrite !lookup_insert_ne by done.
Qed.

Lemma RemoveLeftAd_spec old h m l r s xad :
  lad m = Some l -> rad m = Some r -> NoDup [self m; l; r] ->
  h !! self m = Some s -> chained_parent_ad s = None ->
  fm_lookup (attrList s) "LEFT" = Some (ClassAdNode l) ->
  h !! l = Some xad -> is_Some (h !! r) ->
  RemoveLeftAd old h m =
    Some (released old h (self m) l "LEFT" s xad (ladParent m) (Some r), set_left None None m, Some l).
Proof.
  intros H1 H2 D Hs Hch Hf Hl Hr. rewrite !NoDup_cons, !not_elem_of_cons in D.
  destruct D as ((D1&D2&_)&(D3&_)&_).
  unfold RemoveLeftAd. rewrite (Remove_ad _ _ _ _ _ _ Hs Hch Hf D1 Hl). cbn [mbind option_bind].
  rewrite H1, H2, (release_spec _ _ _ _ _ _ _ _ _ D1); [done|]. intros y [= ->]. done.
Qed.

Lemma RemoveRightAd_last old h m r s xad :
  lad m = None -> rad m = Some r -> self m <> r ->
  h !! self m = Some s -> chained_parent_ad s = None ->
  fm_lookup (attrList s) "RIGHT" = Some (ClassAdNode r) -> h !! r = Some xad ->
  RemoveRightAd old h m =
    Some (released old h (self m) r "RIGHT" s xad (radParent m) None, set_right None None m, Some r).
Proof.
  intros H1 H2 D Hs Hch Hf Hr.
  unfold RemoveRightAd. rewrite (Remove_ad _ _ _ _ _ _ Hs Hch Hf D Hr). cbn [mbind option_bind].
  rewrite H1, H2, (release_spec _ _ _ _ _ _ _ _ _ D); [done|]. by intros y [=].
Qed.

Lemma Lookup_absent h a ad name :
  h !! a = Some ad -> chained_parent_ad ad = None -> fm_lookup (attrList ad) name = None ->
  Lookup h a name = Some None.
Proof.
  intros Ha Hc Hf. unfold Lookup. destruct (size h) as [|k] eqn:Hk.
  - apply map_size_empty_inv in Hk. by rewrite Hk in Ha.
  - simpl. by rewrite Ha; simpl; rewrite Hf, Hc.
Qed.

Lemma alternate_undo old other s c ad :
  alternate old None (set_parentScope (parentScope ad) (alternate old other (set_parentScope c s))) =
  alternate old None (set_parentScope (parentScope ad) s).
Proof. by destruct old. Qed.

(** A match ClassAd gives its ClassAds back: after [MatchClassAd (left, right)],
    [RemoveLeftAd] and [RemoveRightAd] return the two, with the attributes, chained parent
    and parent scope they had; no other ClassAd that existed before has changed, and the
    match ClassAd has neither LEFT nor RIGHT. In old semantics the alternate scope of both
    is cleared. *)
Theorem removal_restores old h l r la ra :
  h !! l = Some la -> h !! r = Some ra -> l <> r ->
  exists h1 m1 h2 m2 h3 m3,
    MakeMatchClassAd old h (Some l) (Some r) = Some (h1, m1, true) /\
    RemoveLeftAd old h1 m1 = Some (h2, m2, Some l) /\
    RemoveRightAd old h2 m2 = Some (h3, m3, Some r) /\
    h3 !! l = Some (alternate old None la) /\ h3 !! r = Some (alternate old None ra) /\
    (forall x, x ∈ dom h -> x <> l -> x <> r -> h3 !! x = h !! x) /\
    Lookup h3 (self m3) "LEFT" = Some None /\ Lookup h3 (self m3) "RIGHT" = Some None /\
    lad m3 = None /\ rad m3 = None.
Proof.
  intros Hl Hr Hlr.
  destruct (MakeMatchClassAd_spec old h l r la ra Hl Hr Hlr)
    as (h1&m1&lc&rc&E1&Hm&(Hnew&_)&Pl&Pr&Ll&Lr&Lo).
  destruct Hm as [D (s&Hs&Hps&Hch) (M1&M2&_) _ HL HR].
  destruct HL as [(s1&Hs1&Hok&HfL) _ _], HR as [(s2&Hs2&_&HfR) _ _].
  simplify_eq. rewrite !NoDup_cons, !not_elem_of_cons in D.
  assert (self m1 <> l /\ self m1 <> r /\ l <> r) as (D1&D2&D3) by intuition.
  eexists h1, m1, _, _, _, _. split; [done|]. split.
  { apply (RemoveLeftAd_spec old h1 m1 l r s (alternate old (Some r) (set_parentScope (Some lc) la)) M1 M2);
      try done. solve_nodup. }
  cbn [released]. unfold released. rewrite Lr.
  set (h2 := <[r := _]> _). set (s' := erase_attr "LEFT" s).
  assert (L2 : h2 !! self m1 = Some s') by (unfold h2; by simplify_map_eq).
  assert (Lr2 : h2 !! r = Some (alternate old None (set_parentScope (Some rc) ra))).
  { unfold h2. rewrite lookup_insert_eq. by destruct old. }
  assert (Hok' : fm_ok (attrList s')) by (by apply fm_erase_spec).
  assert (HfR' : fm_lookup (attrList s') "RIGHT" = Some (ClassAdNode r)).
  { unfold s'. simpl. by rewrite fm_lookup_erase, decide_False by done. }
  split. { exact (RemoveRightAd_last old h2 (set_left None None m1) r s' _ eq_refl M2 D2 L2 Hch HfR' Lr2). }
  cbn [released]. unfold released. set (h3 := <[r := _]> _).
  cbn [radParent set_left self set_right lad rad] in *.
  assert (L3 : h3 !! self m1 = Some (erase_attr "RIGHT" s')).
  { unfold h3. by rewrite lookup_insert_ne, lookup_insert_eq by done. }
  split_and!; try done.
  - unfold h3. rewrite Pl. simplify_map_eq. by rewrite alternate_undo; destruct old, la.
  - unfold h3. rewrite Pr. simplify_map_eq. by destruct old, ra.
  - intros x Hx ??. assert (x <> self m1) by congruence. unfold h3, h2. simplify_map_eq. auto.
  - eapply Lookup_absent; [exact L3|done|]. simpl.
    rewrite !fm_lookup_erase by (done || by apply fm_erase_spec). done.
  - eapply Lookup_absent; [exact L3|done|]. simpl.
    rewrite fm_lookup_erase by done. done.
Qed.

Lemma match_example_ad :
  exists lc rc, match_ad match_example.1 match_example.2 lc rc 1%positive 2%positive.
Proof.
  destruct (MakeMatchClassAd_spec false example_store 1%positive 2%positive job_ad machine_ad)
    as (h'&m&lc&rc&E&Hm&_); [reflexivity|reflexivity|discriminate|].
  exists lc, rc. unfold match_example. rewrite E. exact Hm.
Qed.

Lemma context_resolution_witness :
  let s := mk_EvalState MAX_CLASSAD_RECURSION (Some (self match_example.2)) (Some 1%positive) false in
  Evaluate false no_functions 3 (AttributeReference None None "TARGET" false) UNDEFINED_VALUE
    (match_example.1, s) = Ret (true, CLASSAD_VALUE 2%positive) (match_example.1, s).
Proof.
  intros s. destruct match_example_ad as (lc&rc&Hm).
  apply (context_resolution false no_functions match_example.1 match_example.2 lc rc 1%positive
    2%positive 1%positive 2%positive s None "TARGET" UNDEFINED_VALUE 0 Hm);
    [by left|reflexivity|reflexivity|reflexivity|reflexivity|vm_compute; reflexivity|].
  apply list_elem_of_here.
Defined.

Lemma removal_restores_witness :
  exists h1 m1 h2 m2 h3 m3,
    MakeMatchClassAd false example_store (Some 1%positive) (Some 2%positive) = Some (h1, m1, true) /\
    RemoveLeftAd false h1 m1 = Some (h2, m2, Some 1%positive) /\
    RemoveRightAd false h2 m2 = Some (h3, m3, Some 2%positive) /\
    h3 !! 1%positive = Some job_ad.
Proof.
  destruct (removal_restores false example_store 1%positive 2%positive job_ad machine_ad)
    as (h1&m1&h2&m2&h3&m3&E1&E2&E3&E4&_); [reflexivity|reflexivity|discriminate|].
  exists h1, m1, h2, m2, h3, m3. split; [exact E1|split; [exact E2|split; [exact E3|exact E4]]].
Defined.
