(* ===== verification/ParserFacts.v ===== *)
(** * The parser: every call returns

    On any source of tokens that is used up, [parseExpression] and [parseClassAd] return,
    with fuel that depends on what is left of the source and on [MAX_PARSE_DEPTH] only. *)
From Stdlib Require Import ZArith Lia Ascii String.
From stdpp Require Import base list gmap strings.
From S2P Require Import Prelude Double Numerals Tree Values Lexer FlatMap AdStore AdStoreFacts Parser Unparser LexerFacts LexerProgress.

Open Scope res_scope.

(** What the parser needs of its source to return: [remaining] bounds the tokens before the
    end of input, and a token that was looked at ([pending]) is consumed next. *)
Class TokenProgress (L : Type) `{TokenSource L} := {
  remaining : L -> nat;
  pending : L -> Token -> Prop;
  peek_returns l : exists t l', peek l = Some (t, l') /\ (remaining l' <= remaining l)%nat /\ pending l' t;
  consume_returns l : exists t l', consume l = Some (t, l') /\ (remaining l' <= remaining l)%nat /\
    (t <> LEX_END_OF_INPUT -> remaining l' < remaining l)%nat;
  consume_pending l t : pending l t -> exists l', consume l = Some (t, l')
}.

Section returns.
Context {L : Type} `{HL : TokenSource L} `{!TokenProgress L}.
Variable oldSemantics : bool.
Variables MakeAbsTime MakeRelTime : string -> option ExprTree.
Abbreviation P A := (heap * L -> Res (heap * L) A).

(** [m] returns from [st], frees no ClassAd and gives back no token; [Q] holds of its result and
    of the tokens that remain. *)
Definition ends {A} (m : P A) (st : heap * L) (Q : A -> heap * L -> Prop) : Prop :=
  exists a st', m st = Ret a st' /\ dom st.1 ⊆ dom st'.1 /\ (remaining st'.2 <= remaining st.2)%nat /\ Q a st'.

Lemma parse_ends_ret {A} (a : A) st (Q : A -> heap * L -> Prop) : Q a st -> ends (rret a) st Q.
Proof. intros H. by exists a, st. Qed.
Lemma parse_ends_bind {A B} (m : P A) (k : A -> P B) st Q1 (Q2 : B -> heap * L -> Prop) :
  ends m st Q1 ->
  (forall a st1, dom st.1 ⊆ dom st1.1 -> (remaining st1.2 <= remaining st.2)%nat -> Q1 a st1 -> ends (k a) st1 Q2) ->
  ends (rbind m k) st Q2.
Proof.
  intros (a&st1&E1&D1&R1&HQ) Hk. destruct (Hk a st1 D1 R1 HQ) as (b&st2&E2&D2&R2&HQ2).
  exists b, st2. unfold rbind. rewrite E1. split_and!; [done|by etrans|lia|done].
Qed.
Lemma ends_weaken {A} (m : P A) st (Q1 Q2 : A -> heap * L -> Prop) :
  ends m st Q1 -> (forall a st1, dom st.1 ⊆ dom st1.1 -> (remaining st1.2 <= remaining st.2)%nat -> Q1 a st1 -> Q2 a st1) ->
  ends m st Q2.
Proof. intros (a&st1&E1&D1&R1&HQ) H. exists a, st1. split_and!; auto. Qed.

Lemma ends_peek st : ends PeekTok st (fun t st1 => pending st1.2 t).
Proof.
  destruct st as [h l]. destruct (peek_returns l) as (t&l'&E&Hr&Hp).
  exists t, (h, l'). unfold PeekTok, on_tokens. simpl. by rewrite E.
Qed.
Lemma ends_consume st :
  ends ConsumeTok st (fun t st1 => t <> LEX_END_OF_INPUT -> remaining st1.2 < remaining st.2)%nat.
Proof.
  destruct st as [h l]. destruct (consume_returns l) as (t&l'&E&Hr&Hp).
  exists t, (h, l'). unfold ConsumeTok, on_tokens. simpl. by rewrite E.
Qed.
Lemma ends_consume_pending st t :
  pending st.2 t ->
  ends ConsumeTok st (fun t' st1 => t' = t /\ (t <> LEX_END_OF_INPUT -> remaining st1.2 < remaining st.2)%nat).
Proof.
  intros Hp. destruct st as [h l]. destruct (consume_pending l t Hp) as (l1&E1).
  destruct (consume_returns l) as (t'&l'&E&Hr&Hp'). rewrite E1 in E. injection E as <- <-.
  exists t, (h, l1). unfold ConsumeTok, on_tokens. simpl. by rewrite E1.
Qed.

(** A parser that returns a tree has consumed a token. *)
Definition parsed {A} (st : heap * L) (r : option A) (st1 : heap * L) : Prop :=
  (is_Some r -> remaining st1.2 < remaining st.2)%nat.
Definition good_parser {A} (N : nat) (m : P (option A)) : Prop :=
  forall st, (remaining st.2 <= N)%nat -> ends m st (parsed st).


Definition any {A} : A -> heap * L -> Prop := fun _ _ => True.
Lemma none_parsed {A} st st1 : parsed st (None : option A) st1.
Proof. by intros [? ?]. Qed.
Hint Resolve none_parsed : core.

Lemma binary_loop_ends N next op_of : op_of LEX_END_OF_INPUT = None -> good_parser N next ->
  forall n st tree, (remaining st.2 <= N)%nat -> (remaining st.2 < n)%nat ->
  ends (binary_loop n op_of next tree) st any.
Proof.
  intros Hend Hnext. induction n as [|n IH]; intros st tree HN Hn; [lia|]. cbn [binary_loop].
  eapply parse_ends_bind; [apply ends_peek|]. intros t st1 D1 R1 Hp.
  destruct (op_of t) as [op|] eqn:E; [|by apply parse_ends_ret].
  eapply parse_ends_bind; [by apply (ends_consume_pending _ _ Hp)|]. intros t' st2 D2 R2 [_ Ht].
  assert (Hne : t <> LEX_END_OF_INPUT) by congruence. specialize (Ht Hne).
  eapply parse_ends_bind; [apply Hnext; lia|]. intros r st3 D3 R3 _.
  destruct (MakeOperation _ _ _ _); [apply IH; lia|by apply parse_ends_ret].
Qed.

Lemma parse_level_good N n next op_of : op_of LEX_END_OF_INPUT = None -> (N < n)%nat ->
  good_parser N next -> good_parser N (parse_level n op_of next).
Proof.
  intros Hend Hn Hnext st HN. unfold parse_level. eapply parse_ends_bind; [by apply Hnext|].
  intros [tree|] st1 D1 R1 Hp; [|by apply parse_ends_ret].
  eapply ends_weaken; [apply (binary_loop_ends N next op_of); (done || lia)|].
  intros r st2 D2 R2 _ _. specialize (Hp (mk_is_Some _ _ eq_refl)). lia.
Qed.

Section loops.
Variable N : nat.
Variable parse_expr : P (option ExprTree).
Hypothesis parse_expr_good : good_parser N parse_expr.

(** Consume the token that is pending, and go on. *)
Lemma ends_then_consume {B} st t (k : Token -> P B) Q :
  pending st.2 t -> t <> LEX_END_OF_INPUT ->
  (forall st1, dom st.1 ⊆ dom st1.1 -> (remaining st1.2 < remaining st.2)%nat -> ends (k t) st1 Q) ->
  ends (rbind ConsumeTok k) st Q.
Proof.
  intros Hp Ht Hk. eapply parse_ends_bind; [by apply (ends_consume_pending _ _ Hp)|].
  intros t' st1 D1 R1 [-> Hr]. apply Hk; auto.
Qed.

(** The loops over items: each item uses up a token. *)
Lemma arguments_loop_ends n : forall st tk argList,
  (remaining st.2 <= N)%nat -> (remaining st.2 + 1 < n)%nat ->
  ends (arguments_loop oldSemantics parse_expr n tk argList) st any.
Proof.
  induction n as [|n IH]; intros st tk argList HN Hn; [lia|]. cbn [arguments_loop].
  assert (Hgo : ends (let! tree := parse_expr in
    match tree with
    | None => rret None
    | Some tree =>
        let! tk := PeekTok in
        match tk with
        | LEX_COMMA => let! _ := ConsumeTok in arguments_loop oldSemantics parse_expr n tk (argList ++ [tree])
        | LEX_SEMICOLON =>
            if oldSemantics then let! _ := ConsumeTok in arguments_loop oldSemantics parse_expr n tk (argList ++ [tree])
            else rret None
        | LEX_CLOSE_PAREN => arguments_loop oldSemantics parse_expr n tk (argList ++ [tree])
        | _ => rret None
        end
    end) st any).
  { eapply parse_ends_bind; [by apply parse_expr_good|]. intros [tree|] st1 D1 R1 Hp; [|by apply parse_ends_ret].
    specialize (Hp (mk_is_Some _ _ eq_refl)).
    eapply parse_ends_bind; [apply ends_peek|]. intros t st2 D2 R2 Hpend.
    destruct t; try (by apply parse_ends_ret).
    - apply (ends_then_consume _ LEX_COMMA); [done|done|]. intros st3 D3 R3. apply IH; lia.
    - destruct oldSemantics; [|by apply parse_ends_ret].
      apply (ends_then_consume _ LEX_SEMICOLON); [done|done|]. intros st3 D3 R3. apply IH; lia.
    - apply IH; lia. }
  destruct tk; try exact Hgo.
  eapply parse_ends_bind; [apply ends_consume|]. intros. by apply parse_ends_ret.
Qed.

Lemma list_loop_ends n : forall st tk loe,
  (remaining st.2 <= N)%nat -> (remaining st.2 + 1 < n)%nat ->
  ends (list_loop parse_expr n tk loe) st any.
Proof.
  induction n as [|n IH]; intros st tk loe HN Hn; [lia|]. cbn [list_loop].
  assert (Hgo : ends (let! tree := parse_expr in
    match tree with
    | None => rret None
    | Some tree =>
        let! tk := PeekTok in
        match tk with
        | LEX_COMMA => let! _ := ConsumeTok in list_loop parse_expr n tk (loe ++ [tree])
        | LEX_CLOSE_BRACE => list_loop parse_expr n tk (loe ++ [tree])
        | _ => rret None
        end
    end) st any).
  { eapply parse_ends_bind; [by apply parse_expr_good|]. intros [tree|] st1 D1 R1 Hp; [|by apply parse_ends_ret].
    specialize (Hp (mk_is_Some _ _ eq_refl)).
    eapply parse_ends_bind; [apply ends_peek|]. intros t st2 D2 R2 Hpend.
    destruct t; try (by apply parse_ends_ret).
    - apply (ends_then_consume _ LEX_COMMA); [done|done|]. intros st3 D3 R3. apply IH; lia.
    - apply IH; lia. }
  destruct tk; try exact Hgo.
  eapply parse_ends_bind; [apply ends_consume|]. intros. by apply parse_ends_ret.
Qed.

Lemma skip_semicolons_ends n : forall st tk, pending st.2 tk -> (remaining st.2 < n)%nat ->
  ends (skip_semicolons n tk) st (fun tk' st1 => pending st1.2 tk' /\ tk' <> LEX_SEMICOLON).
Proof.
  induction n as [|n IH]; intros st tk Hp Hn; [lia|].
  destruct tk; try (by apply parse_ends_ret). cbn [skip_semicolons].
  apply (ends_then_consume _ LEX_SEMICOLON); [done|done|]. intros st1 D1 R1.
  eapply parse_ends_bind; [apply ends_peek|]. intros t st2 D2 R2 Hp2. apply IH; [done|lia].
Qed.

(** A store operation on a ClassAd that is there. *)
Lemma ends_store {A} (f : heap -> option (heap * A)) st h' a :
  f st.1 = Some (h', a) -> dom st.1 ⊆ dom h' -> ends (on_store f) st any.
Proof. intros E Hd. exists a, (h', st.2). unfold on_store. by rewrite E. Qed.
Lemma alloc_ends st : ends (on_store (fun h => Some (alloc_ad h))) st (fun ad st1 => ad ∈ dom st1.1).
Proof.
  exists (alloc_ad st.1).2, ((alloc_ad st.1).1, st.2). split; [done|]. unfold alloc_ad. simpl.
  rewrite dom_insert_L. split_and!; [set_solver|lia|set_solver].
Qed.
Lemma Insert_ends st ad s tree : ad ∈ dom st.1 -> ends (on_store (fun h => Insert h ad s (Some tree))) st any.
Proof.
  intros [d Hd]%elem_of_dom. unfold Insert. destruct (String.eqb s "").
  - apply (ends_store _ _ st.1 false); [done|done].
  - assert (Hs : exists d', scope_nested (Some ad) tree st.1 !! ad = Some d').
    { apply elem_of_dom. rewrite scope_nested_dom. apply elem_of_dom. eauto. }
    destruct Hs as [d' Hd']. unfold on_ad. eapply ends_store; [cbn beta iota; rewrite Hd'; reflexivity|].
    rewrite (dom_insert_same _ ad d') by done. by rewrite scope_nested_dom.
Qed.

Lemma attributes_loop_ends n : forall st ad tk,
  ad ∈ dom st.1 -> (remaining st.2 <= N)%nat -> (remaining st.2 + 1 < n)%nat ->
  ends (attributes_loop parse_expr n ad tk) st any.
Proof.
  induction n as [|n IH]; intros st ad tk Had HN Hn; [lia|]. cbn [attributes_loop].
  assert (Hgo : ends (let! tk := ConsumeTok in
    match tk with
    | LEX_SEMICOLON => attributes_loop parse_expr n ad tk
    | LEX_IDENTIFIER s =>
        let! tk := ConsumeTok in
        match tk with
        | LEX_BOUND_TO =>
            let! tree := parse_expr in
            match tree with
            | None => rret false
            | Some tree =>
                let! ok := on_store (fun h => Insert h ad s (Some tree)) in
                if negb ok then rret false
                else
                  let! tk := PeekTok in
                  match tk with
                  | LEX_SEMICOLON | LEX_CLOSE_BOX =>
                      let! tk := skip_semicolons n tk in attributes_loop parse_expr n ad tk
                  | _ => rret false
                  end
            end
        | _ => rret false
        end
    | _ => rret false
    end) st any).
  { eapply parse_ends_bind; [apply ends_consume|]. intros t st1 D1 R1 Ht.
    destruct t; try (by apply parse_ends_ret); specialize (Ht ltac:(done)).
    2: { apply IH; [by apply D1|lia|lia]. }
    eapply parse_ends_bind; [apply ends_consume|]. intros t st2 D2 R2 _. destruct t; try (by apply parse_ends_ret).
    eapply parse_ends_bind; [apply parse_expr_good; lia|]. intros [tree|] st3 D3 R3 _; [|by apply parse_ends_ret].
    eapply parse_ends_bind; [apply Insert_ends; set_solver|]. intros ok st4 D4 R4 _.
    destruct (negb ok); [by apply parse_ends_ret|].
    eapply parse_ends_bind; [apply ends_peek|]. intros t st5 D5 R5 Hp.
    destruct t; try (by apply parse_ends_ret);
      (eapply parse_ends_bind; [apply skip_semicolons_ends; [exact Hp|lia]|]; intros t st6 D6 R6 _; apply IH; [set_solver|lia|lia]). }
  destruct tk; try exact Hgo.
  eapply parse_ends_bind; [apply ends_consume|]. intros. by apply parse_ends_ret.
Qed.

Lemma parseClassAd_ends n st ad :
  ad ∈ dom st.1 -> (remaining st.2 <= N)%nat -> (remaining st.2 + 1 < n)%nat ->
  ends (parseClassAd n parse_expr ad) st (fun ok st1 => ok = true -> remaining st1.2 < remaining st.2)%nat.
Proof.
  intros Had HN Hn. unfold parseClassAd. pose proof Had as [d Hd]%elem_of_dom.
  eapply parse_ends_bind.
  { eapply ends_store; [unfold Clear, on_ad; rewrite Hd; reflexivity|]. by rewrite (dom_insert_same _ ad d). }
  intros u st1 D1 R1 _. eapply parse_ends_bind; [apply ends_consume|]. intros t st2 D2 R2 Ht.
  destruct t; try (by apply parse_ends_ret). specialize (Ht ltac:(done)).
  eapply parse_ends_bind; [apply ends_peek|]. intros t st3 D3 R3 _.
  eapply ends_weaken; [apply attributes_loop_ends; [set_solver|lia|lia]|]. intros. lia.
Qed.

(** *** The levels *)
Variable n : nat.
Hypothesis n_enough : (N + 1 < n)%nat.

Lemma parseArgumentList_ends st : (remaining st.2 <= N)%nat ->
  ends (parseArgumentList oldSemantics n parse_expr) st any.
Proof.
  intros HN. unfold parseArgumentList. eapply parse_ends_bind; [apply ends_consume|]. intros t st1 D1 R1 _.
  destruct t; try (by apply parse_ends_ret). eapply parse_ends_bind; [apply ends_peek|]. intros t st2 D2 R2 _.
  apply arguments_loop_ends; lia.
Qed.

Lemma parsePrimaryExpression_good :
  good_parser N (parsePrimaryExpression oldSemantics MakeAbsTime MakeRelTime n parse_expr).
Proof.
  intros st HN. unfold parsePrimaryExpression. eapply parse_ends_bind; [apply ends_peek|]. intros t st1 D1 R1 Hp.
  assert (Hused : forall (st2 : heap * L) (r : option ExprTree),
    (remaining st2.2 < remaining st1.2)%nat -> ends (rret r) st2 (parsed st)).
  { intros st2 r H2. apply parse_ends_ret. intros _. lia. }
  destruct t; try (by apply parse_ends_ret);
    try (eapply ends_then_consume; [exact Hp|done|]; intros st2 D2 R2); try (by apply Hused).
  - eapply parse_ends_bind; [apply ends_peek|]. intros t st3 D3 R3 _.
    destruct t; try (apply Hused; lia). eapply parse_ends_bind; [apply parseArgumentList_ends; lia|].
    intros r st4 D4 R4 _. apply Hused. lia.
  - eapply parse_ends_bind; [apply ends_consume|]. intros t st3 D3 R3 _. apply Hused. lia.
  - eapply parse_ends_bind; [apply alloc_ends|]. intros ad st2 D2 R2 Had.
    eapply parse_ends_bind; [apply parseClassAd_ends; [done|lia|lia]|]. intros ok st3 D3 R3 Hok.
    apply parse_ends_ret. destruct ok; [|done]. intros _. specialize (Hok eq_refl). lia.
  - eapply parse_ends_bind; [apply parse_expr_good; lia|]. intros [tree|] st3 D3 R3 _; [|apply Hused; lia].
    eapply parse_ends_bind; [apply ends_consume|]. intros t st4 D4 R4 _. apply Hused. lia.
  - eapply parse_ends_bind; [apply ends_peek|]. intros t st3 D3 R3 _.
    eapply ends_weaken; [apply list_loop_ends; lia|]. intros r st4 D4 R4 _ _. lia.
Qed.

Lemma postfix_loop_ends m : forall st tree, (remaining st.2 <= N)%nat -> (remaining st.2 < m)%nat ->
  ends (postfix_loop parse_expr m tree) st any.
Proof.
  induction m as [|m IH]; intros st tree HN Hm; [lia|]. cbn [postfix_loop].
  eapply parse_ends_bind; [apply ends_peek|]. intros t st1 D1 R1 Hp. destruct t; try (by apply parse_ends_ret);
    (eapply ends_then_consume; [exact Hp|done|]; intros st2 D2 R2).
  - eapply parse_ends_bind; [apply ends_consume|]. intros t st3 D3 R3 _. destruct t; try (by apply parse_ends_ret).
    apply IH; lia.
  - eapply parse_ends_bind; [apply parse_expr_good; lia|]. intros treeR st3 D3 R3 _.
    destruct (MakeOperation _ _ _ _); [|by apply parse_ends_ret].
    eapply parse_ends_bind; [apply ends_consume|]. intros t st4 D4 R4 _. destruct t; try (by apply parse_ends_ret).
    apply IH; lia.
Qed.
Lemma parsePostfixExpression_good :
  good_parser N (parsePostfixExpression oldSemantics MakeAbsTime MakeRelTime n parse_expr).
Proof.
  intros st HN. unfold parsePostfixExpression. eapply parse_ends_bind; [by apply parsePrimaryExpression_good|].
  intros [tree|] st1 D1 R1 Hp; [|by apply parse_ends_ret].
  eapply ends_weaken; [apply postfix_loop_ends; lia|]. intros r st2 D2 R2 _ _.
  specialize (Hp (mk_is_Some _ _ eq_refl)). lia.
Qed.
Lemma parseUnaryExpression_ends m : forall st, (remaining st.2 <= N)%nat -> (remaining st.2 < m)%nat ->
  ends (parseUnaryExpression oldSemantics MakeAbsTime MakeRelTime n parse_expr m) st (parsed st).
Proof.
  induction m as [|m IH]; intros st HN Hm; [lia|]. cbn [parseUnaryExpression].
  eapply parse_ends_bind; [apply ends_peek|]. intros t st1 D1 R1 Hp. destruct (unary_op t) as [op|] eqn:E.
  - eapply ends_then_consume; [exact Hp|by destruct t|]. intros st2 D2 R2.
    eapply parse_ends_bind; [apply IH; lia|]. intros r st3 D3 R3 _. apply parse_ends_ret. intros _. lia.
  - eapply ends_weaken; [apply parsePostfixExpression_good; lia|].
    intros r st2 D2 R2 Hr Hs. specialize (Hr Hs). lia.
Qed.

Lemma parseLogicalORExpression_good :
  good_parser N (parseLogicalORExpression oldSemantics MakeAbsTime MakeRelTime n parse_expr).
Proof.
  repeat (apply parse_level_good; [done|lia|]). intros st HN. apply parseUnaryExpression_ends; lia.
Qed.

Lemma parse_conditional_good full :
  good_parser N (parse_conditional oldSemantics MakeAbsTime MakeRelTime n parse_expr full).
Proof.
  intros st HN. unfold parse_conditional. eapply parse_ends_bind; [by apply parseLogicalORExpression_good|].
  intros [tree|] st1 D1 R1 Hp; [|by apply parse_ends_ret]. specialize (Hp (mk_is_Some _ _ eq_refl)).
  assert (Hused : forall (st2 : heap * L) (r : option ExprTree),
    (remaining st2.2 <= remaining st1.2)%nat -> ends (rret r) st2 (parsed st)).
  { intros st2 r H2. apply parse_ends_ret. intros _. lia. }
  eapply parse_ends_bind; [apply ends_peek|]. intros t st2 D2 R2 Hpend.
  assert (Hfull : ends (if (full : bool) then let! tk := ConsumeTok in
      rret match tk with LEX_END_OF_INPUT => Some tree | _ => None end else rret (Some tree)) st2 (parsed st)).
  { destruct full; [|by apply Hused]. eapply parse_ends_bind; [apply ends_consume|]. intros t' st3 D3 R3 _. apply Hused. lia. }
  destruct t; try exact Hfull. apply (ends_then_consume _ LEX_QMARK); [done|done|]. intros st3 D3 R3.
  eapply parse_ends_bind; [apply ends_peek|]. intros t st4 D4 R4 Hpend4.
  eapply (parse_ends_bind _ _ _ any).
  - assert (Hmid : ends (let! treeM := parse_expr in
      let! tk := ConsumeTok in rret match tk with LEX_COLON => Some treeM | _ => None end) st4 any).
    { eapply parse_ends_bind; [apply parse_expr_good; lia|]. intros r st5 D5 R5 _.
      eapply parse_ends_bind; [apply ends_consume|]. intros. by apply parse_ends_ret. }
    destruct t; try exact Hmid. eapply parse_ends_bind; [apply ends_consume|]. intros. by apply parse_ends_ret.
  - intros [treeM|] st5 D5 R5 _; [|apply Hused; lia].
    eapply parse_ends_bind; [apply parse_expr_good; lia|]. intros r st6 D6 R6 _. apply Hused. lia.
Qed.
End loops.

(** The nesting of [parseExpression] is bounded, so is the fuel it needs. *)
Lemma parseExpression_good N : forall n depth full, (0 <= depth)%Z ->
  (Z.to_nat (MAX_PARSE_DEPTH - depth) + N + 2 <= n)%nat ->
  good_parser N (parseExpression oldSemantics MakeAbsTime MakeRelTime n depth full).
Proof.
  induction n as [|n IH]; intros depth full Hd Hn st HN; [lia|]. cbn [parseExpression].
  destruct (Z.ltb_spec MAX_PARSE_DEPTH (depth + 1)); [by apply parse_ends_ret|].
  apply (parse_conditional_good N); [|lia|done]. apply IH; lia.
Qed.
End returns.

(** ** The lexer as a source *)
Section lexer.
Variables oldSemantics oldClassAdLex : bool.
Existing Instance Lexer_tokens.

(** A token that was looked at and is not the end is still to be consumed. *)
Definition lexer_remaining (lx : Lexer) : nat :=
  weight lx + (if tokenConsumed lx then 0
               else match tokenType lx with LEX_END_OF_INPUT => 0 | _ => 1 end)%nat.

#[export] Program Instance Lexer_progress :
  @TokenProgress Lexer (Lexer_tokens oldSemantics oldClassAdLex) := {|
  remaining := lexer_remaining;
  pending lx t := tokenConsumed lx = false /\ tokenType lx = t
|}.
Next Obligation.
  intros lx. destruct (PeekToken_returns oldSemantics oldClassAdLex lx) as (t&lx'&E&H1&H2&H3&H4).
  exists t, lx'. simpl. split; [done|]. split; [|done]. unfold lexer_remaining. rewrite H1, H2.
  destruct (tokenConsumed lx) eqn:Hc.
  - destruct (H4 eq_refl) as [->|]; [lia|]. destruct t; lia.
  - unfold PeekToken in E. rewrite Hc in E. simpl in E. simplify_eq. lia.
Qed.
Next Obligation.
  intros lx. destruct (PeekToken_returns oldSemantics oldClassAdLex lx) as (t&lx'&E&H1&H2&H3&H4).
  exists t, (set_consumed true lx'). simpl. unfold ConsumeToken. rewrite E. split; [done|].
  unfold lexer_remaining. change (weight (set_consumed true lx')) with (weight lx'). simpl.
  destruct (tokenConsumed lx) eqn:Hc.
  - split; [lia|]. intros Ht. destruct (H4 eq_refl); [done|lia].
  - unfold PeekToken in E. rewrite Hc in E. simpl in E. simplify_eq. split; [lia|]. intros Ht.
    destruct (tokenType lx'); (done || lia).
Qed.
Next Obligation.
  intros lx t [H1 H2]. simpl. unfold ConsumeToken, PeekToken. rewrite H1. simpl. rewrite H2. eauto.
Qed.

Lemma txt_length s : length (txt s) = String.length s.
Proof. induction s as [|c s IH]; simpl; congruence. Qed.
Lemma Initialize_remaining source lx :
  (lexer_remaining (Initialize (txt source) lx) <= 2 * String.length source)%nat.
Proof.
  unfold lexer_remaining, weight, upcoming. simpl. pose proof (text_weight_length (txt source)).
  rewrite txt_length in *. lia.
Qed.
Lemma token_end_dec (t : Token) : t = LEX_END_OF_INPUT \/ t <> LEX_END_OF_INPUT.
Proof. destruct t; (by left) || by right. Qed.
End lexer.
