(* ===== verification/Grammar.v ===== *)
(** * The grammar the parser implements

    [grammatical]: the shape of the trees the parser builds. [tokens]: the tokens of such a
    tree. On any source that gives these tokens the parser builds the tree. *)
From Stdlib Require Import ZArith Lia Ascii String.
From stdpp Require Import base list gmap strings.
From S2P Require Import Prelude Double Numerals Tree Values Lexer FlatMap AdStore Parser Unparser LexerFacts.

Open Scope res_scope.
Open Scope Z_scope.

(** ** The grammar

    The level of a tree is that of the production that makes it: 0 the conditional operator,
    1 to 10 the binary operators, 11 unary, 12 postfix and 13 primary expressions. *)
Definition level (t : ExprTree) : Z :=
  match t with
  | Operation3 _ _ _ _ => 0
  | Operation2 _ op _ _ => match op with SUBSCRIPT_OP => 12 | _ => default 0 (bin_level op) end
  | Operation1 _ _ _ => 11
  | AttributeReference _ (Some _) _ _ => 12
  | _ => 13
  end.

(** A call the parser replaces by a literal. *)
Definition parse_time_call (f : string) (args : list ExprTree) : bool := shouldEvaluateAtParseTime f args.

Definition no_scope (sc : option adref) : bool := match sc with None => true | Some _ => false end.

Fixpoint grammatical (t : ExprTree) : bool :=
  match t with
  | ErrorLiteral | UndefinedLiteral | BooleanLiteral _ | IntegerLiteral _ | RealLiteral _ | StringLiteral _ => true
  | ReltimeLiteral _ | AbstimeLiteral _ | ClassAdNode _ => false
  | AttributeReference sc expr _ absolute =>
      no_scope sc && match expr with Some e => negb absolute && grammatical e && (12 <=? level e) | None => true end
  | Operation1 sc op c => no_scope sc && is_unary op && grammatical c && (11 <=? level c)
  | OperationParens sc c => no_scope sc && grammatical c
  | Operation2 sc op c1 c2 =>
      no_scope sc && grammatical c1 && grammatical c2 &&
      match op with
      | SUBSCRIPT_OP => 12 <=? level c1
      | _ => match bin_level op with Some b => (b <=? level c1) && (b <? level c2) | None => false end
      end
  | Operation3 sc c1 c2 c3 =>
      no_scope sc && grammatical c1 && (0 <? level c1) &&
      match c2 with Some c2 => grammatical c2 | None => true end && grammatical c3
  | FunctionCall sc f args => no_scope sc && forallb grammatical args && negb (parse_time_call f args)
  | ExprList sc exprs => no_scope sc && forallb grammatical exprs
  end.

(** Items separated by commas. *)
Fixpoint separated (l : list (list Token)) : list Token :=
  match l with
  | [] => []
  | [x] => x
  | x :: l' => x ++ LEX_COMMA :: separated l'
  end.

Fixpoint tokens (t : ExprTree) : list Token :=
  match t with
  | ErrorLiteral => [LEX_ERROR_VALUE]
  | UndefinedLiteral => [LEX_UNDEFINED_VALUE]
  | BooleanLiteral b => [LEX_BOOLEAN_VALUE b]
  | IntegerLiteral i => [LEX_INTEGER_VALUE i NO_FACTOR]
  | RealLiteral r => [LEX_REAL_VALUE r NO_FACTOR]
  | StringLiteral s => [LEX_STRING_VALUE s]
  | ReltimeLiteral _ | AbstimeLiteral _ | ClassAdNode _ => []
  | AttributeReference _ (Some e) ref _ => tokens e ++ [LEX_SELECTION; LEX_IDENTIFIER ref]
  | AttributeReference _ None ref absolute =>
      (if absolute then [LEX_SELECTION] else []) ++ [LEX_IDENTIFIER ref]
  | Operation1 _ op c => op_token op :: tokens c
  | OperationParens _ c => LEX_OPEN_PAREN :: tokens c ++ [LEX_CLOSE_PAREN]
  | Operation2 _ op c1 c2 =>
      match op with
      | SUBSCRIPT_OP => tokens c1 ++ LEX_OPEN_BOX :: tokens c2 ++ [LEX_CLOSE_BOX]
      | _ => tokens c1 ++ op_token op :: tokens c2
      end
  | Operation3 _ c1 c2 c3 =>
      tokens c1 ++ LEX_QMARK :: match c2 with Some c2 => tokens c2 | None => [] end ++ LEX_COLON :: tokens c3
  | FunctionCall _ f args => LEX_IDENTIFIER f :: LEX_OPEN_PAREN :: separated (tokens <$> args) ++ [LEX_CLOSE_PAREN]
  | ExprList _ exprs => LEX_OPEN_BRACE :: separated (tokens <$> exprs) ++ [LEX_CLOSE_BRACE]
  end.

(** How deep [parseExpression] nests in the parse of a tree. *)
Fixpoint nesting (t : ExprTree) : Z :=
  match t with
  | AttributeReference _ (Some e) _ _ => nesting e
  | Operation1 _ _ c => nesting c
  | OperationParens _ c => 1 + nesting c
  | Operation2 _ op c1 c2 =>
      Z.max (nesting c1) (match op with SUBSCRIPT_OP => 1 + nesting c2 | _ => nesting c2 end)
  | Operation3 _ c1 c2 c3 =>
      Z.max (nesting c1) (1 + Z.max (match c2 with Some c2 => nesting c2 | None => 0 end) (nesting c3))
  | FunctionCall _ _ l | ExprList _ l => 1 + foldr Z.max 0 (nesting <$> l)
  | _ => 0
  end.

(** The level of the operator a token continues an expression with; -1 for none. A name
    goes on with the parenthesis of its arguments. *)
Definition token_level (t : Token) : Z :=
  match t with
  | LEX_OPEN_PAREN => 13
  | LEX_OPEN_BOX | LEX_SELECTION => 12
  | LEX_MULTIPLY | LEX_DIVIDE | LEX_MODULUS => 10
  | LEX_PLUS | LEX_MINUS => 9
  | LEX_LEFT_SHIFT | LEX_RIGHT_SHIFT | LEX_URIGHT_SHIFT => 8
  | LEX_LESS_THAN | LEX_LESS_OR_EQUAL | LEX_GREATER_THAN | LEX_GREATER_OR_EQUAL => 7
  | LEX_EQUAL | LEX_NOT_EQUAL | LEX_META_EQUAL | LEX_META_NOT_EQUAL => 6
  | LEX_BITWISE_AND => 5 | LEX_BITWISE_XOR => 4 | LEX_BITWISE_OR => 3
  | LEX_LOGICAL_AND => 2 | LEX_LOGICAL_OR => 1
  | LEX_QMARK => 0
  | _ => -1
  end.

(** ** Sources that give tokens *)
Class TokenStream (L : Type) `{TokenSource L} := {
  gives : L -> list Token -> Prop;
  peek_gives l t ts : gives l (t :: ts) -> exists l', peek l = Some (t, l') /\ gives l' (t :: ts);
  consume_gives l t ts : gives l (t :: ts) -> exists l', consume l = Some (t, l') /\ gives l' ts
}.

(** *** Facts about trees and their tokens *)
Lemma level_nonneg t : 0 <= level t.
Proof.
  destruct t as [| | | | | | | |? [?|] ? ?|? [] ?|? ?|? [] ? ?|? ? [?|] ?|? ? ?|? ?|?]; simpl; lia.
Qed.
Lemma nesting_nonneg t : 0 <= nesting t.
Proof.
  assert (Hl : forall l, 0 <= foldr Z.max 0 (nesting <$> l)).
  { intros l. induction l as [|t' l IH]; [done|]. rewrite fmap_cons. cbn [foldr]. lia. }
  induction t using ExprTree_induct; cbn [nesting]; try specialize (Hl l); try (destruct op); lia.
Qed.
Lemma bin_level_range op b : bin_level op = Some b -> 1 <= b <= 10.
Proof. destruct op; simpl; intros [= <-]; lia. Qed.

(** A binary operation: its level, tokens, nesting and making. *)
Lemma binary_operation op b : bin_level op = Some b -> forall sc c1 c2,
  level (Operation2 sc op c1 c2) = b /\
  tokens (Operation2 sc op c1 c2) = tokens c1 ++ op_token op :: tokens c2 /\
  nesting (Operation2 sc op c1 c2) = Z.max (nesting c1) (nesting c2) /\
  grammatical (Operation2 sc op c1 c2) =
    no_scope sc && grammatical c1 && grammatical c2 && ((b <=? level c1) && (b <? level c2)) /\
  MakeOperation op (Some c1) (Some c2) None = Some (Operation2 None op c1 c2) /\
  token_level (op_token op) = b.
Proof. intros H. destruct op; simplify_eq/=; intros; split_and!; reflexivity. Qed.

(** The trees of binary level are the binary operations. *)
Lemma level_binary t : grammatical t = true -> 1 <= level t <= 10 ->
  exists op c1 c2, t = Operation2 None op c1 c2 /\ bin_level op = Some (level t).
Proof.
  destruct t as [| | | | | | | |? [?|] ? ?| | |[] op c1 c2|? ? [?|] ?| | |]; try (simpl; done || lia);
    try (cbn [level]; lia).
  intros Hg Hl. exists op, c1, c2. split; [done|]. by destruct op; try (simpl in *; lia); try reflexivity;
    simpl in *; rewrite ?andb_false_r in Hg.
Qed.

Definition starts_primary (t : Token) : bool :=
  match t with
  | LEX_ERROR_VALUE | LEX_UNDEFINED_VALUE | LEX_BOOLEAN_VALUE _ | LEX_INTEGER_VALUE _ _
  | LEX_REAL_VALUE _ _ | LEX_STRING_VALUE _ | LEX_IDENTIFIER _ | LEX_SELECTION
  | LEX_OPEN_PAREN | LEX_OPEN_BRACE => true
  | _ => false
  end.
(** The first token of a tree. *)
Definition starts_tree (t : Token) : bool := starts_primary t || bool_decide (is_Some (unary_op t)).

Definition first_is (p : Token -> bool) (ts : list Token) : Prop :=
  match ts with t :: _ => p t = true | [] => False end.
Lemma first_app p l l' : first_is p l -> first_is p (l ++ l').
Proof. by destruct l. Qed.
Lemma first_tree_primary l : first_is starts_primary l -> first_is starts_tree l.
Proof. destruct l as [|t l]; [done|]. unfold starts_tree. simpl. by intros ->. Qed.

Lemma tokens_first t : grammatical t = true ->
  first_is starts_tree (tokens t) /\ (12 <= level t -> first_is starts_primary (tokens t)).
Proof.
  induction t using ExprTree_induct; simpl; intros Hg; split_andb; try done.
  - by destruct b.
  - destruct IHt as [_ H3]; [done|]. specialize (H3 ltac:(lia)).
    split; [apply first_tree_primary|intros _]; by apply first_app.
  - split; [by destruct op|lia].
  - destruct IHt1 as [H3 H4]; [done|].
    assert (Hsub : op = SUBSCRIPT_OP \/ op <> SUBSCRIPT_OP /\ default 0 (bin_level op) < 12).
    { destruct op; simpl; (by left) || (right; split; [done|lia]). }
    destruct Hsub as [->|[Hne Hlt]].
    + simpl in *. specialize (H4 ltac:(lia)). split; [apply first_tree_primary|intros _]; by apply first_app.
    + split; [by destruct op; apply first_app|]. destruct op; simpl in *; try lia; done.
  - split; [|lia]. by apply first_app, IHt1.
  - split; [|lia]. by apply first_app, IHt1.
Qed.
Lemma starts_tree_not t : starts_tree t = true ->
  t <> LEX_CLOSE_PAREN /\ t <> LEX_CLOSE_BRACE /\ t <> LEX_COLON.
Proof. by destruct t. Qed.

(** ** Parsing the tokens of a tree *)
Section run.
Context {L : Type} `{HL : TokenSource L} `{!TokenStream L}.
Abbreviation P A := (heap * L -> Res (heap * L) A).

(** The source of [st'] gives [ts]; the store is that of [st]. *)
Definition at_tokens (st st' : heap * L) (ts : list Token) : Prop := st'.1 = st.1 /\ gives st'.2 ts.

Lemma at_tokens_from st st1 st2 ts ts' : at_tokens st st1 ts -> at_tokens st1 st2 ts' -> at_tokens st st2 ts'.
Proof. intros [H1 _] [H2 H3]. split; [congruence|done]. Qed.

Lemma run_bind {A B} (m : P A) (k : A -> P B) st a st1 : m st = Ret a st1 -> rbind m k st = k a st1.
Proof. intros H. unfold rbind. by rewrite H. Qed.

Lemma run_peek {B} (k : Token -> P B) st t ts : gives st.2 (t :: ts) ->
  exists st1, rbind PeekTok k st = k t st1 /\ at_tokens st st1 (t :: ts).
Proof.
  destruct st as [h l]. intros H. destruct (peek_gives _ _ _ H) as (l'&E&H').
  exists (h, l'). split; [|done]. apply run_bind. unfold PeekTok, on_tokens. simpl in *. by rewrite E.
Qed.
Lemma run_consume {B} (k : Token -> P B) st t ts : gives st.2 (t :: ts) ->
  exists st1, rbind ConsumeTok k st = k t st1 /\ at_tokens st st1 ts.
Proof.
  destruct st as [h l]. intros H. destruct (consume_gives _ _ _ H) as (l'&E&H').
  exists (h, l'). split; [|done]. apply run_bind. unfold ConsumeTok, on_tokens. simpl in *. by rewrite E.
Qed.

End run.

(** Run the parser to its next look at a token, and to the next token it consumes. *)
Ltac peek_tok H st A G :=
  match goal with |- context [rbind PeekTok ?f ?st0] => destruct (run_peek f st0 _ _ H) as (st&->&A&G) end.
Ltac consume_tok H st A G :=
  match goal with |- context [rbind ConsumeTok ?f ?st0] => destruct (run_consume f st0 _ _ H) as (st&->&A&G) end.

Section parse.
Context {L : Type} `{HL : TokenSource L} `{!TokenStream L}.
Variable oldSemantics : bool.
Variables MakeAbsTime MakeRelTime : string -> option ExprTree.
Abbreviation P A := (heap * L -> Res (heap * L) A).

(** What follows ends the level [b]: it goes on with a lower level, if any. *)
Definition stops (b : Z) (k : list Token) : Prop :=
  match k with t :: _ => token_level t < b | [] => False end.
Lemma stops_level b b' k : b <= b' -> stops b k -> stops b' k.
Proof. destruct k; simpl; [done|lia]. Qed.

(** [m] parses the trees of level [b] or more with at most [N] nodes, nesting at most [D]. *)
Definition parses (b : Z) (N : nat) (D : Z) (m : P (option ExprTree)) : Prop :=
  forall t k st, grammatical t = true -> b <= level t -> (tree_size t <= N)%nat -> nesting t <= D ->
  stops b k -> gives st.2 (tokens t ++ k) ->
  exists st', m st = Ret (Some t) st' /\ at_tokens st st' k.

(** *** Binary levels *)
Record op_table (b : Z) (op_of : Token -> option OpKind) : Prop := mk_op_table {
  op_table_level t op : op_of t = Some op -> token_level t = b;
  op_table_token op : bin_level op = Some b -> op_of (op_token op) = Some op
}.

(** The loop arrives at the tree with fuel to go on. *)
Lemma level_spine b N D next op_of : op_table b op_of -> parses (b + 1) N D next -> 1 <= b <= 10 ->
  forall t k st n, grammatical t = true -> b <= level t -> (tree_size t <= N)%nat -> nesting t <= D ->
  stops (b + 1) k -> gives st.2 (tokens t ++ k) -> (tree_size t <= n)%nat ->
  exists st' n', parse_level n op_of next st = binary_loop n' op_of next t st' /\ at_tokens st st' k /\
    (S n <= n' + tree_size t)%nat.
Proof.
  intros Htab Hnext Hb t.
  induction t as [t IH] using (well_founded_induction (well_founded_ltof _ tree_size)).
  intros k st n Hg Hl HN HD Hk Hgives Hn. unfold ltof in IH.
  destruct (decide (b + 1 <= level t)) as [Hl1|Hl1].
  { destruct (Hnext t k st) as (st1&E1&H1); try done. exists st1, n. unfold parse_level.
    rewrite (run_bind _ _ _ _ _ E1). split_and!; [done|done|]. pose proof (tree_size_pos t). lia. }
  destruct (level_binary _ Hg) as (op&t1&t2&->&Hop); [lia|]. replace (level _) with b in Hop by lia.
  destruct (binary_operation op b Hop None t1 t2) as (_&Ht&Hnest&Hgr&Hmake&Htl).
  rewrite Hgr in Hg. split_andb. rewrite Hnest in HD. cbn [tree_size] in *.
  rewrite Ht, <- app_assoc in Hgives. simpl in Hgives.
  destruct (IH t1 ltac:(lia) (op_token op :: tokens t2 ++ k) st n) as (st1&n1&E1&[A1 G1]&F1); try (done || lia).
  { simpl. lia. }
  rewrite E1. destruct n1 as [|n1]; [lia|]. cbn [binary_loop].
  peek_tok G1 st2 A2 G2. rewrite (op_table_token _ _ Htab op Hop). consume_tok G2 st3 A3 G3.
  destruct (Hnext t2 k st3) as (st4&E4&A4&G4); try (done || lia).
  rewrite (run_bind _ _ _ _ _ E4), Hmake. exists st4, n1. split_and!; [done| |lia].
  split; [congruence|done].
Qed.

Lemma parse_level_parses b N D n next op_of :
  op_table b op_of -> 1 <= b <= 10 -> (N <= n)%nat -> parses (b + 1) N D next -> parses b N D (parse_level n op_of next).
Proof.
  intros Htab Hb Hn Hnext t k st Hg Hl HN HD Hk Hgives.
  destruct (level_spine b N D next op_of Htab Hnext Hb t k st n) as (st1&n1&E1&[A1 G1]&F1); try (done || lia).
  { by apply (stops_level b); [lia|]. }
  destruct k as [|t0 k]; [done|]. rewrite E1. destruct n1 as [|n1]; [lia|]. cbn [binary_loop].
  peek_tok G1 st2 A2 G2.
  destruct (op_of t0) as [op|] eqn:E.
  - pose proof (op_table_level _ _ Htab _ _ E). simpl in Hk. lia.
  - exists st2. split; [done|]. split; [congruence|done].
Qed.

Section levels.
Variables (N : nat) (D : Z).
Variable n : nat.
Variable parse_expr : P (option ExprTree).
Hypothesis n_enough : (N <= n)%nat.
(** [parse_expr] parses what is nested in the tree. *)
Hypothesis parse_expr_parses : forall M, (M < N)%nat -> parses 0 M (D - 1) parse_expr.

Lemma run_parse_expr {B} (k : option ExprTree -> P B) t ts st :
  gives st.2 (tokens t ++ ts) -> grammatical t = true -> (tree_size t < N)%nat -> nesting t <= D - 1 -> stops 0 ts ->
  exists st1, rbind parse_expr k st = k (Some t) st1 /\ at_tokens st st1 ts.
Proof.
  intros G Hg HN HD Hk.
  destruct (parse_expr_parses (tree_size t) HN t ts st Hg (level_nonneg t) (le_n _) HD Hk G) as (st1&E&A).
  exists st1. split; [by apply run_bind|done].
Qed.
Ltac run_expr H st A G :=
  match goal with |- context [rbind parse_expr ?f ?st0] =>
    destruct (run_parse_expr f _ _ st0 H) as (st&->&A&G); [try (done || lia)..|] end.

(** *** Items *)
Definition items_fit (l : list ExprTree) : Prop :=
  Forall (fun t => grammatical t = true /\ (tree_size t < N)%nat /\ nesting t <= D - 1) l.
Lemma items_fit_intro l : forallb grammatical l = true ->
  (S (sum_list (tree_size <$> l)) <= N)%nat -> 1 + foldr Z.max 0 (nesting <$> l) <= D -> items_fit l.
Proof.
  unfold items_fit. induction l as [|t l IH]; [constructor|]. rewrite !fmap_cons.
  cbn [forallb sum_list_with foldr]. unfold id at 1. intros [H1 H2]%andb_prop HN HD.
  constructor; [split_and!; (done || lia)|]. apply IH; [done|lia|lia].
Qed.
Lemma items_length (l : list ExprTree) : (length l <= sum_list (tree_size <$> l))%nat.
Proof.
  induction l as [|t l IH]; [simpl; lia|]. rewrite fmap_cons. cbn [length sum_list_with]. unfold id at 1.
  pose proof (tree_size_pos t). lia.
Qed.

(** The tokens of items begin an item or close the list. *)
Lemma separated_cons t l ts : separated (tokens <$> t :: l) ++ ts =
  tokens t ++ match l with [] => ts | _ => LEX_COMMA :: separated (tokens <$> l) ++ ts end.
Proof. destruct l as [|t' l]; simpl; [done|]. by rewrite <- app_assoc. Qed.

Lemma first_tokens t ts st : grammatical t = true -> gives st (tokens t ++ ts) ->
  exists t0 ts', gives st (t0 :: ts') /\ starts_tree t0 = true /\ tokens t ++ ts = t0 :: ts'.
Proof.
  intros Hg HG. destruct (tokens_first t Hg) as [Hf _]. destruct (tokens t) as [|t0 ts0]; [done|].
  exists t0, (ts0 ++ ts). done.
Qed.

(** One round of the loops over items. *)
Lemma arguments_loop_item m tk acc t ts (more : bool) st :
  tk <> LEX_CLOSE_PAREN -> grammatical t = true -> (tree_size t < N)%nat -> nesting t <= D - 1 ->
  gives st.2 (tokens t ++ (if more then LEX_COMMA else LEX_CLOSE_PAREN) :: ts) ->
  exists st', arguments_loop oldSemantics parse_expr (S m) tk acc st =
      arguments_loop oldSemantics parse_expr m (if more then LEX_COMMA else LEX_CLOSE_PAREN) (acc ++ [t]) st' /\
    at_tokens st st' (if more then ts else LEX_CLOSE_PAREN :: ts).
Proof.
  intros Htk Hg HN HD G. assert (Hs : stops 0 ((if more then LEX_COMMA else LEX_CLOSE_PAREN) :: ts)) by by destruct more.
  destruct (parse_expr_parses (tree_size t) HN t _ st Hg (level_nonneg t) (le_n _) HD Hs G) as (st1&E1&A1&G1).
  assert (Hgo : arguments_loop oldSemantics parse_expr (S m) tk acc st = (let! tk := PeekTok in
    match tk with
    | LEX_COMMA => let! _ := ConsumeTok in arguments_loop oldSemantics parse_expr m tk (acc ++ [t])
    | LEX_SEMICOLON =>
        if oldSemantics then let! _ := ConsumeTok in arguments_loop oldSemantics parse_expr m tk (acc ++ [t])
        else rret None
    | LEX_CLOSE_PAREN => arguments_loop oldSemantics parse_expr m tk (acc ++ [t])
    | _ => rret None
    end) st1).
  { cbn [arguments_loop]. destruct tk; try done; by rewrite (run_bind _ _ _ _ _ E1). }
  rewrite Hgo. peek_tok G1 st2 A2 G2. destruct more.
  - consume_tok G2 st3 A3 G3. exists st3. split; [done|]. split; [congruence|done].
  - exists st2. split; [done|]. split; [congruence|done].
Qed.
Lemma list_loop_item m tk acc t ts (more : bool) st :
  tk <> LEX_CLOSE_BRACE -> grammatical t = true -> (tree_size t < N)%nat -> nesting t <= D - 1 ->
  gives st.2 (tokens t ++ (if more then LEX_COMMA else LEX_CLOSE_BRACE) :: ts) ->
  exists st', list_loop parse_expr (S m) tk acc st =
      list_loop parse_expr m (if more then LEX_COMMA else LEX_CLOSE_BRACE) (acc ++ [t]) st' /\
    at_tokens st st' (if more then ts else LEX_CLOSE_BRACE :: ts).
Proof.
  intros Htk Hg HN HD G. assert (Hs : stops 0 ((if more then LEX_COMMA else LEX_CLOSE_BRACE) :: ts)) by by destruct more.
  destruct (parse_expr_parses (tree_size t) HN t _ st Hg (level_nonneg t) (le_n _) HD Hs G) as (st1&E1&A1&G1).
  assert (Hgo : list_loop parse_expr (S m) tk acc st = (let! tk := PeekTok in
    match tk with
    | LEX_COMMA => let! _ := ConsumeTok in list_loop parse_expr m tk (acc ++ [t])
    | LEX_CLOSE_BRACE => list_loop parse_expr m tk (acc ++ [t])
    | _ => rret None
    end) st1).
  { cbn [list_loop]. destruct tk; try done; by rewrite (run_bind _ _ _ _ _ E1). }
  rewrite Hgo. peek_tok G1 st2 A2 G2. destruct more.
  - consume_tok G2 st3 A3 G3. exists st3. split; [done|]. split; [congruence|done].
  - exists st2. split; [done|]. split; [congruence|done].
Qed.

Lemma arguments_loop_parses l : forall t m tk acc ts st,
  items_fit (t :: l) -> (length l + 1 < m)%nat -> tk <> LEX_CLOSE_PAREN ->
  gives st.2 (separated (tokens <$> t :: l) ++ LEX_CLOSE_PAREN :: ts) ->
  exists st', arguments_loop oldSemantics parse_expr m tk acc st = Ret (Some (acc ++ t :: l)) st' /\ at_tokens st st' ts.
Proof.
  induction l as [|t' l IH]; intros t m tk acc ts st Hfit Hm Htk G; inversion Hfit as [|? ? (Hg&HN&HD) Hfit']; subst;
    (destruct m as [|m]; [simpl in Hm; lia|]); rewrite separated_cons in G.
  - destruct (arguments_loop_item m tk acc t ts false st) as (st1&->&A1&G1); try done.
    destruct m as [|m]; [simpl in Hm; lia|]. cbn [arguments_loop]. consume_tok G1 st2 A2 G2.
    exists st2. split; [done|]. split; [congruence|done].
  - destruct (arguments_loop_item m tk acc t _ true st Htk Hg HN HD G) as (st1&->&A1&G1).
    destruct (IH t' m LEX_COMMA (acc ++ [t]) ts st1) as (st2&->&A2&G2); try done; [simpl in Hm; lia|].
    exists st2. rewrite <- app_assoc. split; [done|]. split; [congruence|done].
Qed.
Lemma list_loop_parses l : forall t m tk acc ts st,
  items_fit (t :: l) -> (length l + 1 < m)%nat -> tk <> LEX_CLOSE_BRACE ->
  gives st.2 (separated (tokens <$> t :: l) ++ LEX_CLOSE_BRACE :: ts) ->
  exists st', list_loop parse_expr m tk acc st = Ret (Some (ExprList None (acc ++ t :: l))) st' /\ at_tokens st st' ts.
Proof.
  induction l as [|t' l IH]; intros t m tk acc ts st Hfit Hm Htk G; inversion Hfit as [|? ? (Hg&HN&HD) Hfit']; subst;
    (destruct m as [|m]; [simpl in Hm; lia|]); rewrite separated_cons in G.
  - destruct (list_loop_item m tk acc t ts false st) as (st1&->&A1&G1); try done.
    destruct m as [|m]; [simpl in Hm; lia|]. cbn [list_loop]. consume_tok G1 st2 A2 G2.
    exists st2. split; [done|]. split; [congruence|done].
  - destruct (list_loop_item m tk acc t _ true st Htk Hg HN HD G) as (st1&->&A1&G1).
    destruct (IH t' m LEX_COMMA (acc ++ [t]) ts st1) as (st2&->&A2&G2); try done; [simpl in Hm; lia|].
    exists st2. rewrite <- app_assoc. split; [done|]. split; [congruence|done].
Qed.

(** *** Primary expressions *)
Ltac finish_at := first [done | split; [congruence|done]].

Lemma call_parses f l k st :
  grammatical (FunctionCall None f l) = true -> (tree_size (FunctionCall None f l) <= N)%nat ->
  nesting (FunctionCall None f l) <= D -> gives st.2 (tokens (FunctionCall None f l) ++ k) ->
  exists st', parsePrimaryExpression oldSemantics MakeAbsTime MakeRelTime n parse_expr st =
    Ret (Some (FunctionCall None f l)) st' /\ at_tokens st st' k.
Proof.
  cbn [grammatical tree_size nesting tokens app]. intros Hg HN HD G. split_andb.
  rewrite <- app_assoc in G. cbn [app] in G.
  unfold parsePrimaryExpression. peek_tok G st1 A1 G1. consume_tok G1 st2 A2 G2. peek_tok G2 st3 A3 G3.
  assert (Hargs : exists st', parseArgumentList oldSemantics n parse_expr st3 = Ret (Some l) st' /\ at_tokens st3 st' k).
  { unfold parseArgumentList. consume_tok G3 st4 A4 G4. destruct l as [|t l].
    - peek_tok G4 st5 A5 G5. destruct n as [|m]; [simpl in HN; lia|]. cbn [arguments_loop].
      consume_tok G5 st6 A6 G6. exists st6. split; [done|finish_at].
    - pose proof (items_fit_intro (t :: l) ltac:(done) HN HD) as Hfit.
      assert (Hg : grammatical t = true) by by inversion Hfit as [|? ? (?&_&_) _].
      pose proof (tokens_first t Hg) as [Hf _]. pose proof (separated_cons t l (LEX_CLOSE_PAREN :: k)) as Hsep.
      destruct (tokens t) as [|t0 ts] eqn:Et; [done|]. simpl in Hf.
      pose proof G4 as G4'. rewrite Hsep in G4'. cbn [app] in G4'.
      peek_tok G4' st5 A5 G5. change (t0 :: ts ++ ?x) with ((t0 :: ts) ++ x) in G5. rewrite <- Hsep in G5.
      destruct (arguments_loop_parses l t n t0 [] k st5) as (st6&->&A6&G6); try done.
      { pose proof (items_length (t :: l)). cbn [length] in *. lia. }
      { by apply starts_tree_not. }
      exists st6. split; [done|finish_at]. }
  destruct Hargs as (st4&E4&A4&G4). rewrite (run_bind _ _ _ _ _ E4).
  unfold parse_time_call in *. rewrite H0. exists st4. split; [done|finish_at].
Qed.

Lemma list_parses l k st :
  grammatical (ExprList None l) = true -> (tree_size (ExprList None l) <= N)%nat ->
  nesting (ExprList None l) <= D -> gives st.2 (tokens (ExprList None l) ++ k) ->
  exists st', parsePrimaryExpression oldSemantics MakeAbsTime MakeRelTime n parse_expr st =
    Ret (Some (ExprList None l)) st' /\ at_tokens st st' k.
Proof.
  cbn [grammatical tree_size nesting tokens app]. intros Hg HN HD G. split_andb.
  rewrite <- app_assoc in G. cbn [app] in G.
  unfold parsePrimaryExpression, parseExprList. peek_tok G st1 A1 G1. consume_tok G1 st2 A2 G2. destruct l as [|t l].
  - peek_tok G2 st3 A3 G3. destruct n as [|m]; [simpl in HN; lia|]. cbn [list_loop].
    consume_tok G3 st4 A4 G4. exists st4. split; [done|finish_at].
  - pose proof (items_fit_intro (t :: l) ltac:(done) HN HD) as Hfit.
    assert (Hg : grammatical t = true) by by inversion Hfit as [|? ? (?&_&_) _].
    pose proof (tokens_first t Hg) as [Hf _]. pose proof (separated_cons t l (LEX_CLOSE_BRACE :: k)) as Hsep.
    destruct (tokens t) as [|t0 ts] eqn:Et; [done|]. simpl in Hf.
    pose proof G2 as G2'. rewrite Hsep in G2'. cbn [app] in G2'.
    peek_tok G2' st5 A5 G5. change (t0 :: ts ++ ?x) with ((t0 :: ts) ++ x) in G5. rewrite <- Hsep in G5.
    destruct (list_loop_parses l t n t0 [] k st5) as (st6&->&A6&G6); try done.
    { pose proof (items_length (t :: l)). cbn [length] in *. lia. }
    { by apply starts_tree_not. }
    exists st6. split; [done|finish_at].
Qed.

Lemma parsePrimaryExpression_parses :
  parses 13 N D (parsePrimaryExpression oldSemantics MakeAbsTime MakeRelTime n parse_expr).
Proof.
  intros t k st Hg Hl HN HD Hk G. destruct k as [|t0 k]; [done|]. simpl in Hk.
  destruct t as [| |b|i|r|r|t|s|sc [e|] ref absolute|sc op c|sc c|sc op c1 c2|sc c1 [c2|] c3|sc f l|sc l|a];
    try done; try (simpl in Hl; lia).
  1-6: unfold parsePrimaryExpression; simpl in G; peek_tok G st1 A1 G1; consume_tok G1 st2 A2 G2;
    exists st2; split; [done|finish_at].
  - simpl in Hg. destruct sc; [done|]. unfold parsePrimaryExpression. destruct absolute; simpl in G.
    + peek_tok G st1 A1 G1. consume_tok G1 st2 A2 G2. consume_tok G2 st3 A3 G3.
      exists st3. split; [done|finish_at].
    + peek_tok G st1 A1 G1. consume_tok G1 st2 A2 G2. peek_tok G2 st3 A3 G3.
      exists st3. split; [by destruct t0|finish_at].
  - cbn [grammatical tree_size nesting tokens app] in *. split_andb. destruct sc; [done|].
    unfold parsePrimaryExpression. rewrite <- app_assoc in G.
    peek_tok G st1 A1 G1. consume_tok G1 st2 A2 G2. run_expr G2 st3 A3 G3. consume_tok G3 st4 A4 G4.
    exists st4. split; [done|finish_at].
  - exfalso. clear - Hl. destruct op; simpl in Hl; lia.
  - assert (sc = None) as -> by by destruct sc. by apply call_parses.
  - assert (sc = None) as -> by by destruct sc. by apply list_parses.
Qed.

(** *** Postfix and unary expressions *)
Lemma postfix_spine t : forall k st,
  grammatical t = true -> 12 <= level t -> (tree_size t <= N)%nat -> nesting t <= D ->
  stops 13 k -> gives st.2 (tokens t ++ k) ->
  exists st' n', parsePostfixExpression oldSemantics MakeAbsTime MakeRelTime n parse_expr st =
      postfix_loop parse_expr n' t st' /\ at_tokens st st' k /\ (S n <= n' + tree_size t)%nat.
Proof.
  induction t as [t IH] using (well_founded_induction (well_founded_ltof _ tree_size)). unfold ltof in IH.
  intros k st Hg Hl HN HD Hk G. destruct (decide (13 <= level t)) as [Hl1|Hl1].
  { destruct (parsePrimaryExpression_parses t k st) as (st1&E1&H1); try done. exists st1, n.
    unfold parsePostfixExpression. rewrite (run_bind _ _ _ _ _ E1). split_and!; [done|done|].
    pose proof (tree_size_pos t). lia. }
  assert (Hcase : (exists e ref, t = AttributeReference None (Some e) ref false) \/
    (exists c1 c2, t = Operation2 None SUBSCRIPT_OP c1 c2)).
  { clear - Hg Hl Hl1. destruct t as [| |b|i|r|r|t|s|sc [e|] ref absolute|sc op c|sc c|sc op c1 c2|sc c1 [c2|] c3|sc f l|sc l|a];
      simpl in Hl, Hl1; try lia.
    - left. simpl in Hg. split_andb. destruct sc; [done|]. destruct absolute; [done|]. eauto.
    - right. simpl in Hg. split_andb. destruct sc; [done|]. exists c1, c2. f_equal.
      destruct op; simpl in *; (done || lia). }
  destruct Hcase as [(e&ref&->)|(c1&c2&->)]; cbn [grammatical tree_size nesting tokens] in *; split_andb.
  - rewrite <- app_assoc in G. simpl in G.
    destruct (IH e ltac:(lia) (LEX_SELECTION :: LEX_IDENTIFIER ref :: k) st) as (st1&n1&->&[A1 G1]&F1); try (done || lia).
    destruct n1 as [|n1]; [lia|]. cbn [postfix_loop]. peek_tok G1 st2 A2 G2. consume_tok G2 st3 A3 G3.
    consume_tok G3 st4 A4 G4. exists st4, n1. split_and!; [done|finish_at|lia].
  - rewrite <- app_assoc in G. simpl in G. rewrite <- app_assoc in G. simpl in G.
    destruct (IH c1 ltac:(lia) (LEX_OPEN_BOX :: tokens c2 ++ LEX_CLOSE_BOX :: k) st) as (st1&n1&->&[A1 G1]&F1);
      try (done || lia).
    destruct n1 as [|n1]; [lia|]. cbn [postfix_loop]. peek_tok G1 st2 A2 G2. consume_tok G2 st3 A3 G3.
    run_expr G3 st4 A4 G4. cbn [MakeOperation]. cbn [mbind option_bind]. consume_tok G4 st5 A5 G5.
    exists st5, n1. split_and!; [done|finish_at|lia].
Qed.
Lemma parsePostfixExpression_parses :
  parses 12 N D (parsePostfixExpression oldSemantics MakeAbsTime MakeRelTime n parse_expr).
Proof.
  intros t k st Hg Hl HN HD Hk G. destruct k as [|t0 k]; [done|].
  destruct (postfix_spine t (t0 :: k) st) as (st1&n1&->&[A1 G1]&F1); try done.
  { by apply (stops_level 12). }
  destruct n1 as [|n1]; [lia|]. cbn [postfix_loop]. peek_tok G1 st2 A2 G2. exists st2. simpl in Hk.
  split; [by destruct t0|finish_at].
Qed.

Lemma starts_primary_unary t : starts_primary t = true -> unary_op t = None.
Proof. by destruct t. Qed.
Lemma parseUnaryExpression_parses t : forall m k st,
  grammatical t = true -> 11 <= level t -> (tree_size t <= N)%nat -> nesting t <= D ->
  stops 11 k -> gives st.2 (tokens t ++ k) -> (tree_size t <= m)%nat ->
  exists st', parseUnaryExpression oldSemantics MakeAbsTime MakeRelTime n parse_expr m st = Ret (Some t) st' /\
    at_tokens st st' k.
Proof.
  induction t as [t IH] using (well_founded_induction (well_founded_ltof _ tree_size)). unfold ltof in IH.
  intros m k st Hg Hl HN HD Hk G Hm. pose proof (tree_size_pos t) as Hpos. destruct m as [|m]; [lia|].
  cbn [parseUnaryExpression]. destruct (decide (12 <= level t)) as [Hl1|Hl1].
  - destruct (tokens_first t Hg) as [_ Hf]. specialize (Hf Hl1).
    destruct (tokens t) as [|t0 ts] eqn:Et; [done|]. cbn [app] in G. peek_tok G st1 A1 G1.
    rewrite (starts_primary_unary _ Hf). change (t0 :: ts ++ k) with ((t0 :: ts) ++ k) in G1. rewrite <- Et in G1.
    destruct (parsePostfixExpression_parses t k st1) as (st2&->&A2&G2); try done.
    { by apply (stops_level 11). }
    exists st2. split; [done|finish_at].
  - assert (Hcase : exists op c, t = Operation1 None op c).
    { clear - Hg Hl Hl1. destruct t as [| | | | | | | |? [?|] ? ?|sc op c| |? op ? ?|? ? [?|] ?| | |]; simpl in Hl, Hl1; try lia.
      - simpl in Hg. destruct sc; [done|]. eauto.
      - destruct op; simpl in *; lia. }
    destruct Hcase as (op&c&->). cbn [grammatical tree_size nesting tokens app] in *. split_andb.
    peek_tok G st1 A1 G1. assert (Hop : unary_op (op_token op) = Some op) by by destruct op. rewrite Hop.
    consume_tok G1 st2 A2 G2.
    destruct (IH c ltac:(lia) m k st2) as (st3&E3&A3&G3); try (done || lia).
    rewrite (run_bind _ _ _ _ _ E3). exists st3. split; [by destruct op|finish_at].
Qed.

(** *** The ladder of binary operators *)
Ltac op_table_tac := split; [by intros [] ? [= <-]|by intros [] [=]].
Lemma parseLogicalORExpression_parses :
  parses 1 N D (parseLogicalORExpression oldSemantics MakeAbsTime MakeRelTime n parse_expr).
Proof.
  repeat (apply (parse_level_parses _ N D); [op_table_tac|lia|lia|]).
  intros t k st Hg Hl HN HD Hk G. by apply parseUnaryExpression_parses; try lia.
Qed.

(** *** The conditional operator *)
Lemma parse_conditional_spec full t k st :
  grammatical t = true -> (tree_size t <= N)%nat -> nesting t <= D -> stops 0 k ->
  (full = true -> k = [LEX_END_OF_INPUT]) -> gives st.2 (tokens t ++ k) ->
  exists st', parse_conditional oldSemantics MakeAbsTime MakeRelTime n parse_expr full st = Ret (Some t) st' /\
    st'.1 = st.1 /\ (full = false -> gives st'.2 k).
Proof.
  intros Hg HN HD Hk Hfull G. unfold parse_conditional. destruct k as [|t0 k]; [done|]. simpl in Hk.
  destruct (decide (1 <= level t)) as [Hl1|Hl1].
  - destruct (parseLogicalORExpression_parses t (t0 :: k) st) as (st1&E1&A1&G1); try (done || simpl; lia).
    rewrite (run_bind _ _ _ _ _ E1). peek_tok G1 st2 A2 G2. destruct full.
    + specialize (Hfull eq_refl). simplify_eq. consume_tok G2 st3 A3 G3. exists st3. split_and!; [done|congruence|done].
    + exists st2. split_and!; [|congruence|done]. by destruct t0; try (simpl in Hk; lia).
  - assert (Hcase : exists c1 c2 c3, t = Operation3 None c1 c2 c3).
    { clear - Hg Hl1. destruct t as [| | | | | | | |? [?|] ? ?| | |sc op c1 c2|sc c1 c2 c3| | |]; simpl in Hl1; try lia.
      - simpl in Hg. exfalso. destruct op; simpl in *; try lia; by rewrite ?andb_false_r in Hg.
      - simpl in Hg. destruct sc; [done|]. eauto. }
    destruct Hcase as (c1&c2&c3&->). cbn [grammatical tree_size nesting tokens app] in *. split_andb.
    rewrite <- app_assoc in G. cbn [app] in G.
    destruct (parseLogicalORExpression_parses c1
      (LEX_QMARK :: (match c2 with Some c2 => tokens c2 | None => [] end ++ LEX_COLON :: tokens c3) ++ t0 :: k) st)
      as (st1&E1&A1&G1); try (done || lia).
    rewrite (run_bind _ _ _ _ _ E1). peek_tok G1 st2 A2 G2. consume_tok G2 st3 A3 G3.
    destruct c2 as [c2|]; cbn [app] in G3.
    + rewrite <- app_assoc in G3. cbn [app] in G3.
      destruct (tokens_first c2 ltac:(done)) as [Hf _].
      destruct (tokens c2) as [|t1 ts] eqn:Et; [done|]. cbn [app] in G3. peek_tok G3 st4 A4 G4.
      change (t1 :: ts ++ ?x) with ((t1 :: ts) ++ x) in G4. rewrite <- Et in G4.
      destruct (run_parse_expr (fun treeM => let! tk := ConsumeTok in
        rret match tk with LEX_COLON => Some treeM | _ => None end) c2 _ st4 G4) as (st5&E5&A5&G5); try (done || lia).
      destruct (run_consume (fun tk => rret match tk with LEX_COLON => Some (Some c2) | _ => None end) st5 _ _ G5)
        as (st6&E6&A6&G6).
      assert (Hmid : match t1 with
        | LEX_COLON => let! _ := ConsumeTok in rret (Some None)
        | _ => let! treeM := parse_expr in
               let! tk := ConsumeTok in rret match tk with LEX_COLON => Some treeM | _ => None end
        end st4 = Ret (Some (Some c2)) st6).
      { destruct (starts_tree_not _ Hf) as (_&_&Hne). rewrite E6 in E5. destruct t1; (done || exact E5). }
      rewrite (run_bind _ _ _ _ _ Hmid). run_expr G6 st7 A7 G7. exists st7. split_and!; [done|congruence|done].
    + peek_tok G3 st4 A4 G4.
      destruct (run_consume (fun _ => rret (Some (None : option ExprTree))) st4 _ _ G4) as (st5&E5&A5&G5).
      unfold rret at 1 in E5. rewrite (run_bind _ _ _ _ _ E5). run_expr G5 st6 A6 G6.
      exists st6. split_and!; [done|congruence|done].
Qed.
End levels.

(** ** The parser *)
Lemma parseExpression_parses : forall n depth N full t k st, 0 <= depth -> (N < n)%nat ->
  grammatical t = true -> (tree_size t <= N)%nat -> nesting t <= MAX_PARSE_DEPTH - 1 - depth -> stops 0 k ->
  (full = true -> k = [LEX_END_OF_INPUT]) -> gives st.2 (tokens t ++ k) ->
  exists st', parseExpression oldSemantics MakeAbsTime MakeRelTime n depth full st = Ret (Some t) st' /\
    st'.1 = st.1 /\ (full = false -> gives st'.2 k).
Proof.
  induction n as [|n IH]; intros depth N full t k st Hd Hn Hg HN HD Hk Hfull G; [lia|]. cbn [parseExpression].
  pose proof (nesting_nonneg t) as Hnest.
  destruct (Z.ltb_spec MAX_PARSE_DEPTH (depth + 1)); [lia|].
  eapply (parse_conditional_spec N (MAX_PARSE_DEPTH - 1 - depth) n _); try done; [lia|].
  intros M HM t' k' st' Hg' _ HN' HD' Hk' G'.
  destruct (IH (depth + 1) M false t' k' st') as (st1&E1&A1&G1); try (done || lia).
  exists st1. split; [done|]. split; [done|auto].
Qed.
End parse.
