(* ===== verification/TextFacts.v ===== *)
(** * The text of a tree

    The lexer as a source of tokens; what the unparser writes for a tree is lexed into the
    tokens of the tree. *)
From Stdlib Require Import ZArith Lia Ascii String SpecFloat.
From stdpp Require Import base list gmap strings.
From S2P Require Import Prelude Double Numerals Tree Values Lexer FlatMap AdStore Parser Unparser LexerFacts LexerLaws LexerProgress Grammar.

(** ** Reals *)
Section reals.
Variables oldSemantics oldClassAdLex : bool.

(** Digits with a fraction and an optional exponent. *)
Inductive exponent_text : text -> Prop :=
| no_exponent : exponent_text []
| exponent sign d : sign = "+"%char \/ sign = "-"%char -> forallb isdigit d = true -> d <> [] ->
    exponent_text ("E"%char :: sign :: d).
(** What follows the whole digits of a real: a fraction, an exponent, or both. *)
Inductive tail_text : text -> Prop :=
| tail_fraction f e : forallb isdigit f = true -> f <> [] -> exponent_text e -> tail_text ("."%char :: f ++ e)
| tail_exponent e : exponent_text e -> e <> [] -> tail_text e.

Lemma stops_digit k : stops_at isword k -> stops_at isdigit k.
Proof. apply stops_weaken. intros d. rewrite isword_split. intros ->. by rewrite orb_true_r. Qed.
Lemma factor_none lx k : inside lx k -> stops_at isword k -> factor_of (cut lx) = NO_FACTOR.
Proof.
  intros Hi Hk. unfold factor_of. assert (Hl : forall l, l ∈ number_letters -> lower_is l (cut lx) = false).
  { intros l Hl. exact (lower_is_stops l lx k Hl Hi Hk). }
  by rewrite !Hl by (unfold number_letters; set_solver).
Qed.

Lemma finish_real lx k : inside lx k -> stops_at isword k ->
  exists lx', finish_number oldSemantics REAL lx = Some (LEX_REAL_VALUE (strtod (buffer lx)) NO_FACTOR, lx') /\
    reads lx' k.
Proof.
  intros Hi Hk. exists (cut lx). unfold finish_number. rewrite (factor_none lx k Hi Hk). split; [done|].
  destruct Hi as (Hu&_&_&Hn). apply cut_reads; [done|by rewrite Hu].
Qed.

(** One more character, one more run of characters. *)
Lemma moved_wind lx w lx1 c r : moved lx w lx1 (c :: r) -> inside lx1 (c :: r) ->
  moved lx (w ++ [c]) (wind lx1) r /\ inside (wind lx1) r.
Proof.
  intros Hm Hi. assert (H := wind_moved _ _ _ Hi). split; [by eapply moved_trans|].
  by apply (moved_no_nul lx1 [c] _ _ _ Hi eq_refl).
Qed.
Lemma moved_while lx w lx1 p d k : moved lx w lx1 (d ++ k) -> inside lx1 (d ++ k) ->
  stops_at p k -> forallb p d = true ->
  moved lx (w ++ d) (wind_while p lx1) k /\ inside (wind_while p lx1) k.
Proof.
  intros Hm Hi Hk Hd. assert (H := wind_while_moved p d k _ Hk Hi Hd). split; [by eapply moved_trans|].
  by apply (moved_no_nul lx1 d _ _ _ Hi eq_refl).
Qed.

Lemma number_exponent_real lx e k : inside lx (e ++ k) -> exponent_text e -> stops_at isword k ->
  exists lx1 lx', moved lx e lx1 k /\
    number_exponent oldSemantics REAL lx = Some (LEX_REAL_VALUE (strtod (buffer lx1)) NO_FACTOR, lx') /\ reads lx' k.
Proof.
  intros Hi He Hk. unfold number_exponent. destruct He as [|sign d Hs Hd Hne].
  - simpl in Hi. rewrite (lower_is_stops "e" lx k) by (done || unfold number_letters; set_solver).
    destruct (finish_real lx k Hi Hk) as (lx'&E&Hr). exists lx, lx'. split_and!; [by apply moved_refl|done|done].
  - simpl in Hi. assert (Hc := inside_cons _ _ _ Hi). unfold lower_is at 1, ch_is at 1. rewrite (holds_ch _ _ _ Hc).
    destruct (moved_wind _ [] _ _ _ (moved_refl _ _ Hi) Hi) as [Hm1 Hi1].
    assert (Hc1 := inside_cons _ _ _ Hi1). destruct (moved_wind _ _ _ _ _ Hm1 Hi1) as [Hm2 Hi2].
    assert (Hsign : at_char "+" (wind lx) || at_char "-" (wind lx) = true).
    { unfold at_char, ch_is. rewrite (holds_ch _ _ _ Hc1). by destruct Hs as [->| ->]. }
    cbn zeta. simpl Ascii.eqb. cbn iota. rewrite Hsign.
    assert (Hdig : ch_is isdigit (wind (wind lx)) = true).
    { destruct d as [|c d]; [done|]. simpl in Hi2. unfold ch_is. rewrite (holds_ch _ _ _ (inside_cons _ _ _ Hi2)).
      simpl in Hd. by destruct (isdigit c). }
    rewrite Hdig. cbn [negb].
    destruct (moved_while _ _ _ isdigit d k Hm2 Hi2 (stops_digit k Hk) Hd) as [Hm Hi3].
    destruct (finish_real _ k Hi3 Hk) as (lx'&E&Hr). eexists _, lx'. split_and!; [exact Hm|exact E|done].
Qed.

Lemma number_fraction_real lx t k : inside lx (t ++ k) -> tail_text t -> stops_at isword k ->
  exists lx1 lx', moved lx t lx1 k /\
    number_fraction oldSemantics false REAL lx = Some (LEX_REAL_VALUE (strtod (buffer lx1)) NO_FACTOR, lx') /\
    reads lx' k.
Proof.
  intros Hi Ht Hk. destruct Ht as [f e Hf Hne He|e He Hne].
  - cbn [app] in Hi. rewrite <- app_assoc in Hi. assert (Hdot : at_char "." lx = true).
    { unfold at_char, ch_is. by rewrite (holds_ch _ _ _ (inside_cons _ _ _ Hi)). }
    unfold number_fraction. cbn [orb]. rewrite Hdot. cbn zeta.
    destruct (moved_wind _ [] _ _ _ (moved_refl _ _ Hi) Hi) as [Hm1 Hi1].
    assert (Hdig : ch_is isdigit (wind lx) = true).
    { destruct f as [|c f]; [done|]. unfold ch_is. rewrite (holds_ch _ _ _ (inside_cons _ _ _ Hi1)).
      simpl in Hf. by destruct (isdigit c). }
    rewrite Hdig. assert (Hstop : stops_at isdigit (e ++ k)) by (destruct He; [by apply stops_digit|done]).
    destruct (moved_while _ _ _ isdigit f (e ++ k) Hm1 Hi1 Hstop Hf) as [Hm2 Hi2].
    destruct (number_exponent_real _ e k Hi2 He Hk) as (lx1&lx'&Hm3&E&Hr).
    exists lx1, lx'. split_and!; [|exact E|done]. exact (moved_trans _ _ _ _ _ _ _ Hm2 Hm3).
  - unfold number_fraction. cbn [orb]. assert (Hdot : at_char "." lx = false).
    { destruct He; [done|]. unfold at_char, ch_is. by rewrite (holds_ch _ _ _ (inside_cons _ _ _ Hi)). }
    rewrite Hdot. by apply number_exponent_real.
Qed.

Lemma tail_stops t k : tail_text t -> stops_at isdigit (t ++ k).
Proof. intros [f e _ _ _|e He Hne]; [done|]. by destruct He. Qed.
(** Where the whole digits end. *)
Lemma tail_start lx t k : inside lx (t ++ k) -> tail_text t ->
  at_char "." lx || lower_is "e" lx = true /\ lower_is "x" lx = false.
Proof.
  intros Hi Ht. destruct Ht as [f e _ _ _|e [|sign d _ _ _] Hne]; try done;
    split; unfold at_char, lower_is, ch_is; by rewrite (holds_ch _ _ _ (inside_cons _ _ _ Hi)).
Qed.

Lemma octal_digits_wind n b lx : (octal_digits n b lx).2 = wind_while_n n isdigit lx.
Proof. revert b lx. induction n as [|n IH]; intros b lx; simpl; [done|]. case_match; [apply IH|done]. Qed.

Lemma number_whole_real och w t lx k : inside lx (w ++ t ++ k) ->
  isdigit och = true -> forallb isdigit w = true -> tail_text t -> stops_at isword k ->
  exists lx1 lx', moved lx (w ++ t) lx1 k /\
    number_whole oldSemantics och lx = Some (LEX_REAL_VALUE (strtod (buffer lx1)) NO_FACTOR, lx') /\ reads lx' k.
Proof.
  intros Hi Ho Hw Ht Hk.
  assert (Hstop : stops_at isdigit (t ++ k)) by by eapply (tail_stops t).
  assert (Hm := wind_while_moved isdigit w (t ++ k) lx Hstop Hi Hw).
  assert (Hi1 := moved_no_nul _ w _ _ _ Hi eq_refl Hm). destruct (tail_start _ t k Hi1 Ht) as [Hstart _].
  destruct (number_fraction_real _ t k Hi1 Ht Hk) as (lx1&lx'&Hm2&E&Hr).
  exists lx1, lx'. split_and!; [by eapply moved_trans| |done].
  unfold number_whole. destruct (Ascii.eqb_spec och "0") as [->|Hne0].
  - assert (Hx : lower_is "x" lx = false).
    { destruct w as [|c w]; [exact (proj2 (tail_start _ t k Hi Ht))|]. simpl in Hi. unfold lower_is, ch_is.
      rewrite (holds_ch _ _ _ (inside_cons _ _ _ Hi)). simpl in Hw. apply andb_prop in Hw as [Hc _].
      revert Hc. by_chars (fun c => negb (isdigit c) || negb (Ascii.eqb "x" (tolower c))).
      intros H Hc. specialize (H c). rewrite Hc in H. by apply negb_true_iff in H. }
    rewrite Hx. pose proof (octal_digits_wind (S (length (rest lx))) true lx) as Eo.
    destruct (octal_digits _ _ _) as [o lx2]. cbn [snd] in Eo. subst lx2.
    change (wind_while_n (S (length (rest lx))) isdigit lx) with (wind_while isdigit lx).
    by rewrite Hstart.
  - rewrite Ho. cbn zeta. by rewrite Hstart.
Qed.

Lemma lexes_real prev (neg : bool) c w tl k :
  isdigit c = true -> forallb isdigit w = true -> tail_text tl -> stops_at isword k ->
  (neg = true -> ends_operand prev = false) ->
  let t := (if neg then ["-"%char] else []) ++ c :: w ++ tl in
  lexes oldSemantics oldClassAdLex prev (t ++ k) (LEX_REAL_VALUE (strtod t) NO_FACTOR) k.
Proof.
  intros Hc Hw Htl Hk Hneg t. destruct (digit_head c Hc) as (H1&H2&H3).
  assert (Ht : t ++ k = (if neg then ["-"%char] else []) ++ c :: w ++ tl ++ k).
  { unfold t. rewrite <- !app_assoc. cbn [app]. by rewrite <- !app_assoc. }
  destruct neg; cbn [app] in *.
  - rewrite Ht. eapply lexes_intro; [reflexivity|done|]. intros lx (Hh&Htt&_).
    assert (Hi := mark_inside _ _ _ Hh). destruct (moved_wind _ [] _ _ _ (moved_refl _ _ Hi) Hi) as [Hm1 Hi1].
    destruct (moved_wind _ _ _ _ _ Hm1 Hi1) as [Hm2 Hi2].
    destruct (number_whole_real c w tl _ k Hi2 Hc Hw Htl Hk) as (lx1&lx'&Hm3&E&Hr).
    assert (Hb := buffer_of (mark lx) _ _ _ eq_refl (moved_trans _ _ _ _ _ _ _ Hm2 Hm3)).
    exists lx'. split; [|done]. unfold next_token. rewrite (holds_ch _ _ _ Hh). simpl.
    rewrite Htt, Hneg by done. unfold tokenizeNumber. rewrite (holds_ch _ _ _ Hh). simpl.
    rewrite (holds_ch _ _ _ (inside_cons _ _ _ Hi1)), Hc, E. unfold t. change (buffer lx1) with (buffer (cut lx1)).
    by rewrite Hb.
  - rewrite Ht. eapply lexes_intro; [simpl; by rewrite H2|done|]. intros lx (Hh&_&_).
    assert (Hi := mark_inside _ _ _ Hh). destruct (moved_wind _ [] _ _ _ (moved_refl _ _ Hi) Hi) as [Hm1 Hi1].
    destruct (number_whole_real c w tl _ k Hi1 Hc Hw Htl Hk) as (lx1&lx'&Hm3&E&Hr).
    assert (Hb := buffer_of (mark lx) _ _ _ eq_refl (moved_trans _ _ _ _ _ _ _ Hm1 Hm3)).
    exists lx'. split; [|done]. unfold next_token. rewrite (holds_ch _ _ _ Hh), H1, Hc. simpl.
    unfold tokenizeNumber. rewrite (holds_ch _ _ _ Hh), H1, E. unfold t. change (buffer lx1) with (buffer (cut lx1)).
    by rewrite Hb.
Qed.
End reals.

(** Every number the loop of [append_long] writes is a text of digits. *)
Lemma digits_loop_digits n : forall l acc, forallb isdigit acc = true -> (0 < n)%nat ->
  forallb isdigit (digits_loop n l acc) = true /\ (length acc < length (digits_loop n l acc))%nat.
Proof.
  induction n as [|n IH]; intros l acc Ha Hn; [lia|]. cbn [digits_loop].
  assert (Hd : isdigit (digit (l mod 10)) = true).
  { pose proof (Z.mod_pos_bound l 10 ltac:(lia)). by apply digit_cases. }
  assert (Ha' : forallb isdigit (digit (l mod 10) :: acc) = true) by (simpl; by rewrite Hd).
  destruct (l / 10 =? 0); [split; [done|simpl; lia]|]. destruct n as [|n]; [split; [done|simpl; lia]|].
  destruct (IH (l / 10) (digit (l mod 10) :: acc) Ha') as [H1 H2]; [lia|]. split; [done|cbn [length] in H2; lia].
Qed.
Lemma digits_text l : exists c w, digits l = c :: w /\ forallb isdigit (c :: w) = true.
Proof.
  destruct (digits_loop_digits 20 l [] eq_refl ltac:(lia)) as [H1 H2]. change (digits_loop 20 l []) with (digits l) in *.
  destruct (digits l) as [|c w]; [simpl in H2; lia|]. by exists c, w.
Qed.
Lemma digits_tail l : l / 10 <> 0 -> forallb isdigit (List.tl (digits l)) = true /\ List.tl (digits l) <> [].
Proof.
  intros Hl. destruct (digits_text l) as (c&w&E&Hd). rewrite E. simpl in Hd. apply andb_prop in Hd as [_ Hd].
  split; [done|]. simpl. intros ->. unfold digits in E.
  change (digits_loop 20 l []) with (if l / 10 =? 0 then [digit (l mod 10)]
    else digits_loop 19 (l / 10) [digit (l mod 10)]) in E.
  destruct (Z.eqb_spec (l / 10) 0) as [|_]; [done|].
  destruct (digits_loop_digits 19 (l / 10) [digit (l mod 10)]) as [_ H2]; [|lia|].
  - simpl. destruct (digit_cases (l mod 10)) as (->&_); [apply Z.mod_pos_bound; lia|done].
  - rewrite E in H2. simpl in H2. lia.
Qed.

(** The texts of finite reals. *)
Definition finite_real (r : double) : bool :=
  match r with S754_zero _ | S754_finite _ _ _ => true | _ => false end.
Definition real_sign (r : double) : bool :=
  match r with S754_zero s | S754_finite s _ _ => s | _ => false end.
Lemma exponent_part_text k : exponent_text (exponent_part k).
Proof.
  unfold exponent_part. assert (Hd : forallb isdigit (two_digits (Z.abs k)) = true /\ two_digits (Z.abs k) <> []).
  { unfold two_digits. destruct (digits_text (Z.abs k)) as (d&v&->&?). by case_match. }
  destruct Hd. apply exponent; [|done..]. by destruct (k <? 0); [right|left].
Qed.
Lemma forallb_rev {A} (p : A -> bool) l : forallb p (rev l) = forallb p l.
Proof. induction l as [|x l IH]; [done|]. simpl. rewrite forallb_app, IH. simpl. rewrite andb_true_r. apply andb_comm. Qed.
Lemma drop_zeros_digits s : forallb isdigit s = true -> forallb isdigit (drop_zeros s) = true.
Proof.
  induction s as [|c s IH]; [done|]. cbn [forallb drop_zeros]. intros [Hc Hs]%andb_prop. case_match; [auto|].
  simpl. by rewrite Hc, Hs.
Qed.
(** A fraction without zeros at its end is nothing or a point with digits. *)
Lemma fraction_part_text f : forallb isdigit f = true ->
  fraction_part f = [] \/ exists f', fraction_part f = "."%char :: f' /\ forallb isdigit f' = true /\ f' <> [].
Proof.
  intros Hf. unfold fraction_part. assert (H : forallb isdigit (rev (drop_zeros (rev f))) = true).
  { rewrite forallb_rev. apply drop_zeros_digits. by rewrite forallb_rev. }
  destruct (rev _) as [|c l]; [by left|right]. by exists (c :: l).
Qed.
Lemma take_drop_digits n s : forallb isdigit s = true ->
  forallb isdigit (take n s) = true /\ forallb isdigit (drop n s) = true.
Proof. intros H. rewrite <- (take_drop n s), forallb_app in H. by apply andb_prop in H. Qed.

(** The texts of [%.16G]: whole digits, with or without a fraction or an exponent. *)
Lemma format_G16_text s m e : exists c w t, isdigit c = true /\ forallb isdigit w = true /\
  format_G16 s m e = (if s then ["-"%char] else []) ++ c :: w ++ t /\ (t = [] \/ tail_text t).
Proof.
  unfold format_G16. destruct (sixteen_digits m e) as [n k]. destruct (digits_text n) as (c&w&->&Hd).
  assert (Htail : forall f ex, forallb isdigit f = true -> ex = [] \/ exponent_text ex ->
    fraction_part f ++ ex = [] \/ tail_text (fraction_part f ++ ex)).
  { intros f ex Hf Hex. assert (Hex' : exponent_text ex) by (destruct Hex as [->|]; [constructor|done]).
    destruct (fraction_part_text f Hf) as [->|(f'&->&Hf'&Hne)]; [|right; by apply (tail_fraction f')].
    destruct ex; [by left|right]. by apply tail_exponent. }
  destruct ((-4 <=? k) && (k <? 16)) eqn:Ek; [destruct (k <? 0) eqn:E0|].
  - exists "0"%char, [], (fraction_part (replicate (Z.to_nat (- k - 1)) "0"%char ++ c :: w)). split_and!; try done.
    rewrite <- (app_nil_r (fraction_part _)). apply Htail; [|by left]. rewrite forallb_app, Hd, andb_true_r.
    by induction (Z.to_nat _).
  - replace (Z.to_nat (k + 1)) with (S (Z.to_nat k)) by lia. cbn [take drop forallb] in *. apply andb_prop in Hd as [Hc Hw].
    destruct (take_drop_digits (Z.to_nat k) w Hw) as [H1 H2].
    eexists c, (take (Z.to_nat k) w), _. split_and!; [done|done|reflexivity|].
    rewrite <- (app_nil_r (fraction_part _)). apply Htail; [done|by left].
  - cbn [take drop forallb] in *. apply andb_prop in Hd as [Hc Hw].
    eexists c, [], _. split_and!; [done|done|reflexivity|]. apply Htail; [done|right; apply exponent_part_text].
Qed.
(** The characters that tell a real from an integer. *)
Definition marks_real (c : ascii) : bool := Ascii.eqb c "." || Ascii.eqb c "E" || Ascii.eqb c "e".
Lemma tail_text_marked t : tail_text t -> existsb marks_real t = true.
Proof. intros [f e _ _ _|e He Hne]; [done|by destruct He]. Qed.
Lemma digits_unmarked s : forallb isdigit s = true -> existsb marks_real s = false.
Proof.
  induction s as [|c s IH]; [done|]. cbn [forallb existsb]. intros [Hc Hs]%andb_prop. rewrite IH, orb_false_r by done.
  revert Hc. by_chars (fun c => negb (isdigit c) || negb (marks_real c)).
  intros H Hc. specialize (H c). rewrite Hc in H. by apply negb_true_iff in H.
Qed.

Lemma UnparseReal_text old r : finite_real r = true ->
  exists c w t, isdigit c = true /\ forallb isdigit w = true /\ tail_text t /\
  UnparseReal old r = (if real_sign r then ["-"%char] else []) ++ c :: w ++ t.
Proof.
  destruct r as [s| | |s m e]; try done; intros _; unfold real_sign, UnparseReal.
  - exists "0"%char, [], (txt ".0"). split_and!; try done; [|by destruct s].
    by apply (tail_fraction ["0"%char] []); [| |constructor].
  - destruct old.
    + destruct (format_G16_text s m e) as (c&w&t&Hc&Hw&E&Ht). cbn zeta. fold marks_real.
      assert (Em : existsb marks_real (format_G16 s m e) = existsb marks_real t).
      { rewrite E, app_comm_cons, !existsb_app, (digits_unmarked (c :: w)) by (simpl; by rewrite Hc). by destruct s. }
      rewrite Em. destruct Ht as [->|Ht].
      * exists c, w, (txt ".0"). cbn [existsb]. rewrite E, app_nil_r, <- app_assoc. split_and!; try done.
        by apply (tail_fraction ["0"%char] []); [| |constructor].
      * rewrite tail_text_marked by done. by exists c, w, t.
    + unfold format_E15. destruct (sixteen_digits m e) as [n k].
      destruct (digits_text (n / 10 ^ 15)) as (c&w&->&Hd). simpl in Hd. apply andb_prop in Hd as [Hc Hw].
      destruct (digits_tail (10 ^ 15 + n mod 10 ^ 15)) as [Hf Hne].
      { pose proof (Z.mod_pos_bound n (10 ^ 15) ltac:(lia)). apply Z.neq_sym, Z.lt_neq, Z.div_str_pos. lia. }
      exists c, w, ("."%char :: List.tl (digits (10 ^ 15 + n mod 10 ^ 15)) ++ exponent_part k).
      split_and!; try done. apply tail_fraction; [done|done|apply exponent_part_text].
Qed.

(** ** The lexer as a source of tokens *)
Section stream.
Variables oldSemantics oldClassAdLex : bool.
Abbreviation lexes := (lexes oldSemantics oldClassAdLex).

(** The text [s] is lexed into the tokens [ts], and more; [prev] is the token before. *)
Fixpoint yields (prev : Token) (s : text) (ts : list Token) : Prop :=
  match ts with
  | [] => True
  | t :: ts' => exists k, lexes prev s t k /\ yields t k ts'
  end.

(** The tokens the next calls of [ConsumeToken] return. *)
Fixpoint lexer_gives (lx : Lexer) (ts : list Token) : Prop :=
  match ts with
  | [] => True
  | t :: ts' => exists lx', ConsumeToken oldSemantics oldClassAdLex lx = Some (t, lx') /\ lexer_gives lx' ts'
  end.

(** A token that was looked at is consumed as if it had not been. *)
Lemma Peek_then_Consume lx t lx' : ConsumeToken oldSemantics oldClassAdLex lx = Some (t, lx') ->
  exists lp, PeekToken oldSemantics oldClassAdLex lx = Some (t, lp) /\
    PeekToken oldSemantics oldClassAdLex lp = Some (t, lp) /\
    ConsumeToken oldSemantics oldClassAdLex lp = Some (t, lx').
Proof.
  unfold ConsumeToken. destruct (PeekToken_returns oldSemantics oldClassAdLex lx) as (t1&lp&E1&P1&P2&_).
  rewrite E1. simpl. intros [= <- <-]. exists lp. split; [done|]. unfold PeekToken. rewrite P1. simpl. by rewrite P2.
Qed.

#[export] Program Instance Lexer_stream : @TokenStream Lexer (Lexer_tokens oldSemantics oldClassAdLex) := {|
  gives := lexer_gives
|}.
Next Obligation.
  intros lx t ts (lx'&E&H). destruct (Peek_then_Consume _ _ _ E) as (lp&E1&_&E2). exists lp.
  split; [done|]. by exists lx'.
Qed.
Next Obligation. done. Qed.

Lemma yields_gives ts : forall lx s, reads lx s -> tokenConsumed lx = true -> yields (tokenType lx) s ts ->
  lexer_gives lx ts.
Proof.
  induction ts as [|t ts IH]; [done|]. intros lx s Hr Hc (k&Hl&Hy).
  destruct (Hl lx) as (lx'&E&Hr'&Hc'&Ht'); [by split_and!|]. exists lx'. split; [done|].
  apply (IH _ k); [done|done|by rewrite Ht'].
Qed.
Lemma Initialize_gives s lx ts : no_nul s -> yields (tokenType lx) s ts -> lexer_gives (Initialize s lx) ts.
Proof. intros Hn Hy. by apply (yields_gives _ _ s). Qed.

(** The tokens of a concrete text, by computation. *)
Fixpoint lex_tokens (n : nat) (lx : Lexer) : list Token :=
  match n with
  | O => []
  | S n' => match ConsumeToken oldSemantics oldClassAdLex lx with
            | Some (t, lx') => t :: lex_tokens n' lx'
            | None => []
            end
  end.
Lemma lex_tokens_gives n : forall lx, lexer_gives lx (lex_tokens n lx).
Proof.
  induction n as [|n IH]; intros lx; [done|]. cbn [lex_tokens].
  destruct (ConsumeToken _ _ lx) as [[t lx']|] eqn:E; [|done]. exists lx'. auto.
Qed.

(** White space before a token does not matter. *)
Lemma lexes_space prev s s' t k : drop_ws s = drop_ws s' -> lexes prev s t k -> lexes prev s' t k.
Proof. intros E H lx (Hr&Hc&Ht). apply H. split_and!; [by eapply reads_ws|done|done]. Qed.
Lemma yields_space prev s ts : yields prev s ts -> yields prev (" "%char :: s) ts.
Proof. destruct ts as [|t ts]; [done|]. intros (k&H&Hy). exists k. split; [by eapply lexes_space; [|exact H]|done]. Qed.

Lemma skip_blanks_end n : forall lx, ch lx <> EMPTY -> drop_ws (upcoming lx) = [] -> no_nul (upcoming lx) ->
  (length (upcoming lx) <= n)%nat ->
  exists lx', skip_blanks n lx = (SkipDone, lx') /\ ch lx' = EOF.
Proof.
  induction n as [|n IH]; intros lx He Hd Hn Hlen; unfold upcoming in Hd, Hn, Hlen.
  { exists lx. split; [done|]. destruct (ch lx); [done|done|simpl in Hlen; lia]. }
  destruct (ch lx) as [| |d] eqn:Hch; [done| |].
  - exists lx. split; [|done]. cbn [skip_blanks]. unfold at_char, ch_is. by rewrite Hch.
  - simpl in Hd. destruct (isspace d) eqn:Hs; [|done].
    assert (Hl : holds lx d (rest lx)) by done. destruct (wound_fields lx d (rest lx)) as (_&_&F3).
    apply no_nul_cons in Hn as [_ Hn].
    destruct (IH (wound lx d (rest lx)) F3) as (lx'&E&?); rewrite ?wound_upcoming; try done; [simpl in Hlen; lia|].
    exists lx'. split; [|done]. cbn [skip_blanks]. unfold ch_is at 1. by rewrite Hch, Hs, (wind_holds _ _ _ Hl).
Qed.
Lemma lexes_end prev s : drop_ws s = [] -> lexes prev s LEX_END_OF_INPUT [].
Proof.
  intros Hs lx (Hr&Hcons&Hprev). unfold ConsumeToken, PeekToken. rewrite Hcons. cbn [negb].
  destruct (fetch_reads lx s Hr) as (He&[Hu Hn]&Ht&Htc). cbn zeta.
  set (lx0 := fetch (set_consumed false lx)) in *.
  destruct (skip_blanks_end (S (length (rest lx0))) lx0) as (lx1&E&Hh); try done.
  - by rewrite Hu.
  - by apply upcoming_length.
  - rewrite E. unfold next_token. rewrite Hh. eexists. split; [done|]. split; [|done].
    split; unfold upcoming; simpl; rewrite Hh; [done|constructor].
Qed.
End stream.
