(* ===== verification/RoundTrip.v ===== *)
(** * Round trips through text

    Which trees the unparser prints so that they are read back, and the proof that they are. *)
From Stdlib Require Import ZArith Lia Ascii String SpecFloat.
From stdpp Require Import base list gmap strings.
From S2P Require Import Prelude Double Numerals Tree Values Lexer FlatMap AdStore AdStoreFacts Parser Unparser LexerFacts LexerLaws LexerProgress ParserFacts Grammar TextFacts.

Open Scope Z_scope.

(** ** Trees that print faithfully *)

(** The text begins with a digit: after a minus sign it would be read as a negative number. *)
Fixpoint begins_number (t : ExprTree) : bool :=
  match t with
  | IntegerLiteral i => 0 <=? i
  | RealLiteral r => negb (real_sign r)
  | AttributeReference _ (Some e) _ _ => begins_number e
  | Operation2 _ _ c1 _ => begins_number c1
  | Operation3 _ c1 _ _ => begins_number c1
  | _ => false
  end.

(** A number before a point would be read as a real. *)
Definition is_number (t : ExprTree) : bool :=
  match t with IntegerLiteral _ | RealLiteral _ => true | _ => false end.

Definition nul_free_text (s : string) : bool := forallb (fun c => negb (Ascii.eqb c "000")) (txt s).
Definition is_plain (s : string) : bool := negb (identifierNeedsQuoting (txt s)).

(** The syntax, new or old, of both the unparser and the lexer. *)
Section printable.
Variable old : bool.

(** The value a double has after the format of the unparser and [strtod]. *)
Definition real_survives (r : double) : bool :=
  finite_real r && match strtod (UnparseReal old r), r with
                   | S754_zero a, S754_zero b => Bool.eqb a b
                   | S754_finite a m e, S754_finite b m' e' => Bool.eqb a b && (m =? m')%positive && (e =? e')
                   | _, _ => false
                   end.

Fixpoint printable (t : ExprTree) : bool :=
  match t with
  | ErrorLiteral | UndefinedLiteral | BooleanLiteral _ => true
  | IntegerLiteral i => (INT64_MIN <=? i) && (i <=? INT64_MAX)
  | RealLiteral r => real_survives r
  | StringLiteral s => nul_free_text s && fits old dquote s
  | ReltimeLiteral _ | AbstimeLiteral _ | ClassAdNode _ => false
  | AttributeReference _ None s _ => nul_free_text s && fits old squote s
  | AttributeReference _ (Some e) s _ => printable e && negb (is_number e) && is_plain s
  | Operation1 _ op c => printable c && negb (bool_decide (op = UNARY_MINUS_OP) && begins_number c)
  | OperationParens _ c => printable c
  | Operation2 _ _ c1 c2 => printable c1 && printable c2
  | Operation3 _ c1 c2 c3 => printable c1 && match c2 with Some c2 => printable c2 | None => true end && printable c3
  | FunctionCall _ f l => is_plain f && forallb printable l
  | ExprList _ l => forallb printable l
  end.

Lemma real_survives_strtod r : real_survives r = true -> finite_real r = true /\ strtod (UnparseReal old r) = r.
Proof.
  unfold real_survives. intros [-> H]%andb_prop. split; [done|].
  destruct (strtod _), r; try done; split_andb;
    repeat match goal with
    | H : Bool.eqb _ _ = true |- _ => apply eqb_prop in H
    | H : (_ =? _)%positive = true |- _ => apply Pos.eqb_eq in H
    | H : (_ =? _) = true |- _ => apply Z.eqb_eq in H
    end; congruence.
Qed.
End printable.

Lemma nul_free_text_spec s : nul_free_text s = true -> no_nul (txt s).
Proof.
  unfold nul_free_text, no_nul. rewrite forallb_forall. intros H. apply Forall_forall. intros c Hc.
  specialize (H c (proj1 (list_elem_of_In _ _) Hc)). apply negb_true_iff in H. intros ->. done.
Qed.
Lemma is_plain_spec s : is_plain s = true -> plain_word s.
Proof. by intros H%negb_true_iff. Qed.

(** ** What the text of a tree begins with, and what may follow it *)
Section text.
Variables oldSemantics old : bool.
Variable absTimeToString : abstime_t -> text.
Variable relTimeToString : double -> text.
Variable unparse_ad : adref -> text.
Abbreviation U := (Unparse old absTimeToString relTimeToString unparse_ad).
Abbreviation lexes := (lexes oldSemantics old).
Abbreviation yields := (yields oldSemantics old).
Abbreviation printable := (printable old).
Abbreviation unparse_name := (unparse_name old).

(** The text may follow an operator sign. *)
Definition begins_well (number : bool) (s : text) : Prop :=
  stops_at (Ascii.eqb "=") s /\ (number = false -> stops_minus s).

Lemma begins_char b c s : Ascii.eqb "=" c = false -> isdigit c = false -> c <> "."%char -> begins_well b (c :: s).
Proof.
  intros H1 H2 H3. split; [done|]. intros _. split; [done|].
  destruct c as [[] [] [] [] [] [] [] []]; done.
Qed.
Lemma begins_digit c s : isdigit c = true -> begins_well true (c :: s).
Proof.
  intros Hc. split; [|done]. simpl. revert Hc.
  by_chars (fun c => negb (isdigit c) || negb (Ascii.eqb "=" c)). intros H Hc. specialize (H c). rewrite Hc in H.
  by apply negb_true_iff in H.
Qed.

(** The first character of a name, quoted or not. *)
Lemma plain_word_first s : plain_word s -> exists c w, txt s = c :: w /\ word_char c = true.
Proof.
  intros H. apply needs_no_quoting in H as [H _]. destruct (txt s) as [|c w]; [done|]. simpl in H.
  exists c, w. by destruct (word_char c).
Qed.
Lemma word_char_begins c : word_char c = true -> Ascii.eqb "=" c = false /\ isdigit c = false /\ c <> "."%char.
Proof.
  by_chars (fun c => negb (word_char c) || negb (Ascii.eqb "=" c) && negb (isdigit c) && negb (Ascii.eqb c ".")).
  intros H Hc. specialize (H c). rewrite Hc in H. simpl in H. split_andb. split_and!; try done.
  by apply Ascii.eqb_neq.
Qed.
Lemma unparse_name_first s : no_nul (txt s) -> exists c w, unparse_name s = c :: w /\
  Ascii.eqb "=" c = false /\ isdigit c = false /\ c <> "."%char.
Proof.
  intros Hs. unfold unparse_name. destruct (identifierNeedsQuoting _) eqn:E; [by eexists _, _|].
  apply needs_no_quoting in E as [E _]. destruct (escape_in _ _ _) as [|c w]; [done|].
  exists c, w. split; [done|]. simpl in E. apply word_char_begins. by destruct (word_char c).
Qed.

Lemma text_begins t : grammatical t = true -> printable t = true -> forall k, begins_well (begins_number t) (U t ++ k).
Proof.
  induction t using ExprTree_induct; cbn [grammatical printable begins_number Unparse]; intros Hg Hp k; split_andb;
    try done; try (by apply begins_char).
  - by destruct b; apply begins_char.
  - unfold append_long. destruct (Z.leb_spec 0 i).
    + destruct (digits_text i) as (c&w&->&Hd). simpl in Hd. apply andb_prop in Hd as [Hc _]. by apply begins_digit.
    + by apply begins_char.
  - destruct (real_survives_strtod _ r Hp) as [Hf _].
    destruct (UnparseReal_text old r Hf) as (c&w&t&Hc&_&_&->). destruct (real_sign r); [by apply begins_char|by apply begins_digit].
  - destruct (unparse_name_first a ltac:(by apply nul_free_text_spec)) as (c&w&->&?&?&?). destruct b.
    + cbn [app]. split; [done|]. intros _. by split.
    + by apply begins_char.
  - rewrite <- app_assoc. by apply IHt.
  - by destruct op; try done; apply begins_char.
  - assert (Hop : exists s, (match op with
      | SUBSCRIPT_OP => U t1 ++ "["%char :: U t2 ++ ["]"%char]
      | _ => U t1 ++ binary_string old op ++ U t2 end) = U t1 ++ s) by (destruct op; by eexists).
    destruct Hop as [s ->]. rewrite <- app_assoc. by apply IHt1.
  - rewrite <- app_assoc. by apply IHt1.
  - rewrite <- app_assoc. by apply IHt1.
  - destruct (plain_word_first f) as (c&w&->&Hc); [by apply is_plain_spec|].
    destruct (word_char_begins c Hc) as (?&?&?). by apply begins_char.
Qed.

(** What may follow the text of a tree; a point may follow only what can be selected from. *)
Definition postfix_base (t : ExprTree) : bool := (12 <=? level t) && negb (is_number t).
Definition follows (t : ExprTree) (k : text) : Prop :=
  stops_name k /\ (stops_at (Ascii.eqb ".") k \/ postfix_base t = true).

Definition ends_expression (k : text) : Prop := stops_name k /\ stops_at (Ascii.eqb ".") k.
Lemma follows_end t k : ends_expression k -> follows t k.
Proof. intros [H1 H2]. split; auto. Qed.
Lemma op_ends op s : is_Some (bin_level op) -> ends_expression (binary_string old op ++ s).
Proof. intros [b Hb]. by destruct op, old. Qed.

(** ** The text of a tree is lexed into its tokens *)
Definition text_yields (t : ExprTree) : Prop := forall prev k ts,
  ends_operand prev = false -> follows t k -> (forall p, ends_operand p = true -> yields p k ts) ->
  yields prev (U t ++ k) (tokens t ++ ts).

Lemma yields_one prev s t k ts : lexes prev s t k -> yields t k ts -> yields prev s (t :: ts).
Proof. intros H1 H2. by exists k. Qed.
Lemma yields_single prev c s t ts : isspace c = false -> single c = Some t -> yields t s ts -> yields prev (c :: s) (t :: ts).
Proof. intros H1 H2. apply yields_one, (lexes_single _ _ _ _ c); [simpl; by rewrite H1|done]. Qed.
Lemma yields_word prev w k t ts : is_word w = true -> word_token w = t -> stops_at isword k ->
  yields t k ts -> yields prev (w ++ k) (t :: ts).
Proof. intros Hw <- Hk. by apply yields_one, lexes_word. Qed.

(** Items between commas. *)
Lemma join_yields l : forall t prev k ts, Forall text_yields (t :: l) -> ends_operand prev = false ->
  ends_expression k -> (forall p, ends_operand p = true -> yields p k ts) ->
  yields prev (join (txt ",") (U <$> t :: l) ++ k) (separated (tokens <$> t :: l) ++ ts).
Proof.
  induction l as [|t' l IH]; intros t prev k ts Hall Hprev Hk Hts; inversion Hall as [|? ? Ht Hl]; subst.
  - apply Ht; [done|by apply follows_end|done].
  - rewrite separated_cons.
    assert (E : join (txt ",") (U <$> t :: t' :: l) ++ k = U t ++ ","%char :: join (txt ",") (U <$> t' :: l) ++ k).
    { cbn [fmap list_fmap join]. by rewrite <- !app_assoc. }
    rewrite E. apply Ht; [done|by apply follows_end|]. intros p Hp. apply yields_single; [done|done|]. by apply IH.
Qed.
Lemma items_yield prev l k ts : Forall text_yields l -> ends_operand prev = false ->
  ends_expression k -> (forall p, yields p k ts) ->
  yields prev (join (txt ",") (U <$> l) ++ k) (separated (tokens <$> l) ++ ts).
Proof. intros Hall Hprev Hk Hts. destruct l as [|t l]; [apply Hts|]. apply join_yields; auto. Qed.

Lemma Forall_text_yields l : Forall (fun t => grammatical t = true -> printable t = true -> text_yields t) l ->
  forallb grammatical l = true -> forallb printable l = true -> Forall text_yields l.
Proof.
  induction 1 as [|t l Ht Hl IH]; simpl; [constructor|]. intros H1 H2. split_andb. constructor; auto.
Qed.

(** Operations: the left operand, the sign and the right operand. *)
Lemma binary_yields op c1 c2 : is_Some (bin_level op) -> text_yields c1 -> text_yields c2 ->
  forall prev k ts, ends_operand prev = false -> ends_expression k ->
  (forall p, ends_operand p = true -> yields p k ts) ->
  yields prev (U c1 ++ binary_string old op ++ U c2 ++ k) (tokens c1 ++ op_token op :: tokens c2 ++ ts).
Proof.
  intros Hop H1 H2 prev k ts Hprev Hk Hts. apply H1; [done|by apply follows_end, op_ends|].
  intros p Hp. eapply yields_one; [by apply lexes_binary_in|]. apply H2; [|by apply follows_end|done].
  by destruct Hop as [b Hb], op.
Qed.

Lemma follows_low t k : follows t k -> level t < 12 -> ends_expression k.
Proof.
  intros [H1 [H2|H2]] Hl; [by split|]. unfold postfix_base in H2. split_andb. lia.
Qed.

Lemma Unparse_yields t : grammatical t = true -> printable t = true -> text_yields t.
Proof.
  induction t using ExprTree_induct; intros Hg Hp prev k ts Hprev Hk Hts; pose proof Hk as [[Hk1 Hk2] Hk3];
    cbn [grammatical printable] in Hg, Hp; split_andb; try done.
  - apply (yields_word _ (txt "error")); auto.
  - apply (yields_word _ (txt "undefined")); auto.
  - destruct b; [apply (yields_word _ (txt "true"))|apply (yields_word _ (txt "false"))]; auto.
  - eapply yields_one; [apply lexes_integer; [unfold in_int64; lia| |done]|by apply Hts].
    split; [done|]. by destruct Hk3.
  - destruct (real_survives_strtod _ r Hp) as [Hf Hs].
    destruct (UnparseReal_text old r Hf) as (c&w&t&Hc&Hw&Ht&E). cbn [Unparse tokens app].
    eapply yields_one; [|by apply Hts]. rewrite <- Hs at 2. rewrite E. by apply lexes_real.
  - eapply yields_one; [apply lexes_string|by apply Hts]; [by apply nul_free_text_spec|done|].
    revert Hk2. apply stops_weaken. by intros c <-%eqb_eq.
  - assert (Hn : no_nul (txt a)) by by apply nul_free_text_spec. destruct b; cbn [Unparse tokens app].
    + eapply yields_one; [apply lexes_point|].
      * destruct (unparse_name_first a Hn) as (c&w&->&?&?&?). done.
      * destruct (unparse_name_first a Hn) as (c&w&->&?&?&?). cbn [app stops_at]. by apply eqb_ne.
      * eapply yields_one; [by apply lexes_name|by apply Hts].
    + eapply yields_one; [by apply lexes_name|by apply Hts].
  - apply is_plain_spec in H0 as Hpl. destruct (plain_word_first a Hpl) as (c&w&E&Hc).
    destruct (word_char_begins c Hc) as (_&Hd&Hdot). cbn [Unparse tokens]. rewrite <- !app_assoc. cbn [app].
    apply IHt; [done|done|done| |].
    + split; [by split|]. right. unfold postfix_base. by rewrite andb_true_iff, negb_true_iff.
    + intros p _. eapply yields_one; [apply lexes_point; rewrite E; [done|by apply eqb_ne]|].
      eapply yields_one; [by apply lexes_plain_word|by apply Hts].
  - apply follows_low in Hk as He; [|done]. cbn [Unparse tokens]. rewrite <- app_assoc. cbn [app].
    assert (Hg : grammatical t = true) by done. assert (Hp : printable t = true) by done.
    destruct (text_begins t Hg Hp k) as [Hb1 Hb2]. eapply yields_one; [apply lexes_unary; try done|].
    + intros ->. apply Hb2. by destruct (begins_number t).
    + apply IHt; [done|done|by destruct op|by apply follows_end|done].
  - cbn [Unparse tokens app]. rewrite <- !app_assoc. cbn [app]. apply yields_single; [done|done|].
    apply IHt; [done|done|done|by apply follows_end|]. intros p _. apply yields_single; auto.
  - assert (Hcase : op = SUBSCRIPT_OP /\ 12 <= level t1 \/ op <> SUBSCRIPT_OP /\ is_Some (bin_level op)).
    { destruct op; simpl in *; try done; (left; split; [done|lia]) || (right; split; [done|eauto]). }
    destruct Hcase as [[-> Hl1]|[Hne Hop]].
    + cbn [Unparse tokens]. rewrite <- !app_assoc. cbn [app]. rewrite <- !app_assoc. cbn [app].
      apply IHt1; [done|done|done|by apply follows_end|]. intros p _. apply yields_single; [done|done|].
      apply IHt2; [done|done|done|by apply follows_end|]. intros p2 _. apply yields_single; auto.
    + destruct Hop as [b Hb]. destruct (binary_operation op b Hb sc t1 t2) as (Hlev&->&_).
      pose proof (bin_level_range _ _ Hb). apply follows_low in Hk as He; [|lia].
      assert (E : U (Operation2 sc op t1 t2) = U t1 ++ binary_string old op ++ U t2) by by destruct op.
      rewrite E, <- !app_assoc. cbn [app]. apply binary_yields; auto.
  - apply follows_low in Hk as He; [|done]. cbn [Unparse tokens]. rewrite <- !app_assoc. cbn [app].
    rewrite <- !app_assoc. cbn [app]. apply IHt1; [done|done|done|by apply follows_end|]. intros p _.
    eapply yields_one; [by eapply lexes_single|]. apply yields_space.
    apply IHt2; [done|done|done|by apply follows_end|]. intros p2 _.
    eapply yields_one; [by eapply lexes_single|]. apply yields_space.
    apply IHt3; [done|done|done|by apply follows_end|done].
  - apply follows_low in Hk as He; [|done]. cbn [Unparse tokens]. rewrite <- !app_assoc. cbn [app].
    apply IHt1; [done|done|done|by apply follows_end|]. intros p _.
    eapply yields_one; [by eapply lexes_single|]. apply yields_single; [done|done|]. apply yields_space.
    apply IHt2; [done|done|done|by apply follows_end|done].
  - apply is_plain_spec in H0 as Hpl. cbn [Unparse tokens app]. rewrite <- !app_assoc. cbn [app].
    eapply yields_one; [by apply lexes_plain_word|]. apply yields_single; [done|done|].
    rewrite <- !app_assoc. cbn [app]. apply items_yield; [by apply Forall_text_yields|done|done|].
    intros p. apply yields_single; auto.
  - cbn [Unparse tokens app]. rewrite <- !app_assoc. cbn [app]. apply yields_single; [done|done|]. apply yields_space.
    apply items_yield; [by apply Forall_text_yields|done|done|].
    intros p. eapply yields_one; [by eapply lexes_single|]. by apply Hts.
Qed.

(** ** The text has no zero byte *)
Lemma forallb_no_nul p s : p "000"%char = false -> forallb p s = true -> no_nul s.
Proof.
  intros Hp. unfold no_nul. rewrite forallb_forall. intros H. apply Forall_forall. intros c Hc ->.
  specialize (H "000"%char (proj1 (list_elem_of_In _ _) Hc)). congruence.
Qed.
Lemma txt_no_nul s : nul_free_text s = true -> no_nul (txt s).
Proof. apply nul_free_text_spec. Qed.
Lemma escape_old_no_nul delim s : is_quote delim = true -> no_nul s -> no_nul (escape_old delim s).
Proof.
  intros Hq. induction 1 as [|c s Hc Hs IH]; [constructor|]. rewrite escape_old_cons. apply no_nul_app. split; [|done].
  case_match; repeat (apply no_nul_cons; split; [done|]); constructor.
Qed.
Lemma escape_no_nul delim s : is_quote delim = true -> no_nul (escape delim s).
Proof.
  intros Hq. induction s as [|c s IH]; [constructor|].
  change (escape delim (c :: s)) with (escape_char delim c ++ escape delim s). apply no_nul_app. split; [|done].
  apply (forallb_no_nul (fun c => negb (Ascii.eqb c "000"))); [done|]. generalize c. apply by_chars.
  by destruct (is_quote_cases _ Hq) as [->| ->].
Qed.
Lemma escape_in_no_nul delim s : is_quote delim = true -> no_nul s -> no_nul (escape_in old delim s).
Proof. unfold escape_in. destruct old; [apply escape_old_no_nul|]. intros Hq _. by apply escape_no_nul. Qed.
Lemma plain_no_nul s : is_plain s = true -> no_nul (txt s).
Proof.
  intros H%is_plain_spec. apply needs_no_quoting in H as [H _]. apply (forallb_no_nul isword); [done|].
  by apply is_word_all.
Qed.
Lemma unparse_name_no_nul s : no_nul (txt s) -> no_nul (unparse_name s).
Proof.
  intros Hs. unfold unparse_name. pose proof (escape_in_no_nul squote (txt s) eq_refl Hs). case_match; [|done].
  apply no_nul_cons. split; [done|]. apply no_nul_app. split; [done|]. by repeat constructor.
Qed.
Lemma digits_no_nul s : forallb isdigit s = true -> no_nul s.
Proof. by apply forallb_no_nul. Qed.
Lemma join_no_nul sep l : no_nul sep -> Forall no_nul l -> no_nul (join sep l).
Proof.
  intros Hs. induction 1 as [|x l Hx Hl IH]; [constructor|]. destruct l as [|y l]; [done|].
  cbn [join]. by repeat (apply no_nul_app; split).
Qed.
Lemma items_no_nul l : Forall (fun t => grammatical t = true -> printable t = true -> no_nul (U t)) l ->
  forallb grammatical l = true -> forallb printable l = true -> Forall no_nul (U <$> l).
Proof.
  induction 1 as [|t l Ht Hl IH]; cbn [forallb fmap list_fmap]; intros; [constructor|]. split_andb.
  constructor; auto.
Qed.
Lemma exponent_no_nul e : exponent_text e -> no_nul e.
Proof.
  intros [|sign d Hs Hd _]; [constructor|]. repeat (apply no_nul_cons; split; [by destruct Hs as [->| ->]|]).
  by apply digits_no_nul.
Qed.
Lemma tail_no_nul t : tail_text t -> no_nul t.
Proof.
  intros [f e Hf _ He|e He _]; [|by apply exponent_no_nul]. apply no_nul_cons. split; [done|].
  apply no_nul_app. split; [by apply digits_no_nul|by apply exponent_no_nul].
Qed.
Ltac no_nul_tac := repeat first [apply no_nul_cons; split; [done|] | apply no_nul_app; split]; try done;
  try (by repeat constructor); auto.

Lemma text_no_nul t : grammatical t = true -> printable t = true -> no_nul (U t).
Proof.
  induction t using ExprTree_induct; cbn [grammatical printable Unparse]; intros Hg Hp; split_andb; try done;
    try (by repeat constructor).
  - by destruct b; repeat constructor.
  - unfold append_long. destruct (digits_text i) as (c&w&Ei&Hi), (digits_text (- i)) as (c'&w'&Ej&Hj).
    case_match; simpl; [rewrite Ei|rewrite Ej; apply no_nul_cons; split; [done|]]; by apply digits_no_nul.
  - destruct (real_survives_strtod _ r Hp) as [Hf _].
    destruct (UnparseReal_text old r Hf) as (c&w&t&Hc&Hw&Ht&->).
    apply no_nul_app. split; [by destruct (real_sign r); repeat constructor|].
    rewrite app_comm_cons. apply no_nul_app. split; [apply digits_no_nul; simpl; by rewrite Hc|by apply tail_no_nul].
  - unfold UnparseString. no_nul_tac. apply escape_in_no_nul; [done|by apply nul_free_text_spec].
  - destruct b; no_nul_tac; by apply unparse_name_no_nul, nul_free_text_spec.
  - no_nul_tac. by apply plain_no_nul.
  - destruct op; no_nul_tac.
  - no_nul_tac.
  - destruct op, old; no_nul_tac.
  - no_nul_tac.
  - no_nul_tac.
  - no_nul_tac; [by apply plain_no_nul|]. apply join_no_nul; [by repeat constructor|by apply items_no_nul].
  - no_nul_tac. apply join_no_nul; [by repeat constructor|by apply items_no_nul].
Qed.

(** ** Scopes are not printed *)
Lemma list_fmap_Forall {A B} (f : A -> B) (g : A -> A) l : Forall (fun x => f (g x) = f x) l -> f <$> (g <$> l) = f <$> l.
Proof. induction 1 as [|x l Hx Hl IH]; [done|]. rewrite !fmap_cons. by f_equal. Qed.
Lemma Unparse_scope p t : U (SetParentScope p t) = U t.
Proof.
  induction t using ExprTree_induct; cbn [SetParentScope Unparse fmap option_fmap option_map]; try done; try congruence.
  - destruct op; congruence.
  - by rewrite (list_fmap_Forall U).
  - by rewrite (list_fmap_Forall U).
Qed.
End text.

(** A tree as the parser makes it: in no scope. *)
Definition unscoped (t : ExprTree) : ExprTree := SetParentScope None t.

(** ** Parsing what was printed *)
Section parse.
Variables oldSemantics old : bool.
Variables MakeAbsTime MakeRelTime : string -> option ExprTree.
Variable absTimeToString : abstime_t -> text.
Variable relTimeToString : double -> text.
Variable unparse_ad : adref -> text.
Abbreviation U := (Unparse old absTimeToString relTimeToString unparse_ad).
Abbreviation printable := (printable old).
Existing Instance Lexer_stream.

Lemma ends_expression_nil : ends_expression [].
Proof. done. Qed.

Lemma parse_text t n h lx full :
  grammatical t = true -> printable t = true -> nesting t < MAX_PARSE_DEPTH -> (tree_size t < n)%nat ->
  ends_operand (tokenType lx) = false ->
  exists lx', parseExpression (H := Lexer_tokens oldSemantics old) oldSemantics MakeAbsTime MakeRelTime n 0 full
    (h, Initialize (U t) lx) = Ret (Some t) (h, lx').
Proof.
  intros Hg Hp Hnest Hn Hlx.
  destruct (parseExpression_parses (HL := Lexer_tokens oldSemantics old) (TokenStream0 := Lexer_stream oldSemantics old)
    oldSemantics MakeAbsTime MakeRelTime n 0 (tree_size t) full t [LEX_END_OF_INPUT] (h, Initialize (U t) lx))
    as ([h' lx']&E&Hh&_); try (done || lia).
  - apply Initialize_gives; [by apply text_no_nul|]. rewrite <- (app_nil_r (U t)).
    apply Unparse_yields; [done|done|done|by apply follows_end|]. intros p _. exists []. split; [by apply lexes_end|done].
  - exists lx'. simpl in Hh. by rewrite E, Hh.
Qed.
End parse.
