(* ===== verification/TextLaws.v ===== *)
(** * What the text layer promises

    The lexer and the parser return on every text; trees and ClassAds survive printing and
    parsing; the texts the match ClassAd is made of denote the trees of [MatchClassAd]. *)
From Stdlib Require Import ZArith Lia Ascii String SpecFloat.
From stdpp Require Import base list gmap strings.
From S2P Require Import Prelude Double Numerals Tree Values Operators Lexer FlatMap AdStore AdStoreFacts Parser Unparser Eval MatchClassAd LexerFacts LexerLaws LexerProgress ParserFacts Grammar TextFacts RoundTrip.

Open Scope Z_scope.

(** ** Every call returns *)

(** the lexer never aborts, and a token that is looked at stays: [PeekToken] returns, a
    second [PeekToken] returns the same token and changes nothing, and [ConsumeToken] then
    returns that token, as it would have without the look. *)
Theorem peek_is_stable oldSemantics oldClassAdLex lx :
  exists t lp lc, PeekToken oldSemantics oldClassAdLex lx = Some (t, lp) /\
    PeekToken oldSemantics oldClassAdLex lp = Some (t, lp) /\
    ConsumeToken oldSemantics oldClassAdLex lp = Some (t, lc) /\
    ConsumeToken oldSemantics oldClassAdLex lx = Some (t, lc).
Proof.
  destruct (PeekToken_returns oldSemantics oldClassAdLex lx) as (t&lp&E&_).
  assert (Ec : ConsumeToken oldSemantics oldClassAdLex lx = Some (t, set_consumed true lp)).
  { unfold ConsumeToken. by rewrite E. }
  destruct (Peek_then_Consume _ _ _ _ _ Ec) as (lp'&E1&E2&E3). exists t, lp, (set_consumed true lp).
  rewrite E in E1. injection E1 as <-. done.
Qed.

(** the tokens of a text come to an end: of the first [2 * length + 1] tokens one is the
    end of the input. *)
Theorem tokens_end oldSemantics oldClassAdLex source lx :
  LEX_END_OF_INPUT ∈ lex_tokens oldSemantics oldClassAdLex (2 * String.length source + 1)
                       (Initialize (txt source) lx).
Proof.
  assert (H : forall n lx0, (lexer_remaining lx0 < n)%nat ->
    LEX_END_OF_INPUT ∈ lex_tokens oldSemantics oldClassAdLex n lx0).
  { induction n as [|n IH]; intros lx0 Hn; [lia|]. cbn [lex_tokens].
    destruct (consume_returns (TokenProgress := Lexer_progress oldSemantics oldClassAdLex) lx0) as (t&lx1&E&_&Hr).
    simpl in E, Hr. rewrite E. destruct (token_end_dec t) as [->|Ht]; [left|right].
    apply IH. specialize (Hr Ht). lia. }
  apply H. apply Nat.le_lt_trans with (2 * String.length source)%nat; [|lia].
  apply Initialize_remaining.
Qed.

(** C28: the parser returns on every text. With fuel for the nesting the code allows and for
    two tokens per character, [ParseExpression] returns a tree or none, whatever the text, the
    lexer's state before and the store; it does not abort, and no ClassAd disappears. *)
Theorem ParseExpression_returns oldSemantics oldClassAdLex MakeAbsTime MakeRelTime n h lx source full :
  (1002 + 2 * String.length source <= n)%nat ->
  exists tree h' lx',
    ParseExpression oldSemantics oldClassAdLex MakeAbsTime MakeRelTime n h lx source full = Ret tree (h', lx') /\
    dom h ⊆ dom h'.
Proof.
  intros Hn. pose proof (Initialize_remaining source lx) as Hr.
  destruct (parseExpression_good (HL := Lexer_tokens oldSemantics oldClassAdLex)
    (TokenProgress0 := Lexer_progress oldSemantics oldClassAdLex) oldSemantics MakeAbsTime MakeRelTime
    (lexer_remaining (Initialize (txt source) lx)) n 0 full) with (st := (h, Initialize (txt source) lx))
    as (tree&[h' lx']&E&Hd&_); [lia|change (Z.to_nat (MAX_PARSE_DEPTH - 0)) with 1000%nat; lia|done|].
  by exists tree, h', lx'.
Qed.

Lemma ParseExpression_returns_witness :
  let source := "{ a ? b : -1.5e3, [ x = " in (1002 + 2 * String.length source <= 1100)%nat /\
  exists tree h' lx', ParseExpression false false (fun _ => None) (fun _ => None) 1100 ∅ new_Lexer source true =
    Ret tree (h', lx') /\ dom (∅ : heap) ⊆ dom h'.
Proof.
  split; [vm_compute; lia|]. apply (ParseExpression_returns false false _ _ 1100 ∅ new_Lexer _ true). vm_compute. lia.
Defined.

(** [ParseClassAd] of a text returns too, with a new ClassAd or none. *)
Theorem ParseClassAd_returns oldSemantics oldClassAdLex MakeAbsTime MakeRelTime n h lx source full :
  (1003 + 2 * String.length source <= n)%nat ->
  exists ad h' lx',
    ParseClassAd oldSemantics oldClassAdLex MakeAbsTime MakeRelTime n h lx source full = Ret ad (h', lx') /\
    dom h ⊆ dom h' /\ (forall a, ad = Some a -> a ∉ dom h /\ a ∈ dom h').
Proof.
  intros Hn. pose proof (Initialize_remaining source lx) as Hr. unfold ParseClassAd.
  destruct (alloc_ad h) as [h1 a] eqn:Ea. unfold alloc_ad in Ea. injection Ea as <- <-.
  set (h1 := <[fresh (dom h) := new_ClassAd]> h). set (lx0 := Initialize (list_ascii_of_string source) lx).
  set (L := Lexer_tokens oldSemantics oldClassAdLex). set (R := Lexer_progress oldSemantics oldClassAdLex).
  assert (Hfresh : fresh (dom h) ∈ dom h1) by (unfold h1; rewrite dom_insert; set_solver).
  assert (Hsub : dom h ⊆ dom h1) by (unfold h1; rewrite dom_insert; set_solver).
  assert (Hgood : good_parser (lexer_remaining lx0) (parseExpression oldSemantics MakeAbsTime MakeRelTime n 0 false)).
  { apply parseExpression_good; [lia|]. change (Z.to_nat (MAX_PARSE_DEPTH - 0)) with 1000%nat.
    change lx0 with (Initialize (txt source) lx). lia. }
  assert (Hends : ends (parseClassAd n (parseExpression oldSemantics MakeAbsTime MakeRelTime n 0 false) (fresh (dom h)))
    (h1, lx0) any).
  { eapply ends_weaken; [eapply (parseClassAd_ends MakeAbsTime MakeRelTime _ _ Hgood); [done|done|]|done].
    change (lexer_remaining lx0 + 1 < n)%nat. change lx0 with (Initialize (txt source) lx). lia. }
  destruct Hends as (ok&[h2 lx2]&E&Hd&_). rewrite (run_bind _ _ _ _ _ E). simpl in Hd.
  assert (Hnew : forall h3 : heap, dom h2 ⊆ dom h3 -> fresh (dom h) ∉ dom h /\ fresh (dom h) ∈ dom h3).
  { intros h3 H3. split; [apply is_fresh|set_solver]. }
  destruct ok; cbn [negb].
  - destruct full.
    + destruct (ends_consume (h2, lx2)) as (t&[h3 lx3]&E3&Hd3&_). rewrite (run_bind _ _ _ _ _ E3). simpl in Hd3.
      eexists _, h3, lx3. split; [done|]. split; [simpl in *; set_solver|]. intros a Ha.
      destruct t; simplify_eq. by apply Hnew.
    + eexists _, h2, lx2. split; [done|]. split; [simpl in *; set_solver|]. intros a [= <-]. by apply Hnew.
  - eexists _, h2, lx2. split; [done|]. split; [simpl in *; set_solver|]. by intros a [=].
Qed.

Lemma ParseClassAd_returns_witness :
  let source := "[ a = 1; b = [ c ] ; ; d = " in (1003 + 2 * String.length source <= 1100)%nat /\
  exists ad h' lx', ParseClassAd false false (fun _ => None) (fun _ => None) 1100 ∅ new_Lexer source true =
    Ret ad (h', lx') /\ dom (∅ : heap) ⊆ dom h' /\
    (forall a, ad = Some a -> a ∉ dom (∅ : heap) /\ a ∈ dom h').
Proof.
  split; [vm_compute; lia|]. apply (ParseClassAd_returns false false _ _ 1100 ∅ new_Lexer _ true). vm_compute. lia.
Defined.

(** ** The grammar *)

(** C30: the parser implements the grammar of the precedence levels. On any source of tokens
    that gives the tokens of a tree in which the operands of every operator are of the levels
    its precedence and associativity ask for, and then the end of the input, the parser
    builds exactly that tree and leaves the store alone. *)
Theorem parser_builds_tree {L} `{TokenStream L} oldSemantics MakeAbsTime MakeRelTime n full t h (l : L) :
  grammatical t = true -> nesting t < MAX_PARSE_DEPTH -> (tree_size t < n)%nat ->
  gives l (tokens t ++ [LEX_END_OF_INPUT]) ->
  exists l', parseExpression oldSemantics MakeAbsTime MakeRelTime n 0 full (h, l) = Ret (Some t) (h, l').
Proof.
  intros Hg Hd Hn G.
  destruct (parseExpression_parses oldSemantics MakeAbsTime MakeRelTime n 0 (tree_size t) full t
    [LEX_END_OF_INPUT] (h, l)) as (st'&E&Hh&_); try (done || lia).
  exists st'.2. rewrite E. simpl in Hh. rewrite <- Hh. by destruct st'.
Qed.

Definition precedence_sample : ExprTree :=
  Operation2 None LOGICAL_OR_OP
    (Operation2 None EQUAL_OP
      (Operation2 None SUBTRACTION_OP (Operation2 None SUBTRACTION_OP (ref "a") (ref "b"))
        (Operation2 None MULTIPLICATION_OP (ref "c") (Operation1 None UNARY_MINUS_OP (ref "d"))))
      (ref "e"))
    (Operation2 None LOGICAL_AND_OP (ref "f") (ref "g")).
Lemma parser_builds_tree_witness :
  let lx := Initialize (txt "a - b - c * -d == e || f && g") new_Lexer in
  lex_tokens false false 15 lx = tokens precedence_sample ++ [LEX_END_OF_INPUT] /\
  exists lx', parseExpression (H := Lexer_tokens false false) false (fun _ => None) (fun _ => None) 30 0 true (∅, lx) =
    Ret (Some precedence_sample) (∅, lx').
Proof.
  assert (E : lex_tokens false false 15 (Initialize (txt "a - b - c * -d == e || f && g") new_Lexer) =
    tokens precedence_sample ++ [LEX_END_OF_INPUT]) by (vm_compute; reflexivity).
  split; [exact E|].
  apply (parser_builds_tree (H0 := Lexer_stream false false) false _ _ 30 true precedence_sample);
    [reflexivity|reflexivity|vm_compute; lia|]. rewrite <- E. apply lex_tokens_gives.
Defined.

(** ** Round trips *)

(** C11: a [printable] tree survives printing and parsing, in the new syntax and in the old
    one, in which the daemons keep and send expressions. The text [Unparse] writes for a
    tree of the grammar (parentheses where the precedence needs them, no ClassAds and times,
    no call that is evaluated when it is parsed) is parsed back into the same tree, in no
    scope, and the store is unchanged; with [full] the parser also finds the end of the
    text. The tree nests less deep than the parser allows, the token before does not make a
    minus sign binary, and [printable] asks that
    - its reals keep their value in the format of the unparser ([real_text_loses]);
    - no unary minus comes right before a number, whose sign it would become
      ([negated_number]);
    - the names of selected attributes and of functions need no quotes, which are not
      written for them ([selected_name_unquoted]), and nothing is selected from a number
      literal, which would be read as a real;
    - strings and names have no zero bytes and, in the old syntax, end in no backslash and
      have no newline after a quote. *)
Theorem ParseExpression_UnparseTree oldSemantics old MakeAbsTime MakeRelTime absTimeToString relTimeToString
    t n h lx full :
  grammatical (unscoped t) = true -> printable old (unscoped t) = true ->
  nesting (unscoped t) < MAX_PARSE_DEPTH -> (tree_size t < n)%nat -> ends_operand (tokenType lx) = false ->
  exists lx', ParseExpression oldSemantics old MakeAbsTime MakeRelTime n h lx
    (UnparseTree old absTimeToString relTimeToString h t) full = Ret (Some (unscoped t)) (h, lx').
Proof.
  intros Hg Hp Hnest Hn Hlx. unfold ParseExpression, UnparseTree.
  rewrite list_ascii_of_string_of_list_ascii, <- (Unparse_scope _ _ _ _ None). fold (unscoped t).
  apply parse_text; try done. by rewrite <- (SetParentScope_size None) in Hn.
Qed.

Definition sample_tree : ExprTree :=
  Operation3 (Some 1%positive)
    (Operation2 None GREATER_OR_EQUAL_OP
      (Operation2 None MULTIPLICATION_OP
        (OperationParens None (Operation2 None ADDITION_OP (select "target" "Memory") (IntegerLiteral 2)))
        (FunctionCall None "size" [ref "is"; StringLiteral (String "010" (String "'" EmptyString))]))
      (IntegerLiteral (-3)))
    (Some (ExprList None [RealLiteral (strtod (txt "1.5")); Operation1 None UNARY_MINUS_OP (ref "x y"); UndefinedLiteral]))
    (Operation1 None LOGICAL_NOT_OP (Operation2 None SUBSCRIPT_OP (absref "t") (BooleanLiteral true))).

(** A string with a quote and a backslash before an [n], and reals with and without exponent. *)
Definition old_sample : ExprTree :=
  Operation2 None LOGICAL_AND_OP
    (Operation2 None META_EQUAL_OP (ref "a") (StringLiteral (String dquote "\n")))
    (Operation2 None LESS_THAN_OP (RealLiteral (strtod (txt "1.5"))) (RealLiteral (strtod (txt "1E20")))).

Lemma ParseExpression_UnparseTree_witness :
  (UnparseTree false (fun _ => []) (fun _ => []) ∅ sample_tree =
    ("(target.Memory + 2) * size('is'," ++ String dquote ("\n'" ++ String dquote
      ") >= -3 ? { 1.500000000000000E+00, -'x y',undefined } :  !.t[true]"))%string /\
  exists lx', ParseExpression false false (fun _ => None) (fun _ => None) 100 ∅ new_Lexer
    (UnparseTree false (fun _ => []) (fun _ => []) ∅ sample_tree) true = Ret (Some (unscoped sample_tree)) (∅, lx')) /\
  (UnparseTree true (fun _ => []) (fun _ => []) ∅ old_sample =
    ("a =?= " ++ String dquote ("\" ++ String dquote ("\n" ++ String dquote " && 1.5 < 1E+20")))%string /\
  exists lx', ParseExpression true true (fun _ => None) (fun _ => None) 100 ∅ new_Lexer
    (UnparseTree true (fun _ => []) (fun _ => []) ∅ old_sample) true = Ret (Some old_sample) (∅, lx')).
Proof.
  split; (split; [vm_compute; reflexivity|]).
  - apply (ParseExpression_UnparseTree false false _ _ _ _ sample_tree 100 ∅ new_Lexer true); try (vm_compute; reflexivity).
    vm_compute. lia.
  - apply (ParseExpression_UnparseTree true true _ _ _ _ old_sample 100 ∅ new_Lexer true); try (vm_compute; reflexivity).
    vm_compute. lia.
Defined.

(** a string survives its escapes. [convert_escapes] undoes the escapes that
    [UnparseString] writes, between quotes of either kind, for every string without a zero
    byte, control characters and bytes above 127 included. *)
Theorem escapes_are_undone delimiter s :
  delimiter = dquote \/ delimiter = squote -> no_nul s ->
  convert_escapes (s ≫= escape_char delimiter) = (s, true).
Proof. intros [->| ->] Hs; by apply (convert_escapes_escape _ s). Qed.

Lemma escapes_are_undone_witness :
  let s := ["010"; "'"; dquote; "\"; "007"; "200"; "1"]%char in
  string_of_list_ascii (s ≫= escape_char squote) =
    ("\n\'" ++ String dquote ("\\\a" ++ "\310" ++ "1"))%string /\
  convert_escapes (s ≫= escape_char squote) = (s, true).
Proof.
  split; [vm_compute; reflexivity|].
  apply (escapes_are_undone squote); [by right|]. by repeat constructor.
Defined.

(** ** Corners of the text layer

    Concrete runs that show behaviour the comments of the code do not announce. *)
Section corners.
Definition parse_of (source : string) (full : bool) : option (option ExprTree) :=
  match ParseExpression false false (fun _ => None) (fun _ => None) 100 ∅ new_Lexer source full with
  | Ret t _ => Some t
  | _ => None
  end.
Definition text_of (t : ExprTree) : string := UnparseTree false (fun _ => []) (fun _ => []) ∅ t.

(** The outcome of the middle expression of the conditional operator is not looked at. *)
Lemma middle_failure_ignored : parse_of "a ? (1 + : b" true = Some (Some (Operation3 None (ref "a") None (ref "b"))).
Proof. vm_compute. reflexivity. Qed.
(** A full parse accepts anything after a conditional expression. *)
Lemma conditional_not_full :
  parse_of "a ? b : c d e" true = Some (Some (Operation3 None (ref "a") (Some (ref "b")) (ref "c"))) /\
  parse_of "a d e" true = Some None.
Proof. vm_compute. split; reflexivity. Qed.
(** Octal and hexadecimal literals are read with base ten, up to the first other character. *)
Lemma radix_ignored : parse_of "0x1A" true = Some (Some (IntegerLiteral 0)) /\
  parse_of "010" true = Some (Some (IntegerLiteral 10)).
Proof. vm_compute. split; reflexivity. Qed.
(** The factor after a number is dropped. *)
Lemma factor_ignored : parse_of "10K" true = Some (Some (IntegerLiteral 10)).
Proof. vm_compute. reflexivity. Qed.
(** An empty attribute is refused after the opening bracket, accepted elsewhere. *)
Lemma empty_attribute_refused : parse_of "[;]" true = Some None /\
  parse_of "[a = 1;;]" true <> Some None.
Proof. vm_compute. split; [reflexivity|discriminate]. Qed.
(** Sixteen digits do not identify a double. *)
Lemma real_text_loses : real_survives false (d_add (strtod (txt "0.1")) (strtod (txt "0.2"))) = false /\
  strtod (UnparseReal false (strtod (txt "1.7976931348623157E+308"))) = S754_infinity false.
Proof. vm_compute. split; reflexivity. Qed.
(** A minus sign joins the number it is printed before. *)
Lemma negated_number : let t := Operation1 None UNARY_MINUS_OP (IntegerLiteral 5) in
  parse_of "- 5" true = Some (Some t) /\ parse_of (text_of t) true = Some (Some (IntegerLiteral (-5))).
Proof. vm_compute. split; reflexivity. Qed.
(** The name of a selected attribute is not quoted. *)
Lemma selected_name_unquoted : let t := AttributeReference None (Some (ref "a")) "x y" false in
  text_of t = "a.x y" /\ parse_of (text_of t) true = Some None.
Proof. vm_compute. split; reflexivity. Qed.
(** At the end of the text the sign after an equals sign is read twice. *)
Lemma sign_read_twice : lex_tokens false false 4 (Initialize (txt "=!") new_Lexer) =
  [LEX_BOUND_TO; LEX_LOGICAL_NOT; LEX_LOGICAL_NOT; LEX_END_OF_INPUT].
Proof. vm_compute. reflexivity. Qed.
(** [Initialize] keeps the type of the last token, which decides what a minus sign is. *)
Lemma minus_depends_on_last_token :
  lex_tokens false false 1 (Initialize (txt "-5") new_Lexer) = [LEX_INTEGER_VALUE (-5) NO_FACTOR] /\
  lex_tokens false false 1 (Initialize (txt "-5") (set_token LEX_CLOSE_BOX new_Lexer)) = [LEX_MINUS].
Proof. vm_compute. split; reflexivity. Qed.
(** In the old syntax a backslash at the end of a string hides the closing quote, and a
    newline after a quote ends the string. *)
Definition parse_of_old (source : string) : option (option ExprTree) :=
  match ParseExpression true true (fun _ => None) (fun _ => None) 100 ∅ new_Lexer source true with
  | Ret t _ => Some t
  | _ => None
  end.
Definition text_of_old (t : ExprTree) : string := UnparseTree true (fun _ => []) (fun _ => []) ∅ t.
Lemma old_strings_lost :
  let t1 := Operation2 None EQUAL_OP (StringLiteral "C:\") (ref "a") in
  let t2 := StringLiteral (String dquote (String "010" "a")) in
  parse_of_old (text_of_old t1) = Some None /\ parse_of_old (text_of_old t2) = Some None /\
  parse_of_old (text_of_old (StringLiteral "C:\")) = Some (Some (StringLiteral "C:\")).
Proof. vm_compute. split_and!; reflexivity. Qed.
End corners.
