(* ===== verification/AdText.v ===== *)
(** * ClassAds as text

    What [parseClassAd] does with the tokens of a ClassAd, the round trip of a ClassAd
    through its text, and the ClassAds the match ClassAd parses. *)
From Stdlib Require Import ZArith Lia Ascii String SpecFloat.
From stdpp Require Import base list gmap strings.
From S2P Require Import Prelude Double Numerals Tree Values Operators Lexer FlatMap AdStore AdStoreFacts Parser Unparser Eval MatchClassAd MatchFacts LexerFacts LexerLaws LexerProgress ParserFacts Grammar TextFacts RoundTrip.

Open Scope Z_scope.
Open Scope res_scope.

(** The tokens of the attributes of a ClassAd, after the opening bracket. *)
Fixpoint attr_tokens (l : list (string * ExprTree)) : list Token :=
  match l with
  | [] => [LEX_CLOSE_BOX]
  | (s, t) :: l' =>
      LEX_IDENTIFIER s :: LEX_BOUND_TO :: tokens t ++
      match l' with [] => [LEX_CLOSE_BOX] | _ => LEX_SEMICOLON :: attr_tokens l' end
  end.
Definition ad_tokens (l : list (string * ExprTree)) : list Token := LEX_OPEN_BOX :: attr_tokens l.

Section parse.
Context {L : Type} `{HL : TokenSource L} `{!TokenStream L}.
Variables MakeAbsTime MakeRelTime : string -> option ExprTree.
Variable oldSemantics : bool.
Variables (n : nat) (depth : Z).
Abbreviation parse_expr := (parseExpression oldSemantics MakeAbsTime MakeRelTime n depth false).

(** What the parser needs of the attributes: names, trees of the grammar, fuel. *)
Definition attr_fits (kv : string * ExprTree) : Prop :=
  kv.1 <> "" /\ grammatical kv.2 = true /\ (tree_size kv.2 < n)%nat /\ nesting kv.2 <= MAX_PARSE_DEPTH - 1 - depth.

Lemma run_attr {B} (k : option ExprTree -> heap * L -> Res (heap * L) B) kv ts (st : heap * L) :
  0 <= depth -> attr_fits kv -> stops 0 ts -> gives st.2 (tokens kv.2 ++ ts) ->
  exists st1, rbind parse_expr k st = k (Some kv.2) st1 /\ at_tokens st st1 ts.
Proof.
  intros Hd (_&Hg&HN&Hnest) Hs G.
  destruct (parseExpression_parses oldSemantics MakeAbsTime MakeRelTime n depth (tree_size kv.2) false kv.2 ts st)
    as (st1&E&Hh&G1); try (done || lia).
  exists st1. split; [by apply run_bind|]. split; auto.
Qed.

Lemma run_insert {B} (k : bool -> heap * L -> Res (heap * L) B) a s t h' (st : heap * L) :
  s <> "" -> fst <$> Insert st.1 a s (Some t) = Some h' ->
  rbind (on_store (fun h => Insert h a s (Some t))) k st = k true (h', st.2).
Proof.
  intros Hs E. unfold rbind, on_store. unfold Insert in *. rewrite (proj2 (String.eqb_neq s "") Hs) in *.
  destruct (on_ad _ _ _) as [h1|]; simpl in *; [|done]. by injection E as ->.
Qed.
Open Scope nat_scope.

(** One round of the loop: the attribute is inserted, and the loop goes on at what follows. *)
Lemma attributes_loop_item m a tk s t (more : bool) name ts (st : heap * L) h' :
  (0 <= depth)%Z -> attr_fits (s, t) -> tk <> LEX_CLOSE_BOX -> 1 < m ->
  fst <$> Insert st.1 a s (Some t) = Some h' ->
  gives st.2 (LEX_IDENTIFIER s :: LEX_BOUND_TO :: tokens t ++
    (if more then LEX_SEMICOLON :: LEX_IDENTIFIER name :: ts else LEX_CLOSE_BOX :: ts)) ->
  exists st', attributes_loop parse_expr (S m) a tk st =
      attributes_loop parse_expr m a (if more then LEX_IDENTIFIER name else LEX_CLOSE_BOX) st' /\
    st'.1 = h' /\ gives st'.2 (if more then LEX_IDENTIFIER name :: ts else LEX_CLOSE_BOX :: ts).
Proof.
  intros Hd Hfit Htk Hm Hins G.
  assert (Hgo : attributes_loop parse_expr (S m) a tk st = (let! tk := ConsumeTok in
    match tk with
    | LEX_SEMICOLON => attributes_loop parse_expr m a tk
    | LEX_IDENTIFIER s =>
        let! tk := ConsumeTok in
        match tk with
        | LEX_BOUND_TO =>
            let! tree := parse_expr in
            match tree with
            | None => rret false
            | Some tree =>
                let! ok := on_store (fun h => Insert h a s (Some tree)) in
                if negb ok then rret false
                else
                  let! tk := PeekTok in
                  match tk with
                  | LEX_SEMICOLON | LEX_CLOSE_BOX =>
                      let! tk := skip_semicolons m tk in attributes_loop parse_expr m a tk
                  | _ => rret false
                  end
            end
        | _ => rret false
        end
    | _ => rret false
    end) st) by by destruct tk.
  rewrite Hgo. clear Hgo. consume_tok G st1 A1 G1. consume_tok G1 st2 A2 G2.
  match goal with |- context [rbind parse_expr ?f ?st0] =>
    edestruct (run_attr f (s, t)) as (st3&E3&A3&G3); [exact Hd|exact Hfit| |exact G2|rewrite E3; clear E3] end;
    [by destruct more|].
  assert (E3 : st3.1 = st.1) by congruence. rewrite <- E3 in Hins. cbn [fst snd].
  rewrite (run_insert _ _ _ _ _ _ (proj1 Hfit) Hins). cbn [negb].
  set (st4 := (h', st3.2)). change st3.2 with st4.2 in G3.
  destruct m as [|m]; [lia|]. destruct more.
  - peek_tok G3 st5 A5 G5. cbn [skip_semicolons].
    destruct (run_consume (fun _ => let! tk := PeekTok in skip_semicolons m tk) st5 _ _ G5) as (st6&E6&A6&G6).
    destruct (run_peek (fun tk => skip_semicolons m tk) st6 _ _ G6) as (st7&E7&A7&G7).
    rewrite (run_bind _ _ _ (LEX_IDENTIFIER name) st7).
    + exists st7. split; [done|]. split; [|done]. rewrite A7, A6, A5. done.
    + rewrite E6, E7. by destruct m.
  - peek_tok G3 st5 A5 G5. rewrite (run_bind _ _ _ LEX_CLOSE_BOX st5) by done.
    exists st5. split; [done|]. split; [|done]. by rewrite A5.
Qed.

(** The loop inserts the attributes one after the other. *)
Lemma attributes_loop_inserts l : forall m a tk ts (st : heap * L) h',
  (0 <= depth)%Z -> Forall attr_fits l -> insert_all a st.1 l = Some h' -> length l + 1 < m ->
  gives st.2 (attr_tokens l ++ ts) -> (tk = LEX_CLOSE_BOX <-> l = []) ->
  exists st', attributes_loop parse_expr m a tk st = Ret true st' /\ st'.1 = h' /\ gives st'.2 ts.
Proof.
  induction l as [|[s t] l IH]; intros m a tk ts st h' Hd Hfit Hins Hm G Htk;
    (destruct m as [|m]; [simpl in Hm; lia|]).
  - rewrite (proj2 Htk eq_refl). cbn [attributes_loop]. cbn [attr_tokens app] in G. consume_tok G st1 A1 G1.
    injection Hins as Hins. exists st1. split; [done|]. split; [congruence|done].
  - inversion Hfit as [|? ? Hf Hfit']; subst. cbn [length] in Hm.
    assert (Htk' : tk <> LEX_CLOSE_BOX) by (intros E; by apply Htk in E).
    unfold insert_all in Hins. cbn [foldM] in Hins.
    destruct (fst <$> Insert st.1 a s (Some t)) as [h1|] eqn:E1; cbn [fst snd] in Hins; rewrite E1 in Hins; [|done].
    cbn [mbind option_bind] in Hins. cbn [attr_tokens app] in G. rewrite <- app_assoc in G.
    destruct l as [|[s2 t2] l].
    + destruct (attributes_loop_item m a tk s t false s ts st h1) as (st1&->&A1&G1); try (done || lia).
      apply IH; try done; [by rewrite A1|simpl; lia].
    + assert (E : exists ts', attr_tokens ((s2, t2) :: l) ++ ts = LEX_IDENTIFIER s2 :: ts') by by eexists.
      destruct E as [ts' E].
      destruct (attributes_loop_item m a tk s t true s2 ts' st h1) as (st1&->&A1&G1); try (done || lia).
      { by rewrite <- E. }
      apply IH; try done; [by rewrite A1|simpl in *; lia|by rewrite E].
Qed.

Lemma parseClassAd_inserts l a ts (st : heap * L) h' :
  (0 <= depth)%Z -> Forall attr_fits l -> st.1 !! a = Some new_ClassAd -> insert_all a st.1 l = Some h' ->
  length l + 1 < n -> gives st.2 (ad_tokens l ++ ts) ->
  exists st', parseClassAd n parse_expr a st = Ret true st' /\ st'.1 = h' /\ gives st'.2 ts.
Proof.
  intros Hd Hfit Ha Hins Hn G. unfold parseClassAd.
  assert (Hclear : on_store (fun h => h' ← Clear h a; Some (h', tt)) st = Ret tt st).
  { unfold on_store, Clear, on_ad. rewrite Ha. cbn [mbind option_bind]. change (clear_ad new_ClassAd) with new_ClassAd.
    rewrite insert_id by done. by destruct st. }
  rewrite (run_bind _ _ _ _ _ Hclear). cbn [ad_tokens app] in G. consume_tok G st1 A1 G1.
  assert (E : exists tk ts', attr_tokens l ++ ts = tk :: ts' /\ (tk = LEX_CLOSE_BOX <-> l = [])).
  { destruct l as [|[s t] l]; [by eexists _, _|]. eexists _, _. split; [done|]. by split. }
  destruct E as (tk&ts'&E&Htk). rewrite E in G1. peek_tok G1 st2 A2 G2.
  destruct (attributes_loop_inserts l n a tk ts st2 h') as (st3&->&A3&G3); try done.
  - by rewrite A2, A1.
  - by rewrite E.
  - by exists st3.
Qed.
End parse.

(** ** Inserting sorted attributes *)
Open Scope Z_scope.

Lemma lower_bound_last {V} (l : list (string * V)) key :
  Forall (fun kv => FlatMapOrder kv.1 key = true) l -> lower_bound l key = length l.
Proof. induction 1 as [|[k v] l Hk Hl IH]; [done|]. cbn [lower_bound length] in *. simpl in Hk. by rewrite Hk, IH. Qed.
Lemma fm_insert_last {V} (l : list (string * V)) key v : fm_ok (l ++ [(key, v)]) -> fm_insert l key v = l ++ [(key, v)].
Proof.
  intros Hok. assert (Hl : Forall (fun kv => FlatMapOrder kv.1 key = true) l).
  { revert Hok. induction l as [|[k0 v0] l IH]; [constructor|]. cbn [app]. rewrite fm_ok_cons.
    rewrite fmap_app, Forall_app. intros (_&[_ Hk]&Hok). inversion Hk; subst. constructor; auto. }
  pose proof (lower_bound_last l key Hl) as Hb. unfold fm_insert, fm_emplace, fm_find. rewrite Hb.
  rewrite (lookup_ge_None_2 l) by lia. by rewrite take_ge, drop_ge by lia.
Qed.

Lemma fm_ok_prefix {V} (l1 l2 : list (string * V)) : fm_ok (l1 ++ l2) -> fm_ok l1.
Proof.
  induction l1 as [|[k v] l1 IH]; cbn [app]; intros Hok; [by split; constructor|].
  apply fm_ok_cons in Hok as (H1&H2&H3). apply fm_ok_cons. rewrite fmap_app in H2. apply Forall_app in H2 as [H2 _].
  auto.
Qed.

Lemma nested_ads_items l : Forall (fun t => grammatical t = true -> nested_ads t = []) l ->
  forallb grammatical l = true -> concat (nested_ads <$> l) = [].
Proof.
  induction 1 as [|t l Ht Hl IH]; cbn [forallb]; intros H; [done|]. split_andb. rewrite fmap_cons. cbn [concat].
  rewrite Ht by done. by apply IH.
Qed.
Lemma nested_ads_grammatical t : grammatical t = true -> nested_ads t = [].
Proof.
  induction t using ExprTree_induct; cbn [grammatical nested_ads]; intros Hg; split_andb; try done; auto using nested_ads_items.
  - by rewrite IHt1, IHt2.
  - by rewrite IHt1, IHt2, IHt3.
  - by rewrite IHt1, IHt2.
Qed.

(** The attributes as they are after insertion into the ClassAd at [a]. *)
Definition scoped_in (a : adref) (l : list (string * ExprTree)) : list (string * ExprTree) :=
  prod_map id (SetParentScope (Some a)) <$> l.
Lemma scoped_in_names a l : (scoped_in a l).*1 = l.*1.
Proof. unfold scoped_in. rewrite <- list_fmap_compose. by apply list_fmap_ext. Qed.
Lemma scoped_in_app a l1 l2 : scoped_in a (l1 ++ l2) = scoped_in a l1 ++ scoped_in a l2.
Proof. apply fmap_app. Qed.

Definition plain_attr (kv : string * ExprTree) : Prop := kv.1 <> "" /\ grammatical kv.2 = true.

Lemma with_attrs_sorted a l : forall l0, fm_ok (l0 ++ l) ->
  with_attrs a l (set_attrList (scoped_in a l0) new_ClassAd) = set_attrList (scoped_in a (l0 ++ l)) new_ClassAd.
Proof.
  induction l as [|[s t] l IH]; intros l0 Hok; [by rewrite app_nil_r|].
  assert (Hok1 : fm_ok (scoped_in a l0 ++ [(s, SetParentScope (Some a) t)])).
  { apply (fm_ok_names (l0 ++ [(s, t)])).
    - rewrite !fmap_app. by rewrite scoped_in_names.
    - apply (fm_ok_prefix _ l). by rewrite <- app_assoc. }
  unfold with_attrs. cbn [foldl fst snd]. unfold insert_attr, MarkAttributeDirty.
  cbn [do_dirty_tracking set_attrList new_ClassAd attrList]. rewrite fm_insert_last by done.
  change [(s, SetParentScope (Some a) t)] with (scoped_in a [(s, t)]). rewrite <- scoped_in_app.
  change (l0 ++ (s, t) :: l) with (l0 ++ [(s, t)] ++ l). rewrite app_assoc. apply IH. by rewrite <- app_assoc.
Qed.

Lemma insert_all_sorted a l (h : heap) : h !! a = Some new_ClassAd -> fm_ok l -> Forall plain_attr l ->
  insert_all a h l = Some (<[a := set_attrList (scoped_in a l) new_ClassAd]> h).
Proof.
  intros Ha Hok Hall. rewrite (insert_all_plain a new_ClassAd); [|eapply Forall_impl; [exact Hall|]|done].
  - pose proof (with_attrs_sorted a l [] Hok) as E. cbn [app] in E. by rewrite <- E.
  - intros [s t] [Hs Hg]. split; [by apply nested_ads_grammatical|done].
Qed.

(** ** [ParseClassAd] *)
Section ParseClassAd.
Variable oldSemantics : bool.
Variables MakeAbsTime MakeRelTime : string -> option ExprTree.

(** A text with the tokens of a ClassAd becomes a new ClassAd with its attributes. *)
Lemma ParseClassAd_inserts n l h lx source full h' :
  lexer_gives oldSemantics false (Initialize (txt source) lx) (ad_tokens l ++ [LEX_END_OF_INPUT]) ->
  Forall (attr_fits n 0) l -> insert_all (alloc_ad h).2 (alloc_ad h).1 l = Some h' -> (length l + 1 < n)%nat ->
  exists lx', ParseClassAd oldSemantics false MakeAbsTime MakeRelTime n h lx source full =
    Ret (Some (alloc_ad h).2) (h', lx').
Proof.
  intros G Hfit Hins Hn. unfold ParseClassAd. destruct (alloc_ad h) as [h1 a] eqn:Ea. cbn [fst snd] in Hins.
  assert (Ha : h1 !! a = Some new_ClassAd).
  { unfold alloc_ad in Ea. injection Ea as <- <-. by rewrite lookup_insert_eq. }
  destruct (parseClassAd_inserts (TokenStream0 := Lexer_stream oldSemantics false) MakeAbsTime MakeRelTime oldSemantics
    n 0 l a [LEX_END_OF_INPUT] (h1, Initialize (txt source) lx) h') as ([h2 lx2]&E&<-&G2); try done.
  rewrite (run_bind _ _ _ _ _ E). cbn [negb]. destruct full; [|by exists lx2].
  destruct (run_consume (TokenStream0 := Lexer_stream oldSemantics false)
    (fun tk => rret match tk with LEX_END_OF_INPUT => Some a | _ => None end) (h2, lx2) _ _ G2) as ([h3 lx3]&->&A3&_).
  simpl in A3. subst h3. by exists lx3.
Qed.

(** The text of a ClassAd is lexed into its tokens. *)
Section unparse.
Variable absTimeToString : abstime_t -> text.
Variable relTimeToString : double -> text.
Variable unparse_ad : adref -> text.
Abbreviation U := (Unparse false absTimeToString relTimeToString unparse_ad).
Abbreviation yields := (yields oldSemantics false).
Abbreviation unparse_name := (unparse_name false).
Abbreviation unparse_attrs := (unparse_attrs false).

Lemma lexes_bound_to prev s : lexes oldSemantics false prev (txt " = " ++ s) LEX_BOUND_TO (" "%char :: s).
Proof.
  eapply lexes_intro; [reflexivity|done|]. intros lx ([? ? Hn]&?&?). destruct lx; simpl in *; subst.
  eexists; split; [vm_compute; reflexivity|split; [done|]].
  apply no_nul_cons in Hn as [_ Hn]. exact Hn.
Qed.

Definition attr_prints (kv : string * ExprTree) : Prop :=
  no_nul (txt kv.1) /\ grammatical kv.2 = true /\ printable false kv.2 = true.

Lemma attr_yields prev kv k ts : attr_prints kv -> ends_expression k ->
  (forall p, ends_operand p = true -> yields p k ts) ->
  yields prev ((unparse_name kv.1 ++ txt " = " ++ U kv.2) ++ k) (LEX_IDENTIFIER kv.1 :: LEX_BOUND_TO :: tokens kv.2 ++ ts).
Proof.
  intros (Hn&Hg&Hp) Hk Hts. rewrite <- !app_assoc. eapply yields_one; [by apply lexes_name|].
  eapply yields_one; [apply lexes_bound_to|]. apply yields_space. apply Unparse_yields; [done|done|done|by apply follows_end|done].
Qed.

Lemma attrs_yield l : forall prev ts, Forall attr_prints l -> (forall p, yields p [] ts) ->
  yields prev (join (txt "; ") ((fun kv => unparse_name kv.1 ++ txt " = " ++ U kv.2) <$> l) ++ txt " ]")
    (attr_tokens l ++ ts).
Proof.
  induction l as [|[s t] l IH]; intros prev ts Hall Hts.
  - cbn [attr_tokens app]. eapply yields_one; [by eapply lexes_single|]. apply Hts.
  - inversion Hall as [|? ? Ha Hall']; subst. cbn [attr_tokens app]. rewrite <- app_assoc. destruct l as [|kv l].
    + apply (attr_yields prev (s, t)); [done|done|]. intros p _. cbn [app].
      eapply yields_one; [by eapply lexes_single|]. apply Hts.
    + set (f := fun kv : string * ExprTree => unparse_name kv.1 ++ txt " = " ++ U kv.2) in *.
      change (join (txt "; ") (f <$> (s, t) :: kv :: l)) with (f (s, t) ++ txt "; " ++ join (txt "; ") (f <$> kv :: l)).
      rewrite <- (app_assoc (f (s, t))). unfold f at 1.
      apply (attr_yields prev (s, t)); [done|done|]. intros p _. cbn [app]. apply yields_single; [done|done|].
      apply yields_space. by apply IH.
Qed.

Lemma unparse_attrs_yields prev l : Forall attr_prints l ->
  yields prev (unparse_attrs absTimeToString relTimeToString unparse_ad l) (ad_tokens l ++ [LEX_END_OF_INPUT]).
Proof.
  intros Hall. unfold unparse_attrs. cbn [ad_tokens app txt list_ascii_of_string]. apply yields_single; [done|done|].
  apply yields_space. apply attrs_yield; [done|]. intros p. exists []. split; [by apply lexes_end|done].
Qed.

Lemma unparse_attrs_no_nul l : Forall attr_prints l ->
  no_nul (unparse_attrs absTimeToString relTimeToString unparse_ad l).
Proof.
  intros Hall. unfold unparse_attrs. apply no_nul_app. split; [by repeat constructor|]. apply no_nul_app.
  split; [|by repeat constructor]. apply join_no_nul; [by repeat constructor|].
  induction Hall as [|[s t] l (Hn&Hg&Hp) Hl IH]; constructor; [|done].
  apply no_nul_app. split; [by apply unparse_name_no_nul|]. apply no_nul_app. split; [by repeat constructor|].
  by apply text_no_nul.
Qed.

Lemma unparse_attrs_scope p l :
  unparse_attrs absTimeToString relTimeToString unparse_ad (prod_map id (SetParentScope p) <$> l) =
  unparse_attrs absTimeToString relTimeToString unparse_ad l.
Proof.
  unfold unparse_attrs. do 3 f_equal. rewrite <- list_fmap_compose. apply list_fmap_ext. intros _ [s t] _.
  simpl. by rewrite Unparse_scope.
Qed.
End unparse.
End ParseClassAd.

(** C27: a ClassAd survives printing and parsing. The text of a ClassAd whose attributes are
    trees that survive (they nest no ClassAd) is parsed into a new ClassAd with the same
    attributes, in the same order, each in the scope of the new ClassAd; the rest of the
    store is unchanged. *)
Theorem ParseClassAd_UnparseAd oldSemantics MakeAbsTime MakeRelTime absTimeToString relTimeToString n h lx full a ad :
  h !! a = Some ad -> fm_ok (attrList ad) ->
  Forall (fun kv => kv.1 <> "" /\ nul_free_text kv.1 = true /\ grammatical (unscoped kv.2) = true /\
    printable false (unscoped kv.2) = true /\ nesting (unscoped kv.2) < MAX_PARSE_DEPTH /\
    (tree_size kv.2 < n)%nat) (attrList ad) ->
  (length (attrList ad) + 1 < n)%nat ->
  let a' := fresh (dom h) in
  exists lx', ParseClassAd oldSemantics false MakeAbsTime MakeRelTime n h lx
      (UnparseAd false absTimeToString relTimeToString h a) full =
    Ret (Some a') (<[a' := set_attrList (scoped_in a' (attrList ad)) new_ClassAd]> h, lx').
Proof.
  intros Ha Hok Hall Hn a'. set (l := prod_map id unscoped <$> attrList ad).
  assert (Hs : scoped_in a' l = scoped_in a' (attrList ad)).
  { unfold l, scoped_in. rewrite <- list_fmap_compose. apply list_fmap_ext. intros _ [s t] _.
    simpl. unfold unscoped. by rewrite SetParentScope_idem. }
  assert (Htext : list_ascii_of_string (UnparseAd false absTimeToString relTimeToString h a) =
    unparse_attrs false absTimeToString relTimeToString
      (unparse_ad false absTimeToString relTimeToString (size h) h) l).
  { unfold UnparseAd. rewrite list_ascii_of_string_of_list_ascii. cbn [unparse_ad]. rewrite Ha.
    symmetry. apply unparse_attrs_scope. }
  assert (Hprints : Forall attr_prints l).
  { apply Forall_fmap. eapply Forall_impl; [exact Hall|]. intros [s t] (_&H1&H2&H3&_).
    split; [by apply nul_free_text_spec|done]. }
  apply (ParseClassAd_inserts oldSemantics _ _ n l).
  - apply Initialize_gives; unfold txt; rewrite Htext; [by apply unparse_attrs_no_nul|by apply unparse_attrs_yields].
  - apply Forall_fmap. eapply Forall_impl; [exact Hall|]. intros [s t] (H1&_&H2&_&H4&H5). simpl in *.
    unfold attr_fits. simpl. unfold unscoped in *. rewrite SetParentScope_size. split_and!; (done || lia).
  - unfold alloc_ad. cbn [fst snd]. fold a'.
    rewrite (insert_all_sorted a' l (<[a' := new_ClassAd]> h)).
    + by rewrite Hs, insert_insert_eq.
    + by rewrite lookup_insert_eq.
    + apply (fm_ok_names (attrList ad)); [|done]. unfold l. rewrite <- list_fmap_compose.
      by apply list_fmap_ext.
    + apply Forall_fmap. eapply Forall_impl; [exact Hall|]. intros [s t] (H1&_&H2&_). done.
  - unfold l. by rewrite length_fmap.
Qed.

Definition sample_attrs : list (string * ExprTree) :=
  [("Memory", IntegerLiteral 1024); ("my name", StringLiteral "x");
   ("Requirements", Operation2 None GREATER_THAN_OP (select "target" "Disk") (ref "Memory"))].
Definition sample_heap : heap := {[1%positive := set_attrList (scoped_in 1 sample_attrs) new_ClassAd]}.

Lemma ParseClassAd_UnparseAd_witness :
  UnparseAd false (fun _ => []) (fun _ => []) sample_heap 1 =
    ("[ Memory = 1024; 'my name' = " ++ String dquote ("x" ++ String dquote
     "; Requirements = target.Disk > Memory ]"))%string /\
  let a' := fresh (dom sample_heap) in
  exists lx', ParseClassAd false false (fun _ => None) (fun _ => None) 100 sample_heap new_Lexer
    (UnparseAd false (fun _ => []) (fun _ => []) sample_heap 1) true =
    Ret (Some a') (<[a' := set_attrList (scoped_in a' (scoped_in 1 sample_attrs)) new_ClassAd]> sample_heap, lx').
Proof.
  split; [vm_compute; reflexivity|].
  apply (ParseClassAd_UnparseAd false _ _ _ _ 100 sample_heap new_Lexer true 1
    (set_attrList (scoped_in 1 sample_attrs) new_ClassAd)).
  - reflexivity.
  - split; repeat constructor.
  - repeat constructor; try (vm_compute; reflexivity); try discriminate; vm_compute; lia.
  - vm_compute. lia.
Defined.

(** ** The texts of the match ClassAd *)
Definition match_text : string :=
  "[symmetricMatch = RIGHT.requirements && LEFT.requirements ;leftMatchesRight = RIGHT.requirements ;rightMatchesLeft = LEFT.requirements ;leftRankValue = LEFT.rank ;rightRankValue = RIGHT.rank]".
Definition left_context_text : string := "[other=.RIGHT;target=.RIGHT;my=.LEFT;ad=.LEFT]".
Definition right_context_text : string := "[other=.LEFT;target=.LEFT;my=.RIGHT;ad=.RIGHT]".

(** C29: the three texts that [InitMatchClassAd] parses denote the attributes the match
    ClassAd is built from in [MatchClassAd]: on any store and whatever the parser read
    before, the parse succeeds and leaves the store [build_ad] leaves. *)
Theorem match_texts_denote oldSemantics MakeAbsTime MakeRelTime n h lx full source attrs :
  In (source, attrs) [(match_text, match_attrs); (left_context_text, context_attrs "LEFT" "RIGHT");
                      (right_context_text, context_attrs "RIGHT" "LEFT")] ->
  (20 <= n)%nat ->
  exists h' a lx', build_ad h attrs = Some (h', a) /\
    ParseClassAd oldSemantics false MakeAbsTime MakeRelTime n h lx source full = Ret (Some a) (h', lx').
Proof.
  intros Hin Hn. unfold build_ad. destruct (alloc_ad h) as [h1 a] eqn:Ea.
  assert (Ha : h1 !! a = Some (set_attrList (scoped_in a []) new_ClassAd)).
  { unfold alloc_ad in Ea. injection Ea as <- <-. by rewrite lookup_insert_eq. }
  assert (Hplain : plain_attrs attrs).
  { destruct Hin as [[= <- <-]|[[= <- <-]|[[= <- <-]|[]]]]; repeat constructor; discriminate. }
  pose proof (insert_all_plain a _ h1 attrs Hplain Ha) as Hins. set (h' := <[a := _]> h1) in Hins.
  exists h', a. rewrite Hins.
  destruct (ParseClassAd_inserts oldSemantics MakeAbsTime MakeRelTime n attrs h lx source full h') as [lx' E].
  - assert (H : exists m, lex_tokens oldSemantics false m (Initialize (txt source) lx) = ad_tokens attrs ++ [LEX_END_OF_INPUT]).
    { destruct Hin as [[= <- <-]|[[= <- <-]|[[= <- <-]|[]]]];
        [exists 36%nat|exists 22%nat|exists 22%nat]; vm_compute; reflexivity. }
    destruct H as [m <-]. apply lex_tokens_gives.
  - destruct Hin as [[= <- <-]|[[= <- <-]|[[= <- <-]|[]]]];
      repeat constructor; simpl; (done || lia).
  - by rewrite Ea.
  - destruct Hin as [[= <- <-]|[[= <- <-]|[[= <- <-]|[]]]]; simpl; lia.
  - exists lx'. rewrite Ea in E. by split.
Qed.

Lemma match_texts_denote_witness :
  exists h' a lx', build_ad ∅ match_attrs = Some (h', a) /\
    ParseClassAd false false (fun _ => None) (fun _ => None) 20 ∅ new_Lexer match_text false = Ret (Some a) (h', lx').
Proof.
  apply (match_texts_denote false _ _ 20 ∅ new_Lexer false match_text match_attrs); [by left|lia].
Defined.
