(* ===== verification/Ranger.v ===== *)
(** * Sets of elements as ranges ([condor_utils/ranger.h], [condor_utils/ranger.cpp])

    A [ranger] keeps a set of integers or of job ids as a forest of disjoint half-open
    ranges, a [std::set] ordered by the ends of the ranges. The forest is a list in that
    order; an iterator is the list of the ranges before it and the list of those from it
    on. Searches stop at the first range that does not satisfy a condition, which is what
    the search of an ordered set finds. *)
From Stdlib Require Import ZArith Lia Ascii String.
From stdpp Require Import base list strings.
From S2P Require Import Prelude Numerals.

Open Scope Z_scope.

(** ** Elements

    What the template asks of [element_type]. [None] is arithmetic that overflows, which
    is undefined. *)
Class Element (T : Type) := {
  elt_lt : T -> T -> bool;
  elt_succ : T -> option T;
  elt_pred : T -> option T;
  elt_eq_dec :: EqDecision T;
  read_element : text -> T * text;
  write_element : T -> text
}.

Section ranger.
Context {T : Type} `{!Element T}.

Record range := mk_range { range_start : T; range_end : T }.
Abbreviation forest := (list range).
Abbreviation iter := (list range * list range)%type.

Definition iter_forest (it : iter) : forest := it.1 ++ it.2.

(** [a <= b], [std::min] and [std::max] *)
Definition elt_le (a b : T) : bool := negb (elt_lt b a).
Definition elt_min (a b : T) : T := if elt_lt b a then b else a.
Definition elt_max (a b : T) : T := if elt_lt a b then b else a.

Definition range_contains (r : range) (x : T) : bool :=
  negb (elt_lt x (range_start r)) && elt_lt x (range_end r).
(** [contains] of a range. *)
Definition range_contains_range (r q : range) : bool :=
  negb (elt_lt (range_start q) (range_start r)) && elt_lt (range_end q) (range_end r).

(** The first range that does not satisfy [p]. *)
Fixpoint skip_while (p : range -> bool) (f : forest) : iter :=
  match f with
  | [] => ([], [])
  | q :: f' => if p q then let '(a, b) := skip_while p f' in (q :: a, b) else ([], f)
  end.

Definition lower_bound (x : T) (f : forest) : iter := skip_while (fun q => elt_lt (range_end q) x) f.
Definition upper_bound (x : T) (f : forest) : iter := skip_while (fun q => negb (elt_lt x (range_end q))) f.

(** [std::set::insert]: nothing is inserted when there is a range with the same end. *)
Definition set_insert (r : range) (f : forest) : iter :=
  let '(a, b) := lower_bound (range_end r) f in
  match b with
  | q :: _ => if elt_lt (range_end r) (range_end q) then (a, r :: b) else (a, b)
  | [] => (a, [r])
  end.

(** ** Operations *)
Definition insert (r : range) (f : forest) : iter :=
  let '(before, rest) := lower_bound (range_start r) f in
  let '(hit, after) := skip_while (fun q => elt_le (range_start q) (range_end r)) rest in
  match hit, last hit with
  | first :: _, Some back =>
      let min_start := elt_min (range_start first) (range_start r) in
      let back := if elt_lt min_start (range_start back) then mk_range min_start (range_end back) else back in
      let back := if elt_lt (range_end back) (range_end r) then mk_range (range_start back) (range_end r) else back in
      (before, back :: after)
  | _, _ => set_insert r f
  end.

Definition erase (r : range) (f : forest) : iter :=
  let '(before, rest) := upper_bound (range_start r) f in
  let '(hit, after) := skip_while (fun q => elt_lt (range_start q) (range_end r)) rest in
  match hit, last hit with
  | first :: others, Some orig_back =>
      let cut_front := elt_lt (range_start first) (range_start r) in
      let front := mk_range (range_start first) (range_start r) in
      if cut_front && elt_lt (range_end r) (range_end first) then
        set_insert (mk_range (range_end r) (range_end orig_back)) (before ++ front :: others ++ after)
      else
        let before := if cut_front then before ++ [front] else before in
        if elt_lt (range_end r) (range_end orig_back)
        then (before, mk_range (range_end r) (range_end orig_back) :: after)
        else (before, after)
  | _, _ => (before, rest)
  end.

(** A range of one element, and of the elements from [front] to [back]. *)
Definition one (e : T) : option range := mk_range e <$> elt_succ e.
Definition slice (front back : T) : option range := mk_range front <$> elt_succ back.
Definition insert_slice (front back : T) (f : forest) : option iter := (fun r => insert r f) <$> slice front back.
Definition erase_slice (front back : T) (f : forest) : option iter := (fun r => erase r f) <$> slice front back.

Definition find (x : T) (f : forest) : iter * bool :=
  let it := upper_bound x f in
  (it, match it.2 with q :: _ => elt_le (range_start q) x | [] => false end).
Definition contains (x : T) (f : forest) : bool := (find x f).2.

(** The constructor from a list of ranges. *)
Definition of_ranges (il : list range) : forest := foldl (fun f r => iter_forest (insert r f)) [] il.

(** ** Text *)
Definition persist_range_single (r : range) : option text :=
  back ← elt_pred (range_end r);
  Some (write_element (range_start r) ++
    (if decide (range_start r = back) then [] else "-"%char :: write_element back) ++ [";"%char]).

(** The texts of the ranges, without the last semicolon. *)
Definition persist (f : forest) : option text :=
  texts ← mapM persist_range_single f; Some (removelast (concat texts)).

(** The part of a range that lies in [rr]. *)
Definition clip (rr q : range) : range :=
  mk_range (elt_max (range_start q) (range_start rr)) (elt_min (range_end q) (range_end rr)).
Definition persist_range (rr : range) (f : forest) : option text :=
  let hit := (skip_while (fun q => elt_lt (range_start q) (range_end rr)) (find (range_start rr) f).1.2).1 in
  texts ← mapM persist_range_single (clip rr <$> hit); Some (removelast (concat texts)).
Definition persist_slice (start back : T) (f : forest) : option text :=
  rr ← slice start back; persist_range rr f.

(** One round of the loop of [load]: what is left of the text and the range that was read,
    or the text where the failure is. [s == sp] compares what is left. *)
Definition load_range (s : text) : (text * T * T) + text :=
  let '(start, sp) := read_element s in
  if Nat.eqb (length sp) (length s) then inr s
  else
    let finish (back : T) (s : text) :=
      match s with
      | [] => inl ([], start, back)
      | c :: s' => if Ascii.eqb c ";" then inl (s', start, back) else inr s
      end in
    match sp with
    | c :: sp' =>
        if Ascii.eqb c "-" then
          let '(back, sp2) := read_element sp' in
          if Nat.eqb (length sp2) (length sp') then inr sp' else finish back sp2
        else finish start sp
    | [] => finish start sp
    end.

(** [load]: 0, or minus one minus the position of the failure; the ranges read before it
    are inserted. Every round reads a character. *)
Fixpoint load_loop (n : nat) (total : nat) (s : text) (f : forest) : option (Z * forest) :=
  match s with
  | [] => Some (0%Z, f)
  | _ :: _ =>
      match n with
      | O => None
      | S n' =>
          match load_range s with
          | inr s_fail => Some ((- 1 - (Z.of_nat total - Z.of_nat (length s_fail)))%Z, f)
          | inl (s', start, back) =>
              it ← insert_slice start back f; load_loop n' total s' (iter_forest it)
          end
      end
  end.
Definition load (s : text) (f : forest) : option (Z * forest) := load_loop (length s) (length s) s f.

(** ** Iteration over the elements

    The iterator of [get_elements]: a place in the forest and, once it is valid, an element
    of the range there. [None]: the end is dereferenced. *)
Record element_iter := mk_element_iter { sit : iter; rit : option T }.

Definition mk_valid (it : element_iter) : option (range * T) :=
  match (sit it).2 with
  | q :: _ => Some (q, default (range_start q) (rit it))
  | [] => None
  end.
Definition elt_deref (it : element_iter) : option T := snd <$> mk_valid it.
Definition elt_next (it : element_iter) : option element_iter :=
  '(q, x) ← mk_valid it;
  x' ← elt_succ x;
  Some (if decide (x' = range_end q) then mk_element_iter ((sit it).1 ++ [q], tail (sit it).2) None
        else mk_element_iter (sit it) (Some x')).
Definition elt_prev (it : element_iter) : option element_iter :=
  '(q, x) ← mk_valid it;
  if decide (x = range_start q) then
    p ← last (sit it).1;
    x' ← elt_pred (range_end p);
    Some (mk_element_iter (removelast (sit it).1, p :: (sit it).2) (Some x'))
  else Some (mk_element_iter (sit it) (Some x)).
Definition elements_begin (f : forest) : element_iter := mk_element_iter ([], f) None.
Definition elements_end (f : forest) : element_iter := mk_element_iter (f, []) None.

(** [operator==], on iterators of one forest. *)
Definition elt_iter_eq (a b : element_iter) : bool :=
  if Nat.eqb (length (sit a).1) (length (sit b).1) then
    match rit a, rit b with
    | None, None => true
    | _, _ => bool_decide (snd <$> mk_valid a = snd <$> mk_valid b)
    end
  else false.

(** [for (x : get_elements ())]: the elements, when the loop ends within [n] rounds. *)
Fixpoint elements_loop (n : nat) (f : forest) (it : element_iter) : option (list T) :=
  if elt_iter_eq it (elements_end f) then Some []
  else
    match n with
    | O => None
    | S n' => x ← elt_deref it; it' ← elt_next it; l ← elements_loop n' f it'; Some (x :: l)
    end.
End ranger.
Arguments range T : clear implicits.

(** ** The two kinds of elements *)

Definition int_succ (x : Z) : option Z := if x =? INT32_MAX then None else Some (x + 1).
Definition int_pred (x : Z) : option Z := if x =? INT32_MIN then None else Some (x - 1).

#[export] Instance int_element : Element Z := {|
  elt_lt := Z.ltb;
  elt_succ := int_succ;
  elt_pred := int_pred;
  read_element s := let '(v, r) := strtol s in (wrap32 v, r);
  write_element := append_long []
|}.

(** Job ids: [operator<] subtracts 32-bit numbers. *)
Record JOB_ID_KEY := mk_JOB_ID_KEY { cluster : Z; proc : Z }.
#[export] Instance JOB_ID_KEY_eq_dec : EqDecision JOB_ID_KEY.
Proof. solve_decision. Defined.

Definition job_lt (a b : JOB_ID_KEY) : bool :=
  let diff := wrap32 (cluster a - cluster b) in
  let diff := if diff =? 0 then wrap32 (proc a - proc b) else diff in
  diff <? 0.
(** [sscanf (s, "%d.%d%n", ...)]: a conversion reads like [strtol]; without both the text is
    where it was. *)
Definition read_job (s : text) : JOB_ID_KEY * text :=
  let '(c, s1) := strtol s in
  let key0 := mk_JOB_ID_KEY 0 0 in
  if Nat.eqb (length s1) (length s) then (key0, s)
  else
    match s1 with
    | d :: s2 =>
        if Ascii.eqb d "." then
          let '(p, s3) := strtol s2 in
          if Nat.eqb (length s3) (length s2) then (key0, s) else (mk_JOB_ID_KEY (wrap32 c) (wrap32 p), s3)
        else (key0, s)
    | [] => (key0, s)
    end.

#[export] Instance job_element : Element JOB_ID_KEY := {|
  elt_lt := job_lt;
  elt_succ k := mk_JOB_ID_KEY (cluster k) <$> int_succ (proc k);
  elt_pred k := mk_JOB_ID_KEY (cluster k) <$> int_pred (proc k);
  read_element := read_job;
  write_element k := append_long [] (cluster k) ++ "."%char :: append_long [] (proc k)
|}.
