(* ===== verification/RangerFacts.v ===== *)
(** * Facts about rangers

    The order of the elements, the invariant of a forest and what its ranges cover; what
    the operations do with both. *)
From Stdlib Require Import ZArith Lia Ascii String.
From stdpp Require Import base list strings.
From S2P Require Import Prelude Numerals LexerFacts Ranger.

Open Scope Z_scope.

(** ** Elements in order

    The elements in use ([elt_ok]) are ordered like the integers they are mapped to, and
    the next element is the next integer. *)
Class ElementOrder (T : Type) `{Element T} := {
  elt_ok : T -> Prop;
  elt_code : T -> Z;
  elt_code_inj x y : elt_ok x -> elt_ok y -> elt_code x = elt_code y -> x = y;
  elt_lt_code x y : elt_ok x -> elt_ok y -> elt_lt x y = (elt_code x <? elt_code y);
  elt_succ_code x y : elt_ok x -> elt_succ x = Some y -> elt_ok y -> elt_code y = elt_code x + 1;
  elt_pred_code x y : elt_ok x -> elt_pred x = Some y -> elt_ok y -> elt_code x = elt_code y + 1;
  elt_succ_pred x y : elt_ok x -> elt_pred x = Some y -> elt_succ y = Some x
}.

Section facts.
Context {T : Type} `{ElementOrder T}.
Abbreviation forest := (list (range T)).
Abbreviation code := elt_code.

Implicit Types (x y : T) (r q : range T) (f g : forest).

Definition range_ok r : Prop := elt_ok (range_start r) /\ elt_ok (range_end r) /\ code (range_start r) < code (range_end r).
Abbreviation cs r := (code (range_start r)).
Abbreviation ce r := (code (range_end r)).

(** [x] is in a range of the forest. *)
Definition in_range r x : Prop := cs r <= code x < ce r.
Definition covers f x : Prop := exists r, r ∈ f /\ in_range r x.

(** The ranges are valid and in order, the first from [b] on, each starting [sep] or more
    after the one before: with [sep] 0 they are disjoint, with [sep] 1 they do not touch. *)
Fixpoint above (sep b : Z) f : Prop :=
  match f with
  | [] => True
  | r :: f' => range_ok r /\ b <= cs r /\ above sep (ce r + sep) f'
  end.
Definition forest_ok (sep : Z) f : Prop := exists b, above sep b f.
(** Where the next range may start. *)
Fixpoint bound (sep b : Z) f : Z :=
  match f with [] => b | r :: f' => bound sep (ce r + sep) f' end.

Lemma above_app sep f : forall b g, above sep b (f ++ g) <-> above sep b f /\ above sep (bound sep b f) g.
Proof. induction f as [|r f IH]; intros b g; simpl; [tauto|]. rewrite IH. tauto. Qed.
Lemma above_weaken sep sep' f : forall b b', sep' <= sep -> b' <= b -> above sep b f -> above sep' b' f.
Proof.
  induction f as [|r f IH]; intros b b' Hs Hb; simpl; [done|]. intros (Hr&Hst&Hf).
  split_and!; [done|lia|]. eapply IH; [done| |exact Hf]. lia.
Qed.
Lemma above_ok sep f : forall b r, above sep b f -> r ∈ f -> range_ok r /\ (0 <= sep -> b <= cs r).
Proof.
  induction f as [|q f IH]; intros b r; [by intros _ ?%not_elem_of_nil|].
  intros (Hq&Hb&Hf) [->|Hr]%elem_of_cons; [done|]. destruct (IH _ _ Hf Hr) as [Ho Hc]. split; [done|].
  destruct Hq as (_&_&?). intros Hsep. specialize (Hc Hsep). lia.
Qed.
Lemma bound_mono sep f b b' : b <= b' -> bound sep b f <= bound sep b' f.
Proof. destruct f; simpl; lia. Qed.
Lemma bound_ge sep f : forall b, 0 <= sep -> above sep b f -> b <= bound sep b f.
Proof.
  induction f as [|r f IH]; intros b Hs; simpl; [lia|]. intros ((_&_&Hr)&Hb&Hf). specialize (IH _ Hs Hf). lia.
Qed.

Lemma covers_nil x : covers [] x <-> False.
Proof. split; [|done]. by intros (r&?%not_elem_of_nil&_). Qed.
Lemma covers_cons r f x : covers (r :: f) x <-> in_range r x \/ covers f x.
Proof.
  unfold covers. setoid_rewrite elem_of_cons. split.
  - intros (q&[->|?]&?); eauto.
  - intros [?|(q&?&?)]; eauto.
Qed.
Lemma covers_app f g x : covers (f ++ g) x <-> covers f x \/ covers g x.
Proof. induction f as [|r f IH]; simpl; [rewrite covers_nil; tauto|]. rewrite !covers_cons, IH. tauto. Qed.

Lemma covers_above sep f b x : 0 <= sep -> above sep b f -> covers f x -> b <= code x.
Proof. intros Hs Ha (r&Hr&?&_). destruct (above_ok _ _ _ _ Ha Hr) as [_ Hb]. specialize (Hb Hs). lia. Qed.
Lemma covers_bound sep f b x : 0 <= sep -> above sep b f -> covers f x -> code x < bound sep b f.
Proof.
  revert b. induction f as [|r f IH]; intros b Hs Ha Hc; [by apply covers_nil in Hc|].
  destruct Ha as (Hr&Hb&Hf). apply covers_cons in Hc as [[_ Hx]|Hc]; simpl.
  - pose proof (bound_ge sep f _ Hs Hf). lia.
  - by apply IH.
Qed.

Lemma above_raise sep b z f : above sep b f -> (forall q, head f = Some q -> z <= cs q) -> above sep z f.
Proof. destruct f as [|q f]; [done|]. intros (Hq&_&Hf) Hz. split_and!; [done|by apply Hz|done]. Qed.
Lemma bound_last sep b f r : last f = Some r -> bound sep b f = ce r + sep.
Proof.
  revert b. induction f as [|q f IH]; intros b; [done|]. destruct f as [|q' f]; [by intros [= ->]|].
  intros E. cbn [bound]. by rewrite <- (IH (ce q + sep)).
Qed.
Lemma bound_below sep b f z : sep <= 1 -> b <= z -> Forall (fun q => ce q < z) f -> bound sep b f <= z.
Proof.
  intros Hs Hb Hf. destruct (last f) as [r|] eqn:E.
  - rewrite (bound_last _ _ _ _ E). rewrite Forall_forall in Hf. specialize (Hf r (last_Some_elem_of _ _ E)). lia.
  - by apply last_None in E as ->.
Qed.

(** What a search finds. *)
Lemma skip_while_spec (p : range T -> bool) f a b : skip_while p f = (a, b) ->
  f = a ++ b /\ Forall (fun q => p q = true) a /\ (forall q, head b = Some q -> p q = false).
Proof.
  revert a b. induction f as [|q f IH]; simpl; intros a b; [by intros [= <- <-]|].
  destruct (p q) eqn:Hp.
  - destruct (skip_while p f) as [a' b'] eqn:E. destruct (IH _ _ eq_refl) as (->&?&?). intros [= <- <-].
    split_and!; auto.
  - intros [= <- <-]. split_and!; [done|done|]. by intros ? [= <-].
Qed.

(** Comparisons in terms of codes. *)
Lemma elt_lt_true x y : elt_ok x -> elt_ok y -> elt_lt x y = true <-> code x < code y.
Proof. intros. rewrite elt_lt_code by done. apply Z.ltb_lt. Qed.
Lemma elt_lt_false x y : elt_ok x -> elt_ok y -> elt_lt x y = false <-> code y <= code x.
Proof. intros. rewrite elt_lt_code by done. apply Z.ltb_ge. Qed.
Lemma elt_le_code x y : elt_ok x -> elt_ok y -> elt_le x y = (code x <=? code y).
Proof. intros. unfold elt_le. rewrite elt_lt_code by done. rewrite Z.leb_antisym. done. Qed.
Lemma elt_min_code x y : elt_ok x -> elt_ok y -> elt_ok (elt_min x y) /\ code (elt_min x y) = Z.min (code x) (code y).
Proof. intros. unfold elt_min. rewrite elt_lt_code by done. destruct (Z.ltb_spec (code y) (code x)); split; (done || lia). Qed.
Lemma elt_max_code x y : elt_ok x -> elt_ok y -> elt_ok (elt_max x y) /\ code (elt_max x y) = Z.max (code x) (code y).
Proof. intros. unfold elt_max. rewrite elt_lt_code by done. destruct (Z.ltb_spec (code x) (code y)); split; (done || lia). Qed.

Lemma above_range_ok sep b f : above sep b f -> Forall range_ok f.
Proof. intros Ha. apply Forall_forall. intros q Hq. by apply (above_ok _ _ _ _ Ha). Qed.
Lemma range_contains_code r x : range_ok r -> elt_ok x -> range_contains r x = true <-> in_range r x.
Proof.
  intros (?&?&_) Hx. unfold range_contains, in_range. rewrite !elt_lt_code by done.
  rewrite andb_true_iff, negb_true_iff, Z.ltb_ge, Z.ltb_lt. done.
Qed.

(** The two searches of a forest: the ranges before end too early, those from there on do not. *)
Lemma search_end (p : range T -> bool) sep b f z a c : 0 <= sep -> above sep b f ->
  (forall q, range_ok q -> p q = true <-> ce q < z) -> skip_while p f = (a, c) ->
  f = a ++ c /\ Forall (fun q => ce q < z) a /\ Forall (fun q => z <= ce q) c.
Proof.
  intros Hs Ha Hp E. destruct (skip_while_spec _ _ _ _ E) as (->&H1&H2). pose proof (above_range_ok _ _ _ Ha) as Hok.
  apply Forall_app in Hok as [Hok1 Hok2]. split; [done|]. split.
  - rewrite Forall_forall in *. intros q Hq. apply Hp; auto.
  - destruct c as [|q c]; [done|]. apply Forall_cons in Hok2 as [Hq Hc].
    assert (Hz : z <= ce q).
    { destruct (Z.le_gt_cases z (ce q)) as [|Hlt]; [done|]. apply (Hp q Hq) in Hlt. by rewrite (H2 q) in Hlt. }
    constructor; [done|]. apply above_app in Ha as [_ (_&_&Ha)]. rewrite Forall_forall. intros q' Hq'.
    destruct (above_ok _ _ _ _ Ha Hq') as [(_&_&?) Hb]. specialize (Hb Hs). lia.
Qed.
Lemma search_start (p : range T -> bool) f z a c : Forall range_ok f ->
  (forall q, range_ok q -> p q = true <-> cs q < z) -> skip_while p f = (a, c) ->
  f = a ++ c /\ Forall (fun q => cs q < z) a /\ (forall q, head c = Some q -> z <= cs q).
Proof.
  intros Hok Hp E. destruct (skip_while_spec _ _ _ _ E) as (->&H1&H2).
  apply Forall_app in Hok as [Hok1 Hok2]. split_and!; [done| |].
  - rewrite Forall_forall in *. intros q Hq. apply Hp; auto.
  - intros q Hq. destruct (Z.le_gt_cases z (cs q)) as [|Hlt]; [done|]. destruct c as [|q' c]; [done|].
    injection Hq as ->. apply Forall_cons in Hok2 as [Hq2 _]. apply (Hp q Hq2) in Hlt. by rewrite (H2 q) in Hlt.
Qed.

(** ** Insertion *)
Ltac elt_compare := rewrite ?elt_le_code, ?elt_lt_code by (done || intuition (done || auto)).

(** A search by the end of the ranges, or by their start. *)
Lemma lower_bound_spec sep b f x a c : 0 <= sep -> above sep b f -> elt_ok x -> lower_bound x f = (a, c) ->
  f = a ++ c /\ Forall (fun q => ce q < code x) a /\ Forall (fun q => code x <= ce q) c.
Proof.
  intros Hs Ha Hx E. eapply search_end; [exact Hs|exact Ha| |exact E].
  intros q (_&Hq&_). by rewrite elt_lt_true.
Qed.
Lemma upper_bound_spec sep b f x a c : 0 <= sep -> above sep b f -> elt_ok x -> upper_bound x f = (a, c) ->
  f = a ++ c /\ Forall (fun q => ce q <= code x) a /\ Forall (fun q => code x < ce q) c.
Proof.
  intros Hs Ha Hx E. destruct (fun Hp => search_end _ sep b f (code x + 1) a c Hs Ha Hp E) as (->&H1&H2).
  - intros q (_&Hq&_). rewrite negb_true_iff, elt_lt_false by done. lia.
  - split_and!; [done|eapply Forall_impl; [exact H1|simpl; lia]|eapply Forall_impl; [exact H2|simpl; lia]].
Qed.

(** The ranges [hit] by [r], all that touch it, and the range [m] they become. *)
Record merges (hit : forest) r m : Prop := mk_merges {
  merges_ok : range_ok m;
  merges_start : cs m = match head hit with Some q => Z.min (cs q) (cs r) | None => cs r end;
  merges_end : ce m = match last hit with Some q => Z.max (ce q) (ce r) | None => ce r end
}.

Lemma merge_covers sep b hit r m x : 0 <= sep -> above sep b hit -> range_ok r ->
  Forall (fun q => cs r <= ce q /\ cs q <= ce r) hit -> merges hit r m ->
  in_range m x <-> covers hit x \/ in_range r x.
Proof.
  intros Hs Ha (_&_&Hr) Hhit [_ Hst Hen]. unfold in_range at 1.
  destruct (head hit) as [first|] eqn:E1; [|apply head_None in E1 as ->; simpl in Hen; rewrite covers_nil, Hst, Hen; unfold in_range; tauto].
  destruct (last hit) as [back|] eqn:E2; [|apply last_None in E2 as ->; done].
  rewrite Forall_forall in Hhit.
  assert (Hf : first ∈ hit) by (destruct hit; simplify_eq/=; left).
  assert (Hb : back ∈ hit) by by apply last_Some_elem_of.
  assert (Hfirst : forall y, covers hit y -> cs first <= code y).
  { intros y Hy. destruct hit as [|q l]; [done|]. injection E1 as ->. destruct Ha as (Hq&_&Ha).
    apply (covers_above sep (first :: l) (cs first) y Hs); [|done]. by split_and!. }
  assert (Hback : forall y, covers hit y -> code y < ce back).
  { intros y (q&Hq&_&Hy). apply list_elem_of_split in Hq as (l1&l2&->). destruct l2 as [|q' l2 _] using rev_ind.
    - rewrite last_snoc in E2. by injection E2 as ->.
    - rewrite app_comm_cons, app_assoc, last_snoc in E2. injection E2 as ->.
      apply above_app in Ha as [_ (_&_&Ha)]. apply above_app in Ha as [Ha ((_&_&Hb')&Hlast&_)].
      pose proof (bound_ge sep _ _ Hs Ha). lia. }
  destruct (Hhit _ Hf), (Hhit _ Hb). split.
  - intros Hx. unfold in_range. destruct (Z.lt_ge_cases (code x) (cs r)).
    + left. exists first. split; [done|]. unfold in_range. lia.
    + destruct (Z.lt_ge_cases (code x) (ce r)); [right; lia|]. left. exists back. split; [done|]. unfold in_range. lia.
  - intros [Hc|[? ?]]; [|unfold in_range in *; lia]. specialize (Hfirst _ Hc). specialize (Hback _ Hc). lia.
Qed.

Lemma set_insert_between sep b before after r : 0 <= sep -> above sep b (before ++ after) -> range_ok r ->
  Forall (fun q => ce q < cs r) before -> (forall q, head after = Some q -> ce r <= cs q) ->
  iter_forest (set_insert r (before ++ after)) = before ++ r :: after.
Proof.
  intros Hs Ha Hr Hb Hf. unfold set_insert.
  destruct (lower_bound (range_end r) (before ++ after)) as [a c] eqn:E. pose proof Hr as (Hr1&Hr2&Hr3).
  destruct (lower_bound_spec _ _ _ _ _ _ Hs Ha Hr2 E) as (Hsplit&H1&H2).
  assert (Hafter : Forall (fun q => ce r < ce q) after).
  { apply above_app in Ha as [_ Ha]. destruct after as [|q after]; [done|]. destruct Ha as (Hq&_&Ha).
    specialize (Hf q eq_refl). destruct Hq as (?&?&?). constructor; [lia|]. rewrite Forall_forall. intros q' Hq'.
    destruct (above_ok _ _ _ _ Ha Hq') as [(_&_&?) Hle]. specialize (Hle Hs). lia. }
  assert (a = before /\ c = after) as [-> ->].
  { clear E Ha. revert a Hsplit H1. induction before as [|q before IH]; intros [|q' a] Hsplit H1; simpl in *.
    - by subst.
    - subst. inversion Hafter; subst. inversion H1; subst. lia.
    - subst. inversion H2; subst. inversion Hb; subst. lia.
    - injection Hsplit as -> Hsplit. inversion H1; subst. inversion Hb; subst.
      destruct (IH ltac:(done) a Hsplit) as [-> ->]; done. }
  destruct after as [|q after]; [done|].
  apply above_app in Ha as [_ ((_&Hq2&_)&_)]. rewrite (proj2 (elt_lt_true _ _ Hr2 Hq2)); [done|].
  by inversion Hafter.
Qed.

Lemma insert_merges sep b r f : 0 <= sep -> above sep b f -> range_ok r -> exists before hit after m,
  f = before ++ hit ++ after /\ Forall (fun q => ce q < cs r) before /\
  Forall (fun q => cs r <= ce q /\ cs q <= ce r) hit /\ (forall q, head after = Some q -> ce r < cs q) /\
  merges hit r m /\ iter_forest (insert r f) = before ++ m :: after.
Proof.
  intros Hs Ha Hr. pose proof Hr as (Hr1&Hr2&Hr3). unfold insert.
  destruct (lower_bound (range_start r) f) as [before rest] eqn:E1.
  destruct (lower_bound_spec _ _ _ _ _ _ Hs Ha Hr1 E1) as (->&Hbefore&Hrest).
  destruct (skip_while _ rest) as [hit after] eqn:E2. pose proof (above_range_ok _ _ _ Ha) as Hok.
  apply Forall_app in Hok as [_ Hok].
  destruct (fun Hp => search_start _ rest (ce r + 1) hit after Hok Hp E2) as (->&Hhit&Hafter).
  { intros q (Hq&_). rewrite elt_le_code, Z.leb_le by done. lia. }
  apply Forall_app in Hok as [Hok _]. apply Forall_app in Hrest as [Hrest _].
  exists before, hit, after.
  assert (Hhit' : Forall (fun q => cs r <= ce q /\ cs q <= ce r) hit).
  { rewrite Forall_forall in *. intros q Hq. specialize (Hhit q Hq). specialize (Hrest q Hq). simpl in *. lia. }
  assert (Hafter' : forall q, head after = Some q -> ce r < cs q).
  { intros q Hq. specialize (Hafter q Hq). lia. }
  destruct hit as [|first others].
  { exists r. split_and!; try done. cbn [app] in *. apply (set_insert_between sep b); try done.
    intros q Hq. specialize (Hafter' q Hq). lia. }
  destruct (last (first :: others)) as [back|] eqn:El; [|by apply last_None in El].
  assert (Hback : range_ok back) by (rewrite Forall_forall in Hok; apply Hok; by apply last_Some_elem_of).
  assert (Hfirst : range_ok first) by by inversion Hok.
  assert (Hle : cs first <= cs back).
  { apply above_app in Ha as [_ Ha]. apply above_app in Ha as [(_&_&Ha) _].
    destruct others as [|q others]; [injection El as ->; lia|].
    assert (Hb : back ∈ q :: others) by (apply last_Some_elem_of; by rewrite <- El).
    destruct (above_ok _ _ _ _ Ha Hb) as [_ Hb']. specialize (Hb' Hs). destruct Hfirst as (_&_&?). lia. }
  destruct Hfirst as (Hf1&Hf2&Hf3), Hback as (Hb1&Hb2&Hb3).
  destruct (elt_min_code _ _ Hf1 Hr1) as [Hm1 Hm2].
  eexists. split_and!; try done.
  rewrite (elt_lt_code _ _ Hm1 Hb1). destruct (Z.ltb_spec (code (elt_min (range_start first) (range_start r))) (cs back));
    cbn [range_start range_end]; rewrite (elt_lt_code _ _ Hb2 Hr2); destruct (Z.ltb_spec (ce back) (ce r));
    split; unfold range_ok; cbn [range_start range_end head]; rewrite ?El; split_and?; (done || lia).
Qed.

Lemma insert_spec sep b r f : 0 <= sep <= 1 -> above sep b f -> range_ok r ->
  above sep (Z.min b (cs r)) (iter_forest (insert r f)) /\
  forall x, covers (iter_forest (insert r f)) x <-> covers f x \/ in_range r x.
Proof.
  intros Hs Ha Hr. destruct (insert_merges sep b r f) as (before&hit&after&m&->&Hb&Hhit&Hafter&Hm&->); [lia|done..|].
  pose proof Hr as (_&_&Hr3). apply above_app in Ha as [Ha1 Ha]. apply above_app in Ha as [Ha2 Ha3].
  split.
  - apply above_app. split; [eapply above_weaken; [| |exact Ha1]; lia|].
    destruct Hm as [Hok Hst Hen]. cbn [above]. split_and!; [done| |].
    + apply Z.le_trans with (Z.min (bound sep b before) (cs r)).
      * apply Z.min_glb; [apply bound_mono; lia|]. by apply bound_below; [lia..|].
      * rewrite Hst. destruct hit as [|q hit]; simpl; [lia|]. destruct Ha2 as (_&?&_). lia.
    + eapply above_raise; [exact Ha3|]. intros q Hq. specialize (Hafter q Hq). rewrite Hen.
      destruct (last hit) as [back|] eqn:E; [|lia]. rewrite (bound_last _ _ _ _ E) in Ha3.
      destruct after as [|q' after]; [done|]. injection Hq as ->. destruct Ha3 as (_&?&_). lia.
  - intros x. rewrite !covers_app, covers_cons.
    rewrite (merge_covers sep _ hit r m x ltac:(lia) Ha2 Hr Hhit Hm). tauto.
Qed.

(** ** Erasure *)

(** What erasing [r] leaves of the ranges [hit] that meet it. *)
Definition left_piece (hit : forest) r : forest :=
  match head hit with
  | Some q => if decide (cs q < cs r) then [mk_range (range_start q) (range_start r)] else []
  | None => []
  end.
Definition right_piece (hit : forest) r : forest :=
  match last hit with
  | Some q => if decide (ce r < ce q) then [mk_range (range_end r) (range_end q)] else []
  | None => []
  end.

Lemma erase_pieces sep b r f : 0 <= sep -> above sep b f -> range_ok r -> exists before hit after,
  f = before ++ hit ++ after /\ Forall (fun q => ce q <= cs r) before /\
  Forall (fun q => cs r < ce q /\ cs q < ce r) hit /\ (forall q, head after = Some q -> ce r <= cs q) /\
  iter_forest (erase r f) = before ++ left_piece hit r ++ right_piece hit r ++ after.
Proof.
  intros Hs Ha Hr. pose proof Hr as (Hr1&Hr2&Hr3). unfold erase.
  destruct (upper_bound (range_start r) f) as [before rest] eqn:E1.
  destruct (upper_bound_spec _ _ _ _ _ _ Hs Ha Hr1 E1) as (->&Hbefore&Hrest).
  destruct (skip_while _ rest) as [hit after] eqn:E2. pose proof (above_range_ok _ _ _ Ha) as Hok.
  apply Forall_app in Hok as [_ Hok].
  destruct (fun Hp => search_start _ rest (ce r) hit after Hok Hp E2) as (->&Hhit&Hafter).
  { intros q (Hq&_). by rewrite elt_lt_true. }
  apply Forall_app in Hok as [Hok _]. apply Forall_app in Hrest as [Hrest _].
  exists before, hit, after. split; [done|]. split; [done|].
  assert (Hhit' : Forall (fun q => cs r < ce q /\ cs q < ce r) hit).
  { rewrite Forall_forall in *. intros q Hq. by split; [apply Hrest|apply Hhit]. }
  split; [done|]. split; [done|]. unfold left_piece, right_piece.
  destruct hit as [|first others]; [done|].
  destruct (last (first :: others)) as [back|] eqn:El; [|by apply last_None in El].
  assert (Hback : range_ok back) by (rewrite Forall_forall in Hok; apply Hok; by apply last_Some_elem_of).
  assert (Hfirst : range_ok first) by by inversion Hok.
  destruct Hfirst as (Hf1&Hf2&Hf3), Hback as (Hb1&Hb2&Hb3). cbn [head].
  rewrite !elt_lt_code by done.
  destruct (Z.ltb_spec (cs first) (cs r)) as [Hcut|Hcut]; [rewrite decide_True by done|rewrite decide_False by lia];
    cbn [andb].
  - destruct (Z.ltb_spec (ce r) (ce first)) as [Hsplit|Hsplit].
    + destruct others as [|q others].
      * injection El as ->. rewrite decide_True by done.
        assert (E : before ++ mk_range (range_start back) (range_start r) :: [] ++ after =
          (before ++ [mk_range (range_start back) (range_start r)]) ++ after) by by rewrite <- app_assoc.
        rewrite E. rewrite (set_insert_between sep b).
        -- by rewrite <- !app_assoc.
        -- done.
        -- rewrite <- app_assoc. apply above_app in Ha as [Ha1 Ha]. apply above_app. split; [done|].
           destruct Ha as (_&Hle&Ha). cbn [above range_start range_end]. split_and!; [done|done|].
           eapply above_weaken; [| |exact Ha]; cbn; lia.
        -- split_and!; [done|done|]. cbn. lia.
        -- apply Forall_app. split; [eapply Forall_impl; [exact Hbefore|simpl; lia]|].
           repeat constructor. cbn. lia.
        -- intros q Hq. apply above_app in Ha as [_ (_&_&Ha)]. destruct after as [|q' after]; [done|].
           injection Hq as ->. destruct Ha as (_&?&_). cbn. lia.
      * exfalso. apply above_app in Ha as [_ (_&_&(_&Hq&_))]. inversion Hhit' as [|? ? _ Hin]; subst.
        inversion Hin as [|? ? [_ Hq'] _]; subst. lia.
    + destruct (Z.ltb_spec (ce r) (ce back)); [rewrite decide_True by done|rewrite decide_False by lia];
        unfold iter_forest; simpl; by rewrite <- app_assoc.
  - destruct (Z.ltb_spec (ce r) (ce back)); [rewrite decide_True by done|rewrite decide_False by lia]; done.
Qed.

Lemma left_piece_covers sep b hit r x : 0 <= sep -> above sep b hit -> range_ok r -> Forall (fun q => cs r < ce q) hit ->
  covers (left_piece hit r) x <-> covers hit x /\ code x < cs r.
Proof.
  intros Hs Ha Hr Hhit. unfold left_piece. destruct hit as [|q hit]; [simpl; rewrite !covers_nil; tauto|]. cbn [head].
  rewrite covers_cons. inversion Hhit; subst. destruct Ha as (_&_&Ha).
  assert (Hno : covers hit x -> cs r <= code x).
  { intros Hc. pose proof (covers_above sep hit _ x Hs Ha Hc). lia. }
  unfold in_range at 1. case_decide; [rewrite covers_cons; unfold in_range; cbn [range_start range_end]|];
    rewrite covers_nil; split; intros; intuition lia.
Qed.
Lemma right_piece_covers sep b hit r x : 0 <= sep -> above sep b hit -> range_ok r -> Forall (fun q => cs q < ce r) hit ->
  covers (right_piece hit r) x <-> covers hit x /\ ce r <= code x.
Proof.
  intros Hs Ha Hr Hhit. unfold right_piece.
  destruct hit as [|q hit _] using rev_ind; [simpl; rewrite !covers_nil; tauto|]. rewrite last_snoc.
  rewrite covers_app, covers_cons. apply Forall_app in Hhit as [_ Hq]. inversion Hq; subst.
  apply above_app in Ha as [Ha (_&Hle&_)].
  assert (Hno : covers hit x -> code x < ce r).
  { intros Hc. pose proof (covers_bound sep hit _ x Hs Ha Hc). lia. }
  rewrite covers_nil. unfold in_range at 1.
  case_decide; [rewrite covers_cons; unfold in_range; cbn [range_start range_end]|];
    rewrite covers_nil; split; intros; intuition lia.
Qed.

Lemma erase_spec sep b r f : 0 <= sep <= 1 -> above sep b f -> range_ok r ->
  above sep b (iter_forest (erase r f)) /\
  forall x, covers (iter_forest (erase r f)) x <-> covers f x /\ ~ in_range r x.
Proof.
  intros Hs Ha Hr. destruct (erase_pieces sep b r f) as (before&hit&after&->&Hb&Hhit&Hafter&->); [lia|done..|].
  pose proof Hr as (Hr1&Hr2&Hr3). apply above_app in Ha as [Ha1 Ha]. apply above_app in Ha as [Ha2 Ha3]. split.
  - apply above_app. split; [done|]. unfold left_piece, right_piece.
    destruct (head hit) as [first|] eqn:E1; [|by apply head_None in E1 as ->].
    destruct (last hit) as [back|] eqn:E2; [|by apply last_None in E2 as ->].
    assert (Hf : range_ok first /\ bound sep b before <= cs first).
    { destruct hit as [|q hit]; simplify_eq/=. destruct Ha2 as (?&?&_). done. }
    assert (Hbk : range_ok back) by (apply (above_ok _ _ _ _ Ha2); by apply last_Some_elem_of).
    rewrite Forall_forall in Hhit.
    assert (Hf' : cs r < ce first /\ cs first < ce r) by (apply Hhit; destruct hit; simplify_eq/=; left).
    rewrite (bound_last _ _ _ _ E2) in Ha3.
    assert (Hz : forall z, z <= ce r -> above sep z after).
    { intros z Hz. eapply above_raise; [exact Ha3|]. intros q Hq. specialize (Hafter q Hq). lia. }
    destruct Hf as [(?&?&?) ?], Hbk as (?&?&?).
    case_decide; case_decide; cbn [app above range_start range_end]; unfold range_ok; cbn [range_start range_end];
      split_and?; try done; try lia; apply Hz; lia.
  - intros x. rewrite !covers_app.
    rewrite (left_piece_covers sep (bound sep b before) hit r x), (right_piece_covers sep (bound sep b before) hit r x);
      try done; try lia; try (eapply Forall_impl; [exact Hhit|simpl; tauto]).
    assert (Hbx : covers before x -> code x < cs r).
    { intros (q&Hq&_&?). rewrite Forall_forall in Hb. specialize (Hb q Hq). simpl in Hb. lia. }
    assert (Hax : covers after x -> ce r <= code x).
    { intros Hc. apply (covers_above sep after (ce r)); [lia| |done]. eapply above_raise; [exact Ha3|done]. }
    unfold in_range. destruct (Z.lt_ge_cases (code x) (cs r)), (Z.lt_ge_cases (code x) (ce r)); intuition lia.
Qed.

(** ** Searching *)
Lemma contains_spec sep b f x : 0 <= sep -> above sep b f -> elt_ok x -> contains x f = true <-> covers f x.
Proof.
  intros Hs Ha Hx. unfold contains, find. cbn [snd]. destruct (upper_bound x f) as [a c] eqn:E.
  destruct (upper_bound_spec _ _ _ _ _ _ Hs Ha Hx E) as (->&Hb&Hc). cbn [snd].
  rewrite covers_app. apply above_app in Ha as [_ Ha].
  assert (Hno : ~ covers a x).
  { intros (q&Hq&_&?). rewrite Forall_forall in Hb. specialize (Hb q Hq). simpl in Hb. lia. }
  destruct c as [|q c]; [rewrite covers_nil; split; [done|tauto]|]. destruct Ha as ((?&?&?)&_&Ha).
  rewrite elt_le_code, Z.leb_le by done. rewrite covers_cons. unfold in_range. inversion Hc; subst. split.
  - intros. right; left. lia.
  - intros [?|[[? _]|Hx']]; [done|done|]. pose proof (covers_above sep c _ x Hs Ha Hx'). lia.
Qed.

(** Two forests of ranges that do not touch are equal when they cover the same elements. *)
Lemma covers_determines f : forall b g b', above 1 b f -> above 1 b' g ->
  (forall x, elt_ok x -> covers f x <-> covers g x) -> f = g.
Proof.
  assert (Hstart : forall b (q : range T) l, above 1 b (q :: l) -> covers (q :: l) (range_start q)).
  { intros b q l ((?&?&?)&_). exists q. split; [left|]. unfold in_range. lia. }
  assert (Hend : forall b (q : range T) l x, above 1 b (q :: l) -> cs q <= code x -> code x <= ce q ->
    covers (q :: l) x <-> code x < ce q).
  { intros b q l x (Hq&_&Ha) H1 H2. rewrite covers_cons. unfold in_range. split; [|lia].
    intros [?|Hc]; [lia|]. pose proof (covers_above 1 l _ x ltac:(lia) Ha Hc). lia. }
  assert (Hmin : forall b (q : range T) l x, above 1 b (q :: l) -> covers (q :: l) x -> cs q <= code x).
  { intros b q l x (Hq&_&Ha) Hc. apply (covers_above 1 (q :: l) (cs q)); [lia| |done]. by split_and!. }
  induction f as [|q f IH]; intros b [|q' g] b' Hf Hg Hsame; [done| | |].
  - pose proof Hg as ((Hq&_)&_). by apply (Hstart b'), (Hsame _ Hq), covers_nil in Hg.
  - pose proof Hf as ((Hq&_)&_). by apply (Hstart b), (Hsame _ Hq), covers_nil in Hf.
  - pose proof Hf as (Hq&_&Hf'). pose proof Hg as (Hq'&_&Hg').
    destruct Hq as (Hq1&Hq2&Hq3), Hq' as (Hq1'&Hq2'&Hq3').
    assert (Es : cs q = cs q').
    { pose proof (Hmin _ _ _ _ Hg (proj1 (Hsame _ Hq1) (Hstart _ _ _ Hf))).
      pose proof (Hmin _ _ _ _ Hf (proj2 (Hsame _ Hq1') (Hstart _ _ _ Hg))). lia. }
    assert (Ee : ce q = ce q').
    { destruct (Z.lt_trichotomy (ce q) (ce q')) as [Hlt|[|Hlt]]; [|done|]; exfalso.
      - assert (covers (q' :: g) (range_end q)) as Hc by (apply (Hend _ _ _ _ Hg); lia).
        apply (Hsame _ Hq2), (Hend _ _ _ _ Hf) in Hc; lia.
      - assert (covers (q :: f) (range_end q')) as Hc by (apply (Hend _ _ _ _ Hf); lia).
        apply (Hsame _ Hq2'), (Hend _ _ _ _ Hg) in Hc; lia. }
    assert (q = q') as <-.
    { destruct q, q'. simpl in *. f_equal; by apply elt_code_inj. }
    f_equal. apply (IH _ _ _ Hf' Hg'). intros x Hx. specialize (Hsame x Hx). rewrite !covers_cons in Hsame.
    assert (covers f x -> ~ in_range q x).
    { intros Hc [_ ?]. pose proof (covers_above 1 f _ x ltac:(lia) Hf' Hc). lia. }
    assert (covers g x -> ~ in_range q x).
    { intros Hc [_ ?]. pose proof (covers_above 1 g _ x ltac:(lia) Hg' Hc). lia. }
    tauto.
Qed.
End facts.
