(* ===== verification/RangerLaws.v ===== *)
(** * What a ranger promises

    The two kinds of elements, the ranger as a set, its text and its iteration. *)
From Stdlib Require Import ZArith Lia Ascii String Sorting.Sorted.
From stdpp Require Import base list strings.
From S2P Require Import Prelude Numerals LexerFacts Ranger RangerFacts.

Open Scope Z_scope.

(** ** Integers and job ids *)
Lemma wrap32_id z : INT32_MIN <= z <= INT32_MAX -> wrap32 z = z.
Proof. unfold INT32_MIN, INT32_MAX, wrap32. intros. rewrite Z.mod_small; lia. Qed.

Definition in_int32 (z : Z) : Prop := INT32_MIN <= z <= INT32_MAX.
#[export] Program Instance int_order : ElementOrder Z := {|
  elt_ok := in_int32;
  elt_code z := z
|}.
Next Obligation. done. Qed.
Next Obligation. done. Qed.
Next Obligation. unfold elt_succ, int_element, int_succ. intros x y _. case_match; [done|]. by intros [= <-]. Qed.
Next Obligation. unfold elt_pred, int_element, int_pred. intros x y _. case_match; [done|]. intros [= <-]. lia. Qed.
Next Obligation.
  unfold elt_succ, elt_pred, int_element, int_succ, int_pred, in_int32, INT32_MIN, INT32_MAX. intros x y Hx.
  destruct (Z.eqb_spec x (-2147483648)); [done|]. intros [= <-]. destruct (Z.eqb_spec (x - 1) 2147483647); [lia|].
  f_equal. lia.
Qed.

(** The ids whose differences do not overflow. *)
Definition small (z : Z) : Prop := - 2 ^ 30 < z < 2 ^ 30.
Definition job_ok (k : JOB_ID_KEY) : Prop := small (cluster k) /\ small (proc k).
Lemma small_wrap a b : small a -> small b -> wrap32 (a - b) = a - b.
Proof.
  unfold small. change (2 ^ 30) with 1073741824. intros. apply wrap32_id. unfold INT32_MIN, INT32_MAX. lia.
Qed.
#[export] Program Instance job_order : ElementOrder JOB_ID_KEY := {|
  elt_ok := job_ok;
  elt_code k := cluster k * 2 ^ 32 + proc k
|}.
Next Obligation.
  intros [c p] [c' p'] [Hc Hp] [Hc' Hp']. unfold small in *. simpl in *.
  change (2 ^ 30) with 1073741824 in *. change (2 ^ 32) with 4294967296. intros. f_equal; lia.
Qed.
Next Obligation.
  intros [c p] [c' p'] [Hc Hp] [Hc' Hp']. unfold elt_lt, job_element, job_lt. simpl in *.
  rewrite !small_wrap by done. unfold small in *. change (2 ^ 30) with 1073741824 in *. change (2 ^ 32) with 4294967296.
  destruct (Z.eqb_spec (c - c') 0).
  - destruct (Z.ltb_spec (p - p') 0), (Z.ltb_spec (c * 4294967296 + p) (c' * 4294967296 + p')); lia.
  - destruct (Z.ltb_spec (c - c') 0), (Z.ltb_spec (c * 4294967296 + p) (c' * 4294967296 + p')); lia.
Qed.
Next Obligation.
  intros [c p] y _. unfold elt_succ, job_element, int_succ. simpl. case_match; [done|]. intros [= <-] _. simpl. lia.
Qed.
Next Obligation.
  intros [c p] y _. unfold elt_pred, job_element, int_pred. simpl. case_match; [done|]. intros [= <-] _. simpl. lia.
Qed.
Next Obligation.
  intros [c p] y [_ Hp]. unfold elt_succ, elt_pred, job_element, int_succ, int_pred, small, INT32_MIN, INT32_MAX in *.
  change (2 ^ 30) with 1073741824 in Hp. simpl in *.
  destruct (Z.eqb_spec p (-2147483648)); [done|]. intros [= <-]. simpl. destruct (Z.eqb_spec (p - 1) 2147483647); [lia|].
  simpl. do 2 f_equal. lia.
Qed.

(** ** Their text *)
Class ElementText (T : Type) `{ElementOrder T} := {
  read_write (x : T) k : elt_ok x -> stops_at isdigit k ->
    read_element (write_element x ++ k) = (x, k);
  write_nonempty (x : T) : elt_ok x -> write_element x <> []
}.

Lemma append_long_nonempty i : in_int64 i -> append_long [] i <> [].
Proof.
  unfold in_int64, INT64_MIN, INT64_MAX, append_long. intros Hi. destruct (Z.leb_spec 0 i); [|done].
  by destruct (digits_spec i) as [_ ? _ _]; [unfold two63; lia|].
Qed.
Lemma in_int32_int64 i : in_int32 i -> in_int64 i.
Proof. unfold in_int32, in_int64, INT32_MIN, INT32_MAX, INT64_MIN, INT64_MAX. lia. Qed.
Lemma small_int32 i : small i -> in_int32 i.
Proof. unfold small, in_int32, INT32_MIN, INT32_MAX. change (2 ^ 30) with 1073741824. lia. Qed.

#[export] Program Instance int_text : ElementText Z.
Next Obligation.
  intros x k Hx Hk. unfold read_element, write_element, int_element.
  rewrite strtol_append_long by auto using in_int32_int64. by rewrite wrap32_id.
Qed.
Next Obligation. intros x Hx. by apply append_long_nonempty, in_int32_int64. Qed.

Lemma length_app_ne (a b : text) : a <> [] -> Nat.eqb (length b) (length (a ++ b)) = false.
Proof. intros Ha. apply Nat.eqb_neq. rewrite length_app. destruct a; [done|]. simpl. lia. Qed.
#[export] Program Instance job_text : ElementText JOB_ID_KEY.
Next Obligation.
  intros [c p] k [Hc%small_int32 Hp%small_int32] Hk. simpl in *. unfold read_element, write_element, job_element, read_job.
  cbn [cluster proc]. rewrite <- app_assoc, <- app_comm_cons.
  rewrite strtol_append_long by (done || by apply in_int32_int64).
  rewrite length_app_ne by by apply append_long_nonempty, in_int32_int64.
  change (Ascii.eqb "." ".") with true. cbv iota.
  rewrite strtol_append_long by (done || by apply in_int32_int64).
  rewrite length_app_ne by by apply append_long_nonempty, in_int32_int64. by rewrite !wrap32_id.
Qed.
Next Obligation.
  intros [c p] _ E. by apply app_nil in E as [_ E].
Qed.

Section laws.
Context {T : Type} `{ElementText T}.
Abbreviation forest := (list (range T)).
Implicit Types (r : range T) (f g : forest).

(** ** A ranger is a set *)
Inductive operation := Ins (r : range T) | Er (r : range T).
Definition op_range (o : operation) : range T := match o with Ins r | Er r => r end.
Definition op_step f (o : operation) : forest :=
  match o with Ins r => iter_forest (insert r f) | Er r => iter_forest (erase r f) end.
(** The set the operations describe. *)
Definition op_member (x : T) (m : bool) (o : operation) : bool :=
  match o with Ins r => m || range_contains r x | Er r => m && negb (range_contains r x) end.

Lemma op_step_spec o f : forest_ok 1 f -> range_ok (op_range o) ->
  forest_ok 1 (op_step f o) /\
  forall x, elt_ok x -> covers (op_step f o) x <->
    (match o with Ins r => covers f x \/ in_range r x | Er r => covers f x /\ ~ in_range r x end).
Proof.
  intros [b Hf] Hr. destruct o as [r|r]; simpl in *.
  - destruct (insert_spec 1 b r f) as [Ho Hc]; [lia|done|done|]. split; [by eexists|]. intros x _. apply Hc.
  - destruct (erase_spec 1 b r f) as [Ho Hc]; [lia|done|done|]. split; [by eexists|]. intros x _. apply Hc.
Qed.
Lemma ops_spec ops : forall f, forest_ok 1 f -> Forall (fun o => range_ok (op_range o)) ops ->
  forest_ok 1 (foldl op_step f ops) /\
  forall x m, elt_ok x -> (covers f x <-> m = true) ->
    (covers (foldl op_step f ops) x <-> foldl (op_member x) m ops = true).
Proof.
  induction ops as [|o ops IH]; intros f Hf Hops; [done|]. inversion Hops as [|? ? Ho Hops']; subst. cbn [foldl].
  destruct (op_step_spec o f Hf Ho) as [Hf' Hc]. destruct (IH _ Hf' Hops') as [Hok Hm]. split; [done|].
  intros x m Hx Hxm. apply Hm; [done|]. rewrite Hc by done. pose proof (range_contains_code (op_range o) x Ho Hx) as Hr.
  destruct o as [r|r]; simpl in *; rewrite Hxm, <- Hr, ?not_true_iff_false, <- ?negb_true_iff;
    [rewrite orb_true_iff|rewrite andb_true_iff]; tauto.
Qed.

(** ** Text and back *)

(** The last element of the range can be written. *)
Definition last_writable r : Prop := exists back, elt_pred (range_end r) = Some back /\ elt_ok back.
Definition last_elt r : T := default (range_end r) (elt_pred (range_end r)).
Definition range_text r : text :=
  write_element (range_start r) ++
  (if decide (range_start r = last_elt r) then [] else "-"%char :: write_element (last_elt r)).
Fixpoint forest_text f : text :=
  match f with [] => [] | r :: f' => range_text r ++ match f' with [] => [] | _ => ";"%char :: forest_text f' end end.

Lemma persist_single_text r : last_writable r -> persist_range_single r = Some (range_text r ++ [";"%char]).
Proof.
  intros (back&E&_). unfold persist_range_single, range_text, last_elt. rewrite E. simpl. by rewrite app_assoc.
Qed.
Lemma persist_text f : Forall last_writable f -> persist f = Some (forest_text f).
Proof.
  intros Hf. unfold persist.
  assert (E : mapM persist_range_single f = Some ((fun r => range_text r ++ [";"%char]) <$> f)).
  { apply mapM_Some_2. apply Forall2_fmap_r, Forall_Forall2_diag. eapply Forall_impl; [exact Hf|].
    intros r Hr. by apply persist_single_text. }
  rewrite E. cbn [mbind option_bind]. f_equal. clear E Hf. induction f as [|r f IH]; [done|].
  rewrite fmap_cons. cbn [concat forest_text]. destruct f as [|r' f].
  - cbn. by rewrite app_nil_r, removelast_last, app_nil_r.
  - rewrite removelast_app; [rewrite IH, <- app_assoc; done|]. rewrite fmap_cons. cbn [concat].
    by destruct (range_text r').
Qed.

Lemma load_range_text r k : range_ok r -> last_writable r -> match k with [] => True | c :: _ => c = ";"%char end ->
  load_range (range_text r ++ k) = inl (match k with [] => [] | _ :: k' => k' end, range_start r, last_elt r).
Proof.
  intros (Hs&_) (back&E&Hback) Hk. unfold load_range, range_text. set (b := last_elt r).
  assert (Hb : elt_ok b) by by (unfold b, last_elt; rewrite E).
  rewrite <- app_assoc. rewrite read_write; [|done|case_decide; [destruct k; simplify_eq/=; done|done]].
  rewrite length_app_ne by by apply write_nonempty. case_decide as Eb.
  - cbn [app]. rewrite Eb. destruct k as [|c k]; [done|]. by subst c.
  - rewrite <- app_comm_cons. change (Ascii.eqb "-" "-") with true. cbv iota.
    rewrite read_write; [|done|destruct k; simplify_eq/=; done].
    rewrite length_app_ne by by apply write_nonempty. destruct k as [|c k]; [done|]. by subst c.
Qed.

Lemma insert_at_end b g r : above 1 b (g ++ [r]) -> iter_forest (insert r g) = g ++ [r].
Proof.
  intros Ha. pose proof Ha as Hg. apply above_app in Hg as [Hg (Hr&_&_)].
  destruct (insert_spec 1 b r g) as [Hi Hc]; [lia|done|done|].
  apply (covers_determines _ _ _ _ Hi Ha). intros x _. rewrite Hc, covers_app, covers_cons, covers_nil. tauto.
Qed.
Lemma range_text_nonempty r : range_ok r -> range_text r <> [].
Proof. intros (Hs&_) E. apply app_nil in E as [E _]. by apply (write_nonempty _ Hs). Qed.

Lemma load_loop_text f : forall n total b g, above 1 b (g ++ f) -> Forall last_writable f ->
  (length (forest_text f) <= n)%nat -> load_loop n total (forest_text f) g = Some (0, g ++ f).
Proof.
  induction f as [|r f IH]; intros n total b g Ha Hw Hn.
  { rewrite app_nil_r. by destruct n. }
  inversion Hw as [|? ? Hr Hw']; subst. pose proof Hr as (back&E&Hback). cbn [forest_text] in *.
  set (k := match f with [] => [] | _ => ";"%char :: forest_text f end) in *.
  pose proof Ha as Hok. apply above_app in Hok as [_ (Hrok&_&_)].
  pose proof (range_text_nonempty r Hrok) as Hne.
  destruct n as [|n]; [destruct (range_text r); [done|simpl in Hn; lia]|].
  destruct (range_text r ++ k) as [|c s] eqn:Es; [by apply app_nil in Es as [? _]|]. cbn [load_loop].
  rewrite <- Es. rewrite load_range_text; [|done|done|unfold k; by destruct f].
  unfold insert_slice, slice, last_elt. rewrite E. change (default (range_end r) (Some back)) with back. pose proof Hrok as (_&He&_).
  rewrite (elt_succ_pred _ _ He E). cbn [fmap option_fmap option_map mbind option_bind].
  assert (Er : mk_range (range_start r) (range_end r) = r) by by destruct r. rewrite Er.
  assert (Ha' : above 1 b ((g ++ [r]) ++ f)) by by rewrite <- app_assoc.
  rewrite (insert_at_end b) by by apply above_app in Ha' as [? _].
  assert (Ek : match k with [] => [] | _ :: k' => k' end = forest_text f) by (unfold k; by destruct f).
  rewrite Ek, (IH n total b); [by rewrite <- app_assoc|done|done|].
  apply (f_equal (@length _)) in Es. rewrite length_app in Es. unfold k in Es.
  destruct f; simpl in *; destruct (range_text r); simpl in *; (done || lia).
Qed.

(** The part of a forest in [rr]. *)
Lemma clip_spec rr q : range_ok rr -> range_ok q ->
  elt_ok (range_start (clip rr q)) /\ elt_ok (range_end (clip rr q)) /\
  elt_code (range_start (clip rr q)) = Z.max (elt_code (range_start q)) (elt_code (range_start rr)) /\
  elt_code (range_end (clip rr q)) = Z.min (elt_code (range_end q)) (elt_code (range_end rr)).
Proof.
  intros (Hs&He&_) (Hs'&He'&_). destruct (elt_max_code _ _ Hs' Hs), (elt_min_code _ _ He' He). done.
Qed.
Definition meets rr q : Prop :=
  elt_code (range_start rr) < elt_code (range_end q) /\ elt_code (range_start q) < elt_code (range_end rr).
Lemma clip_above rr f : forall b, range_ok rr -> Forall (meets rr) f -> above 1 b f -> above 1 b (clip rr <$> f).
Proof.
  induction f as [|q f IH]; intros b Hr Hm; [done|]. inversion Hm as [|? ? [Hlo Hhi] Hm']; subst. intros (Hq&Hb&Hf).
  rewrite fmap_cons. cbn [above]. destruct (clip_spec rr q Hr Hq) as (Hs&He&Es&Ee).
  pose proof Hr as (_&_&?). pose proof Hq as (_&_&?). unfold range_ok. rewrite Es, Ee. split_and!; [done|done|lia|lia|].
  apply IH; [done|done|]. eapply above_weaken; [| |exact Hf]; lia.
Qed.
Lemma clip_covers rr f x : range_ok rr -> Forall range_ok f -> covers (clip rr <$> f) x <-> covers f x /\ in_range rr x.
Proof.
  intros Hr. induction f as [|q f IH]; intros Hf; [simpl; rewrite covers_nil; tauto|]. inversion Hf as [|? ? Hq Hf']; subst.
  rewrite fmap_cons, !covers_cons, IH by done. destruct (clip_spec rr q Hr Hq) as (_&_&Es&Ee).
  unfold in_range. rewrite Es, Ee. intuition lia.
Qed.
Lemma persist_range_clips rr f b : range_ok rr -> above 1 b f -> exists g,
  persist_range rr f = persist (clip rr <$> g) /\ g ⊆ f /\ above 1 b (clip rr <$> g) /\
  forall x, covers (clip rr <$> g) x <-> covers f x /\ in_range rr x.
Proof.
  intros Hr Ha. pose proof Hr as (Hr1&Hr2&Hr3). unfold persist_range, find. cbn [fst].
  destruct (upper_bound (range_start rr) f) as [before rest] eqn:E1.
  destruct (fun Hs => upper_bound_spec 1 b f _ _ _ Hs Ha Hr1 E1) as (->&Hbefore&Hrest); [lia|]. cbn [snd].
  destruct (skip_while _ rest) as [hit after] eqn:E2. cbn [fst].
  pose proof (above_range_ok _ _ _ Ha) as Hok. apply Forall_app in Hok as [_ Hok].
  destruct (fun Hp => search_start _ rest (elt_code (range_end rr)) hit after Hok Hp E2) as (->&Hhit&Hafter).
  { intros q (Hq&_). by rewrite elt_lt_true. }
  apply Forall_app in Hrest as [Hrest _]. apply Forall_app in Hok as [Hok _].
  apply above_app in Ha as [Ha1 Ha]. pose proof (bound_ge 1 before b ltac:(lia) Ha1) as Hbound.
  apply above_app in Ha as [Ha2 Ha3].
  assert (Hm : Forall (meets rr) hit).
  { rewrite Forall_forall in *. intros q Hq. split; [by apply Hrest|by apply Hhit]. }
  exists hit. split_and!.
  - done.
  - intros q Hq. apply elem_of_app. right. apply elem_of_app. by left.
  - apply clip_above; [done|done|]. eapply above_weaken; [| |exact Ha2]; lia.
  - intros x. rewrite clip_covers, !covers_app by done. split; [tauto|]. intros [[Hx|[Hx|Hx]] Hin]; [|done|].
    + destruct Hx as (q&Hq&_&?), Hin. rewrite Forall_forall in Hbefore. specialize (Hbefore q Hq). simpl in *. lia.
    + assert (elt_code (range_end rr) <= elt_code x).
      { apply (covers_above 1 after (elt_code (range_end rr))); [lia| |done]. eapply above_raise; [exact Ha3|done]. }
      destruct Hin. lia.
Qed.
Lemma clip_writable rr q : last_writable rr -> last_writable q -> last_writable (clip rr q).
Proof. intros Hr Hq. unfold last_writable, clip, elt_min. cbn [range_end]. by destruct (elt_lt _ _). Qed.

(** ** The claims *)

(** C39: a ranger is the set its operations describe. After any sequence of insertions and
    erasures of ranges the forest is in order and no two of its ranges touch, and an element
    is contained exactly when the last operation that mentions it inserted it. *)
Theorem ranger_refines ops : Forall (fun o => range_ok (op_range o)) ops ->
  let f := foldl op_step [] ops in
  forest_ok 1 f /\ forall x, elt_ok x -> contains x f = foldl (op_member x) false ops.
Proof.
  intros Hops f. destruct (ops_spec ops [] ltac:(by exists 0) Hops) as [[b Hok] Hm]. split; [by exists b|].
  intros x Hx. apply eq_true_iff_eq. rewrite (contains_spec 1 b) by (done || lia).
  apply Hm; [done|]. by rewrite covers_nil.
Qed.

(** the forest is determined by the set: sequences of operations that describe the same
    set leave the same forest, whatever their order and however the set was cut. *)
Theorem ranger_canonical ops1 ops2 :
  Forall (fun o => range_ok (op_range o)) ops1 -> Forall (fun o => range_ok (op_range o)) ops2 ->
  (forall x, elt_ok x -> foldl (op_member x) false ops1 = foldl (op_member x) false ops2) ->
  foldl op_step [] ops1 = foldl op_step [] ops2.
Proof.
  intros Ho1 Ho2 Hsame. destruct (ops_spec ops1 [] ltac:(by exists 0) Ho1) as [[b1 Hok1] Hm1].
  destruct (ops_spec ops2 [] ltac:(by exists 0) Ho2) as [[b2 Hok2] Hm2].
  apply (covers_determines _ _ _ _ Hok1 Hok2). intros x Hx.
  rewrite (Hm1 x false Hx), (Hm2 x false Hx) by by rewrite covers_nil. by rewrite Hsame.
Qed.

(** a ranger survives [persist] and [load], and what [persist_range] writes of it is
    loaded as the part that lies in the range. *)
Theorem load_persist f rr : forest_ok 1 f -> Forall last_writable f -> range_ok rr -> last_writable rr ->
  (exists s, persist f = Some s /\ load s [] = Some (0, f)) /\
  (exists s g, persist_range rr f = Some s /\ load s [] = Some (0, g) /\ forest_ok 1 g /\
    forall x, covers g x <-> covers f x /\ in_range rr x).
Proof.
  intros [b Hf] Hw Hr Hwr. split.
  - exists (forest_text f). split; [by apply persist_text|]. by apply (load_loop_text f _ _ b []).
  - destruct (persist_range_clips rr f b Hr Hf) as (g&E&Hsub&Ha&Hc). exists (forest_text (clip rr <$> g)), (clip rr <$> g).
    assert (Hw' : Forall last_writable (clip rr <$> g)).
    { apply Forall_fmap, Forall_forall. intros q Hq. apply clip_writable; [done|]. rewrite Forall_forall in Hw. auto. }
    split_and!; [by rewrite E, persist_text|by apply (load_loop_text _ _ _ b [])|by exists b|done].
Qed.
End laws.

(** ** Witnesses *)
Definition sample_ops : list (operation (T := Z)) :=
  [Ins (mk_range 5 11); Ins (mk_range 20 31); Ins (mk_range 11 20); Er (mk_range 7 9); Er (mk_range 30 40); Ins (mk_range 2 3)].
Lemma sample_ops_ok : Forall (fun o => range_ok (op_range o)) sample_ops.
Proof. repeat constructor; unfold range_ok, elt_ok, int_order, in_int32, INT32_MIN, INT32_MAX; simpl; lia. Qed.

Lemma ranger_refines_witness :
  foldl op_step [] sample_ops = [mk_range 2 3; mk_range 5 7; mk_range 9 30] /\
  forest_ok 1 (foldl op_step [] sample_ops) /\
  forall x, in_int32 x -> contains x (foldl op_step [] sample_ops) = foldl (op_member x) false sample_ops.
Proof.
  split; [vm_compute; reflexivity|]. exact (ranger_refines sample_ops sample_ops_ok).
Defined.

Lemma ranger_canonical_witness :
  let a := [Ins (mk_range 1 4); Ins (mk_range 4 9)] in let b := [Ins (mk_range 1 9)] in
  (forall x, in_int32 x -> foldl (op_member x) false a = foldl (op_member x) false b) /\
  foldl op_step [] a = foldl op_step [] b.
Proof.
  assert (E : forall x, in_int32 x -> foldl (op_member x) false [Ins (mk_range 1 4); Ins (mk_range 4 9)] =
    foldl (op_member x) false [Ins (mk_range 1 9)]).
  { intros x _. simpl. unfold range_contains, elt_lt, int_element. simpl.
    destruct (Z.ltb_spec x 1), (Z.ltb_spec x 4), (Z.ltb_spec x 9); simpl; (done || lia). }
  split; [exact E|]. apply ranger_canonical; [| |exact E];
    repeat constructor; unfold range_ok, elt_ok, int_order, in_int32, INT32_MIN, INT32_MAX; simpl; lia.
Defined.

Definition job (c p : Z) : JOB_ID_KEY := mk_JOB_ID_KEY c p.
Definition job_forest : list (range JOB_ID_KEY) :=
  [mk_range (job 7 0) (job 7 1); mk_range (job 7 4) (job 7 12); mk_range (job 9 3) (job 11 5)].
Lemma load_persist_witness :
  string_of_list_ascii <$> persist job_forest = Some "7.0;7.4-7.11;9.3-11.4" /\
  string_of_list_ascii <$> persist_range (mk_range (job 7 10) (job 10 1)) job_forest = Some "7.10-7.11;9.3-10.0" /\
  (exists s, persist job_forest = Some s /\ load s [] = Some (0, job_forest)) /\
  (exists s g, persist_range (mk_range (job 7 10) (job 10 1)) job_forest = Some s /\ load s [] = Some (0, g) /\
    forest_ok 1 g /\ forall x, covers g x <-> covers job_forest x /\ in_range (mk_range (job 7 10) (job 10 1)) x).
Proof.
  split; [vm_compute; reflexivity|]. split; [vm_compute; reflexivity|].
  apply (load_persist job_forest (mk_range (job 7 10) (job 10 1))).
  - exists 0. repeat split; vm_compute; (reflexivity || discriminate).
  - repeat constructor; eexists; (split; [vm_compute; reflexivity|split; split; vm_compute; reflexivity]).
  - repeat split; vm_compute; reflexivity.
  - eexists; (split; [vm_compute; reflexivity|split; split; vm_compute; reflexivity]).
Defined.

(** ** Iteration *)
Definition elements (f : list (range Z)) : list Z :=
  concat ((fun q => seqZ (range_start q) (range_end q - range_start q)) <$> f).

Lemma elements_loop_spec n : forall f pre q post r x, f = pre ++ q :: post -> Forall range_ok (q :: post) ->
  default (range_start q) r = x -> range_start q <= x < range_end q ->
  (length (seqZ x (range_end q - x) ++ elements post) <= n)%nat ->
  elements_loop n f (mk_element_iter (pre, q :: post) r) = Some (seqZ x (range_end q - x) ++ elements post).
Proof.
  induction n as [|n IH]; intros f pre q post r x Hf Hok Hr Hx Hn; rewrite seqZ_cons in Hn |- * by lia;
    replace (Z.succ x) with (x + 1) in * by lia; replace (Z.pred (range_end q - x)) with (range_end q - (x + 1)) in * by lia;
    [simpl in Hn; lia|].
  cbn [elements_loop].
  assert (E : elt_iter_eq (mk_element_iter (pre, q :: post) r) (elements_end f) = false).
  { unfold elt_iter_eq. cbn [sit fst elements_end]. rewrite (proj2 (Nat.eqb_neq _ _)); [done|].
    rewrite Hf, length_app. simpl. lia. }
  rewrite E. clear E. unfold elt_deref, elt_next, mk_valid. cbn [sit snd rit]. rewrite Hr.
  cbn [fmap option_fmap option_map mbind option_bind fst snd].
  inversion Hok as [|? ? Hq Hpost]; subst. pose proof Hq as (_&(_&Hmax)&_).
  simpl elt_ok in Hmax. set (x := default (range_start q) r) in *.
  assert (Es : elt_succ x = Some (x + 1)).
  { unfold elt_succ, int_element, int_succ. destruct (Z.eqb_spec x INT32_MAX); [lia|done]. }
  rewrite Es. cbn [mbind option_bind]. cbn [app length] in Hn.
  destruct (decide (x + 1 = range_end q)) as [Hend|Hend].
  - rewrite <- Hend in *. replace (x + 1 - (x + 1)) with 0 in * by lia. change (seqZ (x + 1) 0) with (@nil Z) in *.
    cbn [app tail] in *. destruct post as [|q' post].
    + destruct n; cbn [elements_loop]; unfold elt_iter_eq; cbn [sit fst elements_end rit];
        rewrite Nat.eqb_refl; reflexivity.
    + inversion Hpost as [|? ? Hq' Hpost']; subst. pose proof Hq' as (_&_&Hlt).
      rewrite (IH _ (pre ++ [q]) q' post None (range_start q')); try done.
      * by rewrite <- app_assoc.
      * unfold elements in *. rewrite fmap_cons in Hn. cbn [concat] in Hn. lia.
  - rewrite (IH _ pre q post (Some (x + 1)) (x + 1)); try done; [lia|]. cbn in Hn. cbn. lia.
Qed.

Lemma elements_In f x : Forall range_ok f -> x ∈ elements f <-> covers f x.
Proof.
  intros Hf. induction Hf as [|q f Hq Hf IH]; unfold elements in *; [rewrite covers_nil; by rewrite elem_of_nil|].
  rewrite fmap_cons. cbn [concat]. rewrite elem_of_app, covers_cons, IH, elem_of_seqZ.
  unfold in_range. simpl elt_code. intuition lia.
Qed.
Lemma StronglySorted_app_lt (l1 l2 : list Z) : StronglySorted Z.lt l1 -> StronglySorted Z.lt l2 ->
  (forall x y, x ∈ l1 -> y ∈ l2 -> x < y) -> StronglySorted Z.lt (l1 ++ l2).
Proof.
  intros H1 H2 Hlt. induction H1 as [|x l1 H1 IH Hx]; [done|]. simpl. constructor.
  - apply IH. intros y z Hy Hz. apply Hlt; [by right|done].
  - apply Forall_app. split; [done|]. apply Forall_forall. intros y Hy. apply Hlt; [by left|done].
Qed.
Lemma seqZ_sorted m n : StronglySorted Z.lt (seqZ m n).
Proof.
  destruct (Z.le_gt_cases 0 n) as [Hn|Hn]; [|rewrite seqZ_nil by lia; constructor].
  revert m. pattern n. apply natlike_ind; [constructor| |done]. intros k Hk IH m.
  rewrite seqZ_cons by lia. rewrite Z.pred_succ. constructor; [apply IH|].
  apply Forall_forall. intros y Hy%elem_of_seqZ. lia.
Qed.
Lemma elements_sorted f : forall b, above 0 b f -> StronglySorted Z.lt (elements f).
Proof.
  induction f as [|q f IH]; intros b; [constructor|]. intros (Hq&_&Hf). unfold elements. rewrite fmap_cons. cbn [concat].
  apply StronglySorted_app_lt; [apply seqZ_sorted|by eapply IH|]. intros x y Hx%elem_of_seqZ Hy.
  apply elements_In in Hy; [|by eapply above_range_ok].
  pose proof (covers_above 0 f _ y ltac:(lia) Hf Hy) as Hle. simpl elt_code in Hle. lia.
Qed.

(** iterating over the elements of a set of integers ends and gives every element of the
    set once, in increasing order, and nothing else; as many rounds as there are elements. *)
Theorem iteration_enumerates (f : list (range Z)) : forest_ok 0 f -> exists l,
  elements_loop (length l) f (elements_begin f) = Some l /\
  StronglySorted Z.lt l /\ forall x, in_int32 x -> x ∈ l <-> contains x f = true.
Proof.
  intros [b Hf]. pose proof (above_range_ok _ _ _ Hf) as Hok. exists (elements f). split_and!.
  - destruct f as [|q f]; [reflexivity|]. inversion Hok as [|? ? Hq Hok']; subst. pose proof Hq as (_&_&Hlt).
    unfold elements_begin.
    rewrite (elements_loop_spec _ (q :: f) [] q f None (range_start q)); done.
  - by eapply elements_sorted.
  - intros x Hx. rewrite elements_In by done. by rewrite (contains_spec 0 b) by (done || lia).
Qed.
Lemma iteration_enumerates_witness :
  let f := [mk_range 2 3; mk_range 5 9; mk_range 9 11] in
  elements_loop 7 f (elements_begin f) = Some [2; 5; 6; 7; 8; 9; 10] /\
  exists l, elements_loop (length l) f (elements_begin f) = Some l /\
    StronglySorted Z.lt l /\ forall x, in_int32 x -> x ∈ l <-> contains x f = true.
Proof.
  split; [vm_compute; reflexivity|]. apply iteration_enumerates.
  exists 0. repeat split; vm_compute; (reflexivity || discriminate).
Defined.

(** ** Corners

    Concrete runs that depart from what the code announces. *)
Section corners.
(** A range does not contain itself. *)
Lemma range_not_in_itself : range_contains_range (mk_range 5 9) (mk_range 5 9) = false.
Proof. reflexivity. Qed.
(** The decrement of an iterator stays where it is unless it is at the start of a range. *)
Lemma decrement_stays : let it := mk_element_iter ([], [mk_range 2 9]) (Some 5) in
  elt_prev it = Some it.
Proof. reflexivity. Qed.
(** A range that is written backwards is accepted, and kept. *)
Lemma backwards_range_loaded : load (list_ascii_of_string "10-5") [] = Some (0, [mk_range 10 6]) /\
  forall x, contains x [mk_range 10 6] = false.
Proof.
  split; [vm_compute; reflexivity|]. intros x. unfold contains, find, upper_bound. simpl.
  destruct (Z.ltb_spec x 6); simpl; [|done]. unfold elt_le. simpl. destruct (Z.ltb_spec x 10); simpl; (done || lia).
Qed.
(** Blanks after the last semicolon are a failure. *)
Lemma trailing_blank_fails : fst <$> load (T := Z) (list_ascii_of_string "1;2; ") [] = Some (-5).
Proof. vm_compute. reflexivity. Qed.
End corners.
