(* ===== verification/CheckEvents.v ===== *)
(** * The check of job events ([condor_utils/check_events.cpp], [condor_utils/check_events.h])

    DAGMan reads the events of its jobs from logs that may hold duplicates, orphans and
    events out of order. [CheckEvents] counts the events of every job and says of each
    event whether it is consistent with those before, and of all the jobs in the end.
    The counters are integers; a job with 2^31 events of one kind is out of reach. *)
From Stdlib Require Import ZArith Lia Ascii String.
From stdpp Require Import base list strings.
From S2P Require Import Prelude Numerals.

Open Scope Z_scope.

(** ** Job ids ([condor_utils/condor_id.cpp]) *)
Record CondorID := mk_CondorID { _cluster : Z; _proc : Z; _subproc : Z }.
#[export] Instance CondorID_eq_dec : EqDecision CondorID.
Proof. solve_decision. Defined.

Definition compare_int (a b : Z) : Z := if a =? b then 0 else if b <? a then 1 else -1.
Definition Compare (a b : CondorID) : Z :=
  let result := compare_int (_cluster a) (_cluster b) in
  let result := if result =? 0 then compare_int (_proc a) (_proc b) else result in
  if result =? 0 then compare_int (_subproc a) (_subproc b) else result.

(** ** Events, results, counters *)
Inductive EventNumber :=
| ULOG_SUBMIT | ULOG_EXECUTE | ULOG_EXECUTABLE_ERROR | ULOG_JOB_ABORTED | ULOG_JOB_TERMINATED
| ULOG_POST_SCRIPT_TERMINATED
| ULOG_OTHER (n : Z).
Record ULogEvent := mk_event { event_id : CondorID; eventNumber : EventNumber }.

Inductive check_event_result_t := EVENT_OKAY | EVENT_BAD_EVENT | EVENT_ERROR | EVENT_WARNING.
#[export] Instance check_event_result_eq_dec : EqDecision check_event_result_t.
Proof. solve_decision. Defined.

Record JobInfo := mk_JobInfo {
  submitCount : Z; errorCount : Z; abortCount : Z; termCount : Z; postScriptCount : Z
}.
Definition new_JobInfo : JobInfo := mk_JobInfo 0 0 0 0 0.
Definition TotalEndCount (info : JobInfo) : Z := abortCount info + termCount info.

(** The counter the event is counted in. *)
Definition count_event (n : EventNumber) (i : JobInfo) : JobInfo :=
  let '(mk_JobInfo s e a t p) := i in
  match n with
  | ULOG_SUBMIT => mk_JobInfo (s + 1) e a t p
  | ULOG_EXECUTABLE_ERROR => mk_JobInfo s (e + 1) a t p
  | ULOG_JOB_ABORTED => mk_JobInfo s e (a + 1) t p
  | ULOG_JOB_TERMINATED => mk_JobInfo s e a (t + 1) p
  | ULOG_POST_SCRIPT_TERMINATED => mk_JobInfo s e a t (p + 1)
  | ULOG_EXECUTE | ULOG_OTHER _ => i
  end.

(** ** [jobHash], a map ordered by [Compare] *)
Abbreviation jobs := (list (CondorID * JobInfo)).
Fixpoint job_info (id : CondorID) (m : jobs) : JobInfo :=
  match m with
  | [] => new_JobInfo
  | (k, i) :: m' => if Compare id k =? 0 then i else job_info id m'
  end.
(** Insert a new entry if there is none, and change it. *)
Fixpoint job_change (id : CondorID) (f : JobInfo -> JobInfo) (m : jobs) : jobs :=
  match m with
  | [] => [(id, f new_JobInfo)]
  | (k, i) :: m' =>
      let c := Compare id k in
      if c =? 0 then (k, f i) :: m'
      else if c =? -1 then (id, f new_JobInfo) :: m
      else (k, i) :: job_change id f m'
  end.

(** ** What is allowed *)
Definition ALLOW_NONE : Z := 0.
Definition ALLOW_ALMOST_ALL : Z := 1.
Definition ALLOW_TERM_ABORT : Z := 2.
Definition ALLOW_RUN_AFTER_TERM : Z := 4.
Definition ALLOW_GARBAGE : Z := 8.
Definition ALLOW_EXEC_BEFORE_SUBMIT : Z := 16.
Definition ALLOW_DOUBLE_TERMINATE : Z := 32.
Definition ALLOW_DUPLICATE_EVENTS : Z := 64.

Section checks.
Variable allowEvents : Z.
Definition allows (flag : Z) : bool := negb (Z.land allowEvents flag =? 0).
Definition AllowAlmostAll : bool := allows ALLOW_ALMOST_ALL.
Definition AllowExtraAborts : bool := allows ALLOW_ALMOST_ALL || allows ALLOW_TERM_ABORT.
Definition AllowExtraRuns : bool := allows ALLOW_RUN_AFTER_TERM.
Definition AllowGarbage : bool := allows ALLOW_ALMOST_ALL || allows ALLOW_GARBAGE.
Definition AllowExecSubmit : bool := allows ALLOW_ALMOST_ALL || allows ALLOW_EXEC_BEFORE_SUBMIT.
Definition AllowDoubleTerm : bool := allows ALLOW_ALMOST_ALL || allows ALLOW_DOUBLE_TERMINATE.
Definition AllowDuplicates : bool := allows ALLOW_ALMOST_ALL || allows ALLOW_DUPLICATE_EVENTS.

Definition noSubmitId : CondorID := mk_CondorID (-1) 0 0.

(** The message and the result, which every check that fails overwrites. *)
Abbreviation outcome := (text * check_event_result_t)%type.
Definition words (s : string) : text := list_ascii_of_string s.
Definition complain (bad : bool) (idStr : text) (what : string) (n : Z) (allowed : bool)
    (tolerated : check_event_result_t) (o : outcome) : outcome :=
  if bad then (idStr ++ words what ++ append_long [] n ++ [")"%char], if allowed then tolerated else EVENT_ERROR)
  else o.

Definition CheckJobSubmit (idStr : text) (info : JobInfo) (o : outcome) : outcome :=
  let o := complain (negb (submitCount info =? 1)) idStr " submitted, submit count != 1 (" (submitCount info)
             AllowDuplicates EVENT_BAD_EVENT o in
  complain (negb (TotalEndCount info =? 0)) idStr " submitted, total end count != 0 (" (TotalEndCount info)
    AllowExecSubmit EVENT_BAD_EVENT o.

Definition CheckJobExecute (idStr : text) (info : JobInfo) (o : outcome) : outcome :=
  let o := complain (submitCount info <? 1) idStr " executing, submit count < 1 (" (submitCount info)
             (AllowExecSubmit || AllowGarbage) EVENT_WARNING o in
  complain (negb (TotalEndCount info =? 0)) idStr " executing, total end count != 0 (" (TotalEndCount info)
    AllowExtraRuns EVENT_BAD_EVENT o.

(** The tolerances for a number of ends other than one. *)
Definition end_count_allowed (info : JobInfo) : bool :=
  AllowExtraAborts && (abortCount info =? 1) && (termCount info =? 1)
  || AllowDoubleTerm && (termCount info =? 2)
  || AllowExtraRuns.

Definition CheckJobEnd (idStr : text) (info : JobInfo) (o : outcome) : outcome :=
  let o := complain (submitCount info <? 1) idStr " ended, submit count < 1 (" (submitCount info)
             (AllowExecSubmit || AllowGarbage && (submitCount info <=? 1)) EVENT_WARNING o in
  let o := complain (negb (TotalEndCount info =? 1)) idStr " ended, total end count != 1 (" (TotalEndCount info)
             (end_count_allowed info || AllowDuplicates) EVENT_BAD_EVENT o in
  complain (negb (postScriptCount info =? 0)) idStr " ended, post script count != 0 (" (postScriptCount info)
    AllowDuplicates EVENT_BAD_EVENT o.

(** A post script that runs after all attempts to submit failed. *)
Definition post_without_submit (id : CondorID) (info : JobInfo) : bool :=
  (Compare noSubmitId id =? 0) && (submitCount info =? 0) && (termCount info =? 0) && (1 <=? postScriptCount info).

Definition CheckPostTerm (idStr : text) (id : CondorID) (info : JobInfo) (o : outcome) : outcome :=
  if post_without_submit id info then o
  else
    let o := complain (submitCount info <? 1) idStr " post script ended, submit count < 1 (" (submitCount info)
               (AllowDuplicates || AllowGarbage && (submitCount info <=? 1)) EVENT_BAD_EVENT o in
    let o := complain (TotalEndCount info <? 1) idStr " post script ended, total end count < 1 (" (TotalEndCount info)
               AllowAlmostAll EVENT_BAD_EVENT o in
    complain (1 <? postScriptCount info) idStr " post script ended, post script count > 1 (" (postScriptCount info)
      (AllowDuplicates || AllowGarbage) EVENT_BAD_EVENT o.

Definition CheckJobFinal (idStr : text) (id : CondorID) (info : JobInfo) (o : outcome) : outcome :=
  if post_without_submit id info then o
  else if negb (_subproc id =? 0) then o
  else
    let o := complain (negb (submitCount info =? 1)) idStr " ended, submit count != 1 (" (submitCount info)
               (AllowAlmostAll || AllowGarbage && (submitCount info <=? 1)) EVENT_BAD_EVENT o in
    let o := complain (negb (TotalEndCount info =? 1)) idStr " ended, total end count != 1 (" (TotalEndCount info)
               (end_count_allowed info || AllowGarbage && (TotalEndCount info =? 0) || AllowDuplicates)
               EVENT_BAD_EVENT o in
    complain (1 <? postScriptCount info) idStr " ended, post script count > 1 (" (postScriptCount info)
      (AllowDuplicates || AllowGarbage) EVENT_BAD_EVENT o.

Definition id_text (id : CondorID) : text :=
  words "BAD EVENT: job (" ++ append_long [] (_cluster id) ++ "."%char :: append_long [] (_proc id) ++
  "."%char :: append_long [] (_subproc id) ++ [")"%char].

(** ** [CheckAnEvent] and [CheckAllJobs] *)
Definition CheckAnEvent (event : ULogEvent) (jobHash : jobs) : outcome * jobs :=
  let id := event_id event in
  let idStr := id_text id in
  let jobHash := job_change id (count_event (eventNumber event)) jobHash in
  let info := job_info id jobHash in
  let o := ([], EVENT_OKAY) in
  (match eventNumber event with
   | ULOG_SUBMIT => CheckJobSubmit idStr info o
   | ULOG_EXECUTE => CheckJobExecute idStr info o
   | ULOG_JOB_ABORTED | ULOG_JOB_TERMINATED => CheckJobEnd idStr info o
   | ULOG_POST_SCRIPT_TERMINATED => CheckPostTerm idStr id info o
   | ULOG_EXECUTABLE_ERROR | ULOG_OTHER _ => o
   end, jobHash).

Definition MAX_MSG_LEN : Z := 1024.
Fixpoint all_jobs_loop (m : jobs) (errorMsg : text) (msgFull : bool) (result : check_event_result_t) : outcome :=
  match m with
  | [] => (errorMsg, result)
  | (id, info) :: m' =>
      let full := negb msgFull && (MAX_MSG_LEN <? Z.of_nat (length errorMsg)) in
      let errorMsg := if full then errorMsg ++ words " ..." else errorMsg in
      let msgFull := msgFull || full in
      let '(tmpMsg, result) := CheckJobFinal (id_text id) id info ([], result) in
      let errorMsg :=
        match tmpMsg with
        | [] => errorMsg
        | _ => if msgFull then errorMsg
               else match errorMsg with [] => [] | _ => errorMsg ++ words "; " end ++ tmpMsg
        end in
      all_jobs_loop m' errorMsg msgFull result
  end.
Definition CheckAllJobs (jobHash : jobs) : outcome := all_jobs_loop jobHash [] false EVENT_OKAY.
End checks.

(** [ResultToString] has no case for a warning. *)
Definition ResultToString (resultIn : check_event_result_t) : string :=
  match resultIn with
  | EVENT_OKAY => "EVENT_OKAY"
  | EVENT_BAD_EVENT => "EVENT_BAD_EVENT"
  | EVENT_ERROR => "EVENT_ERROR"
  | EVENT_WARNING => "Bad result value!!!!"
  end.
