(* ===== verification/CheckEventsLaws.v ===== *)
(** * What the check of job events promises

    The order of the jobs, the counters of a job as a state machine, and what the flags
    tolerate. *)
From Stdlib Require Import ZArith Lia Ascii String Sorting.Sorted.
From stdpp Require Import base list strings.
From S2P Require Import Prelude Numerals CheckEvents.

Open Scope Z_scope.

(** ** The map of jobs *)
Definition id_lt (a b : CondorID) : Prop :=
  _cluster a < _cluster b \/ _cluster a = _cluster b /\
    (_proc a < _proc b \/ _proc a = _proc b /\ _subproc a < _subproc b).
Lemma Compare_spec a b :
  (Compare a b = 0 <-> a = b) /\ (Compare a b = -1 <-> id_lt a b) /\ (Compare a b = 1 <-> id_lt b a).
Proof.
  destruct a as [c p s], b as [c' p' s']. unfold Compare, compare_int, id_lt. simpl.
  destruct (Z.eqb_spec c c'), (Z.ltb_spec c' c), (Z.eqb_spec p p'), (Z.ltb_spec p' p), (Z.eqb_spec s s'), (Z.ltb_spec s' s);
    simpl; split_and!; split; intros; simplify_eq; try done; try lia; f_equal; lia.
Qed.
Lemma Compare_same a b : Compare a b = 0 <-> a = b.
Proof. apply Compare_spec. Qed.
Lemma Compare_cases a b : a = b /\ Compare a b = 0 \/ id_lt a b /\ Compare a b = -1 \/ id_lt b a /\ Compare a b = 1.
Proof.
  destruct (Compare_spec a b) as (H0&H1&H2).
  destruct (Z.eq_dec (Compare a b) 0); [left; tauto|]. right.
  destruct (Z.eq_dec (Compare a b) (-1)); [left; tauto|]. right.
  assert (Compare a b = 1); [|tauto].
  unfold Compare, compare_int in *. repeat case_match; congruence.
Qed.
Lemma id_lt_trans a b c : id_lt a b -> id_lt b c -> id_lt a c.
Proof. unfold id_lt. lia. Qed.
Lemma id_lt_ne a b : id_lt a b -> a <> b.
Proof. unfold id_lt. intros H ->. lia. Qed.

Abbreviation jobs := (list (CondorID * JobInfo)).
Abbreviation jobs_ok := (StronglySorted (fun x y : CondorID * JobInfo => id_lt x.1 y.1)).

Lemma job_info_absent id m : Forall (fun x : CondorID * JobInfo => id <> x.1) m -> job_info id m = new_JobInfo.
Proof.
  induction 1 as [|[k i] m Hk _ IH]; [done|]. simpl in *.
  destruct (Z.eqb_spec (Compare id k) 0) as [E|_]; [by apply Compare_same in E|done].
Qed.
Lemma job_change_keys id f m : forall x, x ∈ (job_change id f m).*1 <-> x = id \/ x ∈ m.*1.
Proof.
  induction m as [|[k i] m IH]; intros x; [simpl; rewrite list_elem_of_singleton, elem_of_nil; tauto|].
  cbn [job_change]. destruct (Compare_cases id k) as [[-> ->]|[[_ ->]|[_ ->]]]; simpl; rewrite ?elem_of_cons; [tauto|tauto|].
  rewrite IH. tauto.
Qed.
Lemma job_change_spec id f m : jobs_ok m ->
  jobs_ok (job_change id f m) /\
  forall x, job_info x (job_change id f m) = if decide (x = id) then f (job_info id m) else job_info x m.
Proof.
  induction 1 as [|[k i] m Hm IH Hk].
  { split; [repeat constructor|]. intros x. simpl. destruct (Z.eqb_spec (Compare x id) 0) as [E|E];
      rewrite Compare_same in E; case_decide; by try congruence. }
  cbn [job_change].
  assert (Hbelow : forall x, id_lt x k -> Forall (fun y : CondorID * JobInfo => x <> y.1) ((k, i) :: m)).
  { intros x Hx. constructor; [by apply id_lt_ne|]. eapply Forall_impl; [exact Hk|]. simpl. intros y Hy.
    apply id_lt_ne. by eapply id_lt_trans. }
  destruct (Compare_cases id k) as [[-> E]|[[Hlt E]|[Hgt E]]]; rewrite E; cbn [Z.eqb Z.opp Pos.eqb].
  - split; [by constructor|]. intros x. cbn [job_info]. rewrite E. simpl.
    destruct (Z.eqb_spec (Compare x k) 0) as [Ex|Ex]; rewrite Compare_same in Ex; case_decide; by try congruence.
  - split.
    + constructor; [by constructor|]. constructor; [done|]. eapply Forall_impl; [exact Hk|].
      intros y Hy. simpl in *. by eapply id_lt_trans.
    + intros x. rewrite (job_info_absent id _ (Hbelow id Hlt)). cbn [job_info].
      destruct (Z.eqb_spec (Compare x id) 0) as [Ex|Ex]; rewrite Compare_same in Ex; case_decide; by try congruence.
  - destruct IH as [IH1 IH2]. split.
    + constructor; [done|]. apply Forall_forall. intros y Hy.
      assert (Hy1 : y.1 ∈ (job_change id f m).*1) by (apply list_elem_of_fmap; eauto).
      apply job_change_keys in Hy1 as [->|Hy1]; [done|]. apply list_elem_of_fmap in Hy1 as (z&->&Hz).
      rewrite Forall_forall in Hk. by apply (Hk z).
    + intros x. cbn [job_info]. rewrite IH2, E. simpl.
      destruct (Z.eqb_spec (Compare x k) 0) as [Ex|Ex]; rewrite Compare_same in Ex; case_decide; try done.
      subst. apply id_lt_ne in Hgt. congruence.
Qed.
Lemma job_info_In id i m : jobs_ok m -> (id, i) ∈ m -> job_info id m = i.
Proof.
  induction 1 as [|[k j] m Hm IH Hk]; [by intros ?%not_elem_of_nil|]. cbn [job_info].
  intros [[= -> ->]|Hin]%elem_of_cons; [by rewrite (proj2 (Compare_same k k))|].
  rewrite Forall_forall in Hk. specialize (Hk _ Hin). simpl in Hk.
  destruct (Z.eqb_spec (Compare id k) 0) as [E|_]; [|auto]. apply Compare_same in E as ->. by apply id_lt_ne in Hk.
Qed.

(** ** A log *)

(** The events of a log, one after the other. *)
Fixpoint check_events (allowEvents : Z) (events : list ULogEvent) (m : jobs) : list (text * check_event_result_t) * jobs :=
  match events with
  | [] => ([], m)
  | e :: events' =>
      let '(o, m') := CheckAnEvent allowEvents e m in
      let '(os, m'') := check_events allowEvents events' m' in (o :: os, m'')
  end.
Abbreviation okay o := (o.2 = EVENT_OKAY).

(** *** What a job does

    The phases of a job: a submit, executions, one end, at most one post script. The id of
    post scripts without a submit may begin with post scripts instead. An end is an abort or
    a termination: as in the code, and against its header, an error of the executable is
    none, and may come anywhere. *)
Inductive phase := Fresh | Running | Ended | Finished | Unsubmitted | Late.
Definition advance (id : CondorID) (p : phase) (n : EventNumber) : option phase :=
  match n, p with
  | ULOG_EXECUTABLE_ERROR, _ | ULOG_OTHER _, _ => Some p
  | ULOG_SUBMIT, Fresh => Some Running
  | ULOG_SUBMIT, Unsubmitted => Some Late
  | ULOG_EXECUTE, (Running | Late) => Some p
  | (ULOG_JOB_ABORTED | ULOG_JOB_TERMINATED), Running => Some Ended
  | ULOG_POST_SCRIPT_TERMINATED, Ended => Some Finished
  | ULOG_POST_SCRIPT_TERMINATED, Fresh => if decide (id = noSubmitId) then Some Unsubmitted else None
  | ULOG_POST_SCRIPT_TERMINATED, Unsubmitted => Some Unsubmitted
  | _, _ => None
  end.
Fixpoint phase_after (id : CondorID) (p : phase) (events : list ULogEvent) : option phase :=
  match events with
  | [] => Some p
  | e :: events' =>
      if decide (event_id e = id) then p' ← advance id p (eventNumber e); phase_after id p' events'
      else phase_after id p events'
  end.
Definition complete (id : CondorID) (p : phase) : bool :=
  match p with Ended | Finished | Unsubmitted => true | _ => negb (_subproc id =? 0) end.

(** The counters of a job in a phase. *)
Definition reached (id : CondorID) (p : phase) (info : JobInfo) : Prop :=
  let '(mk_JobInfo s _ a t post) := info in
  match p with
  | Fresh => s = 0 /\ a = 0 /\ t = 0 /\ post = 0
  | Running => s = 1 /\ a = 0 /\ t = 0 /\ post = 0
  | Ended => s = 1 /\ (a = 0 /\ t = 1 \/ a = 1 /\ t = 0) /\ post = 0
  | Finished => s = 1 /\ (a = 0 /\ t = 1 \/ a = 1 /\ t = 0) /\ post = 1
  | Unsubmitted => id = noSubmitId /\ s = 0 /\ a = 0 /\ t = 0 /\ 1 <= post
  | Late => id = noSubmitId /\ s = 1 /\ a = 0 /\ t = 0 /\ 1 <= post
  end.

Lemma complain_result bad idStr what n allowed tolerated o :
  (complain bad idStr what n allowed tolerated o).2 = if bad then if allowed then tolerated else EVENT_ERROR else o.2.
Proof. unfold complain. by destruct bad, allowed. Qed.
(** What [CheckAnEvent] does to the jobs, and what it answers. *)
Lemma CheckAnEvent_jobs allowEvents e m :
  (CheckAnEvent allowEvents e m).2 = job_change (event_id e) (count_event (eventNumber e)) m.
Proof. by destruct e as [id []]. Qed.
Lemma CheckAnEvent_info allowEvents e m : jobs_ok m ->
  jobs_ok (CheckAnEvent allowEvents e m).2 /\
  forall x, job_info x (CheckAnEvent allowEvents e m).2 =
    if decide (x = event_id e) then count_event (eventNumber e) (job_info (event_id e) m) else job_info x m.
Proof. intros Hm. rewrite CheckAnEvent_jobs. by apply job_change_spec. Qed.

(** Without tolerance an event is fine when every check passes. *)
Lemma complain_strict bad idStr what n allowed tolerated o : allowed = false ->
  okay (complain bad idStr what n allowed tolerated o) <-> bad = false /\ okay o.
Proof. intros ->. rewrite complain_result. destruct bad; split; [done|by intros [? _]|done|by intros [_ ?]]. Qed.
Ltac strict := rewrite ?complain_strict by reflexivity; rewrite ?negb_false_iff, ?Z.eqb_eq, ?Z.ltb_ge; cbn [snd].

Section strict.
Variables (idStr : text) (id : CondorID) (i : JobInfo) (o : text * check_event_result_t).
Lemma submit_okay : okay (CheckJobSubmit ALLOW_NONE idStr i o) <-> submitCount i = 1 /\ TotalEndCount i = 0 /\ okay o.
Proof. unfold CheckJobSubmit. strict. tauto. Qed.
Lemma execute_okay : okay (CheckJobExecute ALLOW_NONE idStr i o) <-> 1 <= submitCount i /\ TotalEndCount i = 0 /\ okay o.
Proof. unfold CheckJobExecute. strict. tauto. Qed.
Lemma end_okay : okay (CheckJobEnd ALLOW_NONE idStr i o) <->
  1 <= submitCount i /\ TotalEndCount i = 1 /\ postScriptCount i = 0 /\ okay o.
Proof. unfold CheckJobEnd. strict. tauto. Qed.
Definition without_submit : Prop := id = noSubmitId /\ submitCount i = 0 /\ termCount i = 0 /\ 1 <= postScriptCount i.
Lemma without_submit_spec : post_without_submit id i = true <-> without_submit.
Proof.
  unfold post_without_submit, without_submit. rewrite !andb_true_iff, !Z.eqb_eq, Z.leb_le, Compare_same.
  intuition congruence.
Qed.
Lemma post_okay : okay (CheckPostTerm ALLOW_NONE idStr id i o) <->
  okay o /\ (without_submit \/ 1 <= submitCount i /\ 1 <= TotalEndCount i /\ postScriptCount i <= 1).
Proof.
  unfold CheckPostTerm. pose proof without_submit_spec as Hw. destruct (post_without_submit id i); [tauto|].
  assert (~ without_submit) by (rewrite <- Hw; done). strict. tauto.
Qed.
Lemma final_okay : okay (CheckJobFinal ALLOW_NONE idStr id i o) <->
  okay o /\ (without_submit \/ _subproc id <> 0 \/ submitCount i = 1 /\ TotalEndCount i = 1 /\ postScriptCount i <= 1).
Proof.
  unfold CheckJobFinal. pose proof without_submit_spec as Hw. destruct (post_without_submit id i); [tauto|].
  assert (~ without_submit) by (rewrite <- Hw; done).
  destruct (Z.eqb_spec (_subproc id) 0); cbn [negb]; [strict; tauto|tauto].
Qed.
End strict.

Lemma event_phase e m p : jobs_ok m -> reached (event_id e) p (job_info (event_id e) m) ->
  let r := CheckAnEvent ALLOW_NONE e m in
  (okay r.1 <-> is_Some (advance (event_id e) p (eventNumber e))) /\
  forall p', advance (event_id e) p (eventNumber e) = Some p' -> reached (event_id e) p' (job_info (event_id e) r.2).
Proof.
  intros Hm Hp. cbn zeta. destruct (CheckAnEvent_info ALLOW_NONE e m Hm) as [_ Hi]. specialize (Hi (event_id e)).
  rewrite decide_True in Hi by done. rewrite Hi. rewrite CheckAnEvent_jobs in Hi. unfold CheckAnEvent. cbn zeta.
  rewrite Hi. clear Hi. destruct (job_info (event_id e) m) as [s er a t po]. split.
  - assert (Hsome : forall q : phase, is_Some (Some q) <-> True) by (intros; split; [done|by eexists]).
    assert (Hnone : is_Some (@None phase) <-> False) by (split; [by intros [? ?]|done]).
    destruct (eventNumber e); cbn [count_event fst];
      rewrite ?submit_okay, ?execute_okay, ?end_okay, ?post_okay; unfold without_submit, TotalEndCount;
      cbn [submitCount errorCount abortCount termCount postScriptCount snd];
      destruct p; cbn [advance] in *; cbn [reached] in Hp; try case_decide;
      rewrite ?Hsome, ?Hnone; intuition (done || lia).
  - intros p'. destruct (eventNumber e), p; cbn [advance count_event reached] in *; try case_decide;
      intros; simplify_eq; cbn [reached]; intuition (done || lia).
Qed.

Lemma event_elsewhere allowEvents e m x : jobs_ok m -> event_id e <> x ->
  job_info x (CheckAnEvent allowEvents e m).2 = job_info x m.
Proof. intros Hm Hx. destruct (CheckAnEvent_info allowEvents e m Hm) as [_ ->]. by rewrite decide_False by congruence. Qed.

(** The jobs after a log are those before it and those it mentions. *)
Lemma log_jobs allowEvents events : forall m, jobs_ok m ->
  jobs_ok (check_events allowEvents events m).2 /\
  forall x, x ∈ (check_events allowEvents events m).2.*1 <-> x ∈ m.*1 \/ x ∈ (event_id <$> events).
Proof.
  induction events as [|e events IH]; intros m Hm; cbn [check_events].
  { split; [done|]. intros x. simpl. rewrite elem_of_nil. tauto. }
  pose proof (CheckAnEvent_info allowEvents e m Hm) as [Hm' _]. pose proof (CheckAnEvent_jobs allowEvents e m) as Hj.
  destruct (CheckAnEvent allowEvents e m) as [o m']. cbn [snd] in *. specialize (IH m' Hm').
  destruct (check_events allowEvents events m') as [os m2]. cbn [snd] in *. destruct IH as [I1 I2].
  split; [done|]. intros x. rewrite I2, Hj, job_change_keys, fmap_cons, elem_of_cons. tauto.
Qed.

(** A log is fine when every job goes through its phases, and the counters show where it is. *)
Lemma log_phases events : forall m (at_phase : CondorID -> phase), jobs_ok m ->
  (forall id, reached id (at_phase id) (job_info id m)) ->
  let r := check_events ALLOW_NONE events m in
  (Forall (fun o => okay o) r.1 <-> forall id, is_Some (phase_after id (at_phase id) events)) /\
  jobs_ok r.2 /\
  (forall id p, Forall (fun o => okay o) r.1 -> phase_after id (at_phase id) events = Some p -> reached id p (job_info id r.2)) /\
  (forall x, x ∈ r.2.*1 <-> x ∈ m.*1 \/ x ∈ (event_id <$> events)).
Proof.
  induction events as [|e events IH]; intros m at_phase Hm Hat; cbn zeta.
  { simpl. split_and!; [split; [by eexists|done]|done|by intros id p _ [= <-]|]. intros x. rewrite elem_of_nil. tauto. }
  cbn [check_events]. pose proof (event_phase e m (at_phase (event_id e)) Hm (Hat _)) as [Ho Hp]. cbn zeta in Ho, Hp.
  pose proof (CheckAnEvent_info ALLOW_NONE e m Hm) as [Hm' _]. pose proof (CheckAnEvent_jobs ALLOW_NONE e m) as Hjobs.
  pose proof (fun x => event_elsewhere ALLOW_NONE e m x Hm) as Helse.
  destruct (CheckAnEvent ALLOW_NONE e m) as [o m'] eqn:E. cbn [fst snd] in *.
  set (next := fun id => if decide (event_id e = id) then default (at_phase id) (advance id (at_phase id) (eventNumber e))
    else at_phase id).
  destruct (advance (event_id e) (at_phase (event_id e)) (eventNumber e)) as [p1|] eqn:Ea.
  - assert (Hnext : forall id, reached id (next id) (job_info id m')).
    { intros id. unfold next. case_decide as Hid; [subst id; rewrite Ea; by apply Hp|]. by rewrite Helse. }
    assert (Hphase : forall id, phase_after id (at_phase id) (e :: events) = phase_after id (next id) events).
    { intros id. cbn [phase_after]. unfold next. case_decide as Hid; [|done]. subst id. by rewrite Ea. }
    specialize (IH m' next Hm' Hnext). cbn zeta in IH. destruct (check_events ALLOW_NONE events m') as [os m2].
    cbn [fst snd] in *. destruct IH as (I1&I2&I3&I4). split_and!.
    + rewrite Forall_cons, I1. setoid_rewrite Hphase. split; [tauto|]. intros Hall. split; [apply Ho; by eexists|done].
    + done.
    + intros id p [_ Hall]%Forall_cons Hph. rewrite Hphase in Hph. by apply I3.
    + intros x. rewrite I4, Hjobs, job_change_keys, fmap_cons, elem_of_cons. tauto.
  - assert (Hbad : ~ okay o) by (rewrite Ho; by intros [? ?]).
    pose proof (log_jobs ALLOW_NONE events m' Hm') as Hok2.
    destruct (check_events ALLOW_NONE events m') as [os m2]. cbn [fst snd] in *. destruct Hok2 as [H1 H2]. split_and!.
    + rewrite Forall_cons. split; [tauto|]. intros Hall. exfalso. destruct (Hall (event_id e)) as [p Hph].
      cbn [phase_after] in Hph. rewrite decide_True in Hph by done. by rewrite Ea in Hph.
    + done.
    + intros id p [? _]%Forall_cons. tauto.
    + intros x. rewrite H2, Hjobs, job_change_keys, fmap_cons, elem_of_cons. tauto.
Qed.

Lemma all_jobs_okay m : forall msg full result,
  okay (all_jobs_loop ALLOW_NONE m msg full result) <-> result = EVENT_OKAY /\
    Forall (fun x => without_submit x.1 x.2 \/ _subproc x.1 <> 0 \/
      submitCount x.2 = 1 /\ TotalEndCount x.2 = 1 /\ postScriptCount x.2 <= 1) m.
Proof.
  induction m as [|[id i] m IH]; intros msg full result; [simpl; split; [by split|tauto]|].
  cbn [all_jobs_loop]. pose proof (final_okay (id_text id) id i ([], result)) as Hf.
  destruct (CheckJobFinal ALLOW_NONE (id_text id) id i ([], result)) as [tmp result']. cbn [snd] in Hf.
  rewrite IH, Forall_cons, Hf. cbn [fst snd]. tauto.
Qed.
Lemma complete_final id p i : reached id p i -> complete id p = true <->
  without_submit id i \/ _subproc id <> 0 \/ submitCount i = 1 /\ TotalEndCount i = 1 /\ postScriptCount i <= 1.
Proof.
  destruct i as [s er a t po]. unfold without_submit, TotalEndCount. cbn [submitCount abortCount termCount postScriptCount].
  destruct p; cbn [reached complete]; rewrite ?negb_true_iff, ?Z.eqb_neq; intuition (done || lia).
Qed.

(** C31: with nothing tolerated the check accepts exactly the consistent logs. Every event of a
    log is fine if and only if every job goes through its phases (one submit, executions, one
    end, then at most one post script; for the id that marks them, post scripts without a
    submit), whatever the interleaving of the jobs; and then [CheckAllJobs] is satisfied if
    and only if every job is complete or belongs to a parallel node. An end is an abort or a
    termination. check_events.h also counts an executable error as the end of a job; the code
    does not, and ignores those events: it finds fault with a job that has no other end
    ([executable_error_is_no_end]). *)
Theorem CheckEvents_refines events :
  let r := check_events ALLOW_NONE events [] in
  (Forall (fun o => okay o) r.1 <-> forall id, is_Some (phase_after id Fresh events)) /\
  (Forall (fun o => okay o) r.1 ->
    okay (CheckAllJobs ALLOW_NONE r.2) <->
    forall id, id ∈ (event_id <$> events) -> exists p, phase_after id Fresh events = Some p /\ complete id p = true).
Proof.
  cbn zeta. destruct (log_phases events [] (fun _ => Fresh)) as (H1&H2&H3&H4); [constructor|by intros id|].
  split; [done|]. intros Hall. unfold CheckAllJobs. rewrite all_jobs_okay, Forall_forall.
  assert (Hphase : forall id, exists p, phase_after id Fresh events = Some p /\
    reached id p (job_info id (check_events ALLOW_NONE events []).2)).
  { intros id. destruct (proj1 H1 Hall id) as [p Hp]. exists p. split; [done|by apply H3]. }
  setoid_rewrite elem_of_nil in H4. split.
  - intros [_ Hjobs] id Hid. destruct (Hphase id) as (p&Hp&Hr). exists p. split; [done|].
    apply (complete_final _ _ _ Hr). assert (Hk : id ∈ (check_events ALLOW_NONE events []).2.*1) by (apply H4; tauto).
    apply list_elem_of_fmap in Hk as ([k i]&->&Hin). cbn [fst]. rewrite (job_info_In _ _ _ H2 Hin). by apply (Hjobs _ Hin).
  - intros Hid. split; [done|]. intros [id i] Hin. cbn [fst snd].
    assert (Hk : id ∈ (event_id <$> events)).
    { destruct (proj1 (H4 id)); [apply list_elem_of_fmap; by exists (id, i)|done|done]. }
    destruct (Hid id Hk) as (p&Hp&Hc). destruct (Hphase id) as (p'&Hp'&Hr). rewrite Hp in Hp'. injection Hp' as <-.
    rewrite (job_info_In _ _ _ H2 Hin) in Hr. by apply (complete_final _ _ _ Hr).
Qed.

(** ** What the flags tolerate *)

(** One outcome tolerates another: the same message, and the same result unless it was an
    error. *)
Definition tolerates (oa ob : text * check_event_result_t) : Prop :=
  ob.1 = oa.1 /\ (oa.2 <> EVENT_ERROR -> ob.2 = oa.2).

Section more.
Variables a b : Z.
Hypothesis Hab : Z.land a b = a.

Lemma allows_more flag : implb (allows a flag) (allows b flag) = true.
Proof.
  unfold allows. rewrite <- Hab. destruct (Z.eqb_spec (Z.land b flag) 0) as [E|E]; [|by rewrite implb_true_r].
  rewrite <- Z.land_assoc, E, Z.land_0_r. done.
Qed.
Lemma complain_tolerates bad idStr what n xa xb tolerated oa ob : implb xa xb = true -> tolerates oa ob ->
  tolerates (complain bad idStr what n xa tolerated oa) (complain bad idStr what n xb tolerated ob).
Proof. intros Hx Ho. destruct bad; [|done]. split; [done|]. by destruct xa, xb. Qed.

Lemma implb_orb x x' y y' : implb x x' = true -> implb y y' = true -> implb (x || y) (x' || y') = true.
Proof. by destruct x, x', y, y'. Qed.
Lemma implb_andb x x' y : implb x x' = true -> implb (x && y) (x' && y) = true.
Proof. by destruct x, x', y. Qed.
#[local] Hint Resolve allows_more complain_tolerates implb_orb implb_andb : tolerance.
Ltac tolerance := unfold end_count_allowed, AllowAlmostAll, AllowExtraAborts, AllowExtraRuns, AllowGarbage,
  AllowExecSubmit, AllowDoubleTerm, AllowDuplicates; auto 10 with tolerance.

Variables (idStr : text) (id : CondorID) (i : JobInfo) (oa ob : text * check_event_result_t).
Hypothesis Ho : tolerates oa ob.
Lemma submit_tolerates : tolerates (CheckJobSubmit a idStr i oa) (CheckJobSubmit b idStr i ob).
Proof. unfold CheckJobSubmit. tolerance. Qed.
Lemma execute_tolerates : tolerates (CheckJobExecute a idStr i oa) (CheckJobExecute b idStr i ob).
Proof. unfold CheckJobExecute. tolerance. Qed.
Lemma end_tolerates : tolerates (CheckJobEnd a idStr i oa) (CheckJobEnd b idStr i ob).
Proof. unfold CheckJobEnd. tolerance. Qed.
Lemma post_tolerates : tolerates (CheckPostTerm a idStr id i oa) (CheckPostTerm b idStr id i ob).
Proof. unfold CheckPostTerm. destruct (post_without_submit id i); tolerance. Qed.
End more.

(** allowing more never changes a verdict that was not an error. Of flags [a] and [b]
    where [b] allows all that [a] does, the checks of a log give the same messages and leave
    the same jobs, and wherever the result with [a] is not an error it is the same with [b]. *)
Theorem allowing_more_is_monotone a b events m : Z.land a b = a ->
  (check_events b events m).2 = (check_events a events m).2 /\
  Forall2 tolerates (check_events a events m).1 (check_events b events m).1.
Proof.
  intros Hab. revert m. induction events as [|e events IH]; intros m; [done|]. cbn [check_events].
  assert (Ho : tolerates (CheckAnEvent a e m).1 (CheckAnEvent b e m).1).
  { unfold CheckAnEvent. cbn zeta. destruct (eventNumber e); cbn [fst]; (done ||
      by (apply submit_tolerates || apply execute_tolerates || apply end_tolerates || apply post_tolerates)). }
  assert (Hj : (CheckAnEvent b e m).2 = (CheckAnEvent a e m).2) by by rewrite !CheckAnEvent_jobs.
  destruct (CheckAnEvent a e m) as [oa ma], (CheckAnEvent b e m) as [ob mb]. simpl in Ho, Hj. subst mb.
  specialize (IH ma). destruct (check_events a events ma) as [osa m1], (check_events b events ma) as [osb m2].
  simpl in *. destruct IH as [-> IH]. split; [done|]. by constructor.
Qed.

Definition job_id (n : Z) : CondorID := mk_CondorID n 0 0.
Definition doubled_log : list ULogEvent :=
  [mk_event (job_id 5) ULOG_SUBMIT; mk_event (job_id 5) ULOG_JOB_TERMINATED; mk_event (job_id 5) ULOG_JOB_TERMINATED;
   mk_event (job_id 5) ULOG_EXECUTE].
Lemma allowing_more_is_monotone_witness :
  (check_events ALLOW_DOUBLE_TERMINATE doubled_log []).1.*2 = [EVENT_OKAY; EVENT_OKAY; EVENT_BAD_EVENT; EVENT_ERROR] /\
  (check_events 36 doubled_log []).1.*2 = [EVENT_OKAY; EVENT_OKAY; EVENT_BAD_EVENT; EVENT_BAD_EVENT] /\
  (check_events 36 doubled_log []).2 = (check_events ALLOW_DOUBLE_TERMINATE doubled_log []).2 /\
  Forall2 tolerates (check_events ALLOW_DOUBLE_TERMINATE doubled_log []).1 (check_events 36 doubled_log []).1.
Proof.
  split; [vm_compute; reflexivity|]. split; [vm_compute; reflexivity|].
  apply (allowing_more_is_monotone ALLOW_DOUBLE_TERMINATE 36 doubled_log []). reflexivity.
Defined.

(** *** Almost everything allowed *)
Section almost_all.
Variable a : Z.
Hypothesis Hall : allows a ALLOW_ALMOST_ALL = true.
Hypothesis Hrun : allows a ALLOW_RUN_AFTER_TERM = false.

Lemma complain_no_error bad idStr what n allowed tolerated o : allowed = true -> tolerated <> EVENT_ERROR ->
  o.2 <> EVENT_ERROR -> (complain bad idStr what n allowed tolerated o).2 <> EVENT_ERROR.
Proof. intros -> Ht Ho. rewrite complain_result. by destruct bad. Qed.
Ltac allowed := unfold end_count_allowed, AllowAlmostAll, AllowExtraAborts, AllowGarbage, AllowExecSubmit,
  AllowDoubleTerm, AllowDuplicates; rewrite ?Hall; cbn [orb]; rewrite ?orb_true_r; repeat apply complain_no_error; done.

Lemma submit_no_error idStr i o : o.2 <> EVENT_ERROR -> (CheckJobSubmit a idStr i o).2 <> EVENT_ERROR.
Proof. intros Ho. unfold CheckJobSubmit. allowed. Qed.
Lemma end_no_error idStr i o : o.2 <> EVENT_ERROR -> (CheckJobEnd a idStr i o).2 <> EVENT_ERROR.
Proof. intros Ho. unfold CheckJobEnd. allowed. Qed.
Lemma post_no_error idStr id i o : o.2 <> EVENT_ERROR -> (CheckPostTerm a idStr id i o).2 <> EVENT_ERROR.
Proof. intros Ho. unfold CheckPostTerm. destruct (post_without_submit id i); [done|]. allowed. Qed.
Lemma final_no_error idStr id i o : o.2 <> EVENT_ERROR -> (CheckJobFinal a idStr id i o).2 <> EVENT_ERROR.
Proof.
  intros Ho. unfold CheckJobFinal. destruct (post_without_submit id i); [done|].
  destruct (negb (_subproc id =? 0)); [done|]. allowed.
Qed.
Lemma all_jobs_no_error m : forall msg full result, result <> EVENT_ERROR ->
  (all_jobs_loop a m msg full result).2 <> EVENT_ERROR.
Proof.
  induction m as [|[id i] m IH]; intros msg full result Hr; [done|]. cbn [all_jobs_loop].
  pose proof (final_no_error (id_text id) id i ([], result) Hr) as Hf.
  destruct (CheckJobFinal a (id_text id) id i ([], result)) as [tmp result']. by apply IH.
Qed.
Lemma execute_error idStr i : (CheckJobExecute a idStr i ([], EVENT_OKAY)).2 = EVENT_ERROR <-> TotalEndCount i <> 0.
Proof.
  unfold CheckJobExecute. rewrite !complain_result. unfold AllowExtraRuns, AllowExecSubmit. rewrite Hrun, Hall. cbn [orb snd].
  destruct (Z.eqb_spec (TotalEndCount i) 0) as [E|E]; cbn [negb]; [|tauto].
  split; [by destruct (submitCount i <? 1)|tauto].
Qed.
End almost_all.

(** when almost everything is allowed, the only error is execution after an end: an event
    is an error if and only if it is an execution of a job that has ended before, and
    [CheckAllJobs] finds no error. *)
Theorem almost_all_allowed a e m : allows a ALLOW_ALMOST_ALL = true -> allows a ALLOW_RUN_AFTER_TERM = false ->
  jobs_ok m ->
  ((CheckAnEvent a e m).1.2 = EVENT_ERROR <->
    eventNumber e = ULOG_EXECUTE /\ TotalEndCount (job_info (event_id e) m) <> 0) /\
  (CheckAllJobs a m).2 <> EVENT_ERROR.
Proof.
  intros Hall Hrun Hm. split; [|by apply all_jobs_no_error].
  destruct (CheckAnEvent_info a e m Hm) as [_ Hi]. specialize (Hi (event_id e)). rewrite decide_True in Hi by done.
  rewrite CheckAnEvent_jobs in Hi. unfold CheckAnEvent. cbn zeta. rewrite Hi.
  assert (Hno : forall P Q : Prop, ~ P -> ~ Q -> (P <-> Q)) by tauto.
  destruct (eventNumber e) eqn:En; cbn [fst];
    try (apply Hno; [by (apply submit_no_error || apply end_no_error || apply post_no_error)|by intros [? _]]);
    try (apply Hno; [done|by intros [? _]]).
  rewrite execute_error by done. destruct (job_info (event_id e) m). tauto.
Qed.
Lemma almost_all_allowed_witness :
  let m := (check_events ALLOW_NONE (take 2 doubled_log) []).2 in
  ((CheckAnEvent ALLOW_ALMOST_ALL (mk_event (job_id 5) ULOG_EXECUTE) m).1.2 = EVENT_ERROR <->
    ULOG_EXECUTE = ULOG_EXECUTE /\ TotalEndCount (job_info (job_id 5) m) <> 0) /\
  (CheckAllJobs ALLOW_ALMOST_ALL m).2 <> EVENT_ERROR.
Proof.
  apply (almost_all_allowed ALLOW_ALMOST_ALL (mk_event (job_id 5) ULOG_EXECUTE)); [reflexivity|reflexivity|].
  vm_compute. repeat constructor.
Defined.

(** ** Corners *)

(** A tolerated problem hides an error found before it: a job that executes without a submit
    after it ended is only a bad event when runs after the end are allowed. *)
Lemma error_overwritten :
  let m := job_change (job_id 5) (count_event ULOG_JOB_TERMINATED) [] in
  submitCount (job_info (job_id 5) m) = 0 /\
  (CheckAnEvent ALLOW_RUN_AFTER_TERM (mk_event (job_id 5) ULOG_EXECUTE) m).1.2 = EVENT_BAD_EVENT /\
  (CheckAnEvent ALLOW_RUN_AFTER_TERM (mk_event (job_id 5) ULOG_EXECUTE) []).1.2 = EVENT_ERROR.
Proof. vm_compute. split_and!; reflexivity. Qed.
(** A job that is submitted and then has an executable error has not ended, and with an abort
    after it (which the code expects) it has. The header counts the error as the end. *)
Lemma executable_error_is_no_end :
  let events := [mk_event (job_id 5) ULOG_SUBMIT; mk_event (job_id 5) ULOG_EXECUTABLE_ERROR] in
  let check l := let r := check_events ALLOW_NONE l [] in (r.1.*2, (CheckAllJobs ALLOW_NONE r.2).2) in
  check events = ([EVENT_OKAY; EVENT_OKAY], EVENT_ERROR) /\
  check (events ++ [mk_event (job_id 5) ULOG_JOB_ABORTED]) = ([EVENT_OKAY; EVENT_OKAY; EVENT_OKAY], EVENT_OKAY).
Proof. vm_compute. split; reflexivity. Qed.
(** The same over the jobs: the result is that of the last job with a problem. *)
Lemma last_job_decides :
  let m := [(job_id 1, mk_JobInfo 2 0 0 1 0); (job_id 2, mk_JobInfo 0 0 0 1 0)] in
  (CheckAllJobs ALLOW_GARBAGE (take 1 m)).2 = EVENT_ERROR /\ (CheckAllJobs ALLOW_GARBAGE m).2 = EVENT_BAD_EVENT.
Proof. vm_compute. split; reflexivity. Qed.
