(* ===== verification/HashTable.v ===== *)
(** * The chained hash table ([condor_utils/HashTable.h], [HashTable.cpp])

    A table of buckets with a chain of entries each, one cursor of its own and any number
    of registered iterators. A node of a chain is named by its key (a key has at most one
    node), so a pointer to a node is [option K]; dereferencing a pointer to a node that
    was deleted has no outcome ([None]). *)
From Stdlib Require Import ZArith Lia Ascii String SpecFloat.
From stdpp Require Import base list gmap strings.
From S2P Require Import Prelude Double.

(** [hashFunction] of a C string, in [size_t]. *)
Fixpoint hash_loop (i : Z) (key : string) : Z :=
  match key with
  | EmptyString => i
  | String c key' => hash_loop ((i + Z.shiftl i 5 + Z.of_N (N_of_ascii c)) mod two64) key'
  end.
Definition hashFunction (key : string) : Z := hash_loop 0 (c_str key).

(** [*p & ~0x20] for [YourStringNoCase]. *)
Fixpoint hash_nocase_loop (i : Z) (key : string) : Z :=
  match key with
  | EmptyString => i
  | String c key' =>
      hash_nocase_loop ((i + Z.shiftl i 5 + Z.land (Z.of_N (N_of_ascii c)) 223) mod two64) key'
  end.
Definition hashFunction_nocase (key : string) : Z := hash_nocase_loop 0 (c_str key).

(** A position in the chains: the bucket and the node. *)
Record HashIterator (K : Type) := mk_iterator { m_idx : Z; m_cur : option K }.
Arguments mk_iterator {K}.
Arguments m_idx {K}.
Arguments m_cur {K}.

Record HashTable (K V : Type) := mk_HashTable {
  tableSize : Z;
  numElems : Z;
  ht : list (list (K * V));
  currentBucket : Z;
  currentItem : option K;
  activeIterators : list (nat * HashIterator K)
}.
Arguments mk_HashTable {K V}.
Arguments tableSize {K V}.
Arguments numElems {K V}.
Arguments ht {K V}.
Arguments currentBucket {K V}.
Arguments currentItem {K V}.
Arguments activeIterators {K V}.

(** The default table density, 0.8. *)
Definition maxLoadFactor : double := S754_finite false 7205759403792794 (-53).

Section chain.
Context {K V : Type} `{EqDecision K}.

(** The value filed under [k] in a chain. *)
Fixpoint chain_lookup (k : K) (l : list (K * V)) : option V :=
  match l with
  | [] => None
  | (k', v) :: l' => if decide (k' = k) then Some v else chain_lookup k l'
  end.
(** [bucket->value = value] *)
Fixpoint chain_update (k : K) (v : V) (l : list (K * V)) : list (K * V) :=
  match l with
  | [] => []
  | (k', v') :: l' => if decide (k' = k) then (k, v) :: l' else (k', v') :: chain_update k v l'
  end.
(** The chain without the node of [k]. *)
Fixpoint chain_unlink (k : K) (l : list (K * V)) : list (K * V) :=
  match l with
  | [] => []
  | (k', v) :: l' => if decide (k' = k) then l' else (k', v) :: chain_unlink k l'
  end.
(** [prevBuc] when the loop reaches [k]: the node before, none for the first. *)
Fixpoint chain_prev (prev : option K) (k : K) (l : list (K * V)) : option K :=
  match l with
  | [] => prev
  | (k', v) :: l' => if decide (k' = k) then prev else chain_prev (Some k') k l'
  end.
(** The nodes that follow [k], none if [k] is not in the chain. *)
Fixpoint chain_after (k : K) (l : list (K * V)) : option (list (K * V)) :=
  match l with
  | [] => None
  | (k', _) :: l' => if decide (k' = k) then Some l' else chain_after k l'
  end.

(** The first bucket that is not empty, [i] being the index of the first one. *)
Fixpoint first_full (i : Z) (l : list (list (K * V))) : option (Z * (K * V)) :=
  match l with
  | [] => None
  | [] :: l' => first_full (i + 1) l'
  | (kv :: _) :: _ => Some (i, kv)
  end.
End chain.

Section table.
Context {K V : Type} `{EqDecision K}.
(** [hashfcn], the user-provided hash function. *)
Variable hashfcn : K -> Z.

Abbreviation table := (HashTable K V).

Definition new_HashTable : table := mk_HashTable 7 0 (replicate 7 []) (-1) None [].

Definition set_chains (chains : list (list (K * V))) (n : Z) (t : table) : table :=
  mk_HashTable (tableSize t) n chains (currentBucket t) (currentItem t) (activeIterators t).
Definition set_cursor (b : Z) (c : option K) (t : table) : table :=
  mk_HashTable (tableSize t) (numElems t) (ht t) b c (activeIterators t).
Definition set_iterators (its : list (nat * HashIterator K)) (t : table) : table :=
  mk_HashTable (tableSize t) (numElems t) (ht t) (currentBucket t) (currentItem t) its.

(** [hashfcn(index) % tableSize], as the index of a bucket. *)
Definition bucket_of (size : Z) (k : K) : nat := Z.to_nat (hashfcn k mod size).
Definition chain_at (t : table) (i : nat) : list (K * V) := nth i (ht t) [].
Definition chain_of (t : table) (k : K) : list (K * V) := chain_at t (bucket_of (tableSize t) k).

(** ** Resizing *)
Definition needs_resizing (t : table) : bool :=
  match activeIterators t with
  | _ :: _ => false
  | [] => d_leb maxLoadFactor (d_div (d_of_Z (numElems t)) (d_of_Z (tableSize t)))
  end.

(** A node put in front of its bucket. *)
Definition push (size : Z) (chains : list (list (K * V))) (kv : K * V) : list (list (K * V)) :=
  let i := bucket_of size kv.1 in <[i := kv :: nth i chains []]> chains.

Definition resize_hash_table (newsize : Z) (t : table) : table :=
  let newsize := if newsize <=? 0 then (tableSize t + 1) * 2 - 1 else newsize in
  mk_HashTable newsize (numElems t)
    (foldl (push newsize) (replicate (Z.to_nat newsize) []) (concat (ht t))) (-1) None (activeIterators t).

(** ** Entries *)
Definition insert (k : K) (v : V) (update : bool) (t : table) : table * Z :=
  let i := bucket_of (tableSize t) k in
  match chain_lookup k (chain_at t i) with
  | Some _ =>
      if update then (set_chains (<[i := chain_update k v (chain_at t i)]> (ht t)) (numElems t) t, 0)
      else (t, -1)
  | None =>
      let t1 := set_chains (push (tableSize t) (ht t) (k, v)) (numElems t + 1) t in
      (if needs_resizing t1 then resize_hash_table (-1) t1 else t1, 0)
  end.

(** [lookup]: the value, none for -1. *)
Definition lookup (k : K) (t : table) : option V :=
  if numElems t =? 0 then None else chain_lookup k (chain_of t k).
Definition exists_key (k : K) (t : table) : Z :=
  if numElems t =? 0 then -1
  else match chain_lookup k (chain_of t k) with Some _ => 0 | None => -1 end.

(** ** Iterators *)

(** The node [advance] moves to from the end of the bucket [i]. *)
Definition next_full (t : table) (i : Z) : option (Z * (K * V)) :=
  first_full (i + 1) (drop (Z.to_nat (i + 1)) (ht t)).
Definition at_node (o : option (Z * (K * V))) : HashIterator K :=
  match o with
  | Some (i, kv) => mk_iterator i (Some kv.1)
  | None => mk_iterator (-1) None
  end.

Definition advance (t : table) (it : HashIterator K) : option (HashIterator K) :=
  if m_idx it =? -1 then Some it
  else match m_cur it with
  | None => Some (at_node (next_full t (m_idx it)))
  | Some k =>
      rest ← chain_after k (chain_at t (Z.to_nat (m_idx it)));
      Some match rest with
           | kv :: _ => mk_iterator (m_idx it) (Some kv.1)
           | [] => at_node (next_full t (m_idx it))
           end
  end.

(** [begin ()] makes an iterator and registers it; [name] is its address. *)
Definition begin (name : nat) (t : table) : table :=
  set_iterators (activeIterators t ++ [(name, at_node (first_full 0 (ht t)))]) t.

(** [remove_iterator], which the destructor of an iterator calls. *)
Fixpoint erase_iterator (name : nat) (l : list (nat * HashIterator K)) : list (nat * HashIterator K) :=
  match l with
  | [] => []
  | x :: l' => if decide (x.1 = name) then l' else x :: erase_iterator name l'
  end.
Definition remove_iterator (name : nat) (t : table) : table :=
  let t1 := set_iterators (erase_iterator name (activeIterators t)) t in
  if needs_resizing t1 then resize_hash_table (-1) t1 else t1.

(** The iterators that point to the node of [k] move on; they still see its [next]. *)
Fixpoint advance_from (k : K) (t : table) (l : list (nat * HashIterator K))
  : option (list (nat * HashIterator K)) :=
  match l with
  | [] => Some []
  | (name, it) :: l' =>
      it' ← (if decide (m_cur it = Some k) then advance t it else Some it);
      rest ← advance_from k t l';
      Some ((name, it') :: rest)
  end.

(** ** Removal *)
Definition remove (k : K) (t : table) : option (table * Z) :=
  let i := bucket_of (tableSize t) k in
  let chain := chain_at t i in
  match chain_lookup k chain with
  | None => Some (t, -1)
  | Some _ =>
      let t1 :=
        if decide (currentItem t = Some k) then
          match chain_prev None k chain with
          | None =>
              set_cursor (if currentBucket t - 1 <? 0 then -1 else currentBucket t - 1) None t
          | Some prevBuc => set_cursor (currentBucket t) (Some prevBuc) t
          end
        else t in
      its ← advance_from k t (activeIterators t);
      Some (set_chains (<[i := chain_unlink k chain]> (ht t1)) (numElems t - 1) (set_iterators its t1), 0)
  end.

(** [clear] leaves the cursor as it is. *)
Definition clear (t : table) : table :=
  mk_HashTable (tableSize t) 0 (replicate (length (ht t)) []) (currentBucket t) (currentItem t)
    ((fun x => (x.1, mk_iterator (-1) None)) <$> activeIterators t).

(** [copy_deep]: the cursor's node is found again in the copied chains. *)
Definition copy_deep (t : table) : table :=
  mk_HashTable (tableSize t) (numElems t) (ht t) (currentBucket t)
    (k ← currentItem t; if decide (k ∈ (concat (ht t)).*1) then Some k else None) [].

(** ** The cursor of the table *)
Definition startIterations (t : table) : table := set_cursor (-1) None t.

(** The end of the chain of the current bucket is reached: go on to the next one. *)
Definition next_bucket (t : table) : table * option (K * V) :=
  match next_full t (currentBucket t) with
  | Some (b, kv) => (set_cursor b (Some kv.1) t, Some kv)
  | None => (set_cursor (-1) None t, None)
  end.

(** [iterate]: the next entry, none for the result 0. *)
Definition iterate (t : table) : option (table * option (K * V)) :=
  match currentItem t with
  | Some k =>
      rest ← chain_after k (chain_at t (Z.to_nat (currentBucket t)));
      Some match rest with
           | kv :: _ => (set_cursor (currentBucket t) (Some kv.1) t, Some kv)
           | [] => next_bucket t
           end
  | None => Some (next_bucket t)
  end.

Definition getCurrentKey (t : table) : option K := currentItem t.

(** [iterate_stats]: the bucket and the rank in its chain of the next entry. *)
Definition iterate_stats (ix_bucket ix_item : Z) (t : table) : option (table * (Z * Z) * Z) :=
  let next := match next_full t (currentBucket t) with
              | Some (b, kv) => (set_cursor b (Some kv.1) t, (b, 0), 1)
              | None => (set_cursor (-1) None t, (-1, tableSize t), 0)
              end in
  match currentItem t with
  | Some k =>
      rest ← chain_after k (chain_at t (Z.to_nat (currentBucket t)));
      Some match rest with
           | kv :: _ => (set_cursor (currentBucket t) (Some kv.1) t, (ix_bucket, ix_item + 1), 1)
           | [] => next
           end
  | None => Some next
  end.

(** All the entries in the order of a walk. *)
Definition walk_entries (t : table) : list (K * V) := concat (ht t).
End table.

Arguments new_HashTable {K V}.
