(* ===== verification/HashTableFacts.v ===== *)
(** * The hash table: its invariant, and what every operation does to its entries

    Every entry is in the bucket of its key and no key has two; the entries, whatever their
    chains, are those of a finite map. *)
From Stdlib Require Import ZArith Lia Ascii String.
From stdpp Require Import base list gmap strings.
From S2P Require Import Prelude Double HashTable.

(** ** Chains *)
Section chains.
Context {K V : Type} `{Countable K}.
Implicit Types (l : list (K * V)) (k : K) (v : V).

Lemma chain_lookup_map l k : chain_lookup k l = (list_to_map l : gmap K V) !! k.
Proof.
  induction l as [|[k' v] l IH]; simpl; [done|]. case_decide as Hk.
  - subst. by rewrite lookup_insert_eq.
  - by rewrite lookup_insert_ne.
Qed.

Lemma chain_lookup_None l k : chain_lookup k l = None <-> k ∉ l.*1.
Proof. rewrite chain_lookup_map. symmetry. apply not_elem_of_list_to_map. Qed.

Lemma chain_lookup_elem l k v : chain_lookup k l = Some v -> (k, v) ∈ l.
Proof. rewrite chain_lookup_map. apply elem_of_list_to_map_2. Qed.

(** A chain around one of its nodes. *)
Lemma chain_split l k v : chain_lookup k l = Some v ->
  exists l1 l2, l = l1 ++ (k, v) :: l2 /\ k ∉ l1.*1.
Proof.
  induction l as [|[k' v'] l IH]; simpl; [done|]. case_decide as Hk.
  - intros [= ->]. subst. exists [], l. split; [done|apply not_elem_of_nil].
  - intros (l1&l2&->&Hn)%IH. exists ((k', v') :: l1), l2. split; [done|]. set_solver.
Qed.

Lemma chain_split_ops l1 l2 k v w prev : k ∉ l1.*1 ->
  chain_update k w (l1 ++ (k, v) :: l2) = l1 ++ (k, w) :: l2 /\
  chain_unlink k (l1 ++ (k, v) :: l2) = l1 ++ l2 /\
  chain_prev prev k (l1 ++ (k, v) :: l2) = (match last l1 with Some kv => Some kv.1 | None => prev end) /\
  chain_after k (l1 ++ (k, v) :: l2) = Some l2.
Proof.
  revert prev. induction l1 as [|[k' v'] l1 IH]; intros prev Hn; simpl; [by rewrite !decide_True|].
  rewrite !decide_False by set_solver. specialize (IH (Some k')).
  destruct IH as (->&->&E&->); [set_solver|]. rewrite E. split_and!; try done.
  change (last (_ :: l1)) with (last ((k', v') :: l1)). rewrite last_cons. by destruct (last l1).
Qed.

Lemma elem_of_concat (chains : list (list (K * V))) kv : kv ∈ concat chains <-> exists c, kv ∈ c /\ c ∈ chains.
Proof.
  rewrite list_elem_of_In, in_concat. setoid_rewrite list_elem_of_In. firstorder.
Qed.

(** Replacing one bucket, seen on all the entries. *)
Lemma concat_insert (chains : list (list (K * V))) i c : chains !! i = Some c ->
  exists a b, concat chains = a ++ c ++ b /\ forall c', concat (<[i := c']> chains) = a ++ c' ++ b.
Proof.
  intros Hi. exists (concat (take i chains)), (concat (drop (S i) chains)). split.
  - rewrite <- (take_drop_middle _ _ _ Hi) at 1. by rewrite concat_app.
  - intros c'. rewrite insert_take_drop by (by eapply lookup_lt_Some). by rewrite concat_app.
Qed.

Lemma first_full_None i (chains : list (list (K * V))) :
  first_full i chains = None <-> concat chains = [].
Proof.
  revert i. induction chains as [|[|kv c] chains IH]; intros i; simpl; [done|apply IH|done].
Qed.

Lemma first_full_Some i (chains : list (list (K * V))) b kv :
  first_full i chains = Some (b, kv) ->
  exists j c, b = i + Z.of_nat j /\ chains !! j = Some (kv :: c) /\ concat (take j chains) = [].
Proof.
  revert i. induction chains as [|[|kv' c] chains IH]; intros i; simpl; [done| |].
  - intros (j&c&->&Hj&Hc)%IH. exists (S j), c. split; [lia|]. split; [done|]. by simpl.
  - intros [= <- <-]. exists 0%nat, c. split; [lia|done].
Qed.
End chains.

(** ** The invariant *)
Section facts.
Context {K V : Type} `{Countable K}.
Variable hashfcn : K -> Z.
Implicit Types (t : HashTable K V) (k : K) (v : V) (kv : K * V) (chains : list (list (K * V))).

Definition entries t : list (K * V) := concat (ht t).
Definition to_map t : gmap K V := list_to_map (entries t).

Definition in_bucket (size : Z) (chains : list (list (K * V))) : Prop :=
  forall i c, chains !! i = Some c -> Forall (fun kv => bucket_of hashfcn size kv.1 = i) c.

Record ht_ok t : Prop := {
  ok_size : 0 < tableSize t;
  ok_length : length (ht t) = Z.to_nat (tableSize t);
  ok_bucket : in_bucket (tableSize t) (ht t);
  ok_keys : NoDup (entries t).*1;
  ok_count : numElems t = Z.of_nat (length (entries t))
}.

Lemma bucket_of_lt size k : 0 < size -> (bucket_of hashfcn size k < Z.to_nat size)%nat.
Proof. intros Hs. unfold bucket_of. pose proof (Z.mod_pos_bound (hashfcn k) size Hs). lia. Qed.

Lemma chain_of_lookup t k : ht_ok t ->
  ht t !! bucket_of hashfcn (tableSize t) k = Some (chain_of hashfcn t k).
Proof.
  intros Hok. unfold chain_of, chain_at. rewrite nth_lookup.
  destruct (lookup_lt_is_Some_2 (ht t) (bucket_of hashfcn (tableSize t) k)) as [c ->]; [|done].
  rewrite (ok_length _ Hok). apply bucket_of_lt, Hok.
Qed.

Lemma elem_of_entries t kv : ht_ok t -> kv ∈ entries t <-> kv ∈ chain_of hashfcn t kv.1.
Proof.
  intros Hok. unfold entries. rewrite elem_of_concat. split.
  - intros (c&Hkv&[i Hi]%list_elem_of_lookup).
    pose proof (ok_bucket _ Hok _ _ Hi) as Hc. rewrite Forall_forall in Hc.
    pose proof (chain_of_lookup t kv.1 Hok) as Hl. rewrite (Hc _ Hkv), Hi in Hl. by injection Hl as <-.
  - intros Hkv. eexists. split; [exact Hkv|].
    eapply list_elem_of_lookup_2. by apply chain_of_lookup.
Qed.

Lemma chain_keys t k : ht_ok t -> NoDup (chain_of hashfcn t k).*1.
Proof.
  intros Hok. pose proof (ok_keys _ Hok) as Hk. unfold entries in Hk.
  destruct (concat_insert _ _ _ (chain_of_lookup t k Hok)) as (a&b&E&_).
  rewrite E, !fmap_app, !NoDup_app in Hk. tauto.
Qed.

Lemma chain_lookup_to_map t k : ht_ok t -> chain_lookup k (chain_of hashfcn t k) = to_map t !! k.
Proof.
  intros Hok. apply option_eq. intros v. rewrite chain_lookup_map.
  unfold to_map. rewrite <- !elem_of_list_to_map by (by apply chain_keys || apply Hok).
  by rewrite (elem_of_entries t (k, v)).
Qed.

Lemma lookup_to_map t k : ht_ok t -> HashTable.lookup hashfcn k t = to_map t !! k.
Proof.
  intros Hok. unfold HashTable.lookup. case_match eqn:E; [|by apply chain_lookup_to_map].
  rewrite (ok_count _ Hok) in E. unfold to_map. destruct (entries t) as [|kv l]; [done|]. simpl in E. lia.
Qed.

(** Permuted entries are the same map. *)
Lemma to_map_perm t l : ht_ok t -> entries t ≡ₚ l -> to_map t = list_to_map l.
Proof. intros Hok Hp. apply list_to_map_proper; [apply Hok|done]. Qed.

Lemma ht_ok_set_cursor t b c : ht_ok t -> ht_ok (set_cursor b c t).
Proof. by intros []. Qed.
Lemma ht_ok_set_iterators t its : ht_ok t -> ht_ok (set_iterators its t).
Proof. by intros []. Qed.

(** ** Pushing *)
Lemma push_length size chains kv : length (push hashfcn size chains kv) = length chains.
Proof. apply length_insert. Qed.

Lemma push_lookup size chains kv : 0 < size -> length chains = Z.to_nat size ->
  let i := bucket_of hashfcn size kv.1 in chains !! i = Some (nth i chains []).
Proof.
  intros Hs Hl i. rewrite nth_lookup. destruct (lookup_lt_is_Some_2 chains i) as [c ->]; [|done].
  rewrite Hl. by apply bucket_of_lt.
Qed.

Lemma push_entries size chains kv : 0 < size -> length chains = Z.to_nat size ->
  concat (push hashfcn size chains kv) ≡ₚ kv :: concat chains.
Proof.
  intros Hs Hl. destruct (concat_insert _ _ _ (push_lookup size chains kv Hs Hl)) as (a&b&->&E).
  unfold push. rewrite E. cbn [app]. by rewrite <- Permutation_middle.
Qed.

Lemma push_in_bucket size chains kv : 0 < size -> length chains = Z.to_nat size ->
  in_bucket size chains -> in_bucket size (push hashfcn size chains kv).
Proof.
  intros Hs Hl Hb j c. unfold push.
  intros [(<-&<-&?)|(Hne&?)]%list_lookup_insert_Some; [|by apply Hb].
  constructor; [done|]. eapply Hb. by apply push_lookup.
Qed.

(** ** Resizing *)
Lemma rehash_ok size l chains : 0 < size -> length chains = Z.to_nat size -> in_bucket size chains ->
  let chains' := foldl (push hashfcn size) chains l in
  length chains' = Z.to_nat size /\ in_bucket size chains' /\ concat chains' ≡ₚ l ++ concat chains.
Proof.
  intros Hs. revert chains. induction l as [|kv l IH]; intros chains Hl Hb; [done|]. cbn [foldl].
  destruct (IH (push hashfcn size chains kv)) as (?&?&Hp);
    [by rewrite push_length|by apply push_in_bucket|]. split_and!; [done..|].
  rewrite Hp, push_entries by done. by rewrite <- Permutation_middle.
Qed.

Lemma concat_replicate_nil n : concat (replicate n ([] : list (K * V))) = [].
Proof. induction n; simpl; done. Qed.
Lemma in_bucket_empty size n : in_bucket size (replicate n []).
Proof. intros i c [-> _]%lookup_replicate. constructor. Qed.

Lemma resize_ok t newsize : ht_ok t ->
  ht_ok (resize_hash_table hashfcn newsize t) /\ entries (resize_hash_table hashfcn newsize t) ≡ₚ entries t.
Proof.
  intros Hok. unfold resize_hash_table.
  set (size := if newsize <=? 0 then (tableSize t + 1) * 2 - 1 else newsize).
  assert (Hs : 0 < size) by (unfold size; pose proof (ok_size _ Hok); case_match; lia).
  destruct (rehash_ok size (entries t) (replicate (Z.to_nat size) []) Hs) as (Hl&Hb&Hp);
    [apply length_replicate|apply in_bucket_empty|].
  rewrite concat_replicate_nil, app_nil_r in Hp. split; [|exact Hp].
  constructor; simpl; [done..| |]; unfold entries in *; simpl.
  - rewrite Hp. apply Hok.
  - rewrite Hp. apply Hok.
Qed.

Lemma grow_ok t : ht_ok t -> let t' := if needs_resizing t then resize_hash_table hashfcn (-1) t else t in
  ht_ok t' /\ entries t' ≡ₚ entries t.
Proof. intros Hok. destruct (needs_resizing t); simpl; [by apply resize_ok|done]. Qed.

(** ** Insertion *)

(** All the entries around the one of [k]. *)
Lemma entries_split t k v : ht_ok t -> to_map t !! k = Some v ->
  exists a b l1 l2, chain_of hashfcn t k = l1 ++ (k, v) :: l2 /\ k ∉ l1.*1 /\
    entries t = a ++ (l1 ++ (k, v) :: l2) ++ b /\
    (forall c, concat (<[bucket_of hashfcn (tableSize t) k := c]> (ht t)) = a ++ c ++ b).
Proof.
  intros Hok Hk. rewrite <- chain_lookup_to_map in Hk by done.
  destruct (chain_split _ _ _ Hk) as (l1&l2&E&Hn).
  destruct (concat_insert _ _ _ (chain_of_lookup t k Hok)) as (a&b&Ea&Hb).
  exists a, b, l1, l2. rewrite <- E. done.
Qed.

Lemma to_map_None t k : ht_ok t -> to_map t !! k = None <-> k ∉ (entries t).*1.
Proof. intros Hok. symmetry. apply not_elem_of_list_to_map. Qed.

Lemma insert_ok t k v update : ht_ok t ->
  let '(t', r) := insert hashfcn k v update t in
  ht_ok t' /\
  (to_map t', r) = match to_map t !! k with
                   | Some _ => if update then (<[k := v]> (to_map t), 0) else (to_map t, -1)
                   | None => (<[k := v]> (to_map t), 0)
                   end.
Proof.
  intros Hok. unfold insert. fold (chain_of hashfcn t k). rewrite chain_lookup_to_map by done.
  destruct (to_map t !! k) as [v0|] eqn:Hk.
  - destruct update; [|done].
    destruct (entries_split t k v0 Hok Hk) as (a&b&l1&l2&Ec&Hn&Ee&Hb).
    destruct (chain_split_ops l1 l2 k v0 v None Hn) as (Hu&_). rewrite Ec, Hu.
    set (t' := set_chains _ _ t).
    assert (Ee' : entries t' = a ++ (l1 ++ (k, v) :: l2) ++ b) by apply Hb.
    assert (Hok' : ht_ok t').
    { pose proof Hok as [Hs Hl Hin Hnd Hc]. constructor; [done|simpl; by rewrite length_insert| | |].
      - intros i c. simpl. intros [(<-&<-&?)|(?&?)]%list_lookup_insert_Some; [|by apply Hin].
        pose proof (Hin _ _ (chain_of_lookup t k Hok)) as Hf. rewrite Ec in Hf.
        rewrite !Forall_app, !Forall_cons in *. tauto.
      - rewrite Ee'. rewrite Ee in Hnd. by rewrite !fmap_app, !fmap_cons in *.
      - rewrite Ee'. simpl. rewrite Hc, Ee. by rewrite !length_app. }
    split; [done|]. f_equal.
    rewrite (to_map_perm t' ((k, v) :: a ++ (l1 ++ l2) ++ b)) by (done || rewrite Ee'; solve_Permutation).
    rewrite (to_map_perm t ((k, v0) :: a ++ (l1 ++ l2) ++ b)) by (done || rewrite Ee; solve_Permutation).
    simpl. by rewrite insert_insert_eq.
  - set (t1 := set_chains _ _ t). pose proof Hk as Hnk. rewrite to_map_None in Hnk by done.
    assert (Hp : entries t1 ≡ₚ (k, v) :: entries t) by (apply push_entries; apply Hok).
    assert (Hok1 : ht_ok t1).
    { pose proof Hok as [Hs Hl Hin Hnd Hc]. constructor; simpl; [done|by rewrite push_length| | |].
      - by apply push_in_bucket.
      - rewrite Hp. simpl. by constructor.
      - rewrite Hp, Hc. simpl. lia. }
    destruct (grow_ok t1 Hok1) as [Hok2 Hp2]. split; [done|]. f_equal.
    rewrite (to_map_perm _ ((k, v) :: entries t)) by (done || by rewrite Hp2). done.
Qed.

(** ** Removal *)

(** The entries of the other keys. *)
Definition keep k : list (K * V) -> list (K * V) := filter (fun kv => kv.1 <> k).

Lemma keep_cons_eq k v l : keep k ((k, v) :: l) = keep k l.
Proof. unfold keep. by rewrite filter_cons_False by (simpl; auto). Qed.
Lemma keep_cons_ne k kv l : kv.1 <> k -> keep k (kv :: l) = kv :: keep k l.
Proof. intros. unfold keep. by rewrite filter_cons_True. Qed.
Lemma keep_id k l : k ∉ l.*1 -> keep k l = l.
Proof.
  induction l as [|[k' v] l IH]; [done|]. intros Hn.
  rewrite keep_cons_ne by (simpl; set_solver). f_equal. apply IH. set_solver.
Qed.
Lemma keep_app k l1 l2 : keep k (l1 ++ l2) = keep k l1 ++ keep k l2.
Proof. apply filter_app. Qed.
Lemma keep_concat k chains : keep k (concat chains) = concat (keep k <$> chains).
Proof. induction chains as [|c chains IH]; simpl; [done|]. by rewrite keep_app, IH. Qed.
Lemma keep_keys_NoDup k l : NoDup l.*1 -> NoDup (keep k l).*1.
Proof. intros Hd. exact (sublist_NoDup _ _ Hd (fmap_sublist _ _ _ (sublist_filter _ _))). Qed.

Lemma keep_map k l : (list_to_map (keep k l) : gmap K V) = delete k (list_to_map l).
Proof.
  induction l as [|[k' v] l IH]; simpl; [by rewrite delete_empty|].
  destruct (decide (k' = k)) as [->|Hne].
  - by rewrite keep_cons_eq, IH, delete_insert_eq.
  - by rewrite keep_cons_ne, delete_insert_ne, <- IH by done.
Qed.

Lemma unlink_keep k l : NoDup l.*1 -> chain_unlink k l = keep k l.
Proof.
  induction l as [|[k' v] l IH]; simpl; [done|]. intros [Hn Hd]%NoDup_cons. case_decide as Hk.
  - subst. by rewrite keep_cons_eq, keep_id.
  - by rewrite keep_cons_ne, IH.
Qed.

(** Unlinking a node from its bucket removes it from all the buckets. *)
Lemma unlink_bucket t k : ht_ok t ->
  <[bucket_of hashfcn (tableSize t) k := chain_unlink k (chain_of hashfcn t k)]> (ht t) = keep k <$> ht t.
Proof.
  intros Hok. apply list_eq. intros j. rewrite list_lookup_fmap.
  destruct (decide (bucket_of hashfcn (tableSize t) k = j)) as [<-|Hne].
  - rewrite list_lookup_insert_eq by (eapply lookup_lt_Some; by apply chain_of_lookup).
    rewrite chain_of_lookup by done. simpl. by rewrite unlink_keep by (by apply chain_keys).
  - rewrite list_lookup_insert_ne by done. destruct (ht t !! j) as [c|] eqn:Hj; [|done]. simpl.
    rewrite keep_id; [done|]. intros (kv&->&Hkv)%list_elem_of_fmap.
    pose proof (ok_bucket _ Hok _ _ Hj) as Hf. rewrite Forall_forall in Hf. by apply Hne, Hf.
Qed.
End facts.
