(* ===== verification/HashTableLaws.v ===== *)
(** * The hash table refines a finite map, and walks survive removals

    What is left of a walk is a list of entries; removing a key takes it out of every such
    list, so that a walk, or an iterator, sees every other entry exactly once. *)
From Stdlib Require Import ZArith Lia Ascii String.
From stdpp Require Import base list gmap strings.
From S2P Require Import Prelude Double HashTable HashTableFacts.

(** ** What is left of a walk *)
Section walks.
Context {K V : Type} `{Countable K}.
Variable hashfcn : K -> Z.
Implicit Types (t : HashTable K V) (k : K) (v : V) (kv : K * V) (chains : list (list (K * V))).

(** The entries after a position. *)
Definition pos_after t (b : Z) (c : option K) : list (K * V) :=
  match c with
  | Some k => default [] (chain_after k (chain_at t (Z.to_nat b)))
  | None => []
  end ++ concat (drop (Z.to_nat (b + 1)) (ht t)).
Definition pos_ok t (b : Z) (c : option K) : Prop :=
  match c with
  | Some k => 0 <= b /\ k ∈ (chain_at t (Z.to_nat b)).*1
  | None => -1 <= b
  end.

Definition cursor_rest t := pos_after t (currentBucket t) (currentItem t).
Definition cursor_ok t := pos_ok t (currentBucket t) (currentItem t).

(** An iterator still has the entry it points to before it. *)
Definition it_rest t (it : HashIterator K) : list (K * V) :=
  match m_cur it with
  | Some k =>
      match chain_lookup k (chain_at t (Z.to_nat (m_idx it))) with
      | Some v => (k, v) :: pos_after t (m_idx it) (Some k)
      | None => []
      end
  | None => []
  end.
Definition it_ok t (it : HashIterator K) : Prop :=
  match m_cur it with
  | Some k => pos_ok t (m_idx it) (Some k)
  | None => m_idx it = -1
  end.
Definition iterators_ok t : Prop := Forall (fun x => it_ok t x.2) (activeIterators t).

Lemma chain_elem_lookup l k : k ∈ l.*1 -> exists v, chain_lookup k l = Some (v : V).
Proof.
  intros Hk. destruct (chain_lookup k l) as [v|] eqn:E; [by exists v|].
  by apply chain_lookup_None in E.
Qed.

(** A node of a chain: what its neighbours are. *)
Lemma chain_node (l : list (K * V)) k : k ∈ l.*1 -> exists v l1 l2,
  l = l1 ++ (k, v) :: l2 /\ k ∉ l1.*1 /\ chain_lookup k l = Some v /\ chain_after k l = Some l2.
Proof.
  intros [v Hv]%chain_elem_lookup. destruct (chain_split _ _ _ Hv) as (l1&l2&->&Hn).
  exists v, l1, l2. by destruct (chain_split_ops l1 l2 k v v None Hn) as (_&_&_&->).
Qed.

Lemma elem_of_mid (l1 l2 : list (K * V)) k v : k ∈ (l1 ++ (k, v) :: l2).*1.
Proof. rewrite fmap_app. apply elem_of_app. right. apply list_elem_of_here. Qed.

Lemma drop_chain t (b : Z) : 0 <= b ->
  concat (drop (Z.to_nat b) (ht t)) = chain_at t (Z.to_nat b) ++ concat (drop (Z.to_nat (b + 1)) (ht t)).
Proof.
  intros Hb. replace (Z.to_nat (b + 1)) with (S (Z.to_nat b)) by lia. unfold chain_at. rewrite nth_lookup.
  destruct (ht t !! Z.to_nat b) as [c|] eqn:E; simpl.
  - by rewrite (drop_S _ _ _ E).
  - apply lookup_ge_None in E. by rewrite !drop_ge by lia.
Qed.

(** The next bucket that is not empty. *)
Lemma next_full_rest t b : -1 <= b ->
  match concat (drop (Z.to_nat (b + 1)) (ht t)) with
  | [] => next_full t b = None
  | kv :: rest => exists b', next_full t b = Some (b', kv) /\ pos_ok t b' (Some kv.1) /\
      chain_lookup kv.1 (chain_at t (Z.to_nat b')) = Some kv.2 /\ pos_after t b' (Some kv.1) = rest
  end.
Proof.
  intros Hb. unfold next_full. set (l := drop _ _).
  destruct (first_full (b + 1) l) as [[b' kv]|] eqn:E.
  - apply first_full_Some in E as (j&c&->&Hj&Hc).
    assert (Hat : chain_at t (Z.to_nat (b + 1 + Z.of_nat j)) = kv :: c).
    { unfold chain_at. rewrite nth_lookup. unfold l in Hj. rewrite lookup_drop in Hj.
      replace (Z.to_nat (b + 1 + Z.of_nat j)) with (Z.to_nat (b + 1) + j)%nat by lia. by rewrite Hj. }
    assert (Hl : concat l = kv :: (c ++ concat (drop (S j) l))).
    { rewrite <- (take_drop_middle _ _ _ Hj) at 1. rewrite concat_app, Hc. done. }
    assert (Hd : drop (S j) l = drop (Z.to_nat (b + 1 + Z.of_nat j + 1)) (ht t)).
    { unfold l. rewrite drop_drop. f_equal. lia. }
    rewrite Hl, Hd. exists (b + 1 + Z.of_nat j). split; [done|]. unfold pos_ok, pos_after. rewrite Hat.
    destruct kv as [k v]. simpl. rewrite decide_True by done. split_and!; [lia|set_solver| |]; rewrite ?decide_True by done; try done.
  - pose proof E as E'. rewrite first_full_None in E'. by rewrite E'.
Qed.

Lemma chain_at_keys t b : ht_ok hashfcn t -> NoDup (chain_at t b).*1.
Proof.
  intros Hok. unfold chain_at. rewrite nth_lookup. destruct (ht t !! b) as [c|] eqn:E; [|constructor].
  pose proof (ok_keys _ _ Hok) as Hk. destruct (concat_insert _ _ _ E) as (x&y&Ee&_).
  unfold entries in Hk. rewrite Ee, !fmap_app, !NoDup_app in Hk. tauto.
Qed.

(** The node after a node. *)
Lemma chain_next t b k kv l2 : ht_ok hashfcn t -> chain_after k (chain_at t b) = Some (kv :: l2) ->
  kv.1 ∈ (chain_at t b).*1 /\ chain_lookup kv.1 (chain_at t b) = Some kv.2 /\
  chain_after kv.1 (chain_at t b) = Some l2.
Proof.
  intros Hok Ha. pose proof (chain_at_keys t b Hok) as Hd.
  assert (Hk : k ∈ (chain_at t b).*1).
  { apply dec_stable. intros Hn%chain_lookup_None. revert Ha Hn.
    generalize (chain_at t b). induction l as [|[k' v'] l IH]; simpl; [done|]. destruct (decide (k' = k)); [done|exact IH]. }
  destruct (chain_node _ _ Hk) as (v&l1&l2'&El&Hn&_&Ha'). rewrite Ha' in Ha. injection Ha as ->.
  rewrite El in *. destruct kv as [k2 v2].
  replace (l1 ++ (k, v) :: (k2, v2) :: l2) with ((l1 ++ [(k, v)]) ++ (k2, v2) :: l2) in * by (by rewrite <- app_assoc).
  assert (Hn2 : k2 ∉ (l1 ++ [(k, v)]).*1).
  { rewrite (fmap_app _ (l1 ++ _)), NoDup_app in Hd. destruct Hd as (_&Hd&_). intros Hin.
    apply (Hd _ Hin), list_elem_of_here. }
  destruct (chain_split_ops _ l2 k2 v2 v2 None Hn2) as (_&_&_&E). split_and!;
    [rewrite (fmap_app _ (l1 ++ _)); apply elem_of_app; right; apply list_elem_of_here| |done].
  simpl. generalize Hn2. generalize (l1 ++ [(k, v)]). induction l as [|[k' v'] l IH]; simpl; intros Hn'.
  - by rewrite decide_True.
  - rewrite decide_False by set_solver. apply IH. set_solver.
Qed.

Lemma iterate_ok t : ht_ok hashfcn t -> cursor_ok t -> exists b c,
  iterate t = Some (set_cursor b c t, head (cursor_rest t)) /\ cursor_ok (set_cursor b c t) /\
  match cursor_rest t with
  | [] => b = -1 /\ c = None
  | _ :: rest => cursor_rest (set_cursor b c t) = rest
  end.
Proof.
  intros Ht Hok. unfold cursor_ok, cursor_rest, iterate in *.
  assert (Hnext : -1 <= currentBucket t -> exists b c,
    Some (next_bucket t) = Some (set_cursor b c t, head (concat (drop (Z.to_nat (currentBucket t + 1)) (ht t)))) /\
    pos_ok t b c /\ match concat (drop (Z.to_nat (currentBucket t + 1)) (ht t)) with
                    | [] => b = -1 /\ c = None
                    | _ :: rest => pos_after t b c = rest
                    end).
  { intros Hb. unfold next_bucket. pose proof (next_full_rest t (currentBucket t) Hb) as Hn.
    destruct (concat _) as [|kv rest]; [rewrite Hn; exists (-1), None; simpl; split_and!; done|].
    destruct Hn as (b'&->&Hp&_&Hr). exists b', (Some kv.1). done. }
  destruct (currentItem t) as [k|]; [|by apply Hnext]. destruct Hok as [Hb Hk].
  destruct (chain_node _ _ Hk) as (v&l1&l2&El&Hn&_&Ha). unfold pos_after at 1 2. rewrite Ha. simpl.
  destruct l2 as [|kv2 l2]; [apply Hnext; lia|].
  destruct (chain_next _ _ _ _ _ Ht Ha) as (?&_&Ha2).
  exists (currentBucket t), (Some kv2.1). split_and!; [done|done|].
  unfold pos_after. simpl. change (chain_at (set_cursor _ _ t)) with (chain_at t). by rewrite Ha2.
Qed.

Lemma advance_ok t it : ht_ok hashfcn t -> it_ok t it ->
  exists it', advance t it = Some it' /\ it_ok t it' /\ it_rest t it' = tail (it_rest t it).
Proof.
  intros Ht Hok. unfold it_ok, advance in *. destruct it as [i [k|]]; simpl in *.
  - destruct Hok as [Hi Hk]. rewrite (proj2 (Z.eqb_neq i (-1))) by lia.
    destruct (chain_node _ _ Hk) as (v&l1&l2&El&Hn&Hl&Ha). rewrite Ha. unfold it_rest at 2. simpl.
    rewrite Hl. simpl. unfold pos_after. rewrite Ha. simpl. destruct l2 as [|kv2 l2].
    + pose proof (next_full_rest t i ltac:(lia)) as Hx. destruct (concat _) as [|kv rest].
      * rewrite Hx. by eexists.
      * destruct Hx as (b'&->&Hp&Hv&Hr). eexists. split; [done|]. split; [exact Hp|].
        unfold it_rest. simpl. rewrite Hv, Hr. by destruct kv.
    + destruct (chain_next _ _ _ _ _ Ht Ha) as (?&Hl2&Ha2). eexists. split; [done|]. split; [done|].
      unfold it_rest. simpl. rewrite Hl2. unfold pos_after. rewrite Ha2. by destruct kv2.
  - subst i. by eexists.
Qed.

(** ** Removal, seen by the positions *)
Lemma chain_after_keep c k (l : list (K * V)) : c <> k -> chain_after c (keep k l) = keep k <$> chain_after c l.
Proof.
  intros Hne. induction l as [|[k' v] l IH]; [done|]. simpl. destruct (decide (k' = k)) as [->|Hk].
  - by rewrite keep_cons_eq, decide_False.
  - rewrite keep_cons_ne by done. simpl. by case_decide.
Qed.

Lemma chain_lookup_keep c k (l : list (K * V)) : c <> k -> chain_lookup c (keep k l) = chain_lookup c l.
Proof. intros Hne. rewrite !chain_lookup_map, keep_map. by rewrite lookup_delete_ne. Qed.

Lemma chain_at_keep t t' k i : ht t' = keep k <$> ht t -> chain_at t' i = keep k (chain_at t i).
Proof. intros E. unfold chain_at. rewrite E, !nth_lookup, list_lookup_fmap. by destruct (ht t !! i). Qed.

Lemma elem_of_keep_keys c k (l : list (K * V)) : c <> k -> c ∈ l.*1 -> c ∈ (keep k l).*1.
Proof.
  intros Hne (kv&->&Hkv)%list_elem_of_fmap. apply list_elem_of_fmap. exists kv. split; [done|].
  apply list_elem_of_filter. done.
Qed.

Lemma pos_keep t t' k b c : ht t' = keep k <$> ht t -> c <> Some k -> pos_ok t b c ->
  pos_ok t' b c /\ pos_after t' b c = keep k (pos_after t b c).
Proof.
  intros E Hne Hok. unfold pos_ok, pos_after in *.
  rewrite keep_app, E, <- fmap_drop, <- keep_concat, !(chain_at_keep t t' k) by done.
  destruct c as [c|]; [|done]. destruct Hok as [Hb Hc]. rewrite chain_after_keep by congruence.
  split; [split; [done|]; apply elem_of_keep_keys; congruence|]. by destruct (chain_after c _).
Qed.

Lemma it_keep t t' k it : ht t' = keep k <$> ht t -> m_cur it <> Some k -> it_ok t it ->
  it_ok t' it /\ it_rest t' it = keep k (it_rest t it).
Proof.
  intros E Hne Hok. unfold it_ok, it_rest in *. destruct it as [i [c|]]; [|done]. simpl in *.
  destruct (pos_keep t t' k i (Some c) E Hne Hok) as [Hok' Hr]. split; [done|].
  rewrite (chain_at_keep t t' k), chain_lookup_keep by congruence. case_match; [|done].
  rewrite keep_cons_ne by (simpl; congruence). by rewrite Hr.
Qed.

(** No entry comes twice. *)
Lemma pos_after_keys t b k : ht_ok hashfcn t -> pos_ok t b (Some k) -> k ∉ (pos_after t b (Some k)).*1.
Proof.
  intros Hok [Hb Hk]. unfold pos_after. destruct (chain_node _ _ Hk) as (v&l1&l2&El&_&_&->). simpl.
  pose proof (ok_keys _ _ Hok) as Hd. unfold entries in Hd.
  rewrite <- (take_drop (Z.to_nat b) (ht t)), concat_app, drop_chain, El in Hd by done.
  rewrite !fmap_app, NoDup_app in Hd. destruct Hd as (_&_&Hd). simpl in Hd.
  rewrite <- app_assoc in Hd. rewrite NoDup_app in Hd. destruct Hd as (_&_&Hd).
  simpl in Hd. apply NoDup_cons in Hd as [Hd _]. by rewrite fmap_app.
Qed.

Lemma pos_bucket t b k : ht_ok hashfcn t -> pos_ok t b (Some k) ->
  Z.to_nat b = bucket_of hashfcn (tableSize t) k.
Proof.
  intros Hok [Hb (kv&->&Hk)%list_elem_of_fmap]. unfold chain_at in Hk. rewrite nth_lookup in Hk.
  destruct (ht t !! Z.to_nat b) as [c|] eqn:E; [|by apply not_elem_of_nil in Hk].
  pose proof (ok_bucket _ _ Hok _ _ E) as Hf. rewrite Forall_forall in Hf. symmetry. by apply Hf.
Qed.

(** The cursor, when the entry it is at goes away. *)
Definition moved_cursor t k : HashTable K V :=
  match chain_prev None k (chain_of hashfcn t k) with
  | None => set_cursor (if currentBucket t - 1 <? 0 then -1 else currentBucket t - 1) None t
  | Some prevBuc => set_cursor (currentBucket t) (Some prevBuc) t
  end.

Lemma moved_cursor_ok t t' k : ht_ok hashfcn t -> cursor_ok t -> currentItem t = Some k ->
  ht t' = keep k <$> ht t -> currentBucket t' = currentBucket (moved_cursor t k) ->
  currentItem t' = currentItem (moved_cursor t k) ->
  cursor_ok t' /\ cursor_rest t' = keep k (cursor_rest t).
Proof.
  intros Hok Hc Hk E. unfold cursor_ok, cursor_rest, moved_cursor in *. rewrite Hk in *.
  pose proof (pos_bucket _ _ _ Hok Hc) as Hb. unfold chain_of. rewrite <- Hb.
  destruct Hc as [H0 Hin]. destruct (chain_node _ _ Hin) as (v&l1&l2&El&Hn&_&Ha).
  destruct (chain_split_ops l1 l2 k v v None Hn) as (_&_&Hp&_). rewrite El, Hp.
  destruct (last l1) as [[p w]|] eqn:Hlast; simpl; intros -> ->.
  - apply last_Some in Hlast as [l1' ->].
    assert (Hne : p <> k) by (intros ->; apply Hn, elem_of_mid).
    assert (Hap : chain_after p (chain_at t (Z.to_nat (currentBucket t))) = Some ((k, v) :: l2)).
    { pose proof (chain_at_keys t (Z.to_nat (currentBucket t)) Hok) as Hd. rewrite El, <- app_assoc in Hd |- *.
      rewrite fmap_app, NoDup_app in Hd. destruct Hd as (_&Hd&_). apply (chain_split_ops _ _ _ w w None).
      intros Hp'. apply (Hd _ Hp'), list_elem_of_here. }
    destruct (pos_keep t t' k (currentBucket t) (Some p) E) as [Hok' Hr]; [congruence| |].
    { split; [done|]. rewrite El, <- app_assoc. apply elem_of_mid. }
    split; [done|]. rewrite Hr. unfold pos_after. rewrite Ha, Hap. simpl.
    by rewrite keep_cons_eq.
  - apply last_None in Hlast as ->. set (b := if _ <? 0 then _ else _).
    assert (Eb : b = currentBucket t - 1) by (unfold b; case_match; lia). rewrite Eb.
    split; [simpl; lia|]. unfold pos_after at 1. simpl.
    replace (currentBucket t - 1 + 1) with (currentBucket t) by lia.
    rewrite E, <- fmap_drop, <- keep_concat, drop_chain, El by done. unfold pos_after. rewrite Ha. simpl.
    by rewrite keep_cons_eq.
Qed.

(** The iterators, when an entry goes away. *)
Lemma advance_from_ok t k l : ht_ok hashfcn t -> Forall (fun x => it_ok t x.2) l ->
  exists l', advance_from k t l = Some l' /\
    Forall2 (fun x y => y.1 = x.1 /\ it_ok t y.2 /\ m_cur y.2 <> Some k /\
      keep k (it_rest t y.2) = keep k (it_rest t x.2)) l l'.
Proof.
  intros Hok. induction 1 as [|[name it] l Hit _ IH]; [by exists []|].
  destruct IH as (l'&E&HF). simpl in *. case_decide as Hk.
  - destruct (advance_ok t it Hok Hit) as (it'&Ea&Hit'&Hr). rewrite Ea, E. eexists. split; [done|].
    constructor; [|done]. simpl. split_and!; [done|done| |].
    + intros Hk'. unfold it_ok in *. rewrite Hk in Hit. rewrite Hk' in Hit'.
      unfold it_rest in Hr. rewrite Hk, Hk' in Hr.
      destruct Hit as [Hi Hin]. destruct (chain_node _ _ Hin) as (v&_&_&_&_&Hv&_). rewrite Hv in Hr. simpl in Hr.
      destruct Hit' as [Hi' Hin']. destruct (chain_node _ _ Hin') as (v'&_&_&_&_&Hv'&_). rewrite Hv' in Hr.
      apply (pos_after_keys t (m_idx it) k); [done|done|]. rewrite <- Hr. apply list_elem_of_here.
    + rewrite Hr. unfold it_rest. rewrite Hk. case_match; [|done]. simpl. by rewrite keep_cons_eq.
  - rewrite E. eexists. split; [done|]. constructor; [|done]. done.
Qed.

Lemma pos_entries t b k : ht_ok hashfcn t -> pos_ok t b (Some k) -> k ∈ (entries t).*1.
Proof.
  intros Hok [Hb Hk]. unfold entries. rewrite <- (take_drop (Z.to_nat b) (ht t)), concat_app, drop_chain by done.
  rewrite !fmap_app, !elem_of_app. auto.
Qed.

Lemma keep_all t k : k ∉ (entries t).*1 -> ht t = keep k <$> ht t.
Proof.
  unfold entries.
  induction (ht t) as [|c chains IH]; [done|]. simpl. rewrite fmap_app, not_elem_of_app.
  intros [Hc Hn]. f_equal; [by rewrite keep_id|by apply IH].
Qed.

(** [remove] returns, takes the key out of the entries and out of what every walk has left. *)
Lemma remove_ok t k : ht_ok hashfcn t -> iterators_ok t ->
  exists t', HashTable.remove hashfcn k t = Some (t', match to_map t !! k with Some _ => 0 | None => -1 end) /\
    ht_ok hashfcn t' /\ entries t' = keep k (entries t) /\
    (cursor_ok t -> cursor_ok t' /\ cursor_rest t' = keep k (cursor_rest t)) /\ iterators_ok t' /\
    Forall2 (fun x y => y.1 = x.1 /\ it_rest t' y.2 = keep k (it_rest t x.2)) (activeIterators t) (activeIterators t').
Proof.
  intros Hok Hi. unfold HashTable.remove. fold (chain_of hashfcn t k). rewrite chain_lookup_to_map by done.
  destruct (to_map t !! k) as [v|] eqn:Hk.
  - destruct (advance_from_ok t k _ Hok Hi) as (its&->&Hits). cbn [mbind option_bind].
    assert (Hits2 : Forall (fun y => it_ok t y.2 /\ m_cur y.2 <> Some k) its)
      by (clear -Hits; induction Hits as [|x y l l' (_&?&?&_) _ IH]; by constructor).
    fold (moved_cursor t k).
    replace (ht (if decide (currentItem t = Some k) then moved_cursor t k else t)) with (ht t)
      by (unfold moved_cursor; repeat case_match; done).
    eexists. split; [reflexivity|]. set (t' := set_chains _ _ _).
    assert (E : ht t' = keep k <$> ht t) by (apply unlink_bucket; done).
    assert (Ee : entries t' = keep k (entries t)) by (unfold entries; by rewrite E, keep_concat).
    assert (Hcr : cursor_ok t -> cursor_ok t' /\ cursor_rest t' = keep k (cursor_rest t)).
    { intros Hc. destruct (decide (currentItem t = Some k)) as [Hcur|Hcur] eqn:Hd.
      - by apply moved_cursor_ok.
      - assert (Hb : currentBucket t' = currentBucket t /\ currentItem t' = currentItem t)
          by done.
        destruct Hb as [Hb Hi']. unfold cursor_ok, cursor_rest. rewrite Hb, Hi'. by apply pos_keep. }
    split_and!.
    + destruct (entries_split hashfcn t k v Hok Hk) as (a&b&l1&l2&El&Hn&Een&Hins).
      destruct (chain_split_ops l1 l2 k v v None Hn) as (_&Hu&_).
      assert (Ee2 : entries t' = a ++ (l1 ++ l2) ++ b) by (unfold entries; simpl; rewrite El, Hu; apply Hins).
      pose proof Hok as [Hs Hl Hb Hd Hcount].
      assert (Ets : tableSize t' = tableSize t) by (simpl; unfold moved_cursor; repeat case_match; done).
      constructor.
      * by rewrite Ets.
      * by rewrite E, length_fmap, Ets.
      * rewrite E, Ets. intros i c. rewrite list_lookup_fmap. intros (c0&Hc0&->)%fmap_Some.
        apply Forall_forall. intros kv [_ Hkv]%list_elem_of_filter.
        specialize (Hb _ _ Hc0). rewrite Forall_forall in Hb. by apply Hb.
      * rewrite Ee. by apply keep_keys_NoDup.
      * rewrite Ee2. change (numElems t') with (numElems t - 1). rewrite Hcount, Een, !length_app. simpl. lia.
    + done.
    + exact Hcr.
    + change (Forall (fun x => it_ok t' x.2) its). eapply Forall_impl; [exact Hits2|].
      intros y [Hy Hne]. by apply (it_keep t t' k).
    + change (activeIterators t') with its. clear Hi. 
      eapply Forall2_impl; [exact Hits|]. intros x y (En&Hy&Hne&Hr). split; [done|].
      rewrite <- Hr. by apply (it_keep t t' k).
  - rewrite to_map_None in Hk by done. pose proof (keep_all t k Hk) as E.
    eexists. split; [reflexivity|]. split_and!; [done|by rewrite keep_id| |done|].
    + intros Hc. apply (pos_keep t t k); [done| |done]. intros Hcur. unfold cursor_ok in Hc. rewrite Hcur in Hc.
      by eapply Hk, pos_entries.
    + apply Forall_Forall2_diag. eapply Forall_impl; [exact Hi|]. intros x Hx. split; [done|].
      apply (it_keep t t k); [done| |done]. intros Hcur. unfold it_ok in Hx. rewrite Hcur in Hx.
      by eapply Hk, pos_entries.
Qed.

(** ** The other operations keep positions valid *)
Lemma push_positions t kv i : (chain_at t i).*1 ⊆
  (nth i (push hashfcn (tableSize t) (ht t) kv) []).*1.
Proof.
  unfold push, chain_at. set (j := bucket_of _ _ _). rewrite !nth_lookup.
  destruct (decide (j = i)) as [->|Hne]; [|by rewrite list_lookup_insert_ne].
  destruct (ht t !! i) as [c|] eqn:E; [|set_solver]. rewrite list_lookup_insert_eq by (by eapply lookup_lt_Some).
  simpl. intros x Hx. by apply list_elem_of_further.
Qed.

Lemma update_positions t k v i : (chain_at t i).*1 ⊆
  (nth i (<[i := chain_update k v (chain_at t i)]> (ht t)) []).*1.
Proof.
  unfold chain_at. rewrite !nth_lookup. destruct (ht t !! i) as [c|] eqn:E; [|set_solver].
  rewrite list_lookup_insert_eq by (by eapply lookup_lt_Some). simpl.
  clear E. induction c as [|[k' v'] c IH]; [done|]. simpl. case_decide; [by subst|]. simpl.
  intros x [->|Hx]%elem_of_cons; [apply list_elem_of_here|]. by apply list_elem_of_further, IH.
Qed.

Lemma pos_ok_mono t t' b c : (forall i, (chain_at t i).*1 ⊆ (chain_at t' i).*1) -> pos_ok t b c -> pos_ok t' b c.
Proof. intros Hsub. destruct c as [k|]; [|done]. intros [? Hk]. split; [done|]. by apply Hsub. Qed.
Lemma it_ok_mono t t' it : (forall i, (chain_at t i).*1 ⊆ (chain_at t' i).*1) -> it_ok t it -> it_ok t' it.
Proof. intros Hsub. unfold it_ok. destruct (m_cur it); [by apply pos_ok_mono|done]. Qed.

Lemma grow_iterators t : iterators_ok t ->
  iterators_ok (if needs_resizing t then resize_hash_table hashfcn (-1) t else t).
Proof.
  intros Hi. destruct (needs_resizing t) eqn:E; [|done]. unfold needs_resizing in E.
  unfold iterators_ok. simpl. destruct (activeIterators t); [constructor|done].
Qed.

Lemma insert_iterators t k v update : iterators_ok t -> iterators_ok (insert hashfcn k v update t).1.
Proof.
  intros Hi. assert (Hmono : forall t', activeIterators t' = activeIterators t ->
    (forall i, (chain_at t i).*1 ⊆ (chain_at t' i).*1) -> iterators_ok t').
  { intros t' E Hsub. unfold iterators_ok. rewrite E. eapply Forall_impl; [exact Hi|].
    intros x Hx. by eapply it_ok_mono. }
  unfold insert. case_match; simpl.
  - destruct update; [|done]. apply Hmono; [done|]. intros i.
    destruct (decide (i = bucket_of hashfcn (tableSize t) k)) as [->|Hne]; [apply update_positions|].
    unfold chain_at. simpl. by rewrite !nth_lookup, list_lookup_insert_ne.
  - apply grow_iterators, Hmono; [done|]. apply push_positions.
Qed.

Lemma begin_iterators t name : iterators_ok t -> iterators_ok (begin name t).
Proof.
  intros Hi. unfold iterators_ok, begin. simpl. apply Forall_app. split; [exact Hi|].
  constructor; [|done]. pose proof (next_full_rest t (-1) ltac:(lia)) as Hn. simpl.
  change (first_full 0 (ht t)) with (next_full t (-1)). destruct (concat _).
  - by rewrite Hn.
  - by destruct Hn as (b&->&Hp&_).
Qed.

Lemma remove_iterator_ok t name : ht_ok hashfcn t -> iterators_ok t ->
  let t' := remove_iterator hashfcn name t in
  ht_ok hashfcn t' /\ iterators_ok t' /\ to_map t' = to_map t.
Proof.
  intros Hok Hi. unfold remove_iterator. set (t1 := set_iterators _ t).
  assert (Hok1 : ht_ok hashfcn t1) by (by apply ht_ok_set_iterators).
  destruct (grow_ok hashfcn t1 Hok1) as [Hok2 Hp]. split_and!; [done| |].
  - apply grow_iterators. unfold iterators_ok. simpl. clear -Hi. unfold iterators_ok in Hi.
    induction Hi as [|x l Hx Hl IH]; simpl; [constructor|]. case_decide; [exact Hl|by constructor].
  - apply (to_map_perm hashfcn); [done|]. exact Hp.
Qed.
End walks.

(** ** Operations and their specification *)
Section laws.
Context {K V : Type} `{Countable K}.
Variable hashfcn : K -> Z.

Inductive ht_op :=
| Op_insert (k : K) (v : V) (update : bool)
| Op_lookup (k : K)
| Op_exists (k : K)
| Op_remove (k : K)
| Op_clear
| Op_getNumElements
| Op_startIterations
| Op_begin (name : nat)
| Op_end (name : nat).

(** What an operation returns. *)
Inductive ht_result :=
| Code (n : Z)
| Value (v : option V)
| Void.

Definition ht_step (t : HashTable K V) (o : ht_op) : option (HashTable K V * ht_result) :=
  match o with
  | Op_insert k v update => let '(t', r) := insert hashfcn k v update t in Some (t', Code r)
  | Op_lookup k => Some (t, Value (HashTable.lookup hashfcn k t))
  | Op_exists k => Some (t, Code (exists_key hashfcn k t))
  | Op_remove k => '(t', r) ← HashTable.remove hashfcn k t; Some (t', Code r)
  | Op_clear => Some (clear t, Void)
  | Op_getNumElements => Some (t, Code (numElems t))
  | Op_startIterations => Some (startIterations t, Void)
  | Op_begin name => Some (begin name t, Void)
  | Op_end name => Some (remove_iterator hashfcn name t, Void)
  end.

(** The same on a finite map. *)
Definition map_step (m : gmap K V) (o : ht_op) : gmap K V * ht_result :=
  match o with
  | Op_insert k v update =>
      match m !! k with
      | Some _ => if update then (<[k := v]> m, Code 0) else (m, Code (-1))
      | None => (<[k := v]> m, Code 0)
      end
  | Op_lookup k => (m, Value (m !! k))
  | Op_exists k => (m, Code (match m !! k with Some _ => 0 | None => -1 end))
  | Op_remove k => (delete k m, Code (match m !! k with Some _ => 0 | None => -1 end))
  | Op_clear => (∅, Void)
  | Op_getNumElements => (m, Code (Z.of_nat (size m)))
  | Op_startIterations | Op_begin _ | Op_end _ => (m, Void)
  end.

Fixpoint ht_run (t : HashTable K V) (ops : list ht_op) : option (HashTable K V * list ht_result) :=
  match ops with
  | [] => Some (t, [])
  | o :: ops' => '(t1, r) ← ht_step t o; '(t2, rs) ← ht_run t1 ops'; Some (t2, r :: rs)
  end.
Fixpoint map_run (m : gmap K V) (ops : list ht_op) : gmap K V * list ht_result :=
  match ops with
  | [] => (m, [])
  | o :: ops' => let '(m1, r) := map_step m o in let '(m2, rs) := map_run m1 ops' in (m2, r :: rs)
  end.

Lemma ht_step_refines t o : ht_ok hashfcn t -> iterators_ok t ->
  exists t', ht_step t o = Some (t', (map_step (to_map t) o).2) /\
    ht_ok hashfcn t' /\ iterators_ok t' /\ to_map t' = (map_step (to_map t) o).1.
Proof.
  intros Hok Hi. destruct o as [k v update|k|k|k| | | |name|name]; simpl.
  - pose proof (insert_ok hashfcn t k v update Hok) as Hins.
    pose proof (insert_iterators hashfcn t k v update Hi) as Hi'.
    destruct (insert hashfcn k v update t) as [t' r]. destruct Hins as [Hok' E]. exists t'.
    destruct (to_map t !! k); [destruct update|]; injection E as <- ->; done.
  - exists t. by rewrite lookup_to_map.
  - exists t. split; [|done]. unfold exists_key. rewrite <- lookup_to_map with (hashfcn := hashfcn) by done.
    unfold HashTable.lookup. case_match; done.
  - destruct (remove_ok hashfcn t k Hok Hi) as (t'&->&Hok'&Ee&_&Hi'&_). exists t'. split_and!; [done..|].
    unfold to_map. by rewrite Ee, keep_map.
  - eexists. split; [done|]. pose proof Hok as [Hs Hl _ _ _]. split_and!.
    + constructor; simpl; [done|by rewrite length_replicate|apply in_bucket_empty| |];
        unfold entries; simpl; rewrite concat_replicate_nil; [constructor|done].
    + unfold iterators_ok. simpl. apply Forall_fmap, Forall_forall. done.
    + unfold to_map, entries. simpl. by rewrite concat_replicate_nil.
  - exists t. split; [|done]. do 3 f_equal. rewrite (ok_count _ _ Hok). f_equal. unfold to_map.
    rewrite <- length_map_to_list, map_to_list_to_map by apply Hok. done.
  - eexists. split; [done|]. split_and!; [by apply ht_ok_set_cursor|exact Hi|done].
  - eexists. split; [done|]. split_and!; [by apply ht_ok_set_iterators|by apply begin_iterators|done].
  - destruct (remove_iterator_ok hashfcn t name Hok Hi) as (?&?&?). eexists. split; [done|]. done.
Qed.

Lemma new_HashTable_ok : ht_ok hashfcn (new_HashTable : HashTable K V).
Proof.
  constructor; [done|done|apply (in_bucket_empty hashfcn 7 7)|constructor|done].
Qed.

(** C10: the hash table refines a finite map. Whatever is inserted (with or without
    update), looked up, removed or cleared, while iterators come and go and the table grows,
    every call returns what the same call on a finite map returns, and the entries of the
    table are those of the map. *)
Theorem HashTable_refines ops :
  exists t, ht_run new_HashTable ops = Some (t, (map_run ∅ ops).2) /\ to_map t = (map_run ∅ ops).1.
Proof.
  assert (Hrun : forall t, ht_ok hashfcn t -> iterators_ok t -> exists t',
    ht_run t ops = Some (t', (map_run (to_map t) ops).2) /\ to_map t' = (map_run (to_map t) ops).1).
  { induction ops as [|o ops IH]; intros t Hok Hi; [by exists t|]. simpl.
    destruct (ht_step_refines t o Hok Hi) as (t1&->&Hok1&Hi1&E1). simpl.
    destruct (IH t1 Hok1 Hi1) as (t2&->&E2). simpl. rewrite E1 in *.
    destruct (map_step (to_map t) o) as [m1 r]. simpl in *. destruct (map_run m1 ops) as [m2 rs].
    by exists t2. }
  apply Hrun; [apply new_HashTable_ok|constructor].
Qed.

(** ** Walks *)

(** A walk with removals in between: [None] asks for the next entry, [Some k] removes [k].
    The result is the list of the entries seen and whether the walk came to the end. *)
Fixpoint walk_removing (t : HashTable K V) (steps : list (option K)) : option (list (K * V) * bool) :=
  match steps with
  | [] => Some ([], false)
  | None :: steps' =>
      '(t1, o) ← iterate t;
      match o with
      | Some kv => '(seen, ended) ← walk_removing t1 steps'; Some (kv :: seen, ended)
      | None => Some ([], true)
      end
  | Some k :: steps' => '(t1, _) ← HashTable.remove hashfcn k t; walk_removing t1 steps'
  end.

Lemma walk_removing_ok t steps : ht_ok hashfcn t -> iterators_ok t -> cursor_ok t ->
  exists seen ended, walk_removing t steps = Some (seen, ended) /\
    seen `sublist_of` cursor_rest t /\
    (ended = true -> forall kv, kv ∈ cursor_rest t -> kv ∈ seen \/ Some kv.1 ∈ steps) /\
    ((length (cursor_rest t) < length (filter (fun s => s = None) steps))%nat -> ended = true).
Proof.
  revert t. induction steps as [|[k|] steps IH]; intros t Hok Hi Hc; cbn [walk_removing].
  - exists [], false. split_and!; [done|apply sublist_nil_l|done|simpl; lia].
  - destruct (remove_ok hashfcn t k Hok Hi) as (t1&->&Hok1&_&Hc1&Hi1&_). cbn [mbind option_bind].
    destruct (Hc1 Hc) as [Hc2 Er]. destruct (IH t1 Hok1 Hi1 Hc2) as (seen&ended&->&Hs&He&Hl).
    rewrite Er in *. exists seen, ended. split_and!; [done| | |].
    + etrans; [exact Hs|apply sublist_filter].
    + intros Hend kv Hkv. destruct (decide (kv.1 = k)) as [<-|Hne]; [right; apply list_elem_of_here|].
      destruct (He Hend kv) as [?|?]; [by apply list_elem_of_filter|by left|]. right. by apply list_elem_of_further.
    + intros Hlt. rewrite filter_cons_False in Hlt by done. apply Hl.
      pose proof (length_filter (fun kv : K * V => kv.1 <> k) (cursor_rest t)). unfold keep. lia.
  - destruct (iterate_ok hashfcn t Hok Hc) as (b&c&->&Hc1&Hr).
    destruct (cursor_rest t) as [|kv rest]; cbn [head mbind option_bind].
    + exists [], true. split_and!; [done|done| |done]. intros _ kv Hkv. by apply not_elem_of_nil in Hkv.
    + destruct (IH (set_cursor b c t)) as (seen&ended&->&Hs&He&Hl); [by apply ht_ok_set_cursor|done|done|].
      rewrite Hr in *. exists (kv :: seen), ended. split_and!; [done|by apply sublist_skip| |].
      * intros Hend kv' [->|Hkv]%elem_of_cons; [left; apply list_elem_of_here|].
        destruct (He Hend kv' Hkv) as [?|?]; [left|right]; by apply list_elem_of_further.
      * intros Hlt. rewrite filter_cons_True in Hlt by done. simpl in Hlt. apply Hl. lia.
Qed.

(** C40: a walk over the table sees every entry exactly once, whatever is removed on the
    way. From [startIterations] on, with calls of [iterate] and of [remove] in any order: no
    call fails, the entries seen are different entries of the table at the start, an entry
    that was not seen when the walk ends was removed, and the walk ends after at most one
    call of [iterate] more than there are entries. *)
Theorem walk_survives_removal t steps :
  ht_ok hashfcn t -> iterators_ok t ->
  exists seen ended, walk_removing (startIterations t) steps = Some (seen, ended) /\
    NoDup seen.*1 /\ seen ⊆ entries t /\
    (ended = true -> forall kv, kv ∈ entries t -> kv ∈ seen \/ Some kv.1 ∈ steps) /\
    ((length (entries t) < length (filter (fun s => s = None) steps))%nat -> ended = true).
Proof.
  intros Hok Hi. destruct (walk_removing_ok (startIterations t) steps) as (seen&ended&E&Hs&He&Hl);
    [by apply ht_ok_set_cursor|done|unfold cursor_ok, pos_ok; simpl; lia|].
  assert (Er : cursor_rest (startIterations t) = entries t) by done. rewrite Er in *.
  exists seen, ended. split_and!; [done| | |done|done].
  - eapply sublist_NoDup; [apply Hok|]. by apply fmap_sublist.
  - intros kv. by apply sublist_subseteq.
Qed.
End laws.

Lemma walk_survives_removal_witness :
  let t := foldl (fun t k => (insert hashFunction k 0 false t).1) new_HashTable ["a"; "b"; "h"; "c"]%string in
  let steps := [None; Some "h"; None; Some "b"; None; None; None]%string in
  (ht_ok hashFunction t /\ iterators_ok t) /\
  exists seen ended, walk_removing hashFunction (startIterations t) steps = Some (seen, ended) /\
    NoDup seen.*1 /\ seen ⊆ entries t /\
    (ended = true -> forall kv, kv ∈ entries t -> kv ∈ seen \/ Some kv.1 ∈ steps) /\
    ((length (entries t) < length (filter (fun s => s = None) steps))%nat -> ended = true).
Proof.
  intros t steps.
  assert (H : ht_ok hashFunction t /\ iterators_ok t).
  { unfold t. cbn [foldl]. split.
    - repeat (match goal with |- ht_ok _ (insert ?f ?k ?v ?u ?t).1 =>
        generalize (insert_ok f t k v u); destruct (insert f k v u t); intros Hi; apply Hi; clear Hi end).
      apply new_HashTable_ok.
    - do 4 apply insert_iterators. constructor. }
  split; [exact H|]. apply (walk_survives_removal hashFunction t steps); apply H.
Defined.

(** ** Corners *)
Section corners.
Definition table (n : nat) : HashTable Z Z := foldl (fun t k => (insert Z.abs k k false t).1) new_HashTable (seqZ 0 (Z.of_nat n)).
Definition entry (t : HashTable Z Z) : option (Z * Z) := o ← iterate t; o.2.
Definition walked (t : HashTable Z Z) : HashTable Z Z := match iterate t with Some (t', _) => t' | None => t end.

(** An insertion that makes the table grow sends a walk back to the start: only registered
    iterators hold back the resizing. Three entries in, the walk over 0 to 4 starts again. *)
Lemma insertion_restarts_walk :
  let t := walked (walked (walked (startIterations (table 5)))) in
  entry (walked t) = Some (4, 4) /\ entry (insert Z.abs 5 5 false t).1 = Some (0, 0).
Proof. vm_compute. done. Qed.

(** [clear] deletes the node the cursor points to and leaves the cursor: the next call of
    [iterate] follows a dangling pointer. *)
Lemma clear_keeps_cursor :
  iterate (clear (walked (startIterations (table 2)))) = None /\
  iterate (startIterations (clear (walked (startIterations (table 2))))) =
    Some (startIterations (clear (table 2)), None).
Proof. vm_compute. done. Qed.
End corners.
