(* ===== verification/ClassAdLog.v ===== *)
(** * The persistent ClassAd log ([condor_utils/log.*], [log_transaction.*], [classad_log.*])

    The schedd and others keep their ClassAds in a hash table and every change of it in a
    text file, one record per line; transactions are bracketed by two records. This file has
    the records with their text, transactions, the loading of a log and [ClassAdLog].

    A [FILE *] that is read is the text that is left ([ftell] is what was read of it); one
    that is written is what was written to it and how much of that an [fsync] has made
    durable. Writes to the file do not fail. [Except] is [EXCEPT], which ends the process. *)
From Stdlib Require Import ZArith Lia Ascii String.
From stdpp Require Import base list gmap strings.
From S2P Require Import Prelude Double Numerals Tree Values Lexer FlatMap AdStore Parser Unparser HashTable.

Definition newline : ascii := "010".

(** ** Records *)
Inductive LogRecord :=
| LogHistoricalSequenceNumber (historical_sequence_number timestamp : Z)
| LogNewClassAd (key mytype : string)
| LogDestroyClassAd (key : string)
| LogSetAttribute (key name value : string) (is_dirty : bool)
| LogDeleteAttribute (key name : string)
| LogBeginTransaction
| LogEndTransaction (comment : option string)
| LogRecordError (body : string).

Definition CondorLogOp_NewClassAd : Z := 101.
Definition CondorLogOp_DestroyClassAd : Z := 102.
Definition CondorLogOp_SetAttribute : Z := 103.
Definition CondorLogOp_DeleteAttribute : Z := 104.
Definition CondorLogOp_BeginTransaction : Z := 105.
Definition CondorLogOp_EndTransaction : Z := 106.
Definition CondorLogOp_LogHistoricalSequenceNumber : Z := 107.
Definition CondorLogOp_Error : Z := 999.

(** [get_op_type]: what the constructors assign. *)
Definition get_op_type (r : LogRecord) : Z :=
  match r with
  | LogHistoricalSequenceNumber _ _ => CondorLogOp_LogHistoricalSequenceNumber
  | LogNewClassAd _ _ => CondorLogOp_NewClassAd
  | LogDestroyClassAd _ => CondorLogOp_DestroyClassAd
  | LogSetAttribute _ _ _ _ => CondorLogOp_SetAttribute
  | LogDeleteAttribute _ _ => CondorLogOp_DeleteAttribute
  | LogBeginTransaction => CondorLogOp_BeginTransaction
  | LogEndTransaction _ => CondorLogOp_EndTransaction
  | LogRecordError _ => CondorLogOp_Error
  end.

(** [get_key]; null for the records without a key. *)
Definition get_key (r : LogRecord) : option string :=
  match r with
  | LogNewClassAd key _ | LogDestroyClassAd key | LogSetAttribute key _ _ _
  | LogDeleteAttribute key _ => Some key
  | _ => None
  end.

Definition valid_record_optype (optype : Z) : bool :=
  (CondorLogOp_NewClassAd <=? optype) && (optype <=? CondorLogOp_LogHistoricalSequenceNumber).

(** ** Reading words and lines

    A reader takes what is left of the file; [None] is a negative result. *)
Definition Reader (A : Type) : Type := text -> option A * text.

Definition rd_bind {A B} (m : Reader A) (k : A -> Reader B) : Reader B := fun fp =>
  match m fp with
  | (Some a, fp') => k a fp'
  | (None, fp') => (None, fp')
  end.
Definition rd_ret {A} (a : A) : Reader A := fun fp => (Some a, fp).
Definition rd_fail {A} : Reader A := fun fp => (None, fp).
Notation "'read!' x := m 'in' k" := (rd_bind m (fun x => k))
  (at level 10, x pattern, m at level 100, k at level 200) : res_scope.
Open Scope res_scope.

(** [fgetc], with the end of the file and a zero byte as failures. *)
Definition getc : Reader ascii := fun fp =>
  match fp with
  | [] => (None, [])
  | c :: fp' => if Ascii.eqb c zero then (None, fp') else (Some c, fp')
  end.

(** The loop of [readword] and [readline]: [buf] holds the characters before [last], the
    one read last; it goes on until that one is a terminator. *)
Fixpoint scan_loop (stop : ascii -> bool) (buf : text) (last : ascii) (fp : text) : option text * text :=
  if stop last then (match buf with [] => None | _ => Some buf end, fp)
  else match fp with
  | [] => (None, [])
  | c :: fp' => if Ascii.eqb c zero then (None, fp') else scan_loop stop (buf ++ [last]) c fp'
  end.

(** "ignore leading whitespace but don't pass newline" *)
Fixpoint skip_leading (fp : text) : option ascii * text :=
  match fp with
  | [] => (None, [])
  | c :: fp' =>
      if Ascii.eqb c zero then (None, fp')
      else if isspace c && negb (Ascii.eqb c newline) then skip_leading fp'
      else (Some c, fp')
  end.

Definition readword : Reader string :=
  read! c := skip_leading in
  read! w := scan_loop isspace [] c in rd_ret (of_text w).

Definition readline : Reader string :=
  read! c := getc in
  read! w := scan_loop (Ascii.eqb newline) [] c in rd_ret (of_text w).

(** [YourStringDeserializer::deserialize_int] of an [int], a [long] and an [unsigned long]
    at the start of a string; [None] when it returns false. *)
Definition deserialize_int (s : string) : option Z :=
  let s := txt s in
  let '(v, rest) := strtol s in
  if (v <? INT32_MIN) || (INT32_MAX <? v) then None
  else if Nat.eqb (length rest) (length s) then None else Some v.
Definition deserialize_long (s : string) : option Z :=
  let '(v, rest) := strtol (txt s) in if Nat.eqb (length rest) (length (txt s)) then None else Some v.
Definition deserialize_ulong (s : string) : option Z :=
  let '(v, rest) := strtoull (txt s) in if Nat.eqb (length rest) (length (txt s)) then None else Some v.

Definition EMPTY_CLASSAD_TYPE_NAME : string := "(empty)".

Section log.
(** [_useOldClassAdSemantics], the literals times denote, and the parameter
    CLASSAD_LOG_STRICT_PARSING. *)
Variable oldSemantics : bool.
Variables MakeAbsTime MakeRelTime : string -> option ExprTree.
Variable strict_parsing : bool.

(** ** Values of attributes *)

(** Fuel the parser needs for a text. *)
Definition parse_fuel (s : string) : nat := (1002 + 2 * String.length s)%nat.

(** [ParseClassAdRvalExpr] returns 0. *)
Definition ParseClassAdRvalExpr_ok (s : string) : bool :=
  match ParseExpression oldSemantics true MakeAbsTime MakeRelTime (parse_fuel s) ∅ new_Lexer s true with
  | Ret (Some _) _ => true
  | _ => false
  end.

Definition blankline (s : string) : bool := forallb isspace (txt (c_str s)).

(** The constructor of [LogSetAttribute]: a value that is no expression is UNDEFINED. *)
Definition new_LogSetAttribute (key name val : string) (dirty : bool) : LogRecord :=
  let value := if negb (String.eqb val "") && negb (blankline val) && ParseClassAdRvalExpr_ok val
               then val else "UNDEFINED"%string in
  LogSetAttribute key name value dirty.

(** ** Writing *)
Definition WriteHeader (r : LogRecord) : text := append_long [] (get_op_type r) ++ txt " ".

(** The type written after the type of the ClassAd, for older versions. *)
Definition written_targettype (mytype : string) : string :=
  let s := match strcasecmp mytype "Job" with
           | Eq => "Machine"%string
           | _ => match mytype with
                  | String c _ => if Ascii.eqb c "*" then mytype else ""%string
                  | EmptyString => ""%string
                  end
           end in
  if String.eqb s "" then EMPTY_CLASSAD_TYPE_NAME else s.

(** [WriteBody] of every record; [None] when it refuses. *)
Definition WriteBody (r : LogRecord) : option text :=
  match r with
  | LogHistoricalSequenceNumber n t =>
      Some (digits n ++ txt " CreationTimestamp " ++ digits (t mod two64))
  | LogNewClassAd key mytype =>
      let s := if String.eqb mytype "" then EMPTY_CLASSAD_TYPE_NAME else mytype in
      Some (txt key ++ txt " " ++ txt s ++ txt " " ++ txt (written_targettype mytype))
  | LogDestroyClassAd key => Some (txt key)
  | LogSetAttribute key name value _ =>
      if existsb (Ascii.eqb newline) (txt key) || existsb (Ascii.eqb newline) (txt name)
         || existsb (Ascii.eqb newline) (txt value)
      then None
      else Some (txt key ++ txt " " ++ txt name ++ txt " " ++ txt value)
  | LogDeleteAttribute key name => Some (txt key ++ txt " " ++ txt name)
  | LogBeginTransaction => Some []
  | LogEndTransaction comment =>
      Some match comment with
           | Some c => if String.eqb c "" then [] else "#"%char :: txt c
           | None => []
           end
  | LogRecordError _ => Some []
  end.

(** [Write]: what goes to the file, and whether it succeeded. *)
Definition Write (r : LogRecord) : text * bool :=
  match WriteBody r with
  | Some body => (WriteHeader r ++ body ++ [newline], true)
  | None => (WriteHeader r, false)
  end.

(** ** Reading *)

(** One [fread] of one character. *)
Definition fread1 : Reader ascii := fun fp =>
  match fp with [] => (None, []) | c :: fp' => (Some c, fp') end.

(** A word that may be missing. *)
Definition read_optional_word : Reader unit := fun fp => (Some tt, (readword fp).2).

(** [ReadBody] of the record [InstantiateLogEntry] makes for a valid type. *)
Definition ReadBody (type : Z) : Reader LogRecord :=
  if type =? CondorLogOp_NewClassAd then
    read! key := readword in
    read! mytype := readword in
    read! _ := read_optional_word in
    rd_ret (LogNewClassAd key (if String.eqb mytype EMPTY_CLASSAD_TYPE_NAME then "" else mytype))
  else if type =? CondorLogOp_DestroyClassAd then
    read! key := readword in rd_ret (LogDestroyClassAd key)
  else if type =? CondorLogOp_SetAttribute then
    read! key := readword in
    read! name := readword in
    read! value := readline in
    if ParseClassAdRvalExpr_ok value || negb strict_parsing
    then rd_ret (LogSetAttribute key name value false) else rd_fail
  else if type =? CondorLogOp_DeleteAttribute then
    read! key := readword in
    read! name := readword in rd_ret (LogDeleteAttribute key name)
  else if type =? CondorLogOp_BeginTransaction then
    read! ch := fread1 in
    if Ascii.eqb ch newline then rd_ret LogBeginTransaction else rd_fail
  else if type =? CondorLogOp_EndTransaction then
    read! ch := fread1 in
    if Ascii.eqb ch newline then rd_ret (LogEndTransaction None)
    else if Ascii.eqb ch "#" then read! comment := readline in rd_ret (LogEndTransaction (Some comment))
    else rd_fail
  else if type =? CondorLogOp_LogHistoricalSequenceNumber then
    read! n := readword in
    read! _ := readword in
    read! t := readword in
    rd_ret (LogHistoricalSequenceNumber (default 0 (deserialize_ulong n)) (default 0 (deserialize_long t)))
  else
    read! body := (fun fp => let '(b, fp') := readline fp in (Some (default ""%string b), fp')) in
    rd_ret (LogRecordError body).

(** [fgets] with a buffer for [k] characters: at most so many, up to and with a newline. *)
Fixpoint fgets (k : nat) (fp : text) : text * text :=
  match k, fp with
  | S k', c :: fp' =>
      if Ascii.eqb c newline then ([c], fp') else let '(l, rest) := fgets k' fp' in (c :: l, rest)
  | _, _ => ([], fp)
  end.

(** [sscanf (line, "%d ", &op)] and [valid_record_optype]. *)
Definition line_op (line : text) : option Z :=
  let '(v, rest) := strtol line in
  if Nat.eqb (length rest) (length line) then None
  else if valid_record_optype (wrap32 v) then Some (wrap32 v) else None.

(** After a corrupt record: the rest of the file is skipped unless it ends a transaction. *)
Fixpoint skip_corrupt (n : nat) (fp : text) : Res text (option LogRecord) :=
  match n with
  | O => NoFuel
  | S n' =>
      match fp with
      | [] => Ret None []
      | _ =>
          let '(line, fp') := fgets (10240 + 64 - 1) fp in
          if decide (line_op line = Some CondorLogOp_EndTransaction) then Except
          else skip_corrupt n' fp'
      end
  end.

Definition InstantiateLogEntry (type : Z) (fp : text) : Res text (option LogRecord) :=
  match ReadBody type fp with
  | (Some r, fp') =>
      if get_op_type r =? CondorLogOp_Error then skip_corrupt (S (length fp')) fp' else Ret (Some r) fp'
  | (None, fp') => skip_corrupt (S (length fp')) fp'
  end.

(** [ReadLogEntry]; [None] is the null pointer. *)
Definition ReadLogEntry (fp : text) : Res text (option LogRecord) :=
  match readword fp with
  | (None, fp') => Ret None fp'
  | (Some opword, fp') =>
      let opcode := match deserialize_int opword with
                    | Some op => if valid_record_optype op then op else CondorLogOp_Error
                    | None => CondorLogOp_Error
                    end in
      InstantiateLogEntry opcode fp'
  end.

(** ** Transactions *)
Record Transaction := mk_Transaction {
  op_log : HashTable string (list LogRecord);
  ordered_op_log : list LogRecord;
  op_log_iterating : list LogRecord;
  m_triggers : Z;
  m_EmptyTransaction : bool
}.

Definition new_Transaction : Transaction := mk_Transaction new_HashTable [] [] 0 true.

(** [AppendLog]: the list filed under the key is made if it is missing, then extended in
    place. *)
Definition Transaction_AppendLog (log : LogRecord) (t : Transaction) : Transaction :=
  let key_obj := default ""%string (get_key log) in
  let op_log0 := op_log t in
  let '(op_log1, l) :=
    match HashTable.lookup hashFunction key_obj op_log0 with
    | Some l => (op_log0, l)
    | None => ((insert hashFunction key_obj [] false op_log0).1, [])
    end in
  mk_Transaction (insert hashFunction key_obj (l ++ [log]) true op_log1).1
    (ordered_op_log t ++ [log]) (op_log_iterating t) (m_triggers t) false.

(** [FirstEntry] and [NextEntry]: the record, none for null. *)
Definition set_iterating (l : list LogRecord) (t : Transaction) : Transaction :=
  mk_Transaction (op_log t) (ordered_op_log t) l (m_triggers t) (m_EmptyTransaction t).
Definition NextEntry (t : Transaction) : Transaction * option LogRecord :=
  match op_log_iterating t with
  | [] => (t, None)
  | log :: l => (set_iterating l t, Some log)
  end.
Definition FirstEntry (key : string) (t : Transaction) : Transaction * option LogRecord :=
  match HashTable.lookup hashFunction key (op_log t) with
  | None => (t, None)
  | Some lrl => NextEntry (set_iterating lrl t)
  end.

(** The loop [for (log = FirstEntry(key); log; log = NextEntry()) body]. *)
Fixpoint entries_loop {A} (n : nat) (body : A -> LogRecord -> A) (a : A) (tl : Transaction * option LogRecord)
  : Transaction * A :=
  match n, tl with
  | S n', (t, Some log) => entries_loop n' body (body a log) (NextEntry t)
  | _, (t, _) => (t, a)
  end.
Definition for_entries {A} (key : string) (body : A -> LogRecord -> A) (a : A) (t : Transaction) : Transaction * A :=
  entries_loop (S (length (ordered_op_log t))) body a (FirstEntry key t).

Definition InTransactionListKeysWithOpType (op_type : Z) (new_keys : list string) (t : Transaction) : list string :=
  new_keys ++ omap (fun log => if get_op_type log =? op_type then get_key log else None) (ordered_op_log t).

(** The keys a walk over [op_log] gives, added to a set. *)
Fixpoint keys_loop (n : nat) (tab : HashTable string (list LogRecord)) (keys : gset string) (items_added : bool)
  : option (HashTable string (list LogRecord) * gset string * bool) :=
  match n with
  | O => None
  | S n' =>
      '(tab1, o) ← iterate tab;
      match o with
      | None => Some (tab1, keys, items_added)
      | Some (key, _) =>
          if String.eqb key "" then keys_loop n' tab1 keys items_added
          else keys_loop n' tab1 ({[key]} ∪ keys) true
      end
  end.
Definition KeysInTransaction (keys : gset string) (add_keys : bool) (t : Transaction)
  : option (Transaction * gset string * bool) :=
  let keys := if add_keys then keys else ∅ in
  if m_EmptyTransaction t then Some (t, keys, false)
  else
    '(tab, keys', added) ← keys_loop (S (length (walk_entries (op_log t)))) (startIterations (op_log t)) keys false;
    Some (mk_Transaction tab (ordered_op_log t) (op_log_iterating t) (m_triggers t) (m_EmptyTransaction t),
          keys', added).

Definition SetTriggers (mask : Z) (t : Transaction) : Transaction * Z :=
  let m := Z.lor (m_triggers t) mask in
  (mk_Transaction (op_log t) (ordered_op_log t) (op_log_iterating t) m (m_EmptyTransaction t), m).

(** ** What records are played on

    The [void *] argument of [Play]; the brackets of a transaction and the sequence number
    change nothing in it. *)
Class DataStructure (D : Type) := {
  Play : LogRecord -> D -> Res D Z;
  Play_bracket r d : get_op_type r = CondorLogOp_BeginTransaction \/ get_op_type r = CondorLogOp_EndTransaction ->
    Play r d = Ret 1 d
}.

(** A [FILE] that is written: its contents, and how many characters are durable. *)
Record File := mk_File { written : text; synced : nat }.
Definition fwrite (s : text) (f : File) : File := mk_File (written f ++ s) (synced f).
Definition fsync (f : File) : File := mk_File (written f) (length (written f)).

Section data.
Context {D : Type} `{DataStructure D}.

(** ** Committing

    The state is the data structure and the file, which may be null. *)
Definition write_record (log : LogRecord) (fp : option File) : option (option File) :=
  match fp with
  | None => Some None
  | Some f => let '(s, ok) := Write log in if (ok : bool) then Some (Some (fwrite s f)) else None
  end.

Fixpoint Commit_loop (logs : list LogRecord) (fp : option File) (d : D) : Res D (option File) :=
  match logs with
  | [] => Ret fp d
  | log :: logs' =>
      match write_record log fp with
      | None => Except
      | Some fp' => (let! _ := Play log in Commit_loop logs' fp') d
      end
  end.
Definition Commit (t : Transaction) (fp : option File) (nondurable : bool) (d : D) : Res D (option File) :=
  (let! fp' := Commit_loop (ordered_op_log t) fp in
   rret (if nondurable then fp' else fsync <$> fp')) d.

(** ** Loading a log *)
Inductive LoadMessage :=
| BadRecord (count : Z)
| NestedTransactions
| UnmatchedEndTransaction
| LateSequenceNumber (count : Z)
| UnterminatedEntry
| UnterminatedTransaction.

Record Loading := mk_Loading {
  ld_transaction : option Transaction;
  ld_count : Z;
  ld_sequence_number : Z;
  ld_birthdate : Z;
  ld_clean : bool;
  ld_errmsg : list LoadMessage
}.

(** One round of the loop over the entries; [None] is the return of NULL. *)
Definition load_entry (log_rec : LogRecord) (ld : Loading) (d : D) : Res D (option Loading) :=
  let '(mk_Loading active_transaction count0 seq birth clean errmsg) := ld in
  let count := count0 + 1 in
  match log_rec with
  | LogRecordError _ => Ret None d
  | LogBeginTransaction =>
      match active_transaction with
      | Some t => Ret (Some (mk_Loading (Some t) count seq birth false (errmsg ++ [NestedTransactions]))) d
      | None => Ret (Some (mk_Loading (Some new_Transaction) count seq birth false errmsg)) d
      end
  | LogEndTransaction _ =>
      match active_transaction with
      | None => Ret (Some (mk_Loading None count seq birth clean (errmsg ++ [UnmatchedEndTransaction]))) d
      | Some t =>
          (let! _ := Commit t None false in rret (Some (mk_Loading None count seq birth clean errmsg))) d
      end
  | LogHistoricalSequenceNumber n t =>
      let errmsg := if negb (count =? 1) then errmsg ++ [LateSequenceNumber count] else errmsg in
      Ret (Some (mk_Loading active_transaction count n t clean errmsg)) d
  | _ =>
      match active_transaction with
      | Some t =>
          Ret (Some (mk_Loading (Some (Transaction_AppendLog log_rec t)) count seq birth clean errmsg)) d
      | None => (let! _ := Play log_rec in rret (Some (mk_Loading None count seq birth clean errmsg))) d
      end
  end.

(** The loop; its result is the state of the loading, [next_log_entry_pos] as what was left
    of the file there, and what is left at the end. *)
Fixpoint load_loop (n : nat) (next fp : text) (ld : Loading) (d : D) : Res D (option (Loading * text * text)) :=
  match n with
  | O => NoFuel
  | S n' =>
      match ReadLogEntry fp with
      | NoFuel => NoFuel
      | Except => Except
      | Ret None fp' => Ret (Some (ld, next, fp')) d
      | Ret (Some log_rec) fp' =>
          (let! o := load_entry log_rec ld in
           match o with
           | None => rret None
           | Some ld' => load_loop n' fp' fp' ld'
           end) d
      end
  end.

Record LoadResult := mk_LoadResult {
  lr_fp : File;
  lr_sequence_number : Z;
  lr_birthdate : Z;
  lr_is_clean : bool;
  lr_requires_successful_cleaning : bool;
  lr_errmsg : list LoadMessage
}.

(** [LoadClassAdLog] of a file that opens, with [now] the time; [None] is the null file. *)
Definition LoadClassAdLog (now : Z) (content : text) (d : D) : Res D (option LoadResult) :=
  (let! o := load_loop (S (length content)) content content (mk_Loading None 0 1 now true []) in
   rret match o with
   | None => None
   | Some (ld, next, final) =>
       let unterminated := negb (Nat.eqb (length next) (length final)) in
       let errmsg := if unterminated then ld_errmsg ld ++ [UnterminatedEntry] else ld_errmsg ld in
       let '(requires, errmsg) :=
         match ld_transaction ld with
         | Some _ => (true, if unterminated then errmsg else errmsg ++ [UnterminatedTransaction])
         | None => (unterminated, errmsg)
         end in
       let fp := mk_File content (length content) in
       let fp := if ld_count ld =? 0
                 then fwrite (Write (LogHistoricalSequenceNumber (ld_sequence_number ld) (ld_birthdate ld))).1 fp
                 else fp in
       Some (mk_LoadResult fp (ld_sequence_number ld) (ld_birthdate ld) (ld_clean ld) requires errmsg)
   end) d.

(** ** [ClassAdLog]

    Its members but the table, which is the state of the operations with them. *)
Record ClassAdLog := mk_ClassAdLog {
  table : D;
  log_fp : option File;
  active_transaction : option Transaction;
  max_historical_logs : Z;
  historical_sequence_number : Z;
  m_original_log_birthdate : Z;
  m_nondurable_level : Z
}.

Definition set_table d (s : ClassAdLog) : ClassAdLog :=
  mk_ClassAdLog d (log_fp s) (active_transaction s) (max_historical_logs s)
    (historical_sequence_number s) (m_original_log_birthdate s) (m_nondurable_level s).
Definition set_log_fp fp (s : ClassAdLog) : ClassAdLog :=
  mk_ClassAdLog (table s) fp (active_transaction s) (max_historical_logs s)
    (historical_sequence_number s) (m_original_log_birthdate s) (m_nondurable_level s).
Definition set_active_transaction t (s : ClassAdLog) : ClassAdLog :=
  mk_ClassAdLog (table s) (log_fp s) t (max_historical_logs s)
    (historical_sequence_number s) (m_original_log_birthdate s) (m_nondurable_level s).
Definition set_nondurable_level n (s : ClassAdLog) : ClassAdLog :=
  mk_ClassAdLog (table s) (log_fp s) (active_transaction s) (max_historical_logs s)
    (historical_sequence_number s) (m_original_log_birthdate s) n.

(** The constructor. *)
Definition new_ClassAdLog (d : D) : ClassAdLog := mk_ClassAdLog d None None 0 0 0 0.

Definition FlushLog (s : ClassAdLog) : ClassAdLog := s.
Definition ForceLog (s : ClassAdLog) : ClassAdLog := set_log_fp (fsync <$> log_fp s) s.

(** [AppendLog]: into the active transaction, or at once to the file and the table. *)
Definition AppendLog (log : LogRecord) (s : ClassAdLog) : Res ClassAdLog unit :=
  match active_transaction s with
  | Some t =>
      let t1 := if m_EmptyTransaction t then Transaction_AppendLog LogBeginTransaction t else t in
      Ret tt (set_active_transaction (Some (Transaction_AppendLog log t1)) s)
  | None =>
      match write_record log (log_fp s) with
      | None => Except
      | Some fp =>
          let s1 := set_log_fp fp s in
          let s2 := if m_nondurable_level s1 =? 0 then ForceLog s1 else s1 in
          match Play log (table s2) with
          | Ret _ d => Ret tt (set_table d s2)
          | NoFuel => NoFuel
          | Except => Except
          end
      end
  end.

Definition BeginTransaction (s : ClassAdLog) : Res ClassAdLog unit :=
  match active_transaction s with
  | Some _ => Except
  | None => Ret tt (set_active_transaction (Some new_Transaction) s)
  end.
Definition AbortTransaction (s : ClassAdLog) : ClassAdLog * bool :=
  match active_transaction s with
  | Some _ => (set_active_transaction None s, true)
  | None => (s, false)
  end.

(** [set_comment]: an empty comment is none. *)
Definition LogEnd_of_comment (comment : option string) : LogRecord :=
  LogEndTransaction (c ← comment; if String.eqb c "" then None else Some c).

Definition CommitTransaction (comment : option string) (s : ClassAdLog) : Res ClassAdLog unit :=
  match active_transaction s with
  | None => Ret tt s
  | Some t =>
      if m_EmptyTransaction t then Ret tt (set_active_transaction None s)
      else
        let t1 := Transaction_AppendLog (LogEnd_of_comment comment) t in
        let nondurable := 0 <? m_nondurable_level s in
        match Commit t1 (log_fp s) nondurable (table s) with
        | Ret fp d => Ret tt (set_active_transaction None (set_log_fp fp (set_table d s)))
        | NoFuel => NoFuel
        | Except => Except
        end
  end.

Definition IncNondurableCommitLevel (s : ClassAdLog) : ClassAdLog * Z :=
  (set_nondurable_level (m_nondurable_level s + 1) s, m_nondurable_level s).
Definition DecNondurableCommitLevel (old_level : Z) (s : ClassAdLog) : Res ClassAdLog unit :=
  let level := m_nondurable_level s - 1 in
  if level =? old_level then Ret tt (set_nondurable_level level s) else Except.
Definition CommitNondurableTransaction (comment : option string) (s : ClassAdLog) : Res ClassAdLog unit :=
  let '(s1, old_level) := IncNondurableCommitLevel s in
  (let! _ := CommitTransaction comment in DecNondurableCommitLevel old_level) s1.

(** [StopLog] closes the file. *)
Definition StopLog (s : ClassAdLog) : ClassAdLog := set_log_fp None (AbortTransaction s).1.

Definition getActiveTransaction (s : ClassAdLog) : ClassAdLog * option Transaction :=
  (set_active_transaction None s, active_transaction s).
Definition setActiveTransaction (t : option Transaction) (s : ClassAdLog) : ClassAdLog * bool :=
  match active_transaction s with
  | Some _ => (s, false)
  | None => (set_active_transaction t s, true)
  end.
Definition SetTransactionTriggers (mask : Z) (s : ClassAdLog) : ClassAdLog * Z :=
  match active_transaction s with
  | None => (s, 0)
  | Some t => let '(t', m) := SetTriggers mask t in (set_active_transaction (Some t') s, m)
  end.
Definition GetTransactionTriggers (s : ClassAdLog) : Z :=
  match active_transaction s with Some t => m_triggers t | None => 0 end.

Definition ListNewAdsInTransaction (new_keys : list string) (s : ClassAdLog) : list string :=
  match active_transaction s with
  | Some t => InTransactionListKeysWithOpType CondorLogOp_NewClassAd new_keys t
  | None => new_keys
  end.

Definition GetTransactionKeys (keys : gset string) (s : ClassAdLog) : option (ClassAdLog * gset string * bool) :=
  match active_transaction s with
  | None => Some (s, keys, false)
  | Some t =>
      '(t', keys', _) ← KeysInTransaction keys false t;
      Some (set_active_transaction (Some t') s, keys', true)
  end.

(** ** Looking into the active transaction *)

(** What the loop of [ExamineLogTransaction] keeps for one attribute. *)
Record Examined := mk_Examined { AdDeleted : bool; ValDeleted : bool; ValFound : bool; val : option string }.

Definition examine_entry (name : string) (e : Examined) (log : LogRecord) : Examined :=
  match log with
  | LogNewClassAd _ _ => mk_Examined false (ValDeleted e) (ValFound e) (val e)
  | LogDestroyClassAd _ => mk_Examined true (ValDeleted e) (ValFound e) (val e)
  | LogSetAttribute _ lname value _ =>
      if decide (strcasecmp lname name = Eq) then mk_Examined (AdDeleted e) false true (Some value) else e
  | LogDeleteAttribute _ lname =>
      if decide (strcasecmp lname name = Eq) then mk_Examined (AdDeleted e) true false (if ValFound e then None else val e) else e
  | _ => e
  end.

(** [ExamineLogTransaction] for a name: 1 and the value, -1 or 0. *)
Definition ExamineLogTransaction (key name : string) (t : Transaction) : Transaction * (Z * option string) :=
  let '(t', e) := for_entries key (examine_entry name) (mk_Examined false false false None) t in
  (t', if AdDeleted e || ValDeleted e then (-1, val e)
       else if ValFound e then (1, val e) else (0, val e)).

Definition LookupInTransaction (key : string) (name : option string) (s : ClassAdLog)
  : ClassAdLog * (Z * option string) :=
  match name, active_transaction s with
  | Some name, Some t =>
      let '(t', r) := ExamineLogTransaction key name t in (set_active_transaction (Some t') s, r)
  | _, _ => (s, (0, None))
  end.

(** [AdExistsInTableOrTransaction], given whether the table has an ad under the key. *)
Definition exists_entry (adexists : bool) (log : LogRecord) : bool :=
  match log with
  | LogNewClassAd _ _ => true
  | LogDestroyClassAd _ => false
  | _ => adexists
  end.
Definition AdExistsInTableOrTransaction (in_table : string -> D -> bool) (key : string) (s : ClassAdLog)
  : ClassAdLog * bool :=
  let adexists := in_table key (table s) in
  match active_transaction s with
  | None => (s, adexists)
  | Some t =>
      let '(t', b) := for_entries key exists_entry adexists t in (set_active_transaction (Some t') s, b)
  end.

(** The names a transaction refers to for a key. *)
Definition name_entry (r : gset string * Z) (log : LogRecord) : gset string * Z :=
  match log with
  | LogSetAttribute _ lname _ _ | LogDeleteAttribute _ lname => ({[attr_key lname]} ∪ r.1, r.2 + 1)
  | _ => r
  end.
Definition AddAttrNamesFromTransaction (key : string) (attrs : gset string) (s : ClassAdLog)
  : ClassAdLog * (gset string * bool) :=
  match active_transaction s with
  | None => (s, (attrs, false))
  | Some t =>
      let '(t', (attrs', found)) := for_entries key name_entry (attrs, 0) t in
      (set_active_transaction (Some t') s, (attrs', 0 <? found))
  end.
End data.
End log.
