(* ===== verification/ClassAdLogFacts.v ===== *)
(** * The ClassAd log: reading back what was written, whole or torn

    [reads f s x]: the reader [f] gets [x] out of [s] and leaves what follows, and fails at
    the end of the file when only a part of [s] is there. *)
From Stdlib Require Import ZArith Lia Ascii String.
From stdpp Require Import base list gmap strings.
From S2P Require Import Prelude Double Numerals Tree Values Lexer FlatMap AdStore Parser Unparser LexerFacts HashTable HashTableFacts ClassAdLog.
Open Scope res_scope.

(** ** Readers *)
Section readers.
Context {A B : Type}.

Record reads (f : Reader A) (s : text) (x : A) : Prop := {
  reads_whole rest : f (s ++ rest) = (Some x, rest);
  reads_torn p q : s = p ++ q -> q <> [] -> f p = (None, [])
}.

(** The same, but a part of [s] may be enough. *)
Record reads_lax (f : Reader A) (s : text) (x : A) : Prop := {
  lax_whole rest : f (s ++ rest) = (Some x, rest);
  lax_torn p q : s = p ++ q -> q <> [] -> f p = (None, []) \/ f p = (Some x, [])
}.
End readers.

Lemma reads_to_lax {A} (f : Reader A) s x : reads f s x -> reads_lax f s x.
Proof. intros [H1 H2]. split; [done|]. intros p q E Hq. left. by eapply H2. Qed.

Lemma prefix_cases {A} (p q s1 s2 : list A) : s1 ++ s2 = p ++ q ->
  (exists q', s1 = p ++ q' /\ q' <> []) \/ exists p', p = s1 ++ p' /\ s2 = p' ++ q.
Proof.
  intros E. apply app_eq_inv in E as [(k&E1&E2)|(k&E1&E2)].
  - destruct k as [|c k].
    + rewrite app_nil_r in E1. subst. right. exists []. by rewrite app_nil_r.
    + left. by exists (c :: k).
  - right. exists k. done.
Qed.

Lemma reads_bind {A B} (f : Reader A) (g : A -> Reader B) s1 s2 x y :
  reads f s1 x -> reads_lax (g x) s2 y -> reads_lax (read! v := f in g v) (s1 ++ s2) y.
Proof.
  intros [Hw Ht] [Gw Gt]. split.
  - intros rest. unfold rd_bind. by rewrite <- app_assoc, Hw.
  - intros p q E Hq. unfold rd_bind. destruct (prefix_cases _ _ _ _ E) as [(q'&E1&Hq')|(p'&->&E2)].
    + rewrite (Ht p q') by done. by left.
    + rewrite Hw. by eapply Gt.
Qed.

Lemma reads_bind_strict {A B} (f : Reader A) (g : A -> Reader B) s1 s2 x y :
  reads f s1 x -> reads (g x) s2 y -> reads (read! v := f in g v) (s1 ++ s2) y.
Proof.
  intros [Hw Ht] [Gw Gt]. split.
  - intros rest. unfold rd_bind. by rewrite <- app_assoc, Hw.
  - intros p q E Hq. unfold rd_bind. destruct (prefix_cases _ _ _ _ E) as [(q'&E1&Hq')|(p'&->&E2)].
    + by rewrite (Ht p q').
    + rewrite Hw. by eapply Gt.
Qed.

(** A last step that reads nothing. *)
Lemma reads_last {A B} (f : Reader A) (g : A -> Reader B) s x y :
  reads f s x -> (forall fp, g x fp = (Some y, fp)) -> reads (read! v := f in g v) s y.
Proof.
  intros [Hw Ht] Hg. split.
  - intros rest. unfold rd_bind. by rewrite Hw, Hg.
  - intros p q E Hq. unfold rd_bind. by rewrite (Ht p q).
Qed.
Lemma reads_lax_last {A B} (f : Reader A) (g : A -> Reader B) s x y :
  reads_lax f s x -> (forall fp, g x fp = (Some y, fp)) -> reads_lax (read! v := f in g v) s y.
Proof.
  intros [Hw Ht] Hg. split.
  - intros rest. unfold rd_bind. by rewrite Hw, Hg.
  - intros p q E Hq. unfold rd_bind. destruct (Ht p q E Hq) as [->| ->]; [by left|right]. by rewrite Hg.
Qed.

(** ** Words and lines *)
Definition plain (stop : ascii -> bool) (c : ascii) : bool := negb (stop c) && negb (Ascii.eqb c zero).
Definition word (s : string) : Prop := s <> ""%string /\ forallb (plain isspace) (txt s) = true.
Definition line (s : string) : Prop := s <> ""%string /\ forallb (plain (Ascii.eqb newline)) (txt s) = true.

Lemma plain_spec stop c : plain stop c = true -> stop c = false /\ Ascii.eqb c zero = false.
Proof. unfold plain. intros [?%negb_true_iff ?%negb_true_iff]%andb_prop. done. Qed.

Section scan.
Variables (stop : ascii -> bool) (e : ascii).
Hypothesis He : stop e = true.
Hypothesis Hz : Ascii.eqb e zero = false.

Lemma scan_whole w : forall buf c rest, forallb (plain stop) (c :: w) = true ->
  scan_loop stop buf c (w ++ e :: rest) = (Some (buf ++ c :: w), rest).
Proof.
  induction w as [|c' w IH]; intros buf c rest Hp; cbn [forallb] in Hp;
    apply andb_prop in Hp as [[Hc _]%plain_spec Hw]; simpl; rewrite Hc.
  - rewrite Hz. destruct rest; simpl; rewrite He; by destruct buf.
  - pose proof Hw as Hw'. cbn [forallb] in Hw'. apply andb_prop in Hw' as [[_ Hc']%plain_spec _].
    rewrite Hc', IH by done. by rewrite <- app_assoc.
Qed.

Lemma scan_torn w : forall buf c, forallb (plain stop) (c :: w) = true -> scan_loop stop buf c w = (None, []).
Proof.
  induction w as [|c' w IH]; intros buf c Hp; cbn [forallb] in Hp;
    apply andb_prop in Hp as [[Hc _]%plain_spec Hw]; simpl; rewrite Hc; [done|].
  pose proof Hw as Hw'. cbn [forallb] in Hw'. apply andb_prop in Hw' as [[_ Hc']%plain_spec _].
  rewrite Hc'. by apply IH.
Qed.
End scan.

(** A part of a word and its terminator is a part of the word. *)
Lemma torn_word (w p q : text) (e : ascii) : w ++ [e] = p ++ q -> q <> [] -> exists q', w = p ++ q'.
Proof.
  intros E Hq. destruct (exists_last Hq) as (q'&e'&->). rewrite app_assoc in E.
  apply app_inj_tail in E as [-> _]. by exists q'.
Qed.

Lemma reads_readword s e : word s -> isspace e = true -> reads readword (txt s ++ [e]) s.
Proof.
  intros [Hne Hw] He. assert (Hz : Ascii.eqb e zero = false) by (by destruct (Ascii.eqb_spec e zero) as [->|]).
  assert (Hfirst : forall c w, forallb (plain isspace) (c :: w) = true -> skip_leading (c :: w) = (Some c, w)).
  { intros c w Hp. cbn [forallb] in Hp. apply andb_prop in Hp as [[Hc Hc0]%plain_spec _]. simpl. by rewrite Hc0, Hc. }
  split.
  - intros rest. destruct (txt s) as [|c w] eqn:Es; [by destruct s|]. unfold readword, rd_bind.
    rewrite <- app_assoc. simpl app. cbn [forallb] in Hw. pose proof Hw as Hw'.
    apply andb_prop in Hw' as [[Hc Hc0]%plain_spec _].
    simpl. rewrite Hc0, Hc. simpl. rewrite (scan_whole isspace e He Hz w [] c rest Hw).
    unfold rd_ret. simpl. rewrite <- (of_text_txt s), Es. done.
  - intros p q E Hq. destruct (torn_word _ _ _ _ E Hq) as [q' Eq]. rewrite Eq in Hw.
    rewrite forallb_app in Hw. apply andb_prop in Hw as [Hp _]. destruct p as [|c w]; [done|].
    unfold readword, rd_bind. rewrite (Hfirst c w Hp). by rewrite (scan_torn isspace w [] c Hp).
Qed.

Lemma reads_readline s : line s -> reads readline (txt s ++ [newline]) s.
Proof.
  intros [Hne Hw]. split.
  - intros rest. destruct (txt s) as [|c w] eqn:Es; [by destruct s|]. unfold readline, rd_bind.
    rewrite <- app_assoc. simpl app. cbn [forallb] in Hw. pose proof Hw as Hw'.
    apply andb_prop in Hw' as [[Hc Hc0]%plain_spec _]. simpl. rewrite Hc0.
    rewrite (scan_whole (Ascii.eqb newline) newline eq_refl eq_refl w [] c rest Hw).
    unfold rd_ret. simpl. rewrite <- (of_text_txt s), Es. done.
  - intros p q E Hq. destruct (torn_word _ _ _ _ E Hq) as [q' Eq]. rewrite Eq in Hw.
    rewrite forallb_app in Hw. apply andb_prop in Hw as [Hp _]. destruct p as [|c w]; [done|].
    pose proof Hp as Hp'. cbn [forallb] in Hp'. apply andb_prop in Hp' as [[Hc Hc0]%plain_spec _].
    unfold readline, rd_bind. simpl. rewrite Hc0. by rewrite (scan_torn (Ascii.eqb newline) w [] c Hp).
Qed.

Lemma reads_optional s e : word s -> isspace e = true -> reads_lax read_optional_word (txt s ++ [e]) ().
Proof.
  intros Hs He. destruct (reads_readword s e Hs He) as [Hw Ht]. unfold read_optional_word. split.
  - intros rest. by rewrite Hw.
  - intros p q E Hq. right. by rewrite (Ht p q).
Qed.

(** ** Numbers *)
Lemma digits_text_spec l : 0 <= l < two64 -> decimal_digits l (digits l).
Proof.
  intros Hl. unfold two64 in Hl. destruct (digits_loop_spec 20 l []) as (d&E&Hd); [|lia|].
  - change (10 ^ Z.of_nat 20) with 100000000000000000000. lia.
  - unfold digits. by rewrite E, app_nil_r.
Qed.

Lemma digits_word l : 0 <= l < two64 -> word (of_text (digits l)) /\ txt (of_text (digits l)) = digits l.
Proof.
  intros Hl. destruct (digits_text_spec l Hl) as [Hd Hn _ _].
  assert (E : txt (of_text (digits l)) = digits l) by apply list_ascii_of_string_of_list_ascii.
  split; [|done]. split; [intros Es; apply Hn; by rewrite <- E, Es|]. rewrite E.
  eapply forallb_forall. intros c Hc. rewrite forallb_forall in Hd. specialize (Hd c Hc).
  unfold plain. destruct (digit_head c Hd) as (_&->&_). by destruct (Ascii.eqb_spec c zero) as [->|].
Qed.

Lemma span_digits_all d : forallb isdigit d = true -> span_digits d = (d, []).
Proof. intros Hd. pose proof (span_digits_app d [] Hd I) as E. by rewrite app_nil_r in E. Qed.

Lemma deserialize_digits l : 0 <= l < two64 ->
  deserialize_ulong (of_text (digits l)) = Some l /\
  (l < two63 -> deserialize_long (of_text (digits l)) = Some l).
Proof.
  intros Hl. destruct (digits_text_spec l Hl) as [Hd Hn Hv _]. specialize (Hv 0 []). rewrite app_nil_r in Hv.
  rewrite Z.mul_0_l in Hv. cbn [digits_value] in Hv. rewrite Z.add_0_l in Hv. unfold deserialize_ulong, deserialize_long. destruct (digits_word l Hl) as [_ ->].
  destruct (digits l) as [|c d] eqn:E; [done|]. pose proof Hd as Hd'. simpl in Hd'.
  apply andb_prop in Hd' as [Hc _]. destruct (digit_head c Hc) as (Hm&Hsp&_).
  assert (Hplus : Ascii.eqb c "+" = false) by (by destruct (Ascii.eqb_spec c "+") as [->|]).
  unfold strtoull, strtol. cbn [skip_space]. rewrite Hsp, Hm, Hplus, (span_digits_all _ Hd), Hv.
  cbn [length Nat.eqb]. split.
  - destruct (Z.ltb_spec (two64 - 1) l); [lia|done].
  - intros H63. unfold INT64_MIN, INT64_MAX, two63 in *. do 2 f_equal. lia.
Qed.

(** ** Records *)
Section records.
Variable oldSemantics : bool.
Variables MakeAbsTime MakeRelTime : string -> option ExprTree.
Variable strict_parsing : bool.

Abbreviation parses := (ParseClassAdRvalExpr_ok oldSemantics MakeAbsTime MakeRelTime).
Abbreviation ReadLogEntry := (ReadLogEntry oldSemantics MakeAbsTime MakeRelTime strict_parsing).
Abbreviation ReadBody := (ReadBody oldSemantics MakeAbsTime MakeRelTime strict_parsing).

(** The records whose text can be read back: keys and names are words, values and comments
    are lines, a value is an expression, numbers fit. *)
Definition record_ok (r : LogRecord) : Prop :=
  match r with
  | LogHistoricalSequenceNumber n t => 0 <= n < two64 /\ 0 <= t < two63
  | LogNewClassAd key mytype =>
      word key /\ (mytype = ""%string \/ word mytype /\ mytype <> EMPTY_CLASSAD_TYPE_NAME)
  | LogDestroyClassAd key => word key
  | LogSetAttribute key name value _ => word key /\ word name /\ line value /\ parses value = true
  | LogDeleteAttribute key name => word key /\ word name
  | LogBeginTransaction => True
  | LogEndTransaction comment => from_option line True comment
  | LogRecordError _ => False
  end.

(** What is read: the dirty mark is not written. *)
Definition read_back (r : LogRecord) : LogRecord :=
  match r with
  | LogSetAttribute key name value _ => LogSetAttribute key name value false
  | _ => r
  end.

Definition record_text (r : LogRecord) : text := (Write r).1.

Lemma word_no_newline s : word s -> existsb (Ascii.eqb newline) (txt s) = false.
Proof.
  intros [_ Hw]. apply not_true_is_false. intros (c&Hc&E)%existsb_exists.
  apply Ascii.eqb_eq in E as <-. rewrite forallb_forall in Hw. by specialize (Hw _ Hc).
Qed.
Lemma line_no_newline s : line s -> existsb (Ascii.eqb newline) (txt s) = false.
Proof.
  intros [_ Hw]. apply not_true_is_false. intros (c&Hc&E)%existsb_exists.
  apply Ascii.eqb_eq in E as <-. rewrite forallb_forall in Hw. by specialize (Hw _ Hc).
Qed.

Lemma written_targettype_word mytype : mytype = ""%string \/ word mytype -> word (written_targettype mytype).
Proof.
  intros Hm. unfold written_targettype.
  destruct (strcasecmp mytype "Job"); [by vm_compute| |];
    (destruct mytype as [|c m]; [by vm_compute|]; destruct Hm as [?|Hm]; [done|];
     destruct (Ascii.eqb c "*"); [exact Hm|by vm_compute]).
Qed.

Lemma strict_lax {A} (f : Reader A) body x (P : Prop) :
  reads f body x -> reads_lax f body x /\ (P -> reads f body x).
Proof. intros H. split; [by apply reads_to_lax|auto]. Qed.

Lemma reads_fread1 c : reads fread1 [c] c.
Proof.
  split; [done|]. intros p q E Hq. destruct p as [|c' p]; [done|]. simpl in E. injection E as _ E.
  by destruct p, q.
Qed.

(** The text of a good record: the header, then a body that the reader reads. *)
Lemma write_ok r : record_ok r -> exists body, Write r = (WriteHeader r ++ body, true) /\
  reads_lax (ReadBody (get_op_type r)) body (read_back r) /\
  ((forall key mytype, r <> LogNewClassAd key mytype) -> reads (ReadBody (get_op_type r)) body (read_back r)).
Proof.
  pose proof (eq_refl : isspace " " = true) as Hsp. pose proof (eq_refl : isspace newline = true) as Hnl.
  destruct r as [n t|key mytype|key|key name value dirty|key name| |comment|body]; intros Hok.
  - destruct Hok as [Hn Ht]. assert (Ht' : 0 <= t < two64) by (unfold two63, two64 in *; lia).
    destruct (digits_word n Hn) as [Wn En], (digits_word t Ht') as [Wt Et].
    exists ((digits n ++ [" "%char]) ++ (txt "CreationTimestamp" ++ [" "%char]) ++ (digits t ++ [newline])).
    split; [unfold Write; cbn [WriteBody]; rewrite Z.mod_small by done; by rewrite <- !app_assoc|].
    apply strict_lax. rewrite <- En, <- Et.
    eapply reads_bind_strict; [by apply reads_readword|]. eapply reads_bind_strict; [by apply reads_readword|].
    eapply reads_last; [by apply reads_readword|]. intros fp. unfold rd_ret.
    by rewrite (proj1 (deserialize_digits n Hn)), (proj2 (deserialize_digits t Ht') (proj2 Ht)).
  - destruct Hok as [Hk Hm]. set (s := if String.eqb mytype "" then EMPTY_CLASSAD_TYPE_NAME else mytype).
    assert (Hs : word s).
    { unfold s. destruct (String.eqb_spec mytype ""); [by vm_compute|]. by destruct Hm as [?|[? _]]. }
    exists ((txt key ++ [" "%char]) ++ (txt s ++ [" "%char]) ++ (txt (written_targettype mytype) ++ [newline])).
    split; [unfold Write; cbn [WriteBody]; fold s; by rewrite <- !app_assoc|].
    split; [|intros Hr; by destruct (Hr key mytype)].
    eapply reads_bind; [by apply reads_readword|]. eapply reads_bind; [by apply reads_readword|].
    eapply reads_lax_last; [apply reads_optional; [|done]; apply written_targettype_word; tauto|].
    intros fp. unfold rd_ret, s. destruct (String.eqb_spec mytype "") as [->|Hne]; [done|].
    destruct Hm as [?|[_ Hm]]; [done|]. by rewrite (proj2 (String.eqb_neq _ _) Hm).
  - exists (txt key ++ [newline]). split; [done|]. apply strict_lax.
    eapply reads_last; [by apply reads_readword|done].
  - destruct Hok as (Hk&Hn&Hv&Hp).
    exists ((txt key ++ [" "%char]) ++ (txt name ++ [" "%char]) ++ (txt value ++ [newline])). split.
    + unfold Write. cbn [WriteBody]. rewrite !word_no_newline, line_no_newline by done. cbn [orb].
      by rewrite <- !app_assoc.
    + apply strict_lax. eapply reads_bind_strict; [by apply reads_readword|].
      eapply reads_bind_strict; [by apply reads_readword|]. eapply reads_last; [by apply reads_readline|].
      intros fp. by rewrite Hp.
  - destruct Hok as (Hk&Hn). exists ((txt key ++ [" "%char]) ++ (txt name ++ [newline])).
    split; [unfold Write; cbn [WriteBody]; by rewrite <- !app_assoc|].
    apply strict_lax. eapply reads_bind_strict; [by apply reads_readword|].
    eapply reads_last; [by apply reads_readword|done].
  - exists [newline]. split; [done|]. apply strict_lax. eapply (reads_last _ _ [newline]); [apply reads_fread1|done].
  - destruct comment as [c|].
    + simpl in Hok. exists ("#"%char :: txt c ++ [newline]). split.
      { unfold Write. cbn [WriteBody]. by rewrite (proj2 (String.eqb_neq _ _) (proj1 Hok)). }
      apply strict_lax. eapply (reads_bind_strict _ _ ["#"%char]); [apply reads_fread1|].
      eapply reads_last; [by apply reads_readline|done].
    + exists [newline]. split; [done|]. apply strict_lax.
      eapply (reads_last _ _ [newline]); [apply reads_fread1|done].
  - done.
Qed.

(** The header of a record is read as its type. *)
Lemma reads_header r : record_ok r -> reads readword (WriteHeader r) (of_text (append_long [] (get_op_type r))).
Proof.
  intros Hok. unfold WriteHeader. rewrite <- (list_ascii_of_string_of_list_ascii (append_long [] _)) at 1.
  apply reads_readword; [|done]. destruct r; try done; by vm_compute.
Qed.

Lemma read_header r x : record_ok r -> ReadLogEntry (WriteHeader r ++ x) =
  InstantiateLogEntry oldSemantics MakeAbsTime MakeRelTime strict_parsing (get_op_type r) x.
Proof.
  intros Hok. unfold ClassAdLog.ReadLogEntry. rewrite (reads_whole _ _ _ (reads_header r Hok)).
  by destruct r.
Qed.

(** Reading back a record that was written. *)
Lemma read_written r rest : record_ok r -> ReadLogEntry (record_text r ++ rest) = Ret (Some (read_back r)) rest.
Proof.
  intros Hok. destruct (write_ok r Hok) as (body&E&[Hw _]&_). unfold record_text. rewrite E. cbn [fst].
  rewrite <- app_assoc, read_header by done. unfold InstantiateLogEntry. rewrite Hw.
  by destruct r.
Qed.

Lemma read_end : ReadLogEntry [] = Ret None [].
Proof. done. Qed.

(** Reading a record of which only a part was written: nothing, and nothing is left; but the
    part of a new ClassAd up to its type is enough. *)
Lemma read_torn r p q : record_ok r -> record_text r = p ++ q -> q <> [] ->
  ReadLogEntry p = Ret None [] \/
  (ReadLogEntry p = Ret (Some (read_back r)) [] /\ exists key mytype, r = LogNewClassAd key mytype).
Proof.
  intros Hok E Hq. destruct (write_ok r Hok) as (body&Ew&[_ Hl]&Hs). unfold record_text in E.
  rewrite Ew in E. cbn [fst] in E. destruct (prefix_cases _ _ _ _ E) as [(q'&E1&Hq')|(p'&->&E2)].
  - left. unfold ClassAdLog.ReadLogEntry. by rewrite (reads_torn _ _ _ (reads_header r Hok) p q').
  - rewrite read_header by done. unfold InstantiateLogEntry.
    assert (Hcase : (exists key mytype, r = LogNewClassAd key mytype) \/ (forall key mytype, r <> LogNewClassAd key mytype))
      by (destruct r; eauto).
    destruct Hcase as [Hnew|Hnew].
    + destruct (Hl p' q E2 Hq) as [->| ->]; [by left|]. right. split; [|done]. by destruct r.
    + left. rewrite (reads_torn _ _ _ (Hs Hnew) p' q) by done. done.
Qed.

(** C18: a record survives the log. The write of a record that has words for its keys and
    names, lines for its values and comments and expressions for its values succeeds;
    reading the entry gives the record back, up to its dirty mark, and leaves what follows.
    When only a part of it was written, reading finds no entry and nothing more, except that
    a new ClassAd may be read from a part of its text. *)
Theorem record_survives r : record_ok r ->
  (Write r).2 = true /\
  (forall rest, ReadLogEntry ((Write r).1 ++ rest) = Ret (Some (read_back r)) rest) /\
  (forall p q, (Write r).1 = p ++ q -> q <> [] ->
    ReadLogEntry p = Ret None [] \/
    (ReadLogEntry p = Ret (Some (read_back r)) [] /\ get_op_type r = CondorLogOp_NewClassAd)).
Proof.
  intros Hok. split_and!.
  - destruct (write_ok r Hok) as (body&->&_). done.
  - intros rest. by apply read_written.
  - intros p q E Hq. destruct (read_torn r p q Hok E Hq) as [?|(?&key&mytype&->)]; [by left|by right].
Qed.
End records.

Lemma record_survives_witness :
  let no_time := fun _ : string => None in
  let r := LogSetAttribute "1.0" "Requirements" "target.Memory > 5" true in
  record_ok true no_time no_time r /\
  ((Write r).2 = true /\
   (forall rest, ReadLogEntry true no_time no_time true ((Write r).1 ++ rest) = Ret (Some (read_back r)) rest) /\
   (forall p q, (Write r).1 = p ++ q -> q <> [] ->
     ReadLogEntry true no_time no_time true p = Ret None [] \/
     (ReadLogEntry true no_time no_time true p = Ret (Some (read_back r)) [] /\ get_op_type r = CondorLogOp_NewClassAd))).
Proof.
  intros no_time r.
  assert (Hok : record_ok true no_time no_time r).
  { split_and!; try (split; [discriminate|vm_compute; reflexivity]). vm_compute. reflexivity. }
  split; [exact Hok|]. exact (record_survives true no_time no_time true r Hok).
Defined.
