(* ===== verification/ClassAdLogLoad.v ===== *)
(** * Loading a ClassAd log returns, whatever the file holds

    Every entry uses up a part of the file, and so does every line that is skipped after a
    corrupt record. *)
From Stdlib Require Import ZArith Lia Ascii String.
From stdpp Require Import base list gmap strings.
From S2P Require Import Prelude Double Numerals Tree Values Lexer FlatMap AdStore Parser Unparser HashTable ClassAdLog ClassAdLogFacts.
Open Scope res_scope.

(** A reader that leaves no more than it found, and less if it succeeds. *)
Definition uses {A} (f : Reader A) : Prop :=
  forall fp, match f fp with
             | (Some _, fp') => (length fp' < length fp)%nat
             | (None, fp') => (length fp' <= length fp)%nat
             end.
Definition shrinks {A} (f : Reader A) : Prop := forall fp, (length (f fp).2 <= length fp)%nat.

Lemma uses_shrinks {A} (f : Reader A) : uses f -> shrinks f.
Proof. intros Hf fp. specialize (Hf fp). destruct (f fp) as [[a|] fp']; simpl; lia. Qed.

Lemma shrinks_bind {A B} (f : Reader A) (g : A -> Reader B) :
  shrinks f -> (forall a, shrinks (g a)) -> shrinks (read! v := f in g v).
Proof.
  intros Hf Hg fp. unfold rd_bind. specialize (Hf fp). destruct (f fp) as [[a|] fp']; simpl in Hf |- *; [|done].
  specialize (Hg a fp'). lia.
Qed.
Lemma shrinks_ret {A} (a : A) : shrinks (rd_ret a).
Proof. intros fp. simpl. lia. Qed.
Lemma shrinks_fail {A} : shrinks (@rd_fail A).
Proof. intros fp. simpl. lia. Qed.

Lemma scan_loop_length stop fp : forall buf last,
  (length (scan_loop stop buf last fp).2 <= length fp)%nat.
Proof.
  induction fp as [|c fp IH]; intros buf last; simpl.
  - by destruct (stop last).
  - destruct (stop last); simpl; [lia|]. destruct (Ascii.eqb c zero); simpl; [lia|].
    specialize (IH (buf ++ [last]) c). lia.
Qed.

Lemma skip_leading_uses : uses skip_leading.
Proof.
  intros fp. induction fp as [|c fp IH]; simpl; [done|].
  destruct (Ascii.eqb c zero); simpl; [lia|]. destruct (isspace c && negb (Ascii.eqb c newline)); simpl; [|lia].
  destruct (skip_leading fp) as [[a|] fp']; lia.
Qed.
Lemma getc_uses : uses getc.
Proof. intros [|c fp]; simpl; [done|]. destruct (Ascii.eqb c zero); lia. Qed.

(** A first character, then a scan. *)
Lemma scan_uses (first : Reader ascii) stop : uses first ->
  uses (read! c := first in read! w := scan_loop stop [] c in rd_ret (of_text w)).
Proof.
  intros Hf fp. unfold rd_bind, rd_ret. specialize (Hf fp). destruct (first fp) as [[c|] fp']; [|done].
  pose proof (scan_loop_length stop fp' [] c) as Hs. destruct (scan_loop stop [] c fp') as [[w|] fp2]; simpl in Hs; lia.
Qed.
Lemma readword_uses : uses readword.
Proof. apply scan_uses, skip_leading_uses. Qed.
Lemma readline_uses : uses readline.
Proof. apply scan_uses, getc_uses. Qed.
Lemma fread1_shrinks : shrinks fread1.
Proof. intros [|c fp]; simpl; lia. Qed.
Lemma optional_shrinks : shrinks read_optional_word.
Proof. intros fp. apply (uses_shrinks _ readword_uses fp). Qed.

Create HintDb reader.
#[export] Hint Resolve shrinks_bind shrinks_ret shrinks_fail fread1_shrinks optional_shrinks : reader.
#[export] Hint Extern 2 (shrinks readword) => exact (uses_shrinks _ readword_uses) : reader.
#[export] Hint Extern 2 (shrinks readline) => exact (uses_shrinks _ readline_uses) : reader.

Section load.
Variable oldSemantics : bool.
Variables MakeAbsTime MakeRelTime : string -> option ExprTree.
Variable strict_parsing : bool.

Lemma ReadBody_shrinks type : shrinks (ReadBody oldSemantics MakeAbsTime MakeRelTime strict_parsing type).
Proof.
  unfold ReadBody. repeat case_match; repeat (apply shrinks_bind; [auto with reader|intros ?]);
    repeat case_match; auto with reader; try (apply shrinks_bind; [auto with reader|intros ?; apply shrinks_ret]).
  intros fp. pose proof (uses_shrinks _ readline_uses fp) as Hr. by destruct (readline fp).
Qed.

Lemma fgets_length k fp : fp <> [] -> (length (fgets (S k) fp).2 < length fp)%nat.
Proof.
  assert (Hle : forall n fp, (length (fgets n fp).2 <= length fp)%nat).
  { induction n as [|n IH]; intros [|c fp']; simpl; try lia. destruct (Ascii.eqb c newline); simpl; [lia|].
    specialize (IH fp'). destruct (fgets n fp'). simpl in *. lia. }
  destruct fp as [|c fp]; [done|]. intros _. simpl. destruct (Ascii.eqb c newline); simpl; [lia|].
  specialize (Hle k fp). destruct (fgets k fp). simpl in *. lia.
Qed.

(** The skipping ends: at the end of the file, or at the end of a transaction. *)
Lemma skip_corrupt_ends n : forall fp, (length fp < n)%nat ->
  skip_corrupt n fp = Ret None [] \/ skip_corrupt n fp = Except.
Proof.
  induction n as [|n IH]; intros fp Hn; [lia|]. cbn [skip_corrupt]. destruct fp as [|c fp]; [by left|].
  pose proof (fgets_length (10240 + 64 - 2) (c :: fp) ltac:(done)) as Hf.
  change (S (10240 + 64 - 2)) with (10240 + 64 - 1)%nat in Hf.
  destruct (fgets (10240 + 64 - 1) (c :: fp)) as [line fp']. cbn [snd] in Hf.
  destruct (decide _); [by right|]. apply IH. simpl in *. lia.
Qed.

Lemma ReadLogEntry_ends fp : let o := ReadLogEntry oldSemantics MakeAbsTime MakeRelTime strict_parsing fp in
  o = Except \/ exists r fp', o = Ret r fp' /\ (is_Some r -> length fp' < length fp)%nat.
Proof.
  simpl. unfold ReadLogEntry. pose proof (readword_uses fp) as Hw. destruct (readword fp) as [[w|] fp1].
  - unfold InstantiateLogEntry. set (type := match deserialize_int w with Some _ => _ | None => _ end).
    pose proof (ReadBody_shrinks type fp1) as Hb.
    destruct (ReadBody _ _ _ _ type fp1) as [[r|] fp2]; cbn [snd] in Hb.
    + destruct (get_op_type r =? CondorLogOp_Error).
      * destruct (skip_corrupt_ends (S (length fp2)) fp2 ltac:(lia)) as [->| ->]; [|by left].
        right. exists None, []. split; [done|]. by intros [].
      * right. exists (Some r), fp2. split; [done|]. intros _. lia.
    + destruct (skip_corrupt_ends (S (length fp2)) fp2 ltac:(lia)) as [->| ->]; [|by left].
      right. exists None, []. split; [done|]. by intros [].
  - right. exists None, fp1. split; [done|]. by intros [].
Qed.

Context {D : Type} `{DataStructure D}.

(** Playing a record returns or aborts. *)
Hypothesis Play_ends : forall r d, Play r d <> NoFuel.

Lemma Commit_loop_ends logs : forall fp (d : D), Commit_loop logs fp d <> NoFuel.
Proof.
  induction logs as [|r logs IH]; intros fp d; simpl; [done|]. destruct (write_record r fp) as [fp'|]; [|done].
  unfold rbind. pose proof (Play_ends r d) as Hp. by destruct (Play r d).
Qed.

Lemma load_entry_ends r ld (d : D) : load_entry r ld d <> NoFuel.
Proof.
  destruct ld as [t count seq birth clean errs]. unfold load_entry, Commit, rbind, rret.
  destruct r; repeat case_match; try done; intros _;
    match goal with
    | E : Commit_loop _ _ _ = NoFuel |- _ => by apply Commit_loop_ends in E
    | E : Play _ _ = NoFuel |- _ => by apply Play_ends in E
    end.
Qed.

Lemma load_loop_ends n : forall next fp ld (d : D), (length fp < n)%nat ->
  load_loop oldSemantics MakeAbsTime MakeRelTime strict_parsing n next fp ld d <> NoFuel.
Proof.
  induction n as [|n IH]; intros next fp ld d Hn; [lia|]. cbn [load_loop].
  destruct (ReadLogEntry_ends fp) as [->|([r|]&fp'&->&Hl)]; [done| |done].
  unfold rbind. pose proof (load_entry_ends r ld d) as He. destruct (load_entry r ld d) as [[ld'|] d'| |]; [|done..].
  apply IH. specialize (Hl ltac:(by eexists)). lia.
Qed.

End load.

(** The records themselves as data. *)
#[local] Program Instance history : DataStructure (list LogRecord) := {|
  Play r d := if decide (get_key r = None) then Ret 1 d else Ret 0 (d ++ [r])
|}.
Next Obligation. intros [] d [?|?]; done. Qed.

