(* ===== verification/ClassAdLogRecovery.v ===== *)
(** * The ClassAd log survives crashes

    An abstract log promises atomic units of records, some of them durable; [ClassAdLog]
    implements it: what is loaded from any part of the file that a crash can leave is a
    prefix of the units, with all the durable ones. *)
From Stdlib Require Import ZArith Lia Ascii String.
From stdpp Require Import base list gmap strings.
From S2P Require Import Prelude Double Numerals Tree Values Lexer FlatMap AdStore Parser Unparser LexerFacts HashTable HashTableFacts ClassAdLog ClassAdLogFacts.
Open Scope res_scope.

Section recovery.
Variable oldSemantics : bool.
Variables MakeAbsTime MakeRelTime : string -> option ExprTree.
Variable strict_parsing : bool.
Context {D : Type} `{DataStructure D}.

Abbreviation ReadLogEntry := (ReadLogEntry oldSemantics MakeAbsTime MakeRelTime strict_parsing).
Abbreviation record_ok := (record_ok oldSemantics MakeAbsTime MakeRelTime).
Abbreviation LoadClassAdLog := (LoadClassAdLog oldSemantics MakeAbsTime MakeRelTime strict_parsing).
Abbreviation load_loop := (load_loop oldSemantics MakeAbsTime MakeRelTime strict_parsing).

(** ** A file as a sequence of records *)
Definition records_text (rs : list LogRecord) : text := rs ≫= record_text.

Lemma records_text_app rs1 rs2 : records_text (rs1 ++ rs2) = records_text rs1 ++ records_text rs2.
Proof. apply bind_app. Qed.
Lemma records_text_cons r rs : records_text (r :: rs) = record_text r ++ records_text rs.
Proof. done. Qed.

(** Every record has a text. *)
Lemma record_text_pos r : (1 <= length (record_text r))%nat.
Proof.
  unfold record_text, Write. destruct (WriteBody r); simpl; rewrite ?length_app;
    unfold WriteHeader; rewrite ?length_app; simpl; lia.
Qed.

(** Reading [fp] entry by entry gives the records [rs] and then the end of the file. *)
Inductive sees : text -> list LogRecord -> Prop :=
| sees_end fp : ReadLogEntry fp = Ret None [] -> sees fp []
| sees_record fp r fp' rs :
    ReadLogEntry fp = Ret (Some r) fp' -> (length fp' < length fp)%nat -> sees fp' rs -> sees fp (r :: rs).

(** A part of the file shows a part of the records, with all those it has in full. *)
Lemma sees_prefix rs n : Forall record_ok rs -> exists k, (k <= length rs)%nat /\
  sees (take n (records_text rs)) (read_back <$> take k rs) /\
  forall m, (m <= length rs)%nat -> (length (records_text (take m rs)) <= n)%nat -> (m <= k)%nat.
Proof.
  intros Hok. revert n. induction Hok as [|r rs Hr Hrs IH]; intros n.
  - exists 0%nat. split_and!; [done| |simpl; lia]. simpl. rewrite take_nil. by apply sees_end.
  - rewrite records_text_cons. destruct (decide (length (record_text r) <= n)%nat) as [Hle|Hgt].
    + destruct (IH (n - length (record_text r))%nat) as (k&Hk&Hs&Hm). exists (S k). split_and!.
      * simpl. lia.
      * rewrite take_app, take_ge by lia. simpl. eapply sees_record; [by apply read_written| |exact Hs].
        rewrite length_app. pose proof (record_text_pos r). lia.
      * intros [|m] Hml Hlen; [lia|]. simpl take in Hlen. rewrite records_text_cons, length_app in Hlen.
        simpl in Hml. specialize (Hm m ltac:(lia) ltac:(lia)). lia.
    + rewrite take_app_le by lia.
      assert (Hmin : forall k, forall m, (m <= length (r :: rs))%nat ->
        (length (records_text (take m (r :: rs))) <= n)%nat -> (m <= k)%nat).
      { intros k [|m] Hml Hlen; [lia|]. simpl take in Hlen. rewrite records_text_cons, length_app in Hlen. lia. }
      destruct (read_torn oldSemantics MakeAbsTime MakeRelTime strict_parsing r (take n (record_text r))
        (drop n (record_text r)) Hr) as [E|[E _]].
      * by rewrite take_drop.
      * intros E. apply (f_equal length) in E. rewrite length_drop in E. simpl in E. lia.
      * exists 0%nat. split_and!; [lia|by apply sees_end|by apply Hmin].
      * exists 1%nat. split_and!; [simpl; lia| |by apply Hmin]. simpl.
        eapply sees_record; [exact E| |by apply sees_end].
        destruct (take n (record_text r)); [done|simpl; lia].
Qed.

(** ** Loading the records *)
Fixpoint load_records (rs : list LogRecord) (ld : Loading) (d : D) : Res D (option Loading) :=
  match rs with
  | [] => Ret (Some ld) d
  | r :: rs' => (let! o := load_entry r ld in
                 match o with None => rret None | Some ld' => load_records rs' ld' end) d
  end.

Lemma load_loop_next fp rs : sees fp rs -> forall n next, (length rs < n)%nat ->
  exists next', forall ld d, load_loop n next fp ld d =
    (let! o := load_records rs ld in rret ((fun ld' => (ld', next', [])) <$> o)) d.
Proof.
  induction 1 as [fp E|fp r fp' rs E _ Hs IH]; intros n next Hn; destruct n as [|n]; try (simpl in Hn; lia).
  - exists next. intros ld d. simpl. by rewrite E.
  - destruct (IH n fp' ltac:(simpl in Hn; lia)) as [next' IH']. exists next'. intros ld d. simpl.
    rewrite E. unfold rbind. destruct (load_entry r ld d) as [[ld'|] d'| |]; [by rewrite IH'|done..].
Qed.

Lemma sees_length fp rs : sees fp rs -> (length rs <= length fp)%nat.
Proof. induction 1; simpl; lia. Qed.

(** ** Units of work

    A record on its own, or the records of a transaction. *)
Inductive commit_unit :=
| Single (r : LogRecord)
| Bracketed (l : list LogRecord) (comment : option string).

(** The records in the file, and those among them that change the data. *)
Definition unit_records (u : commit_unit) : list LogRecord :=
  match u with
  | Single r => [r]
  | Bracketed l c => LogBeginTransaction :: l ++ [LogEnd_of_comment c]
  end.
Definition unit_data (u : commit_unit) : list LogRecord :=
  match u with Single r => [r] | Bracketed l _ => l end.
Definition file_records (us : list commit_unit) : list LogRecord := us ≫= unit_records.
Definition all_data (us : list commit_unit) : list LogRecord := us ≫= unit_data.

Definition is_data (r : LogRecord) : Prop := is_Some (get_key r).

(** Playing records one after the other. *)
Fixpoint play_records (l : list LogRecord) (d : D) : Res D unit :=
  match l with
  | [] => Ret tt d
  | r :: l' => (let! _ := Play r in play_records l') d
  end.

Lemma play_records_app l1 l2 d : play_records (l1 ++ l2) d = (let! _ := play_records l1 in play_records l2) d.
Proof.
  revert d. induction l1 as [|r l1 IH]; intros d; [done|]. simpl. unfold rbind in *.
  destruct (Play r d); [apply IH|done|done].
Qed.

(** Committing without a file is playing. *)
Lemma commit_plays l d : Commit_loop l None d = (let! _ := play_records l in rret None) d.
Proof.
  revert d. induction l as [|r l IH]; intros d; [done|]. simpl. unfold rbind in *.
  destruct (Play r d); [apply IH|done|done].
Qed.

Lemma AppendLog_ordered log t : ordered_op_log (Transaction_AppendLog log t) = ordered_op_log t ++ [log] /\
  m_EmptyTransaction (Transaction_AppendLog log t) = false.
Proof. unfold Transaction_AppendLog. by destruct (HashTable.lookup _ _ _). Qed.

(** Data records inside a transaction are only collected. *)
Lemma load_collects l ld t : Forall is_data l -> ld_transaction ld = Some t ->
  exists ld' t', ld_transaction ld' = Some t' /\ ordered_op_log t' = ordered_op_log t ++ l /\
    forall rest d, load_records (l ++ rest) ld d = load_records rest ld' d.
Proof.
  intros Hl. revert ld t. induction Hl as [|r l Hr Hl IH]; intros ld t Ht.
  - exists ld, t. by rewrite app_nil_r.
  - destruct ld as [t0 count seq birth clean errs]. simpl in Ht. subst t0.
    set (ld1 := mk_Loading (Some (Transaction_AppendLog r t)) (count + 1) seq birth clean errs).
    destruct (IH ld1 (Transaction_AppendLog r t) eq_refl) as (ld'&t'&Ht'&Ho&Hrest).
    exists ld', t'. split_and!; [done| |].
    + rewrite Ho. destruct (AppendLog_ordered r t) as [-> _]. by rewrite <- app_assoc.
    + intros rest d. rewrite <- Hrest. by destruct r; destruct Hr.
Qed.

(** A unit in full is played; without its end it changes nothing. *)
Lemma load_unit u ld : Forall is_data (unit_data u) -> ld_transaction ld = None ->
  exists ld', ld_transaction ld' = None /\ forall rest d,
    load_records (unit_records u ++ rest) ld d = (let! _ := play_records (unit_data u) in load_records rest ld') d.
Proof.
  intros Hu Ht. destruct ld as [t0 count seq birth clean errs]. simpl in Ht. subst t0.
  destruct u as [r|l c]; simpl in Hu.
  - exists (mk_Loading None (count + 1) seq birth clean errs). split; [done|]. intros rest d.
    inversion_clear Hu as [|? ? Hr _]. simpl. unfold rbind.
    destruct r; destruct Hr as [? Hr]; try done; simpl; unfold rbind; by destruct (Play _ d).
  - set (ld1 := mk_Loading (Some new_Transaction) (count + 1) seq birth false errs).
    destruct (load_collects l ld1 new_Transaction Hu eq_refl) as (ld2&t2&Ht2&Ho&Hrest).
    destruct ld2 as [t0 count2 seq2 birth2 clean2 errs2]. simpl in Ht2. subst t0.
    exists (mk_Loading None (count2 + 1) seq2 birth2 clean2 errs2). split; [done|]. intros rest d.
    cbn [unit_records unit_data app]. rewrite <- app_assoc.
    change (load_records (l ++ [LogEnd_of_comment c] ++ rest) ld1 d = (let! _ := play_records l in
      load_records rest (mk_Loading None (count2 + 1) seq2 birth2 clean2 errs2)) d).
    rewrite Hrest. cbn [app load_records].
    unfold load_entry, LogEnd_of_comment, Commit, rbind, rret. cbv iota beta. rewrite Ho. cbn [app]. change (ordered_op_log new_Transaction) with (@nil LogRecord).
    cbn [app]. rewrite commit_plays. unfold rbind, rret. by destruct (play_records l d).
Qed.

Lemma load_part u i ld : Forall is_data (unit_data u) -> ld_transaction ld = None -> (i < length (unit_records u))%nat ->
  exists ld', forall d, load_records (take i (unit_records u)) ld d = Ret (Some ld') d.
Proof.
  intros Hu Ht Hi. destruct u as [r|l c]; simpl in Hu, Hi.
  - assert (i = 0%nat) as -> by lia. by exists ld.
  - destruct i as [|i]; [by exists ld|]. rewrite length_app in Hi. simpl in Hi.
    destruct ld as [t0 count seq birth clean errs]. simpl in Ht. subst t0.
    set (ld1 := mk_Loading (Some new_Transaction) (count + 1) seq birth false errs).
    destruct (load_collects (take i l) ld1 new_Transaction) as (ld2&t2&_&_&Hrest);
      [by apply Forall_take|done|].
    exists ld2. intros d. cbn [unit_records]. simpl take. rewrite take_app_le by lia.
    change (load_records (take i l) ld1 d = Ret (Some ld2) d). rewrite <- (app_nil_r (take i l)). by rewrite Hrest.
Qed.

Lemma load_units us ld : Forall (fun u => Forall is_data (unit_data u)) us -> ld_transaction ld = None ->
  exists ld', ld_transaction ld' = None /\ forall rest d,
    load_records (file_records us ++ rest) ld d = (let! _ := play_records (all_data us) in load_records rest ld') d.
Proof.
  intros Hus. revert ld. induction Hus as [|u us Hu Hus IH]; intros ld Ht; [by exists ld|].
  destruct (load_unit u ld Hu Ht) as (ld1&Ht1&H1). destruct (IH ld1 Ht1) as (ld2&Ht2&H2).
  exists ld2. split; [done|]. intros rest d. unfold file_records, all_data in *. rewrite !bind_cons, <- app_assoc, H1.
  unfold rbind at 1 2. rewrite play_records_app. unfold rbind at 1. destruct (play_records (unit_data u) d); [|done..].
  by rewrite H2.
Qed.

(** A part of the records of units: whole units, then a part of one more. *)
Lemma file_records_prefix us k : exists j part, (j <= length us)%nat /\
  take k (file_records us) = file_records (take j us) ++ part /\
  (part = [] \/ exists u i, us !! j = Some u /\ part = take i (unit_records u) /\ (i < length (unit_records u))%nat) /\
  forall m, (m <= length us)%nat -> (length (file_records (take m us)) <= k)%nat -> (m <= j)%nat.
Proof.
  revert k. induction us as [|u us IH]; intros k.
  - exists 0%nat, []. split_and!; [done|by destruct k|by left|simpl; lia].
  - unfold file_records in *. rewrite bind_cons. destruct (decide (length (unit_records u) <= k)%nat) as [Hle|Hgt].
    + destruct (IH (k - length (unit_records u))%nat) as (j&part&Hj&E&Hp&Hm).
      exists (S j), part. split_and!.
      * simpl. lia.
      * rewrite take_app, take_ge, E by lia. simpl. by rewrite app_assoc.
      * exact Hp.
      * intros [|m] Hml Hlen; [lia|]. cbn [length] in Hml. cbn [take] in Hlen. rewrite bind_cons, length_app in Hlen.
        specialize (Hm m ltac:(lia) ltac:(lia)). lia.
    + exists 0%nat, (take k (unit_records u)). split_and!.
      * lia.
      * rewrite take_app_le by lia. done.
      * right. exists u, k. split_and!; [done|done|lia].
      * intros [|m] Hml Hlen; [lia|]. cbn [take] in Hlen. rewrite bind_cons, length_app in Hlen. lia.
Qed.

(** Units as they are read back. *)
Definition back_unit (u : commit_unit) : commit_unit :=
  match u with
  | Single r => Single (read_back r)
  | Bracketed l c => Bracketed (read_back <$> l) c
  end.

Lemma back_file_records us : read_back <$> file_records us = file_records (back_unit <$> us).
Proof.
  unfold file_records. induction us as [|u us IH]; [done|].
  rewrite fmap_cons, !bind_cons, fmap_app, IH. f_equal. destruct u as [r|l c]; [done|].
  simpl. by rewrite fmap_app.
Qed.
Lemma back_all_data us : all_data (back_unit <$> us) = read_back <$> all_data us.
Proof.
  unfold all_data. induction us as [|u us IH]; [done|].
  rewrite fmap_cons, !bind_cons, fmap_app, IH. f_equal. by destruct u.
Qed.
Lemma back_is_data us : Forall (fun u => Forall is_data (unit_data u)) us ->
  Forall (fun u => Forall is_data (unit_data u)) (back_unit <$> us).
Proof.
  intros Hus. apply Forall_fmap. eapply Forall_impl; [exact Hus|]. intros [r|l c] Hu; simpl in *.
  - inversion_clear Hu as [|? ? Hr _]. constructor; [|done]. by destruct r.
  - apply Forall_fmap. eapply Forall_impl; [exact Hu|]. by intros [].
Qed.
End recovery.
