(* ===== verification/ClassAdLogLaws.v ===== *)
(** * What the ClassAd log promises, and that it keeps it

    The abstract log, the refinement, and recovery after a crash. *)
From Stdlib Require Import ZArith Lia Ascii String.
From stdpp Require Import base list gmap strings.
From S2P Require Import Prelude Double Numerals Tree Values Lexer FlatMap AdStore Parser Unparser LexerFacts HashTable HashTableFacts ClassAdLog ClassAdLogFacts ClassAdLogRecovery.
Open Scope res_scope.

(** ** The promise

    Units in the order of their commits, the first [pr_durable] of them safe from a crash,
    the records of the transaction in progress, and the level of nondurable commits. *)
Record Promise := mk_Promise {
  pr_units : list commit_unit;
  pr_durable : nat;
  pr_pending : option (list LogRecord);
  pr_level : Z
}.
Definition new_Promise : Promise := mk_Promise [] 0 None 0.

Inductive log_op :=
| Do_append (r : LogRecord)
| Do_begin
| Do_abort
| Do_commit (comment : option string)
| Do_commit_nondurable (comment : option string)
| Do_inc_level
| Do_dec_level (old_level : Z)
| Do_flush
| Do_force
| Do_lookup (key name : string).

Definition add_unit (u : commit_unit) (durable : bool) (pending : option (list LogRecord)) (p : Promise) : Promise :=
  let us := pr_units p ++ [u] in
  mk_Promise us (if durable then length us else pr_durable p) pending (pr_level p).

Definition promise_commit (comment : option string) (p : Promise) : Promise :=
  match pr_pending p with
  | None => p
  | Some [] => mk_Promise (pr_units p) (pr_durable p) None (pr_level p)
  | Some l => add_unit (Bracketed l comment) (negb (0 <? pr_level p)) None p
  end.

(** What an operation promises; none when it aborts the process. *)
Definition promise_step (p : Promise) (o : log_op) : option Promise :=
  let '(mk_Promise us durable pending level) := p in
  match o with
  | Do_append r =>
      Some match pending with
           | Some l => mk_Promise us durable (Some (l ++ [r])) level
           | None => add_unit (Single r) (level =? 0) None p
           end
  | Do_begin => match pending with Some _ => None | None => Some (mk_Promise us durable (Some []) level) end
  | Do_abort => Some (mk_Promise us durable None level)
  | Do_commit c => Some (promise_commit c p)
  | Do_commit_nondurable c =>
      let p' := promise_commit c (mk_Promise us durable pending (level + 1)) in
      Some (mk_Promise (pr_units p') (pr_durable p') (pr_pending p') level)
  | Do_inc_level => Some (mk_Promise us durable pending (level + 1))
  | Do_dec_level old => if level - 1 =? old then Some (mk_Promise us durable pending (level - 1)) else None
  | Do_flush | Do_lookup _ _ => Some p
  | Do_force => Some (mk_Promise us (length us) pending level)
  end.

Fixpoint promise_run (p : Promise) (ops : list log_op) : option Promise :=
  match ops with
  | [] => Some p
  | o :: ops' => p' ← promise_step p o; promise_run p' ops'
  end.

Section laws.
Variable oldSemantics : bool.
Variables MakeAbsTime MakeRelTime : string -> option ExprTree.
Variable strict_parsing : bool.
Context {D : Type} `{DataStructure D}.

Abbreviation record_ok := (record_ok oldSemantics MakeAbsTime MakeRelTime).
Abbreviation LoadClassAdLog := (LoadClassAdLog oldSemantics MakeAbsTime MakeRelTime strict_parsing).
Abbreviation ClassAdLog := (ClassAdLog (D := D)).

Definition log_step (s : ClassAdLog) (o : log_op) : Res ClassAdLog unit :=
  match o with
  | Do_append r => AppendLog r s
  | Do_begin => BeginTransaction s
  | Do_abort => Ret tt (AbortTransaction s).1
  | Do_commit c => CommitTransaction c s
  | Do_commit_nondurable c => CommitNondurableTransaction c s
  | Do_inc_level => Ret tt (IncNondurableCommitLevel s).1
  | Do_dec_level old => DecNondurableCommitLevel old s
  | Do_flush => Ret tt (FlushLog s)
  | Do_force => Ret tt (ForceLog s)
  | Do_lookup key name => Ret tt (LookupInTransaction key (Some name) s).1
  end.
Fixpoint log_run (ops : list log_op) : ClassAdLog -> Res ClassAdLog unit :=
  match ops with
  | [] => rret tt
  | o :: ops' => let! _ := (fun s => log_step s o) in log_run ops'
  end.

(** The records that are logged are of ClassAds and can be read back. *)
Definition comment_ok (c : option string) : Prop :=
  match c with Some c => c = ""%string \/ line c | None => True end.
Definition op_ok (o : log_op) : Prop :=
  match o with
  | Do_append r => is_data r /\ record_ok r
  | Do_commit c | Do_commit_nondurable c => comment_ok c
  | _ => True
  end.
Definition unit_ok (u : commit_unit) : Prop :=
  Forall is_data (unit_data u) /\ Forall record_ok (unit_records u).

Definition first_record (now : Z) : LogRecord := LogHistoricalSequenceNumber 1 now.
Definition units_text (now : Z) (us : list commit_unit) : text :=
  records_text (first_record now :: file_records us).

Definition pending_ok (t : option Transaction) (p : option (list LogRecord)) : Prop :=
  match t, p with
  | None, None => True
  | Some t, Some l =>
      ordered_op_log t = match l with [] => [] | _ => LogBeginTransaction :: l end /\
      m_EmptyTransaction t = bool_decide (l = []) /\ Forall is_data l /\ Forall record_ok l
  | _, _ => False
  end.

(** The log [s] keeps the promise [p] on the data [d0] it started with. *)
Record keeps (now : Z) (d0 : D) (s : ClassAdLog) (p : Promise) : Prop := {
  kp_table : play_records (all_data (pr_units p)) d0 = Ret tt (table s);
  kp_file : exists f, log_fp s = Some f /\ written f = units_text now (pr_units p) /\
    (synced f <= length (written f))%nat /\
    (0 < pr_durable p -> length (units_text now (take (pr_durable p) (pr_units p))) <= synced f)%nat;
  kp_durable : (pr_durable p <= length (pr_units p))%nat;
  kp_pending : pending_ok (active_transaction s) (pr_pending p);
  kp_level : m_nondurable_level s = pr_level p;
  kp_units : Forall unit_ok (pr_units p)
}.

(** ** Committing *)
Lemma write_record_ok r f : record_ok r ->
  write_record r (Some f) = Some (Some (fwrite (record_text r) f)).
Proof.
  intros Hr. destruct (write_ok oldSemantics MakeAbsTime MakeRelTime true r Hr) as (body&E&_).
  unfold write_record, record_text. by rewrite E.
Qed.

Lemma commit_writes logs f d : Forall record_ok logs ->
  Commit_loop logs (Some f) d =
    (let! _ := play_records logs in rret (Some (fwrite (records_text logs) f))) d.
Proof.
  intros Hl. revert f d. induction Hl as [|r logs Hr Hl IH]; intros f d.
  - destruct f as [w sy]. unfold fwrite. simpl. by rewrite app_nil_r.
  - cbn [Commit_loop play_records]. rewrite write_record_ok by done. unfold rbind in *.
    destruct (Play r d) as [z d'| |]; [|done|done]. rewrite IH. destruct (play_records logs d'); [|done|done].
    unfold rret, fwrite. simpl. by rewrite <- app_assoc.
Qed.

(** The brackets of a transaction play nothing. *)
Lemma play_bracketed l c d :
  play_records (LogBeginTransaction :: l ++ [LogEnd_of_comment c]) d = play_records l d.
Proof.
  cbn [play_records]. unfold rbind at 1. rewrite Play_bracket by (by left). rewrite play_records_app.
  unfold rbind. destruct (play_records l d) as [[] d'| |]; [|done|done].
  cbn [play_records]. unfold rbind. by rewrite Play_bracket by (by right).
Qed.

Lemma units_text_app now us u : units_text now (us ++ [u]) = units_text now us ++ records_text (unit_records u).
Proof.
  unfold units_text. rewrite !records_text_cons, <- app_assoc. f_equal.
  unfold file_records. rewrite bind_app, records_text_app. simpl. by rewrite app_nil_r.
Qed.
Lemma all_data_app us u : all_data (us ++ [u]) = all_data us ++ unit_data u.
Proof. unfold all_data. rewrite bind_app. simpl. by rewrite app_nil_r. Qed.

(** A file and a table to which a unit was added. *)
Lemma keeps_add_unit now d0 s p u durable pending s' f :
  keeps now d0 s p -> unit_ok u -> log_fp s = Some f ->
  play_records (unit_data u) (table s) = Ret tt (table s') ->
  log_fp s' = Some (let f' := fwrite (records_text (unit_records u)) f in if (durable : bool) then fsync f' else f') ->
  pending_ok (active_transaction s') pending -> m_nondurable_level s' = m_nondurable_level s ->
  keeps now d0 s' (add_unit u durable pending p).
Proof.
  intros [Ht (f0&Hf0&Hw&Hle&Hsy) Hd Hp Hl Hu] Hok Hf Hplay Hf' Hp' Hl'.
  rewrite Hf in Hf0. injection Hf0 as <-. unfold add_unit.
  constructor; cbn [pr_units pr_durable pr_pending pr_level].
  - rewrite all_data_app, play_records_app. unfold rbind. by rewrite Ht.
  - eexists. split; [exact Hf'|]. rewrite units_text_app, <- Hw.
    destruct durable; cbn [fsync fwrite written synced]; (split; [done|]); rewrite ?length_app; (split; [lia|]); intros H0.
    + rewrite take_ge by (rewrite length_app; simpl; lia). rewrite units_text_app, <- Hw, length_app. lia.
    + rewrite take_app_le by done. by apply Hsy.
  - rewrite length_app. destruct durable; simpl; lia.
  - done.
  - congruence.
  - apply Forall_app. split; [done|]. by constructor.
Qed.

(** ** Every operation keeps the promise *)
Lemma comment_record_ok c : comment_ok c -> record_ok (LogEnd_of_comment c).
Proof.
  intros Hc. destruct c as [c|]; [|done]. simpl. destruct (String.eqb_spec c ""); [done|].
  destruct Hc as [?|Hc]; [done|exact Hc].
Qed.

Lemma keeps_commit now d0 c s p s' : keeps now d0 s p -> comment_ok c ->
  CommitTransaction c s = Ret tt s' ->
  keeps now d0 s' (promise_commit c p) /\ m_nondurable_level s' = m_nondurable_level s.
Proof.
  intros Hk Hc. unfold CommitTransaction, promise_commit. pose proof Hk as [Ht (f&Hf&Hfile) Hd Hp Hl Hu].
  destruct (active_transaction s) as [t|], (pr_pending p) as [l|] eqn:Epp; try done; [|by intros [= <-]].
  destruct Hp as (Ho&He&Hdata&Hrok). rewrite He. case_bool_decide as Hnil.
  - subst l. intros [= <-]. split; [|done]. constructor; simpl; try done. by exists f.
  - destruct l as [|r l]; [done|]. set (logs := LogBeginTransaction :: (r :: l) ++ [LogEnd_of_comment c]).
    assert (Hlogs : Forall record_ok logs).
    { constructor; [done|]. apply Forall_app. split; [done|]. constructor; [by apply comment_record_ok|done]. }
    unfold Commit. destruct (AppendLog_ordered (LogEnd_of_comment c) t) as [-> _]. rewrite Ho, Hf.
    change ((LogBeginTransaction :: r :: l) ++ [LogEnd_of_comment c]) with logs.
    unfold rbind at 1. rewrite commit_writes by done. unfold rbind at 1. unfold logs at 1. rewrite play_bracketed.
    destruct (play_records (r :: l) (table s)) as [[] d'| |] eqn:Eplay; [|done|done]. unfold rret.
    intros [= <-]. split; [|done].
    apply (keeps_add_unit now d0 s p (Bracketed (r :: l) c) _ None _ f); [done| |done|exact Eplay| |done|done].
    + split; [done|]. exact Hlogs.
    + simpl. rewrite Hl. by destruct (0 <? pr_level p).
Qed.

Lemma NextEntry_same t : ordered_op_log (NextEntry t).1 = ordered_op_log t /\
  m_EmptyTransaction (NextEntry t).1 = m_EmptyTransaction t.
Proof. unfold NextEntry. by destruct (op_log_iterating t). Qed.
Lemma for_entries_same {A} key (body : A -> LogRecord -> A) a t :
  let t' := (for_entries key body a t).1 in
  ordered_op_log t' = ordered_op_log t /\ m_EmptyTransaction t' = m_EmptyTransaction t.
Proof.
  assert (Hloop : forall n a tl, ordered_op_log (entries_loop n body a tl).1 = ordered_op_log tl.1 /\
    m_EmptyTransaction (entries_loop n body a tl).1 = m_EmptyTransaction tl.1).
  { induction n as [|n IH]; intros a' [t' [log|]]; try done. simpl. destruct (IH (body a' log) (NextEntry t')) as [-> ->].
    apply NextEntry_same. }
  simpl. unfold for_entries. destruct (Hloop (S (length (ordered_op_log t))) a (FirstEntry key t)) as [-> ->].
  unfold FirstEntry. destruct (HashTable.lookup _ _ _); [|done].
  destruct (NextEntry_same (set_iterating l t)) as [-> ->]. done.
Qed.

Lemma pending_ok_same t t' p : ordered_op_log t' = ordered_op_log t -> m_EmptyTransaction t' = m_EmptyTransaction t ->
  pending_ok (Some t) p -> pending_ok (Some t') p.
Proof. unfold pending_ok. by intros -> ->. Qed.

Lemma keeps_append now d0 r s p s' : keeps now d0 s p -> is_data r -> record_ok r ->
  AppendLog r s = Ret tt s' -> exists p', promise_step p (Do_append r) = Some p' /\ keeps now d0 s' p'.
Proof.
  intros Hk Hdr Hr. destruct p as [us durable pending level]. pose proof Hk as [Ht (f&Hf&Hfile) Hd Hp Hl Hu].
  cbn [pr_units pr_durable pr_pending pr_level] in *.
  unfold AppendLog. destruct (active_transaction s) as [t|] eqn:Ea, pending as [l|]; try done.
  - intros [= <-]. eexists. split; [done|]. constructor; simpl; try done; [by exists f|].
    destruct Hp as (Ho&He&Hdata&Hrok). rewrite He. unfold pending_ok.
    set (t1 := if bool_decide (l = []) then Transaction_AppendLog LogBeginTransaction t else t).
    destruct (AppendLog_ordered r t1) as [-> ->].
    assert (Ho1 : ordered_op_log t1 = LogBeginTransaction :: l).
    { unfold t1. case_bool_decide as Hn; [|by rewrite Ho; destruct l]. subst l.
      destruct (AppendLog_ordered LogBeginTransaction t) as [-> _]. by rewrite Ho. }
    rewrite Ho1. split_and!.
    + by destruct l.
    + symmetry. apply bool_decide_eq_false. by destruct l.
    + apply Forall_app. split; [done|]. by constructor.
    + apply Forall_app. split; [done|]. by constructor.
  - rewrite Hf, write_record_ok by done. intros E. eexists. split; [done|].
    assert (Eplay : exists z d', Play r (table s) = Ret z d' /\
      s' = set_table d' (let s1 := set_log_fp (Some (fwrite (record_text r) f)) s in
                         if level =? 0 then ForceLog s1 else s1)).
    { cbn [m_nondurable_level set_log_fp] in E. rewrite Hl in E. cbv zeta.
      destruct (level =? 0); simpl in E; (destruct (Play r (table s)) as [z d'| |]; [|done|done]);
        injection E as <-; by exists z, d'. }
    destruct Eplay as (z&d'&Eplay&->).
    apply (keeps_add_unit now d0 s _ (Single r) _ None _ f); [done| |done| | |..].
    + split; by constructor.
    + cbn [unit_data play_records]. unfold rbind. by rewrite Eplay.
    + unfold records_text. cbn [unit_records]. simpl. rewrite app_nil_r. by destruct (level =? 0).
    + destruct (level =? 0); simpl; by rewrite Ea.
    + by destruct (level =? 0).
Qed.

Lemma keeps_step now d0 o s p s' : keeps now d0 s p -> op_ok o -> log_step s o = Ret tt s' ->
  exists p', promise_step p o = Some p' /\ keeps now d0 s' p'.
Proof.
  intros Hk Hok. destruct o as [r| | |c|c| |old| | |key name]; simpl in Hok.
  - destruct Hok. by apply keeps_append.
  - destruct p as [us durable pending level], Hk as [Ht (f&Hf&Hfile) Hd Hp Hl Hu]. simpl in *. unfold BeginTransaction.
    destruct (active_transaction s), pending; try done. intros [= <-]. eexists. split; [done|].
    constructor; simpl; try done. by exists f.
  - destruct p as [us durable pending level], Hk as [Ht (f&Hf&Hfile) Hd Hp Hl Hu]. simpl in *. unfold AbortTransaction.
    intros E. eexists. split; [done|].
    destruct (active_transaction s) eqn:Ea; injection E as <-; constructor; simpl; try done; (by exists f) || by rewrite Ea.
  - intros E. destruct (keeps_commit _ _ _ _ _ _ Hk Hok E) as [Hk' _]. eexists. split; [|exact Hk'].
    by destruct p.
  - cbn [log_step]. unfold CommitNondurableTransaction. destruct p as [us durable pending level].
    assert (Hk1 : keeps now d0 (IncNondurableCommitLevel s).1 (mk_Promise us durable pending (level + 1))).
    { destruct Hk as [Ht (f&Hf&Hfile) Hd Hp Hl Hu]. constructor; simpl in *; try done; [by exists f|by rewrite Hl]. }
    cbn [IncNondurableCommitLevel fst] in *. unfold rbind.
    destruct (CommitTransaction c _) as [[] s1| |] eqn:E; [|done|done].
    destruct (keeps_commit _ _ _ _ _ _ Hk1 Hok E) as [Hk2 El]. unfold DecNondurableCommitLevel.
    destruct (_ =? _); [|done]. intros [= <-]. eexists. split; [done|].
    destruct Hk2 as [Ht (f&Hf&Hfile) Hd Hp Hl Hu]. constructor; cbn [pr_units pr_durable pr_pending pr_level]; try done.
    + by exists f.
    + cbn [set_nondurable_level m_nondurable_level]. rewrite El. cbn [set_nondurable_level m_nondurable_level].
      rewrite (kp_level _ _ _ _ Hk). simpl. lia.
  - intros [= <-]. destruct p as [us durable pending level], Hk as [Ht (f&Hf&Hfile) Hd Hp Hl Hu]. eexists. split; [done|].
    simpl in *. constructor; simpl; try done; [by exists f|by rewrite Hl].
  - cbn [log_step]. unfold DecNondurableCommitLevel. destruct p as [us durable pending level].
    rewrite (kp_level _ _ _ _ Hk). cbn [promise_step pr_level]. destruct (level - 1 =? old); [|done].
    intros [= <-]. eexists. split; [done|]. destruct Hk as [Ht (f&Hf&Hfile) Hd Hp Hl Hu]. simpl in *.
    constructor; simpl; try done. by exists f.
  - intros [= <-]. exists p. by destruct p.
  - intros [= <-]. destruct p as [us durable pending level], Hk as [Ht (f&Hf&Hw&Hle&Hsy) Hd Hp Hl Hu]. eexists. split; [done|].
    cbn [pr_units pr_durable pr_pending pr_level] in *. constructor; cbn [pr_units pr_durable pr_pending pr_level]; try done.
    exists (fsync f). unfold ForceLog. rewrite Hf. split_and!; [done|done|done|].
    intros _. rewrite take_ge by done. simpl. by rewrite Hw.
  - intros [= <-]. exists p. split; [by destruct p|]. destruct Hk as [Ht (f&Hf&Hfile) Hd Hp Hl Hu].
    unfold LookupInTransaction. destruct (active_transaction s) as [t|] eqn:Ea; [|constructor; cbn [fst]; try done; [by exists f|by rewrite Ea]].
    unfold ExamineLogTransaction.
    pose proof (for_entries_same key (examine_entry name) (mk_Examined false false false None) t) as Hsame.
    destruct (for_entries key _ _ t) as [t' e]. simpl in Hsame. destruct Hsame as [Ho He].
    constructor; simpl; try done; [by exists f|by eapply pending_ok_same].
Qed.

(** ** Loading what a crash leaves *)
Definition loads (now' : Z) (content : text) (l : list LogRecord) : Prop :=
  exists res, forall d, LoadClassAdLog now' content d = (let! _ := play_records l in rret (Some res)) d.

(** The end of [LoadClassAdLog], once the loop is done. *)
Lemma load_of_records now' content rs l : sees oldSemantics MakeAbsTime MakeRelTime strict_parsing content rs ->
  (exists ld', forall d, load_records rs (mk_Loading None 0 1 now' true []) d = (let! _ := play_records l in rret (Some ld')) d) ->
  loads now' content l.
Proof.
  intros Hs [ld' Hld].
  assert (Hloop : exists next', forall d, load_loop oldSemantics MakeAbsTime MakeRelTime strict_parsing
    (S (length content)) content content (mk_Loading None 0 1 now' true []) d =
    (let! _ := play_records l in rret (Some (ld', next', []))) d).
  { assert (Hn : (length rs < S (length content))%nat) by (pose proof (sees_length _ _ _ _ _ _ Hs); lia).
    destruct (load_loop_next _ _ _ _ _ _ Hs (S (length content)) content Hn) as [next' E]. exists next'.
    intros d. rewrite E. unfold rbind at 1. rewrite Hld. unfold rbind, rret.
    by destruct (play_records l d). }
  destruct Hloop as [next' Hloop]. destruct ld' as [[t|] count seq birth clean errs]; eexists; intros d;
    unfold ClassAdLog.LoadClassAdLog; unfold rbind at 1; rewrite Hloop; unfold rbind, rret;
    (destruct (play_records l d); [reflexivity|done|done]).
Qed.

Lemma load_prefix now now' us n : 0 <= now < two63 -> Forall unit_ok us -> exists j, (j <= length us)%nat /\
  (forall m, (m <= length us)%nat -> (length (units_text now (take m us)) <= n)%nat -> (m <= j)%nat) /\
  loads now' (take n (units_text now us)) (read_back <$> all_data (take j us)).
Proof.
  intros Hnow Hus.
  assert (Hrs : Forall record_ok (first_record now :: file_records us)).
  { constructor; [split; [unfold two64; lia|exact Hnow]|]. unfold file_records. clear -Hus.
    induction Hus as [|u us [_ Hu] _ IH]; [constructor|]. rewrite bind_cons. by apply Forall_app. }
  unfold units_text. set (rs := first_record now :: file_records us) in *.
  destruct (sees_prefix oldSemantics MakeAbsTime MakeRelTime strict_parsing rs n Hrs) as (k&Hk&Hs&Hm).
  assert (Htake : forall m, take (S (length (file_records (take m us)))) rs = first_record now :: file_records (take m us)).
  { intros m. unfold rs. cbn [take]. f_equal. rewrite <- (take_drop m us) at 2. unfold file_records at 2.
    rewrite bind_app. by rewrite take_app_length. }
  assert (Hfile : forall m, (length (file_records (take m us)) <= length (file_records us))%nat).
  { intros m. rewrite <- (take_drop m us) at 2. unfold file_records. rewrite bind_app, length_app. lia. }
  assert (Hsound : forall m, (m <= length us)%nat ->
    (length (records_text (first_record now :: file_records (take m us))) <= n)%nat ->
    (S (length (file_records (take m us))) <= k)%nat).
  { intros m Hml Hlen. apply Hm; [|by rewrite Htake]. specialize (Hfile m). unfold rs. cbn [length]. lia. }
  destruct k as [|k].
  - exists 0%nat. split_and!; [lia| |].
    + intros m Hml Hlen. specialize (Hsound m Hml Hlen). lia.
    + eapply load_of_records; [exact Hs|]. by eexists.
  - assert (Hdata : Forall (fun u => Forall is_data (unit_data u)) (back_unit <$> us)).
    { apply back_is_data. eapply Forall_impl; [exact Hus|]. by intros u [? _]. }
    destruct (file_records_prefix (back_unit <$> us) k) as (j&part&Hj&Ep&Hpart&Hpm). rewrite length_fmap in *.
    exists j. split_and!; [done| |].
    + intros m Hml Hlen. specialize (Hsound m Hml Hlen). apply Hpm; [done|].
      rewrite <- fmap_take, <- back_file_records, length_fmap. lia.
    + eapply load_of_records; [exact Hs|]. unfold rs. cbn [take fmap list_fmap].
      rewrite fmap_take, back_file_records, Ep, <- back_all_data, fmap_take.
      set (bus := back_unit <$> us) in *. set (ld1 := mk_Loading None 1 1 now true []).
      destruct (load_units (take j bus) ld1) as (ld2&Ht2&H2); [by apply Forall_take|done|].
      assert (Hlast : exists ld3, forall d, load_records part ld2 d = Ret (Some ld3) d).
      { destruct Hpart as [->|(u&i&Hu&->&Hi)]; [by exists ld2|]. apply load_part; [|done|done].
        exact (Forall_lookup_1 _ _ _ _ Hdata Hu). }
      destruct Hlast as [ld3 H3]. exists ld3. intros d.
      change (load_records (file_records (take j bus) ++ part) ld1 d =
        (let! _ := play_records (all_data (take j bus)) in rret (Some ld3)) d).
      rewrite H2. unfold rbind, rret. by destruct (play_records _ d).
Qed.

(** The log of a file that was empty, as [InitLogFile] leaves it. *)
Definition fresh_log (now : Z) (d0 : D) : ClassAdLog :=
  mk_ClassAdLog d0 (Some (mk_File (record_text (first_record now)) 0)) None 0 1 now 0.

Lemma fresh_log_loaded now d0 : LoadClassAdLog now [] d0 =
  Ret (Some (mk_LoadResult (mk_File (record_text (first_record now)) 0) 1 now true false [])) d0.
Proof. done. Qed.

Lemma fresh_log_keeps now d0 : keeps now d0 (fresh_log now d0) new_Promise.
Proof.
  constructor; try done. eexists. split; [done|]. cbn [written synced]. split_and!; [|lia|simpl; lia].
  unfold units_text, file_records. rewrite records_text_cons. simpl. by rewrite app_nil_r.
Qed.

Lemma keeps_run now d0 ops : forall s p s', keeps now d0 s p -> Forall op_ok ops ->
  log_run ops s = Ret tt s' -> exists p', promise_run p ops = Some p' /\ keeps now d0 s' p'.
Proof.
  induction ops as [|o ops IH]; intros s p s' Hk Hops.
  - intros [= <-]. by exists p.
  - inversion_clear Hops as [|? ? Ho Hops']. cbn [log_run promise_run]. unfold rbind.
    destruct (log_step s o) as [[] s1| |] eqn:E; [|done|done]. intros Hrun.
    destruct (keeps_step _ _ _ _ _ _ Hk Ho E) as (p1&->&Hk1). by apply (IH s1).
Qed.

(** C1: the log recovers from a crash at any moment. After any operations on a log that
    started on an empty file: the table holds the units (single records, and transactions
    as they were committed) in order; and whatever part of the file a crash leaves, as long
    as it has what was synced, loading it plays a number of those units, each in full or not
    at all, among them all the durable ones and all those whose text is there, in particular
    everything when nothing of the file is lost. The dirty marks of attributes are not
    recovered. *)
Theorem log_survives_crash now d0 ops s :
  0 <= now < two63 -> Forall op_ok ops -> log_run ops (fresh_log now d0) = Ret tt s ->
  exists p f, promise_run new_Promise ops = Some p /\ log_fp s = Some f /\
    play_records (all_data (pr_units p)) d0 = Ret tt (table s) /\
    forall n now', (synced f <= n)%nat ->
      exists j res, (pr_durable p <= j <= length (pr_units p))%nat /\
        ((length (written f) <= n)%nat -> j = length (pr_units p)) /\
        LoadClassAdLog now' (take n (written f)) d0 =
          (let! _ := play_records (read_back <$> all_data (take j (pr_units p))) in rret (Some res)) d0.
Proof.
  intros Hnow Hops Hrun.
  destruct (keeps_run now d0 ops _ _ _ (fresh_log_keeps now d0) Hops Hrun) as (p&Ep&[Ht (f&Hf&Hw&Hle&Hsy) Hd _ _ Hu]).
  exists p, f. split_and!; [done..|]. intros n now' Hn.
  destruct (load_prefix now now' (pr_units p) n Hnow Hu) as (j&Hj&Hm&res&Hl).
  exists j, res. rewrite Hw. split_and!; [|done| |by apply Hl].
  - destruct (pr_durable p) as [|k] eqn:Ek; [lia|]. rewrite <- Ek in *. apply Hm; [done|]. specialize (Hsy ltac:(lia)). lia.
  - intros Hfull. assert (length (pr_units p) <= j)%nat; [|lia]. apply Hm; [done|]. by rewrite take_ge by done.
Qed.
End laws.
