(* ===== verification/AdTable.v ===== *)
(** * The table of ClassAds the log is played on ([classad_log.cpp], [classad_log.h])

    [ClassAdLogTable]: the hash table from keys to ClassAds, with the store the ClassAds are
    in, and what [Play] does to it. The expression cache is off, as it is by default, and no
    plugin is loaded. *)
From Stdlib Require Import ZArith Lia Ascii String.
From stdpp Require Import base list gmap strings.
From S2P Require Import Prelude Double Numerals Tree Values Lexer FlatMap AdStore Parser Unparser LexerFacts HashTable HashTableFacts HashTableLaws ClassAdLog ClassAdLogFacts ClassAdLogRecovery ClassAdLogLaws.
Open Scope res_scope.

Record AdTable := mk_AdTable { ads : HashTable string adref; store : heap }.
Definition new_AdTable : AdTable := mk_AdTable new_HashTable ∅.

(** A step that returns, or has no outcome. *)
Definition of_option {S A : Type} (o : option (S * A)) : Res S A :=
  match o with Some (s, a) => Ret a s | None => NoFuel end.

Section play.
Variable oldSemantics : bool.
Variables MakeAbsTime MakeRelTime : string -> option ExprTree.

(** [InsertViaCache] without a cache. *)
Definition InsertViaCache (h : heap) (a : adref) (name rhs : string) : option (heap * bool) :=
  if String.eqb name "" then Some (h, false)
  else match ParseExpression oldSemantics true MakeAbsTime MakeRelTime (parse_fuel rhs) h new_Lexer rhs false with
  | Ret (Some tree) (h', _) => Insert h' a name (Some tree)
  | Ret None (h', _) => Some (h', false)
  | _ => None
  end.

(** [LogNewClassAd::Play] *)
Definition play_NewClassAd (key mytype : string) (d : AdTable) : option (AdTable * Z) :=
  let '(h1, ad) := alloc_ad (store d) in
  '(h2, _) ← InsertAttr_string h1 ad "MyType" mytype;
  '(h3, _) ← (match strcasecmp mytype "Job" with
              | Eq => targettype ← Lookup h2 ad "TargetType";
                      match targettype with
                      | None => InsertAttr_string h2 ad "TargetType" "Machine"
                      | Some _ => Some (h2, true)
                      end
              | _ => Some (h2, true)
              end);
  h4 ← on_ad ad EnableDirtyTracking h3;
  let '(t, result) := insert hashFunction key ad false (ads d) in
  Some (mk_AdTable t h4, if 0 <=? result then 0 else -1).

(** [LogDestroyClassAd::Play] *)
Definition play_DestroyClassAd (key : string) (d : AdTable) : option (AdTable * Z) :=
  match HashTable.lookup hashFunction key (ads d) with
  | None => Some (d, -1)
  | Some _ =>
      '(t, result) ← HashTable.remove hashFunction key (ads d);
      Some (mk_AdTable t (store d), if 0 <=? result then 0 else -1)
  end.

(** [LogSetAttribute::Play] *)
Definition play_SetAttribute (key name value : string) (is_dirty : bool) (d : AdTable) : option (AdTable * Z) :=
  match HashTable.lookup hashFunction key (ads d) with
  | None => Some (d, -1)
  | Some ad =>
      '(h1, inserted) ← InsertViaCache (store d) ad name value;
      h2 ← on_ad ad (if is_dirty then MarkAttributeDirty name else MarkAttributeClean name) h1;
      Some (mk_AdTable (ads d) h2, if (inserted : bool) then 1 else 0)
  end.

(** [LogDeleteAttribute::Play] *)
Definition play_DeleteAttribute (key name : string) (d : AdTable) : option (AdTable * Z) :=
  match HashTable.lookup hashFunction key (ads d) with
  | None => Some (d, -1)
  | Some ad =>
      '(h1, deleted) ← Delete (store d) ad name;
      Some (mk_AdTable (ads d) h1, if (deleted : bool) then 1 else 0)
  end.

Definition play (r : LogRecord) (d : AdTable) : Res AdTable Z :=
  match r with
  | LogNewClassAd key mytype => of_option (play_NewClassAd key mytype d)
  | LogDestroyClassAd key => of_option (play_DestroyClassAd key d)
  | LogSetAttribute key name value is_dirty => of_option (play_SetAttribute key name value is_dirty d)
  | LogDeleteAttribute key name => of_option (play_DeleteAttribute key name d)
  | LogHistoricalSequenceNumber _ _ | LogBeginTransaction | LogEndTransaction _ => Ret 1 d
  | LogRecordError _ => Ret 0 d
  end.

#[export] Program Instance AdTable_data : DataStructure AdTable := {| Play := play |}.
Next Obligation. by intros [] d [?|?]. Qed.

(** ** Which ads are there *)
Definition has_ad (key : string) (d : AdTable) : bool :=
  match HashTable.lookup hashFunction key (ads d) with Some _ => true | None => false end.
Definition table_ok (d : AdTable) : Prop := ht_ok hashFunction (ads d) /\ iterators_ok (ads d).

Lemma has_ad_map key d : table_ok d -> has_ad key d = match to_map (ads d) !! key with Some _ => true | None => false end.
Proof. intros [Hok _]. unfold has_ad. by rewrite lookup_to_map. Qed.

(** What a record does to the presence of ads. *)
Lemma play_has_ad r d z d' : table_ok d -> play r d = Ret z d' ->
  table_ok d' /\ forall key, has_ad key d' =
    if decide (get_key r = Some key) then exists_entry (has_ad key d) r else has_ad key d.
Proof.
  intros Ht E. pose proof Ht as [Hok Hi].
  assert (Hkeep : ads d' = ads d -> (forall b, exists_entry b r = b) ->
    table_ok d' /\ forall key, has_ad key d' =
      if decide (get_key r = Some key) then exists_entry (has_ad key d) r else has_ad key d).
  { intros Ea Hex. split; [unfold table_ok; by rewrite Ea|]. intros key. rewrite Hex. unfold has_ad. rewrite Ea. by case_decide. }
  destruct r as [n t|k mytype|k|k name value dirty|k name| |comment|body]; simpl in E;
    try (injection E as <- <-; by apply Hkeep).
  - unfold play_NewClassAd in E. destruct (alloc_ad (store d)) as [h1 a].
    destruct (InsertAttr_string h1 a "MyType" mytype) as [[h2 ?]|]; [|done]. cbn [mbind option_bind] in E.
    destruct (match strcasecmp mytype "Job" with Eq => _ | _ => _ end) as [[h3 ?]|]; [|done]. cbn [mbind option_bind] in E.
    destruct (on_ad a EnableDirtyTracking h3) as [h4|]; [|done]. cbn [mbind option_bind] in E.
    pose proof (insert_ok hashFunction (ads d) k a false Hok) as Hins.
    pose proof (insert_iterators hashFunction (ads d) k a false Hi) as Hi'.
    destruct (insert hashFunction k a false (ads d)) as [t result]. injection E as <- <-.
    destruct Hins as [Hok' Em]. assert (Ht' : table_ok (mk_AdTable t h4)) by done. split; [done|].
    intros key. rewrite !has_ad_map by done. simpl. assert (Em1 : to_map t =
      match to_map (ads d) !! k with Some _ => to_map (ads d) | None => <[k := a]> (to_map (ads d)) end)
      by (destruct (to_map (ads d) !! k); by injection Em).
    rewrite Em1. case_decide as Hk; [injection Hk as ->|].
    + destruct (to_map (ads d) !! key) eqn:El; [by rewrite El|by rewrite lookup_insert_eq].
    + destruct (to_map (ads d) !! k); [done|]. rewrite lookup_insert_ne; [done|congruence].
  - unfold play_DestroyClassAd in E. destruct (HashTable.lookup hashFunction k (ads d)) as [a|] eqn:El.
    + destruct (remove_ok hashFunction (ads d) k Hok Hi) as (t&Er&Hok'&Ee&_&Hi'&_). rewrite Er in E.
      cbn [mbind option_bind] in E. injection E as <- <-.
      assert (Ht' : table_ok (mk_AdTable t (store d))) by done. split; [done|]. intros key.
      rewrite !has_ad_map by done. simpl. unfold to_map at 1. rewrite Ee, keep_map.
      case_decide as Hk; [injection Hk as ->; by rewrite lookup_delete_eq|].
      rewrite lookup_delete_ne by congruence. done.
    + injection E as <- <-. split; [done|]. intros key. case_decide as Hk; [|done]. injection Hk as ->.
      unfold has_ad. by rewrite El.
  - apply Hkeep; [|done]. unfold play_SetAttribute in E. destruct (HashTable.lookup _ _ _) as [a|]; [|by injection E as <- <-].
    destruct (InsertViaCache (store d) a name value) as [[h1 ins]|]; [|done]. cbn [mbind option_bind] in E.
    destruct (on_ad a _ h1) as [h2|]; [|done]. by injection E as <- <-.
  - apply Hkeep; [|done]. unfold play_DeleteAttribute in E. destruct (HashTable.lookup _ _ _) as [a|]; [|by injection E as <- <-].
    destruct (Delete (store d) a name) as [[h1 del]|]; [|done]. by injection E as <- <-.
Qed.
End play.
