(* ===== verification/AdTableLaws.v ===== *)
(** * The ClassAd log on its table: transactions seen before their commit, and corners

    The index of a transaction by key, [AdExistsInTableOrTransaction] and
    [LookupInTransaction], recovery run on a concrete log, and where the code departs from
    its comments. *)
From Stdlib Require Import ZArith Lia Ascii String.
From stdpp Require Import base list gmap strings.
From S2P Require Import Prelude Double Numerals Tree Values Lexer FlatMap AdStore Parser Unparser LexerFacts HashTable HashTableFacts HashTableLaws ClassAdLog ClassAdLogFacts ClassAdLogRecovery ClassAdLogLaws AdTable.
Open Scope res_scope.

(** ** The index of a transaction *)
Definition entries_for (key : string) (l : list LogRecord) : list LogRecord :=
  filter (fun r => default ""%string (get_key r) = key) l.

Record txn_ok (t : Transaction) : Prop := {
  txn_table : ht_ok hashFunction (op_log t);
  txn_iterators : iterators_ok (op_log t);
  txn_index key : to_map (op_log t) !! key =
    match entries_for key (ordered_op_log t) with [] => None | l => Some l end
}.

Lemma new_Transaction_ok : txn_ok new_Transaction.
Proof. constructor; [apply new_HashTable_ok|constructor|done]. Qed.

Lemma AppendLog_ok r t : txn_ok t -> txn_ok (Transaction_AppendLog r t).
Proof.
  intros [Hok Hi Hx]. unfold Transaction_AppendLog. set (k := default ""%string (get_key r)).
  rewrite lookup_to_map by done.
  set (p := match to_map (op_log t) !! k with Some l => _ | None => _ end).
  assert (Hp : ht_ok hashFunction p.1 /\ iterators_ok p.1 /\ p.2 = entries_for k (ordered_op_log t) /\
    is_Some (to_map p.1 !! k) /\ forall key, key <> k -> to_map p.1 !! key = to_map (op_log t) !! key).
  { unfold p. destruct (to_map (op_log t) !! k) as [l|] eqn:E.
    - simpl. split_and!; [done|done| |by rewrite E|done]. rewrite Hx in E. by destruct (entries_for _ _); simplify_eq.
    - pose proof (insert_ok hashFunction (op_log t) k [] false Hok) as Hins.
      pose proof (insert_iterators hashFunction (op_log t) k [] false Hi) as Hi'.
      destruct (insert hashFunction k [] false (op_log t)) as [t' z]. destruct Hins as [Hok' Em].
      rewrite E in Em. injection Em as Em _. simpl. split_and!; [done|done| | |].
      + rewrite Hx in E. by destruct (entries_for _ _).
      + rewrite Em, lookup_insert_eq. done.
      + intros key Hne. by rewrite Em, lookup_insert_ne. }
  destruct p as [op1 l]. simpl in Hp. destruct Hp as (Hok1&Hi1&->&[l0 Hl0]&Hother).
  pose proof (insert_ok hashFunction op1 k (entries_for k (ordered_op_log t) ++ [r]) true Hok1) as Hins.
  pose proof (insert_iterators hashFunction op1 k (entries_for k (ordered_op_log t) ++ [r]) true Hi1) as Hi2.
  destruct (insert hashFunction k _ true op1) as [op2 z]. destruct Hins as [Hok2 Em]. rewrite Hl0 in Em.
  injection Em as Em _. constructor; simpl; [done|done|]. intros key. rewrite Em. unfold entries_for.
  rewrite filter_app. destruct (decide (key = k)) as [->|Hne].
  - rewrite lookup_insert_eq, filter_cons_True by done. change (filter _ []) with (@nil LogRecord).
    fold (entries_for k (ordered_op_log t)). by destruct (entries_for k (ordered_op_log t)).
  - rewrite lookup_insert_ne, Hother, Hx by done. rewrite filter_cons_False by (fold k; congruence).
    change (filter _ []) with (@nil LogRecord). by rewrite app_nil_r.
Qed.

(** The loop over the entries of a key is a fold over its records. *)
Lemma entries_loop_fold {A} (body : A -> LogRecord -> A) l : forall n a t, (length l <= n)%nat ->
  op_log_iterating t = l -> (entries_loop (S n) body a (NextEntry t)).2 = foldl body a l.
Proof.
  induction l as [|r l IH]; intros n a t Hn Hl; unfold NextEntry; rewrite Hl; [done|].
  destruct n as [|n]; [simpl in Hn; lia|]. cbn [entries_loop foldl]. apply IH; [simpl in Hn; lia|done].
Qed.

Lemma for_entries_fold {A} key (body : A -> LogRecord -> A) a t : txn_ok t ->
  (for_entries key body a t).2 = foldl body a (entries_for key (ordered_op_log t)).
Proof.
  intros [Hok _ Hx]. unfold for_entries, FirstEntry. rewrite lookup_to_map, Hx by done.
  destruct (entries_for key (ordered_op_log t)) as [|r l] eqn:E; [done|].
  apply entries_loop_fold; [|done]. rewrite <- E. unfold entries_for. apply length_filter.
Qed.

Section table.
Variable oldSemantics : bool.
Variables MakeAbsTime MakeRelTime : string -> option ExprTree.

#[local] Instance data : DataStructure AdTable := AdTable_data oldSemantics MakeAbsTime MakeRelTime.
Abbreviation ClassAdLog := (ClassAdLog (D := AdTable)).

(** Committing, with or without a file, plays the records. *)
Lemma commit_played logs fp (d : AdTable) fp' d' :
  Commit_loop logs fp d = Ret fp' d' -> play_records logs d = Ret tt d'.
Proof.
  revert fp d. induction logs as [|r logs IH]; intros fp d; [by intros [= <- <-]|]. cbn [Commit_loop play_records].
  destruct (write_record r fp) as [fp1|]; [|done]. unfold rbind. destruct (Play r d); [apply IH|done|done].
Qed.

Lemma played_has_ad l key : forall d d', table_ok d -> play_records l d = Ret tt d' ->
  table_ok d' /\ has_ad key d' = foldl exists_entry (has_ad key d) (entries_for key l).
Proof.
  induction l as [|r l IH]; intros d d' Ht; [by intros [= <-]|]. cbn [play_records]. unfold rbind.
  destruct (Play r d) as [z d1| |] eqn:E; [|done|done].
  destruct (play_has_ad oldSemantics MakeAbsTime MakeRelTime r d z d1 Ht E) as [Ht1 H1]. intros Hl.
  destruct (IH d1 d' Ht1 Hl) as [Ht' ->]. split; [done|]. rewrite H1. unfold entries_for. rewrite filter_cons.
  destruct (get_key r) as [k|] eqn:Ek; simpl.
  - destruct (decide (Some k = Some key)), (decide (k = key)); try congruence; done.
  - destruct (decide (None = Some key)); [done|]. by case_decide; [destruct r|].
Qed.

(** A transaction as it is built: begun, and records appended. *)
Definition transaction_of (l : list LogRecord) : Transaction :=
  foldl (fun t r => Transaction_AppendLog r t) new_Transaction
    (match l with [] => [] | _ => LogBeginTransaction :: l end).

Lemma transaction_of_ok l : txn_ok (transaction_of l) /\
  ordered_op_log (transaction_of l) = match l with [] => [] | _ => LogBeginTransaction :: l end.
Proof.
  unfold transaction_of. generalize (match l with [] => [] | _ => LogBeginTransaction :: l end).
  intros rs. assert (Hf : forall rs t, txn_ok t -> let t' := foldl (fun t r => Transaction_AppendLog r t) t rs in
    txn_ok t' /\ ordered_op_log t' = ordered_op_log t ++ rs).
  { clear. induction rs as [|r rs IH]; intros t Ht; simpl; [by rewrite app_nil_r|].
    destruct (IH (Transaction_AppendLog r t)) as [Hok ->]; [by apply AppendLog_ok|]. split; [done|].
    destruct (AppendLog_ordered r t) as [-> _]. by rewrite <- app_assoc. }
  destruct (Hf rs new_Transaction new_Transaction_ok). done.
Qed.

(** C19: [AdExistsInTableOrTransaction] predicts the commit. While a transaction is active
    it says of every key what the table will say after the transaction is committed. *)
Theorem AdExists_predicts_commit key c l (s s' : ClassAdLog) :
  table_ok (table s) -> active_transaction s = Some (transaction_of l) ->
  CommitTransaction c s = Ret tt s' ->
  (AdExistsInTableOrTransaction has_ad key s).2 = has_ad key (table s').
Proof.
  intros Ht Ha. unfold CommitTransaction, AdExistsInTableOrTransaction. rewrite Ha.
  destruct (transaction_of_ok l) as [Hok Ho].
  pose proof (for_entries_fold key exists_entry (has_ad key (table s)) _ Hok) as Hfor.
  destruct (for_entries _ _ _ (transaction_of l)) as [t' b]. simpl in Hfor |- *. subst b. rewrite Ho.
  assert (He : l = [] /\ m_EmptyTransaction (transaction_of l) = true \/
               l <> [] /\ m_EmptyTransaction (transaction_of l) = false).
  { destruct l as [|r l]; [by left|right]. split; [done|]. unfold transaction_of.
    destruct (exists_last (l := LogBeginTransaction :: r :: l) ltac:(done)) as (rs&r'&->).
    rewrite foldl_app. apply AppendLog_ordered. }
  destruct He as [[-> ->]|[Hl ->]]; [by intros [= <-]|].
  unfold Commit. destruct (AppendLog_ordered (LogEnd_of_comment c) (transaction_of l)) as [-> _]. rewrite Ho.
  unfold rbind. destruct (Commit_loop _ _ _) as [fp d| |] eqn:E; [|done|done]. intros [= <-].
  cbn [table set_active_transaction set_log_fp set_table].
  apply commit_played in E. destruct (played_has_ad _ key _ _ Ht E) as [_ ->].
  unfold entries_for. rewrite filter_app, foldl_app. destruct l; [done|].
  rewrite (filter_singleton _ (LogEnd_of_comment c) []). by case_decide.
Qed.
End table.

(** ** Runs on a concrete log *)
Definition no_time (_ : string) : option ExprTree := None.
#[local] Instance run_data : DataStructure AdTable := AdTable_data true no_time no_time.
Abbreviation run_opened := (fresh_log 1700000000 new_AdTable).
Definition run_log (ops : list log_op) (s : ClassAdLog) : ClassAdLog :=
  match log_run ops s with Ret _ s' => s' | _ => s end.
Definition run_load (content : text) : Res AdTable (option LoadResult) :=
  LoadClassAdLog true no_time no_time true 1700000001 content new_AdTable.

Definition run_ops : list log_op :=
  [Do_append (LogNewClassAd "1.0" "Job"); Do_begin; Do_append (LogSetAttribute "1.0" "JobPrio" "10" true);
   Do_append (LogNewClassAd "1.1" "Job"); Do_lookup "1.0" "jobprio"; Do_commit (Some "submit"%string);
   Do_commit_nondurable None; Do_inc_level; Do_append (LogDeleteAttribute "1.0" "JobPrio");
   Do_begin; Do_append (LogDestroyClassAd "1.1")].

Lemma run_ops_ok : Forall (op_ok true no_time no_time) run_ops.
Proof.
  assert (W : word "1.0" /\ word "1.1" /\ word "Job" /\ word "JobPrio" /\ line "10" /\ line "submit")
    by (split_and!; split; done || (vm_compute; reflexivity)).
  destruct W as (W0&W1&Wj&Wp&L&Ls).
  assert (N : forall k, word k -> record_ok true no_time no_time (LogNewClassAd k "Job")) by (intros k Hk; split; [exact Hk|by right]).
  assert (S : record_ok true no_time no_time (LogSetAttribute "1.0" "JobPrio" "10" true))
    by (split_and!; [exact W0|exact Wp|exact L|vm_compute; reflexivity]).
  assert (Hd : forall r k, get_key r = Some k -> is_data r) by (intros r k E; by exists k).
  unfold run_ops. repeat (apply Forall_cons_2; [first
    [ exact I | exact (or_intror Ls)
    | split; [by eapply Hd|]; first [exact (N _ W0)|exact (N _ W1)|exact S|exact (conj W0 Wp)|exact W1] ]|]). apply Forall_nil_2.
Qed.

Lemma log_survives_crash_witness :
  (0 <= 1700000000 < two63 /\ Forall (op_ok true no_time no_time) run_ops /\
   log_run run_ops run_opened = Ret tt (run_log run_ops run_opened)) /\
  exists p f, promise_run new_Promise run_ops = Some p /\ log_fp (run_log run_ops run_opened) = Some f /\
    play_records (all_data (pr_units p)) new_AdTable = Ret tt (table (run_log run_ops run_opened)) /\
    forall n now', (synced f <= n)%nat ->
      exists j res, (pr_durable p <= j <= length (pr_units p))%nat /\
        ((length (written f) <= n)%nat -> j = length (pr_units p)) /\
        LoadClassAdLog true no_time no_time true now' (take n (written f)) new_AdTable =
          (let! _ := play_records (read_back <$> all_data (take j (pr_units p))) in rret (Some res)) new_AdTable.
Proof.
  assert (Hnow : 0 <= 1700000000 < two63) by (unfold two63; lia).
  assert (Hrun : log_run run_ops run_opened = Ret tt (run_log run_ops run_opened)) by (vm_compute; reflexivity).
  split; [exact (conj Hnow (conj run_ops_ok Hrun))|].
  exact (log_survives_crash true no_time no_time true (H := run_data) 1700000000 new_AdTable run_ops
    (run_log run_ops run_opened) Hnow run_ops_ok Hrun).
Defined.

Lemma AdExists_predicts_commit_witness :
  let l := [LogNewClassAd "1.0" "Job"; LogSetAttribute "1.0" "JobPrio" "10" true; LogDestroyClassAd "1.1"] in
  let d := match Play (LogNewClassAd "1.1" "Job") new_AdTable with Ret _ d => d | _ => new_AdTable end in
  let s := set_active_transaction (Some (transaction_of l)) (new_ClassAdLog d) in
  let s' := match CommitTransaction None s with Ret _ s' => s' | _ => s end in
  (table_ok (table s) /\ active_transaction s = Some (transaction_of l) /\ CommitTransaction None s = Ret tt s') /\
  (AdExistsInTableOrTransaction has_ad "1.1" s).2 = has_ad "1.1" (table s').
Proof.
  intros l d s s'.
  assert (Ht : table_ok (table s)).
  { assert (H0 : table_ok new_AdTable) by (split; [apply new_HashTable_ok|constructor]).
    assert (E : exists z, Play (LogNewClassAd "1.1" "Job") new_AdTable = Ret z d) by (exists 0; vm_compute; reflexivity).
    destruct E as [z E]. exact (proj1 (play_has_ad true no_time no_time _ _ _ _ H0 E)). }
  assert (Hc : CommitTransaction None s = Ret tt s') by (vm_compute; reflexivity).
  split; [exact (conj Ht (conj eq_refl Hc))|].
  exact (AdExists_predicts_commit true no_time no_time "1.1" None l s s' Ht eq_refl Hc).
Defined.

(** ** Corners *)
Section corners.
(** What is loaded: which keys have ads, and whether the file must be cleaned. *)
Definition loaded (content : text) (keys : list string) : option (list bool * bool) :=
  match run_load content with
  | Ret (Some res) d => Some ((fun k => has_ad k d) <$> keys, lr_requires_successful_cleaning res)
  | _ => None
  end.
Definition contents (s : ClassAdLog (D := AdTable)) : text := from_option written [] (log_fp s).

(** The end of a torn record of a new ClassAd is taken for a whole one: the target type may
    be missing, so that a file without its last newline counts as clean. What is appended
    next, here the removal of the ClassAd, continues the line and is lost. *)
Lemma torn_new_is_not_flagged :
  let torn := take 16 (record_text (LogNewClassAd "1.0" "Job")) in
  torn = txt "101 1.0 Job Mach" /\
  loaded torn ["1.0"]%string = Some ([true], false) /\
  loaded (torn ++ record_text (LogDestroyClassAd "1.0")) ["1.0"]%string = Some ([true], true).
Proof. vm_compute. done. Qed.

(** "not an error if targettype is missing": but the word that is read and forgotten is then
    the first of the next line. The ClassAd 1.1 is never made. *)
Lemma missing_targettype_swallows_line :
  loaded (txt "101 1.0 Job" ++ newline :: txt "101 1.1 Job" ++ newline :: txt "101 1.2 Job Machine" ++ [newline])
    ["1.0"; "1.1"; "1.2"]%string = Some ([true; false; false], true).
Proof. vm_compute. done. Qed.

(** A comment with a newline is written as it is. When another transaction follows, the
    log cannot be loaded: the process aborts. *)
Lemma newline_in_comment_is_fatal :
  let bad : string := of_text (txt "a" ++ newline :: txt "b") in
  let ops := [Do_begin; Do_append (LogNewClassAd "1.0" "Job"); Do_commit (Some bad);
              Do_begin; Do_append (LogNewClassAd "1.1" "Job"); Do_commit None] in
  run_load (contents (run_log ops run_opened)) = Except.
Proof. vm_compute. done. Qed.

(** A ClassAd that the transaction destroys and makes again has lost its attributes, but
    [LookupInTransaction] does not say so: it still gives the value set before the
    destruction, or says that the transaction does not touch the attribute. *)
Lemma lookup_after_recreation :
  let recreate := [Do_append (LogDestroyClassAd "1.0"); Do_append (LogNewClassAd "1.0" "Job")] in
  let setup := [Do_append (LogNewClassAd "1.0" "Job"); Do_append (LogSetAttribute "1.0" "JobPrio" "10" false); Do_begin] in
  let s1 := run_log (setup ++ recreate) run_opened in
  let s2 := run_log (setup ++ Do_append (LogSetAttribute "1.0" "JobPrio" "20" false) :: recreate) run_opened in
  let priority (s : ClassAdLog (D := AdTable)) : option ExprTree :=
    ad ← HashTable.lookup hashFunction "1.0"%string (ads (table s)); t ← Lookup (store (table s)) ad "JobPrio"; t in
  (LookupInTransaction "1.0" (Some "JobPrio"%string) s1).2 = (0, None) /\
  (LookupInTransaction "1.0" (Some "JobPrio"%string) s2).2 = (1, Some "20"%string) /\
  priority s1 = Some (IntegerLiteral 10) /\ priority (run_log [Do_commit None] s2) = None.
Proof. vm_compute. done. Qed.

(** "ignore one leading whitespace character": none is. *)
Lemma readline_keeps_whitespace : readline (txt " x" ++ [newline]) = (Some " x"%string, []).
Proof. vm_compute. done. Qed.

(** Marking a ClassAd's attribute dirty is not written: it is clean after a restart. *)
Lemma dirty_marks_are_lost :
  let s := run_log (take 6 run_ops) run_opened in
  let dirty (d : AdTable) : option bool :=
    ad ← HashTable.lookup hashFunction "1.0"%string (ads d); c ← store d !! ad; Some (IsAttributeDirty "JobPrio" c) in
  dirty (table s) = Some true /\
  match run_load (contents s) with Ret _ d => dirty d = Some false | _ => False end.
Proof. vm_compute. done. Qed.
End corners.
