(* ===== verification/JobAd.v ===== *)
(** * String attributes of a ClassAd that is in no other

    What [LookupString] says of the ClassAd of a job after its attributes were assigned and
    deleted; shared by the modules that keep their texts in it. *)
From Stdlib Require Import ZArith Lia Ascii String.
From stdpp Require Import base list gmap strings.
From S2P Require Import Prelude Double Tree Values FlatMap AdStore AdStoreFacts AdStoreLaws Eval EvalFacts MatchFacts.

(** A ClassAd with no ClassAd around it and no chained parent. *)
Definition top_level (h : heap) (a : adref) : Prop :=
  exists ad, h !! a = Some ad /\ parentScope ad = None /\ chained_parent_ad ad = None.

Lemma top_level_root h a : top_level h a -> SetRootScope h (Some a) = Some (Some a).
Proof.
  intros (ad&Ha&Hp&_). unfold SetRootScope. rewrite Ha. simpl. rewrite Hp. by destruct (size h).
Qed.
Lemma top_level_insert h a ad : parentScope ad = None -> chained_parent_ad ad = None -> top_level (<[a := ad]> h) a.
Proof. intros Hp Hc. exists ad. by rewrite lookup_insert_eq. Qed.
Lemma insert_attr_frame name t ad :
  parentScope (insert_attr name t ad) = parentScope ad /\
  chained_parent_ad (insert_attr name t ad) = chained_parent_ad ad.
Proof. unfold insert_attr, MarkAttributeDirty. by case_match. Qed.

Lemma assign_string h a name v : top_level h a -> name <> ""%string ->
  exists h', InsertAttr_string h a name v = Some (h', true) /\ top_level h' a.
Proof.
  intros (ad&Ha&Hp&Hc) Hn. eexists. split; [unfold InsertAttr_string; by apply Insert_plain|].
  by apply top_level_insert; rewrite ?(proj1 (insert_attr_frame _ _ _)), ?(proj2 (insert_attr_frame _ _ _)).
Qed.

Lemma top_level_lookup h a name : top_level h a -> exists o, Lookup h a name = Some o.
Proof.
  intros (ad&Ha&_&Hc). unfold Lookup.
  destruct (size h) as [|n] eqn:En; [apply map_size_empty_inv in En as ->; by rewrite lookup_empty in Ha|].
  simpl. rewrite Ha. simpl. rewrite Hc. destruct (fm_lookup _ _); eauto.
Qed.

Lemma top_level_delete h a name : top_level h a ->
  exists h' b, Delete h a name = Some (h', b) /\ top_level h' a.
Proof.
  intros (ad&Ha&Hp&Hc). unfold Delete. rewrite Ha. simpl. unfold parent_lookup. rewrite lookup_insert_eq.
  simpl. rewrite Hc. eexists _, _. split; [reflexivity|]. by apply top_level_insert.
Qed.

Lemma top_level_delete_same h a name h' b : heap_ok h -> nul_free name -> top_level h a ->
  Delete h a name = Some (h', b) -> Lookup h' a name = Some None.
Proof.
  intros Hok Hn (ad&Ha&Hp&Hc). unfold Delete. rewrite Ha. simpl. unfold parent_lookup. rewrite lookup_insert_eq.
  simpl. rewrite Hc. intros [= <- _]. eapply (erase_Lookup_same h a ad name name); try done.
  unfold parent_lookup. rewrite lookup_insert_eq. simpl. by rewrite Hc.
Qed.

Section strings.
Variable oldSemantics : bool.
Variable functionTable : string -> option ClassAdFunc.
Abbreviation LookupString n := (EvaluateAttrString oldSemantics functionTable n).

Lemma LookupInScope_found this name t h s : Lookup h this name = Some (Some t) ->
  LookupInScope oldSemantics this name (h, s) = Ret (EVAL_OK t) (h, set_curAd (Some this) s).
Proof.
  intros Hl. unfold LookupInScope. simpl. unfold rbind, modify_state, read_heap. simpl. by rewrite Hl.
Qed.
Lemma LookupInScope_absent this name h s : top_level h this ->
  Lookup h this name = Some None -> is_special oldSemantics name = false ->
  exists s', LookupInScope oldSemantics this name (h, s) = Ret EVAL_UNDEF (h, s').
Proof.
  intros (ad&Ha&Hp&_) Hl Hs. unfold LookupInScope. simpl. unfold rbind, modify_state, read_heap, get_state. simpl.
  rewrite Hl. simpl. rewrite Ha. simpl. rewrite Hp, Hs.
  rewrite (bool_decide_eq_false_2 (_ = Some this)); [|by case_match].
  case_match; (destruct (size h); eexists; reflexivity).
Qed.

(** A string literal is what [LookupString] finds; the undefined literal, or no attribute,
    is no string. *)
Lemma LookupString_found n a name v h s : top_level h a ->
  Lookup h a name = Some (Some (StringLiteral v)) -> LookupString (S n) a name (h, s) = Ret (Some v) (h, s).
Proof.
  intros Ht Hl. unfold EvaluateAttrString, EvaluateAttr_as, EvaluateAttr, EvaluateAttr_with, in_new_state, rbind.
  cbn [fst snd]. rewrite (top_level_root _ _ Ht), (LookupInScope_found _ _ _ _ _ Hl). reflexivity.
Qed.
Lemma LookupString_undefined n a name h s : top_level h a ->
  Lookup h a name = Some (Some UndefinedLiteral) -> LookupString (S n) a name (h, s) = Ret None (h, s).
Proof.
  intros Ht Hl. unfold EvaluateAttrString, EvaluateAttr_as, EvaluateAttr, EvaluateAttr_with, in_new_state, rbind.
  cbn [fst snd]. rewrite (top_level_root _ _ Ht), (LookupInScope_found _ _ _ _ _ Hl). reflexivity.
Qed.
Lemma LookupString_absent n a name h s : top_level h a ->
  Lookup h a name = Some None -> is_special oldSemantics name = false ->
  LookupString n a name (h, s) = Ret None (h, s).
Proof.
  intros Ht Hl Hs. unfold EvaluateAttrString, EvaluateAttr_as, EvaluateAttr, EvaluateAttr_with, in_new_state, rbind.
  cbn [fst snd]. rewrite (top_level_root _ _ Ht).
  destruct (LookupInScope_absent a name h
    {| depth_remaining := MAX_CLASSAD_RECURSION; rootAd := Some a; curAd := Some a; flattenAndInline := false |}
    Ht Hl Hs) as [s' ->]. reflexivity.
Qed.
End strings.
