(* ===== verification/LogRotation.v ===== *)
(** * Snapshots of the ClassAd log, and its rotation ([classad_log.cpp], [classad_log.h])

    [WriteClassAdLogState] writes the table of ClassAds as a log of its own;
    [TruncateClassAdLog] replaces the log by it, [TruncLog] keeps copies of the logs it
    replaces, and [InitLogFile] rotates a log that was not clean. The copies are modelled
    by the sequence numbers in their names; what the system calls answer is an argument.
    Writes into a buffered file are taken to be accepted: one that is refused makes
    [WriteClassAdLogState] return false, as a record without a text does, and the process
    ends. The order in which the directory reaches the disk is not modelled. *)
From Stdlib Require Import ZArith Lia Ascii String.
From stdpp Require Import base list gmap strings.
From S2P Require Import Prelude Double Numerals Tree Values Lexer FlatMap AdStore Eval Parser Unparser HashTable ClassAdLog AdTable.
Open Scope res_scope.

(** What the calls to the file system answer in one rotation. *)
Record SystemCalls := mk_SystemCalls {
  copied : bool;    (** [hardlink_or_copy_file] of the log *)
  unlinked : bool;  (** [unlink] of the oldest copy, when there is one *)
  created : bool;   (** [safe_create_replace_if_exists] and [fdopen] of the new file *)
  flushed : option nat; (** [fflush]: [Some k] when it fails and [k] bytes end up in the file *)
  datasynced : bool; (** [condor_fdatasync] *)
  moved : bool;     (** [rotate_file] *)
  reopened : bool   (** [safe_open_wrapper_follow] and [fdopen] of the log *)
}.

Definition all_answer : SystemCalls := mk_SystemCalls true true true None true true true.

(** What [fflush] and [condor_fdatasync] leave of a file. *)
Definition fflush (flushed : option nat) (f : File) : File :=
  match flushed with
  | None => f
  | Some k => mk_File (take k (written f)) (Nat.min (synced f) k)
  end.
Definition fdatasync (datasynced : bool) (f : File) : File := if datasynced then fsync f else f.

(** The copies, by the number after the name of the log. *)
Abbreviation History := (gmap Z text).

Definition SaveHistoricalClassAdLogs (sys : SystemCalls) (content : text) (max_historical_logs historical_sequence_number : Z)
    (files : History) : History * bool :=
  if max_historical_logs =? 0 then (files, true)
  else if negb (copied sys) then (files, false)
  else
    let files1 := <[historical_sequence_number := content]> files in
    if unlinked sys then (base.delete ((historical_sequence_number - max_historical_logs) mod two64) files1, true)
    else (files1, true).

Section rotation.
Variable oldSemantics : bool.
Variable functionTable : string -> option ClassAdFunc.
Variables MakeAbsTime MakeRelTime : string -> option ExprTree.
Variable strict_parsing : bool.
Variable absTimeToString : abstime_t -> text.
Variable relTimeToString : double -> text.
(** Fuel of the evaluations. *)
Variable n : nat.

Abbreviation ExprTreeToString := (ExprTreeToString absTimeToString relTimeToString).

(** [GetMyTypeName]: the evaluation sets the scopes it needs itself. *)
Definition GetMyTypeName (ad : adref) (h : heap) : Res heap string :=
  match EvaluateAttrString oldSemantics functionTable n ad "MyType" (h, mk_EvalState 0 None None false) with
  | Ret myTypeStr (h', _) => Ret (c_str (default ""%string myTypeStr)) h'
  | NoFuel => NoFuel
  | Except => Except
  end.

(** [log->Write (fp)] *)
Definition write_log (log : LogRecord) (fp : File) : File * bool :=
  let '(s, ok) := Write log in (fwrite s fp, ok).

(** The records of the attributes of one ClassAd. *)
Definition attr_record (key : string) (h : heap) (kv : string * ExprTree) : LogRecord :=
  new_LogSetAttribute oldSemantics MakeAbsTime MakeRelTime key (c_str kv.1) (ExprTreeToString h kv.2) false.
Fixpoint write_attrs (key : string) (h : heap) (attrs : list (string * ExprTree)) (fp : File) : File * bool :=
  match attrs with
  | [] => (fp, true)
  | kv :: attrs' =>
      let '(fp1, ok) := write_log (attr_record key h kv) fp in
      if ok then write_attrs key h attrs' fp1 else (fp1, false)
  end.

(** One ClassAd, without those it is chained to. When a record is refused the chain stays
    cut. *)
Definition write_own_attrs (key : string) (ad : adref) (fp : File) (h : heap) : option (heap * (File * bool)) :=
  chain ← chained_parent_ad <$> h !! ad;
  h1 ← Unchain h ad;
  attrs ← attrList <$> h1 !! ad;
  let '(fp1, ok) := write_attrs key h1 attrs fp in
  if (ok : bool) then h2 ← ChainToAd h1 ad chain; Some (h2, (fp1, true)) else Some (h1, (fp1, false)).
Definition write_ad (key : string) (ad : adref) (fp : File) : heap -> Res heap (File * bool) :=
  let! mytype := GetMyTypeName ad in
  let '(fp1, ok) := write_log (LogNewClassAd key mytype) fp in
  if (ok : bool) then fun h => of_option (write_own_attrs key ad fp1 h) else rret (fp1, false).

(** The walk over the table. *)
Fixpoint write_ads (fuel : nat) (fp : File) (la : AdTable) : Res AdTable (File * bool) :=
  match fuel with
  | O => NoFuel
  | S fuel' =>
      match iterate (ads la) with
      | None => NoFuel
      | Some (t, None) => Ret (fp, true) (mk_AdTable t (store la))
      | Some (t, Some (key, ad)) =>
          match write_ad (c_str key) ad fp (store la) with
          | Ret (fp', ok) h =>
              if ok then write_ads fuel' fp' (mk_AdTable t h) else Ret (fp', false) (mk_AdTable t h)
          | NoFuel => NoFuel
          | Except => Except
          end
      end
  end.

(** A failed [fflush] or [condor_fdatasync] is a message only. *)
Definition WriteClassAdLogState (sys : SystemCalls) (fp : File) (historical_sequence_number m_original_log_birthdate : Z) (la : AdTable)
    : Res AdTable (File * bool) :=
  let '(fp1, ok) := write_log (LogHistoricalSequenceNumber historical_sequence_number m_original_log_birthdate) fp in
  if (ok : bool) then
    (let! (fp2, ok) := write_ads (S (length (walk_entries (ads la)))) fp1 in
     rret (if (ok : bool) then fdatasync (datasynced sys) (fflush (flushed sys) fp2) else fp2, ok)) (mk_AdTable (startIterations (ads la)) (store la))
  else Ret (fp1, false) la.

(** [TruncateClassAdLog]: the table, the log, the sequence number and the result. *)
Definition TruncateClassAdLog (sys : SystemCalls) (log_fp : option File)
    (historical_sequence_number m_original_log_birthdate : Z) (la : AdTable)
    : Res AdTable (option File * Z * bool) :=
  if negb (created sys) then Ret (log_fp, historical_sequence_number, false) la
  else
    let future_sequence_number := (historical_sequence_number + 1) mod two64 in
    (let! (new_log_fp, success) := WriteClassAdLogState sys (mk_File [] 0) future_sequence_number m_original_log_birthdate in
     rret (if negb success then (None, historical_sequence_number, false)
           else if negb (moved sys) then
             (if reopened sys then log_fp else None, historical_sequence_number, false)
           else (if reopened sys then Some new_log_fp else None, future_sequence_number, true))) la.

Abbreviation Log := (ClassAdLog (D := AdTable)).

(** [LogState]: the snapshot alone. *)
Definition LogState (sys : SystemCalls) (fp : File) (s : Log) : Res Log File :=
  match WriteClassAdLogState sys fp (historical_sequence_number s) (m_original_log_birthdate s) (table s) with
  | Ret (fp', success) d => if (success : bool) then Ret fp' (set_table d s) else Except
  | NoFuel => NoFuel
  | Except => Except
  end.

Definition after_rotation (fp : option File) (seq : Z) (d : AdTable) (s : Log) : Log :=
  mk_ClassAdLog d fp (active_transaction s) (max_historical_logs s) seq (m_original_log_birthdate s) (m_nondurable_level s).

(** [TruncLog] of a log that is open. *)
Definition TruncLog (sys : SystemCalls) (st : Log * History) : Res (Log * History) bool :=
  let '(s, files) := st in
  match log_fp s with
  | None => Except
  | Some f =>
      let '(files1, saved) := SaveHistoricalClassAdLogs sys (written f) (max_historical_logs s) (historical_sequence_number s) files in
      if negb saved then Ret false (s, files1)
      else match TruncateClassAdLog sys (log_fp s) (historical_sequence_number s) (m_original_log_birthdate s) (table s) with
           | Ret (fp, seq, rotated) d =>
               match fp with
               | None => Except
               | Some _ => Ret rotated (after_rotation fp seq d s, files1)
               end
           | NoFuel => NoFuel
           | Except => Except
           end
  end.

(** [InitLogFile] of the constructed object, on the contents of the file. *)
Definition InitLogFile (sys : SystemCalls) (now : Z) (content : text) (max_historical_logs_arg : Z)
    (st : Log * History) : Res (Log * History) bool :=
  let '(s, files) := st in
  let open_read_only := max_historical_logs_arg <? 0 in
  let max := Z.abs max_historical_logs_arg in
  match LoadClassAdLog (D := AdTable) (H := AdTable_data oldSemantics MakeAbsTime MakeRelTime) oldSemantics MakeAbsTime MakeRelTime strict_parsing now content (table s) with
  | NoFuel => NoFuel
  | Except => Except
  | Ret None d =>
      Ret false (mk_ClassAdLog d None (active_transaction s) max (historical_sequence_number s)
                   (m_original_log_birthdate s) (m_nondurable_level s), files)
  | Ret (Some r) d =>
      let s1 := mk_ClassAdLog d (Some (lr_fp r)) (active_transaction s) max (lr_sequence_number r)
                  (lr_birthdate r) (m_nondurable_level s) in
      let requires := lr_requires_successful_cleaning r in
      if negb (lr_is_clean r) || requires then
        if open_read_only && requires then Ret false (StopLog s1, files)
        else match TruncLog sys (s1, files) with
             | Ret rotated (s2, files2) =>
                 if negb rotated && requires then Ret false (StopLog s2, files2) else Ret true (s2, files2)
             | NoFuel => NoFuel
             | Except => Except
             end
      else Ret true (s1, files)
  end.
End rotation.
