(* ===== verification/LogRotationFacts.v ===== *)
(** * What a snapshot of the table writes, and what playing its records does

    The texts of expressions have the fuel their parsing needs; the records of a ClassAd that
    has a text; loading and playing them. *)
From Stdlib Require Import ZArith Lia Ascii String.
From stdpp Require Import base list gmap strings.
From S2P Require Import Prelude Double Numerals Tree Values Lexer FlatMap AdStore AdStoreFacts Eval MatchFacts Parser ParserFacts Grammar Unparser LexerFacts LexerLaws TextFacts RoundTrip AdText HashTable HashTableFacts HashTableLaws ClassAdLog ClassAdLogFacts ClassAdLogRecovery ClassAdLogLaws AdTable AdTableLaws LogRotation.
Open Scope res_scope.

#[local] Arguments txt : simpl never.

(** ** Texts of expressions: long enough for the fuel of their parsing, and not blank *)
Section texts.
Variable old : bool.
Variable absTimeToString : abstime_t -> text.
Variable relTimeToString : double -> text.
Variable unparse_ad : adref -> text.
Abbreviation U := (Unparse old absTimeToString relTimeToString unparse_ad).

Definition visible (s : text) : bool := existsb (fun c => negb (isspace c)) s.
Lemma visible_app s1 s2 : visible (s1 ++ s2) = visible s1 || visible s2.
Proof. apply existsb_app. Qed.
Lemma visible_length s : visible s = true -> (1 <= length s)%nat.
Proof. destruct s; [done|simpl; lia]. Qed.
Lemma visible_not_blank s : visible s = true -> forallb isspace s = false.
Proof.
  intros (c&Hc&Hv)%existsb_exists. apply not_true_is_false. intros Hb. rewrite forallb_forall in Hb.
  by rewrite (Hb _ Hc) in Hv.
Qed.

Lemma visible_digits w c : isdigit c = true -> visible (c :: w) = true.
Proof. intros Hc. simpl. unfold isspace, isdigit, between in *. change (code "0") with 48 in Hc. change (code "9") with 57 in Hc. lia. Qed.

Lemma join_length sep l : (sum_list (length <$> l) <= length (join sep l))%nat.
Proof.
  induction l as [|x l IH]; [done|]. destruct l as [|y l]; [cbn; lia|].
  change (join sep (x :: y :: l)) with (x ++ sep ++ join sep (y :: l)). rewrite !length_app.
  change (sum_list (length <$> x :: y :: l)) with (length x + sum_list (length <$> y :: l))%nat. lia.
Qed.

(** What a text that is not a name or a number shows. *)
Definition sized (t : ExprTree) : Prop :=
  grammatical t = true -> printable old t = true -> visible (U t) = true /\ (tree_size t <= length (U t))%nat.

Lemma items_sized l : Forall sized l -> forallb grammatical l = true -> forallb (printable old) l = true ->
  (sum_list (tree_size <$> l) <= length (join (txt ",") (U <$> l)))%nat.
Proof.
  intros Hl Hg Hp. etransitivity; [|apply join_length]. induction Hl as [|t l Ht _ IH]; [done|].
  cbn [forallb] in Hg, Hp. apply andb_prop in Hg as [Hg1 Hg2], Hp as [Hp1 Hp2].
  destruct (Ht Hg1 Hp1). specialize (IH Hg2 Hp2). cbn in *. lia.
Qed.

Lemma word_char_visible c w : word_char c = true -> visible (c :: w) = true.
Proof. destruct c as [[][][][][][][][]]; vm_compute; done. Qed.
Lemma unparse_name_visible s : no_nul (txt s) -> visible (unparse_name old s) = true.
Proof.
  intros Hs. unfold unparse_name. destruct (identifierNeedsQuoting _) eqn:E; [done|].
  apply needs_no_quoting in E as [E _]. destruct (escape_in _ _ _) as [|c w]; [done|].
  apply word_char_visible. simpl in E. by destruct (word_char c).
Qed.
Lemma visible_name s w : is_plain s = true -> visible (txt s ++ w) = true.
Proof.
  intros Hs%is_plain_spec. destruct (plain_word_first s Hs) as (c&w'&->&Hc). by apply word_char_visible.
Qed.

Lemma binary_string_length op b : bin_level op = Some b -> (1 <= length (binary_string old op))%nat.
Proof. destruct op; intros E; try discriminate E; destruct old; vm_compute; lia. Qed.

Ltac sizes := repeat match goal with H : grammatical ?t = true -> _ |- _ =>
  let H1 := fresh in let H2 := fresh in destruct H as [H1 H2]; [done|done|] end;
  rewrite ?visible_app; cbn [length tree_size fmap list_fmap]; repeat (rewrite ?length_app; cbn [length]);
  split; [repeat match goal with H : visible ?x = true |- context [visible ?x] => rewrite H end; rewrite ?orb_true_r; done|
          lia].

Lemma text_sized t : sized t.
Proof.
  unfold sized. induction t using ExprTree_induct; intros Hg Hp; cbn [grammatical printable] in Hg, Hp; split_andb; try done;
    cbn [Unparse].
  - split; [done|vm_compute; lia].
  - split; [done|vm_compute; lia].
  - destruct b; (split; [done|vm_compute; lia]).
  - unfold append_long. destruct (digits_text i) as (c&w&Ed&Hd), (digits_text (- i)) as (c'&w'&Ed'&Hd').
    simpl in Hd. apply andb_prop in Hd as [Hd _]. rewrite Ed. destruct (0 <=? i); (split; [|simpl; lia]); [|done].
    by apply visible_digits.
  - destruct (real_survives_strtod _ r Hp) as [Hf _]. destruct (UnparseReal_text old r Hf) as (c&w&t&Hc&_&_&->).
    destruct (real_sign r); simpl; (split; [|lia]); [done|by apply visible_digits].
  - split; [done|cbn; lia].
  - assert (Hv : visible (unparse_name old a) = true) by (apply unparse_name_visible; by apply nul_free_text_spec).
    pose proof (visible_length _ Hv). rewrite visible_app, Hv, length_app, orb_true_r. simpl. split; [done|lia].
  - sizes.
  - assert (Ho : (1 <= length (opString op))%nat) by (destruct op; try discriminate; vm_compute; lia). sizes.
  - sizes.
  - assert (Hcase : op = SUBSCRIPT_OP \/ exists b, bin_level op = Some b) by (destruct op; simpl in *; try done; eauto).
    destruct Hcase as [-> |[b Hb]]; [cbn match; sizes|]. pose proof (binary_string_length op b Hb).
    assert (E : forall A (x y : A), match op with SUBSCRIPT_OP => x | _ => y end = y) by by destruct op.
    rewrite E. sizes.
  - change (txt " ? ") with ([" "; "?"; " "]%char). change (txt " : ") with ([" "; ":"; " "]%char). sizes.
  - change (txt " ?: ") with ([" "; "?"; ":"; " "]%char). sizes.
  - assert (Hs : (sum_list (tree_size <$> l) <= length (join (txt ",") (U <$> l)))%nat) by by apply items_sized.
    rewrite visible_name by done. sizes.
  - assert (Hs : (sum_list (tree_size <$> l) <= length (join (txt ",") (U <$> l)))%nat) by by apply items_sized.
    change (txt "{ ") with (["{"; " "]%char). sizes.
Qed.
End texts.

(** ** ClassAds that have texts *)

(** [c_str] of a text without zero bytes. *)
Lemma c_str_no_nul s : no_nul s -> c_str (of_text s) = of_text s.
Proof.
  induction s as [|c s IH]; [done|]. intros [Hc Hs]%no_nul_cons. unfold of_text in *. simpl.
  destruct (Ascii.eqb_spec c zero) as [->|_]; [done|]. by rewrite IH.
Qed.
Lemma word_nul_free s : word s -> nul_free s.
Proof.
  intros [_ Hw]. unfold nul_free. rewrite <- (of_text_txt s). apply c_str_no_nul.
  unfold no_nul. apply Forall_forall. intros c Hc ->. rewrite forallb_forall in Hw.
  apply list_elem_of_In in Hc. by specialize (Hw _ Hc).
Qed.

(** The text of a tree in no ClassAd does not depend on the store. *)
Lemma Unparse_no_ads old f1 f2 u u' t : grammatical t = true -> Unparse old f1 f2 u t = Unparse old f1 f2 u' t.
Proof.
  assert (Hl : forall l, Forall (fun t => grammatical t = true -> Unparse old f1 f2 u t = Unparse old f1 f2 u' t) l ->
    forallb grammatical l = true -> Unparse old f1 f2 u <$> l = Unparse old f1 f2 u' <$> l).
  { induction 1 as [|x l Hx _ IH]; [done|]. cbn [forallb]. intros [Hx1 Hx2]%andb_prop.
    rewrite !fmap_cons. f_equal; auto. }
  induction t using ExprTree_induct; intros Hg; cbn [grammatical] in Hg; split_andb; try done; cbn [Unparse];
    repeat match goal with H : grammatical ?t = true -> _ |- _ => rewrite H by done end; try done; by rewrite Hl.
Qed.

Section snapshot.
Variable oldSemantics : bool.
Variable functionTable : string -> option ClassAdFunc.
Variables MakeAbsTime MakeRelTime : string -> option ExprTree.
Variable strict_parsing : bool.
Variable absTimeToString : abstime_t -> text.
Variable relTimeToString : double -> text.
Variable n : nat.

Abbreviation ExprTreeToString := (ExprTreeToString absTimeToString relTimeToString).
Abbreviation GetMyTypeName := (GetMyTypeName oldSemantics functionTable n).
Abbreviation attr_record := (attr_record oldSemantics MakeAbsTime MakeRelTime absTimeToString relTimeToString).
Abbreviation record_ok := (record_ok oldSemantics MakeAbsTime MakeRelTime).
Abbreviation InsertViaCache := (InsertViaCache oldSemantics MakeAbsTime MakeRelTime).
#[local] Instance table_data : DataStructure AdTable := AdTable_data oldSemantics MakeAbsTime MakeRelTime.

(** The text of an attribute, which has no newline, is one that is read back. *)
Definition attr_text (t : ExprTree) : text := Unparse true absTimeToString relTimeToString (fun _ => []) t.
Record writable_attr (kv : string * ExprTree) : Prop := {
  wa_name : word kv.1;
  wa_grammatical : grammatical (unscoped kv.2) = true;
  wa_printable : printable true (unscoped kv.2) = true;
  wa_nesting : nesting (unscoped kv.2) < MAX_PARSE_DEPTH;
  wa_line : existsb (Ascii.eqb newline) (attr_text kv.2) = false
}.

Lemma attr_text_unscoped t : attr_text (unscoped t) = attr_text t.
Proof. apply Unparse_scope. Qed.
Lemma attr_text_no_nul kv : writable_attr kv -> no_nul (attr_text kv.2).
Proof. intros [_ Hg Hp _ _]. rewrite <- attr_text_unscoped. by apply text_no_nul. Qed.

Lemma ExprTreeToString_text h kv : writable_attr kv -> ExprTreeToString h kv.2 = of_text (attr_text kv.2).
Proof.
  intros Hw. unfold Unparser.ExprTreeToString, UnparseTree.
  rewrite <- (c_str_no_nul (attr_text kv.2)) by by apply attr_text_no_nul. f_equal. f_equal.
  rewrite <- (attr_text_unscoped kv.2), <- (Unparse_scope _ _ _ _ None). apply Unparse_no_ads, Hw.
Qed.

(** Parsing the text, with the fuel the log gives it. *)
Lemma attr_text_parsed kv h full : writable_attr kv -> exists lx',
  ParseExpression oldSemantics true MakeAbsTime MakeRelTime (parse_fuel (of_text (attr_text kv.2))) h new_Lexer
    (of_text (attr_text kv.2)) full = Ret (Some (unscoped kv.2)) (h, lx').
Proof.
  intros [_ Hg Hp Hn _]. rewrite <- attr_text_unscoped. unfold ParseExpression.
  change list_ascii_of_string with txt. rewrite txt_of_text. apply parse_text; try done.
  destruct (text_sized true absTimeToString relTimeToString (fun _ => []) (unscoped kv.2) Hg Hp) as [_ Hs].
  fold (attr_text (unscoped kv.2)) in Hs. unfold parse_fuel. rewrite <- txt_length, txt_of_text. lia.
Qed.
Lemma attr_text_ok kv : writable_attr kv ->
  line (of_text (attr_text kv.2)) /\ visible (attr_text kv.2) = true /\
  ParseClassAdRvalExpr_ok oldSemantics MakeAbsTime MakeRelTime (of_text (attr_text kv.2)) = true.
Proof.
  intros Hw. pose proof Hw as [_ Hg Hp _ Hl].
  destruct (text_sized true absTimeToString relTimeToString (fun _ => []) (unscoped kv.2) Hg Hp) as [Hv _].
  fold (attr_text (unscoped kv.2)) in Hv. rewrite attr_text_unscoped in Hv. split_and!; [|done|].
  - split; [intros E; apply (f_equal txt) in E; rewrite txt_of_text in E; by rewrite E in Hv|]. rewrite txt_of_text.
    apply forallb_forall. intros c Hc. unfold plain. apply andb_true_intro. split; apply negb_true_iff.
    + apply not_true_is_false. intros E. rewrite <- not_true_iff_false, existsb_exists in Hl. by apply Hl; exists c.
    + apply attr_text_no_nul in Hw. unfold no_nul in Hw. rewrite Forall_forall in Hw.
      apply Ascii.eqb_neq. by apply Hw, list_elem_of_In.
  - unfold ParseClassAdRvalExpr_ok. by destruct (attr_text_parsed kv ∅ true Hw) as [lx' ->].
Qed.

(** The record of an attribute, and what playing it does to the ClassAd. *)
Definition set_record (key : string) (kv : string * ExprTree) : LogRecord :=
  LogSetAttribute key kv.1 (of_text (attr_text kv.2)) false.
Lemma attr_record_ok key h kv : word key -> writable_attr kv ->
  attr_record key h kv = set_record key kv /\ record_ok (set_record key kv).
Proof.
  intros Hk Hw. destruct (attr_text_ok kv Hw) as (Hl&Hv&Hp).
  split.
  - unfold LogRotation.attr_record, new_LogSetAttribute. rewrite (ExprTreeToString_text h kv Hw), Hp.
    pose proof (proj1 Hl) as Hne. apply String.eqb_neq in Hne as ->.
    unfold blankline. rewrite (c_str_no_nul _ (attr_text_no_nul kv Hw)), txt_of_text, visible_not_blank by done.
    unfold set_record. simpl. f_equal. apply word_nul_free, Hw.
  - simpl. split_and!; [done|apply Hw|done|done].
Qed.
Lemma InsertViaCache_text h a ad kv : h !! a = Some ad -> writable_attr kv ->
  InsertViaCache h a kv.1 (of_text (attr_text kv.2)) =
    Some (<[a := insert_attr kv.1 (SetParentScope (Some a) kv.2) ad]> h, true).
Proof.
  intros Ha Hw. unfold AdTable.InsertViaCache. pose proof (proj1 (wa_name _ Hw)) as Hne.
  apply String.eqb_neq in Hne as E. rewrite E. destruct (attr_text_parsed kv h false Hw) as [lx' ->].
  rewrite (Insert_plain h a ad) by (done || by apply nested_ads_grammatical, Hw).
  unfold unscoped. by rewrite SetParentScope_idem.
Qed.

(** ** What is written

    Each entry of the table with what there is to write of it: its ClassAd and the type. *)
Record writable (h : heap) (entry : string * adref) (view : ClassAd * string) : Prop := {
  wr_key : word entry.1;
  wr_ad : h !! entry.2 = Some view.1;
  wr_type : GetMyTypeName entry.2 h = Ret view.2 h;
  wr_type_word : view.2 = ""%string \/ word view.2 /\ view.2 <> EMPTY_CLASSAD_TYPE_NAME;
  wr_order : fm_ok (attrList view.1);
  wr_attrs : Forall writable_attr (attrList view.1)
}.

Definition ad_records (entry : string * adref) (view : ClassAd * string) : list LogRecord :=
  LogNewClassAd entry.1 view.2 :: (set_record entry.1 <$> attrList view.1).
Definition table_records (l : list (string * adref)) (views : list (ClassAd * string)) : list LogRecord :=
  concat (zip_with ad_records l views).

Lemma ad_records_ok h entry view : writable h entry view -> Forall record_ok (ad_records entry view).
Proof.
  intros [Hk _ _ Ht _ Ha]. constructor; [done|]. apply Forall_fmap. eapply Forall_impl; [exact Ha|].
  intros kv Hw. apply (attr_record_ok entry.1 ∅ kv Hk Hw).
Qed.

Lemma write_log_ok r fp : record_ok r -> write_log r fp = (fwrite (record_text r) fp, true).
Proof.
  intros Hr. destruct (write_ok _ _ _ strict_parsing r Hr) as (body&E&_). unfold write_log, record_text. by rewrite E.
Qed.
Lemma fwrite_app s1 s2 fp : fwrite s2 (fwrite s1 fp) = fwrite (s1 ++ s2) fp.
Proof. unfold fwrite. simpl. by rewrite app_assoc. Qed.
Lemma fwrite_nil fp : fwrite [] fp = fp.
Proof. unfold fwrite. rewrite app_nil_r. by destruct fp. Qed.

Lemma write_attrs_ok key h l : word key -> Forall writable_attr l -> forall fp,
  write_attrs oldSemantics MakeAbsTime MakeRelTime absTimeToString relTimeToString key h l fp =
    (fwrite (records_text (set_record key <$> l)) fp, true).
Proof.
  intros Hk. induction 1 as [|kv l Hw _ IH]; intros fp; simpl; [by rewrite fwrite_nil|].
  destruct (attr_record_ok key h kv Hk Hw) as [-> Hr]. rewrite write_log_ok by done. by rewrite IH, fwrite_app.
Qed.

Lemma write_ad_ok h entry view fp : writable h entry view ->
  write_ad oldSemantics functionTable MakeAbsTime MakeRelTime absTimeToString relTimeToString n entry.1 entry.2 fp h =
    Ret (fwrite (records_text (ad_records entry view)) fp, true) h.
Proof.
  intros Hw. pose proof (ad_records_ok h entry view Hw) as Hok. destruct Hw as [Hk Ha Ht _ _ Hattrs].
  unfold write_ad, rbind. rewrite Ht. unfold ad_records in *. apply Forall_cons in Hok as [Hn _].
  rewrite write_log_ok by done. cbn [of_option]. unfold write_own_attrs, Unchain, on_ad. rewrite Ha. cbn [fmap option_fmap option_map mbind option_bind].
  rewrite lookup_insert_eq. cbn [fmap option_fmap option_map mbind option_bind].
  change (attrList (set_chained_parent_ad None view.1)) with (attrList view.1).
  rewrite write_attrs_ok by done. rewrite fwrite_app, records_text_cons. unfold ChainToAd, on_ad.
  destruct view as [[al da dt [c|] alt ps] ty]; cbn [fst snd chained_parent_ad].
  - rewrite lookup_insert_eq. cbn [mbind option_bind]. rewrite insert_insert_eq. simpl. rewrite insert_id by done. done.
  - cbn [mbind option_bind]. unfold set_chained_parent_ad. simpl. rewrite insert_id by done. done.
Qed.

Lemma write_ads_ok l : forall views fuel fp la, ht_ok hashFunction (ads la) -> cursor_ok (ads la) ->
  cursor_rest (ads la) = l -> Forall2 (writable (store la)) l views -> (length l < fuel)%nat ->
  write_ads oldSemantics functionTable MakeAbsTime MakeRelTime absTimeToString relTimeToString n fuel fp la =
    Ret (fwrite (records_text (table_records l views)) fp, true) (mk_AdTable (startIterations (ads la)) (store la)).
Proof.
  induction l as [|entry l IH]; intros views fuel fp la Ht Hc El Hw Hf; (destruct fuel as [|fuel]; [lia|]);
    cbn [write_ads]; destruct (iterate_ok hashFunction (ads la) Ht Hc) as (b&c&->&Hc'&Hrest);
    rewrite El in *; cbn [head].
  - inversion Hw; subst. destruct Hrest as [-> ->]. unfold table_records. simpl. by rewrite fwrite_nil.
  - inversion Hw as [|? view ? views' Hw1 Hw2]; subst. destruct entry as [key a].
    pose proof (word_nul_free key (wr_key _ _ _ Hw1)) as Hkey. rewrite Hkey.
    rewrite (write_ad_ok (store la) (key, a) view) by done.
    rewrite (IH views' fuel _ (mk_AdTable (set_cursor b c (ads la)) (store la))); try done; [|by apply ht_ok_set_cursor|simpl in Hf; lia].
    rewrite fwrite_app. unfold table_records. cbn [zip_with concat]. rewrite records_text_app. reflexivity.
Qed.

(** A snapshot is written in full, and the walk leaves the table as it was; what of it is in
    the file and durable is up to the flush. *)
Lemma WriteClassAdLogState_ok sys fp seq birth la views : table_ok la -> 0 <= seq < two64 -> 0 <= birth < two63 ->
  Forall2 (writable (store la)) (walk_entries (ads la)) views ->
  WriteClassAdLogState oldSemantics functionTable MakeAbsTime MakeRelTime absTimeToString relTimeToString n sys fp seq birth la =
    Ret (fdatasync (datasynced sys) (fflush (flushed sys) (fwrite (records_text (LogHistoricalSequenceNumber seq birth ::
           table_records (walk_entries (ads la)) views)) fp)), true)
        (mk_AdTable (startIterations (ads la)) (store la)).
Proof.
  intros [Ht _] Hseq Hbirth Hw. unfold WriteClassAdLogState. rewrite write_log_ok by done. cbn match. unfold rbind.
  rewrite (write_ads_ok (walk_entries (ads la)) views); try done; [|by apply ht_ok_set_cursor|simpl; lia].
  rewrite fwrite_app, records_text_cons. done.
Qed.

(** ** What is loaded *)
Lemma load_data rs : Forall is_data rs -> forall c seq birth clean errs (d : AdTable),
  load_records rs (mk_Loading None c seq birth clean errs) d =
    (let! _ := play_records rs in rret (Some (mk_Loading None (c + Z.of_nat (length rs)) seq birth clean errs))) d.
Proof.
  induction 1 as [|r rs Hr _ IH]; intros c seq birth clean errs d; [simpl; unfold rbind, rret; by rewrite Z.add_0_r|].
  replace (c + Z.of_nat (length (r :: rs))) with (c + 1 + Z.of_nat (length rs)) by (simpl; lia).
  destruct Hr as [key Hr]. cbn [load_records play_records]. unfold rbind at 1.
  assert (E : load_entry r (mk_Loading None c seq birth clean errs) d =
    (let! _ := Play r in rret (Some (mk_Loading None (c + 1) seq birth clean errs))) d) by by destruct r.
  rewrite E. unfold rbind at 1 2 3. destruct (Play r d) as [z d'| |]; [|done|done]. cbn [rret].
  rewrite IH. unfold rbind. done.
Qed.

Lemma load_whole rs : Forall record_ok rs -> forall k next ld (d : AdTable), (length rs < k)%nat ->
  load_loop oldSemantics MakeAbsTime MakeRelTime strict_parsing k next (records_text rs) ld d =
    (let! o := load_records (read_back <$> rs) ld in
     rret ((fun ld' => (ld', match rs with [] => next | _ => [] end, [])) <$> o)) d.
Proof.
  induction 1 as [|r rs Hr _ IH]; intros k next ld d Hk; (destruct k as [|k]; [lia|]); cbn [load_loop].
  - change (records_text []) with ([] : text). by rewrite read_end.
  - rewrite records_text_cons, read_written by done. cbn [fmap list_fmap load_records]. unfold rbind.
    destruct (load_entry (read_back r) ld d) as [[ld'|] d'| |]; [|done..]. rewrite IH by (simpl in Hk; lia).
    unfold rbind. by destruct rs.
Qed.

Lemma length_records rs : (length rs <= length (records_text rs))%nat.
Proof.
  induction rs as [|r rs IH]; [done|]. rewrite records_text_cons, length_app. simpl.
  pose proof (record_text_pos r). lia.
Qed.

(** A log of a sequence number and records of ClassAds is loaded cleanly. *)
Lemma load_snapshot now seq birth rs (d : AdTable) : 0 <= seq < two64 -> 0 <= birth < two63 ->
  Forall record_ok rs -> Forall is_data rs -> (read_back <$> rs) = rs ->
  let content := records_text (LogHistoricalSequenceNumber seq birth :: rs) in
  LoadClassAdLog oldSemantics MakeAbsTime MakeRelTime strict_parsing now content d =
    (let! _ := play_records rs in
     rret (Some (mk_LoadResult (mk_File content (length content)) seq birth true false []))) d.
Proof.
  intros Hs Hb Hr Hd Hback content. set (first := LogHistoricalSequenceNumber seq birth) in *.
  assert (Hk : (length (first :: rs) < S (length content))%nat) by (pose proof (length_records (first :: rs)); unfold content; lia).
  assert (Hf : Forall record_ok (first :: rs)) by by constructor.
  unfold ClassAdLog.LoadClassAdLog. unfold rbind at 1.
  rewrite (load_whole (first :: rs) Hf _ content _ d Hk). rewrite fmap_cons, Hback.
  assert (E : load_records (read_back first :: rs) (mk_Loading None 0 1 now true []) d =
    (let! _ := play_records rs in rret (Some (mk_Loading None (1 + Z.of_nat (length rs)) seq birth true []))) d).
  { cbn [load_records]. unfold rbind at 1. cbn. by rewrite load_data. }
  unfold rbind at 1. rewrite E. unfold rbind, rret. destruct (play_records rs d) as [u d'| |]; [|done..].
  cbn [fmap option_fmap option_map ld_count ld_transaction ld_clean ld_errmsg ld_sequence_number ld_birthdate].
  replace (1 + Z.of_nat (length rs) =? 0) with false by (symmetry; apply Z.eqb_neq; lia). done.
Qed.

(** ** Playing the records of one ClassAd *)
Definition reload_attr (a : adref) (ad : ClassAd) (kv : string * ExprTree) : ClassAd :=
  MarkAttributeClean kv.1 (insert_attr kv.1 (SetParentScope (Some a) kv.2) ad).
Definition reload_attrs (a : adref) (l : list (string * ExprTree)) (ad : ClassAd) : ClassAd := foldl (reload_attr a) ad l.

Lemma play_attrs key a l : Forall writable_attr l -> forall (d : AdTable) ad,
  HashTable.lookup hashFunction key (ads d) = Some a -> store d !! a = Some ad ->
  play_records (set_record key <$> l) d = Ret tt (mk_AdTable (ads d) (<[a := reload_attrs a l ad]> (store d))).
Proof.
  induction 1 as [|kv l Hw _ IH]; intros d ad Hl Ha.
  - simpl. rewrite insert_id by done. by destruct d.
  - cbn [fmap list_fmap play_records]. unfold rbind. cbn [Play table_data AdTable_data play set_record of_option].
    unfold play_SetAttribute. rewrite Hl, (InsertViaCache_text _ _ ad) by done. cbn [mbind option_bind].
    unfold on_ad. rewrite lookup_insert_eq. cbn [mbind option_bind of_option]. rewrite insert_insert_eq.
    rewrite (IH _ (reload_attr a ad kv)); [|done|simpl; by rewrite lookup_insert_eq]. simpl. by rewrite insert_insert_eq.
Qed.

(** A ClassAd without changes to write, in no scope and no chain. *)
Record settled (ad : ClassAd) : Prop := {
  st_tracking : do_dirty_tracking ad = true;
  st_dirty : dirtyAttrList ad = ∅;
  st_chain : chained_parent_ad ad = None;
  st_scope : parentScope ad = None
}.
Lemma reload_attr_settled a ad kv : settled ad -> settled (reload_attr a ad kv).
Proof.
  intros [Ht Hd Hc Hp]. unfold reload_attr, insert_attr, MarkAttributeDirty, MarkAttributeClean. simpl. rewrite Ht. simpl.
  rewrite Ht. split; simpl; try done. rewrite Hd. set_solver.
Qed.
Lemma reload_attr_list a ad kv : attrList (reload_attr a ad kv) = fm_insert (attrList ad) kv.1 (SetParentScope (Some a) kv.2).
Proof. unfold reload_attr, MarkAttributeClean. rewrite <- insert_attr_attrList. by destruct (do_dirty_tracking _). Qed.

Lemma fm_lookup_cons (k : string) (v : ExprTree) l name : fm_ok ((k, v) :: l) -> nul_free name ->
  fm_lookup ((k, v) :: l) name = if decide (attr_key name = attr_key k) then Some v else fm_lookup l name.
Proof.
  intros Hok Hn. pose proof Hok as Hok2. apply fm_ok_cons in Hok2. rewrite !fm_lookup_spec by tauto.
  rewrite fm_map_cons. case_decide as E; [by rewrite E, lookup_insert_eq|by rewrite lookup_insert_ne].
Qed.
Lemma reload_attrs_spec a l : fm_ok l -> forall ad, fm_ok (attrList ad) -> settled ad ->
  settled (reload_attrs a l ad) /\ fm_ok (attrList (reload_attrs a l ad)) /\
  forall name, nul_free name -> fm_lookup (attrList (reload_attrs a l ad)) name =
    match fm_lookup l name with Some t => Some (SetParentScope (Some a) t) | None => fm_lookup (attrList ad) name end.
Proof.
  induction l as [|[k v] l IH]; intros Hl ad Hok Hs; [done|].
  pose proof Hl as (Hk&_&Hl2)%fm_ok_cons.
  destruct (IH Hl2 (reload_attr a ad (k, v))) as (Hs'&Hok'&Hlook); [|by apply reload_attr_settled|].
  { rewrite reload_attr_list. by apply fm_insert_ok. }
  split_and!; [done|done|]. intros name Hn. cbn [reload_attrs foldl]. rewrite Hlook, reload_attr_list by done.
  rewrite fm_lookup_cons, fm_lookup_insert by done. cbn [fst snd]. case_decide as E; [|done].
  assert (fm_lookup l name = None) as ->; [|done].
  rewrite fm_lookup_spec, E, (fm_map_beyond k v) by (done || apply not_true_is_false; intros Ho%FlatMapOrder_spec; try done; by apply key_order_irrefl in Ho).
  done.
Qed.

(** [LogNewClassAd] of a type. *)
Definition typed_ad (mytype : string) : ClassAd :=
  let ad := insert_attr "MyType" (StringLiteral mytype) new_ClassAd in
  EnableDirtyTracking match strcasecmp mytype "Job" with
                      | Eq => insert_attr "TargetType" (StringLiteral "Machine") ad
                      | _ => ad
                      end.
Definition default_attr (mytype name : string) : option ExprTree :=
  if decide (attr_key name = "mytype") then Some (StringLiteral mytype)
  else if decide (attr_key name = "targettype" /\ strcasecmp mytype "Job" = Eq) then Some (StringLiteral "Machine")
  else None.

Lemma typed_ad_settled mytype : settled (typed_ad mytype).
Proof. unfold typed_ad. by destruct (strcasecmp mytype "Job"). Qed.
Lemma typed_ad_spec mytype : fm_ok (attrList (typed_ad mytype)) /\
  forall name, nul_free name -> fm_lookup (attrList (typed_ad mytype)) name = default_attr mytype name.
Proof.
  assert (H0 : fm_ok ([] : list (string * ExprTree))) by (split; constructor).
  assert (H1 : fm_ok (fm_insert [] "MyType" (StringLiteral mytype))) by by apply fm_insert_ok.
  assert (H2 : fm_ok (fm_insert (fm_insert [] "MyType" (StringLiteral mytype)) "TargetType" (StringLiteral "Machine")))
    by by apply fm_insert_ok.
  unfold typed_ad, default_attr. destruct (strcasecmp mytype "Job") eqn:E; (split; [done|]); intros name Hn; simpl attrList.
  - rewrite !fm_lookup_insert by done. change (attr_key "TargetType") with "targettype"%string.
    change (attr_key "MyType") with "mytype"%string. repeat case_decide; try done; naive_solver congruence.
  - rewrite !fm_lookup_insert by done. change (attr_key "MyType") with "mytype"%string. repeat case_decide; naive_solver.
  - rewrite !fm_lookup_insert by done. change (attr_key "MyType") with "mytype"%string. repeat case_decide; naive_solver.
Qed.

Lemma play_new key mytype (d : AdTable) : table_ok d -> to_map (ads d) !! key = None ->
  let a := fresh (dom (store d)) in exists t,
  play_NewClassAd key mytype d = Some (mk_AdTable t (<[a := typed_ad mytype]> (store d)), 0) /\
  ht_ok hashFunction t /\ iterators_ok t /\ to_map t = <[key := a]> (to_map (ads d)).
Proof.
  intros [Ht Hi] Hk a. unfold play_NewClassAd, alloc_ad. fold a. cbv zeta.
  unfold InsertAttr_string. rewrite (Insert_plain _ _ new_ClassAd) by (done || by rewrite lookup_insert_eq).
  rewrite insert_insert_eq. cbn [mbind option_bind SetParentScope].
  set (m := insert_attr "MyType" (StringLiteral mytype) new_ClassAd). set (h2 := <[a := m]> (store d)).
  assert (Ha : h2 !! a = Some m) by apply lookup_insert_eq.
  assert (Hlook : Lookup h2 a "TargetType" = Some None).
  { unfold Lookup. destruct (size h2) as [|k] eqn:En; [apply map_size_empty_inv in En; by rewrite En, lookup_empty in Ha|].
    simpl. by rewrite Ha. }
  assert (E : (match strcasecmp mytype "Job" with
    | Eq => targettype ← Lookup h2 a "TargetType";
            match targettype with None => Insert h2 a "TargetType" (Some (StringLiteral "Machine")) | Some _ => Some (h2, true) end
    | _ => Some (h2, true) end) =
    Some (<[a := match strcasecmp mytype "Job" with Eq => insert_attr "TargetType" (StringLiteral "Machine") m | _ => m end]> h2, true)).
  { rewrite Hlook. destruct (strcasecmp mytype "Job"); [|by rewrite insert_id..].
    cbn [mbind option_bind]. by rewrite (Insert_plain h2 a m). }
  rewrite E. cbn [mbind option_bind]. unfold on_ad. rewrite lookup_insert_eq. cbn [mbind option_bind].
  unfold h2. rewrite !insert_insert_eq.
  pose proof (insert_ok hashFunction (ads d) key a false Ht) as Hins.
  pose proof (insert_iterators hashFunction (ads d) key a false Hi) as Hi'.
  rewrite Hk in Hins. destruct (insert hashFunction key a false (ads d)) as [t r]. destruct Hins as [Ht' [= Em ->]].
  exists t. done.
Qed.

(** [ad'] at [a] is the ClassAd and the type of [view] as they are loaded. *)
Record reloaded (a : adref) (view : ClassAd * string) (ad' : ClassAd) : Prop := {
  rl_settled : settled ad';
  rl_order : fm_ok (attrList ad');
  rl_attrs : forall name, nul_free name -> fm_lookup (attrList ad') name =
    match fm_lookup (attrList view.1) name with
    | Some t => Some (SetParentScope (Some a) t)
    | None => default_attr view.2 name
    end
}.

Lemma play_ad h entry view (d : AdTable) : table_ok d -> to_map (ads d) !! entry.1 = None -> writable h entry view ->
  let a := fresh (dom (store d)) in exists t ad',
  play_records (ad_records entry view) d = Ret tt (mk_AdTable t (<[a := ad']> (store d))) /\
  ht_ok hashFunction t /\ iterators_ok t /\ to_map t = <[entry.1 := a]> (to_map (ads d)) /\ reloaded a view ad'.
Proof.
  intros Hok Hk Hw a. destruct (play_new entry.1 view.2 d Hok Hk) as (t&E&Ht&Hi&Em). fold a in E, Em.
  destruct (typed_ad_spec view.2) as [Ho Hl].
  destruct (reload_attrs_spec a (attrList view.1) (wr_order _ _ _ Hw) (typed_ad view.2) Ho (typed_ad_settled _)) as (Hs'&Ho'&Hl').
  exists t, (reload_attrs a (attrList view.1) (typed_ad view.2)). split_and!; try done.
  - unfold ad_records. cbn [play_records]. unfold rbind. cbn [Play table_data AdTable_data play]. rewrite E. cbn [of_option].
    rewrite (play_attrs _ a _ (wr_attrs _ _ _ Hw) _ (typed_ad view.2)); cbn [ads store].
    + by rewrite insert_insert_eq.
    + by rewrite lookup_to_map, Em, lookup_insert_eq.
    + by rewrite lookup_insert_eq.
  - split; [done|done|]. intros name Hn. rewrite Hl' by done. by destruct (fm_lookup _ name); rewrite ?Hl.
Qed.

(** The entries of [l] are loaded into ClassAds of their own. *)
Definition entry_loaded (d : AdTable) (entry : string * adref) (view : ClassAd * string) : Prop :=
  exists a ad', to_map (ads d) !! entry.1 = Some a /\ store d !! a = Some ad' /\ reloaded a view ad'.

Lemma play_table h l : forall views (d : AdTable), NoDup l.*1 -> Forall2 (writable h) l views -> table_ok d ->
  (forall key, key ∈ l.*1 -> to_map (ads d) !! key = None) ->
  exists d', play_records (table_records l views) d = Ret tt d' /\ table_ok d' /\
    (forall key, key ∉ l.*1 -> to_map (ads d') !! key = to_map (ads d) !! key) /\
    (forall a, a ∈ dom (store d) -> store d' !! a = store d !! a) /\
    (forall key a, key ∈ l.*1 -> to_map (ads d') !! key = Some a -> a ∉ dom (store d)) /\
    (forall k1 k2 a, k1 ∈ l.*1 -> k2 ∈ l.*1 -> to_map (ads d') !! k1 = Some a -> to_map (ads d') !! k2 = Some a -> k1 = k2) /\
    Forall2 (entry_loaded d') l views.
Proof.
  induction l as [|entry l IH]; intros views d Hnd Hw Hok Hk; inversion Hw as [|? view ? views' Hw1 Hw2]; subst.
  - exists d. split_and!; try done; [by intros ? ? ?%elem_of_nil|by intros ? ? ? ?%elem_of_nil].
  - apply NoDup_cons in Hnd as [Hn Hnd].
    destruct (play_ad h entry view d Hok) as (t&ad'&E&Ht&Hi&Em&Hr); [apply Hk; set_solver|done|].
    set (a := fresh (dom (store d))) in *. assert (Ha : a ∉ dom (store d)) by apply is_fresh.
    destruct (IH views' (mk_AdTable t (<[a := ad']> (store d)))) as (d'&E'&Hok'&Hkeep&Hst&Hfr&Hinj&Hl); try done.
    { intros key Hkey. simpl. rewrite Em, lookup_insert_ne by (intros <-; done). apply Hk. set_solver. }
    cbn [ads store] in *. assert (Hhead : to_map (ads d') !! entry.1 = Some a) by (rewrite Hkeep, Em by done; apply lookup_insert_eq).
    assert (Hdom : forall x, x ∈ dom (store d) -> x ∈ dom (<[a := ad']> (store d))) by (intros x; rewrite dom_insert; set_solver).
    assert (Hadom : a ∈ dom (<[a := ad']> (store d))) by (rewrite dom_insert; set_solver).
    exists d'. split_and!.
    + unfold table_records. cbn [zip_with concat]. rewrite play_records_app. unfold rbind. by rewrite E.
    + done.
    + intros key Hkey. rewrite Hkeep, Em by set_solver. apply lookup_insert_ne. set_solver.
    + intros x Hx. rewrite Hst by auto. apply lookup_insert_ne. intros <-. done.
    + intros key x [-> |Hkey]%elem_of_cons Hx; [congruence|]. specialize (Hfr key x Hkey Hx). auto.
    + intros k1 k2 x [-> |H1]%elem_of_cons [-> |H2]%elem_of_cons E1 E2; [done| | |by eapply Hinj].
      * exfalso. apply (Hfr k2 x H2 E2). congruence.
      * exfalso. apply (Hfr k1 x H1 E1). congruence.
    + constructor; [|done]. exists a, ad'. split_and!; [done| |done]. rewrite Hst by done. apply lookup_insert_eq.
Qed.
End snapshot.
