(* ===== verification/LogRotationLaws.v ===== *)
(** * A rotated log holds the table

    What [TruncLog] leaves for each answer of the calls in [SystemCalls], that [InitLogFile] turns a
    torn log into a clean one, and which copies are kept. *)
From Stdlib Require Import ZArith Lia Ascii String.
From stdpp Require Import base list gmap strings.
From S2P Require Import Prelude Double Numerals Tree Values Lexer FlatMap AdStore Eval Parser Grammar Unparser RoundTrip HashTable HashTableFacts HashTableLaws ClassAdLog ClassAdLogFacts ClassAdLogRecovery ClassAdLogLaws AdTable AdTableLaws LogRotation LogRotationFacts.
Open Scope res_scope.

Section laws.
Variable oldSemantics : bool.
Variable functionTable : string -> option ClassAdFunc.
Variables MakeAbsTime MakeRelTime : string -> option ExprTree.
Variable strict_parsing : bool.
Variable absTimeToString : abstime_t -> text.
Variable relTimeToString : double -> text.
Variable n : nat.

#[local] Instance data : DataStructure AdTable := AdTable_data oldSemantics MakeAbsTime MakeRelTime.
Abbreviation writable := (writable oldSemantics functionTable absTimeToString relTimeToString n).
Abbreviation table_records := (table_records absTimeToString relTimeToString).
Abbreviation record_ok := (record_ok oldSemantics MakeAbsTime MakeRelTime).
Abbreviation LoadClassAdLog := (LoadClassAdLog oldSemantics MakeAbsTime MakeRelTime strict_parsing).
Abbreviation TruncLog := (TruncLog oldSemantics functionTable MakeAbsTime MakeRelTime absTimeToString relTimeToString n).
Abbreviation InitLogFile := (InitLogFile oldSemantics functionTable MakeAbsTime MakeRelTime strict_parsing absTimeToString relTimeToString n).
Abbreviation Log := (ClassAdLog (D := AdTable)).

(** [la'] has the ClassAds of [la], each on its own. *)
Record restored (la la' : AdTable) (views : list (ClassAd * string)) : Prop := {
  rs_ok : table_ok la';
  rs_keys : forall key, has_ad key la' = has_ad key la;
  rs_ads : Forall2 (entry_loaded la') (walk_entries (ads la)) views;
  rs_apart : forall k1 k2 a, to_map (ads la') !! k1 = Some a -> to_map (ads la') !! k2 = Some a -> k1 = k2
}.

Lemma table_records_ok h l views : Forall2 (writable h) l views ->
  Forall record_ok (table_records l views) /\ Forall is_data (table_records l views) /\
  read_back <$> table_records l views = table_records l views.
Proof.
  unfold LogRotationFacts.table_records. induction 1 as [|entry view l views Hw _ (IH1&IH2&IH3)]; [by split_and!|].
  cbn [zip_with concat]. rewrite fmap_app, IH3. split_and!.
  - apply Forall_app. split; [by eapply ad_records_ok|done].
  - apply Forall_app. split; [|done]. constructor; [by eexists|]. apply Forall_fmap, Forall_true. intros kv. by eexists.
  - f_equal. unfold ad_records. rewrite fmap_cons, <- list_fmap_compose. done.
Qed.

Lemma new_table_ok : table_ok new_AdTable.
Proof. split; [apply new_HashTable_ok|constructor]. Qed.

Lemma records_restore la views : table_ok la -> Forall2 (writable (store la)) (walk_entries (ads la)) views ->
  exists la', play_records (table_records (walk_entries (ads la)) views) new_AdTable = Ret tt la' /\ restored la la' views.
Proof.
  intros Hok Hw. pose proof Hok as [Ht _]. pose proof (ok_keys _ _ Ht) as Hnd.
  destruct (play_table oldSemantics functionTable MakeAbsTime MakeRelTime absTimeToString relTimeToString n (store la)
    (walk_entries (ads la)) views new_AdTable Hnd Hw new_table_ok) as (la'&E&Hok'&Hkeep&_&_&Hinj&Hl); [done|].
  exists la'. split; [done|]. assert (Hkeys : forall key, key ∉ (walk_entries (ads la)).*1 -> to_map (ads la') !! key = None).
  { intros key Hkey. by rewrite Hkeep. }
  split; [done| |done|].
  - intros key. rewrite !has_ad_map by done. destruct (decide (key ∈ (walk_entries (ads la)).*1)) as [Hin|Hn].
    + pose proof Hin as Hin2. apply list_elem_of_fmap in Hin2 as (entry&->&Hin2).
      apply list_elem_of_lookup in Hin2 as [i Hi]. destruct (Forall2_lookup_l _ _ _ _ _ Hl Hi) as (view&_&a&ad'&->&_).
      destruct (to_map (ads la) !! entry.1) eqn:En; [done|]. by apply (to_map_None hashFunction) in En.
    + rewrite Hkeys by done. apply (to_map_None hashFunction (ads la) _ Ht) in Hn. by rewrite Hn.
  - intros k1 k2 a E1 E2. apply (Hinj k1 k2 a); try done; apply dec_stable; intros Hn.
    + by rewrite Hkeys in E1.
    + by rewrite Hkeys in E2.
Qed.

(** ** Rotation *)

(** The file [f] is durable and is loaded cleanly as the table [la]. *)
Definition holds_table (now seq birth : Z) (f : File) (la : AdTable) (views : list (ClassAd * string)) : Prop :=
  synced f = length (written f) /\ exists la',
  LoadClassAdLog now (written f) new_AdTable = Ret (Some (mk_LoadResult f seq birth true false [])) la' /\
  restored la la' views.

(** What [sys] leaves of a new file that should be [f]: without a failed call, [f]. *)
Definition left_of (sys : SystemCalls) (f f' : File) : Prop :=
  match flushed sys with
  | None => written f' = written f /\ synced f' = if datasynced sys then length (written f) else O
  | Some k => written f' = take k (written f)
  end.

Lemma snapshot_holds sys now seq birth la views : table_ok la -> 0 <= seq < two64 -> 0 <= birth < two63 ->
  Forall2 (writable (store la)) (walk_entries (ads la)) views ->
  exists f f', WriteClassAdLogState oldSemantics functionTable MakeAbsTime MakeRelTime absTimeToString relTimeToString n
      sys (mk_File [] 0) seq birth la = Ret (f', true) (mk_AdTable (startIterations (ads la)) (store la)) /\
    holds_table now seq birth f la views /\ left_of sys f f' /\ (sys = all_answer -> f' = f).
Proof.
  intros Hok Hs Hb Hw.
  exists (fsync (fwrite (records_text (LogHistoricalSequenceNumber seq birth :: table_records (walk_entries (ads la)) views)) (mk_File [] 0))).
  eexists. split; [by apply (WriteClassAdLogState_ok _ _ _ _ strict_parsing)|]. split; cycle 1.
  { split; [|by intros ->]. unfold left_of. destruct sys as [? ? ? [k|] [|] ? ?]; done. }
  split; [done|].
  destruct (records_restore la views Hok Hw) as (la'&E&Hr). exists la'. split; [|done].
  destruct (table_records_ok (store la) _ views Hw) as (Hrok&Hdata&Hback).
  set (content := records_text _). 
  assert (Hload := load_snapshot oldSemantics MakeAbsTime MakeRelTime strict_parsing now seq birth _ new_AdTable Hs Hb Hrok Hdata Hback).
  cbv zeta in Hload. fold content in Hload. change (written (fsync (fwrite content (mk_File [] 0)))) with content.
  refine (eq_trans Hload _). unfold rbind. change table_data with AdTable_data. by setoid_rewrite E.
Qed.

(** [s'] is [s] with the cursor of its table moved. *)
Definition same_contents (s s' : Log) : Prop :=
  store (table s') = store (table s) /\ walk_entries (ads (table s')) = walk_entries (ads (table s)) /\
  active_transaction s' = active_transaction s /\ m_original_log_birthdate s' = m_original_log_birthdate s /\
  m_nondurable_level s' = m_nondurable_level s.

Lemma rotation_succeeds now (s : Log) files f views :
  log_fp s = Some f -> table_ok (table s) -> 0 <= m_original_log_birthdate s < two63 ->
  Forall2 (writable (store (table s))) (walk_entries (ads (table s))) views ->
  let future := (historical_sequence_number s + 1) mod two64 in
  exists f' files', TruncLog all_answer (s, files) =
    Ret true (after_rotation (Some f') future (mk_AdTable (startIterations (ads (table s))) (store (table s))) s, files') /\
    holds_table now future (m_original_log_birthdate s) f' (table s) views.
Proof.
  intros Hf Hok Hb Hw future. unfold LogRotation.TruncLog, SaveHistoricalClassAdLogs, TruncateClassAdLog. rewrite Hf.
  assert (Hfut : 0 <= future < two64) by (apply Z.mod_pos_bound; reflexivity).
  destruct (snapshot_holds all_answer now future (m_original_log_birthdate s) (table s) views Hok Hfut Hb Hw) as (f'&f0&E&Hh&_&Hall).
  specialize (Hall eq_refl) as ->. cbn [all_answer copied unlinked created moved reopened]. destruct (max_historical_logs s =? 0); cbn [negb]; fold future; unfold rbind;
    rewrite E; cbn [negb rret]; eauto.
Qed.

(** C2: What a rotation leaves, for each answer of the calls of [SystemCalls]. If every
    ClassAd of the table has a text (its name is a word, its attributes are expressions
    whose old syntax is read back and fits on a line), [TruncLog] ends the process only when
    the log cannot be opened again; when it does not rotate, the log is the one before. When
    it does, the new log should be one that is loaded cleanly, with the next sequence
    number, as a table with the same keys and, for each, the same attributes (with the types
    added that were missing): all of it is in the file when the flush succeeded, and is
    durable when [condor_fdatasync] did too. The code replaces the old log also when they
    failed: then nothing of the new one is durable, or only a prefix of it is there. In
    either case the table in memory is unchanged. *)
Theorem rotation_preserves sys now (s : Log) files f views :
  log_fp s = Some f -> table_ok (table s) -> 0 <= m_original_log_birthdate s < two63 ->
  Forall2 (writable (store (table s))) (walk_entries (ads (table s))) views ->
  let future := (historical_sequence_number s + 1) mod two64 in
  match TruncLog sys (s, files) with
  | Ret rotated (s', _) =>
      rotated = ((max_historical_logs s =? 0) || copied sys) && created sys && moved sys /\ same_contents s s' /\
      if rotated then historical_sequence_number s' = future /\ exists new f', log_fp s' = Some f' /\
                        holds_table now future (m_original_log_birthdate s) new (table s) views /\ left_of sys new f'
      else log_fp s' = Some f /\ historical_sequence_number s' = historical_sequence_number s
  | Except => created sys = true /\ reopened sys = false
  | NoFuel => False
  end.
Proof.
  intros Hf Hok Hb Hw future. unfold LogRotation.TruncLog, SaveHistoricalClassAdLogs, TruncateClassAdLog. rewrite Hf.
  assert (Hfut : 0 <= future < two64) by (apply Z.mod_pos_bound; reflexivity).
  destruct (snapshot_holds sys now future (m_original_log_birthdate s) (table s) views Hok Hfut Hb Hw) as (new&f'&E&Hh&Hl&_).
  destruct (max_historical_logs s =? 0), (copied sys), (unlinked sys), (created sys); cbn [negb orb andb]; fold future; unfold rbind; rewrite ?E;
    destruct (moved sys), (reopened sys); cbn [negb andb rret]; unfold same_contents; simpl; eauto 20.
Qed.

(** ** The copies *)

(** The copies are those of at most [count] logs from the number [lo] on, and those of
    [left]: the ones that could not be removed. *)
Definition kept (left : gset Z) (lo count : Z) (files : History) : Prop :=
  forall k, is_Some (files !! k) -> k ∈ left \/ 0 <= k /\ lo <= k < lo + count.
Definition recent (left : gset Z) (s : Log) (files : History) : Prop :=
  kept left (historical_sequence_number s - max_historical_logs s) (max_historical_logs s) files \/
  kept left (historical_sequence_number s - max_historical_logs s + 1) (max_historical_logs s) files.

(** The copy a rotation removes, and those that are left when it cannot. *)
Definition oldest (s : Log) : Z := (historical_sequence_number s - max_historical_logs s) mod two64.
Definition still_left (sys : SystemCalls) (left : gset Z) (s : Log) : gset Z :=
  if copied sys && negb (unlinked sys) then {[oldest s]} ∪ left else left.

Lemma SaveHistoricalClassAdLogs_keeps sys content max seq files left : 0 < max <= INT32_MAX -> 0 <= seq < two64 ->
  kept left (seq - max) max files \/ kept left (seq - max + 1) max files ->
  let old := (seq - max) mod two64 in
  let '(files', ok) := SaveHistoricalClassAdLogs sys content max seq files in
  ok = copied sys /\
  if (ok : bool) then kept (if unlinked sys then left else {[old]} ∪ left) (seq - max + 1) max files' /\
                      files' !! seq = Some content /\ (unlinked sys = true -> files' !! old = None) /\
                      forall k, k <> seq -> k <> old -> files' !! k = files !! k
  else files' = files.
Proof.
  intros Hmax Hs Hk. unfold SaveHistoricalClassAdLogs. replace (max =? 0) with false by lia.
  destruct (copied sys); [|done]. cbn [negb]. set (old := (seq - max) mod two64).
  assert (Hold : old = seq - max \/ seq < max /\ seq < old).
  { unfold old, two64, INT32_MAX in *. Z.to_euclidean_division_equations. lia. }
  assert (Hnew : forall k c, k <> old -> <[seq:=content]> files !! k = Some c -> k ∈ left \/ 0 <= k /\ seq - max + 1 <= k < seq - max + 1 + max).
  { intros k c Hne [[<- _]|[Hne2 Hc]]%lookup_insert_Some; [right; lia|].
    destruct Hk as [Hk|Hk]; destruct (Hk k (mk_is_Some _ _ Hc)); auto; right; lia. }
  destruct (unlinked sys); split_and!; try done.
  - intros k [c [Hne Hc]%lookup_delete_Some]. eauto.
  - rewrite lookup_delete_ne by lia. by apply lookup_insert_eq.
  - intros _. apply lookup_delete_eq.
  - intros k H1 H2. by rewrite lookup_delete_ne, lookup_insert_ne.
  - intros k [c Hc]. destruct (decide (k = old)) as [->|Hne]; [left; set_solver|].
    destruct (Hnew k c Hne Hc); [left; set_solver|by right].
  - by apply lookup_insert_eq.
  - intros k H1 _. by apply lookup_insert_ne.
Qed.


(** ** Starting on a log that was not closed properly *)

(** C21: [InitLogFile] makes a torn log clean. When what is left of the log is loaded as a
    table whose ClassAds have texts and the file system does its part, [InitLogFile]
    succeeds with that table, and the log it leaves is the one that was loaded, if that was
    clean, and one that is loaded cleanly as the same table otherwise. *)
Theorem InitLogFile_cleans sys now now' content arg (s : Log) files r d views :
  sys = all_answer -> 0 <= arg -> 0 <= lr_birthdate r < two63 ->
  LoadClassAdLog now content (table s) = Ret (Some r) d -> table_ok d ->
  Forall2 (writable (store d)) (walk_entries (ads d)) views ->
  exists s' files' f', InitLogFile sys now content arg (s, files) = Ret true (s', files') /\
    store (table s') = store d /\ walk_entries (ads (table s')) = walk_entries (ads d) /\ log_fp s' = Some f' /\
    if lr_is_clean r && negb (lr_requires_successful_cleaning r) then f' = lr_fp r
    else holds_table now' ((lr_sequence_number r + 1) mod two64) (lr_birthdate r) f' d views.
Proof.
  intros -> Harg Hb Hl Hok Hw. unfold LogRotation.InitLogFile. change (AdTable_data oldSemantics MakeAbsTime MakeRelTime) with data.
  rewrite Hl. replace (arg <? 0) with false by lia. cbn [andb].
  set (s1 := mk_ClassAdLog d (Some (lr_fp r)) _ _ _ _ _).
  destruct (lr_is_clean r), (lr_requires_successful_cleaning r); cbn [negb orb andb]; try (by eauto 10);
  (destruct (rotation_succeeds now' s1 files (lr_fp r) views eq_refl Hok Hb Hw) as (f'&files'&->&Hh);
   eexists _, files', f'; split_and!; [reflexivity|done..]).
Qed.
End laws.

(** ** A rotation of a concrete log *)
Definition no_functions (_ : string) : option ClassAdFunc := None.
Definition no_times {A} (_ : A) : text := [].
#[local] Instance run_data : DataStructure AdTable := AdTable_data true no_time no_time.

Definition requirements : string := of_text (txt "(Memory > 1024) && Arch == " ++ dquote :: txt "X86" ++ [dquote]).
Definition sample_records : list LogRecord :=
  [LogNewClassAd "1.0" "Job"; LogSetAttribute "1.0" "Requirements" requirements false;
   LogNewClassAd "01.-1" ""; LogSetAttribute "01.-1" "Rank" "-1.5 * KFlops" false].
Definition sample_table : AdTable :=
  match play_records sample_records new_AdTable with Ret _ d => d | _ => new_AdTable end.
Definition sample_log : ClassAdLog :=
  mk_ClassAdLog sample_table
    (Some (mk_File (records_text (LogHistoricalSequenceNumber 7 1700000000 :: sample_records)) 0)) None 2 7 1700000000 0.
Definition sample_views : list (ClassAd * string) :=
  omap (fun entry => ad ← store sample_table !! entry.2;
                     match GetMyTypeName true no_functions 20 entry.2 (store sample_table) with
                     | Ret ty _ => Some (ad, ty)
                     | _ => None
                     end) (walk_entries (ads sample_table)).
Definition sample_history : gmap Z text := {[5 := txt "five"; 6 := txt "six"]}.
Definition rotate := TruncLog true no_functions no_time no_time no_times no_times 20.

Lemma sample_table_ok : table_ok sample_table.
Proof.
  assert (E : play_records sample_records new_AdTable = Ret tt sample_table) by (vm_compute; reflexivity).
  exact (proj1 (played_has_ad true no_time no_time sample_records "" new_AdTable sample_table new_table_ok E)).
Qed.
Ltac computes := vm_compute; reflexivity.
Ltac settle := match goal with
    | |- word _ => split; [done|computes]
    | |- _ = _ => computes
    | |- _ < _ => computes
    end.
Lemma sample_writable :
  Forall2 (writable true no_functions no_times no_times 20 (store sample_table)) (walk_entries (ads sample_table)) sample_views.
Proof.
  assert (A : forall name t, word name -> grammatical (unscoped t) = true -> printable true (unscoped t) = true ->
    nesting (unscoped t) < MAX_PARSE_DEPTH -> existsb (Ascii.eqb newline) (attr_text no_times no_times t) = false ->
    writable_attr no_times no_times (name, t)) by by constructor.
  vm_compute. repeat (apply Forall2_cons; split); [..|apply Forall2_nil]; constructor;
    try settle.
  - by left.
  - split; repeat constructor.
  - repeat apply Forall_cons_2; try apply Forall_nil_2; apply A; settle.
  - right. split; [settle|done].
  - split; repeat constructor.
  - repeat apply Forall_cons_2; try apply Forall_nil_2; apply A; settle.
Qed.

Lemma rotation_preserves_witness :
  (is_Some (log_fp sample_log) /\ table_ok (table sample_log) /\ 0 <= m_original_log_birthdate sample_log < two63 /\
   Forall2 (writable true no_functions no_times no_times 20 (store (table sample_log)))
     (walk_entries (ads (table sample_log))) sample_views) /\
  exists s' files' f', rotate all_answer (sample_log, sample_history) = Ret true (s', files') /\ log_fp s' = Some f' /\
    holds_table true no_time no_time true 1700000001 8 1700000000 f' sample_table sample_views.
Proof.
  assert (Hb : 0 <= m_original_log_birthdate sample_log < two63) by (simpl; unfold two63; lia).
  split; [exact (conj (mk_is_Some _ _ eq_refl) (conj sample_table_ok (conj Hb sample_writable)))|].
  pose proof (rotation_preserves true no_functions no_time no_time true no_times no_times 20 all_answer 1700000001 sample_log
    sample_history _ sample_views eq_refl sample_table_ok Hb sample_writable) as H.
  cbv zeta in H. fold rotate in H. destruct (rotate all_answer (sample_log, sample_history)) as [rotated [s' files']| |].
  - destruct H as (->&_&_&new&f'&Ef&Hh&Hw&Hs). exists s', files', f'. split_and!; [done..|].
    destruct new, f', Hh as [Hd Hh]. simpl in *. subst. by split.
  - destruct H.
  - by destruct H.
Defined.


(** The log above with a torn record at its end. *)
Definition torn_content : text :=
  records_text (LogHistoricalSequenceNumber 7 1700000000 :: sample_records) ++ txt "103 1.0 JobPrio 1".
Lemma InitLogFile_cleans_witness :
  let s := new_ClassAdLog new_AdTable in
  exists r, (0 <= lr_birthdate r < two63 /\ table_ok sample_table /\
    Forall2 (writable true no_functions no_times no_times 20 (store sample_table)) (walk_entries (ads sample_table)) sample_views /\
    LoadClassAdLog true no_time no_time true 1700000001 torn_content (table s) = Ret (Some r) sample_table /\
    lr_requires_successful_cleaning r = true) /\
  exists s' files' f', InitLogFile true no_functions no_time no_time true no_times no_times 20 all_answer 1700000001
      torn_content 2 (s, ∅) = Ret true (s', files') /\ log_fp s' = Some f' /\
    holds_table true no_time no_time true 1700000002 8 1700000000 f' sample_table sample_views.
Proof.
  intros s.
  assert (Hl : exists r, LoadClassAdLog true no_time no_time true 1700000001 torn_content (table s) = Ret (Some r) sample_table /\
    lr_requires_successful_cleaning r = true /\ lr_is_clean r = true /\ lr_sequence_number r = 7 /\ lr_birthdate r = 1700000000)
    by (eexists; split; [vm_compute; reflexivity|done]).
  destruct Hl as (r&Hl&Hreq&Hc&Hs&Hbirth).
  assert (Hb : 0 <= lr_birthdate r < two63) by (rewrite Hbirth; unfold two63; lia).
  exists r. split; [exact (conj Hb (conj sample_table_ok (conj sample_writable (conj Hl Hreq))))|].
  destruct (InitLogFile_cleans true no_functions no_time no_time true no_times no_times 20 all_answer 1700000001 1700000002
    torn_content 2 s ∅ r sample_table sample_views eq_refl ltac:(lia) Hb Hl sample_table_ok sample_writable)
    as (s'&files'&f'&E&_&_&Ef&Hh).
  rewrite Hreq, Hc, Hs, Hbirth in Hh. exists s', files', f'. exact (conj E (conj Ef Hh)).
Defined.

(** ** Corners *)
Section corners.
(** What a rotation of a table made by [rs] ends with, and which keys are there after loading. *)
Definition rotated (rs : list LogRecord) (keys : list string) : option (option (list bool * bool)) :=
  match play_records rs new_AdTable with
  | Ret _ d =>
      match rotate all_answer (mk_ClassAdLog d (Some (mk_File [] 0)) None 0 1 0 0, ∅) with
      | Ret _ (s', _) =>
          match run_load (from_option written [] (log_fp s')) with
          | Ret (Some r) d' => Some (Some ((fun k => has_ad k d') <$> keys, lr_requires_successful_cleaning r))
          | _ => Some None
          end
      | _ => None
      end
  | _ => None
  end.

(** A type of two words is written as it is: the record has a word too many, and the reader
    skips what comes after it, so the ClassAds that follow in the file are lost. *)
Definition quoted (s : string) : string := of_text (dquote :: txt s ++ [dquote]).
Lemma two_word_type_loses_ads :
  let base := [LogNewClassAd "1.0" "Job"; LogNewClassAd "1.1" "Job"] in
  rotated base ["1.0"; "1.1"] = Some (Some ([true; true], false)) /\
  rotated (base ++ [LogSetAttribute "1.0" "MyType" (quoted "My Job") true]) ["1.0"; "1.1"]
    = Some (Some ([true; false], true)).
Proof. vm_compute. split; reflexivity. Qed.

(** A rotation whose flush failed replaces the log all the same, and says it succeeded:
    the log that is left holds none of the table. *)
Definition disk_full : SystemCalls := mk_SystemCalls true true true (Some O) false true true.
Lemma rotation_without_flush :
  match rotate disk_full (sample_log, sample_history) with
  | Ret rotated (s', _) => Some (rotated, log_fp s')
  | _ => None
  end = Some (true, Some (mk_File [] 0)).
Proof. vm_compute. reflexivity. Qed.
End corners.
