(* ===== verification/LogReader.v ===== *)
(** * Following a ClassAd log from outside ([ClassAdLogEntry.*], [ClassAdLogParser.*],
    [ClassAdLogProber.*], [ClassAdLogReader.*])

    The job router and others mirror the job queue of the schedd by reading its log:
    [ClassAdLogProber] finds out what became of the file since it was read last,
    [ClassAdLogReader] reads what is new, or everything, and tells its consumer. A file is
    what it holds during one call; the system calls on an open file do not fail. [Except] is
    a failed [assert]. *)
From Stdlib Require Import ZArith Lia Ascii String.
From stdpp Require Import base list gmap strings.
From S2P Require Import Prelude Double Numerals Tree Values Lexer FlatMap AdStore Parser Unparser HashTable ClassAdLog.
Open Scope res_scope.

(** ** Entries ([ClassAdLogEntry]) *)

(** Null pointers are [None]. *)
Record ClassAdLogEntry := mk_ClassAdLogEntry {
  offset : Z;
  next_offset : Z;
  op_type : Z;
  key : option string;
  mytype : option string;
  targettype : option string;
  name : option string;
  value : option string
}.
Definition new_ClassAdLogEntry : ClassAdLogEntry := mk_ClassAdLogEntry 0 0 0 None None None None None.
Definition init (opType : Z) (e : ClassAdLogEntry) : ClassAdLogEntry :=
  mk_ClassAdLogEntry (offset e) (next_offset e) opType None None None None None.
(** [operator=] does not assign the type. *)
Definition assign (from e : ClassAdLogEntry) : ClassAdLogEntry :=
  mk_ClassAdLogEntry (offset from) (next_offset from) (op_type e) (key from) (mytype from) (targettype from) (name from) (value from).
Definition set_offset (x : Z) (e : ClassAdLogEntry) : ClassAdLogEntry :=
  mk_ClassAdLogEntry x (next_offset e) (op_type e) (key e) (mytype e) (targettype e) (name e) (value e).
Definition set_next_offset (x : Z) (e : ClassAdLogEntry) : ClassAdLogEntry :=
  mk_ClassAdLogEntry (offset e) x (op_type e) (key e) (mytype e) (targettype e) (name e) (value e).
Definition set_key (x : string) (e : ClassAdLogEntry) : ClassAdLogEntry :=
  mk_ClassAdLogEntry (offset e) (next_offset e) (op_type e) (Some x) (mytype e) (targettype e) (name e) (value e).
Definition set_mytype (x : string) (e : ClassAdLogEntry) : ClassAdLogEntry :=
  mk_ClassAdLogEntry (offset e) (next_offset e) (op_type e) (key e) (Some x) (targettype e) (name e) (value e).
Definition set_targettype (x : string) (e : ClassAdLogEntry) : ClassAdLogEntry :=
  mk_ClassAdLogEntry (offset e) (next_offset e) (op_type e) (key e) (mytype e) (Some x) (name e) (value e).
Definition set_name (x : string) (e : ClassAdLogEntry) : ClassAdLogEntry :=
  mk_ClassAdLogEntry (offset e) (next_offset e) (op_type e) (key e) (mytype e) (targettype e) (Some x) (value e).
Definition set_value (x : string) (e : ClassAdLogEntry) : ClassAdLogEntry :=
  mk_ClassAdLogEntry (offset e) (next_offset e) (op_type e) (key e) (mytype e) (targettype e) (name e) (Some x).

(** [valcmp] gives 0. *)
Definition valcmp0 (str1 str2 : option string) : bool :=
  match str1, str2 with
  | None, None => true
  | Some s1, Some s2 => String.eqb (c_str s1) (c_str s2)
  | _, _ => false
  end.
Definition equal (e other : ClassAdLogEntry) : bool :=
  if op_type other =? op_type e then
    let op := op_type other in
    if op =? CondorLogOp_NewClassAd then
      valcmp0 (key other) (key e) && valcmp0 (mytype other) (mytype e) && valcmp0 (targettype other) (targettype e)
    else if op =? CondorLogOp_DestroyClassAd then valcmp0 (key other) (key e)
    else if op =? CondorLogOp_SetAttribute then
      valcmp0 (key other) (key e) && valcmp0 (name other) (name e) && valcmp0 (value other) (value e)
    else if op =? CondorLogOp_DeleteAttribute then valcmp0 (key other) (key e) && valcmp0 (name other) (name e)
    else if op =? CondorLogOp_BeginTransaction then true
    else if op =? CondorLogOp_EndTransaction then true
    else if op =? CondorLogOp_LogHistoricalSequenceNumber then valcmp0 (key other) (key e) && valcmp0 (value other) (value e)
    else false
  else false.

(** ** Reading entries ([ClassAdLogParser]) *)
Inductive FileOpErrCode :=
| FILE_OPEN_ERROR | FILE_READ_ERROR | FILE_WRITE_ERROR | FILE_FATAL_ERROR | FILE_READ_EOF | FILE_READ_SUCCESS | FILE_OP_SUCCESS.
#[export] Instance FileOpErrCode_dec : EqDecision FileOpErrCode.
Proof. solve_decision. Defined.

(** [log_fp] is what the file holds, if it is open. *)
Record ClassAdLogParser := mk_ClassAdLogParser {
  log_fp : option text;
  nextOffset : Z;
  curCALogEntry : ClassAdLogEntry;
  lastCALogEntry : ClassAdLogEntry
}.
Definition new_ClassAdLogParser : ClassAdLogParser :=
  mk_ClassAdLogParser None 0 new_ClassAdLogEntry new_ClassAdLogEntry.
Definition set_file (fp : option text) (p : ClassAdLogParser) : ClassAdLogParser :=
  mk_ClassAdLogParser fp (nextOffset p) (curCALogEntry p) (lastCALogEntry p).
Definition setNextOffset (off : Z) (p : ClassAdLogParser) : ClassAdLogParser :=
  mk_ClassAdLogParser (log_fp p) off (curCALogEntry p) (lastCALogEntry p).
Definition set_cur (e : ClassAdLogEntry) (p : ClassAdLogParser) : ClassAdLogParser :=
  mk_ClassAdLogParser (log_fp p) (nextOffset p) e (lastCALogEntry p).
Definition closeFile (p : ClassAdLogParser) : ClassAdLogParser := set_file None p.

(** [atoi] and [atol]. *)
Definition atoi (s : string) : Z := wrap32 (strtol (txt s)).1.
Definition atol (s : string) : Z := (strtol (txt s)).1.

(** Fields are read one after the other, until one cannot be. *)
Fixpoint read_fields (fs : list (Reader string * (string -> ClassAdLogEntry -> ClassAdLogEntry)))
    (e : ClassAdLogEntry) (fp : text) : bool * ClassAdLogEntry * text :=
  match fs with
  | [] => (true, e, fp)
  | (rd, set) :: fs' =>
      match rd fp with
      | (Some s, fp') => read_fields fs' (set s e) fp'
      | (None, fp') => (false, e, fp')
      end
  end.
Definition type_name (s : string) : string := if String.eqb s EMPTY_CLASSAD_TYPE_NAME then ""%string else s.

(** The body of an entry of the given type; [None] for no such type. *)
Definition readEntryBody (op : Z) (e : ClassAdLogEntry) (fp : text) : option (bool * ClassAdLogEntry * text) :=
  if op =? CondorLogOp_LogHistoricalSequenceNumber then
    Some (read_fields [(readword, set_key); (readword, set_name); (readline, set_value)] e fp)
  else if op =? CondorLogOp_NewClassAd then
    Some (read_fields [(readword, set_key); (readword, fun s => set_mytype (type_name s));
                       (readword, fun s => set_targettype (type_name s))] e fp)
  else if op =? CondorLogOp_DestroyClassAd then Some (read_fields [(readword, set_key)] e fp)
  else if op =? CondorLogOp_SetAttribute then
    Some (read_fields [(readword, set_key); (readword, set_name); (readline, set_value)] e fp)
  else if op =? CondorLogOp_DeleteAttribute then Some (read_fields [(readword, set_key); (readword, set_name)] e fp)
  else if op =? CondorLogOp_BeginTransaction then
    Some (match fread1 fp with
          | (Some ch, fp') => (Ascii.eqb ch newline, e, fp')
          | (None, fp') => (false, e, fp')
          end)
  else if op =? CondorLogOp_EndTransaction then
    Some (match fread1 fp with
          | (Some ch, fp') =>
              if Ascii.eqb ch newline then (true, e, fp')
              else if Ascii.eqb ch "#" then
                match readline fp' with
                | (Some s, fp'') => (true, set_value s e, fp'')
                | (None, fp'') => (true, e, fp'')
                end
              else (false, e, fp')
          | (None, fp') => (false, e, fp')
          end)
  else None.

(** After a bad entry: the lines up to the end of the file, if none ends a transaction. A
    line that is empty or has a zero byte ends the loop too, with an error. *)
Inductive Skipped := SkippedToEof | EndOfTransaction | ReadFailed.
Fixpoint skip_lines (n : nat) (fp : text) : option Skipped :=
  match n with
  | O => None
  | S n' =>
      match readline fp with
      | (Some line, fp') =>
          if decide (line_op (txt line) = Some CondorLogOp_EndTransaction) then Some EndOfTransaction else skip_lines n' fp'
      | (None, _) =>
          Some (if forallb (fun c => negb (Ascii.eqb c newline) && negb (Ascii.eqb c zero)) fp then SkippedToEof else ReadFailed)
      end
  end.

(** The current entry becomes the last one. *)
Definition advance (op : Z) (p : ClassAdLogParser) : ClassAdLogParser :=
  mk_ClassAdLogParser (log_fp p) (nextOffset p)
    (set_offset (nextOffset p) (init op (curCALogEntry p)))
    (assign (curCALogEntry p) (init (op_type (curCALogEntry p)) (lastCALogEntry p))).

Definition readLogEntry (op0 : Z) (p : ClassAdLogParser) : Res ClassAdLogParser (FileOpErrCode * Z) :=
  match log_fp p with
  | None => Ret (FILE_READ_ERROR, op0) (advance op0 p)
  | Some content =>
      match readword (drop (Z.to_nat (nextOffset p)) content) with
      | (None, _) => Ret (FILE_READ_EOF, op0) (closeFile p)
      | (Some opword, fp) =>
          let op := atoi opword in
          let p1 := advance op p in
          match readEntryBody op (curCALogEntry p1) fp with
          | None => Ret (FILE_READ_ERROR, op) (closeFile p1)
          | Some (true, e, fp') =>
              let off := Z.of_nat (length content - length fp') in
              Ret (FILE_READ_SUCCESS, op) (setNextOffset off (set_cur (set_next_offset off e) p1))
          | Some (false, e, fp') =>
              match skip_lines (S (length fp')) fp' with
              | None => NoFuel
              | Some EndOfTransaction => Ret (FILE_FATAL_ERROR, op) (set_cur e p1)
              | Some ReadFailed => Ret (FILE_FATAL_ERROR, op) (closeFile (set_cur e p1))
              | Some SkippedToEof =>
                  Ret (FILE_READ_EOF, op) (closeFile (set_cur (set_offset (nextOffset p1) (assign (lastCALogEntry p1) e)) p1))
              end
          end
      end
  end.

(** ** Probing ([ClassAdLogProber]) *)
Inductive ProbeResultType := PROBE_ERROR | PROBE_FATAL_ERROR | NO_CHANGE | ADDITION | COMPRESSED.

Record ClassAdLogProber := mk_ClassAdLogProber {
  last_mod_time : Z;
  last_size : Z;
  last_seq_num : Z;
  last_creation_time : Z;
  cur_probed_mod_time : Z;
  cur_probed_size : Z;
  cur_probed_seq_num : Z;
  cur_probed_creation_time : Z
}.
Definition new_ClassAdLogProber : ClassAdLogProber := mk_ClassAdLogProber 0 0 0 0 0 0 0 0.
Definition set_probed_stat (mtime size : Z) (p : ClassAdLogProber) : ClassAdLogProber :=
  mk_ClassAdLogProber (last_mod_time p) (last_size p) (last_seq_num p) (last_creation_time p)
    mtime size (cur_probed_seq_num p) (cur_probed_creation_time p).
Definition set_probed_log (seq_num creation_time : Z) (p : ClassAdLogProber) : ClassAdLogProber :=
  mk_ClassAdLogProber (last_mod_time p) (last_size p) (last_seq_num p) (last_creation_time p)
    (cur_probed_mod_time p) (cur_probed_size p) seq_num creation_time.
Definition incrementProbeInfo (p : ClassAdLogProber) : ClassAdLogProber :=
  mk_ClassAdLogProber (cur_probed_mod_time p) (cur_probed_size p) (cur_probed_seq_num p) (cur_probed_creation_time p)
    (cur_probed_mod_time p) (cur_probed_size p) (cur_probed_seq_num p) (cur_probed_creation_time p).

(** What is read at an offset, by a parser of its own. *)
Definition read_at (off : Z) (p : ClassAdLogParser) : Res ClassAdLogParser FileOpErrCode :=
  match readLogEntry (-1) (setNextOffset off p) with
  | Ret (st, _) p' => Ret st p'
  | NoFuel => NoFuel
  | Except => Except
  end.

(** [probe], of an open file with these contents and this time of modification. *)
Definition probe (curCALogEntry0 : ClassAdLogEntry) (content : text) (mtime : Z) (p : ClassAdLogProber)
    : Res ClassAdLogProber ProbeResultType :=
  let size := Z.of_nat (length content) in
  let p1 := set_probed_stat mtime size p in
  match read_at 0 (set_file (Some content) new_ClassAdLogParser) with
  | NoFuel => NoFuel
  | Except => Except
  | Ret st caLogParser =>
      if decide (st = FILE_FATAL_ERROR) then Ret PROBE_FATAL_ERROR p1
      else if negb (bool_decide (st = FILE_READ_SUCCESS)) then Ret PROBE_ERROR p1
      else
        let e := curCALogEntry caLogParser in
        if negb (op_type e =? CondorLogOp_LogHistoricalSequenceNumber) then Ret PROBE_FATAL_ERROR p1
        else
          let p2 := set_probed_log (atol (default ""%string (key e))) (atol (default ""%string (value e))) p1 in
          if negb (cur_probed_seq_num p2 =? last_seq_num p2) then Ret COMPRESSED p2
          else match read_at (offset curCALogEntry0) caLogParser with
               | NoFuel => NoFuel
               | Except => Except
               | Ret st caLogParser =>
                   if decide (st = FILE_FATAL_ERROR) then Ret PROBE_FATAL_ERROR p2
                   else if negb (bool_decide (st = FILE_READ_EOF) || bool_decide (st = FILE_READ_SUCCESS)) then Ret PROBE_ERROR p2
                   else
                     let same := equal (curCALogEntry caLogParser) curCALogEntry0 in
                     if (size =? last_size p2) && same then Ret NO_CHANGE p2
                     else if (last_size p2 <? size) && same then Ret ADDITION p2
                     else Ret PROBE_ERROR p2
               end
  end.

(** ** The reader ([ClassAdLogReader]) *)

(** What is told; the answers say whether it was accepted. *)
Class ClassAdLogConsumer (C : Type) := {
  Reset : C -> C;
  NewClassAd : string -> string -> string -> C -> C * bool;
  DestroyClassAd : string -> C -> C * bool;
  SetAttribute : string -> string -> string -> C -> C * bool;
  DeleteAttribute : string -> string -> C -> C * bool
}.

Inductive PollResultType := POLL_SUCCESS | POLL_FAIL | POLL_ERROR.

Section reader.
Context {C : Type} `{ClassAdLogConsumer C}.

Record ClassAdLogReader := mk_ClassAdLogReader {
  m_consumer : C;
  prober : ClassAdLogProber;
  parser : ClassAdLogParser
}.
Definition new_ClassAdLogReader (consumer : C) : ClassAdLogReader :=
  mk_ClassAdLogReader consumer new_ClassAdLogProber new_ClassAdLogParser.
Definition set_consumer c (r : ClassAdLogReader) := mk_ClassAdLogReader c (prober r) (parser r).
Definition set_prober p (r : ClassAdLogReader) := mk_ClassAdLogReader (m_consumer r) p (parser r).
Definition set_parser p (r : ClassAdLogReader) := mk_ClassAdLogReader (m_consumer r) (prober r) p.

(** The fields of an entry that was read are not null. *)
Definition ProcessLogEntry (e : ClassAdLogEntry) (c : C) : C * bool :=
  let str := default ""%string in
  if op_type e =? CondorLogOp_NewClassAd then NewClassAd (str (key e)) (str (mytype e)) (str (targettype e)) c
  else if op_type e =? CondorLogOp_DestroyClassAd then DestroyClassAd (str (key e)) c
  else if op_type e =? CondorLogOp_SetAttribute then SetAttribute (str (key e)) (str (name e)) (str (value e)) c
  else if op_type e =? CondorLogOp_DeleteAttribute then DeleteAttribute (str (key e)) (str (name e)) c
  else if op_type e =? CondorLogOp_BeginTransaction then (c, true)
  else if op_type e =? CondorLogOp_EndTransaction then (c, true)
  else if op_type e =? CondorLogOp_LogHistoricalSequenceNumber then (c, true)
  else (c, false).

Fixpoint load_loop (n : nat) (r : ClassAdLogReader) : Res ClassAdLogReader bool :=
  match n with
  | O => NoFuel
  | S n' =>
      match readLogEntry (-1) (parser r) with
      | NoFuel => NoFuel
      | Except => Except
      | Ret (err, _) p =>
          let r1 := set_parser p r in
          match err with
          | FILE_FATAL_ERROR => Except
          | FILE_READ_SUCCESS =>
              let '(c, processed) := ProcessLogEntry (curCALogEntry p) (m_consumer r1) in
              let r2 := set_consumer c r1 in
              if (processed : bool) then load_loop n' r2 else Ret false r2
          | FILE_READ_EOF => Ret true r1
          | _ => Ret false r1
          end
      end
  end.
(** Enough fuel for the entries of the file. *)
Definition load_fuel (r : ClassAdLogReader) : nat :=
  match log_fp (parser r) with Some content => S (S (length content)) | None => 2 end.
Definition IncrementalLoad (r : ClassAdLogReader) : Res ClassAdLogReader bool := load_loop (load_fuel r) r.
Definition BulkLoad (r : ClassAdLogReader) : Res ClassAdLogReader bool :=
  IncrementalLoad (set_consumer (Reset (m_consumer r)) (set_parser (setNextOffset 0 (parser r)) r)).

(** [Poll]; the file, if it can be opened, and its time of modification. *)
Definition Poll (file : option (text * Z)) (r : ClassAdLogReader) : Res ClassAdLogReader PollResultType :=
  match file with
  | None => Ret POLL_FAIL (set_parser (closeFile (parser r)) r)
  | Some (content, mtime) =>
      let r1 := set_parser (set_file (Some content) (parser r)) r in
      match probe (lastCALogEntry (parser r1)) content mtime (prober r1) with
      | NoFuel => NoFuel
      | Except => Except
      | Ret probe_st pr =>
          let r2 := set_prober pr r1 in
          let finish (success : bool) (r3 : ClassAdLogReader) : Res ClassAdLogReader PollResultType :=
            let r4 := set_parser (closeFile (parser r3)) r3 in
            Ret POLL_SUCCESS (if success then set_prober (incrementProbeInfo (prober r4)) r4 else r4) in
          match probe_st with
          | COMPRESSED | PROBE_ERROR => (let! success := BulkLoad in finish success) r2
          | ADDITION => (let! success := IncrementalLoad in finish success) r2
          | NO_CHANGE => finish true r2
          | PROBE_FATAL_ERROR => Ret POLL_ERROR r2
          end
      end
  end.
End reader.
Arguments ClassAdLogReader : clear implicits.

(** ** The iterator ([ClassAdLogIterator]) *)
Inductive EntryType :=
| ET_INIT | ET_ERR | ET_NOCHANGE | ET_RESET | ET_END | NEW_CLASSAD | DESTROY_CLASSAD | SET_ATTRIBUTE | DELETE_ATTRIBUTE.
#[export] Instance EntryType_dec : EqDecision EntryType.
Proof. solve_decision. Defined.
Record ClassAdLogIterEntry := mk_ClassAdLogIterEntry {
  m_type : EntryType;
  m_adtype : string;
  m_adtarget : string;
  m_key : string;
  m_value : string;
  m_name : string
}.
Definition new_ClassAdLogIterEntry (type : EntryType) : ClassAdLogIterEntry := mk_ClassAdLogIterEntry type "" "" "" "" "".
Definition isDone (e : ClassAdLogIterEntry) : bool :=
  match m_type e with ET_ERR | ET_NOCHANGE | ET_END => true | _ => false end.

Record ClassAdLogIterator := mk_ClassAdLogIterator {
  m_parser : ClassAdLogParser;
  m_prober : ClassAdLogProber;
  m_current : option ClassAdLogIterEntry;
  m_eof : bool
}.
Definition set_current (e : ClassAdLogIterEntry) (it : ClassAdLogIterator) : ClassAdLogIterator :=
  mk_ClassAdLogIterator (m_parser it) (m_prober it) (Some e) (m_eof it).
Definition set_m_parser (p : ClassAdLogParser) (it : ClassAdLogIterator) : ClassAdLogIterator :=
  mk_ClassAdLogIterator p (m_prober it) (m_current it) (m_eof it).
Definition set_m_prober (p : ClassAdLogProber) (it : ClassAdLogIterator) : ClassAdLogIterator :=
  mk_ClassAdLogIterator (m_parser it) p (m_current it) (m_eof it).
Definition set_m_eof (b : bool) (it : ClassAdLogIterator) : ClassAdLogIterator :=
  mk_ClassAdLogIterator (m_parser it) (m_prober it) (m_current it) b.

(** [Process]: the entry that is shown, if it is one to show. *)
Definition Process (e : ClassAdLogEntry) : option ClassAdLogIterEntry :=
  let str := default ""%string in
  if op_type e =? CondorLogOp_NewClassAd then
    Some (mk_ClassAdLogIterEntry NEW_CLASSAD (str (mytype e)) (str (targettype e)) (str (key e)) "" "")
  else if op_type e =? CondorLogOp_DestroyClassAd then Some (mk_ClassAdLogIterEntry DESTROY_CLASSAD "" "" (str (key e)) "" "")
  else if op_type e =? CondorLogOp_SetAttribute then
    Some (mk_ClassAdLogIterEntry SET_ATTRIBUTE "" "" (str (key e)) (str (value e)) (str (name e)))
  else if op_type e =? CondorLogOp_DeleteAttribute then
    Some (mk_ClassAdLogIterEntry DELETE_ATTRIBUTE "" "" (str (key e)) "" (str (name e)))
  else if (op_type e =? CondorLogOp_BeginTransaction) || (op_type e =? CondorLogOp_EndTransaction)
          || (op_type e =? CondorLogOp_LogHistoricalSequenceNumber) then None
  else Some (new_ClassAdLogIterEntry ET_ERR).

Fixpoint Load_loop (n : nat) (it : ClassAdLogIterator) : Res ClassAdLogIterator unit :=
  match n with
  | O => NoFuel
  | S n' =>
      match readLogEntry 999 (m_parser it) with
      | NoFuel => NoFuel
      | Except => Except
      | Ret (err, _) p =>
          let it1 := set_m_parser p it in
          match err with
          | FILE_READ_SUCCESS =>
              match Process (curCALogEntry p) with
              | Some e => Ret tt (set_current e it1)
              | None => Load_loop n' it1
              end
          | FILE_READ_EOF =>
              Ret tt (set_m_eof true (set_current (new_ClassAdLogIterEntry ET_NOCHANGE) (set_m_parser (closeFile p) it1)))
          | _ => Ret tt (set_current (new_ClassAdLogIterEntry ET_ERR) it1)
          end
      end
  end.
Definition Load (it : ClassAdLogIterator) : Res ClassAdLogIterator unit :=
  let n := match log_fp (m_parser it) with Some content => S (S (length content)) | None => 2%nat end in
  Load_loop n (set_m_eof false it).

(** [Next]. The file is what is found under its name; when it is still open, [held] is what
    the open one holds. *)
Definition Next (file : option (text * Z)) (held : text * Z) (it0 : ClassAdLogIterator) : Res ClassAdLogIterator unit :=
  let it := match log_fp (m_parser it0) with
            | Some _ => set_m_parser (set_file (Some held.1) (m_parser it0)) it0
            | None => it0
            end in
  if negb (m_eof it) || match m_current it with Some e => bool_decide (m_type e = ET_INIT) | None => false end then
    (let! _ := Load in
     fun it1 => Ret tt (if m_eof it1 then set_m_prober (incrementProbeInfo (m_prober it1)) it1 else it1)) it
  else
    let opened := match log_fp (m_parser it) with Some _ => Some held | None => file end in
    match opened with
    | None => Ret tt (set_current (new_ClassAdLogIterEntry ET_ERR) (set_m_eof true it))
    | Some (content, mtime) =>
        let it1 := set_m_parser (set_file (Some content) (m_parser it)) (set_m_eof true it) in
        match probe (lastCALogEntry (m_parser it1)) content mtime (m_prober it1) with
        | NoFuel => NoFuel
        | Except => Except
        | Ret probe_st pr =>
            let it2 := set_m_prober pr it1 in
            match probe_st with
            | COMPRESSED | PROBE_ERROR =>
                Ret tt (set_current (new_ClassAdLogIterEntry ET_RESET) (set_m_parser (setNextOffset 0 (m_parser it2)) it2))
            | ADDITION => Load it2
            | NO_CHANGE =>
                let it3 := set_current (new_ClassAdLogIterEntry ET_NOCHANGE) (set_m_parser (closeFile (m_parser it2)) it2) in
                Ret tt (set_m_prober (incrementProbeInfo (m_prober it3)) it3)
            | PROBE_FATAL_ERROR => Ret tt (set_current (new_ClassAdLogIterEntry ET_ERR) it2)
            end
        end
    end.
(** The constructor goes to the first entry. *)
Definition ClassAdLogIterator_begin (file : option (text * Z)) : Res ClassAdLogIterator unit :=
  Next file ([], 0) (mk_ClassAdLogIterator new_ClassAdLogParser new_ClassAdLogProber None true).
