(* ===== verification/LogReaderFacts.v ===== *)
(** * Reading the entries of a log that was written by records

    What [readLogEntry] makes of the text of a record and of a part of one, that it
    returns, and what the loop of the reader does with the records of a file. *)
From Stdlib Require Import ZArith Lia Ascii String.
From stdpp Require Import base list gmap strings.
From S2P Require Import Prelude Double Numerals Tree Values Lexer FlatMap AdStore Parser Unparser HashTable ClassAdLog ClassAdLogFacts ClassAdLogLoad ClassAdLogRecovery LogReader.
Open Scope res_scope.

(** ** It returns *)
Lemma skip_lines_ends n : forall fp, (length fp < n)%nat -> is_Some (skip_lines n fp).
Proof.
  induction n as [|n IH]; intros fp Hn; [lia|]. cbn [skip_lines]. pose proof (readline_uses fp) as Hu.
  destruct (readline fp) as [[line|] fp']; [|done]. destruct (decide _); [done|]. apply IH. lia.
Qed.
Lemma readLogEntry_returns op0 p : exists a p', readLogEntry op0 p = Ret a p'.
Proof.
  unfold readLogEntry. destruct (log_fp p) as [content|]; [|by do 2 eexists].
  destruct (readword _) as [[w|] fp]; [|by do 2 eexists].
  destruct (readEntryBody _ _ fp) as [[[[] e] fp']|]; [by do 2 eexists| |by do 2 eexists].
  destruct (skip_lines_ends (S (length fp')) fp') as [[] ->]; [lia|by do 2 eexists..].
Qed.

(** ** Records and entries *)

(** Records whose text can be read: any line is a value. *)
Definition plain_record (r : LogRecord) : Prop :=
  match r with
  | LogHistoricalSequenceNumber n t => 0 <= n < two64 /\ 0 <= t < two63
  | LogNewClassAd key mytype => word key /\ (mytype = ""%string \/ word mytype /\ mytype <> EMPTY_CLASSAD_TYPE_NAME)
  | LogDestroyClassAd key => word key
  | LogSetAttribute key name value _ => word key /\ word name /\ line value
  | LogDeleteAttribute key name => word key /\ word name
  | LogBeginTransaction => True
  | LogEndTransaction comment => from_option line True comment
  | LogRecordError _ => False
  end.
Lemma record_ok_plain oldSemantics MakeAbsTime MakeRelTime r :
  record_ok oldSemantics MakeAbsTime MakeRelTime r -> plain_record r.
Proof. destruct r; try done. intros (?&?&?&?). done. Qed.

(** The fields of the entry that is read. *)
Definition entry_fields (r : LogRecord) (e : ClassAdLogEntry) : ClassAdLogEntry :=
  match r with
  | LogHistoricalSequenceNumber n t => set_value (of_text (digits t)) (set_name "CreationTimestamp" (set_key (of_text (digits n)) e))
  | LogNewClassAd key mytype => set_targettype (type_name (written_targettype mytype)) (set_mytype mytype (set_key key e))
  | LogDestroyClassAd key => set_key key e
  | LogSetAttribute key name value _ => set_value value (set_name name (set_key key e))
  | LogDeleteAttribute key name => set_name name (set_key key e)
  | LogEndTransaction (Some comment) => set_value comment e
  | _ => e
  end.
(** A part of its text is no entry. *)
Definition no_comment (r : LogRecord) : Prop := match r with LogEndTransaction (Some _) => False | _ => True end.

Record fields_read (fs : list (Reader string * (string -> ClassAdLogEntry -> ClassAdLogEntry))) (s : text)
    (f : ClassAdLogEntry -> ClassAdLogEntry) : Prop := {
  fields_whole e rest : read_fields fs e (s ++ rest) = (true, f e, rest);
  fields_torn e p q : s = p ++ q -> q <> [] -> exists e', read_fields fs e p = (false, e', [])
}.
Lemma fields_nil : fields_read [] [] (fun e => e).
Proof. split; [done|]. intros e p q E Hq. by destruct p, q. Qed.
Lemma fields_cons rd set fs s1 s2 x f : reads rd s1 x -> fields_read fs s2 f ->
  fields_read ((rd, set) :: fs) (s1 ++ s2) (fun e => f (set x e)).
Proof.
  intros [Hw Ht] [Fw Ft]. split.
  - intros e rest. cbn [read_fields]. by rewrite <- app_assoc, Hw, Fw.
  - intros e p q E Hq. cbn [read_fields]. destruct (prefix_cases _ _ _ _ E) as [(q'&E1&Hq')|(p'&->&E2)].
    + rewrite (Ht p q') by done. by eexists.
    + rewrite Hw. by eapply Ft.
Qed.
Lemma fields_last rd set s x : reads rd s x -> fields_read [(rd, set)] s (set x).
Proof. intros H. rewrite <- (app_nil_r s). apply (fields_cons rd set [] s [] x (fun e => e) H fields_nil). Qed.

Lemma word_line s : word s -> line s.
Proof.
  intros [Hs Hw]. split; [done|]. rewrite forallb_forall in Hw |- *. intros c Hc. specialize (Hw c Hc).
  apply plain_spec in Hw as [Hsp Hz]. unfold plain. rewrite Hz. destruct (Ascii.eqb_spec newline c) as [<-|]; [done|done].
Qed.
Lemma digits_line t : 0 <= t < two64 -> line (of_text (digits t)) /\ txt (of_text (digits t)) = digits t.
Proof. intros Ht. destruct (digits_word t Ht). split; [by apply word_line|done]. Qed.

(** The body of the text, and how it is read. *)
Lemma body_read r : plain_record r -> exists body, record_text r = WriteHeader r ++ body /\
  (forall e rest, readEntryBody (get_op_type r) e (body ++ rest) = Some (true, entry_fields r e, rest)) /\
  (no_comment r -> forall e p q, body = p ++ q -> q <> [] ->
     exists e', readEntryBody (get_op_type r) e p = Some (false, e', [])).
Proof.
  assert (Hrec : forall fs body f (P : Prop), fields_read fs body f ->
    (forall e rest, Some (read_fields fs e (body ++ rest)) = Some (true, f e, rest)) /\
    (P -> forall e p q, body = p ++ q -> q <> [] -> exists e', Some (read_fields fs e p) = Some (false, e', []))).
  { intros fs body f P [Hw Ht]. split; [intros e rest; by rewrite Hw|]. intros _ e p q E Hq. destruct (Ht e p q E Hq) as [e' ->]. eauto. }
  pose proof (eq_refl : isspace " " = true) as Hsp. pose proof (eq_refl : isspace newline = true) as Hnl.
  destruct r as [n t|key mytype|key|key name value dirty|key name| |comment|body]; intros Hok.
  - destruct Hok as [Hn Ht]. assert (Ht' : 0 <= t < two64) by (unfold two63, two64 in *; lia).
    destruct (digits_word n Hn) as [Wn En], (digits_line t Ht') as [Wt Et].
    exists ((txt (of_text (digits n)) ++ [" "%char]) ++ (txt "CreationTimestamp" ++ [" "%char]) ++ (txt (of_text (digits t)) ++ [newline])).
    split; [unfold record_text, Write; cbn [WriteBody fst]; rewrite Z.mod_small, En, Et by done; by rewrite <- !app_assoc|].
    apply Hrec.
    apply (fields_cons _ _ _ _ _ _ (fun e => set_value _ (set_name _ e))); [by apply reads_readword|].
    apply (fields_cons _ _ _ _ _ _ (set_value _)); [by apply reads_readword|]. by apply fields_last, reads_readline.
  - destruct Hok as [Hk Hm]. set (s := if String.eqb mytype "" then EMPTY_CLASSAD_TYPE_NAME else mytype).
    assert (Hs : word s /\ type_name s = mytype).
    { unfold s, type_name. destruct (String.eqb_spec mytype "") as [->|Hne]; [by vm_compute|].
      destruct Hm as [?|[? Hm]]; [done|]. by rewrite (proj2 (String.eqb_neq _ _) Hm). }
    destruct Hs as [Hs Et]. assert (Ht : word (written_targettype mytype)) by (apply written_targettype_word; tauto).
    exists ((txt key ++ [" "%char]) ++ (txt s ++ [" "%char]) ++ (txt (written_targettype mytype) ++ [newline])).
    split; [unfold record_text, Write; cbn [WriteBody fst]; fold s; by rewrite <- !app_assoc|].
    apply Hrec. unfold entry_fields. match goal with |- fields_read ?fs ?b _ => cut (fields_read fs b (fun e =>
      set_targettype (type_name (written_targettype mytype)) (set_mytype (type_name s) (set_key key e)))); [by rewrite Et|] end.
    apply (fields_cons _ _ _ _ _ _ (fun e => set_targettype _ (set_mytype _ e))); [by apply reads_readword|].
    apply (fields_cons _ (fun s => set_mytype (type_name s)) _ _ _ _ (set_targettype _)); [by apply reads_readword|].
    by apply (fields_last _ (fun s => set_targettype (type_name s))), reads_readword.
  - exists (txt key ++ [newline]). split; [done|]. by apply Hrec, fields_last, reads_readword.
  - destruct Hok as (Hk&Hn&Hv). exists ((txt key ++ [" "%char]) ++ (txt name ++ [" "%char]) ++ (txt value ++ [newline])). split.
    { unfold record_text, Write. cbn [WriteBody]. rewrite !word_no_newline, line_no_newline by done. cbn [orb fst].
      by rewrite <- !app_assoc. }
    apply Hrec, (fields_cons _ _ _ _ _ _ (fun e => set_value _ (set_name _ e))); [by apply reads_readword|].
    apply (fields_cons _ _ _ _ _ _ (set_value _)); [by apply reads_readword|]. by apply fields_last, reads_readline.
  - destruct Hok as (Hk&Hn). exists ((txt key ++ [" "%char]) ++ (txt name ++ [newline])).
    split; [unfold record_text, Write; cbn [WriteBody fst]; by rewrite <- !app_assoc|].
    apply Hrec, (fields_cons _ _ _ _ _ _ (set_name _)); [by apply reads_readword|]. by apply fields_last, reads_readword.
  - exists [newline]. split; [done|]. split; [done|]. intros _ e p q E Hq. destruct p as [|c p]; [by eexists|].
    injection E as _ E. by destruct p, q.
  - destruct comment as [c|].
    + simpl in Hok. exists ("#"%char :: txt c ++ [newline]). split.
      { unfold record_text, Write. cbn [WriteBody]. by rewrite (proj2 (String.eqb_neq _ _) (proj1 Hok)). }
      split; [|done]. intros e rest. unfold readEntryBody. cbn.
      by rewrite (reads_whole _ _ _ (reads_readline c Hok)).
    + exists [newline]. split; [done|]. split; [done|]. intros _ e p q E Hq. destruct p as [|c p]; [by eexists|].
      injection E as _ E. by destruct p, q.
  - done.
Qed.

Lemma header_read r : plain_record r ->
  exists w, reads readword (WriteHeader r) w /\ atoi w = get_op_type r.
Proof.
  intros Hok. exists (of_text (append_long [] (get_op_type r))). split; [|by destruct r].
  unfold WriteHeader. rewrite <- (list_ascii_of_string_of_list_ascii (append_long [] _)) at 1.
  apply reads_readword; [|done]. destruct r; try done; by vm_compute.
Qed.

(** A parser at some place of the file. *)
Definition at_text (p : ClassAdLogParser) (pre rest : text) : Prop :=
  log_fp p = Some (pre ++ rest) /\ nextOffset p = Z.of_nat (length pre).

Lemma at_text_drop p pre rest : at_text p pre rest -> drop (Z.to_nat (nextOffset p)) (pre ++ rest) = rest.
Proof. intros [_ ->]. by rewrite Nat2Z.id, drop_app_length. Qed.

(** The entry of a record. *)
Definition read_record_state (r : LogRecord) (p : ClassAdLogParser) : ClassAdLogParser :=
  let off := nextOffset p + Z.of_nat (length (record_text r)) in
  let p1 := advance (get_op_type r) p in
  setNextOffset off (set_cur (set_next_offset off (entry_fields r (curCALogEntry p1))) p1).

Lemma read_record op0 p pre r rest : at_text p pre (record_text r ++ rest) -> plain_record r ->
  readLogEntry op0 p = Ret (FILE_READ_SUCCESS, get_op_type r) (read_record_state r p) /\
  at_text (read_record_state r p) (pre ++ record_text r) rest.
Proof.
  intros Hat Hok. destruct (body_read r Hok) as (body&Eb&Hw&_). destruct (header_read r Hok) as (w&Hh&Ew).
  assert (Hlen : nextOffset p + Z.of_nat (length (record_text r)) = Z.of_nat (length (pre ++ record_text r))).
  { rewrite length_app, (proj2 Hat). lia. }
  split.
  - unfold readLogEntry. rewrite (proj1 Hat), (at_text_drop p _ _ Hat). rewrite Eb at 1.
    rewrite <- app_assoc, (reads_whole _ _ _ Hh), Ew, Hw. unfold read_record_state. rewrite Hlen.
    do 2 f_equal. 1: rewrite !length_app; lia.
    do 2 f_equal. rewrite !length_app. lia.
  - split; [|exact Hlen]. unfold read_record_state, advance, setNextOffset, set_cur. cbn [log_fp]. by rewrite (proj1 Hat), app_assoc.
Qed.

(** What a crash may leave at the end of the file. *)
Definition torn_part (torn : text) : Prop :=
  torn = [] \/ exists r q, plain_record r /\ no_comment r /\ record_text r = torn ++ q /\ q <> [].

Lemma read_tail op0 p pre torn : at_text p pre torn -> torn_part torn ->
  exists op p', readLogEntry op0 p = Ret (FILE_READ_EOF, op) p' /\ nextOffset p' = nextOffset p /\
    (offset (curCALogEntry p') = offset (curCALogEntry p) \/ offset (curCALogEntry p') = nextOffset p) /\
    (offset (lastCALogEntry p') = offset (lastCALogEntry p) \/ offset (lastCALogEntry p') = offset (curCALogEntry p)).
Proof.
  intros Hat Ht. unfold readLogEntry. rewrite (proj1 Hat), (at_text_drop p _ _ Hat).
  assert (Hnone : readword torn = (None, []) -> exists op p', match readword torn with
      | (None, _) => Ret (FILE_READ_EOF, op0) (closeFile p)
      | (Some _, _) => NoFuel
      end = Ret (FILE_READ_EOF, op) p' /\ nextOffset p' = nextOffset p /\
    (offset (curCALogEntry p') = offset (curCALogEntry p) \/ offset (curCALogEntry p') = nextOffset p) /\
    (offset (lastCALogEntry p') = offset (lastCALogEntry p) \/ offset (lastCALogEntry p') = offset (curCALogEntry p))).
  { intros ->. exists op0, (closeFile p). auto. }
  destruct Ht as [->|(r&q&Hok&Hc&E&Hq)].
  { destruct (Hnone eq_refl) as (op&p'&E&?). by exists op, p'. }
  destruct (body_read r Hok) as (body&Eb&_&Hb). destruct (header_read r Hok) as (w&Hh&Ew). rewrite Eb in E.
  destruct (prefix_cases _ _ _ _ E) as [(q'&E1&Hq')|(p'&->&E2)].
  - pose proof (reads_torn _ _ _ Hh torn q' E1 Hq') as En. destruct (Hnone En) as (op&p'&E'&?). exists op, p'.
    rewrite En in *. done.
  - rewrite (reads_whole _ _ _ Hh), Ew. destruct (Hb Hc (curCALogEntry (advance (get_op_type r) p)) p' q E2 Hq) as [e' ->].
    do 2 eexists. split; [reflexivity|]. cbn. auto.
Qed.
