(* ===== verification/LogReaderLaws.v ===== *)
(** * What a reader of a ClassAd log makes of it

    After every poll of a log that grows, is rotated to one of two records or more, or ends
    in the middle of a record that is not the comment of a transaction, the consumer has been
    told exactly the whole records of the file ([Poll_mirrors]; [short_rotation_is_lost] and
    [torn_comment_delays] are what happens otherwise); where
    the transactions are complete it has what a restart would load
    ([mirror_is_what_is_loaded]). The iterator shows no entry
    ([iterator_shows_no_entry]). *)
From Stdlib Require Import ZArith Lia Ascii String.
From stdpp Require Import base list gmap strings.
From S2P Require Import Prelude Double Numerals Tree Values Lexer FlatMap AdStore Parser Unparser HashTable ClassAdLog ClassAdLogFacts ClassAdLogLoad ClassAdLogRecovery ClassAdLogLaws AdTable AdTableLaws LogReader LogReaderFacts.
Open Scope res_scope.

(** ** Files *)

(** Whole records, and what may follow them. *)
Record LogFile := mk_LogFile { records : list LogRecord; torn : text }.
Definition file_text (L : LogFile) : text := records_text (records L) ++ torn L.
(** A log starts with its sequence number. *)
Record good_file (L : LogFile) (n : Z) : Prop := {
  good_first : exists t rs, records L = LogHistoricalSequenceNumber n t :: rs;
  good_number : 1 <= n < two63;
  good_records : Forall plain_record (records L);
  good_torn : torn_part (torn L)
}.
(** The same log, later. *)
Definition extends (L L' : LogFile) : Prop := exists new s,
  records L' = records L ++ new /\ torn L ++ s = records_text new ++ torn L'.
Lemma extends_refl L : extends L L.
Proof. exists [], []. by rewrite !app_nil_r. Qed.
Lemma extends_text L L' : extends L L' -> exists s, file_text L' = file_text L ++ s.
Proof.
  intros (new&s&E&Et). exists s. unfold file_text. by rewrite E, records_text_app, <- app_assoc, <- app_assoc, Et.
Qed.

(** Where entries begin and end. *)
Definition boundary (rs : list LogRecord) (off : Z) : Prop := exists k, off = Z.of_nat (length (records_text (take k rs))).
Lemma boundary_app rs rs' off : boundary rs off -> boundary (rs ++ rs') off.
Proof.
  intros [k ->]. exists (k `min` length rs)%nat. rewrite take_app_le by lia. f_equal. f_equal. f_equal.
  destruct (decide (k <= length rs)%nat); [by rewrite Nat.min_l|].
  rewrite Nat.min_r by lia. rewrite !take_ge by lia. done.
Qed.
Lemma boundary_end rs : boundary rs (Z.of_nat (length (records_text rs))).
Proof. exists (length rs). by rewrite take_ge. Qed.
Lemma boundary_zero rs : boundary rs 0.
Proof. by exists 0%nat. Qed.

(** ** Probing *)
Lemma atol_digits n : 0 <= n < two63 -> atol (of_text (digits n)) = n.
Proof.
  intros Hn. assert (Hn' : 0 <= n < two64) by (unfold two63, two64 in *; lia).
  pose proof (proj2 (deserialize_digits n Hn') (proj2 Hn)) as H. unfold deserialize_long in H. unfold atol.
  destruct (strtol _) as [v rest]. destruct (Nat.eqb _ _); [done|]. by injection H.
Qed.

(** Reading at a boundary gives an entry, or the end. *)
Lemma read_at_boundary L off p : Forall plain_record (records L) -> torn_part (torn L) -> boundary (records L) off ->
  log_fp p = Some (file_text L) ->
  exists st p', read_at off p = Ret st p' /\ (st = FILE_READ_EOF \/ st = FILE_READ_SUCCESS).
Proof.
  intros Hok Ht [k ->] Hfp. unfold read_at.
  assert (Hat : forall rest, records_text (drop k (records L)) ++ torn L = rest ->
    at_text (setNextOffset (Z.of_nat (length (records_text (take k (records L))))) p) (records_text (take k (records L))) rest).
  { intros rest <-. split; [|done]. cbn [log_fp setNextOffset]. rewrite Hfp, app_assoc, <- records_text_app, take_drop. done. }
  destruct (drop k (records L)) as [|r rs] eqn:Ed.
  - destruct (read_tail (-1) _ _ _ (Hat (torn L) eq_refl) Ht) as (op&p'&->&_). exists FILE_READ_EOF, p'. auto.
  - assert (Hr : plain_record r).
    { pose proof (Forall_drop plain_record k _ Hok) as Hd. rewrite Ed in Hd. by inversion Hd. }
    rewrite records_text_cons, <- app_assoc in Hat.
    destruct (read_record (-1) _ _ r _ (Hat _ eq_refl) Hr) as [-> _]. do 2 eexists. split; [reflexivity|by right].
Qed.

Lemma entry_of_first n t p :
  let e := curCALogEntry (read_record_state (LogHistoricalSequenceNumber n t) p) in
  op_type e = CondorLogOp_LogHistoricalSequenceNumber /\ key e = Some (of_text (digits n)) /\ value e = Some (of_text (digits t)).
Proof. done. Qed.

(** What a probe of a good file finds: another number is seen, and no change only if the
    size is the same. *)
Lemma probe_good L n e mtime pr : good_file L n -> (n = last_seq_num pr -> boundary (records L) (offset e)) ->
  exists pr' st, probe e (file_text L) mtime pr = Ret st pr' /\
    last_size pr' = last_size pr /\ last_seq_num pr' = last_seq_num pr /\
    cur_probed_size pr' = Z.of_nat (length (file_text L)) /\ cur_probed_seq_num pr' = n /\
    match st with
    | COMPRESSED => n <> last_seq_num pr
    | NO_CHANGE => n = last_seq_num pr /\ last_size pr = Z.of_nat (length (file_text L))
    | ADDITION => n = last_seq_num pr
    | PROBE_ERROR => True
    | PROBE_FATAL_ERROR => False
    end.
Proof.
  intros [(t&rs&E) Hn Hok Ht] Hb. unfold probe.
  set (p0 := set_file (Some (file_text L)) new_ClassAdLogParser).
  assert (Hat : at_text (setNextOffset 0 p0) [] (record_text (LogHistoricalSequenceNumber n t) ++ records_text rs ++ torn L)).
  { split; [|done]. cbn [log_fp setNextOffset p0 set_file]. unfold file_text. rewrite E, records_text_cons, <- app_assoc. done. }
  assert (Hr : plain_record (LogHistoricalSequenceNumber n t)) by (rewrite E in Hok; by inversion Hok).
  unfold read_at at 1. destruct (read_record (-1) _ _ _ _ Hat Hr) as [-> Hat'].
  set (p1 := read_record_state _ _) in *. destruct (entry_of_first n t (setNextOffset 0 p0)) as (Eo&Ek&Ev). fold p1 in Eo, Ek, Ev.
  cbn [bool_decide decide decide_rel FileOpErrCode_dec negb]. rewrite decide_False by done. rewrite bool_decide_true by done. cbn [negb].
  rewrite Eo, Z.eqb_refl. cbn [negb]. rewrite Ek, Ev. cbn [from_option].
  set (pr2 := set_probed_log _ _ _).
  assert (Hpr : last_size pr2 = last_size pr /\ last_seq_num pr2 = last_seq_num pr /\
    cur_probed_size pr2 = Z.of_nat (length (file_text L)) /\ cur_probed_seq_num pr2 = n).
  { split_and!; try done. cbn. apply atol_digits. unfold plain_record in Hr. lia. }
  destruct Hpr as (H1&H2&H3&H4). rewrite H4, H2. destruct (Z.eqb_spec n (last_seq_num pr)) as [Hs|Hs]; cbn [negb].
  2:{ exists pr2, COMPRESSED. split_and!; done. }
  assert (Hfp : log_fp p1 = Some (file_text L)).
  { rewrite (proj1 Hat'). cbn [app]. unfold file_text. by rewrite E, records_text_cons, app_assoc. }
  destruct (read_at_boundary L (offset e) p1 Hok Ht (Hb Hs) Hfp) as (st&p2&->&Hst).
  rewrite decide_False by (by destruct Hst as [->| ->]).
  replace (bool_decide (st = FILE_READ_EOF) || bool_decide (st = FILE_READ_SUCCESS)) with true
    by (by destruct Hst as [->| ->]). cbn [negb]. rewrite H1.
  destruct (Z.eqb_spec (Z.of_nat (length (file_text L))) (last_size pr)) as [He|He]; cbn [andb].
  - destruct (equal _ e); cbn [andb]; [exists pr2, NO_CHANGE; by split_and!|]. rewrite andb_false_r.
    exists pr2, PROBE_ERROR. by split_and!.
  - destruct (_ && _); [exists pr2, ADDITION|exists pr2, PROBE_ERROR]; by split_and!.
Qed.

(** ** The reader *)
Section reader.
Context {C : Type} `{ClassAdLogConsumer C}.
Abbreviation ClassAdLogReader := (ClassAdLogReader C).

(** What the consumer is told of a record, and of records in turn, as long as it accepts. *)
Definition tell (r : LogRecord) (c : C) : C * bool :=
  match r with
  | LogNewClassAd key mytype => NewClassAd key mytype (type_name (written_targettype mytype)) c
  | LogDestroyClassAd key => DestroyClassAd key c
  | LogSetAttribute key name value _ => SetAttribute key name value c
  | LogDeleteAttribute key name => DeleteAttribute key name c
  | _ => (c, true)
  end.
Fixpoint tell_all (rs : list LogRecord) (c : C) : option C :=
  match rs with
  | [] => Some c
  | r :: rs' => let '(c', ok) := tell r c in if (ok : bool) then tell_all rs' c' else None
  end.
Lemma tell_all_app rs rs' c : tell_all (rs ++ rs') c = tell_all rs c ≫= tell_all rs'.
Proof. revert c. induction rs as [|r rs IH]; intros c; [done|]. simpl. destruct (tell r c) as [c' []]; [apply IH|done]. Qed.

Lemma ProcessLogEntry_tells r p c : plain_record r -> ProcessLogEntry (curCALogEntry (read_record_state r p)) c = tell r c.
Proof. destruct r as [| | | | | |[]|]; done. Qed.

(** The parser is after the first of the records, and its entries are entries of the file. *)
Record parsed (p : ClassAdLogParser) (rs all : list LogRecord) : Prop := {
  parsed_next : nextOffset p = Z.of_nat (length (records_text rs));
  parsed_cur : boundary all (offset (curCALogEntry p));
  parsed_last : boundary all (offset (lastCALogEntry p))
}.
Lemma read_offset r p : offset (curCALogEntry (read_record_state r p)) = nextOffset p.
Proof. by destruct r as [| | | | | |[]|]. Qed.
Lemma parsed_record p rs r rs2 : parsed p rs (rs ++ r :: rs2) -> parsed (read_record_state r p) (rs ++ [r]) (rs ++ r :: rs2).
Proof.
  intros [Hn Hc Hl]. split; [|rewrite read_offset, Hn; apply boundary_app, boundary_end|exact Hc].
  change (nextOffset p + Z.of_nat (length (record_text r)) = Z.of_nat (length (records_text (rs ++ [r])))).
  rewrite records_text_app, length_app, Hn, records_text_cons, app_nil_r. lia.
Qed.

Lemma load_loop_step n (r : ClassAdLogReader) pre x rest c :
  at_text (parser r) pre (record_text x ++ rest) -> plain_record x -> tell x (m_consumer r) = (c, true) ->
  load_loop (S n) r = load_loop n (set_consumer c (set_parser (read_record_state x (parser r)) r)).
Proof.
  intros Hat Hx Hc. cbn [load_loop]. destruct (read_record (-1) _ _ x _ Hat Hx) as [-> _].
  rewrite ProcessLogEntry_tells by done. cbn [set_parser m_consumer]. by rewrite Hc.
Qed.

Lemma load_loop_reads rs2 : forall rs1 tail n (r : ClassAdLogReader) c',
  parsed (parser r) rs1 (rs1 ++ rs2) -> at_text (parser r) (records_text rs1) (records_text rs2 ++ tail) ->
  Forall plain_record rs2 -> torn_part tail -> tell_all rs2 (m_consumer r) = Some c' -> (length rs2 < n)%nat ->
  exists p, load_loop n r = Ret true (set_consumer c' (set_parser p r)) /\ parsed p (rs1 ++ rs2) (rs1 ++ rs2).
Proof.
  induction rs2 as [|x rs2 IH]; intros rs1 tail n r c' Hp Hat Hok Ht Hc Hn; (destruct n as [|n]; [lia|]).
  - cbn [load_loop]. destruct (read_tail (-1) _ _ _ Hat Ht) as (op&p'&->&Hn'&Hcur&Hlast). injection Hc as <-. exists p'. split; [by destruct r|].
    rewrite app_nil_r in *. destruct Hp as [H1 H2 H3]. split; [by rewrite Hn'| |].
    + destruct Hcur as [->| ->]; [done|]. rewrite H1. apply boundary_end.
    + by destruct Hlast as [->| ->].
  - inversion_clear Hok. rewrite records_text_cons, <- app_assoc in Hat. cbn [tell_all] in Hc.
    destruct (tell x (m_consumer r)) as [c1 []] eqn:Hx; [|done]. rewrite (load_loop_step n r _ x _ c1 Hat) by done.
    destruct (read_record (-1) _ _ x _ Hat) as [_ Hat']; [done|]. set (r1 := set_consumer c1 _).
    assert (Eall : rs1 ++ x :: rs2 = (rs1 ++ [x]) ++ rs2) by (by rewrite <- app_assoc).
    destruct (IH (rs1 ++ [x]) tail n r1 c') as (p&->&Hp'); [| |done..|simpl in Hn; lia|].
    + rewrite <- Eall. by apply parsed_record.
    + rewrite records_text_app, records_text_cons, app_nil_r. exact Hat'.
    + exists p. split; [done|]. by rewrite Eall.
Qed.

Lemma records_text_length rs : (length rs <= length (records_text rs))%nat.
Proof.
  induction rs as [|r rs IH]; [done|]. rewrite records_text_cons, length_app. pose proof (record_text_pos r). simpl. lia.
Qed.

(** What [Reset] leaves does not depend on what was there. *)
Variable empty : C.
Hypothesis Reset_forgets : forall c, Reset c = empty.

Lemma IncrementalLoad_reads rs1 rs2 tail (r : ClassAdLogReader) c' :
  parsed (parser r) rs1 (rs1 ++ rs2) -> at_text (parser r) (records_text rs1) (records_text rs2 ++ tail) ->
  Forall plain_record rs2 -> torn_part tail -> tell_all rs2 (m_consumer r) = Some c' ->
  exists p, IncrementalLoad r = Ret true (set_consumer c' (set_parser p r)) /\ parsed p (rs1 ++ rs2) (rs1 ++ rs2).
Proof.
  intros Hp Hat Hok Ht Hc. apply (load_loop_reads rs2 rs1 tail); try done. unfold load_fuel. rewrite (proj1 Hat).
  rewrite !length_app. pose proof (records_text_length rs2). lia.
Qed.
(** From the start of a file, with entries of it, or of another one if it has two records. *)
Lemma BulkLoad_reads L (r : ClassAdLogReader) c' :
  log_fp (parser r) = Some (file_text L) ->
  (boundary (records L) (offset (curCALogEntry (parser r))) /\ boundary (records L) (offset (lastCALogEntry (parser r))) \/
   (2 <= length (records L))%nat) ->
  Forall plain_record (records L) -> torn_part (torn L) -> tell_all (records L) empty = Some c' ->
  exists p, BulkLoad r = Ret true (set_consumer c' (set_parser p r)) /\ parsed p (records L) (records L).
Proof.
  intros Hfp Hb Hok Ht Hc. unfold BulkLoad. rewrite Reset_forgets. set (r0 := set_consumer empty _).
  assert (Hat0 : at_text (parser r0) (records_text []) (records_text (records L) ++ torn L)) by (by split).
  destruct Hb as [[Hcur Hlast]|Hlen].
  - by apply (IncrementalLoad_reads [] (records L) (torn L) r0).
  - destruct (records L) as [|x [|y rs]] eqn:EL; [simpl in Hlen; lia..|]. inversion_clear Hok as [|?? Hx Hok']. inversion_clear Hok' as [|?? Hy Hok].
    rewrite !records_text_cons, <- !app_assoc in Hat0. cbn [tell_all] in Hc.
    unfold IncrementalLoad, load_fuel. rewrite (proj1 Hat0).
    destruct (tell x empty) as [c1 []] eqn:E1; [|done]. rewrite (load_loop_step _ r0 _ x _ c1 Hat0 Hx E1).
    destruct (read_record (-1) _ _ x _ Hat0 Hx) as [_ Hat1]. set (r1 := set_consumer c1 _).
    destruct (tell y c1) as [c2 []] eqn:E2; [|done].
    pose proof (record_text_pos x). pose proof (record_text_pos y). pose proof (records_text_length rs).
    destruct (length (records_text [] ++ record_text x ++ record_text y ++ records_text rs ++ torn L)) as [|n] eqn:En;
      [rewrite !length_app in En; simpl in En; lia|].
    rewrite (load_loop_step _ r1 _ y _ c2 Hat1 Hy E2).
    destruct (read_record (-1) _ _ y _ Hat1 Hy) as [_ Hat2]. set (r2 := set_consumer c2 _).
    apply (load_loop_reads rs [x; y] (torn L) (S n) r2); try done.
    + split.
      * refine (eq_trans (proj2 Hat2) _). by rewrite !records_text_cons, app_nil_r.
      * change (boundary ([x; y] ++ rs) (offset (curCALogEntry (read_record_state y (parser r1))))). rewrite read_offset.
        exists 1%nat. refine (eq_trans (proj2 Hat1) _). cbn [take app]. by rewrite records_text_cons, app_nil_r.
      * change (boundary ([x; y] ++ rs) (offset (curCALogEntry (parser r1)))).
        change (boundary ([x; y] ++ rs) (offset (curCALogEntry (read_record_state x (parser r0))))). rewrite read_offset. apply boundary_zero.
    + rewrite !records_text_cons. cbn [records_text] in Hat2 |- *. by rewrite app_nil_r.
    + rewrite !length_app in En. simpl in En. lia.
Qed.

(** The consumer has been told the whole records of a file. *)
Record mirrors (r : ClassAdLogReader) (L : LogFile) (n : Z) : Prop := {
  mirrors_told : tell_all (records L) empty = Some (m_consumer r);
  mirrors_parsed : parsed (parser r) (records L) (records L);
  mirrors_torn : torn_part (torn L);
  mirrors_number : last_seq_num (prober r) = n;
  mirrors_size : last_size (prober r) = Z.of_nat (length (file_text L))
}.
(** What a poll can be the next one of. *)
Definition next_poll (r : ClassAdLogReader) (L : LogFile) (n : Z) : Prop :=
  last_seq_num (prober r) <> n /\
    (boundary (records L) (offset (curCALogEntry (parser r))) /\ boundary (records L) (offset (lastCALogEntry (parser r))) \/
     (2 <= length (records L))%nat) \/
  exists L0, mirrors r L0 n /\ extends L0 L.

Lemma parsed_extends p L L' : parsed p (records L) (records L) -> extends L L' -> parsed p (records L) (records L').
Proof. intros [H1 H2 H3] (new&s&E&_). rewrite E. split; [done|by apply boundary_app..]. Qed.
(** A torn part has no whole record, so a log of the same size has the same ones. *)
Lemma torn_no_record x z : plain_record x -> ~ torn_part (record_text x ++ z).
Proof.
  intros Hx Ht. set (p := set_file (Some (record_text x ++ z)) new_ClassAdLogParser).
  assert (Hat : at_text p [] (record_text x ++ z)) by done.
  destruct (read_tail (-1) p _ _ Hat Ht) as (op&p'&E&_). destruct (read_record (-1) p _ _ _ Hat Hx) as [E' _]. by rewrite E in E'.
Qed.
Lemma extends_same L L' : extends L L' -> length (file_text L') = length (file_text L) -> torn_part (torn L) ->
  Forall plain_record (records L') -> records L' = records L.
Proof.
  intros He Hlen Ht Hok. destruct (extends_text _ _ He) as [s0 Es0]. destruct He as (new&s&E&Et).
  assert (s = []) as ->.
  { assert (Hl : file_text L' = file_text L ++ s) by (unfold file_text; by rewrite E, records_text_app, <- !app_assoc, Et).
    rewrite Hl, length_app in Hlen. destruct s; [done|simpl in Hlen; lia]. }
  rewrite app_nil_r in Et. destruct new as [|x new]; [by rewrite app_nil_r in E|].
  rewrite Et, records_text_cons, <- app_assoc in Ht. rewrite E in Hok. apply Forall_app in Hok as [_ Hx]. inversion_clear Hx.
  by apply torn_no_record in Ht.
Qed.

Lemma Poll_reads r L n mtime c' : good_file L n -> next_poll r L n -> tell_all (records L) empty = Some c' ->
  exists r', Poll (Some (file_text L, mtime)) r = Ret POLL_SUCCESS r' /\ mirrors r' L n.
Proof.
  intros Hg Hnext Hc. unfold Poll. set (r1 := set_parser (set_file _ _) r).
  destruct (probe_good L n (lastCALogEntry (parser r1)) mtime (prober r1) Hg) as (pr&st&->&H1&H2&H3&H4&Hst).
  { intros Hn. destruct Hnext as [[Hne _]|(L0&Hm&He)]; [by destruct Hne|].
    exact (parsed_last _ _ _ (parsed_extends _ _ _ (mirrors_parsed _ _ _ Hm) He)). }
  destruct Hg as [_ _ Hok Ht]. set (r2 := set_prober pr r1).
  assert (Hbulk : exists r', (let! success := BulkLoad in fun r3 =>
      Ret POLL_SUCCESS (if success then set_prober (incrementProbeInfo (prober (set_parser (closeFile (parser r3)) r3))) (set_parser (closeFile (parser r3)) r3)
                        else set_parser (closeFile (parser r3)) r3)) r2 = Ret POLL_SUCCESS r' /\ mirrors r' L n).
  { destruct (BulkLoad_reads L r2 c') as (p&Hload&Hp); [done| |done..|].
    - destruct Hnext as [[_ Hb]|(L0&Hm&He)]; [exact Hb|left].
      destruct (parsed_extends _ _ _ (mirrors_parsed _ _ _ Hm) He). by split.
    - unfold rbind. rewrite Hload. eexists. split; [reflexivity|]. by split; [exact Hc|destruct Hp|exact Ht|exact H4|exact H3]. }
  destruct st; [exact Hbulk|done|..|exact Hbulk].
  - destruct Hst as [Hn Hsz]. destruct Hnext as [[Hne _]|(L0&Hm&He)]; [by destruct Hne|].
    assert (Er : records L = records L0).
    { apply extends_same; [done| |apply Hm|done]. pose proof (mirrors_size _ _ _ Hm) as Hsz0.
      change (last_size (prober r1)) with (last_size (prober r)) in Hsz. lia. }
    eexists. split; [reflexivity|]. destruct Hm as [Htold Hparsed _ _ _].
    split; [by rewrite Er|rewrite Er; by destruct Hparsed|exact Ht|exact H4|exact H3].
  - destruct Hnext as [[Hne _]|(L0&Hm&He)]; [by destruct Hne|]. pose proof Hm as [Htold Hparsed _ _ _].
    destruct He as (new&s&E&Et). rewrite E, tell_all_app, Htold in Hc. cbn [mbind option_bind] in Hc.
    rewrite E in Hok. apply Forall_app in Hok as [_ Hnew].
    destruct (IncrementalLoad_reads (records L0) new (torn L) r2 c') as (p&Hload&Hp); [| |done..|].
    + destruct Hparsed as [P1 P2 P3]. split; [exact P1|by apply boundary_app..].
    + split; [|exact (parsed_next _ _ _ Hparsed)]. cbn. unfold file_text. by rewrite E, records_text_app, <- app_assoc.
    + unfold rbind. rewrite Hload. eexists. split; [reflexivity|]. rewrite <- E in Hp.
      split; [by rewrite E, tell_all_app, Htold|by destruct Hp|exact Ht|exact H4|exact H3].
Qed.

(** A reader that has not read yet. *)
Lemma fresh_next_poll c L n : 1 <= n -> next_poll (new_ClassAdLogReader c) L n.
Proof. intros Hn. left. cbn. split; [lia|]. left. split; apply boundary_zero. Qed.
(** The same log, grown, or another one after a rotation. *)
Definition later (L L' : LogFile) (n n' : Z) : Prop :=
  n' = n /\ extends L L' \/ n' <> n /\ (2 <= length (records L'))%nat.
Lemma later_next_poll r L L' n n' : mirrors r L n -> later L L' n n' -> next_poll r L' n'.
Proof.
  intros Hm [[-> He]|[Hn Hlen]]; [right; by exists L|]. left. rewrite (mirrors_number _ _ _ Hm). auto.
Qed.

(** Polls in turn. *)
Fixpoint polls (files : list (option (text * Z))) (r : ClassAdLogReader) : Res ClassAdLogReader (list PollResultType) :=
  match files with
  | [] => Ret [] r
  | f :: files' => (let! res := Poll f in let! ress := polls files' in rret (res :: ress)) r
  end.
Inductive log_history : list (LogFile * Z * Z) -> Prop :=
| history_one L n mtime : good_file L n -> log_history [(L, n, mtime)]
| history_more h L n mtime L' n' mtime' : log_history (h ++ [(L, n, mtime)]) -> good_file L' n' -> later L L' n n' ->
    log_history (h ++ [(L, n, mtime); (L', n', mtime')]).
Definition poll_files (h : list (LogFile * Z * Z)) : list (option (text * Z)) :=
  (fun x => Some (file_text x.1.1, x.2)) <$> h.

Lemma polls_app fs1 fs2 r : polls (fs1 ++ fs2) r =
  (let! ress1 := polls fs1 in let! ress2 := polls fs2 in rret (ress1 ++ ress2)) r.
Proof.
  revert r. induction fs1 as [|f fs1 IH]; intros r; cbn [polls app].
  - unfold rbind, rret. by destruct (polls fs2 r).
  - unfold rbind, rret. destruct (Poll f r) as [res r1| |]; [|done..]. rewrite IH. unfold rbind, rret.
    destruct (polls fs1 r1) as [ress1 r2| |]; [|done..]. by destruct (polls fs2 r2).
Qed.
Lemma polls_one f r res r' : Poll f r = Ret res r' -> polls [f] r = Ret [res] r'.
Proof. intros E. unfold polls, rbind, rret. by rewrite E. Qed.

Lemma history_mirrors h : log_history h -> (forall L n mtime, (L, n, mtime) ∈ h -> is_Some (tell_all (records L) empty)) ->
  forall c, exists r', polls (poll_files h) (new_ClassAdLogReader c) = Ret (replicate (length h) POLL_SUCCESS) r' /\
    forall L n mtime, last h = Some (L, n, mtime) -> mirrors r' L n.
Proof.
  induction 1 as [L n mtime Hg|h L n mtime L' n' mtime' Hh IH Hg Hl]; intros Hc c.
  - destruct (Hc L n mtime) as [c' Hc']; [by left|].
    destruct (Poll_reads (new_ClassAdLogReader c) L n mtime c' Hg) as (r'&E&Hm); [apply fresh_next_poll, Hg|done|].
    exists r'. split; [by apply polls_one|]. by intros ??? [= <- <- <-].
  - destruct (IH ltac:(intros L0 n0 m0 Hin; apply (Hc L0 n0 m0); rewrite !elem_of_app, !elem_of_cons in *; tauto) c) as (r1&E1&Hm).
    destruct (Hc L' n' mtime') as [c' Hc']; [rewrite elem_of_app, !elem_of_cons; tauto|].
    destruct (Poll_reads r1 L' n' mtime' c' Hg) as (r'&E&Hm'); [|done|].
    { eapply later_next_poll; [eapply Hm|done]. by rewrite last_snoc. }
    exists r'. split.
    + replace (h ++ [(L, n, mtime); (L', n', mtime')]) with ((h ++ [(L, n, mtime)]) ++ [(L', n', mtime')]) by (by rewrite <- app_assoc).
      assert (E2 : polls (poll_files [(L', n', mtime')]) r1 = Ret [POLL_SUCCESS] r') by exact (polls_one _ _ _ _ E).
      unfold poll_files in *. rewrite fmap_app, polls_app. unfold rbind, rret. rewrite E1, E2, (length_app (h ++ [(L, n, mtime)])), replicate_add. done.
    + intros L2 n2 m2. rewrite last_app. cbn. by intros [= <- <- <-].
Qed.

(** C8: A reader mirrors a log it polls that is a [log_history]: at every poll the file is
    the record of its sequence number (from 1 on), other records whose keys, names and types
    are words and whose values are lines, and at most a part of one more record, which is
    not the end of a transaction with a comment; and from one poll to the next it was only
    appended to, or has another sequence number and at least two whole records. If the
    consumer accepts the records of each of these files, every poll succeeds, and in the end
    it has been told the whole records of the last file, each once and in order, since its
    last reset. Without the second record after a rotation the reader can be lost
    ([short_rotation_is_lost]), and a comment that is cut is taken for a record later
    ([torn_comment_delays]). *)
Theorem Poll_mirrors h L n mtime c :
  log_history (h ++ [(L, n, mtime)]) ->
  (forall L' n' mtime', (L', n', mtime') ∈ h ++ [(L, n, mtime)] -> is_Some (tell_all (records L') empty)) ->
  exists r', polls (poll_files (h ++ [(L, n, mtime)])) (new_ClassAdLogReader c) =
      Ret (replicate (S (length h)) POLL_SUCCESS) r' /\
    tell_all (records L) empty = Some (m_consumer r').
Proof.
  intros Hh Hc. destruct (history_mirrors _ Hh Hc c) as (r'&E&Hm). exists r'. rewrite length_app, Nat.add_comm in E.
  split; [exact E|]. apply (Hm L n mtime). by rewrite last_snoc.
Qed.
End reader.

(** ** What is mirrored is what is loaded *)
Section mirror.
Variable oldSemantics : bool.
Variables MakeAbsTime MakeRelTime : string -> option ExprTree.
Variable strict_parsing : bool.
Context {D : Type} `{DataStructure D}.
Variable d0 : D.

(** The consumer that plays what it is told on data of its own. *)
Definition answered (r : Res D Z) (d : D) : D * bool := match r with Ret _ d' => (d', true) | _ => (d, false) end.
#[local] Instance mirror_consumer : ClassAdLogConsumer D := {|
  Reset := fun _ => d0;
  NewClassAd := fun key type _ d => answered (Play (LogNewClassAd key type) d) d;
  DestroyClassAd := fun key d => answered (Play (LogDestroyClassAd key) d) d;
  SetAttribute := fun key name value d => answered (Play (LogSetAttribute key name value false) d) d;
  DeleteAttribute := fun key name d => answered (Play (LogDeleteAttribute key name) d) d
|}.

Lemma tell_data r d : is_data r -> tell r d = answered (Play (read_back r) d) d.
Proof. destruct r; by intros []. Qed.
Lemma tell_all_plays l : forall d d', Forall is_data l -> play_records (read_back <$> l) d = Ret tt d' -> tell_all l d = Some d'.
Proof.
  induction l as [|r l IH]; intros d d' Hl; cbn [play_records fmap list_fmap tell_all]; [by intros [= ->]|].
  inversion_clear Hl. rewrite tell_data by done. unfold rbind. destruct (Play (read_back r) d) as [v d1| |]; [|done..].
  cbn [answered]. by apply IH.
Qed.
Lemma tell_all_units us : forall d d', Forall (fun u => Forall is_data (unit_data u)) us ->
  play_records (read_back <$> all_data us) d = Ret tt d' -> tell_all (file_records us) d = Some d'.
Proof.
  induction us as [|u us IH]; intros d d' Hu; [by intros [= ->]|]. inversion_clear Hu as [|?? Hd Hus].
  unfold all_data, file_records. rewrite !bind_cons, fmap_app, play_records_app, tell_all_app. unfold rbind.
  destruct (play_records (read_back <$> unit_data u) d) as [[] d1| |] eqn:E; [|done..]. intros Hrest.
  assert (Hunit : tell_all (unit_records u) d = Some d1).
  { apply tell_all_plays in E; [|done]. destruct u as [r|l c]; [done|]. simpl in E |- *.
    rewrite tell_all_app, E. by destruct c as [[]|]. }
  rewrite Hunit. cbn [mbind option_bind]. by apply IH.
Qed.

Abbreviation log_run := (log_run (D := D)).
Abbreviation LoadClassAdLog := (LoadClassAdLog oldSemantics MakeAbsTime MakeRelTime strict_parsing).
Abbreviation op_ok := (op_ok oldSemantics MakeAbsTime MakeRelTime).
Abbreviation unit_ok := (unit_ok oldSemantics MakeAbsTime MakeRelTime).
Abbreviation keeps := (keeps oldSemantics MakeAbsTime MakeRelTime).

(** The file after each part of the work, with its time of modification. *)
Fixpoint log_files (work : list (list log_op * Z)) : ClassAdLog (D := D) -> Res (ClassAdLog (D := D)) (list (text * Z)) :=
  match work with
  | [] => rret []
  | (ops, mtime) :: work' =>
      let! _ := log_run ops in
      let! file := (fun s => Ret (match ClassAdLog.log_fp s with Some f => written f | None => [] end, mtime) s) in
      let! files := log_files work' in rret (file :: files)
  end.

(** The units of a log only grow. *)
Lemma promise_grows p o p' : promise_step p o = Some p' -> exists us, pr_units p' = pr_units p ++ us.
Proof.
  assert (Hnil : exists us, pr_units p = pr_units p ++ us) by (exists []; by rewrite app_nil_r).
  destruct p as [us durable pending level], o; cbn [promise_step]; intros E;
    repeat (case_match; try discriminate E); injection E as <-; try done;
    unfold promise_commit, add_unit; repeat case_match; try done; by eexists.
Qed.
Lemma promise_run_grows ops : forall p p', promise_run p ops = Some p' -> exists us, pr_units p' = pr_units p ++ us.
Proof.
  induction ops as [|o ops IH]; intros p p' E; cbn [promise_run] in E; [injection E as <-; exists []; by rewrite app_nil_r|].
  apply bind_Some in E as (p1&E1&E). destruct (promise_grows _ _ _ E1) as [us1 E1']. destruct (IH _ _ E) as [us2 ->].
  exists (us1 ++ us2). by rewrite E1', app_assoc.
Qed.

(** Units with a time, each list an extension of the one before. *)
Fixpoint chain (us : list commit_unit) (uss : list (list commit_unit * Z)) : Prop :=
  match uss with
  | [] => True
  | (us', _) :: uss' => (exists new, us' = us ++ new) /\ Forall unit_ok us' /\ chain us' uss'
  end.
Definition chain_text (now : Z) (x : list commit_unit * Z) : text * Z := (units_text now x.1, x.2).
Lemma log_files_chain now work : forall s p files s', keeps now d0 s p -> Forall (fun w => Forall op_ok w.1) work ->
  log_files work s = Ret files s' -> exists uss, files = chain_text now <$> uss /\ chain (pr_units p) uss.
Proof.
  induction work as [|[ops mtime] work IH]; intros s p files s' Hk Hops; cbn [log_files].
  - intros [= <- _]. by exists [].
  - inversion_clear Hops. unfold rbind at 1. destruct (log_run ops s) as [[] s1| |] eqn:E1; [|done..].
    destruct (keeps_run _ _ _ _ _ ops _ _ _ Hk ltac:(done) E1) as (p1&Ep&Hk1). unfold rbind, rret.
    destruct (log_files work s1) as [files1 s2| |] eqn:E2; [|done..]. intros [= <- _].
    destruct (IH _ _ _ _ Hk1 ltac:(done) E2) as (uss&->&Hc). destruct Hk1 as [_ (f&->&Hw&_) _ _ _ Hu].
    exists ((pr_units p1, mtime) :: uss). split; [by unfold chain_text; cbn; rewrite Hw|].
    split; [by eapply promise_run_grows|done].
Qed.

Definition unit_file (now : Z) (us : list commit_unit) : LogFile := mk_LogFile (first_record now :: file_records us) [].
Lemma unit_file_good now us : 0 <= now < two63 -> Forall unit_ok us -> good_file (unit_file now us) 1.
Proof.
  intros Hnow Hus. split; [by do 2 eexists|by unfold two63; lia| |by left]. constructor; [by split; [unfold two64; lia|]|].
  unfold file_records. clear -Hus. induction Hus as [|u us [_ Hu] _ IH]; [constructor|]. rewrite bind_cons. apply Forall_app. split; [|done].
  eapply Forall_impl; [exact Hu|]. apply record_ok_plain.
Qed.
Lemma unit_file_extends now us new : extends (unit_file now us) (unit_file now (us ++ new)).
Proof.
  exists (file_records new), (records_text (file_records new)). unfold unit_file, file_records. cbn [records torn].
  by rewrite bind_app, app_nil_r.
Qed.
Definition unit_history (now : Z) (uss : list (list commit_unit * Z)) : list (LogFile * Z * Z) :=
  (fun x => (unit_file now x.1, 1, x.2)) <$> uss.
Lemma chain_snoc uss : forall us x y, chain us (uss ++ [x; y]) ->
  chain us (uss ++ [x]) /\ (exists new, y.1 = x.1 ++ new) /\ Forall unit_ok y.1.
Proof.
  induction uss as [|[us1 m] uss IH]; intros us [ux mx] [uy my]; cbn [chain app].
  - intros (?&?&?&?&_). done.
  - intros (Hn&Hu&Hc). destruct (IH _ _ _ Hc) as (?&?). done.
Qed.
Lemma chain_history now uss x : 0 <= now < two63 -> chain [] (uss ++ [x]) -> log_history (unit_history now (uss ++ [x])).
Proof.
  intros Hnow. revert x. induction uss as [|y uss IH] using rev_ind; intros x Hc.
  - destruct x as [us m]. destruct Hc as (_&Hu&_). by apply history_one, unit_file_good.
  - rewrite <- app_assoc in *. destruct (chain_snoc _ _ _ _ Hc) as (Hc'&[new Hn]&Hu). specialize (IH y Hc').
    unfold unit_history in *. rewrite fmap_app in *. cbn [app fmap list_fmap] in *.
    apply history_more; [done|by apply unit_file_good|]. left. split; [done|]. rewrite Hn. apply unit_file_extends.
Qed.
(** Every list of the chain starts the last one. *)
Lemma chain_prefix uss : forall us x, chain us (uss ++ [x]) ->
  (exists new, x.1 = us ++ new) /\ Forall unit_ok x.1 /\ forall y, y ∈ uss ++ [x] -> exists new, x.1 = y.1 ++ new.
Proof.
  induction uss as [|[us1 m] uss IH]; intros us [ux mx]; cbn [chain app].
  - intros ([new Hn]&Hu&_). split_and!; [by exists new|done|]. intros y Hy. apply list_elem_of_singleton in Hy as ->. exists []. by rewrite app_nil_r.
  - intros ([new Hn]&Hu&Hc). destruct (IH _ _ Hc) as ([new' Hn']&Hx&Hy). split_and!; [|done|].
    + exists (new ++ new'). by rewrite Hn', Hn, app_assoc.
    + intros y [->|Hin]%elem_of_cons; [by exists new'|by apply Hy].
Qed.

(** C17: A reader that polls a log after every part of the work of its writer mirrors what a
    restart of the writer would load: whatever the operations, with transactions that are
    committed, aborted or still open, every poll succeeds, and in the end the data of the
    reader, which knows nothing of transactions and reads what is new, are those that
    [LoadClassAdLog] makes of the whole file. *)
Theorem mirror_is_what_is_loaded now now' work s files content mtime c res d :
  0 <= now < two63 -> Forall (fun w => Forall op_ok w.1) work ->
  log_files work (fresh_log now d0) = Ret files s -> last files = Some (content, mtime) ->
  LoadClassAdLog now' content d0 = Ret (Some res) d ->
  exists r, polls (Some <$> files) (new_ClassAdLogReader c) = Ret (replicate (length files) POLL_SUCCESS) r /\ m_consumer r = d.
Proof.
  intros Hnow Hops Hfiles Hlast Hload.
  destruct (log_files_chain now work _ _ _ _ (fresh_log_keeps _ _ _ now d0) Hops Hfiles) as (uss&->&Hc).
  destruct uss as [|x uss] using rev_ind; [done|]. clear IHuss. rewrite fmap_app, last_app in Hlast. injection Hlast as <- <-.
  destruct (chain_prefix _ _ _ Hc) as (_&Hx&Hpre).
  assert (Hplay : play_records (read_back <$> all_data x.1) d0 = Ret tt d).
  { destruct (load_prefix _ _ _ strict_parsing now now' x.1 (length (units_text now x.1)) Hnow Hx) as (j&Hj&Hm&res'&Hl).
    assert (j = length x.1) as -> by (specialize (Hm (length x.1)); rewrite !take_ge in Hm by done; lia).
    rewrite !take_ge in Hl by done. rewrite Hl in Hload. unfold rbind, rret in Hload.
    destruct (play_records _ d0) as [[] d1| |]; [by injection Hload as _ <-|done..]. }
  assert (Htell : forall y, y ∈ uss ++ [x] -> exists d1, play_records (read_back <$> all_data y.1) d0 = Ret tt d1).
  { intros y Hy. destruct (Hpre y Hy) as [new En]. rewrite En in Hplay. unfold all_data in Hplay.
    rewrite bind_app, fmap_app, play_records_app in Hplay. unfold rbind in Hplay. unfold all_data.
    destruct (play_records _ d0) as [[] d1| |]; [by exists d1|done..]. }
  assert (Hdata : forall y, y ∈ uss ++ [x] -> Forall (fun u => Forall is_data (unit_data u)) y.1).
  { intros y Hy. destruct (Hpre y Hy) as [new En]. rewrite En in Hx. apply Forall_app in Hx as [Hx _].
    eapply Forall_impl; [exact Hx|]. by intros u [? _]. }
  assert (Epoll : poll_files (unit_history now (uss ++ [x])) = Some <$> (chain_text now <$> (uss ++ [x]))).
  { unfold poll_files, unit_history. rewrite <- !list_fmap_compose. apply list_fmap_ext. intros k y _.
    cbn. unfold chain_text, units_text, file_text. cbn [records torn unit_file]. by rewrite app_nil_r. }
  destruct (history_mirrors (H := mirror_consumer) d0 (fun _ => eq_refl) _ (chain_history now uss x Hnow Hc)) with (c := c) as (r&E&Hm).
  { intros L n m (y&[= -> -> ->]&Hy)%list_elem_of_fmap. destruct (Htell y Hy) as [d1 H1].
    exists d1. exact (tell_all_units y.1 d0 d1 (Hdata y Hy) H1). }
  exists r. split.
  { rewrite Epoll in E. refine (eq_trans E _). f_equal. f_equal. unfold unit_history. by rewrite !length_fmap. }
  assert (Hx2 : x ∈ uss ++ [x]) by (apply elem_of_app; right; by left).
  specialize (Hm (unit_file now x.1) 1 x.2). unfold unit_history in Hm. rewrite fmap_app, last_app in Hm.
  pose proof (mirrors_told _ _ _ _ (Hm eq_refl)) as Ht.
  change (tell_all (file_records x.1) d0 = Some (m_consumer r)) in Ht.
  rewrite (tell_all_units x.1 d0 d (Hdata x Hx2) Hplay) in Ht. by injection Ht.
Qed.
End mirror.

(** ** The iterator *)

(** An entry that was not read equals none. *)
Lemma equal_new e : equal e new_ClassAdLogEntry = false.
Proof. unfold equal. destruct (_ =? _); reflexivity. Qed.
Lemma probe_new content mtime pr : exists st pr', probe new_ClassAdLogEntry content mtime pr = Ret st pr' /\
  (st = PROBE_ERROR \/ st = PROBE_FATAL_ERROR \/ st = COMPRESSED).
Proof.
  unfold probe, read_at. destruct (readLogEntry_returns (-1) (setNextOffset 0 (set_file (Some content) new_ClassAdLogParser))) as ([st op]&p&->).
  destruct (decide _); [by do 2 eexists; eauto|]. destruct (negb _); [by do 2 eexists; eauto|].
  destruct (negb _); [by do 2 eexists; eauto|]. destruct (negb _); [by do 2 eexists; eauto|].
  destruct (readLogEntry_returns (-1) (setNextOffset (offset new_ClassAdLogEntry) p)) as ([st2 op2]&p2&->).
  destruct (decide _); [by do 2 eexists; eauto|]. destruct (negb _); [by do 2 eexists; eauto|].
  rewrite equal_new, !andb_false_r. do 2 eexists; eauto.
Qed.

(** The iterator has read nothing, and shows a reset or an error. *)
Record idle (it : ClassAdLogIterator) : Prop := {
  idle_eof : m_eof it = true;
  idle_last : lastCALogEntry (m_parser it) = new_ClassAdLogEntry;
  idle_current : match m_current it with Some e => m_type e = ET_RESET \/ m_type e = ET_ERR | None => True end
}.
Lemma Next_idle file held it : idle it -> exists it', Next file held it = Ret tt it' /\ idle it' /\ is_Some (m_current it').
Proof.
  intros [He Hl Hc]. unfold Next. set (it1 := match log_fp (m_parser it) with Some _ => _ | None => _ end).
  assert (Hi : m_eof it1 = true /\ lastCALogEntry (m_parser it1) = new_ClassAdLogEntry /\ m_current it1 = m_current it)
    by (unfold it1; by destruct (log_fp (m_parser it))).
  destruct Hi as (H1&H2&H3). rewrite H1, H3. cbn [negb orb].
  replace (match m_current it with Some e => bool_decide (m_type e = ET_INIT) | None => false end) with false.
  2:{ destruct (m_current it) as [e|]; [|done]. symmetry. apply bool_decide_eq_false. destruct Hc as [->| ->]; done. }
  destruct (match log_fp (m_parser it1) with Some _ => Some held | None => file end) as [[content mtime]|].
  - cbn [m_parser m_prober set_m_parser set_m_eof lastCALogEntry set_file]. rewrite H2.
    destruct (probe_new content mtime (m_prober it1)) as (st&pr&->&Hst).
    destruct Hst as [->|[->| ->]]; (eexists; split; [reflexivity|split; [split; [done|exact H2|by cbn; auto]|by eexists]]).
  - eexists. split; [reflexivity|]. split; [split; [done|exact H2|by cbn; auto]|by eexists].
Qed.

(** The iterator after it went on so many times, over what is found each time. *)
Fixpoint steps (files : list (option (text * Z) * (text * Z))) : ClassAdLogIterator -> Res ClassAdLogIterator unit :=
  match files with
  | [] => rret tt
  | (file, held) :: files' => let! _ := Next file held in steps files'
  end.

(** C24: The iterator ([ClassAdLogReaderV2], the LogReader of the Python bindings) shows no
    entry of any log: whatever it finds each time, it returns, and what it shows is that it
    was reset or an error. After a reset the number of the log it has read is still none, so
    the next probe finds a reset again, and nothing is ever read. *)
Theorem iterator_shows_no_entry file files :
  exists it0 it e, ClassAdLogIterator_begin file = Ret tt it0 /\ steps files it0 = Ret tt it /\
    m_current it = Some e /\ (m_type e = ET_RESET \/ m_type e = ET_ERR).
Proof.
  destruct (Next_idle file ([], 0) (mk_ClassAdLogIterator new_ClassAdLogParser new_ClassAdLogProber None true)) as (it0&E0&Hi&Hs); [done|].
  exists it0. cut (exists it, steps files it0 = Ret tt it /\ idle it /\ is_Some (m_current it)).
  { intros (it&E&[_ _ Hc]&[e He]). rewrite He in Hc. by exists it, e. }
  clear E0. revert it0 Hi Hs. induction files as [|[f held] files IH]; intros it0 Hi Hs; [by exists it0|].
  cbn [steps]. destruct (Next_idle f held it0 Hi) as (it1&E1&Hi1&Hs1). unfold rbind. rewrite E1. by apply IH.
Qed.

(** ** A log and its readers *)
Module Sample.
Definition header (n : Z) : LogRecord := LogHistoricalSequenceNumber n 1700000000.
Definition new_job : LogRecord := LogNewClassAd "1.0" "Job".
Definition owner : LogRecord := LogSetAttribute "1.0" "Owner" "somebody" false.
Definition gone : LogRecord := LogDestroyClassAd "1.0".
(** In the middle of the write of an attribute, then with the rest of it, then rotated. *)
Definition torn_log : LogFile := mk_LogFile [header 1; new_job] (txt "103 1.0 Ow").
Definition grown_log : LogFile := mk_LogFile [header 1; new_job; owner] [].
Definition rotated_log : LogFile := mk_LogFile [header 2; new_job; owner; gone] [].
(** A consumer that keeps what it is told. *)
Definition recorder : ClassAdLogConsumer (list string) := {|
  Reset := fun _ => [];
  NewClassAd := fun key _ _ c => (c ++ ["new " ++ key]%string, true);
  DestroyClassAd := fun key c => (c ++ ["gone " ++ key]%string, true);
  SetAttribute := fun key name value c => (c ++ ["set " ++ key ++ " " ++ name ++ " " ++ value]%string, true);
  DeleteAttribute := fun key name c => (c ++ ["unset " ++ key ++ " " ++ name]%string, true)
|}.
End Sample.

Lemma sample_history : log_history [(Sample.torn_log, 1, 10); (Sample.grown_log, 1, 20); (Sample.rotated_log, 2, 30)].
Proof.
  assert (Hword : forall s, forallb (plain isspace) (txt s) = true -> s <> ""%string -> word s) by (intros s Hs Hne; exact (conj Hne Hs)).
  assert (Hplain : forall n, 1 <= n < two63 -> Forall plain_record [Sample.header n; Sample.new_job; Sample.owner; Sample.gone]).
  { intros n Hn. unfold two63 in Hn. repeat (apply Forall_cons_2; [|]); [|..|apply Forall_nil_2];
      repeat split; try (apply Hword; [vm_compute; reflexivity|discriminate]); try (unfold two64; lia); try discriminate;
      right; split; [apply Hword; [vm_compute; reflexivity|discriminate]|discriminate]. }
  assert (Hnum : forall n, n = 1 \/ n = 2 -> 1 <= n < two63) by (intros n Hn; unfold two63; lia).
  assert (Htorn : torn_part (txt "103 1.0 Ow")).
  { right. exists Sample.owner, (txt "ner somebody" ++ [newline]). split; [|split; [exact I|split; [vm_compute; reflexivity|discriminate]]].
    pose proof (Hplain 1 (Hnum 1 (or_introl eq_refl))) as Hp. inversion_clear Hp as [|? ? _ Hp']. inversion_clear Hp' as [|? ? _ Hp]. by inversion_clear Hp. }
  pose proof (Hplain 1 (Hnum 1 (or_introl eq_refl))) as H1. pose proof (Hplain 2 (Hnum 2 (or_intror eq_refl))) as H2.
  apply (history_more [(Sample.torn_log, 1, 10)] Sample.grown_log 1 20); [apply (history_more [] Sample.torn_log 1 10)| |].
  - apply history_one. split; [by do 2 eexists|auto|apply (Forall_take _ 2) in H1; exact H1|exact Htorn].
  - split; [by do 2 eexists|auto|apply (Forall_take _ 3) in H1; exact H1|by left].
  - left. split; [done|]. exists [Sample.owner], (txt "ner somebody" ++ [newline]). split; [done|vm_compute; reflexivity].
  - split; [by do 2 eexists|auto|exact H2|by left].
  - right. split; [done|simpl; lia].
Qed.

Lemma Poll_mirrors_witness :
  let h := [(Sample.torn_log, 1, 10); (Sample.grown_log, 1, 20)] in
  (log_history (h ++ [(Sample.rotated_log, 2, 30)]) /\
   forall L (n mtime : Z), (L, n, mtime) ∈ h ++ [(Sample.rotated_log, 2, 30)] -> is_Some (tell_all (H := Sample.recorder) (records L) [])) /\
  exists r, polls (H := Sample.recorder) (poll_files (h ++ [(Sample.rotated_log, 2, 30)])) (new_ClassAdLogReader ["old"%string]) =
      Ret [POLL_SUCCESS; POLL_SUCCESS; POLL_SUCCESS] r /\
    m_consumer r = ["new 1.0"; "set 1.0 Owner somebody"; "gone 1.0"]%string.
Proof.
  intros h.
  assert (Hc : forall L (n mtime : Z), (L, n, mtime) ∈ h ++ [(Sample.rotated_log, 2, 30)] -> is_Some (tell_all (H := Sample.recorder) (records L) [])).
  { intros L n mtime Hin. repeat (apply elem_of_cons in Hin as [[= -> -> ->]|Hin]); [by eexists..|by apply elem_of_nil in Hin]. }
  split; [exact (conj sample_history Hc)|].
  destruct (Poll_mirrors (H := Sample.recorder) ([] : list string) (fun _ => eq_refl) h Sample.rotated_log 2 30 ["old"%string] sample_history Hc) as (r&E&Ht).
  exists r. split; [exact E|]. by injection Ht as <-.
Defined.

(** The work of a log, in two parts. *)
Definition sample_work : list (list log_op * Z) := [(take 4 run_ops, 10); (drop 4 run_ops, 20)].
Definition sample_files : list (text * Z) :=
  match log_files (H := run_data) sample_work run_opened with Ret files _ => files | _ => [] end.
Lemma mirror_is_what_is_loaded_witness :
  exists s content res d,
    (0 <= 1700000000 < two63 /\ Forall (fun w => Forall (op_ok true no_time no_time) w.1) sample_work /\
     log_files (H := run_data) sample_work run_opened = Ret sample_files s /\ last sample_files = Some (content, 20) /\
     LoadClassAdLog (H := run_data) true no_time no_time true 1700000001 content new_AdTable = Ret (Some res) d) /\
    exists r, polls (H := mirror_consumer (H := run_data) new_AdTable) (Some <$> sample_files)
        (new_ClassAdLogReader new_AdTable) = Ret [POLL_SUCCESS; POLL_SUCCESS] r /\ m_consumer r = d.
Proof.
  assert (Hnow : 0 <= 1700000000 < two63) by (unfold two63; lia).
  assert (Hops : Forall (fun w => Forall (op_ok true no_time no_time) w.1) sample_work).
  { apply Forall_cons_2; [exact (Forall_take _ 4 _ run_ops_ok)|]. apply Forall_cons_2; [exact (Forall_drop _ 4 _ run_ops_ok)|]. apply Forall_nil_2. }
  assert (Hfiles : exists s, log_files (H := run_data) sample_work run_opened = Ret sample_files s) by (eexists; vm_compute; reflexivity).
  assert (Hlast : exists content, last sample_files = Some (content, 20)) by (eexists; vm_compute; reflexivity).
  destruct Hfiles as [s Hfiles], Hlast as [content Hlast].
  assert (Hload : exists res d, LoadClassAdLog (H := run_data) true no_time no_time true 1700000001 content new_AdTable = Ret (Some res) d).
  { assert (E : content = match last sample_files with Some x => x.1 | None => [] end) by (by rewrite Hlast). rewrite E.
    do 2 eexists. vm_compute. reflexivity. }
  destruct Hload as (res&d&Hload). exists s, content, res, d. split; [exact (conj Hnow (conj Hops (conj Hfiles (conj Hlast Hload))))|].
  exact (mirror_is_what_is_loaded true no_time no_time true (H := run_data) new_AdTable 1700000000 1700000001 sample_work s
    sample_files content 20 new_AdTable res d Hnow Hops Hfiles Hlast Hload).
Defined.

(** ** Corners *)

(** A log that is rotated to its first record alone: the reader takes the place of the last
    entry of the old log for one of the new, reads in the middle of a record once the log
    has grown that far, and gives up with an error, poll after poll. *)
Definition attribute (value : string) : LogRecord := LogSetAttribute "1.0" "Arguments" value false.
Definition short_rotation : list (option (text * Z)) :=
  (fun rs => Some (records_text rs, 0)) <$>
  [[Sample.header 1; Sample.new_job; Sample.owner]; [Sample.header 2]; [Sample.header 2; attribute "x 105 y"; Sample.new_job];
   [Sample.header 2; attribute "x 105 y"; Sample.new_job; Sample.owner]].
Lemma short_rotation_is_lost :
  match polls (H := Sample.recorder) short_rotation (new_ClassAdLogReader []) with
  | Ret ress r => ress = [POLL_SUCCESS; POLL_SUCCESS; POLL_ERROR; POLL_ERROR] /\ m_consumer r = []
  | _ => False
  end.
Proof. vm_compute. split; reflexivity. Qed.

(** A comment of which only a part is written: the rest is taken for a record when it comes,
    the poll says that it succeeded, and what follows is only told two polls later. *)
Definition comment_text : text := records_text [Sample.header 1; LogBeginTransaction; Sample.new_job; LogEndTransaction (Some "submit"%string)].
Definition torn_comment (later : nat) : list (option (text * Z)) :=
  (fun s => Some (s, 0)) <$> take (length comment_text - 4) comment_text :: replicate later (comment_text ++ record_text Sample.owner).
Lemma torn_comment_delays :
  match polls (H := Sample.recorder) (torn_comment 2) (new_ClassAdLogReader []) with
  | Ret ress r => ress = replicate 3 POLL_SUCCESS /\ m_consumer r = ["new 1.0"%string]
  | _ => False
  end /\
  match polls (H := Sample.recorder) (torn_comment 3) (new_ClassAdLogReader []) with
  | Ret ress r => ress = replicate 4 POLL_SUCCESS /\ m_consumer r = ["new 1.0"; "set 1.0 Owner somebody"]%string
  | _ => False
  end.
Proof. vm_compute. repeat split; reflexivity. Qed.
