(* ===== verification/UserPolicy.v ===== *)
(** * The policy of a job ([user_job_policy.cpp], [user_job_policy.h])

    [UserPolicy] decides from the ClassAd of a job, its state and the configuration whether
    the job is to be held, released, removed or vacated, and explains why. The lists of
    policies of the configuration are those of ENABLE_JOB_POLICY_LISTS, which the header
    defines. [param] is the configuration, [now] what [time] returns. *)
From Stdlib Require Import ZArith Lia Ascii String SpecFloat.
From stdpp Require Import base list gmap strings.
From S2P Require Import Prelude Double Numerals Tree Values Lexer FlatMap AdStore Eval Parser Unparser ClassAdLog.
Open Scope res_scope.

(** ** Texts *)

(** [StringTokenIterator] with its default delimiters: the tokens of a text, trimmed. *)
Definition is_delim (c : ascii) : bool := existsb (Ascii.eqb c) [","; " "; "009"; "013"; "010"]%char.
Fixpoint drop_while (p : ascii -> bool) (s : text) : text :=
  match s with c :: s' => if p c then drop_while p s' else s | [] => [] end.
Fixpoint split_while (p : ascii -> bool) (s : text) : text * text :=
  match s with
  | c :: s' => if p c then let '(w, r) := split_while p s' in (c :: w, r) else ([], s)
  | [] => ([], [])
  end.
Fixpoint tokens_loop (fuel : nat) (s : text) : list string :=
  match fuel with
  | O => []
  | S fuel' =>
      match drop_while (fun c => is_delim c || isspace c) s with
      | [] => []
      | s1 => let '(w, rest) := split_while (fun c => negb (is_delim c)) s1 in
              of_text (rev (drop_while isspace (rev w))) :: tokens_loop fuel' rest
      end
  end.
Definition StringTokens (s : string) : list string := tokens_loop (S (String.length s)) (txt s).

Definition contains_anycase (l : list string) (str : string) : bool :=
  existsb (fun item => if decide (strcasecmp item str = Eq) then true else false) l.

(** [format_time] of an [int], and without what is zero in front. *)
Definition pad3 (s : text) : text := replicate (3 - length s) " "%char ++ s.
Definition format_time (tot_secs : Z) : text :=
  if tot_secs <? 0 then txt "[?????]"
  else pad3 (digits (tot_secs / 86400)) ++ "+"%char :: two_digits (tot_secs mod 86400 / 3600) ++
       ":"%char :: two_digits (tot_secs mod 3600 / 60) ++ ":"%char :: two_digits (tot_secs mod 60).
Definition format_time_short (tot_secs : Z) : string :=
  let time := drop_while (fun c => existsb (Ascii.eqb c) [" "; "0"; "+"]%char) (format_time tot_secs) in
  of_text match time with c :: time' => if Ascii.eqb c ":" then time' else time | [] => [] end.

(** ** Data *)
Definition REMOVED : Z := 3.
Definition RUNNING : Z := 2.
Definition COMPLETED : Z := 4.
Definition HELD : Z := 5.
Definition SUSPENDED : Z := 7.

Inductive PolicyMode := PERIODIC_ONLY | PERIODIC_THEN_EXIT | OTHER_MODE.
Inductive PolicyAction :=
| STAYS_IN_QUEUE | REMOVE_FROM_QUEUE | HOLD_IN_QUEUE | UNDEFINED_EVAL | RELEASE_FROM_HOLD | VACATE_FROM_RUNNING.
Inductive FireSource := FS_NotYet | FS_JobAttribute | FS_JobDuration | FS_ExecuteDuration | FS_SystemMacro.
Inductive SysPolicyId :=
| POLICY_NONE | POLICY_SYSTEM_PERIODIC_HOLD | POLICY_SYSTEM_PERIODIC_RELEASE | POLICY_SYSTEM_PERIODIC_REMOVE
| POLICY_SYSTEM_PERIODIC_VACATE.
#[export] Instance PolicyAction_dec : EqDecision PolicyAction.
Proof. solve_decision. Defined.
#[export] Instance PolicyMode_dec : EqDecision PolicyMode.
Proof. solve_decision. Defined.

(** [CONDOR_HOLD_CODE] *)
Definition UserRequest : Z := 1.
Definition JobPolicy : Z := 3.
Definition JobPolicyUndefined : Z := 5.
Definition SystemPolicy : Z := 26.
Definition SystemPolicyUndefined : Z := 27.
Definition JobDurationExceeded : Z := 46.
Definition JobExecuteExceeded : Z := 47.

(** [JobPolicyExpr], with the two forms its [ConstraintHolder] has. *)
Record JobPolicyExpr := mk_JobPolicyExpr { expr : option ExprTree; exprstr : option string; tag : string }.
Definition new_JobPolicyExpr (name : string) : JobPolicyExpr := mk_JobPolicyExpr None None name.
Definition ch_empty (p : JobPolicyExpr) : bool :=
  match expr p with
  | Some _ => false
  | None => match exprstr p with Some s => String.eqb s "" | None => true end
  end.
Definition append_tag (p : JobPolicyExpr) (knob : string) : string :=
  if String.eqb (tag p) "" then knob else (knob ++ "_" ++ tag p)%string.

Record UserPolicy := mk_UserPolicy {
  m_fire_source : FireSource;
  m_fire_subcode : Z;
  m_fire_expr_val : Z;
  m_fire_expr : option string;
  m_fire_reason : string;
  m_fire_unparsed_expr : string;
  m_sys_periodic_holds : list JobPolicyExpr;
  m_sys_periodic_releases : list JobPolicyExpr;
  m_sys_periodic_removes : list JobPolicyExpr;
  m_sys_periodic_vacates : list JobPolicyExpr
}.
Definition new_UserPolicy : UserPolicy := mk_UserPolicy FS_NotYet 0 (-1) None "" "" [] [] [] [].

(** Assignments to the members that say what fired, and to the lists. *)
Definition set_fire (source : FireSource) (subcode val : Z) (fe : option string) (reason unparsed : string)
    (p : UserPolicy) : UserPolicy :=
  mk_UserPolicy source subcode val fe reason unparsed (m_sys_periodic_holds p) (m_sys_periodic_releases p)
    (m_sys_periodic_removes p) (m_sys_periodic_vacates p).
Definition set_source x p := set_fire x (m_fire_subcode p) (m_fire_expr_val p) (m_fire_expr p) (m_fire_reason p) (m_fire_unparsed_expr p) p.
Definition set_subcode x p := set_fire (m_fire_source p) x (m_fire_expr_val p) (m_fire_expr p) (m_fire_reason p) (m_fire_unparsed_expr p) p.
Definition set_expr_val x p := set_fire (m_fire_source p) (m_fire_subcode p) x (m_fire_expr p) (m_fire_reason p) (m_fire_unparsed_expr p) p.
Definition set_fire_expr x p := set_fire (m_fire_source p) (m_fire_subcode p) (m_fire_expr_val p) x (m_fire_reason p) (m_fire_unparsed_expr p) p.
Definition set_reason x p := set_fire (m_fire_source p) (m_fire_subcode p) (m_fire_expr_val p) (m_fire_expr p) x (m_fire_unparsed_expr p) p.
Definition set_unparsed x p := set_fire (m_fire_source p) (m_fire_subcode p) (m_fire_expr_val p) (m_fire_expr p) (m_fire_reason p) x p.
Definition set_lists holds releases removes vacates (p : UserPolicy) : UserPolicy :=
  mk_UserPolicy (m_fire_source p) (m_fire_subcode p) (m_fire_expr_val p) (m_fire_expr p) (m_fire_reason p)
    (m_fire_unparsed_expr p) holds releases removes vacates.

Definition ResetTriggers (p : UserPolicy) : UserPolicy :=
  set_fire FS_NotYet (m_fire_subcode p) (-1) None (m_fire_reason p) (m_fire_unparsed_expr p) p.
(** The vacates are not cleared. *)
Definition ClearConfig (p : UserPolicy) : UserPolicy := set_lists [] [] [] (m_sys_periodic_vacates p) p.

(** ** Literals *)

(** [ExprTreeIsLiteral] and [ExprTreeIsLiteralBool]: a literal in any number of parentheses. *)
Fixpoint ExprTreeIsLiteral (e : ExprTree) : option Value :=
  match e with
  | OperationParens _ e' => ExprTreeIsLiteral e'
  | Operation1 _ _ _ | Operation2 _ _ _ _ | Operation3 _ _ _ _ => None
  | _ => literal_Evaluate e
  end.
Definition ExprTreeIsLiteralBool (e : ExprTree) : option bool :=
  v ← ExprTreeIsLiteral e; ival ← IsNumber_longlong v; Some (negb (ival =? 0)).

Section policy.
Variable oldSemantics : bool.
Variable functionTable : string -> option ClassAdFunc.
Variables MakeAbsTime MakeRelTime : string -> option ExprTree.
Variable absTimeToString : abstime_t -> text.
Variable relTimeToString : double -> text.
(** Fuel of the evaluations. *)
Variable n : nat.
Variable param : string -> option string.

Abbreviation ExprTreeToString := (ExprTreeToString absTimeToString relTimeToString).

(** [ParseClassAdRvalExpr], and [ParseExpression] of a parser as it is constructed. *)
Definition ParseClassAdRvalExpr (s : string) (h : heap) : Res heap (option ExprTree) :=
  match ParseExpression oldSemantics true MakeAbsTime MakeRelTime (parse_fuel s) h new_Lexer s true with
  | Ret tree (h', _) => Ret tree h'
  | NoFuel => NoFuel
  | Except => Except
  end.
Definition ParseExpression_new (s : string) (h : heap) : Res heap (option ExprTree) :=
  match ParseExpression oldSemantics false MakeAbsTime MakeRelTime (parse_fuel s) h new_Lexer s false with
  | Ret tree (h', _) => Ret tree h'
  | NoFuel => NoFuel
  | Except => Except
  end.

(** ** Configuration *)

(** [Expr]: the tree, parsed when it is asked for, and whether that failed. *)
Definition Expr (p : JobPolicyExpr) (h : heap) : Res heap (JobPolicyExpr * bool) :=
  match expr p, exprstr p with
  | None, Some s =>
      if String.eqb s "" then Ret (p, false) h
      else (let! tree := ParseClassAdRvalExpr s in
            rret (mk_JobPolicyExpr tree (exprstr p) (tag p), match tree with Some _ => false | None => true end)) h
  | _, _ => Ret (p, false) h
  end.
Definition Str (p : JobPolicyExpr) (h : heap) : string :=
  match exprstr p, expr p with
  | Some s, e => if String.eqb s "" then match e with Some e => ExprTreeToString h e | None => s end else s
  | None, Some e => ExprTreeToString h e
  | None, None => ""
  end.
Definition set_from_config (knob : string) (p : JobPolicyExpr) : JobPolicyExpr :=
  match param knob with
  | Some s => mk_JobPolicyExpr None (Some s) (tag p)
  | None => p
  end.
Definition is_trivial (p : JobPolicyExpr) (h : heap) : Res heap (JobPolicyExpr * bool) :=
  if ch_empty p then Ret (p, true) h
  else (let! (p', _) := Expr p in
        rret (p', match e ← expr p'; ExprTreeIsLiteralBool e with
                  | Some value => negb value
                  | None => false
                  end)) h.
(** The copy in the vector: the tree if there is one, else the string. *)
Definition copy_policy (p : JobPolicyExpr) (h : heap) : Res heap JobPolicyExpr :=
  match expr p with
  | Some e => match CopyTree h e with
              | Some (h', e') => Ret (mk_JobPolicyExpr (Some e') None (tag p)) h'
              | None => NoFuel
              end
  | None => Ret p h
  end.

(** [param_and_insert_unique_items] into an empty vector. *)
Definition unique_items (param_name : string) : list string :=
  match param param_name with
  | Some value => foldl (fun items item => if contains_anycase items item then items else items ++ [item]) [] (StringTokens value)
  | None => []
  end.

Fixpoint load_tags (knob_base : string) (items : list string) (policies : list JobPolicyExpr)
    : heap -> Res heap (list JobPolicyExpr) :=
  match items with
  | [] => rret policies
  | t :: items' =>
      if decide (strcasecmp "NAMES" t = Eq) then load_tags knob_base items' policies
      else
        let policy := new_JobPolicyExpr t in
        let policy := set_from_config (append_tag policy knob_base) policy in
        let! (policy, parse_err) := Expr policy in
        if (parse_err : bool) then load_tags knob_base items' policies
        else
          let! (policy, trivial) := is_trivial policy in
          if (trivial : bool) then load_tags knob_base items' policies
          else let! copy := copy_policy policy in load_tags knob_base items' (policies ++ [copy])
  end.
Definition load_policy_list (knob_base : string) (policies : list JobPolicyExpr) : heap -> Res heap (list JobPolicyExpr) :=
  let! policies := load_tags knob_base (unique_items (knob_base ++ "_NAMES")) policies in
  let! (old_policy, trivial) := is_trivial (set_from_config knob_base (new_JobPolicyExpr "")) in
  if (trivial : bool) then rret policies
  else let! copy := copy_policy old_policy in rret (policies ++ [copy]).

Definition PARAM_SYSTEM_PERIODIC_REMOVE : string := "SYSTEM_PERIODIC_REMOVE".
Definition PARAM_SYSTEM_PERIODIC_RELEASE : string := "SYSTEM_PERIODIC_RELEASE".
Definition PARAM_SYSTEM_PERIODIC_HOLD : string := "SYSTEM_PERIODIC_HOLD".
Definition PARAM_SYSTEM_PERIODIC_VACATE : string := "SYSTEM_PERIODIC_VACATE".

Definition Config (p : UserPolicy) : heap -> Res heap UserPolicy :=
  let p := ClearConfig p in
  let! holds := load_policy_list PARAM_SYSTEM_PERIODIC_HOLD (m_sys_periodic_holds p) in
  let! releases := load_policy_list PARAM_SYSTEM_PERIODIC_RELEASE (m_sys_periodic_releases p) in
  let! removes := load_policy_list PARAM_SYSTEM_PERIODIC_REMOVE (m_sys_periodic_removes p) in
  let! vacates := load_policy_list PARAM_SYSTEM_PERIODIC_VACATE (m_sys_periodic_vacates p) in
  rret (set_lists holds releases removes vacates p).
Definition Init (p : UserPolicy) : heap -> Res heap UserPolicy := Config (ResetTriggers p).

(** ** Analysis

    The state is the store and the object. *)
Abbreviation P A := (heap * UserPolicy -> Res (heap * UserPolicy) A).
Definition modify (f : UserPolicy -> UserPolicy) : P unit := fun st => Ret tt (st.1, f st.2).
Definition get_policy : P UserPolicy := fun st => Ret st.2 st.
Definition on_store {A} (m : heap -> Res heap A) : P A := fun st =>
  match m st.1 with Ret a h => Ret a (h, st.2) | NoFuel => NoFuel | Except => Except end.
(** An evaluation, in an [EvalState] of its own. *)
Definition evaluated {A} (m : M A) : P A := on_store (fun h =>
  match m (h, mk_EvalState 0 None None false) with
  | Ret a (h', _) => Ret a h'
  | NoFuel => NoFuel
  | Except => Except
  end).

Definition LookupInteger (ad : adref) (name : string) : P (option Z) :=
  evaluated (EvaluateAttr_as oldSemantics functionTable n NUMBER_VALUES IsNumber_int ad name).
Definition LookupExpr (ad : adref) (name : string) : P (option ExprTree) :=
  on_store (fun h => match Lookup h ad name with Some o => Ret o h | None => NoFuel end).
Definition EvalExpr (ad : adref) (tree : ExprTree) : P (option Value) :=
  let! (ok, v) := evaluated (EvaluateExpr oldSemantics functionTable n ad tree UNDEFINED_VALUE SAFE_VALUES) in
  rret (if (ok : bool) then Some v else None).
(** [EvaluateExpr] of a text. *)
Definition EvalText (ad : adref) (buf : string) : P (option Value) :=
  let! o := on_store (ParseExpression_new buf) in
  match o with Some tree => EvalExpr ad tree | None => rret None end.
Definition unparsed (tree : ExprTree) : P unit := fun st => Ret tt (st.1, set_unparsed (ExprTreeToString st.1 tree) st.2).

Definition is_true (v : option Value) : bool :=
  match v ≫= IsNumber_longlong with Some ival => negb (ival =? 0) | None => false end.

(** [AnalyzeSinglePeriodicPolicy] of an expression: the action, if it fires. *)
Definition AnalyzeExpr (ad : adref) (tree : ExprTree) (on_true_return : PolicyAction) : P (option PolicyAction) :=
  let! v := EvalExpr ad tree in
  if is_true v then let! _ := modify (set_expr_val 1) in rret (Some on_true_return) else rret None.

(** The subcode and the reason of a policy of the configuration. *)
Definition system_subcode (ad : adref) (knob : string) : P unit :=
  match param knob with
  | None | Some "" => rret tt
  | Some expr_string =>
      let! v := EvalText ad expr_string in
      match v ≫= IsNumber_longlong with
      | Some ival => modify (set_subcode (wrap32 ival))
      | None => rret tt
      end
  end.
Definition system_reason (ad : adref) (knob : string) : P unit :=
  match param knob with
  | None | Some "" => rret tt
  | Some expr_string =>
      let! v := EvalText ad expr_string in
      match v ≫= IsStringValue with
      | Some reason => modify (set_reason reason)
      | None => rret tt
      end
  end.

(** The loop over the policies of the configuration. *)
Fixpoint system_loop (ad : adref) (policy_name : string) (policies : list JobPolicyExpr) (on_true_return : PolicyAction)
    : P (option PolicyAction) :=
  match policies with
  | [] => rret None
  | policy :: policies' =>
      let! (policy, _) := on_store (Expr policy) in
      match expr policy with
      | None => system_loop ad policy_name policies' on_true_return
      | Some e =>
          let! v := EvalExpr ad e in
          if is_true v then
            let! _ := modify (fun p => set_subcode 0 (set_reason "" (set_source FS_SystemMacro
                                         (set_fire_expr (Some policy_name) (set_expr_val 1 p))))) in
            let! _ := (fun st => Ret tt (st.1, set_unparsed (Str policy st.1) st.2)) in
            let! _ := system_subcode ad (append_tag policy policy_name ++ "_SUBCODE") in
            let! _ := system_reason ad (append_tag policy policy_name ++ "_REASON") in
            rret (Some on_true_return)
          else system_loop ad policy_name policies' on_true_return
      end
  end.

(** [AnalyzeSinglePeriodicPolicy]: the attribute of the job, then the configuration. *)
Definition AnalyzeSinglePeriodicPolicy (ad : adref) (attrname : string) (sys_policy : SysPolicyId)
    (on_true_return : PolicyAction) : P (option PolicyAction) :=
  let! _ := modify (set_fire_expr (Some attrname)) in
  let! o := LookupExpr ad attrname in
  let! fired := match o with Some e => AnalyzeExpr ad e on_true_return | None => rret None end in
  match fired, o with
  | Some action, Some e =>
      let! _ := modify (fun p => set_subcode 0 (set_reason "" (set_source FS_JobAttribute p))) in
      let! _ := unparsed e in
      let! p := get_policy in
      if negb (m_fire_expr_val p =? -1) then
        let! subcode := LookupInteger ad (attrname ++ "SubCode") in
        let! _ := modify (fun p => match subcode with Some x => set_subcode x p | None => p end) in
        let! reason := evaluated (EvaluateAttrString oldSemantics functionTable n ad (attrname ++ "Reason")) in
        let! _ := modify (fun p => match reason with Some x => set_reason x p | None => p end) in
        rret (Some action)
      else rret (Some action)
  | _, _ =>
      let! p := get_policy in
      match sys_policy with
      | POLICY_SYSTEM_PERIODIC_HOLD => system_loop ad PARAM_SYSTEM_PERIODIC_HOLD (m_sys_periodic_holds p) on_true_return
      | POLICY_SYSTEM_PERIODIC_RELEASE => system_loop ad PARAM_SYSTEM_PERIODIC_RELEASE (m_sys_periodic_releases p) on_true_return
      | POLICY_SYSTEM_PERIODIC_REMOVE => system_loop ad PARAM_SYSTEM_PERIODIC_REMOVE (m_sys_periodic_removes p) on_true_return
      | _ => rret None
      end
  end.

(** A rule that is tried, and what comes after it if it does not fire. *)
Definition or_else {A} (m : P (option A)) (k : P A) : P A :=
  let! o := m in match o with Some a => rret a | None => k end.

(** The time a job may run, and execute. *)
Definition job_duration (ad : adref) (now : Z) : P (option PolicyAction) :=
  let! allowedJobDuration := LookupInteger ad "AllowedJobDuration" in
  match allowedJobDuration with
  | None => rret None
  | Some allowed =>
      let! birthday := LookupInteger ad "ShadowBday" in
      match birthday with
      | Some birthday =>
          if allowed <=? now - birthday then
            let! _ := modify (fun p => set_reason ("The job exceeded allowed job duration of " ++ format_time_short allowed)
                                         (set_source FS_JobDuration (set_fire_expr (Some "AllowedJobDuration"%string) p))) in
            rret (Some HOLD_IN_QUEUE)
          else rret None
      | None => rret None
      end
  end.
Definition execute_duration (ad : adref) (now : Z) : P (option PolicyAction) :=
  let! allowedExecuteDuration := LookupInteger ad "AllowedExecuteDuration" in
  match allowedExecuteDuration with
  | None => rret None
  | Some allowed =>
      let! beganExecuting := LookupInteger ad "JobCurrentStartExecutingDate" in
      match beganExecuting with
      | None => rret None
      | Some began =>
          let! birthday := LookupInteger ad "ShadowBday" in
          match birthday with
          | Some birthday =>
              if birthday <? began then
                let! TransferOutFinished := LookupInteger ad "TransferOutFinished" in
                let began := match TransferOutFinished with Some t => if began <? t then t else began | None => began end in
                if allowed <? now - began then
                  let! _ := modify (fun p => set_reason ("The job exceeded allowed execute duration of " ++ format_time_short allowed)
                                               (set_source FS_ExecuteDuration (set_fire_expr (Some "AllowedExecuteDuration"%string) p))) in
                  rret (Some HOLD_IN_QUEUE)
                else rret None
              else rret None
          | None => rret None
          end
      end
  end.

(** The removal at a given time. *)
Definition timer_removal (ad : adref) (now : Z) : P (option PolicyAction) :=
  let! _ := modify (set_fire_expr (Some "TimerRemove"%string)) in
  let! timer_remove := LookupInteger ad "TimerRemove" in
  match timer_remove with
  | None =>
      let! e := LookupExpr ad "TimerRemove" in
      match e with
      | Some e =>
          let! _ := modify (fun p => set_source FS_JobAttribute (set_expr_val (-1) p)) in
          let! _ := unparsed e in
          rret (Some UNDEFINED_EVAL)
      | None => rret None
      end
  | Some timer_remove =>
      if (0 <=? timer_remove) && (timer_remove <? now) then
        let! _ := modify (fun p => set_source FS_JobAttribute (set_expr_val 1 p)) in
        let! e := LookupExpr ad "TimerRemove" in
        let! _ := match e with Some e => unparsed e | None => rret tt end in
        rret (Some REMOVE_FROM_QUEUE)
      else rret None
  end.

(** Periodic rules, by the state of the job. *)
Definition running_rules (ad : adref) (mode : PolicyMode) (state now : Z) : P (option PolicyAction) :=
  if (state =? RUNNING) || (state =? SUSPENDED) then
    let! o := job_duration ad now in
    match o with
    | Some a => rret (Some a)
    | None =>
        let! o := execute_duration ad now in
        match o, mode with
        | Some a, _ => rret (Some a)
        | None, PERIODIC_ONLY =>
            AnalyzeSinglePeriodicPolicy ad "PeriodicVacate" POLICY_SYSTEM_PERIODIC_VACATE VACATE_FROM_RUNNING
        | None, _ => rret None
        end
    end
  else rret None.
Definition hold_rule (ad : adref) (state : Z) : P (option PolicyAction) :=
  if negb (state =? HELD) && negb (state =? COMPLETED)
  then AnalyzeSinglePeriodicPolicy ad "PeriodicHold" POLICY_SYSTEM_PERIODIC_HOLD HOLD_IN_QUEUE
  else rret None.
Definition release_rule (ad : adref) (state : Z) : P (option PolicyAction) :=
  if state =? HELD then
    let! hold_code := LookupInteger ad "HoldReasonCode" in
    if negb (default 0 hold_code =? UserRequest)
    then AnalyzeSinglePeriodicPolicy ad "PeriodicRelease" POLICY_SYSTEM_PERIODIC_RELEASE RELEASE_FROM_HOLD
    else rret None
  else rret None.
Definition remove_rule (ad : adref) : P (option PolicyAction) :=
  AnalyzeSinglePeriodicPolicy ad "PeriodicRemove" POLICY_SYSTEM_PERIODIC_REMOVE REMOVE_FROM_QUEUE.

(** What is decided when the job has exited. *)
Definition exit_rules (ad : adref) : P PolicyAction :=
  let! by_signal := LookupExpr ad "ExitBySignal" in
  match by_signal with
  | None => rret UNDEFINED_EVAL
  | Some _ =>
      let! code := LookupExpr ad "ExitCode" in
      let! signal := LookupExpr ad "ExitSignal" in
      match code, signal with
      | None, None => rret UNDEFINED_EVAL
      | _, _ =>
          or_else (AnalyzeSinglePeriodicPolicy ad "OnExitHold" POLICY_NONE HOLD_IN_QUEUE)
            (let! _ := modify (fun p => set_subcode 0 (set_reason "" (set_source FS_JobAttribute
                                          (set_fire_expr (Some "OnExitRemove"%string) p)))) in
             let! e := LookupExpr ad "OnExitRemove" in
             let! stays :=
               match e with
               | None => rret false
               | Some e =>
                   let! v := EvalExpr ad e in
                   match v ≫= IsNumber_int with
                   | Some val =>
                       let! _ := modify (set_expr_val val) in
                       if val =? 0 then let! _ := unparsed e in rret true else rret false
                   | None => rret false
                   end
               end in
             if (stays : bool) then rret STAYS_IN_QUEUE
             else let! _ := modify (set_expr_val 1) in rret REMOVE_FROM_QUEUE)
      end
  end.

(** [AnalyzePolicy]; a negative state is looked up. *)
Definition AnalyzePolicy (ad : adref) (mode : PolicyMode) (state0 now : Z) : P PolicyAction :=
  match mode with
  | OTHER_MODE => rret UNDEFINED_EVAL
  | _ =>
      let! looked_up := if state0 <? 0 then LookupInteger ad "JobStatus" else rret (Some state0) in
      match looked_up with
      | None => rret UNDEFINED_EVAL
      | Some state =>
          let! _ := modify (fun p => set_unparsed "" (set_expr_val (-1) (set_fire_expr None p))) in
          if state =? REMOVED then
            match mode with
            | PERIODIC_ONLY => rret STAYS_IN_QUEUE
            | _ =>
                let! _ := modify (fun p => set_unparsed "true" (set_reason "" (set_source FS_JobAttribute
                                             (set_fire_expr (Some "OnExitRemove"%string) (set_expr_val 1 p))))) in
                rret REMOVE_FROM_QUEUE
            end
          else
            or_else (running_rules ad mode state now)
            (or_else (timer_removal ad now)
            (or_else (hold_rule ad state)
            (or_else (release_rule ad state)
            (or_else (remove_rule ad)
            match mode with
            | PERIODIC_ONLY => let! _ := modify (set_fire_expr None) in rret STAYS_IN_QUEUE
            | _ => exit_rules ad
            end))))
      end
  end.
End policy.

(** ** Explaining the decision *)
Definition FiringExpression (p : UserPolicy) : option string := m_fire_expr p.
Definition FiringExpressionValue (p : UserPolicy) : Z := m_fire_expr_val p.

(** The code, the subcode, the reason, and what to say without one. *)
Definition firing_parts (p : UserPolicy) : Z * Z * string * (string * string) :=
  match m_fire_source p with
  | FS_NotYet => (0, 0, ""%string, ("UNKNOWN (never set)"%string, ""%string))
  | FS_JobAttribute =>
      if m_fire_expr_val p =? -1 then (JobPolicyUndefined, 0, ""%string, ("job attribute"%string, c_str (m_fire_unparsed_expr p)))
      else (JobPolicy, m_fire_subcode p, m_fire_reason p, ("job attribute"%string, c_str (m_fire_unparsed_expr p)))
  | FS_JobDuration => (JobDurationExceeded, 0, m_fire_reason p, ("UNKNOWN (never set)"%string, ""%string))
  | FS_ExecuteDuration => (JobExecuteExceeded, 0, m_fire_reason p, ("UNKNOWN (never set)"%string, ""%string))
  | FS_SystemMacro =>
      if m_fire_expr_val p =? -1 then (SystemPolicyUndefined, 0, ""%string, ("system macro"%string, c_str (m_fire_unparsed_expr p)))
      else (SystemPolicy, m_fire_subcode p, m_fire_reason p, ("system macro"%string, c_str (m_fire_unparsed_expr p)))
  end.

(** [FiringReason]: the reason and its codes; none when nothing fired. *)
Definition FiringReason (p : UserPolicy) : Res UserPolicy (option (string * Z * Z)) :=
  match m_fire_expr p with
  | None => Ret None p
  | Some fire_expr =>
      let '(code, subcode, reason, (expr_src, exprString)) := firing_parts p in
      if negb (String.eqb reason "") then Ret (Some (reason, code, subcode)) p
      else
        let text := ("The " ++ expr_src ++ " " ++ fire_expr ++ " expression '" ++ exprString ++ "' evaluated to ")%string in
        if m_fire_expr_val p =? 0 then Ret (Some ((text ++ "FALSE")%string, code, subcode)) p
        else if m_fire_expr_val p =? 1 then Ret (Some ((text ++ "TRUE")%string, code, subcode)) p
        else if m_fire_expr_val p =? -1 then Ret (Some ((text ++ "UNDEFINED")%string, code, subcode)) p
        else Except
  end.
