(* ===== verification/UserPolicyLaws.v ===== *)
(** * What the policy of a job decides

    The actions fit the state of the job, every action is explained, and the decision is that
    of an ordered list of rules. The first two are shown with triples: what holds of the
    result and of the object after a computation. *)
From Stdlib Require Import ZArith Lia Ascii String SpecFloat.
From stdpp Require Import base list gmap strings.
From S2P Require Import Prelude Double Numerals Tree Values Lexer FlatMap AdStore Eval Parser Unparser ClassAdLog UserPolicy.
Open Scope res_scope.

Abbreviation P A := (heap * UserPolicy -> Res (heap * UserPolicy) A).

(** ** Triples *)
Definition triple {A} (I : UserPolicy -> Prop) (m : P A) (Q : A -> UserPolicy -> Prop) : Prop :=
  forall h p a h' p', I p -> m (h, p) = Ret a (h', p') -> Q a p'.

Lemma triple_ret {A} (I : UserPolicy -> Prop) (a : A) (Q : A -> UserPolicy -> Prop) :
  (forall p, I p -> Q a p) -> triple I (rret a) Q.
Proof. intros H h p a' h' p' Hp [= <- <- <-]. auto. Qed.
Lemma triple_bind {A B} I (m : P A) (k : A -> P B) R Q :
  triple I m R -> (forall a, triple (R a) (k a) Q) -> triple I (let! a := m in k a) Q.
Proof.
  intros Hm Hk h p b h' p' Hp. unfold rbind. destruct (m (h, p)) as [a [h1 p1]| |] eqn:E; [|done..].
  intros E2. by apply (Hk a h1 p1 b h' p'); [apply (Hm h p a h1 p1)|].
Qed.
Lemma triple_modify (I : UserPolicy -> Prop) f (Q : unit -> UserPolicy -> Prop) :
  (forall p, I p -> Q tt (f p)) -> triple I (modify f) Q.
Proof. intros H h p [] h' p' Hp [= <- <-]. auto. Qed.
(** A computation on the store leaves the object alone. *)
Lemma triple_store {A} (I : UserPolicy -> Prop) (m : heap -> Res heap A) : triple I (on_store m) (fun _ => I).
Proof. intros h p a h' p' Hp. unfold on_store. simpl. by destruct (m h); intros [= <- <- <-]. Qed.
Lemma triple_weaken {A} (I J : UserPolicy -> Prop) (m : P A) (Q R : A -> UserPolicy -> Prop) :
  triple J m R -> (forall p, I p -> J p) -> (forall a p, R a p -> Q a p) -> triple I m Q.
Proof. intros Hm HI HQ h p a h' p' Hp E. eapply HQ, Hm; eauto. Qed.
Lemma triple_case {A} (b : bool) I (m1 m2 : P A) Q :
  (b = true -> triple I m1 Q) -> (b = false -> triple I m2 Q) -> triple I (if b then m1 else m2) Q.
Proof. destruct b; auto. Qed.
Lemma triple_or_else {A} I (m : P (option A)) (k : P A) (Q : A -> UserPolicy -> Prop) R :
  triple I m (fun o p => match o with Some a => Q a p | None => R p end) -> triple R k Q -> triple I (or_else m k) Q.
Proof.
  intros Hm Hk. eapply triple_bind; [exact Hm|]. intros [a|]; [by apply triple_ret|done].
Qed.

(** What every step keeps of the value of the expression that fired, and what is there once
    one has. *)
Definition val_ok (p : UserPolicy) : Prop := m_fire_expr_val p = -1 \/ m_fire_expr_val p = 0 \/ m_fire_expr_val p = 1.
Definition fired (p : UserPolicy) : Prop := val_ok p /\ is_Some (m_fire_expr p) /\ m_fire_source p <> FS_NotYet.
(** The texts that explain it do not matter. *)
Definition indifferent (I : UserPolicy -> Prop) : Prop :=
  forall subcode reason unparsed p, I p ->
    I (set_fire (m_fire_source p) subcode (m_fire_expr_val p) (m_fire_expr p) reason unparsed p).
Lemma val_ok_indifferent : indifferent val_ok.
Proof. by intros ????. Qed.
Lemma fired_indifferent : indifferent fired.
Proof. by intros ????. Qed.

(** Such an object can always be explained, and if an expression fired there is something to
    say. *)
Lemma FiringReason_returns p : val_ok p -> exists o, FiringReason p = Ret o p.
Proof.
  intros Hv. unfold FiringReason. destruct (m_fire_expr p); [|by eexists].
  destruct (firing_parts p) as [[[code subcode] reason] [src text]]. destruct (negb _); [by eexists|].
  destruct Hv as [->|[->| ->]]; by eexists.
Qed.
Lemma FiringReason_fired p o : fired p -> FiringReason p = Ret o p ->
  exists reason code subcode, o = Some (reason, code, subcode) /\ reason <> ""%string /\ 0 < code.
Proof.
  intros (Hv&[e He]&Hs). unfold FiringReason. rewrite He.
  assert (Hc : 0 < (firing_parts p).1.1.1).
  { unfold firing_parts. destruct (m_fire_source p); [done|..]; try (destruct (m_fire_expr_val p =? -1)); done. }
  destruct (firing_parts p) as [[[code subcode] reason] [src text]].
  destruct (String.eqb_spec reason "") as [->|Hr]; cbn [negb].
  - destruct Hv as [->|[->| ->]]; intros [= <-]; (do 3 eexists; split; [done|split; [done|exact Hc]]).
  - intros [= <-]. do 3 eexists. split; [done|split; [done|exact Hc]].
Qed.

Section laws.
Variable oldSemantics : bool.
Variable functionTable : string -> option ClassAdFunc.
Variables MakeAbsTime MakeRelTime : string -> option ExprTree.
Variable absTimeToString : abstime_t -> text.
Variable relTimeToString : double -> text.
Variable n : nat.
Variable param : string -> option string.

Abbreviation LookupInteger := (LookupInteger oldSemantics functionTable n).
Abbreviation EvalExpr := (EvalExpr oldSemantics functionTable n).
Abbreviation EvalText := (EvalText oldSemantics functionTable MakeAbsTime MakeRelTime n).
Abbreviation unparsed := (unparsed absTimeToString relTimeToString).
Abbreviation AnalyzeSinglePeriodicPolicy := (AnalyzeSinglePeriodicPolicy oldSemantics functionTable MakeAbsTime MakeRelTime absTimeToString relTimeToString n param).
Abbreviation system_loop := (system_loop oldSemantics functionTable MakeAbsTime MakeRelTime absTimeToString relTimeToString n param).
Abbreviation AnalyzePolicy := (AnalyzePolicy oldSemantics functionTable MakeAbsTime MakeRelTime absTimeToString relTimeToString n param).

Lemma triple_unparsed I e : indifferent I -> triple I (unparsed e) (fun _ => I).
Proof. intros HI h p [] h' p' Hp [= <- <-]. by apply (HI (m_fire_subcode p) (m_fire_reason p)). Qed.
Lemma triple_EvalExpr I ad e : triple I (EvalExpr ad e) (fun _ => I).
Proof. eapply triple_bind; [apply triple_store|]. intros [ok v]. apply triple_ret. auto. Qed.
Lemma triple_EvalText I ad s : triple I (EvalText ad s) (fun _ => I).
Proof.
  eapply triple_bind; [apply triple_store|]. intros [e|]; [apply triple_EvalExpr|apply triple_ret; auto].
Qed.
Lemma triple_texts I ad knob : indifferent I ->
  triple I (system_subcode oldSemantics functionTable MakeAbsTime MakeRelTime n param ad knob) (fun _ => I) /\
  triple I (system_reason oldSemantics functionTable MakeAbsTime MakeRelTime n param ad knob) (fun _ => I).
Proof.
  intros HI. assert (Hret : triple I (rret tt) (fun _ => I)) by (by apply triple_ret).
  unfold system_subcode, system_reason. destruct (param knob) as [[|c s]|]; [done| |done].
  split; (eapply triple_bind; [apply triple_EvalText|]); intros v.
  - destruct (v ≫= IsNumber_longlong) as [i|]; [|done]. apply triple_modify. intros p. apply (HI _ (m_fire_reason p)).
  - destruct (v ≫= IsStringValue) as [r|]; [|done]. apply triple_modify. intros p. apply (HI (m_fire_subcode p)).
Qed.

Lemma triple_system ad name l on : triple val_ok (system_loop ad name l on)
  (fun o p => val_ok p /\ match o with Some a => a = on /\ fired p | None => True end).
Proof.
  induction l as [|q l IH]; [by apply triple_ret|]. cbn [UserPolicy.system_loop].
  eapply triple_bind; [apply triple_store|]. intros [q' ?]. destruct (expr q') as [e|]; [|done].
  eapply triple_bind; [apply triple_EvalExpr|]. intros v. apply triple_case; intros _; [|done].
  eapply (triple_bind _ _ _ (fun _ => fired)).
  { apply triple_modify. intros p _. split_and!; [by right; right|by eexists|done]. }
  intros _. eapply (triple_bind _ _ _ (fun _ => fired)).
  { intros h p [] h' p' Hp [= <- <-]. by apply (fired_indifferent (m_fire_subcode p) (m_fire_reason p)). }
  intros _. eapply triple_bind; [apply (triple_texts fired), fired_indifferent|]. intros [].
  eapply triple_bind; [apply (triple_texts fired), fired_indifferent|]. intros [].
  apply triple_ret. intros p Hp. by split; [apply Hp|].
Qed.

Lemma triple_single ad attr sys on : triple val_ok (AnalyzeSinglePeriodicPolicy ad attr sys on)
  (fun o p => val_ok p /\ match o with Some a => a = on /\ fired p | None => True end).
Proof.
  unfold UserPolicy.AnalyzeSinglePeriodicPolicy.
  eapply (triple_bind _ _ _ (fun _ p => val_ok p /\ is_Some (m_fire_expr p))).
  { apply triple_modify. intros p Hp. by split; [|eexists]. }
  intros _. eapply triple_bind; [apply triple_store|]. intros o.
  eapply (triple_bind _ _ _ (fun f p => match f with
     | Some a => a = on /\ val_ok p /\ is_Some (m_fire_expr p) /\ is_Some o
     | None => val_ok p
     end)).
  { destruct o as [e|]; [|apply triple_ret; by intros p [? _]].
    eapply triple_bind; [apply triple_EvalExpr|]. intros v. apply triple_case; intros _.
    - eapply triple_bind.
      { apply (triple_modify _ _ (fun _ p => val_ok p /\ is_Some (m_fire_expr p))). intros p [_ Hp].
        split; [by right; right|done]. }
      intros []. apply triple_ret. intros p [? ?]. split_and!; [done..|by eexists].
    - apply triple_ret. by intros p [? _]. }
  intros [a|].
  - destruct o as [e|]; [|intros h p a' h' p' (_&_&_&Hn); by destruct Hn].
    eapply (triple_bind _ _ _ (fun _ p => a = on /\ fired p)).
    { apply triple_modify. intros p (->&Hv&He&_). by split_and!. }
    assert (HI : indifferent (fun p => a = on /\ fired p)).
    { intros sc r u p [-> Hp]. split; [done|]. by apply (fired_indifferent sc r u p). }
    intros []. eapply triple_bind; [by apply triple_unparsed|]. intros [].
    eapply (triple_bind _ _ _ (fun _ p => a = on /\ fired p)); [intros h p a' h' p' Hp [= <- <- <-]; done|]. intros p0.
    assert (Hend : triple (fun p => a = on /\ fired p) (rret (Some a))
      (fun o p => val_ok p /\ match o with Some a => a = on /\ fired p | None => True end)).
    { apply triple_ret. intros p [? Hp]. by split; [apply Hp|]. }
    apply triple_case; intros _; [|done].
    eapply triple_bind; [apply triple_store|]. intros sc.
    eapply (triple_bind _ _ _ (fun _ p => a = on /\ fired p)).
    { apply triple_modify. intros p Hp. destruct sc as [x|]; [by apply (HI x (m_fire_reason p) (m_fire_unparsed_expr p))|done]. }
    intros []. eapply triple_bind; [apply triple_store|]. intros r.
    eapply (triple_bind _ _ _ (fun _ p => a = on /\ fired p)).
    { apply triple_modify. intros p Hp. destruct r as [x|]; [by apply (HI (m_fire_subcode p) x (m_fire_unparsed_expr p))|done]. }
    done.
  - destruct o as [e|];
    (eapply (triple_bind _ _ _ (fun _ => val_ok)); [intros h p a' h' p' Hp [= <- <- <-]; done|]; intros p0;
     destruct sys; try apply triple_system; apply triple_ret; intros p Hp; by split).
Qed.

(** ** The rules, one after the other *)
Definition rule_ok (allowed : PolicyAction -> Prop) (o : option PolicyAction) (p : UserPolicy) : Prop :=
  match o with Some a => allowed a /\ (a <> UNDEFINED_EVAL -> fired p) /\ val_ok p | None => val_ok p end.

Lemma rule_single ad attr sys on (allowed : PolicyAction -> Prop) : allowed on ->
  triple val_ok (AnalyzeSinglePeriodicPolicy ad attr sys on) (rule_ok allowed).
Proof.
  intros Ha. eapply triple_weaken; [apply triple_single|done|]. intros [a|] p [Hv Hf]; [|done].
  destruct Hf as [-> Hf]. by split_and!.
Qed.
Lemma rule_none (allowed : PolicyAction -> Prop) : triple val_ok (rret None) (rule_ok allowed).
Proof. by apply triple_ret. Qed.
Lemma rule_fires (allowed : PolicyAction -> Prop) f a : allowed a -> (forall p, val_ok p -> fired (f p)) ->
  triple val_ok (let! _ := modify f in rret (Some a)) (rule_ok allowed).
Proof.
  intros Ha Hf. eapply (triple_bind _ _ _ (fun _ => fired)); [by apply triple_modify|].
  intros _. apply triple_ret. intros p Hp. split_and!; [done|done|apply Hp].
Qed.

(** A lookup, then a rule for what it gives. *)
Lemma rule_lookup ad name (k : option Z -> P (option PolicyAction)) allowed :
  (forall o, triple val_ok (k o) (rule_ok allowed)) -> triple val_ok (let! o := LookupInteger ad name in k o) (rule_ok allowed).
Proof. intros Hk. eapply triple_bind; [apply triple_store|done]. Qed.

Ltac rules := repeat first
  [ apply rule_none | apply rule_single | apply rule_lookup; intros [?|] | apply triple_case; intros ?
  | apply rule_fires; [|intros ? ?; split_and!; [done|by eexists|done]] ].

Lemma triple_durations ad now :
  triple val_ok (job_duration oldSemantics functionTable n ad now) (rule_ok (eq HOLD_IN_QUEUE)) /\
  triple val_ok (execute_duration oldSemantics functionTable n ad now) (rule_ok (eq HOLD_IN_QUEUE)).
Proof. unfold job_duration, execute_duration. split; rules; done. Qed.

Definition running_action (mode : PolicyMode) (state : Z) (a : PolicyAction) : Prop :=
  (state = RUNNING \/ state = SUSPENDED) /\ (a = HOLD_IN_QUEUE \/ a = VACATE_FROM_RUNNING /\ mode = PERIODIC_ONLY).
Lemma triple_running ad mode state now :
  triple val_ok (running_rules oldSemantics functionTable MakeAbsTime MakeRelTime absTimeToString relTimeToString n param ad mode state now)
    (rule_ok (running_action mode state)).
Proof.
  unfold running_rules. apply triple_case; [|intros; apply rule_none]. intros Hs.
  assert (Hr : state = RUNNING \/ state = SUSPENDED) by lia.
  assert (Hhold : forall a, HOLD_IN_QUEUE = a -> running_action mode state a) by (intros a <-; split; auto).
  eapply triple_bind; [apply triple_durations|].
  intros [a|]; [apply triple_ret; intros p (?&?&?); split_and!; auto|].
  eapply triple_bind; [apply triple_durations|].
  intros [a|]; [apply triple_ret; intros p (?&?&?); split_and!; auto|].
  destruct mode; [|apply rule_none..]. apply rule_single. split; auto.
Qed.

Lemma triple_timer ad now :
  triple val_ok (timer_removal oldSemantics functionTable absTimeToString relTimeToString n ad now)
    (rule_ok (fun a => a = REMOVE_FROM_QUEUE \/ a = UNDEFINED_EVAL)).
Proof.
  unfold timer_removal. eapply (triple_bind _ _ _ (fun _ p => val_ok p /\ is_Some (m_fire_expr p))).
  { apply triple_modify. intros p Hp. by split; [|eexists]. }
  intros []. eapply triple_bind; [apply triple_store|]. intros [t|].
  - apply triple_case; intros _; [|apply triple_ret; by intros p [? _]].
    eapply (triple_bind _ _ _ (fun _ => fired)).
    { apply triple_modify. intros p [_ Hp]. by split_and!; [right; right|..]. }
    intros []. eapply triple_bind; [apply triple_store|]. intros e.
    eapply (triple_bind _ _ _ (fun _ => fired)); [destruct e; [apply triple_unparsed, fired_indifferent|by apply triple_ret]|].
    intros []. apply triple_ret. intros p Hp. split_and!; [by left|done|apply Hp].
  - eapply triple_bind; [apply triple_store|]. intros [e|]; [|apply triple_ret; by intros p [? _]].
    eapply (triple_bind _ _ _ (fun _ => val_ok)); [apply triple_modify; intros p _; by left|].
    intros []. eapply triple_bind; [apply triple_unparsed, val_ok_indifferent|]. intros [].
    apply triple_ret. intros p Hp. by split_and!; [right|..].
Qed.

(** A rule, and what comes after it. *)
Lemma triple_rule m k (allowed : PolicyAction -> Prop) (Q : PolicyAction -> UserPolicy -> Prop) :
  triple val_ok m (rule_ok allowed) ->
  (forall a p, allowed a -> (a <> UNDEFINED_EVAL -> fired p) -> val_ok p -> Q a p) ->
  triple val_ok k Q -> triple val_ok (or_else m k) Q.
Proof.
  intros Hm HQ Hk. eapply (triple_or_else _ _ _ _ val_ok); [|done].
  eapply triple_weaken; [exact Hm|done|]. intros [a|] p; [|done]. intros (?&?&?). auto.
Qed.

Definition exit_ok (a : PolicyAction) (p : UserPolicy) : Prop :=
  (a = UNDEFINED_EVAL \/ a = HOLD_IN_QUEUE \/ a = REMOVE_FROM_QUEUE \/ a = STAYS_IN_QUEUE) /\
  (a <> UNDEFINED_EVAL -> fired p) /\ val_ok p.
(** All of [fired] but the value. *)
Definition named (p : UserPolicy) : Prop := is_Some (m_fire_expr p) /\ m_fire_source p <> FS_NotYet.

Lemma triple_exit_remove ad :
  triple named
    (let! e := LookupExpr ad "OnExitRemove" in
     let! stays :=
       match e with
       | None => rret false
       | Some e =>
           let! v := EvalExpr ad e in
           match v ≫= IsNumber_int with
           | Some val => let! _ := modify (set_expr_val val) in if val =? 0 then let! _ := unparsed e in rret true else rret false
           | None => rret false
           end
       end in
     if (stays : bool) then rret STAYS_IN_QUEUE else let! _ := modify (set_expr_val 1) in rret REMOVE_FROM_QUEUE) exit_ok.
Proof.
  eapply triple_bind; [apply triple_store|]. intros e.
  eapply (triple_bind _ _ _ (fun (b : bool) p => named p /\ (b = true -> val_ok p))).
  { destruct e as [e|]; [|by apply triple_ret]. eapply triple_bind; [apply triple_EvalExpr|]. intros v.
    destruct (v ≫= IsNumber_int) as [val|]; [|by apply triple_ret].
    eapply (triple_bind _ _ _ (fun _ p => named p /\ m_fire_expr_val p = val)); [by apply triple_modify|]. intros [].
    apply triple_case; intros Hval; [|by apply triple_ret; intros p [? _]].
    eapply triple_bind; [apply triple_unparsed; by intros ????|]. intros []. apply triple_ret. intros p [Hp Hv]. split; [done|].
    intros _. right. left. lia. }
  intros []; [apply triple_ret; intros p [[He Hs] Hv]; split_and!; [tauto|intros _; exact (conj (Hv eq_refl) (conj He Hs))|auto]|].
  eapply (triple_bind _ _ _ (fun _ => fired)); [apply triple_modify; intros p [[He Hs] _]; exact (conj (or_intror (or_intror eq_refl)) (conj He Hs))|].
  intros _. apply triple_ret. intros p Hp. split_and!; [tauto|done|apply Hp].
Qed.

Lemma triple_exit ad :
  triple val_ok (exit_rules oldSemantics functionTable MakeAbsTime MakeRelTime absTimeToString relTimeToString n param ad) exit_ok.
Proof.
  assert (Hundef : triple val_ok (rret UNDEFINED_EVAL) exit_ok) by (apply triple_ret; intros p Hp; split_and!; [auto|done|done]).
  unfold exit_rules. eapply triple_bind; [apply triple_store|]. intros [s|]; [|done].
  eapply triple_bind; [apply triple_store|]. intros code. eapply triple_bind; [apply triple_store|]. intros signal.
  destruct code, signal; try exact Hundef;
    (eapply triple_rule; [by apply (rule_single _ _ _ _ (eq HOLD_IN_QUEUE))|intros a p <- ? ?; split_and!; auto|]);
    (eapply (triple_bind _ _ _ (fun _ => named)); [apply triple_modify; intros p _; by split; [eexists|]|]);
    intros _; apply triple_exit_remove.
Qed.

(** ** [AnalyzePolicy] *)

(** The actions that fit a job in a state. *)
Definition fits (mode : PolicyMode) (state : Z) (a : PolicyAction) : Prop :=
  match a with
  | RELEASE_FROM_HOLD => state = HELD
  | VACATE_FROM_RUNNING => mode = PERIODIC_ONLY /\ (state = RUNNING \/ state = SUSPENDED)
  | HOLD_IN_QUEUE => mode = PERIODIC_ONLY -> state <> HELD /\ state <> COMPLETED
  | _ => True
  end /\
  (state = REMOVED -> a = match mode with
                         | PERIODIC_ONLY => STAYS_IN_QUEUE
                         | PERIODIC_THEN_EXIT => REMOVE_FROM_QUEUE
                         | OTHER_MODE => UNDEFINED_EVAL
                         end).

Definition decided (mode : PolicyMode) (state : Z) (a : PolicyAction) (p : UserPolicy) : Prop :=
  fits mode state a /\ val_ok p /\
  (a <> UNDEFINED_EVAL -> if decide (a = STAYS_IN_QUEUE /\ mode = PERIODIC_ONLY) then m_fire_expr p = None else fired p).

(** An action that fits and is explained. *)
Lemma decided_fired mode state a p : fits mode state a -> a <> STAYS_IN_QUEUE -> (a <> UNDEFINED_EVAL -> fired p) ->
  val_ok p -> decided mode state a p.
Proof. intros Hf Ha Hp Hv. split; [done|split; [done|]]. intros Hu. rewrite decide_False by tauto. auto. Qed.

(** The rules that both modes share. *)
Lemma triple_shared ad mode state now k : mode <> OTHER_MODE -> state <> REMOVED ->
  triple val_ok k (decided mode state) ->
  triple val_ok
    (or_else (running_rules oldSemantics functionTable MakeAbsTime MakeRelTime absTimeToString relTimeToString n param ad mode state now)
    (or_else (timer_removal oldSemantics functionTable absTimeToString relTimeToString n ad now)
    (or_else (hold_rule oldSemantics functionTable MakeAbsTime MakeRelTime absTimeToString relTimeToString n param ad state)
    (or_else (release_rule oldSemantics functionTable MakeAbsTime MakeRelTime absTimeToString relTimeToString n param ad state)
    (or_else (remove_rule oldSemantics functionTable MakeAbsTime MakeRelTime absTimeToString relTimeToString n param ad) k)))))
    (decided mode state).
Proof.
  intros Hm Hr Hk.
  eapply triple_rule; [apply triple_running|..].
  { intros a p [[Hs|Hs] [->|[-> ->]]] Hf Hv; apply decided_fired; try done; (split; [|done]); unfold COMPLETED, HELD; cbn; subst; auto. }
  eapply triple_rule; [apply triple_timer|..]; [by intros a p [->| ->] Hf Hv; apply decided_fired|].
  eapply (triple_rule _ _ (fun a => a = HOLD_IN_QUEUE /\ state <> HELD /\ state <> COMPLETED)).
  { unfold hold_rule. apply triple_case; intros Hs; [|apply rule_none]. apply rule_single. split; [done|lia]. }
  { by intros a p (->&?&?) Hf Hv; apply decided_fired. }
  eapply (triple_rule _ _ (fun a => a = RELEASE_FROM_HOLD /\ state = HELD)).
  { unfold release_rule. rules; (split; [done|lia]). }
  { by intros a p (->&?) Hf Hv; apply decided_fired. }
  eapply (triple_rule _ _ (eq REMOVE_FROM_QUEUE)); [by apply rule_single| |done].
  by intros a p <- Hf Hv; apply decided_fired.
Qed.

(** What follows once the state is known. *)
Definition in_state (ad : adref) (mode : PolicyMode) (now state : Z) : P PolicyAction :=
  let! _ := modify (fun p => set_unparsed "" (set_expr_val (-1) (set_fire_expr None p))) in
  if state =? REMOVED then
    match mode with
    | PERIODIC_ONLY => rret STAYS_IN_QUEUE
    | _ =>
        let! _ := modify (fun p => set_unparsed "true" (set_reason "" (set_source FS_JobAttribute
                                     (set_fire_expr (Some "OnExitRemove"%string) (set_expr_val 1 p))))) in
        rret REMOVE_FROM_QUEUE
    end
  else
    or_else (running_rules oldSemantics functionTable MakeAbsTime MakeRelTime absTimeToString relTimeToString n param ad mode state now)
    (or_else (timer_removal oldSemantics functionTable absTimeToString relTimeToString n ad now)
    (or_else (hold_rule oldSemantics functionTable MakeAbsTime MakeRelTime absTimeToString relTimeToString n param ad state)
    (or_else (release_rule oldSemantics functionTable MakeAbsTime MakeRelTime absTimeToString relTimeToString n param ad state)
    (or_else (remove_rule oldSemantics functionTable MakeAbsTime MakeRelTime absTimeToString relTimeToString n param ad)
    match mode with
    | PERIODIC_ONLY => let! _ := modify (set_fire_expr None) in rret STAYS_IN_QUEUE
    | _ => exit_rules oldSemantics functionTable MakeAbsTime MakeRelTime absTimeToString relTimeToString n param ad
    end)))).
Lemma AnalyzePolicy_in_state ad mode state0 now : mode <> OTHER_MODE ->
  AnalyzePolicy ad mode state0 now =
  (let! o := if state0 <? 0 then LookupInteger ad "JobStatus" else rret (Some state0) in
   match o with None => rret UNDEFINED_EVAL | Some state => in_state ad mode now state end).
Proof. by destruct mode. Qed.

Lemma triple_in_state ad mode now state : mode <> OTHER_MODE ->
  triple (fun _ => True) (in_state ad mode now state) (decided mode state).
Proof.
  intros Hm. eapply (triple_bind _ _ _ (fun _ p => val_ok p /\ m_fire_expr p = None)).
  { apply triple_modify. intros p _. by split; [left|]. }
  intros []. apply triple_case; intros Hr; destruct mode; try done.
  - apply triple_ret. intros p [Hv Hp]. by repeat split.
  - eapply (triple_bind _ _ _ (fun _ => fired)).
    { apply triple_modify. intros p _. split_and!; [by right; right|by eexists|done]. }
    intros []. apply triple_ret. intros p Hp. by apply decided_fired; [..|apply Hp].
  - eapply triple_weaken; [apply (triple_shared _ _ state)|by intros p [? _]|done]; [done|lia|].
    eapply (triple_bind _ _ _ (fun _ p => val_ok p /\ m_fire_expr p = None)); [by apply triple_modify|].
    intros []. apply triple_ret. intros p [Hv Hp]. split; [|done]. split; [done|]. lia.
  - eapply triple_weaken; [apply (triple_shared _ _ state)|by intros p [? _]|done]; [done|lia|].
    eapply triple_weaken; [apply triple_exit|done|]. intros a p (Ha&Hf&Hv).
    split; [split; [by destruct Ha as [->|[->|[->| ->]]]|lia]|split; [done|]].
    intros Hu. rewrite decide_False by naive_solver. auto.
Qed.

(** The state that is decided on: the one given, or the one of the ad. *)
Definition state_of (ad : adref) (state0 : Z) (st : heap * UserPolicy) (state : Z) : Prop :=
  if state0 <? 0 then exists st', LookupInteger ad "JobStatus" st = Ret (Some state) st' else state = state0.

Lemma AnalyzePolicy_decided ad mode state0 now st a st' : mode <> OTHER_MODE ->
  AnalyzePolicy ad mode state0 now st = Ret a st' ->
  a = UNDEFINED_EVAL /\ st'.2 = st.2 \/ exists state, state_of ad state0 st state /\ decided mode state a st'.2.
Proof.
  intros Hm. rewrite AnalyzePolicy_in_state by done. unfold rbind, state_of. destruct (state0 <? 0).
  - destruct (LookupInteger ad "JobStatus" st) as [[state|] [h1 p1]| |] eqn:E; try done; intros E2.
    + right. exists state. split; [by eexists|]. destruct st' as [h' p']. by apply (triple_in_state ad mode now state Hm h1 p1 a h').
    + left. injection E2 as <- <-. split; [done|]. destruct st as [h p].
      exact (eq_sym (triple_store (eq p) _ h p None h1 p1 eq_refl E)).
  - intros E. right. exists state0. split; [done|]. destruct st as [h p], st' as [h' p'].
    by apply (triple_in_state ad mode now state0 Hm h p a h').
Qed.

(** C22: An action that [AnalyzePolicy] decides on fits the state of the job, the one it is
    given or the one it looks up: only a held job is released, a running one vacated, the
    periodic policies hold no job that is held or completed, and a removed job stays until
    it has exited. *)
Theorem policy_fits_state : forall ad mode state0 now st a st',
  AnalyzePolicy ad mode state0 now st = Ret a st' ->
  a = UNDEFINED_EVAL \/ exists state, state_of ad state0 st state /\ fits mode state a.
Proof.
  intros ad mode state0 now st a st' E. destruct (decide (mode = OTHER_MODE)) as [-> |Hm].
  - left. by injection E as <- <-.
  - destruct (AnalyzePolicy_decided _ _ _ _ _ _ _ Hm E) as [[? _]|(state&?&[? _])]; eauto.
Qed.

(** C23: A decision can be explained: from an object that has the value of an expression,
    [FiringReason] does not stop the daemon afterwards; for an action it gives a text and a
    code that is not the one of no reason, and for a job that just stays in the queue it
    gives none. *)
Theorem actions_are_explained : forall ad mode state0 now st a st',
  val_ok st.2 -> AnalyzePolicy ad mode state0 now st = Ret a st' ->
  val_ok st'.2 /\
  exists o, FiringReason st'.2 = Ret o st'.2 /\
    (a <> UNDEFINED_EVAL ->
     if decide (a = STAYS_IN_QUEUE /\ mode = PERIODIC_ONLY) then o = None
     else exists reason code subcode, o = Some (reason, code, subcode) /\ reason <> ""%string /\ 0 < code).
Proof.
  intros ad mode state0 now st a st' Hv E. destruct (decide (mode = OTHER_MODE)) as [-> |Hm].
  { injection E as <- <-. split; [done|]. destruct (FiringReason_returns _ Hv) as [o Ho]. by exists o. }
  destruct (AnalyzePolicy_decided _ _ _ _ _ _ _ Hm E) as [[-> ->]|(state&_&[_ [Hv' Hd]])].
  { split; [done|]. destruct (FiringReason_returns _ Hv) as [o Ho]. by exists o. }
  split; [done|]. destruct (FiringReason_returns _ Hv') as [o Ho]. exists o. split; [done|]. intros Ha. specialize (Hd Ha).
  destruct (decide _).
  - unfold FiringReason in Ho. rewrite Hd in Ho. by injection Ho as <-.
  - by apply (FiringReason_fired _ _ Hd).
Qed.
End laws.
