(* ===== verification/UserPolicySpec.v ===== *)
(** * The policy of a job as an ordered list of rules

    When the evaluations that the analysis makes have answers, the analysis is the first of
    a list of rules that holds: [policy_decides]. The triples here are of total correctness:
    the computation returns. *)
From Stdlib Require Import ZArith Lia Ascii String SpecFloat.
From stdpp Require Import base list gmap strings.
From S2P Require Import Prelude Double Numerals Tree Values Lexer FlatMap AdStore Eval Parser Unparser ClassAdLog UserPolicy UserPolicyLaws.
Open Scope res_scope.

(** ** The rules *)
Section rules.
(** What the numeric attributes, the expressions and their evaluations are. *)
Variable ints : string -> option Z.
Variable attrs : string -> option ExprTree.
Variable values : ExprTree -> option Value.
(** The policies of the configuration. *)
Variables holds releases removes : list JobPolicyExpr.

Definition attr_true (x : string) : bool := match attrs x with Some e => is_true (values e) | None => false end.
Definition policy_true (q : JobPolicyExpr) : bool := match expr q with Some e => is_true (values e) | None => false end.
Definition overran_job (now : Z) : bool :=
  match ints "AllowedJobDuration", ints "ShadowBday" with
  | Some allowed, Some birthday => allowed <=? now - birthday
  | _, _ => false
  end.
(** The time is counted from the start of the execution, or from the end of a later
    transfer. *)
Definition overran_execution (now : Z) : bool :=
  match ints "AllowedExecuteDuration", ints "JobCurrentStartExecutingDate", ints "ShadowBday" with
  | Some allowed, Some began, Some birthday =>
      (birthday <? began) && (allowed <? now - Z.max began (default began (ints "TransferOutFinished")))
  | _, _, _ => false
  end.
Definition timer_due (now : Z) : bool :=
  match ints "TimerRemove" with Some t => (0 <=? t) && (t <? now) | None => false end.
Definition timer_unreadable : bool :=
  match ints "TimerRemove", attrs "TimerRemove" with None, Some _ => true | _, _ => false end.
Definition missing (x : string) : bool := match attrs x with Some _ => false | None => true end.
Definition kept_on_exit : bool :=
  match (e ← attrs "OnExitRemove"; v ← values e; IsNumber_int v) with Some val => val =? 0 | None => false end.

Definition periodic_table (mode : PolicyMode) (state now : Z) : list (bool * PolicyAction) :=
  let running := (state =? RUNNING) || (state =? SUSPENDED) in
  [ (running && overran_job now, HOLD_IN_QUEUE);
    (running && overran_execution now, HOLD_IN_QUEUE);
    (running && bool_decide (mode = PERIODIC_ONLY) && attr_true "PeriodicVacate", VACATE_FROM_RUNNING);
    (timer_due now, REMOVE_FROM_QUEUE);
    (timer_unreadable, UNDEFINED_EVAL);
    (negb (state =? HELD) && negb (state =? COMPLETED) && (attr_true "PeriodicHold" || existsb policy_true holds), HOLD_IN_QUEUE);
    ((state =? HELD) && negb (default 0 (ints "HoldReasonCode") =? UserRequest) &&
       (attr_true "PeriodicRelease" || existsb policy_true releases), RELEASE_FROM_HOLD);
    (attr_true "PeriodicRemove" || existsb policy_true removes, REMOVE_FROM_QUEUE) ].
Definition exit_table : list (bool * PolicyAction) :=
  [ (missing "ExitBySignal" || (missing "ExitCode" && missing "ExitSignal"), UNDEFINED_EVAL);
    (attr_true "OnExitHold", HOLD_IN_QUEUE);
    (kept_on_exit, STAYS_IN_QUEUE) ].

(** The action of the first rule that holds. *)
Definition first_rule (table : list (bool * PolicyAction)) (otherwise : PolicyAction) : PolicyAction :=
  foldr (fun r rest => if (r.1 : bool) then r.2 else rest) otherwise table.
Definition decision (mode : PolicyMode) (state now : Z) : PolicyAction :=
  match mode with
  | PERIODIC_ONLY =>
      if state =? REMOVED then STAYS_IN_QUEUE else first_rule (periodic_table mode state now) STAYS_IN_QUEUE
  | PERIODIC_THEN_EXIT =>
      if state =? REMOVED then REMOVE_FROM_QUEUE
      else first_rule (periodic_table mode state now ++ exit_table) REMOVE_FROM_QUEUE
  | OTHER_MODE => UNDEFINED_EVAL
  end.
(** With the state looked up where none is given. *)
Definition policy_decision (mode : PolicyMode) (state0 now : Z) : PolicyAction :=
  match (if state0 <? 0 then ints "JobStatus" else Some state0) with
  | Some state => decision mode state now
  | None => UNDEFINED_EVAL
  end.

(** The rule of a table that fires, if one does. *)
Definition fires (table : list (bool * PolicyAction)) : option PolicyAction :=
  foldr (fun r rest => if (r.1 : bool) then Some r.2 else rest) None table.
Lemma first_rule_fires t otherwise : first_rule t otherwise = default otherwise (fires t).
Proof. induction t as [|[[] a] t IH]; [done..|]. exact IH. Qed.
Lemma first_rule_app t1 t2 otherwise : first_rule (t1 ++ t2) otherwise = first_rule t1 (first_rule t2 otherwise).
Proof. apply foldr_app. Qed.
End rules.

(** ** Computations that return *)
Section total.
(** What is known of the store, and of the object. *)
Variable Inv : heap -> Prop.
Variable J : UserPolicy -> Prop.

Definition returns {A} (m : P A) (Q : A -> Prop) : Prop :=
  forall h p, Inv h -> J p -> exists a h' p', m (h, p) = Ret a (h', p') /\ Inv h' /\ J p' /\ Q a.
Abbreviation gives m a := (returns m (eq a)).

Lemma returns_ret {A} (a : A) (Q : A -> Prop) : Q a -> returns (rret a) Q.
Proof. intros H h p Hh Hp. by exists a, h, p. Qed.
Lemma returns_bind {A B} (m : P A) (k : A -> P B) (R : A -> Prop) Q :
  returns m R -> (forall a, R a -> returns (k a) Q) -> returns (let! a := m in k a) Q.
Proof.
  intros Hm Hk h p Hh Hp. destruct (Hm h p Hh Hp) as (a&h1&p1&E&Hh1&Hp1&Ha).
  destruct (Hk a Ha h1 p1 Hh1 Hp1) as (b&h2&p2&E2&?). exists b, h2, p2. split; [|done]. unfold rbind. by rewrite E.
Qed.
Lemma gives_bind {A B} (m : P A) (k : A -> P B) a Q : gives m a -> returns (k a) Q -> returns (let! a := m in k a) Q.
Proof. intros Hm Hk. eapply returns_bind; [exact Hm|]. by intros ? <-. Qed.
Lemma returns_modify f (Q : unit -> Prop) : (forall p, J p -> J (f p)) -> Q tt -> returns (modify f) Q.
Proof. intros Hf HQ h p Hh Hp. exists tt, h, (f p). auto. Qed.
Lemma modify_bind {B} f (k : unit -> P B) Q :
  (forall p, J p -> J (f p)) -> returns (k tt) Q -> returns (let! u := modify f in k u) Q.
Proof. intros Hf Hk. eapply (returns_bind _ _ (fun _ => True)); [by apply returns_modify|]. by intros []. Qed.
Lemma returns_weaken {A} (m : P A) (Q R : A -> Prop) : returns m Q -> (forall a, Q a -> R a) -> returns m R.
Proof. intros Hm HQ h p Hh Hp. destruct (Hm h p Hh Hp) as (a&h'&p'&?&?&?&?). exists a, h', p'. auto. Qed.
Lemma gives_or_else {A} (m : P (option A)) (k : P A) (o : option A) a :
  gives m o -> (o = None -> gives k a) -> gives (or_else m k) (match o with Some b => b | None => a end).
Proof.
  intros Hm Hk. apply (gives_bind _ _ o); [done|]. destruct o; [by apply returns_ret|auto].
Qed.
End total.

(** ** The analysis *)
Section decides.
Variable oldSemantics : bool.
Variable functionTable : string -> option ClassAdFunc.
Variables MakeAbsTime MakeRelTime : string -> option ExprTree.
Variable absTimeToString : abstime_t -> text.
Variable relTimeToString : double -> text.
Variable n : nat.
Variable param : string -> option string.

Abbreviation LookupInteger := (LookupInteger oldSemantics functionTable n).
Abbreviation LookupString := (fun ad x => evaluated (EvaluateAttrString oldSemantics functionTable n ad x)).
Abbreviation EvalExpr := (EvalExpr oldSemantics functionTable n).
Abbreviation EvalText := (EvalText oldSemantics functionTable MakeAbsTime MakeRelTime n).
Abbreviation unparsed := (unparsed absTimeToString relTimeToString).
Abbreviation AnalyzeSinglePeriodicPolicy := (AnalyzeSinglePeriodicPolicy oldSemantics functionTable MakeAbsTime MakeRelTime absTimeToString relTimeToString n param).
Abbreviation system_loop := (system_loop oldSemantics functionTable MakeAbsTime MakeRelTime absTimeToString relTimeToString n param).
Abbreviation AnalyzePolicy := (AnalyzePolicy oldSemantics functionTable MakeAbsTime MakeRelTime absTimeToString relTimeToString n param).

Variable ad : adref.
Variable Inv : heap -> Prop.
Variable ints : string -> option Z.
Variable attrs : string -> option ExprTree.
Variable values : ExprTree -> option Value.
Variables holds releases removes : list JobPolicyExpr.

Definition int_names : list string :=
  ["JobStatus"; "AllowedJobDuration"; "ShadowBday"; "AllowedExecuteDuration"; "JobCurrentStartExecutingDate";
   "TransferOutFinished"; "TimerRemove"; "HoldReasonCode"]%string.
Definition policy_names : list string :=
  ["PeriodicVacate"; "PeriodicHold"; "PeriodicRelease"; "PeriodicRemove"; "OnExitHold"]%string.
Definition attr_names : list string :=
  policy_names ++ ["TimerRemove"; "ExitBySignal"; "ExitCode"; "ExitSignal"; "OnExitRemove"]%string.

(** The evaluation gives this, and leaves a store of which as much is known. *)
Definition answers {A} (m : P A) (a : A) : Prop := forall h p, Inv h -> exists h', m (h, p) = Ret a (h', p) /\ Inv h'.
Definition some_answer {A} (m : P A) : Prop := forall h p, Inv h -> exists a h', m (h, p) = Ret a (h', p) /\ Inv h'.

(** What the analysis asks of the ad and of the configuration has an answer. *)
Record answered : Prop := mk_answered {
  answered_ints : forall x, x ∈ int_names -> answers (LookupInteger ad x) (ints x);
  answered_attrs : forall x, x ∈ attr_names -> answers (LookupExpr ad x) (attrs x);
  answered_values : forall x e, x ∈ "OnExitRemove"%string :: policy_names -> attrs x = Some e -> answers (EvalExpr ad e) (values e);
  answered_policies : forall q, q ∈ holds ++ releases ++ removes ->
    exists e, expr q = Some e /\ answers (EvalExpr ad e) (values e);
  answered_reasons : forall x, x ∈ policy_names ->
    some_answer (LookupInteger ad (x ++ "SubCode")%string) /\ some_answer (LookupString ad (x ++ "Reason")%string);
  answered_texts : forall q knob suffix s, q ∈ holds ++ releases ++ removes ->
    param (append_tag q knob ++ suffix)%string = Some s -> some_answer (EvalText ad s)
}.

(** The object has these policies. *)
Definition has_lists (p : UserPolicy) : Prop :=
  m_sys_periodic_holds p = holds /\ m_sys_periodic_releases p = releases /\ m_sys_periodic_removes p = removes.
Abbreviation returns := (returns Inv has_lists).
Abbreviation gives m a := (UserPolicySpec.returns Inv has_lists m (eq a)).
Abbreviation attr_true := (attr_true attrs values).
Abbreviation policy_true := (policy_true values).

Lemma answers_give {A} (m : P A) a : answers m a -> gives m a.
Proof. intros H h p Hh Hp. destruct (H h p Hh) as (h'&E&?). by exists a, h', p. Qed.
Lemma some_answer_returns {A} (m : P A) : some_answer m -> returns m (fun _ => True).
Proof. intros H h p Hh Hp. destruct (H h p Hh) as (a&h'&E&?). by exists a, h', p. Qed.
Lemma gives_unparsed e : gives (unparsed e) tt.
Proof. intros h p Hh Hp. by eexists tt, h, _. Qed.

Hypothesis Hans : answered.

Lemma gives_int x : x ∈ int_names -> gives (LookupInteger ad x) (ints x).
Proof. intros Hx. by apply answers_give, answered_ints. Qed.
Lemma gives_attr x : x ∈ attr_names -> gives (LookupExpr ad x) (attrs x).
Proof. intros Hx. by apply answers_give, answered_attrs. Qed.

(** The policies of the configuration: the first that is true fires. *)
Lemma returns_texts q knob : q ∈ holds ++ releases ++ removes ->
  gives (system_subcode oldSemantics functionTable MakeAbsTime MakeRelTime n param ad (append_tag q knob ++ "_SUBCODE")%string) tt /\
  gives (system_reason oldSemantics functionTable MakeAbsTime MakeRelTime n param ad (append_tag q knob ++ "_REASON")%string) tt.
Proof.
  intros Hq. pose proof (fun suffix s => answered_texts Hans q knob suffix s Hq) as Ht.
  assert (Hret : gives (rret tt) tt) by (by apply returns_ret).
  unfold system_subcode, system_reason. split; [specialize (Ht "_SUBCODE"%string)|specialize (Ht "_REASON"%string)];
    destruct (param _) as [[|c s]|]; try exact Hret;
    (eapply returns_bind; [by apply some_answer_returns, Ht|]); intros v _.
  - destruct (v ≫= IsNumber_longlong); [by apply returns_modify|done].
  - destruct (v ≫= IsStringValue); [by apply returns_modify|done].
Qed.
Lemma gives_system name l on : (forall q, q ∈ l -> q ∈ holds ++ releases ++ removes) ->
  gives (system_loop ad name l on) (if existsb policy_true l then Some on else None).
Proof.
  induction l as [|q l IH]; intros Hl; [by apply returns_ret|]. cbn [UserPolicy.system_loop existsb].
  assert (Hq : q ∈ holds ++ releases ++ removes) by (apply Hl; left).
  destruct (answered_policies Hans q Hq) as (e&He&Hv).
  apply (gives_bind _ _ _ _ (q, false)).
  { intros h p Hh Hp. exists (q, false), h, p. unfold on_store, Expr. simpl. by rewrite He. }
  rewrite He. apply (gives_bind _ _ _ _ (values e)); [by apply answers_give|].
  unfold UserPolicySpec.policy_true at 1. rewrite He. destruct (is_true (values e)); [|by apply IH; intros; apply Hl; right].
  apply modify_bind; [by intros p|].
  apply (gives_bind _ _ _ _ tt); [intros h p Hh Hp; by eexists tt, h, _|].
  apply (gives_bind _ _ _ _ tt); [by apply returns_texts|].
  apply (gives_bind _ _ _ _ tt); [by apply returns_texts|]. by apply returns_ret.
Qed.

Definition sys_list (id : SysPolicyId) : list JobPolicyExpr :=
  match id with
  | POLICY_SYSTEM_PERIODIC_HOLD => holds
  | POLICY_SYSTEM_PERIODIC_RELEASE => releases
  | POLICY_SYSTEM_PERIODIC_REMOVE => removes
  | _ => []
  end.
Lemma gives_single x id on : x ∈ policy_names ->
  gives (AnalyzeSinglePeriodicPolicy ad x id on) (if attr_true x || existsb policy_true (sys_list id) then Some on else None).
Proof.
  intros Hx. unfold UserPolicy.AnalyzeSinglePeriodicPolicy. apply modify_bind; [by intros p|].
  apply (gives_bind _ _ _ _ (attrs x)); [apply gives_attr; unfold attr_names; apply elem_of_app; by left|].
  assert (Hvals : forall e, attrs x = Some e -> gives (EvalExpr ad e) (values e)).
  { intros e He. apply answers_give, (answered_values Hans x); [by right|done]. }
  apply (gives_bind _ _ _ _ (if attr_true x then Some on else None)).
  { unfold UserPolicySpec.attr_true. destruct (attrs x) as [e|]; [|by apply returns_ret].
    apply (gives_bind _ _ _ _ (values e)); [by apply Hvals|]. destruct (is_true (values e)); [|by apply returns_ret].
    apply modify_bind; [by intros p|]. by apply returns_ret. }
  destruct (attr_true x) eqn:Ht; cbn [orb].
  - unfold UserPolicySpec.attr_true in Ht. destruct (attrs x) as [e|]; [|done].
    apply modify_bind; [by intros p|]. apply (gives_bind _ _ _ _ tt); [apply gives_unparsed|].
    apply (returns_bind _ _ _ _ has_lists); [intros h p Hh Hp; by exists p, h, p|]. intros p0 _.
    assert (Hret : gives (rret (Some on)) (Some on)) by (by apply returns_ret).
    destruct (negb _); [|exact Hret]. destruct (answered_reasons Hans x Hx) as [Hsub Hreason].
    eapply returns_bind; [by apply some_answer_returns|]. intros sub _. apply modify_bind; [by destruct sub; intros p|].
    eapply returns_bind; [by apply some_answer_returns|]. intros r _. apply modify_bind; [by destruct r; intros p|]. exact Hret.
  - assert (Hsys : gives (let! p := get_policy in
      match id with
      | POLICY_SYSTEM_PERIODIC_HOLD => system_loop ad PARAM_SYSTEM_PERIODIC_HOLD (m_sys_periodic_holds p) on
      | POLICY_SYSTEM_PERIODIC_RELEASE => system_loop ad PARAM_SYSTEM_PERIODIC_RELEASE (m_sys_periodic_releases p) on
      | POLICY_SYSTEM_PERIODIC_REMOVE => system_loop ad PARAM_SYSTEM_PERIODIC_REMOVE (m_sys_periodic_removes p) on
      | _ => rret None
      end) (if existsb policy_true (sys_list id) then Some on else None)); [|by destruct (attrs x)].
    apply (returns_bind _ _ _ _ has_lists); [intros h p Hh Hp; by exists p, h, p|]. intros p (->&->&->).
    destruct id; try (by apply returns_ret); apply gives_system; intros q; unfold sys_list; rewrite !elem_of_app; tauto.
Qed.
(** Rules in turn. *)
Lemma gives_table m k t t' otherwise : gives m (fires t) -> gives k (first_rule t' otherwise) ->
  gives (or_else m k) (first_rule (t ++ t') otherwise).
Proof.
  intros Hm Hk. rewrite first_rule_app, first_rule_fires. apply (gives_bind _ _ _ _ (fires t)); [done|].
  by destruct (fires t); [apply returns_ret|].
Qed.
Lemma gives_fire f (a : PolicyAction) : (forall p, has_lists p -> has_lists (f p)) -> gives (let! _ := modify f in rret (Some a)) (Some a).
Proof. intros Hf. apply modify_bind; [done|]. by apply returns_ret. Qed.

Ltac in_names := unfold attr_names, int_names, policy_names; set_solver.
Lemma gives_job_duration now :
  gives (job_duration oldSemantics functionTable n ad now) (if overran_job ints now then Some HOLD_IN_QUEUE else None).
Proof.
  unfold job_duration, overran_job. eapply gives_bind; [apply gives_int; in_names|].
  destruct (ints "AllowedJobDuration") as [allowed|]; [|by apply returns_ret].
  eapply gives_bind; [apply gives_int; in_names|].
  destruct (ints "ShadowBday") as [birthday|]; [|by apply returns_ret].
  destruct (_ <=? _); [by apply gives_fire|by apply returns_ret].
Qed.
Lemma gives_execute_duration now :
  gives (execute_duration oldSemantics functionTable n ad now) (if overran_execution ints now then Some HOLD_IN_QUEUE else None).
Proof.
  unfold execute_duration, overran_execution. eapply gives_bind; [apply gives_int; in_names|].
  destruct (ints "AllowedExecuteDuration") as [allowed|]; [|by apply returns_ret].
  eapply gives_bind; [apply gives_int; in_names|].
  destruct (ints "JobCurrentStartExecutingDate") as [began|]; [|by apply returns_ret].
  eapply gives_bind; [apply gives_int; in_names|].
  destruct (ints "ShadowBday") as [birthday|]; [|by apply returns_ret].
  destruct (birthday <? began); [|by apply returns_ret]. cbn [andb].
  eapply gives_bind; [apply gives_int; in_names|].
  set (b := match ints "TransferOutFinished" with Some t => _ | None => _ end).
  replace (Z.max began _) with b; [|unfold b, from_option; destruct (ints "TransferOutFinished") as [t|]; [destruct (Z.ltb_spec began t)|]; unfold id; lia].
  destruct (_ <? _); [by apply gives_fire|by apply returns_ret].
Qed.

Lemma gives_running mode state now :
  gives (running_rules oldSemantics functionTable MakeAbsTime MakeRelTime absTimeToString relTimeToString n param ad mode state now)
    (fires (take 3 (periodic_table ints attrs values holds releases removes mode state now))).
Proof.
  unfold running_rules, periodic_table, fires. cbn [take foldr fst snd].
  destruct ((state =? RUNNING) || (state =? SUSPENDED)); [|by apply returns_ret]. cbn [andb].
  eapply gives_bind; [apply gives_job_duration|]. destruct (overran_job ints now); [by apply returns_ret|].
  eapply gives_bind; [apply gives_execute_duration|]. destruct (overran_execution ints now); [by apply returns_ret|].
  destruct mode; [|by apply returns_ret..].
  pose proof (gives_single "PeriodicVacate" POLICY_SYSTEM_PERIODIC_VACATE VACATE_FROM_RUNNING) as H.
  rewrite orb_false_r in H. apply H. unfold policy_names. set_solver.
Qed.
Lemma gives_timer now :
  gives (timer_removal oldSemantics functionTable absTimeToString relTimeToString n ad now)
    (fires [(timer_due ints now, REMOVE_FROM_QUEUE); (timer_unreadable ints attrs, UNDEFINED_EVAL)]).
Proof.
  assert (Hattr : gives (LookupExpr ad "TimerRemove") (attrs "TimerRemove")) by (apply gives_attr; in_names).
  unfold timer_removal, timer_due, timer_unreadable, fires. cbn [foldr fst snd]. apply modify_bind; [by intros p|].
  eapply gives_bind; [apply gives_int; in_names|]. destruct (ints "TimerRemove") as [t|].
  - destruct (_ && _); [|by apply returns_ret]. apply modify_bind; [by intros p|]. eapply gives_bind; [exact Hattr|].
    apply (gives_bind _ _ _ _ tt); [destruct (attrs "TimerRemove"); [apply gives_unparsed|]|]; by apply returns_ret.
  - eapply gives_bind; [exact Hattr|]. destruct (attrs "TimerRemove"); [|by apply returns_ret].
    apply modify_bind; [by intros p|]. eapply gives_bind; [apply gives_unparsed|]. by apply returns_ret.
Qed.
Lemma gives_guarded (b : bool) x id on : x ∈ policy_names ->
  gives (if b then AnalyzeSinglePeriodicPolicy ad x id on else rret None)
    (fires [(b && (attr_true x || existsb policy_true (sys_list id)), on)]).
Proof. intros Hx. destruct b; [by apply gives_single|by apply returns_ret]. Qed.
Lemma gives_release state :
  gives (release_rule oldSemantics functionTable MakeAbsTime MakeRelTime absTimeToString relTimeToString n param ad state)
    (fires [((state =? HELD) && negb (default 0 (ints "HoldReasonCode") =? UserRequest) &&
             (attr_true "PeriodicRelease" || existsb policy_true releases), RELEASE_FROM_HOLD)]).
Proof.
  unfold release_rule. destruct (state =? HELD); [|by apply returns_ret]. cbn [andb].
  eapply gives_bind; [apply gives_int; in_names|].
  apply (gives_guarded _ _ POLICY_SYSTEM_PERIODIC_RELEASE). in_names.
Qed.

(** After the exit: the last of the rules is that the job is removed. *)
Lemma gives_exit :
  gives (exit_rules oldSemantics functionTable MakeAbsTime MakeRelTime absTimeToString relTimeToString n param ad)
    (first_rule (exit_table attrs values) REMOVE_FROM_QUEUE).
Proof.
  unfold exit_rules, exit_table, missing.
  eapply gives_bind; [apply gives_attr; in_names|]. destruct (attrs "ExitBySignal") as [s|]; [|by apply returns_ret].
  eapply gives_bind; [apply gives_attr; in_names|]. eapply gives_bind; [apply gives_attr; in_names|].
  assert (Hrest : gives
    (or_else (AnalyzeSinglePeriodicPolicy ad "OnExitHold" POLICY_NONE HOLD_IN_QUEUE)
       (let! _ := modify (fun p => set_subcode 0 (set_reason "" (set_source FS_JobAttribute
                                     (set_fire_expr (Some "OnExitRemove"%string) p)))) in
        let! e := LookupExpr ad "OnExitRemove" in
        let! stays :=
          match e with
          | None => rret false
          | Some e =>
              let! v := EvalExpr ad e in
              match v ≫= IsNumber_int with
              | Some val => let! _ := modify (set_expr_val val) in if val =? 0 then let! _ := unparsed e in rret true else rret false
              | None => rret false
              end
          end in
        if (stays : bool) then rret STAYS_IN_QUEUE else let! _ := modify (set_expr_val 1) in rret REMOVE_FROM_QUEUE))
    (first_rule ([(attr_true "OnExitHold", HOLD_IN_QUEUE)] ++ [(kept_on_exit attrs values, STAYS_IN_QUEUE)]) REMOVE_FROM_QUEUE)).
  { apply gives_table.
    - pose proof (gives_single "OnExitHold" POLICY_NONE HOLD_IN_QUEUE) as H. rewrite orb_false_r in H. apply H. in_names.
    - apply modify_bind; [by intros p|]. eapply gives_bind; [apply gives_attr; in_names|].
      apply (gives_bind _ _ _ _ (kept_on_exit attrs values)).
      + unfold kept_on_exit. destruct (attrs "OnExitRemove") as [e|] eqn:He; [|by apply returns_ret].
        apply (gives_bind _ _ _ _ (values e)); [apply answers_give, (answered_values Hans "OnExitRemove"); [left|done]|].
        cbn [mbind option_bind]. destruct (values e ≫= IsNumber_int) as [val|]; [|by apply returns_ret].
        apply modify_bind; [by intros p|]. destruct (val =? 0); [|by apply returns_ret].
        apply (gives_bind _ _ _ _ tt); [apply gives_unparsed|by apply returns_ret].
      + unfold first_rule. cbn [foldr fst snd]. destruct (kept_on_exit attrs values); [by apply returns_ret|].
        apply modify_bind; [by intros p|by apply returns_ret]. }
  destruct (attrs "ExitCode"), (attrs "ExitSignal"); first [exact Hrest|by apply returns_ret].
Qed.

Lemma gives_in_state mode now state : mode <> OTHER_MODE ->
  gives (in_state oldSemantics functionTable MakeAbsTime MakeRelTime absTimeToString relTimeToString n param ad mode now state)
    (decision ints attrs values holds releases removes mode state now).
Proof.
  intros Hm. unfold in_state, decision. apply modify_bind; [by intros p|]. destruct (state =? REMOVED).
  { destruct mode; [by apply returns_ret| |done]. apply modify_bind; [by intros p|by apply returns_ret]. }
  assert (Hshared : forall k t otherwise, gives k (first_rule t otherwise) -> gives
    (or_else (running_rules oldSemantics functionTable MakeAbsTime MakeRelTime absTimeToString relTimeToString n param ad mode state now)
    (or_else (timer_removal oldSemantics functionTable absTimeToString relTimeToString n ad now)
    (or_else (hold_rule oldSemantics functionTable MakeAbsTime MakeRelTime absTimeToString relTimeToString n param ad state)
    (or_else (release_rule oldSemantics functionTable MakeAbsTime MakeRelTime absTimeToString relTimeToString n param ad state)
    (or_else (remove_rule oldSemantics functionTable MakeAbsTime MakeRelTime absTimeToString relTimeToString n param ad) k)))))
    (first_rule (periodic_table ints attrs values holds releases removes mode state now ++ t) otherwise)).
  { intros k t otherwise Hk.
    apply (gives_table _ _ (take 3 (periodic_table ints attrs values holds releases removes mode state now))); [apply gives_running|].
    apply (gives_table _ _ [_; _]); [apply gives_timer|].
    apply (gives_table _ _ [_]); [apply (gives_guarded _ _ POLICY_SYSTEM_PERIODIC_HOLD); in_names|].
    apply (gives_table _ _ [_]); [apply gives_release|].
    apply (gives_table _ _ [_]); [|exact Hk]. apply (gives_guarded true _ POLICY_SYSTEM_PERIODIC_REMOVE). in_names. }
  destruct mode; [| |done].
  - rewrite <- (app_nil_r (periodic_table _ _ _ _ _ _ _ _ _)). apply Hshared.
    apply modify_bind; [by intros p|by apply returns_ret].
  - apply Hshared, gives_exit.
Qed.
End decides.

(** C6: [AnalyzePolicy] decides by an ordered list of rules. When the attributes, the
    policies and the texts it asks about can be evaluated, it returns, and with the action
    of the first rule that holds: the durations, the periodic vacating, the timer, the
    periodic hold, release and removal, and after the exit those of the exit. *)
Theorem policy_decides : forall oldSemantics functionTable MakeAbsTime MakeRelTime absTimeToString relTimeToString n param
    ad Inv ints attrs values holds releases removes mode state0 now h p,
  answered oldSemantics functionTable MakeAbsTime MakeRelTime n param ad Inv ints attrs values holds releases removes ->
  Inv h -> has_lists holds releases removes p ->
  exists h' p', AnalyzePolicy oldSemantics functionTable MakeAbsTime MakeRelTime absTimeToString relTimeToString n param
      ad mode state0 now (h, p) =
    Ret (policy_decision ints attrs values holds releases removes mode state0 now) (h', p') /\
    Inv h' /\ has_lists holds releases removes p'.
Proof.
  intros old ft mabs mrel absT relT n param ad Inv ints attrs values holds releases removes mode state0 now h p Hans Hh Hp.
  assert (H : returns Inv (has_lists holds releases removes)
      (AnalyzePolicy old ft mabs mrel absT relT n param ad mode state0 now)
      (eq (policy_decision ints attrs values holds releases removes mode state0 now))).
  { destruct (decide (mode = OTHER_MODE)) as [-> |Hm].
    { apply returns_ret. unfold policy_decision. by destruct (if _ : bool then _ else _). }
    rewrite AnalyzePolicy_in_state by done. unfold policy_decision.
    apply (gives_bind _ _ _ _ (if state0 <? 0 then ints "JobStatus" else Some state0)).
    - destruct (state0 <? 0); [|by apply returns_ret]. eapply gives_int; [done|]. unfold int_names. set_solver.
    - destruct (if _ : bool then _ else _); [by apply gives_in_state|by apply returns_ret]. }
  destruct (H h p Hh Hp) as (a&h'&p'&E&?&?&<-). eauto.
Qed.

(** ** A job, a configuration and what is decided *)
Module Sample.
Definition no_functions (_ : string) : option ClassAdFunc := None.
Definition no_times (_ : string) : option ExprTree := None.
Definition no_abs (_ : abstime_t) : text := [].
Definition no_rel (_ : double) : text := [].

Definition job : string :=
  "[ JobStatus = 2; AllowedJobDuration = 1000; ShadowBday = 5000; TimerRemove = 9000; ImageSize = 70; PeriodicHold = ImageSize > 80; PeriodicRemove = ImageSize > 1000; OnExitRemove = false; ExitCode = 0; ExitBySignal = false ]".
Definition config (knob : string) : option string :=
  if String.eqb knob "SYSTEM_PERIODIC_HOLD_NAMES" then Some "big, old"%string
  else if String.eqb knob "SYSTEM_PERIODIC_HOLD_big" then Some "ImageSize >= 50"%string
  else if String.eqb knob "SYSTEM_PERIODIC_HOLD_big_SUBCODE" then Some "ImageSize + 1"%string
  else if String.eqb knob "SYSTEM_PERIODIC_REMOVE" then Some "ImageSize >= 100"%string
  else None.
Definition parsed : heap :=
  match ParseClassAd true true no_times no_times 50 ∅ new_Lexer job true with Ret _ (h, _) => h | _ => ∅ end.
Definition store : heap := Eval vm_compute in parsed.
Definition configured : UserPolicy :=
  match Init true no_times no_times config new_UserPolicy store with Ret p _ => p | _ => new_UserPolicy end.
Definition policies : UserPolicy := Eval vm_compute in configured.
Definition analyze (mode : PolicyMode) (state now : Z) : Res (heap * UserPolicy) PolicyAction :=
  AnalyzePolicy true no_functions no_times no_times no_abs no_rel 30 config 1 mode state now (store, policies).

Definition ints (x : string) : option Z :=
  match LookupInteger true no_functions 30 1 x (store, policies) with Ret o _ => o | _ => None end.
Definition attrs (x : string) : option ExprTree := match LookupExpr 1 x (store, policies) with Ret o _ => o | _ => None end.
Definition values (e : ExprTree) : option Value :=
  match EvalExpr true no_functions 30 1 e (store, policies) with Ret o _ => o | _ => None end.
Abbreviation lists f := (f (m_sys_periodic_holds policies) (m_sys_periodic_releases policies) (m_sys_periodic_removes policies)).

Ltac each_name Hx := repeat (apply elem_of_cons in Hx as [->|Hx]); [..|by apply elem_of_nil in Hx].
Ltac evaluates := intros ? p <-; eexists; split; [vm_compute; reflexivity|reflexivity].
Ltac evaluates_to_some := intros ? p <-; do 2 eexists; split; [vm_compute; reflexivity|reflexivity].

Lemma config_values knob s : config knob = Some s ->
  s ∈ ["big, old"; "ImageSize >= 50"; "ImageSize + 1"; "ImageSize >= 100"]%string.
Proof. unfold config. repeat (destruct (String.eqb _ _); [intros [= <-]; set_solver|]). done. Qed.

Lemma job_answered :
  lists (answered true no_functions no_times no_times 30 config 1 (eq store) ints attrs values).
Proof.
  constructor.
  - intros x Hx. each_name Hx; evaluates.
  - intros x Hx. each_name Hx; evaluates.
  - intros x e Hx He. each_name Hx; vm_compute in He; first [discriminate He|injection He as <-; evaluates].
  - intros q Hq. vm_compute in Hq. each_name Hq; (eexists; split; [reflexivity|evaluates]).
  - intros x Hx. each_name Hx; (split; evaluates_to_some).
  - intros q knob suffix s Hq Hs. apply config_values in Hs. each_name Hs; evaluates_to_some.
Qed.
End Sample.

Lemma policy_decides_witness :
  (Sample.lists (answered true Sample.no_functions Sample.no_times Sample.no_times 30 Sample.config 1 (eq Sample.store)
     Sample.ints Sample.attrs Sample.values) /\ Sample.lists has_lists Sample.policies) /\
  exists h' p', Sample.analyze PERIODIC_ONLY (-1) 5500 = Ret HOLD_IN_QUEUE (h', p').
Proof.
  assert (Hl : Sample.lists has_lists Sample.policies) by exact (conj eq_refl (conj eq_refl eq_refl)).
  split; [exact (conj Sample.job_answered Hl)|].
  destruct (policy_decides true Sample.no_functions Sample.no_times Sample.no_times Sample.no_abs Sample.no_rel 30 Sample.config
    1 (eq Sample.store) Sample.ints Sample.attrs Sample.values _ _ _ PERIODIC_ONLY (-1) 5500 _ _
    Sample.job_answered eq_refl Hl) as (h'&p'&E&_).
  exists h', p'. refine (eq_trans E _).
  assert (Ha : Sample.lists (policy_decision Sample.ints Sample.attrs Sample.values) PERIODIC_ONLY (-1) 5500 = HOLD_IN_QUEUE)
    by (vm_compute; reflexivity).
  by rewrite Ha.
Defined.

Lemma policy_fits_state_witness : exists st',
  Sample.analyze PERIODIC_ONLY (-1) 5500 = Ret HOLD_IN_QUEUE st' /\
  (HOLD_IN_QUEUE = UNDEFINED_EVAL \/ exists state,
     state_of true Sample.no_functions 30 1 (-1) (Sample.store, Sample.policies) state /\ fits PERIODIC_ONLY state HOLD_IN_QUEUE).
Proof.
  assert (E : exists st', Sample.analyze PERIODIC_ONLY (-1) 5500 = Ret HOLD_IN_QUEUE st') by (eexists; vm_compute; reflexivity).
  destruct E as [st' E]. exists st'. split; [exact E|]. exact (policy_fits_state _ _ _ _ _ _ _ _ _ _ _ _ _ _ _ E).
Defined.

Lemma actions_are_explained_witness : exists st',
  (val_ok Sample.policies /\ Sample.analyze PERIODIC_THEN_EXIT 5 5500 = Ret STAYS_IN_QUEUE st') /\
  exists reason code subcode, FiringReason st'.2 = Ret (Some (reason, code, subcode)) st'.2 /\ reason <> ""%string /\ 0 < code.
Proof.
  assert (E : exists st', Sample.analyze PERIODIC_THEN_EXIT 5 5500 = Ret STAYS_IN_QUEUE st') by (eexists; vm_compute; reflexivity).
  assert (Hv : val_ok Sample.policies) by (left; reflexivity).
  destruct E as [st' E]. exists st'. split; [exact (conj Hv E)|].
  destruct (actions_are_explained _ _ _ _ _ _ _ _ _ _ _ _ (Sample.store, Sample.policies) _ _ Hv E) as (_&o&Ho&Ha).
  specialize (Ha ltac:(discriminate)). destruct (decide _) as [[_ Hm]|_]; [discriminate Hm|].
  destruct Ha as (reason&code&subcode&->&?&?). exists reason, code, subcode. exact (conj Ho (conj H H0)).
Defined.

(** ** Corners *)

(** The list of the vacates of the configuration is not consulted: the rule is the one of the
    attribute alone. *)
Lemma system_vacates_unused : forall oldSemantics functionTable MakeAbsTime MakeRelTime absTimeToString relTimeToString n param ad on,
  AnalyzeSinglePeriodicPolicy oldSemantics functionTable MakeAbsTime MakeRelTime absTimeToString relTimeToString n param
    ad "PeriodicVacate" POLICY_SYSTEM_PERIODIC_VACATE on =
  AnalyzeSinglePeriodicPolicy oldSemantics functionTable MakeAbsTime MakeRelTime absTimeToString relTimeToString n param
    ad "PeriodicVacate" POLICY_NONE on.
Proof. reflexivity. Qed.

(** They are not cleared either: a second [Config] has them twice. *)
Definition vacate_config (knob : string) : option string :=
  if String.eqb knob "SYSTEM_PERIODIC_VACATE" then Some "ImageSize > 10"%string else None.
Lemma vacates_accumulate :
  match Init true Sample.no_times Sample.no_times vacate_config new_UserPolicy ∅ with
  | Ret p h => match Config true Sample.no_times Sample.no_times vacate_config p h with
               | Ret p' _ => length (m_sys_periodic_vacates p) = 1%nat /\ length (m_sys_periodic_vacates p') = 2%nat
               | _ => False
               end
  | _ => False
  end.
Proof. vm_compute. split; reflexivity. Qed.

(** The timer gives the reason of an earlier decision. *)
Lemma timer_keeps_reason :
  match Sample.analyze PERIODIC_ONLY 2 6500 with
  | Ret a (h, p) =>
      match AnalyzePolicy true Sample.no_functions Sample.no_times Sample.no_times Sample.no_abs Sample.no_rel 30 Sample.config 1
              PERIODIC_ONLY 1 9500 (h, p) with
      | Ret a' (_, p') =>
          a' = REMOVE_FROM_QUEUE /\
          match FiringReason p' with
          | Ret o _ => o = Some ("The job exceeded allowed job duration of 16:40"%string, JobPolicy, 0)
          | _ => False
          end
      | _ => False
      end
  | _ => False
  end.
Proof. vm_compute. split; reflexivity. Qed.

(** [OnExitRemove] is read as an [int]: a number that is not zero but is one as an [int]
    keeps the job, where as [PeriodicRemove] it fires. *)
Lemma exit_remove_truncates :
  is_true (Some (INTEGER_VALUE 4294967296)) = true /\ IsNumber_int (INTEGER_VALUE 4294967296) = Some 0.
Proof. split; reflexivity. Qed.
