(* ===== verification/ArgList.v ===== *)
(** * Lists of arguments and their texts (condor_arglist.cpp, condor_arglist.h)

    An argument list has a text in several syntaxes: V2, with single quotes around what
    needs them, raw or between double quotes; V1, which separates by blanks, read as a
    Unix or a Windows program would, raw or with its double quotes escaped; and the command
    line of a Windows process. The module reads and writes all of them, and moves them from
    and to the ClassAd of a job.

    A [char const *] is the text before its zero byte; a [std::string] is any text, and
    [c_text] is what [c_str ()] shows of it. Null pointers are left out: the code returns
    at once on them. A method takes the object and the error message and returns them with
    its result; [Except] is a failed [ASSERT] or an [EXCEPT]. A quoted section is a loop of its
    own with the rest of the outer loop as its continuation. *)
From Stdlib Require Import ZArith Lia Ascii String.
From stdpp Require Import base list gmap strings.
From S2P Require Import Prelude Double Numerals Tree Values Lexer FlatMap AdStore Eval Unparser.

(** What a [const char *] sees of a [std::string]. *)
Fixpoint c_text (s : text) : text :=
  match s with
  | [] => []
  | c :: s' => if Ascii.eqb c zero then [] else c :: c_text s'
  end.

Definition backslash : ascii := "\".
(** The separators: blank, tab, newline and carriage return. *)
Definition is_sep (c : ascii) : bool :=
  Ascii.eqb c " " || Ascii.eqb c "009" || Ascii.eqb c "010" || Ascii.eqb c "013".

(** ** V2 raw *)

(** The loop of [append_arg]; a quoted section that ends just before is continued. *)
Fixpoint append_chars (arg result : text) : text :=
  match arg with
  | [] => result
  | c :: arg' =>
      if is_sep c || Ascii.eqb c squote then
        let result :=
          if decide (last result = Some squote) then take (length result - 1) result
          else result ++ [squote] in
        let result := if Ascii.eqb c squote then result ++ [squote] else result in
        append_chars arg' (result ++ [c; squote])
      else append_chars arg' (result ++ [c])
  end.
Definition append_arg (arg result : text) : text :=
  let result := match result with [] => [] | _ => result ++ [" "%char] end in
  let result := match arg with [] => result ++ [squote; squote] | _ => result end in
  append_chars arg result.

(** [join_args] of a vector and of an array of strings: the first [start_arg] are left out. *)
Definition join_args (args_list : list text) (result : text) (start_arg : nat) : text :=
  foldl (fun result arg => append_arg (c_text arg) result) result (drop start_arg args_list).

(** A quoted section of [split_args], from after the quote; [k] goes on after the closing
    one. *)
Section quoted.
Context {R : Type} (k : text -> text -> R) (unbalanced : R).
Fixpoint quote_loop (args buf : text) : R :=
  match args with
  | [] => unbalanced
  | c :: args' =>
      if Ascii.eqb c squote then
        match args' with
        | d :: args'' => if Ascii.eqb d squote then quote_loop args'' (buf ++ [c]) else k args' buf
        | [] => k args' buf
        end
      else quote_loop args' (buf ++ [c])
  end.
End quoted.

(** The result of [split_args]: success, the arguments read, and the error message. *)
Fixpoint split_loop (args buf : text) (parsed_token : bool) (args_list : list text) (error_msg : text)
  : bool * list text * text :=
  match args with
  | [] => (true, if parsed_token then args_list ++ [buf] else args_list, error_msg)
  | c :: args' =>
      if Ascii.eqb c squote then
        quote_loop (fun rest buf => split_loop rest buf true args_list error_msg)
          (false, args_list, txt "Unbalanced quote starting here: " ++ args) args' buf
      else if is_sep c then
        if parsed_token then split_loop args' [] false (args_list ++ [buf]) error_msg
        else split_loop args' buf false args_list error_msg
      else split_loop args' (buf ++ [c]) true args_list error_msg
  end.
Definition split_args (args : text) (args_list : list text) (error_msg : text) : bool * list text * text :=
  split_loop args [] false args_list error_msg.

Definition ArgListToArgsArray (args_list : list text) : list text := c_text <$> args_list.

(** ** Quoting of whole texts *)
Definition AddErrorMessage (msg error_buffer : text) : text :=
  match error_buffer with [] => [] | _ => error_buffer ++ ["010"%char] end ++ msg.

(** [EscapeChars]: [strchr] finds the zero byte in every set of characters. *)
Definition EscapeChars (src Q : text) (escape : ascii) : text :=
  src ≫= fun c => if bool_decide (c ∈ Q) || Ascii.eqb c zero then [escape; c] else [c].

Fixpoint skip_spaces (s : text) : text :=
  match s with
  | c :: s' => if isspace c then skip_spaces s' else s
  | [] => []
  end.
Definition IsV2QuotedString (str : text) : bool :=
  match skip_spaces str with c :: _ => Ascii.eqb c dquote | [] => false end.

(** The loop of [V2QuotedToV2Raw]: the text from the terminating quote, if there is one. *)
Fixpoint unquote_loop (v1_input v2_raw : text) : option text * text :=
  match v1_input with
  | [] => (None, v2_raw)
  | c :: rest =>
      if Ascii.eqb c dquote then
        match rest with
        | d :: rest' => if Ascii.eqb d dquote then unquote_loop rest' (v2_raw ++ [d]) else (Some v1_input, v2_raw)
        | [] => (Some v1_input, v2_raw)
        end
      else unquote_loop rest (v2_raw ++ [c])
  end.
Definition V2QuotedToV2Raw (v1_input v2_raw : text) (errmsg : text) : Res text (bool * text) :=
  let v1_input := skip_spaces v1_input in
  if negb (IsV2QuotedString v1_input) then Except
  else
    match unquote_loop (tail v1_input) v2_raw with
    | (None, v2_raw) => Ret (false, v2_raw) (AddErrorMessage (txt "Unterminated double-quote.") errmsg)
    | (Some quote_terminated, v2_raw) =>
        match skip_spaces (tail quote_terminated) with
        | [] => Ret (true, v2_raw) errmsg
        | _ =>
            Ret (false, v2_raw)
              (AddErrorMessage
                 (txt "Unexpected characters following double-quote.  Did you forget to escape the double-quote by repeating it?  Here is the quote and trailing characters: "
                  ++ quote_terminated ++ ["010"%char]) errmsg)
        end
    end.

Fixpoint unwack_loop (v1_input v1_raw errmsg : text) : bool * text * text :=
  match v1_input with
  | [] => (true, v1_raw, errmsg)
  | c :: rest =>
      if Ascii.eqb c dquote then
        (false, v1_raw, AddErrorMessage (txt "Found illegal unescaped double-quote: " ++ v1_input) errmsg)
      else if Ascii.eqb c backslash then
        match rest with
        | d :: rest' =>
            if Ascii.eqb d dquote then unwack_loop rest' (v1_raw ++ [d]) errmsg
            else unwack_loop rest (v1_raw ++ [c]) errmsg
        | [] => unwack_loop rest (v1_raw ++ [c]) errmsg
        end
      else unwack_loop rest (v1_raw ++ [c]) errmsg
  end.
Definition V1WackedToV1Raw (v1_input v1_raw : text) (errmsg : text) : Res text (bool * text) :=
  if IsV2QuotedString v1_input then Except
  else let '(ok, v1_raw, errmsg) := unwack_loop v1_input v1_raw errmsg in Ret (ok, v1_raw) errmsg.

Definition V2RawToV2Quoted (v2_raw result : text) : text :=
  result ++ dquote :: c_text (EscapeChars v2_raw [dquote] dquote) ++ [dquote].
Definition V1RawToV1Wacked (v1_raw result : text) : text :=
  result ++ EscapeChars v1_raw [dquote] backslash.

(** ** V1 raw *)

(** The loop of [AppendArgsV1Raw_unix]. *)
Fixpoint unix_loop (args buf : text) (parsed_token : bool) (args_list : list text) : list text :=
  match args with
  | [] => if parsed_token then args_list ++ [buf] else args_list
  | c :: args' =>
      if is_sep c then
        if parsed_token then unix_loop args' [] false (args_list ++ [buf])
        else unix_loop args' buf false args_list
      else unix_loop args' (buf ++ [c]) true args_list
  end.

(** A quoted section of a Windows command line, after [n] backslashes that are not yet
    decided on; [k] goes on after the closing quote. *)
Section win32_quoted.
Context {R : Type} (k : text -> text -> R) (unterminated : R).
Fixpoint win32_quote_loop (args buf : text) (backslashes : nat) : R :=
  match args with
  | [] => unterminated
  | c :: args' =>
      if Ascii.eqb c backslash then win32_quote_loop args' buf (S backslashes)
      else if Ascii.eqb c dquote then
        let buf := buf ++ replicate (backslashes / 2) backslash in
        if Nat.odd backslashes then win32_quote_loop args' (buf ++ [c]) 0 else k args' buf
      else win32_quote_loop args' (buf ++ replicate backslashes backslash ++ [c]) 0
  end.
End win32_quoted.

(** The loops of [AppendArgsV1Raw_win32]; [begun] is [args > begin_arg]. *)
Fixpoint win32_loop (args buf : text) (begun : bool) (args_list : list text) (error_msg : text)
  : bool * list text * text :=
  match args with
  | [] => (true, if begun then args_list ++ [buf] else args_list, error_msg)
  | c :: args' =>
      if is_sep c then win32_loop args' [] false (if begun then args_list ++ [buf] else args_list) error_msg
      else if negb (Ascii.eqb c dquote) then win32_loop args' (buf ++ [c]) true args_list error_msg
      else
        win32_quote_loop (fun rest buf => win32_loop rest buf true args_list error_msg)
          (false, args_list,
           AddErrorMessage (txt "Unterminated quote in windows argument string starting here: " ++ args) error_msg)
          args' buf 0
  end.

(** ** [ArgList] *)
Inductive ArgV1Syntax := UNKNOWN_ARGV1_SYNTAX | WIN32_ARGV1_SYNTAX | UNIX_ARGV1_SYNTAX.
Record ArgList := mk_ArgList {
  args_list : list text;
  input_was_unknown_platform_v1 : bool;
  v1_syntax : ArgV1Syntax
}.
Definition new_ArgList : ArgList := mk_ArgList [] false UNKNOWN_ARGV1_SYNTAX.
Definition set_args (l : list text) (s : ArgList) : ArgList :=
  mk_ArgList l (input_was_unknown_platform_v1 s) (v1_syntax s).

Definition Count (s : ArgList) : nat := length (args_list s).
Definition Clear (s : ArgList) : ArgList := mk_ArgList [] false (v1_syntax s).
Definition GetArg (n : nat) (s : ArgList) : option text := c_text <$> args_list s !! n.
Definition AppendArg (arg : text) (s : ArgList) : ArgList := set_args (args_list s ++ [arg]) s.
Definition RemoveArg (pos : nat) (s : ArgList) : ArgList :=
  if decide (pos < length (args_list s))%nat
  then set_args (take pos (args_list s) ++ drop (S pos) (args_list s)) s else s.
Definition InsertArg (arg : text) (pos : nat) (s : ArgList) : Res ArgList unit :=
  if decide (pos <= Count s)%nat
  then Ret tt (set_args (take pos (args_list s) ++ arg :: drop pos (args_list s)) s) else Except.
Definition GetStringArray (s : ArgList) : list text := ArgListToArgsArray (args_list s).
Definition SetArgV1Syntax (v1_syntax_param : ArgV1Syntax) (s : ArgList) : ArgList :=
  mk_ArgList (args_list s) (input_was_unknown_platform_v1 s) v1_syntax_param.
(** Not on Windows. *)
Definition SetArgV1SyntaxToCurrentPlatform : ArgList -> ArgList := SetArgV1Syntax UNIX_ARGV1_SYNTAX.

(** *** Reading *)
Abbreviation Method := (ArgList * text -> Res (ArgList * text) bool).

(** A function on the arguments and the error message. *)
Definition on_args (f : list text -> text -> bool * list text * text) : Method := fun '(s, error_msg) =>
  let '(ok, l, error_msg) := f (args_list s) error_msg in Ret ok (set_args l s, error_msg).
(** A conversion, and what is done with its result when it succeeds. *)
Definition with_text (convert : text -> Res text (bool * text)) (k : text -> Method) : Method :=
  fun '(s, error_msg) =>
  match convert error_msg with
  | Ret (true, v) error_msg => k v (s, error_msg)
  | Ret (false, _) error_msg => Ret false (s, error_msg)
  | NoFuel => NoFuel
  | Except => Except
  end.

Definition AppendArgsV1Raw_win32 (args : text) : Method := on_args (win32_loop args [] false).
Definition AppendArgsV1Raw_unix (args : text) : Method :=
  on_args (fun l error_msg => (true, unix_loop args [] false l, error_msg)).
Definition AppendArgsV1Raw (args : text) : Method := fun '(s, error_msg) =>
  match v1_syntax s with
  | WIN32_ARGV1_SYNTAX => AppendArgsV1Raw_win32 args (s, error_msg)
  | UNIX_ARGV1_SYNTAX => AppendArgsV1Raw_unix args (s, error_msg)
  | UNKNOWN_ARGV1_SYNTAX =>
      AppendArgsV1Raw_unix args (mk_ArgList (args_list s) true (v1_syntax s), error_msg)
  end.
Definition AppendArgsV2Raw (args : text) : Method := on_args (split_args args).
Definition AppendArgsV2Quoted (args : text) : Method := fun '(s, error_msg) =>
  if negb (IsV2QuotedString args) then
    Ret false (s, AddErrorMessage (txt "Expecting double-quoted input string (V2 format).") error_msg)
  else
    with_text (V2QuotedToV2Raw args []) (fun v2 => AppendArgsV2Raw (c_text v2)) (s, error_msg).
Definition AppendArgsV1RawOrV2Quoted (args : text) : Method :=
  if IsV2QuotedString args
  then with_text (V2QuotedToV2Raw args []) (fun v2 => AppendArgsV2Raw (c_text v2))
  else AppendArgsV1Raw args.
Definition AppendArgsV1WackedOrV2Quoted (args : text) : Method :=
  if IsV2QuotedString args
  then with_text (V2QuotedToV2Raw args []) (fun v2 => AppendArgsV2Raw (c_text v2))
  else with_text (V1WackedToV1Raw args []) (fun v1 => AppendArgsV1Raw (c_text v1)).
Definition AppendArgsFromArgList (args s : ArgList) : ArgList :=
  foldl (fun s arg => AppendArg arg s)
    (mk_ArgList (args_list s) (input_was_unknown_platform_v1 args) (v1_syntax s)) (args_list args).

(** *** Writing *)
Definition IsSafeArgV1Value (str : text) : bool := forallb (fun c => negb (is_sep c)) str.

Fixpoint v1_loop (l : list text) (result error_msg : text) : bool * text * text :=
  match l with
  | [] => (true, result, error_msg)
  | arg :: l' =>
      if negb (IsSafeArgV1Value (c_text arg)) then
        (false, result, txt "Cannot represent '" ++ c_text arg ++ txt "' in V1 arguments syntax.")
      else
        let result := match result with [] => [] | _ => result ++ [" "%char] end in
        v1_loop l' (result ++ arg) error_msg
  end.
Definition GetArgsStringV1Raw (result error_msg : text) (s : ArgList) : bool * text * text :=
  v1_loop (args_list s) result error_msg.
Definition GetArgsStringV2Raw (result : text) (start_arg : nat) (s : ArgList) : text :=
  join_args (args_list s) result start_arg.
Definition GetArgsStringForDisplay (result : text) (start_arg : nat) (s : ArgList) : text :=
  GetArgsStringV2Raw result start_arg s.
Definition GetArgsStringV2Quoted (result : text) (s : ArgList) : text :=
  V2RawToV2Quoted (GetArgsStringV2Raw [] 0 s) result.
Definition GetArgsStringV1WackedOrV2Quoted (result : text) (s : ArgList) : text :=
  let '(ok, v1_raw, _) := GetArgsStringV1Raw [] [] s in
  if (ok : bool) then V1RawToV1Wacked v1_raw result else GetArgsStringV2Quoted result s.

(** White space in C-style escapes. *)
Definition logged_char (c : ascii) : text :=
  if Ascii.eqb c " " then txt "\ "
  else if Ascii.eqb c "009" then txt "\t"
  else if Ascii.eqb c "011" then txt "\v"
  else if Ascii.eqb c "010" then txt "\n"
  else if Ascii.eqb c "013" then txt "\r"
  else [c].
Definition GetArgsStringForLogging (result : text) (s : ArgList) : text :=
  foldl (fun result arg =>
    match result with [] => [] | _ => result ++ [" "%char] end ++ (c_text arg ≫= logged_char))
    result (args_list s).

(** A quoted argument of a Windows command line, from where [n] backslashes were written. *)
Fixpoint win32_quote (argstr : text) (n : nat) : text :=
  match argstr with
  | [] => replicate n backslash
  | c :: argstr' =>
      if Ascii.eqb c backslash then c :: win32_quote argstr' (S n)
      else if Ascii.eqb c dquote then replicate n backslash ++ backslash :: c :: win32_quote argstr' 0
      else c :: win32_quote argstr' 0
  end.
Definition win32_special (c : ascii) : bool := Ascii.eqb c " " || Ascii.eqb c "009" || Ascii.eqb c dquote.
Definition win32_arg (was_v1 : bool) (arg : text) : text :=
  if was_v1 then arg
  else if forallb (fun c => negb (win32_special c)) (c_text arg) then arg
  else dquote :: win32_quote (c_text arg) 0 ++ [dquote].
Definition GetArgsStringWin32 (result : text) (skip_args : nat) (s : ArgList) : text :=
  foldl (fun result arg =>
    match result with [] => [] | _ => result ++ [" "%char] end
      ++ win32_arg (input_was_unknown_platform_v1 s) arg)
    result (drop skip_args (args_list s)).

(** For [system ()], not on Windows: every argument between double quotes. *)
Definition system_arg (arg : text) : text :=
  dquote :: c_text (EscapeChars arg [dquote; backslash; "$"; "`"]%char backslash) ++ [dquote].
Definition GetArgsStringSystem (result : text) (skip_args : nat) (s : ArgList) : text :=
  foldl (fun result arg =>
    match result with [] => [] | _ => result ++ [" "%char] end ++ system_arg arg)
    result (drop skip_args (args_list s)).

(** *** The ClassAd of a job *)
Definition ATTR_JOB_ARGUMENTS1 : string := "Args".
Definition ATTR_JOB_ARGUMENTS2 : string := "Arguments".

(** [built_since_version], given the scalar of the version at hand. *)
Definition built_since_version (MajorVer MinorVer SubMinorVer : Z) (scalar : Z) : bool :=
  MajorVer * 1000000 + MinorVer * 1000 + SubMinorVer <=? scalar.
Definition CondorVersionRequiresV1 (scalar : Z) : bool := negb (built_since_version 6 7 15 scalar).

Section job.
Variable oldSemantics : bool.
Variable functionTable : string -> option ClassAdFunc.
Variable n : nat.

Abbreviation LookupString := (fun ad name => EvaluateAttrString oldSemantics functionTable n ad name).

Definition GetArgsStringForDisplay_ad (ad : adref) (result : text) : M text :=
  let! o := LookupString ad ATTR_JOB_ARGUMENTS2 in
  match o with
  | Some s => rret (txt s)
  | None =>
      let! o := LookupString ad ATTR_JOB_ARGUMENTS1 in
      rret (from_option txt result o)
  end.

(** [AppendArgsFromClassAd] *)
Definition AppendArgsFromClassAd (ad : adref) (s : ArgList) (error_msg : text)
  : M (Res (ArgList * text) bool) :=
  let! o := LookupString ad ATTR_JOB_ARGUMENTS2 in
  match o with
  | Some args2 => rret (AppendArgsV2Raw (c_text (txt args2)) (s, error_msg))
  | None =>
      let! o := LookupString ad ATTR_JOB_ARGUMENTS1 in
      match o with
      | Some args1 => rret (AppendArgsV1Raw (c_text (txt args1)) (s, error_msg))
      | None => rret (Ret true (s, error_msg))
      end
  end.
End job.

(** [InsertArgsIntoClassAd]; a version is given by its scalar. The result has the error
    message. *)
Definition InsertArgsIntoClassAd (h : heap) (ad : adref) (condor_version : option Z) (error_msg : text)
    (s : ArgList) : option (heap * (bool * text)) :=
  has_args1 ← Lookup h ad ATTR_JOB_ARGUMENTS1;
  has_args2 ← Lookup h ad ATTR_JOB_ARGUMENTS2;
  let requires_v1 :=
    match condor_version with
    | Some v => CondorVersionRequiresV1 v
    | None => input_was_unknown_platform_v1 s
    end in
  let condor_version_requires_v1 := present condor_version in
  h ← (if negb requires_v1 then
         fst <$> InsertAttr_string h ad ATTR_JOB_ARGUMENTS2 (of_text (c_text (GetArgsStringV2Raw [] 0 s)))
       else if present has_args2 then fst <$> Delete h ad ATTR_JOB_ARGUMENTS2 else Some h);
  if requires_v1 then
    match GetArgsStringV1Raw [] error_msg s with
    | (true, args1, error_msg) =>
        h ← fst <$> InsertAttr_string h ad ATTR_JOB_ARGUMENTS1 (of_text (c_text args1));
        Some (h, (true, error_msg))
    | (false, _, error_msg) =>
        if condor_version_requires_v1 && negb (input_was_unknown_platform_v1 s) then
          h ← fst <$> Delete h ad ATTR_JOB_ARGUMENTS1;
          h ← fst <$> Delete h ad ATTR_JOB_ARGUMENTS2;
          Some (h, (true, error_msg))
        else Some (h, (false, AddErrorMessage (txt "Failed to convert arguments to V1 syntax.") error_msg))
    end
  else if present has_args1 then
    h ← fst <$> Delete h ad ATTR_JOB_ARGUMENTS1; Some (h, (true, error_msg))
  else Some (h, (true, error_msg)).
