(* ===== verification/ArgListLaws.v ===== *)
(** * Argument lists survive their texts

    The V2 text of any list of arguments is read back into the list, raw, quoted, and
    through the ClassAd of a job; V1 texts lose exactly the empty arguments; a Windows
    command line is read back when its arguments have no line breaks and are not empty. *)
From Stdlib Require Import ZArith Lia Ascii String.
From stdpp Require Import base list gmap strings.
From S2P Require Import Prelude Double Numerals Tree Values Lexer FlatMap AdStore AdStoreFacts AdStoreLaws Eval EvalFacts Unparser LexerFacts JobAd ArgList.

#[local] Arguments txt : simpl never.
#[local] Arguments Nat.div : simpl never.
#[local] Arguments Nat.odd : simpl never.
#[local] Arguments Nat.even : simpl never.

(** ** Characters *)
Lemma c_text_id s : no_nul s -> c_text s = s.
Proof.
  induction s as [|c s IH]; [done|]. intros [Hc Hs]%no_nul_cons. simpl.
  rewrite (proj2 (Ascii.eqb_neq c zero)) by done. by rewrite IH.
Qed.
Lemma is_sep_char c : is_sep c = true -> c = " "%char \/ c = "009"%char \/ c = "010"%char \/ c = "013"%char.
Proof. unfold is_sep. rewrite !orb_true_iff, !Ascii.eqb_eq. tauto. Qed.
Lemma sep_not c d : is_sep c = true -> is_sep d = false -> Ascii.eqb c d = false.
Proof. intros Hc Hd. apply Ascii.eqb_neq. intros ->. by rewrite Hd in Hc. Qed.

(** The blank between the arguments. *)
Definition spaced (result : text) : text := match result with [] => [] | _ => result ++ [" "%char] end.
Definition unquoted_end (result : text) : Prop := last result <> Some squote.
Lemma spaced_end result : unquoted_end (spaced result).
Proof. unfold unquoted_end. destruct result; [done|]. unfold spaced. by rewrite last_snoc. Qed.

(** ** Joining texts by blanks, and reading them one by one *)

(** What follows an argument. *)
Definition after_arg (rest : text) : Prop := match rest with [] => True | c :: _ => is_sep c = true end.

Section joined.
Context {A : Type} (f : A -> text).

Definition more_text (l : list A) : text := l ≫= fun a => " "%char :: f a.
Definition join_text (l : list A) : text := match l with [] => [] | a :: l' => f a ++ more_text l' end.

Lemma foldl_more l : forall r, r <> [] -> foldl (fun r a => spaced r ++ f a) r l = r ++ more_text l.
Proof.
  induction l as [|a l IH]; intros r Hr; simpl; [by rewrite app_nil_r|].
  destruct r as [|c r]; [done|]. rewrite IH by (by destruct r).
  unfold spaced. by rewrite <- !app_assoc.
Qed.
Lemma foldl_join l : Forall (fun a => f a <> []) l -> foldl (fun r a => spaced r ++ f a) [] l = join_text l.
Proof. destruct 1 as [|a l Ha _]; [done|]. simpl. by apply foldl_more. Qed.

(** A loop that reads what [f] writes for an argument, and ends the argument at a blank. *)
Context {R : Type} (loop : text -> text -> bool -> list text -> R) (decoded : A -> text)
  (finish : list text -> R) (P : A -> Prop).
Hypothesis loop_reads : forall a rest acc,
  P a -> after_arg rest -> loop (f a ++ rest) [] false acc = loop rest (decoded a) true acc.
Hypothesis loop_sep : forall rest buf acc,
  loop (" "%char :: rest) buf true acc = loop rest [] false (acc ++ [buf]).
Hypothesis loop_end : forall buf acc, loop [] buf true acc = finish (acc ++ [buf]).
Hypothesis loop_nil : forall acc, loop [] [] false acc = finish acc.

Lemma read_more l : Forall P l -> forall buf acc,
  loop (more_text l) buf true acc = finish (acc ++ buf :: (decoded <$> l)).
Proof.
  induction 1 as [|a l Ha _ IH]; intros buf acc; simpl; [apply loop_end|].
  rewrite loop_sep, loop_reads, IH, <- app_assoc; [done|done|by destruct l].
Qed.
Lemma read_joined l acc : Forall P l -> loop (join_text l) [] false acc = finish (acc ++ (decoded <$> l)).
Proof.
  destruct 1 as [|a l Ha Hl]; simpl; [by rewrite loop_nil, app_nil_r|].
  rewrite loop_reads by (done || by destruct l). by apply read_more.
Qed.
End joined.

(** ** V2 raw *)

(** The text [append_arg] adds for an argument, [inq] after a quoted character. *)
Fixpoint enc (inq : bool) (arg : text) : text :=
  match arg with
  | [] => if inq then [squote] else []
  | c :: arg' =>
      if is_sep c || Ascii.eqb c squote then
        (if inq then [] else [squote]) ++ (if Ascii.eqb c squote then [squote; c] else [c]) ++ enc true arg'
      else (if inq then [squote] else []) ++ c :: enc false arg'
  end.

Lemma append_chars_enc arg : forall result,
  (unquoted_end result -> append_chars arg result = result ++ enc false arg) /\
  append_chars arg (result ++ [squote]) = result ++ enc true arg.
Proof.
  induction arg as [|c arg IH]; intros result; simpl.
  - split; [|done]. intros _. by rewrite app_nil_r.
  - rewrite last_snoc, (decide_True (P := Some squote = Some squote)) by done.
    rewrite length_app, Nat.add_sub, take_app_length.
    destruct (is_sep c || Ascii.eqb c squote) eqn:Ec.
    + assert (Hq : forall r, append_chars arg ((if Ascii.eqb c squote then r ++ [squote] else r) ++ [c; squote]) =
                        r ++ (if Ascii.eqb c squote then [squote; c] else [c]) ++ enc true arg).
      { intros r. destruct (Ascii.eqb c squote); simpl.
        - replace ((r ++ [squote]) ++ [c; squote]) with ((r ++ [squote; c]) ++ [squote]) by by rewrite <- !app_assoc.
          rewrite (proj2 (IH _)), <- app_assoc. done.
        - replace (r ++ [c; squote]) with ((r ++ [c]) ++ [squote]) by by rewrite <- app_assoc.
          rewrite (proj2 (IH _)), <- app_assoc. done. }
      split; [intros Hr; rewrite decide_False by done|]; rewrite Hq; [|done].
      by rewrite <- !app_assoc.
    + apply orb_false_elim in Ec as [_ Ec%Ascii.eqb_neq].
      assert (Hend : forall r, unquoted_end (r ++ [c])).
      { intros r. unfold unquoted_end. rewrite last_snoc. congruence. }
      split; [intros Hr|]; rewrite (proj1 (IH _)) by apply Hend; by rewrite <- !app_assoc.
Qed.

Definition enc_arg (arg : text) : text := match arg with [] => [squote; squote] | _ => enc false arg end.

Lemma append_arg_enc arg result : append_arg arg result = spaced result ++ enc_arg arg.
Proof.
  unfold append_arg. fold (spaced result). destruct arg as [|c arg]; [done|].
  apply append_chars_enc, spaced_end.
Qed.

(** Reading what was written for one argument. *)
Lemma split_enc arg : forall rest buf l err fail, after_arg rest ->
  (forall p, split_loop (enc false arg ++ rest) buf p l err =
             split_loop rest (buf ++ arg) (p || negb (bool_decide (arg = []))) l err) /\
  quote_loop (fun rest buf => split_loop rest buf true l err) fail (enc true arg ++ rest) buf =
    split_loop rest (buf ++ arg) true l err.
Proof.
  induction arg as [|c arg IH]; intros rest buf l err fail Hr; simpl.
  - rewrite app_nil_r. split; [intros p; by rewrite orb_false_r|].
    destruct rest as [|d rest]; [done|]. by rewrite (sep_not d squote).
  - assert (Hq : forall fail, quote_loop (fun rest buf => split_loop rest buf true l err) fail
              ((if Ascii.eqb c squote then [squote; c] else [c]) ++ enc true arg ++ rest) buf =
              split_loop rest (buf ++ c :: arg) true l err).
    { intros fail'. replace (buf ++ c :: arg) with ((buf ++ [c]) ++ arg) by by rewrite <- app_assoc.
      rewrite <- (proj2 (IH rest (buf ++ [c]) l err fail' Hr)).
      destruct (Ascii.eqb c squote) eqn:E; [by apply Ascii.eqb_eq in E as ->|]. simpl. by rewrite E. }
    destruct (is_sep c || Ascii.eqb c squote) eqn:Ec; (split; [intros p|]); simpl; rewrite <- ?app_assoc; simpl.
    + rewrite orb_true_r. apply Hq.
    + apply Hq.
    + apply orb_false_elim in Ec as [Es Ec]. rewrite Ec, Es, (proj1 (IH _ _ _ _ fail Hr)), <- app_assoc. 
      by rewrite orb_true_r.
    + apply orb_false_elim in Ec as [Es Ec]. rewrite Ec, Es, (proj1 (IH _ _ _ _ fail Hr)), <- app_assoc. done.
Qed.

Lemma split_arg arg rest l err : after_arg rest ->
  split_loop (enc_arg arg ++ rest) [] false l err = split_loop rest arg true l err.
Proof.
  intros Hr. destruct arg as [|c arg].
  - simpl. destruct rest as [|d rest]; [done|]. by rewrite (sep_not d squote).
  - unfold enc_arg. by rewrite (proj1 (split_enc (c :: arg) rest [] l err (false, [], []) Hr)).
Qed.

Lemma enc_arg_not_nil arg : enc_arg arg <> [].
Proof. destruct arg as [|c arg]; [done|]. simpl. by destruct (is_sep c || Ascii.eqb c squote). Qed.

Lemma join_args_text l : Forall no_nul l -> join_args l [] 0 = join_text enc_arg l.
Proof.
  intros Hl. rewrite <- foldl_join by (apply Forall_true, enc_arg_not_nil). unfold join_args. simpl.
  generalize (@nil ascii) as r. induction Hl as [|a l Ha _ IH]; intros r; [done|]. simpl.
  rewrite (c_text_id a Ha), append_arg_enc. apply IH.
Qed.

Lemma split_joined l acc err : split_args (join_text enc_arg l) acc err = (true, acc ++ l, err).
Proof.
  unfold split_args.
  rewrite (read_joined enc_arg (fun t b p l => split_loop t b p l err) id (fun l => (true, l, err)) (fun _ => True)).
  - by rewrite list_fmap_id.
  - intros a rest acc' _ Hr. by apply split_arg.
  - done.
  - done.
  - done.
  - by apply Forall_true.
Qed.

(** C25: The V2 text of a list of arguments, whatever characters they hold, is split into the
    same list. *)
Theorem split_args_join_args l acc err : Forall no_nul l ->
  split_args (join_args l [] 0) acc err = (true, acc ++ l, err).
Proof. intros Hl. rewrite join_args_text by done. apply split_joined. Qed.

(** ** Double quotes *)
Lemma no_nul_enc arg : forall q, no_nul arg -> no_nul (enc q arg).
Proof.
  induction arg as [|c arg IH]; intros q; simpl.
  - intros _. destruct q; repeat constructor; done.
  - intros [Hc Ha]%no_nul_cons.
    assert (Hs : forall b : bool, no_nul (if b then [] else [squote])) by (intros []; repeat constructor; done).
    destruct (_ || _); [|specialize (Hs (negb q))]; rewrite ?no_nul_app, ?no_nul_cons.
    + repeat split; [apply Hs| |by apply IH]. destruct (Ascii.eqb c squote); repeat constructor; done.
    + repeat split; [by destruct q|done|by apply IH].
Qed.
Lemma no_nul_joined l : Forall no_nul l -> no_nul (join_text enc_arg l).
Proof.
  assert (Ha : forall a, no_nul a -> no_nul (enc_arg a)).
  { intros [|c a] Ha; [repeat constructor; done|]. by apply no_nul_enc. }
  destruct 1 as [|a l H0 Hl]; [by constructor|]. simpl. rewrite no_nul_app. split; [by apply Ha|].
  induction Hl as [|b l Hb _ IH]; [by constructor|]. unfold more_text in *. simpl.
  rewrite no_nul_cons, no_nul_app. auto.
Qed.
Lemma no_nul_escape s Q e : no_nul s -> e <> zero -> no_nul (EscapeChars s Q e).
Proof.
  intros Hs He. induction s as [|c s IH]; [by constructor|]. apply no_nul_cons in Hs as [Hc Hs].
  unfold EscapeChars in *. simpl. rewrite no_nul_app. split; [|by apply IH].
  case_match; repeat constructor; done.
Qed.

Lemma EscapeChars_dquote c s e : c <> zero ->
  EscapeChars (c :: s) [dquote] e = (if Ascii.eqb c dquote then [e; c] else [c]) ++ EscapeChars s [dquote] e.
Proof.
  intros Hc. unfold EscapeChars. simpl. rewrite (proj2 (Ascii.eqb_neq c zero)) by done. rewrite orb_false_r.
  destruct (Ascii.eqb_spec c dquote) as [->|Hd]; [done|].
  rewrite bool_decide_eq_false_2; [done|]. rewrite list_elem_of_singleton. done.
Qed.

Lemma unquote_escaped s : forall raw, no_nul s ->
  unquote_loop (EscapeChars s [dquote] dquote ++ [dquote]) raw = (Some [dquote], raw ++ s).
Proof.
  induction s as [|c s IH]; intros raw; [by rewrite app_nil_r|].
  intros [Hc Hs]%no_nul_cons. rewrite EscapeChars_dquote by done.
  assert (E : raw ++ c :: s = (raw ++ [c]) ++ s) by by rewrite <- app_assoc. rewrite E, <- IH by done.
  destruct (Ascii.eqb c dquote) eqn:Ed; simpl; rewrite Ed; [|done].
  by apply Ascii.eqb_eq in Ed as ->.
Qed.

Lemma V2Quoted_is_quoted raw : IsV2QuotedString (V2RawToV2Quoted raw []) = true.
Proof. done. Qed.
Lemma V2QuotedToV2Raw_Quoted raw err : no_nul raw ->
  V2QuotedToV2Raw (V2RawToV2Quoted raw []) [] err = Ret (true, raw) err.
Proof.
  intros Hr. unfold V2QuotedToV2Raw, V2RawToV2Quoted. rewrite c_text_id by by apply no_nul_escape. simpl.
  by rewrite unquote_escaped.
Qed.

(** The text [GetArgsStringV2Quoted] writes is read back into the same arguments. *)
Theorem V2Quoted_roundtrip s s' err : Forall no_nul (args_list s) ->
  AppendArgsV2Quoted (GetArgsStringV2Quoted [] s) (s', err) =
    Ret true (set_args (args_list s' ++ args_list s) s', err).
Proof.
  intros Hl. unfold AppendArgsV2Quoted, GetArgsStringV2Quoted, GetArgsStringV2Raw.
  rewrite V2Quoted_is_quoted. simpl negb. cbv iota. rewrite join_args_text by done. unfold with_text.
  rewrite V2QuotedToV2Raw_Quoted by by apply no_nul_joined.
  unfold AppendArgsV2Raw, on_args. rewrite c_text_id by by apply no_nul_joined. by rewrite split_joined.
Qed.

(** ** V1 *)
Lemma unwack_wacked s : forall raw err, no_nul s ->
  unwack_loop (EscapeChars s [dquote] backslash) raw err = (true, raw ++ s, err).
Proof.
  induction s as [|c s IH]; intros raw err; [by rewrite app_nil_r|].
  intros [Hc Hs]%no_nul_cons. rewrite EscapeChars_dquote by done.
  assert (E : raw ++ c :: s = (raw ++ [c]) ++ s) by by rewrite <- app_assoc. rewrite E, <- IH by done.
  destruct (Ascii.eqb c dquote) eqn:Ed; simpl; [by rewrite Ed|]. rewrite Ed.
  destruct (Ascii.eqb c backslash); [|done].
  destruct s as [|d s]; [done|]. apply no_nul_cons in Hs as [Hd _]. rewrite EscapeChars_dquote by done.
  destruct (Ascii.eqb d dquote) eqn:Ed'; simpl; [done|]. by rewrite Ed'.
Qed.

Lemma wacked_not_quoted s : no_nul s -> IsV2QuotedString (V1RawToV1Wacked s []) = false.
Proof.
  unfold IsV2QuotedString, V1RawToV1Wacked. simpl. induction s as [|c s IH]; [done|].
  intros [Hc Hs]%no_nul_cons. rewrite EscapeChars_dquote by done.
  destruct (Ascii.eqb c dquote) eqn:Ed; [done|]. simpl. destruct (isspace c); [by apply IH|done].
Qed.

(** The words of a text, as the Unix syntax sees them. *)
Definition words (s : text) : list text := unix_loop s [] false [].

Lemma unix_loop_acc s : forall buf p l, unix_loop s buf p l = l ++ unix_loop s buf p [].
Proof.
  induction s as [|c s IH]; intros buf p l; simpl.
  - destruct p; [done|by rewrite app_nil_r].
  - destruct (is_sep c); [destruct p|]; rewrite IH; [|done|done].
    symmetry. rewrite IH. simpl. by rewrite <- app_assoc.
Qed.
Lemma unix_loop_blank s u : forall buf p l, (p = false -> buf = []) ->
  unix_loop (s ++ " "%char :: u) buf p l = unix_loop s buf p l ++ words u.
Proof.
  induction s as [|c s IH]; intros buf p l Hb; simpl.
  - destruct p; [|rewrite (Hb eq_refl)]; apply unix_loop_acc.
  - destruct (is_sep c); [destruct p|]; apply IH; done.
Qed.
Lemma words_blank s u : words (s ++ " "%char :: u) = words s ++ words u.
Proof. by apply unix_loop_blank. Qed.
Lemma unix_loop_plain s : IsSafeArgV1Value s = true -> forall buf p l,
  unix_loop s buf p l = if p || negb (bool_decide (s = [])) then l ++ [buf ++ s] else l.
Proof.
  induction s as [|c s IH]; simpl; intros Hs buf p l; [rewrite app_nil_r, orb_false_r; done|].
  apply andb_prop in Hs as [Hc%negb_true_iff Hs]. rewrite Hc, IH, <- app_assoc by done. simpl.
  by rewrite orb_true_r.
Qed.

Definition not_empty (arg : text) : Prop := arg <> [].
#[global] Instance not_empty_dec arg : Decision (not_empty arg) := _.

Lemma words_plain s : IsSafeArgV1Value s = true -> words s = filter not_empty [s].
Proof.
  intros Hs. unfold words. rewrite unix_loop_plain by done.
  destruct (decide (s = [])) as [->|Hne]; [done|]. rewrite bool_decide_eq_false_2 by done.
  by rewrite filter_cons_True.
Qed.
Lemma words_spaced r arg : words (spaced r ++ arg) = words r ++ words arg.
Proof. destruct r as [|c r]; [done|]. unfold spaced. rewrite <- app_assoc. apply words_blank. Qed.

Lemma v1_loop_words l : forall r err t err', Forall no_nul l ->
  v1_loop l r err = (true, t, err') -> words t = words r ++ filter not_empty l.
Proof.
  induction l as [|arg l IH]; intros r err t err' Hl; simpl.
  - intros [= -> ->]. by rewrite app_nil_r.
  - apply Forall_cons in Hl as [Ha Hl]. rewrite (c_text_id arg Ha).
    destruct (IsSafeArgV1Value arg) eqn:Hs; [|done]. simpl. intros Hv.
    fold (spaced r) in Hv. apply IH in Hv; [|done]. rewrite Hv, words_spaced, (words_plain arg Hs), <- app_assoc.
    f_equal. change (arg :: l) with ([arg] ++ l). by rewrite filter_app.
Qed.
Lemma v1_loop_fails l : forall r err t err', Forall no_nul l ->
  v1_loop l r err = (false, t, err') -> Exists (fun arg => Exists (fun c => is_sep c = true) arg) l.
Proof.
  induction l as [|arg l IH]; intros r err t err' Hl; simpl; [done|].
  apply Forall_cons in Hl as [Ha Hl]. rewrite (c_text_id arg Ha).
  destruct (IsSafeArgV1Value arg) eqn:Hs; simpl.
  - intros Hv. right. eapply IH; eauto.
  - intros _. left. unfold IsSafeArgV1Value in Hs. clear -Hs.
    induction arg as [|c arg IH]; [done|]. simpl in Hs. destruct (is_sep c) eqn:E; [by left|right; by apply IH].
Qed.
Lemma v1_loop_no_nul l : forall r err t b err', Forall no_nul l -> no_nul r -> v1_loop l r err = (b, t, err') -> no_nul t.
Proof.
  induction l as [|arg l IH]; intros r err t b err' Hl Hr; simpl; [congruence|].
  apply Forall_cons in Hl as [Ha Hl]. destruct (negb _); [congruence|]. apply IH; [done|].
  apply no_nul_app. split; [|done]. destruct r as [|c r]; [done|].
  apply no_nul_app. split; [done|]. by repeat constructor.
Qed.
Lemma v1_loop_ok l : forall r err, Forall no_nul l ->
  (v1_loop l r err).1.1 = forallb (fun arg => IsSafeArgV1Value arg) l.
Proof.
  induction l as [|arg l IH]; intros r err Hl; [done|]. apply Forall_cons in Hl as [Ha Hl].
  simpl. rewrite (c_text_id arg Ha). destruct (IsSafeArgV1Value arg); [|done]. by apply IH.
Qed.

(** The text for submit files is read back, outside of Windows: in the V1 syntax, which is
    chosen when no argument has a blank, without the empty arguments, and whole otherwise. *)
Theorem V1WackedOrV2Quoted_roundtrip s s' err :
  Forall no_nul (args_list s) -> v1_syntax s' <> WIN32_ARGV1_SYNTAX ->
  exists s'', AppendArgsV1WackedOrV2Quoted (GetArgsStringV1WackedOrV2Quoted [] s) (s', err) = Ret true (s'', err) /\
    args_list s'' = args_list s' ++
      (if forallb (fun arg => IsSafeArgV1Value arg) (args_list s) then filter not_empty (args_list s) else args_list s).
Proof.
  intros Hl Hs'. unfold GetArgsStringV1WackedOrV2Quoted, GetArgsStringV1Raw.
  rewrite <- (v1_loop_ok (args_list s) [] [] Hl).
  destruct (v1_loop (args_list s) [] []) as [[[] t] e] eqn:Ev; cbn [fst].
  - pose proof (v1_loop_no_nul _ _ _ _ _ _ Hl (Forall_nil_2 _) Ev) as Ht.
    apply v1_loop_words in Ev; [|done]. change (words []) with (@nil text) in Ev. rewrite app_nil_l in Ev.
    unfold AppendArgsV1WackedOrV2Quoted. rewrite wacked_not_quoted by done.
    unfold with_text, V1WackedToV1Raw. rewrite wacked_not_quoted by done.
    unfold V1RawToV1Wacked. rewrite app_nil_l, unwack_wacked by done. rewrite app_nil_l, c_text_id by done.
    unfold AppendArgsV1Raw, AppendArgsV1Raw_unix, on_args.
    destruct (v1_syntax s') eqn:Es; [|done|]; eexists; (split; [reflexivity|]); simpl;
      rewrite unix_loop_acc; by rewrite <- Ev.
  - exists (set_args (args_list s' ++ args_list s) s'). split; [|done].
    pose proof (V2Quoted_is_quoted (GetArgsStringV2Raw [] 0 s)) as Hq.
    unfold AppendArgsV1WackedOrV2Quoted, GetArgsStringV2Quoted. rewrite Hq.
    unfold GetArgsStringV2Raw. rewrite join_args_text by done. unfold with_text.
    rewrite V2QuotedToV2Raw_Quoted by by apply no_nul_joined.
    unfold AppendArgsV2Raw, on_args. rewrite c_text_id by by apply no_nul_joined. by rewrite split_joined.
Qed.

(** ** The command line of a Windows process *)
Section win32.
Context {R : Type} (k : text -> text -> R) (unterminated : R).
Abbreviation loop := (win32_quote_loop k unterminated).

Lemma win32_backslashes m t buf n : loop (replicate m backslash ++ t) buf n = loop t buf (m + n).
Proof.
  revert n. induction m as [|m IH]; intros n; [done|]. simpl. rewrite IH. f_equal. lia.
Qed.
Lemma win32_reads_quoted arg : forall buf n rest,
  loop (win32_quote arg n ++ dquote :: rest) buf n = k rest (buf ++ replicate n backslash ++ arg).
Proof.
  assert (Hh : forall n, ((n + n) / 2 = n /\ (S (n + n)) / 2 = n)%nat).
  { intros n. replace (n + n)%nat with (n * 2)%nat by lia. rewrite Nat.div_mul by done.
    replace (S (n * 2)) with (1 + n * 2)%nat by lia. by rewrite Nat.div_add. }
  induction arg as [|c arg IH]; intros buf n rest; simpl.
  - rewrite win32_backslashes. simpl. rewrite (proj1 (Hh n)), app_nil_r.
    replace (n + n)%nat with (2 * n)%nat by lia. by rewrite Nat.odd_even.
  - destruct (Ascii.eqb_spec c backslash) as [->|Hb].
    + simpl. rewrite IH. f_equal. f_equal. simpl. by rewrite app_comm_cons, replicate_cons_app, <- app_assoc.
    + destruct (Ascii.eqb_spec c dquote) as [->|Hd].
      * rewrite <- app_assoc, win32_backslashes. simpl. rewrite (proj2 (Hh n)).
        replace (S (n + n)) with (2 * n + 1)%nat by lia. rewrite Nat.odd_odd, IH. simpl.
        by rewrite <- !app_assoc.
      * simpl. rewrite (proj2 (Ascii.eqb_neq c backslash) Hb), (proj2 (Ascii.eqb_neq c dquote) Hd), IH. simpl.
        by rewrite <- !app_assoc.
Qed.
End win32.

(** Arguments a Windows command line can hold. *)
Definition win32_ok (arg : text) : Prop :=
  arg <> [] /\ no_nul arg /\ Forall (fun c => c <> "010"%char /\ c <> "013"%char) arg.

Lemma win32_loop_plain s rest : forall buf b l err,
  forallb (fun c => negb (is_sep c) && negb (Ascii.eqb c dquote)) s = true ->
  win32_loop (s ++ rest) buf b l err = win32_loop rest (buf ++ s) (b || negb (bool_decide (s = []))) l err.
Proof.
  induction s as [|c s IH]; intros buf b l err; simpl; [by rewrite app_nil_r, orb_false_r|].
  intros [[Hc Hd]%andb_prop Hs]%andb_prop. apply negb_true_iff in Hc as ->. rewrite Hd, IH, <- app_assoc by done.
  by rewrite orb_true_r.
Qed.

Lemma win32_reads arg rest l err : win32_ok arg ->
  win32_loop (win32_arg false arg ++ rest) [] false l err = win32_loop rest arg true l err.
Proof.
  intros (Hne&Hn&Hl). unfold win32_arg. rewrite (c_text_id arg Hn).
  destruct (forallb _ arg) eqn:Ef.
  - rewrite win32_loop_plain; [by rewrite bool_decide_eq_false_2|].
    rewrite forallb_forall in Ef |- *. intros c Hc. specialize (Ef c Hc).
    rewrite Forall_forall in Hl. destruct (Hl c) as [Ha Hr]; [by apply list_elem_of_In|].
    unfold win32_special, is_sep in *. apply Ascii.eqb_neq in Ha, Hr. rewrite Ha, Hr.
    by destruct (Ascii.eqb c " "), (Ascii.eqb c "009"), (Ascii.eqb c dquote).
  - simpl. rewrite <- app_assoc. simpl. by rewrite win32_reads_quoted.
Qed.

(** The command line written for a Windows process is split into the same arguments, with
    every combination of backslashes and double quotes, as long as no argument is empty or
    has a line break. *)
Theorem win32_roundtrip s s' err :
  Forall win32_ok (args_list s) -> input_was_unknown_platform_v1 s = false ->
  AppendArgsV1Raw_win32 (GetArgsStringWin32 [] 0 s) (s', err) =
    Ret true (set_args (args_list s' ++ args_list s) s', err).
Proof.
  intros Hl Hv. unfold GetArgsStringWin32, AppendArgsV1Raw_win32, on_args. rewrite Hv. fold spaced.
  change (drop 0 (args_list s)) with (args_list s).
  change (foldl _ [] (args_list s)) with (foldl (fun r a => spaced r ++ win32_arg false a) [] (args_list s)).
  rewrite foldl_join.
  - rewrite (read_joined _ (fun t b p l => win32_loop t b p l err) id (fun l => (true, l, err)) win32_ok);
      [by rewrite list_fmap_id| |done..].
    intros a rest acc Ha _. by apply win32_reads.
  - eapply Forall_impl; [exact Hl|]. intros a (Hne&Hn&_). unfold win32_arg. by destruct (forallb _ _).
Qed.

(** ** Errors *)
Definition quotes (s : text) : nat := length (filter (fun c => c = squote) s).

Lemma split_loop_quotes n : forall s, (length s < n)%nat -> forall buf p l err,
  (split_loop s buf p l err).1.1 = Nat.even (quotes s) /\
  (forall fail : bool * list text * text, fail.1.1 = false ->
   (quote_loop (fun rest buf => split_loop rest buf true l err) fail s buf).1.1 = Nat.odd (quotes s)).
Proof.
  unfold quotes. induction n as [|n IH]; [lia|]. intros [|c s] Hn buf p l err; simpl in Hn; [done|].
  assert (Hs : (length s < n)%nat) by lia.
  destruct (Ascii.eqb_spec c squote) as [->|Hc].
  - rewrite filter_cons_True by done. simpl. rewrite Nat.even_succ, Nat.odd_succ. split.
    + by apply (IH s Hs).
    + intros fail Hf. destruct s as [|d s]; [done|]. destruct (Ascii.eqb_spec d squote) as [->|Hd].
      * rewrite filter_cons_True by done. simpl in Hs |- *. rewrite Nat.even_succ.
        refine (proj2 (IH s _ _ true l err) _ Hf). lia.
      * by apply (IH (d :: s) Hs).
  - rewrite filter_cons_False by done. simpl. rewrite (proj2 (Ascii.eqb_neq c squote) Hc).
    split; [|intros fail Hf; by apply (IH s Hs)].
    destruct (is_sep c); [destruct p|]; by apply (IH s Hs).
Qed.

(** [split_args] fails exactly on the texts with an odd number of quotes. *)
Theorem split_args_fails_iff s l err : (split_args s l err).1.1 = Nat.even (quotes s).
Proof. unfold split_args. apply (split_loop_quotes (S (length s)) s). lia. Qed.

(** ** Through the ClassAd of a job *)
Section job.
Variable oldSemantics : bool.
Variable functionTable : string -> option ClassAdFunc.

Lemma no_nul_job l : Forall no_nul l -> c_text (join_args l [] 0) = join_text enc_arg l.
Proof. intros Hl. rewrite join_args_text by done. by apply c_text_id, no_nul_joined. Qed.

(** The arguments put into the ClassAd of a job are read back from it, whatever the
    ClassAd held before. *)
Theorem args_survive_job h ad s err :
  heap_ok h -> top_level h ad -> Forall no_nul (args_list s) -> input_was_unknown_platform_v1 s = false ->
  exists h', InsertArgsIntoClassAd h ad None err s = Some (h', (true, err)) /\
    forall n s' err' st,
      AppendArgsFromClassAd oldSemantics functionTable (S n) ad s' err' (h', st) =
        Ret (Ret true (set_args (args_list s' ++ args_list s) s', err')) (h', st).
Proof.
  intros Hok Ht Hl Hv. unfold InsertArgsIntoClassAd.
  destruct (top_level_lookup h ad ATTR_JOB_ARGUMENTS1 Ht) as [o1 ->].
  destruct (top_level_lookup h ad ATTR_JOB_ARGUMENTS2 Ht) as [o2 ->]. simpl. rewrite Hv. simpl.
  unfold GetArgsStringV2Raw. rewrite no_nul_job by done.
  destruct (assign_string h ad ATTR_JOB_ARGUMENTS2 (of_text (join_text enc_arg (args_list s))) Ht) as (h1&E1&Ht1); [done|].
  rewrite E1. simpl.
  pose proof (Insert_then_Lookup_same h ad ATTR_JOB_ARGUMENTS2 _ h1 true ATTR_JOB_ARGUMENTS2 Hok eq_refl eq_refl ltac:(done) E1 eq_refl) as Hl1.
  assert (Hok1 : heap_ok h1) by exact (Insert_ok _ _ _ _ _ _ Hok eq_refl E1).
  assert (Hend : forall h', top_level h' ad ->
    Lookup h' ad ATTR_JOB_ARGUMENTS2 = Some (Some (StringLiteral (of_text (join_text enc_arg (args_list s))))) ->
    forall n s' err' st, AppendArgsFromClassAd oldSemantics functionTable (S n) ad s' err' (h', st) =
      Ret (Ret true (set_args (args_list s' ++ args_list s) s', err')) (h', st)).
  { intros h' Ht' Hl' n s' err' st. unfold AppendArgsFromClassAd, rbind. rewrite (LookupString_found _ _ _ _ _ _ _ _ Ht' Hl').
    unfold rret, AppendArgsV2Raw, on_args. rewrite txt_of_text, c_text_id by by apply no_nul_joined. by rewrite split_joined. }
  destruct o1 as [t1|]; simpl; [|by exists h1; split; [done|apply Hend]].
  destruct (top_level_delete h1 ad ATTR_JOB_ARGUMENTS1 Ht1) as (h2&b&E2&Ht2). rewrite E2. simpl.
  exists h2. split; [done|]. apply Hend; [done|].
  etransitivity; [|exact Hl1]. by refine (Delete_Lookup_other _ _ _ _ _ _ _ Hok1 eq_refl eq_refl _ E2 _).
Qed.
End job.

(** ** Reading never aborts, and only appends *)
Definition appends (l : list text) (r : bool * list text * text) : Prop := exists l', r.1.2 = l ++ l'.
Lemma appends_here (l l' : list text) b err : appends l (b, l ++ l', err).
Proof. by exists l'. Qed.
Lemma appends_nil (l : list text) b err : appends l (b, l, err).
Proof. exists []. by rewrite app_nil_r. Qed.
Lemma appends_weaken l l' r : appends (l ++ l') r -> appends l r.
Proof. intros [l'' E]. exists (l' ++ l''). by rewrite E, app_assoc. Qed.
#[local] Hint Resolve appends_here appends_nil appends_weaken : core.

Lemma split_loop_appends n : forall s, (length s < n)%nat -> forall buf p l err,
  appends l (split_loop s buf p l err) /\
  (forall b err', appends l (quote_loop (fun rest buf => split_loop rest buf true l err) (b, l, err') s buf)).
Proof.
  induction n as [|n IH]; [lia|]. intros [|c s] Hn buf p l err; simpl in Hn |- *; [destruct p; auto|].
  assert (Hs : (length s < n)%nat) by lia.
  destruct (Ascii.eqb c squote).
  - split; [by apply (IH s Hs)|]. intros b err'. destruct s as [|d s]; [by apply (IH [] Hs)|].
    destruct (Ascii.eqb d squote); [apply (IH s); [simpl in Hs; lia|done]|by apply (IH (d :: s) Hs)].
  - split; [|intros b err'; by apply (IH s Hs)].
    destruct (is_sep c); [destruct p|]; eauto; try by apply (IH s Hs).
    eapply appends_weaken. by apply (IH s Hs).
Qed.
Lemma win32_loop_appends n : forall s, (length s < n)%nat -> forall buf p l err,
  appends l (win32_loop s buf p l err) /\
  (forall b err' k, appends l (win32_quote_loop (fun rest buf => win32_loop rest buf true l err) (b, l, err') s buf k)).
Proof.
  induction n as [|n IH]; [lia|]. intros [|c s] Hn buf p l err; simpl in Hn |- *; [destruct p; auto|].
  assert (Hs : (length s < n)%nat) by lia. split.
  - destruct (is_sep c); [destruct p; [eapply appends_weaken|]; by apply (IH s Hs)|].
    destruct (Ascii.eqb c dquote); by apply (IH s Hs).
  - intros b err' k. destruct (Ascii.eqb c backslash), (Ascii.eqb c dquote), (Nat.odd k); by apply (IH s Hs).
Qed.

(** A method returns, and the arguments it leaves are those it found and more. *)
Definition only_appends (m : Method) : Prop := forall s err, exists ok s' err' l,
  m (s, err) = Ret ok (s', err') /\ args_list s' = args_list s ++ l.

Lemma on_args_appends f : (forall l err, appends l (f l err)) -> only_appends (on_args f).
Proof.
  intros Hf s err. unfold on_args. destruct (Hf (args_list s) err) as [l Hl].
  destruct (f _ _) as [[ok l'] err']. simpl in Hl. subst l'. by eexists _, _, _, _.
Qed.
Lemma with_text_appends conv k :
  (forall err, exists r err', conv err = Ret r err') -> (forall v, only_appends (k v)) ->
  only_appends (with_text conv k).
Proof.
  intros Hc Hk s err. unfold with_text. destruct (Hc err) as ([ok v]&err'&->).
  destruct ok; [apply Hk|]. exists false, s, err', []. by rewrite app_nil_r.
Qed.
Lemma V2Raw_appends args : only_appends (AppendArgsV2Raw args).
Proof. apply on_args_appends. intros l err. apply (split_loop_appends (S (length args)) args). lia. Qed.
Lemma V1Raw_appends args : only_appends (AppendArgsV1Raw args).
Proof.
  assert (Hu : only_appends (AppendArgsV1Raw_unix args)).
  { apply on_args_appends. intros l err. rewrite unix_loop_acc. auto. }
  intros s err. unfold AppendArgsV1Raw. destruct (v1_syntax s).
  - apply (Hu (mk_ArgList (args_list s) true UNKNOWN_ARGV1_SYNTAX)).
  - apply on_args_appends. intros l err'. apply (win32_loop_appends (S (length args)) args). lia.
  - apply Hu.
Qed.
Lemma skip_spaces_idem s : skip_spaces (skip_spaces s) = skip_spaces s.
Proof. induction s as [|c s IH]; [done|]. simpl. destruct (isspace c) eqn:E; [done|]. simpl. by rewrite E. Qed.
Lemma V2QuotedToV2Raw_returns args v err : IsV2QuotedString args = true ->
  exists r err', V2QuotedToV2Raw args v err = Ret r err'.
Proof.
  intros Hq. unfold V2QuotedToV2Raw. unfold IsV2QuotedString in *. rewrite skip_spaces_idem, Hq. simpl.
  destruct (unquote_loop _ _) as [[q|] raw]; [destruct (skip_spaces (tail q))|]; eauto.
Qed.

(** No text makes the methods that read arguments abort; whether they succeed or not, the
    arguments that were there are kept, in front of what was read. *)
Theorem reading_only_appends args :
  only_appends (AppendArgsV2Raw args) /\ only_appends (AppendArgsV2Quoted args) /\
  only_appends (AppendArgsV1Raw args) /\ only_appends (AppendArgsV1RawOrV2Quoted args) /\
  only_appends (AppendArgsV1WackedOrV2Quoted args).
Proof.
  assert (Hq : IsV2QuotedString args = true ->
    only_appends (with_text (V2QuotedToV2Raw args []) (fun v2 => AppendArgsV2Raw (c_text v2)))).
  { intros E. apply with_text_appends; [|intros v; apply V2Raw_appends].
    intros err. by apply V2QuotedToV2Raw_returns. }
  split_and!; [apply V2Raw_appends| |apply V1Raw_appends|..].
  - intros s err. unfold AppendArgsV2Quoted. destruct (IsV2QuotedString args) eqn:E; simpl; [by apply Hq|].
    eexists _, _, _, []. rewrite app_nil_r. done.
  - unfold AppendArgsV1RawOrV2Quoted. destruct (IsV2QuotedString args) eqn:E; [by apply Hq|apply V1Raw_appends].
  - unfold AppendArgsV1WackedOrV2Quoted. destruct (IsV2QuotedString args) eqn:E; [by apply Hq|].
    apply with_text_appends; [|intros v; apply V1Raw_appends].
    intros err. unfold V1WackedToV1Raw. rewrite E. destruct (unwack_loop _ _ _) as [[ok v] err']. eauto.
Qed.

(** ** Examples and corners *)
Definition awkward : list text :=
  [txt "one"; txt "two and"; []; txt "it's"; txt "a\" ++ dquote :: txt "b\"].
Lemma awkward_ok : Forall no_nul awkward.
Proof. repeat constructor; discriminate. Qed.

Lemma split_args_join_args_witness :
  Forall no_nul awkward /\ split_args (join_args awkward [] 0) [] [] = (true, awkward, []).
Proof. split; [exact awkward_ok|]. exact (split_args_join_args awkward [] [] awkward_ok). Defined.

Definition awkward_list : ArgList := set_args awkward new_ArgList.
Lemma V2Quoted_roundtrip_witness :
  AppendArgsV2Quoted (GetArgsStringV2Quoted [] awkward_list) (new_ArgList, []) = Ret true (awkward_list, []).
Proof. exact (V2Quoted_roundtrip awkward_list new_ArgList [] awkward_ok). Defined.

Lemma V1WackedOrV2Quoted_roundtrip_witness :
  exists s, AppendArgsV1WackedOrV2Quoted (GetArgsStringV1WackedOrV2Quoted [] awkward_list) (new_ArgList, []) = Ret true (s, [])
    /\ args_list s = awkward.
Proof.
  destruct (V1WackedOrV2Quoted_roundtrip awkward_list new_ArgList [] awkward_ok ltac:(done)) as (s&E1&E2).
  exists s. split; [exact E1|]. rewrite E2. reflexivity.
Defined.

Definition windows_args : list text := [txt "one"; txt "two and"; txt "a\" ++ dquote :: txt "b\ \"].
Lemma windows_args_ok : Forall win32_ok windows_args.
Proof. repeat constructor; discriminate. Qed.
Lemma win32_roundtrip_witness :
  AppendArgsV1Raw_win32 (GetArgsStringWin32 [] 0 (set_args windows_args new_ArgList)) (new_ArgList, []) =
    Ret true (set_args windows_args new_ArgList, []).
Proof. exact (win32_roundtrip (set_args windows_args new_ArgList) new_ArgList [] windows_args_ok eq_refl). Defined.

Definition job_example : heap := {[1%positive := set_attrList [("Args", StringLiteral "old")] new_ClassAd]}.
Lemma job_example_ok : heap_ok job_example /\ top_level job_example 1.
Proof.
  split; [|by eexists]. intros a ad. unfold job_example. rewrite lookup_singleton_Some. intros [<- <-].
  (split; [split|]); repeat constructor.
Qed.
Lemma args_survive_job_witness :
  exists h', InsertArgsIntoClassAd job_example 1 None [] awkward_list = Some (h', (true, [])) /\
    AppendArgsFromClassAd false (fun _ => None) 1 1 new_ArgList [] (h', mk_EvalState 0 None None false) =
      Ret (Ret true (awkward_list, [])) (h', mk_EvalState 0 None None false).
Proof.
  destruct (args_survive_job false (fun _ => None) job_example 1 awkward_list [] (proj1 job_example_ok)
              (proj2 job_example_ok) awkward_ok eq_refl) as (h'&E1&E2).
  exists h'. split; [exact E1|]. apply (E2 O new_ArgList []).
Defined.

(** An empty argument passes the test for the V1 syntax, which has no text for it. *)
Lemma empty_argument_lost :
  let s := set_args [txt "a"; []; txt "b"] new_ArgList in
  (GetArgsStringV1Raw [] [] s).1.1 = true /\
  AppendArgsV1Raw_unix (GetArgsStringV1Raw [] [] s).1.2 (new_ArgList, []) =
    Ret true (set_args [txt "a"; txt "b"] new_ArgList, []).
Proof. vm_compute. done. Qed.

(** Neither an empty argument nor one with a line break is quoted for Windows. *)
Lemma windows_argument_unquoted :
  let line s := AppendArgsV1Raw_win32 (GetArgsStringWin32 [] 0 (set_args s new_ArgList)) (new_ArgList, []) in
  line [txt "a"; []; txt "b"] = Ret true (set_args [txt "a"; txt "b"] new_ArgList, []) /\
  line [txt "a" ++ "010"%char :: txt "b"] = Ret true (set_args [txt "a"; txt "b"] new_ArgList, []).
Proof. vm_compute. done. Qed.

(** Appending a list that was read from V2 text forgets that there are V1 arguments of an
    unknown platform. *)
Lemma appended_list_decides :
  input_was_unknown_platform_v1
    (AppendArgsFromArgList (set_args [txt "b"] new_ArgList) (mk_ArgList [txt "a"] true UNKNOWN_ARGV1_SYNTAX)) = false.
Proof. reflexivity. Qed.
