(* ===== verification/Env.v ===== *)
(** * Environments and their texts (env.cpp, env.h)

    The environment of a job: a table from names to values, read from and written to the V2
    syntax (the entries as arguments, [ArgList]) and the V1 syntax (entries separated by a
    delimiter), and kept in the ClassAd of the job. This is the program outside of Windows.

    The table is a [std::map], the list of its entries in the order of their names. As in
    [ArgList], a method takes the object and the error message; null pointers are left out. *)
From Stdlib Require Import ZArith Lia Ascii String.
From stdpp Require Import base list gmap strings.
From S2P Require Import Prelude Double Numerals Tree Values Lexer FlatMap AdStore Eval Unparser ArgList.

(** ** [std::map] of strings *)
Section map.
Context {V : Type}.

Fixpoint map_put (k : string) (v : V) (l : list (string * V)) : list (string * V) :=
  match l with
  | [] => [(k, v)]
  | (k', v') :: l' =>
      match str_cmp k k' with
      | Lt => (k, v) :: l
      | Eq => (k', v) :: l'
      | Gt => (k', v') :: map_put k v l'
      end
  end.
Fixpoint map_get (k : string) (l : list (string * V)) : option V :=
  match l with
  | [] => None
  | (k', v') :: l' => match str_cmp k k' with Lt => None | Eq => Some v' | Gt => map_get k l' end
  end.
Fixpoint map_erase (k : string) (l : list (string * V)) : list (string * V) :=
  match l with
  | [] => []
  | (k', v') :: l' => match str_cmp k k' with Lt => l | Eq => l' | Gt => (k', v') :: map_erase k l' end
  end.
End map.

(** ** [Env] *)
Record Env := mk_Env {
  envTable : list (string * string);
  input_was_v1 : bool
}.
Definition new_Env : Env := mk_Env [] false.
Definition set_table (l : list (string * string)) (e : Env) : Env := mk_Env l (input_was_v1 e).
Definition set_was_v1 (e : Env) : Env := mk_Env (envTable e) true.

Definition unix_env_delim : ascii := ";".
Definition windows_env_delim : ascii := "|".
Definition env_delimiter : ascii := ";".
Definition equals : ascii := "=".
Definition is_permitted_delim (ch : ascii) : bool :=
  bool_decide (ch ∈ txt "!#$%&*+,-/:;<>?@^`|~" ++ ["031"%char]).
(** What stands for the value of an entry that is an unexpanded macro. *)
Definition NO_ENVIRONMENT_VALUE : string := of_text ["001"; "002"; "003"; "004"; "005"; "006"]%char.

Definition Count (e : Env) : nat := length (envTable e).
Definition Clear (e : Env) : Env := set_table [] e.
Definition SetEnv (var val : string) (e : Env) : Env * bool :=
  if String.eqb var "" then (e, false) else (set_table (map_put var val (envTable e)) e, true).
Definition DeleteEnv (name : string) (e : Env) : Env * bool :=
  if String.eqb name "" then (e, false)
  else (set_table (map_erase name (envTable e)) e, bool_decide (is_Some (map_get name (envTable e)))).
Definition HasEnv (var : string) (e : Env) : bool := bool_decide (is_Some (map_get var (envTable e))).
Definition GetEnv (var : string) (e : Env) : option string := map_get var (envTable e).

(** *** Entries *)

(** [strstr (s, "$$")] *)
Fixpoint has_macro (s : text) : bool :=
  match s with
  | c :: s' =>
      Ascii.eqb c "$" && match s' with d :: _ => Ascii.eqb d "$" | [] => false end || has_macro s'
  | [] => false
  end.

Abbreviation EnvMethod := (Env * text -> Res (Env * text) bool).

Definition SetEnvWithErrorMessage (nameValueExpr : text) : EnvMethod := fun '(e, error_msg) =>
  match nameValueExpr with
  | [] => Ret false (e, error_msg)
  | _ =>
      match split_at equals nameValueExpr with
      | (_, None) =>
          if has_macro nameValueExpr then Ret true ((SetEnv (of_text nameValueExpr) NO_ENVIRONMENT_VALUE e).1, error_msg)
          else Ret false (e, AddErrorMessage (txt "ERROR: Missing '=' after environment variable '" ++ nameValueExpr ++ txt "'.") error_msg)
      | ([], Some _) =>
          Ret false (e, AddErrorMessage (txt "ERROR: missing variable in '" ++ nameValueExpr ++ txt "'.") error_msg)
      | (var, Some val) =>
          let '(e', ok) := SetEnv (of_text var) (of_text val) e in Ret ok (e', error_msg)
      end
  end.

(** [SetEnv] of an entry: no message. *)
Definition SetEnv_expr (nameValueExpr : text) : EnvMethod := fun '(e, error_msg) =>
  match SetEnvWithErrorMessage nameValueExpr (e, []) with
  | Ret ok (e', _) => Ret ok (e', error_msg)
  | NoFuel => NoFuel
  | Except => Except
  end.

(** ** Reading *)

(** The entries of a V2 text, up to the first that is refused. *)
Fixpoint set_entries (env_list : list text) : EnvMethod :=
  match env_list with
  | [] => rret true
  | env_entry :: env_list' =>
      let! ok := SetEnvWithErrorMessage (c_text env_entry) in
      if (ok : bool) then set_entries env_list' else rret false
  end.
Definition MergeFromV2Raw (delimitedString : text) : EnvMethod := fun '(e, error_msg) =>
  let '(ok, env_list, error_msg) := split_args delimitedString [] error_msg in
  if (ok : bool) then set_entries env_list (e, error_msg) else Ret false (e, error_msg).
Definition MergeFromV2Quoted (delimitedString : text) : EnvMethod := fun '(e, error_msg) =>
  if IsV2QuotedString delimitedString then
    match V2QuotedToV2Raw delimitedString [] [] with
    | Ret (true, v2) _ => MergeFromV2Raw (c_text v2) (e, error_msg)
    | Ret (false, _) msg =>
        Ret false (e, match msg with [] => error_msg | _ => AddErrorMessage (c_text msg) error_msg end)
    | NoFuel => NoFuel
    | Except => Except
    end
  else Ret false (e, AddErrorMessage (txt "Expecting a double-quoted environment string (V2 format).") error_msg).

(** [ReadFromDelimitedString]: the entry, and what is left. *)
Fixpoint strip_leading (input : text) : text :=
  match input with
  | c :: input' => if is_sep c then strip_leading input' else input
  | [] => []
  end.
Fixpoint copy_entry (delim : ascii) (input output : text) : text * text :=
  match input with
  | [] => (output, [])
  | c :: input' =>
      if Ascii.eqb c "010" || Ascii.eqb c delim then (output, input')
      else copy_entry delim input' (output ++ [c])
  end.
Definition ReadFromDelimitedString (delim : ascii) (input : text) : text * text :=
  copy_entry delim (strip_leading input) [].

Fixpoint v1_entries (n : nat) (delim : ascii) (input : text) : EnvMethod :=
  match input with
  | [] => rret true
  | _ =>
      match n with
      | O => fun _ => NoFuel
      | S n' =>
          match ReadFromDelimitedString delim input with
          | ([], input') => v1_entries n' delim input'
          | (output, input') =>
              let! ok := SetEnvWithErrorMessage output in
              if (ok : bool) then v1_entries n' delim input' else rret false
          end
      end
  end.
Definition MergeFromV1Raw (delimitedString : text) (delim : ascii) : EnvMethod := fun '(e, error_msg) =>
  v1_entries (length delimitedString) delim delimitedString (set_was_v1 e, error_msg).
(** [delim] is none for the zero character. *)
Definition MergeFromV1AutoDelim (delimitedString : text) (delim : option ascii) : EnvMethod :=
  let delim := default env_delimiter delim in
  match delimitedString with
  | [] => rret true
  | ch :: rest =>
      if Ascii.eqb ch delim then MergeFromV1Raw rest delim
      else if is_permitted_delim ch then MergeFromV1Raw rest ch
      else MergeFromV1Raw delimitedString delim
  end.
Definition MergeFromV1RawOrV2Quoted (delimitedString : text) : EnvMethod :=
  if IsV2QuotedString delimitedString then MergeFromV2Quoted delimitedString
  else MergeFromV1AutoDelim delimitedString None.

(** [MergeFrom] of an array of strings: it stops at an empty one, not at one that fails. *)
Fixpoint MergeFrom_array (stringArray : list text) (all_ok : bool) : EnvMethod :=
  match stringArray with
  | [] | [] :: _ => rret all_ok
  | s :: stringArray' => let! ok := SetEnv_expr s in MergeFrom_array stringArray' (all_ok && ok)
  end.
(** [MergeFrom] of a block of strings that end in zero bytes: the strings it goes through. *)
Fixpoint block_strings (n : nat) (ptr : text) : list text :=
  match n, c_text ptr with
  | S n', _ :: _ => c_text ptr :: block_strings n' (drop (S (length (c_text ptr))) ptr)
  | _, _ => []
  end.
Definition MergeFrom_block (env_str : text) : EnvMethod :=
  let! _ := MergeFrom_array (block_strings (length env_str) env_str) true in rret true.
Definition MergeFrom_env (env e : Env) : Env :=
  foldl (fun e kv => (SetEnv kv.1 kv.2 e).1) e (envTable env).

(** [Import] of the strings of the process environment, through a filter. *)
Definition import_entry (filter : string -> string -> bool) (e : Env) (p : text) : Env :=
  match split_at equals p with
  | ([], _) | (_, None) => e
  | (varname, Some value) =>
      if HasEnv (of_text varname) e then e
      else if filter (of_text varname) (of_text value) then (SetEnv (of_text varname) (of_text value) e).1 else e
  end.
Definition Import (filter : string -> string -> bool) (my_environ : list text) (e : Env) : Env :=
  foldl (import_entry filter) e my_environ.

(** ** Writing *)
Definition IsSafeEnvV1Value (str : text) (delim : option ascii) : bool :=
  let delim := default env_delimiter delim in
  forallb (fun c => negb (Ascii.eqb c delim || Ascii.eqb c "010")) str.
Definition IsSafeEnvV2Value (str : text) : bool := forallb (fun c => negb (Ascii.eqb c "010")) str.

Definition v2_entry (kv : string * string) : text :=
  if String.eqb kv.2 NO_ENVIRONMENT_VALUE then txt kv.1
  else c_text (txt kv.1) ++ equals :: c_text (txt kv.2).
Definition getDelimitedStringV2Raw (result : text) (e : Env) : text :=
  join_args (v2_entry <$> envTable e) result 0.
Definition getDelimitedStringV2Quoted (result : text) (e : Env) : text :=
  V2RawToV2Quoted (getDelimitedStringV2Raw [] e) result.
Definition getDelimitedStringForDisplay (result : text) (e : Env) : text := getDelimitedStringV2Raw result e.

(** [WriteToDelimitedString] with no special characters appends its input. *)
Definition WriteToDelimitedString (input output : text) : text := output ++ input.
Fixpoint v1_text (l : list (string * string)) (delim : ascii) (result error_msg : text) : bool * text * text :=
  match l with
  | [] => (true, result, error_msg)
  | (var, val) :: l' =>
      if negb (IsSafeEnvV1Value (c_text (txt var)) (Some delim)) || negb (IsSafeEnvV1Value (c_text (txt val)) (Some delim)) then
        (false, result,
         AddErrorMessage (txt "Environment entry is not compatible with V1 syntax: "
                          ++ c_text (txt var) ++ equals :: c_text (txt val)) error_msg)
      else
        let result := match result with [] => [] | _ => result ++ [delim] end in
        let result := WriteToDelimitedString (c_text (txt var)) result in
        let result :=
          if String.eqb val NO_ENVIRONMENT_VALUE then result
          else WriteToDelimitedString (c_text (txt val)) (WriteToDelimitedString [equals] result) in
        v1_text l' delim result error_msg
  end.
Definition getDelimitedStringV1Raw (result error_msg : text) (delim : option ascii) (e : Env) : bool * text * text :=
  v1_text (envTable e) (default env_delimiter delim) result error_msg.

Definition getStringArray (e : Env) : list text :=
  (fun kv => c_text (txt kv.1) ++
     if String.eqb kv.2 NO_ENVIRONMENT_VALUE then [] else equals :: c_text (txt kv.2)) <$> envTable e.

(** [Walk]: the function may change a value, and ends the walk by returning false. *)
Fixpoint walk_loop (walk_func : string -> string -> string * bool) (l : list (string * string)) : list (string * string) :=
  match l with
  | [] => []
  | (var, val) :: l' =>
      let '(val, go_on) := walk_func var val in
      (var, val) :: if (go_on : bool) then walk_loop walk_func l' else l'
  end.
Definition Walk (walk_func : string -> string -> string * bool) (e : Env) : Env :=
  set_table (walk_loop walk_func (envTable e)) e.

Definition GetEnvV1Delimiter (opsys : option text) : ascii :=
  match opsys with
  | None => env_delimiter
  | Some s => if bool_decide (take 3 s = txt "WIN") then windows_env_delim else unix_env_delim
  end.

(** ** The ClassAd of a job *)
Definition ATTR_JOB_ENV_V1 : string := "Env".
Definition ATTR_JOB_ENV_V1_DELIM : string := "EnvDelim".
Definition ATTR_JOB_ENVIRONMENT : string := "Environment".

Section job.
Variable oldSemantics : bool.
Variable functionTable : string -> option ClassAdFunc.
Variable n : nat.
Abbreviation LookupString := (fun ad name => EvaluateAttrString oldSemantics functionTable n ad name).

(** The first character of EnvDelim, if it is a string that is not empty; a zero one counts
    as none. *)
Definition lookup_delim (ad : adref) : M (option ascii) :=
  let! o := LookupString ad ATTR_JOB_ENV_V1_DELIM in
  rret (match o with Some (String c _) => Some c | _ => None end).
Definition nonzero (c : option ascii) : option ascii :=
  d ← c; if Ascii.eqb d zero then None else Some d.

Definition GetEnvV1Delimiter_ad (ad : adref) : M ascii :=
  let! o := lookup_delim ad in rret (default env_delimiter o).

(** [MergeFrom] of a ClassAd *)
Definition MergeFrom_ad (ad : adref) (e : Env) (error_msg : text) : M (Res (Env * text) bool) :=
  let! o := LookupString ad ATTR_JOB_ENVIRONMENT in
  match o with
  | Some env => rret (MergeFromV2Raw (c_text (txt env)) (e, error_msg))
  | None =>
      let! o := LookupString ad ATTR_JOB_ENV_V1 in
      match o with
      | Some env =>
          let! delim := lookup_delim ad in
          rret (match MergeFromV1AutoDelim (c_text (txt env)) (nonzero delim) (e, error_msg) with
                | Ret ok (e', msg) => Ret ok (set_was_v1 e', msg)
                | r => r
                end)
      | None => rret (Ret true (e, error_msg))
      end
  end.

Definition InsertEnvIntoClassAd (ad : adref) (e : Env) : M bool :=
  let! _ := on_heap (fun h => InsertAttr_string h ad ATTR_JOB_ENVIRONMENT (of_text (getDelimitedStringV2Raw [] e))) in
  rret true.

(** The result has the error message. A delimiter that was passed is saved, too. *)
Definition InsertEnvV1IntoClassAd (ad : adref) (delim : option ascii) (e : Env) (error_msg : text) : M (bool * text) :=
  let! (delim_found, delim) :=
    (match delim with
     | Some d => rret (false, d)
     | None => let! o := lookup_delim ad in rret (present o, default env_delimiter o)
     end) in
  match getDelimitedStringV1Raw [] error_msg (nonzero (Some delim)) e with
  | (true, env1, error_msg) =>
      let! _ := on_heap (fun h => InsertAttr_string h ad ATTR_JOB_ENV_V1 (of_text env1)) in
      let! _ := (if (delim_found : bool) then rret true
                 else on_heap (fun h => InsertAttr_string h ad ATTR_JOB_ENV_V1_DELIM (of_text [delim]))) in
      rret (true, error_msg)
  | (false, _, error_msg) => rret (false, error_msg)
  end.

(** The form with the message: V1 if the job has only that and it can hold the environment. *)
Definition InsertEnvIntoClassAd_msg (ad : adref) (e : Env) (error_msg : text) : M (bool * text) :=
  let! v1 := read_heap (fun h => Lookup h ad ATTR_JOB_ENV_V1) in
  let! v2 := read_heap (fun h => Lookup h ad ATTR_JOB_ENVIRONMENT) in
  if present v1 && negb (present v2) then
    let! (ok, error_msg) := InsertEnvV1IntoClassAd ad None e error_msg in
    if (ok : bool) then rret (true, error_msg)
    else
      let! _ := on_heap (fun h => Delete h ad ATTR_JOB_ENV_V1) in
      let! ok := InsertEnvIntoClassAd ad e in rret (ok, error_msg)
  else let! ok := InsertEnvIntoClassAd ad e in rret (ok, error_msg).
End job.
