(* ===== verification/EnvLaws.v ===== *)
(** * Environments survive their texts

    The table is a finite map; an environment is read back from its V2 text, from the
    ClassAd of a job, and from its V1 text where that can be written. *)
From Stdlib Require Import ZArith Lia Ascii String Sorted.
From stdpp Require Import base list gmap strings.
From S2P Require Import Prelude Double Numerals Tree Values Lexer FlatMap AdStore AdStoreFacts AdStoreLaws Eval EvalFacts Unparser LexerFacts JobAd ArgList ArgListLaws Env.

#[local] Arguments txt : simpl never.

(** ** The table *)
Section map.
Context {V : Type}.
Implicit Types (l : list (string * V)) (k : string).

Definition name_lt (x y : string * V) : Prop := str_cmp x.1 y.1 = Lt.
Definition map_ok l : Prop := StronglySorted name_lt l.

Lemma str_cmp_Lt_ne k k' : str_cmp k k' = Lt -> k <> k'.
Proof. intros H ->. by rewrite str_cmp_refl in H. Qed.
Lemma str_cmp_Gt k k' : str_cmp k k' = Gt -> str_cmp k' k = Lt.
Proof. intros H. by rewrite str_cmp_antisym, H. Qed.

Lemma below_all k l : Forall (fun y => str_cmp k y.1 = Lt) l -> (list_to_map l : gmap string V) !! k = None.
Proof.
  intros Hl. apply not_elem_of_list_to_map_1. intros (y&->&Hy)%list_elem_of_fmap.
  rewrite Forall_forall in Hl. specialize (Hl y Hy). by rewrite str_cmp_refl in Hl.
Qed.
Lemma below_trans k k' v' l : str_cmp k k' = Lt -> Forall (name_lt (k', v')) l -> Forall (fun y => str_cmp k y.1 = Lt) l.
Proof. intros Hk Hl. eapply Forall_impl; [exact Hl|]. intros y Hy. by eapply str_cmp_trans. Qed.

Lemma map_get_spec k l : map_ok l -> map_get k l = (list_to_map l : gmap string V) !! k.
Proof.
  induction 1 as [|[k' v'] l Hs IH Hl]; simpl; [by rewrite lookup_empty|].
  destruct (str_cmp k k') eqn:E.
  - apply str_cmp_eq in E as ->. by rewrite lookup_insert_eq.
  - rewrite lookup_insert_ne by (intros ->; by rewrite str_cmp_refl in E).
    by rewrite below_all by by eapply below_trans.
  - rewrite lookup_insert_ne by (intros ->; by rewrite str_cmp_refl in E). done.
Qed.

Lemma map_put_spec k v l : map_ok l ->
  map_ok (map_put k v l) /\ (list_to_map (map_put k v l) : gmap string V) = <[k := v]> (list_to_map l) /\
  (forall x, str_cmp x k = Lt -> Forall (fun y => str_cmp x y.1 = Lt) l -> Forall (fun y => str_cmp x y.1 = Lt) (map_put k v l)).
Proof.
  induction 1 as [|[k' v'] l Hs (IHs&IHm&IHb) Hl]; simpl; [by repeat split; repeat constructor|].
  destruct (str_cmp k k') eqn:E.
  - apply str_cmp_eq in E as ->. repeat split; [by constructor|simpl; by rewrite insert_insert_eq|].
    intros x Hx. rewrite !Forall_cons. tauto.
  - repeat split; [|intros x Hx Hl'; by constructor].
    constructor; [by constructor|]. constructor; [done|]. by eapply below_trans.
  - apply str_cmp_Gt in E. repeat split.
    + constructor; [done|]. by apply IHb.
    + simpl. rewrite IHm. apply insert_insert_ne. intros ->. by rewrite str_cmp_refl in E.
    + intros x Hx. rewrite !Forall_cons. intros [? ?]. auto.
Qed.

Lemma map_erase_spec k l : map_ok l ->
  map_ok (map_erase k l) /\ (list_to_map (map_erase k l) : gmap string V) = delete k (list_to_map l) /\
  (forall P : string * V -> Prop, Forall P l -> Forall P (map_erase k l)).
Proof.
  induction 1 as [|[k' v'] l Hs (IHs&IHm&IHb) Hl]; simpl; [split_and!; [constructor|by rewrite delete_empty|done]|].
  destruct (str_cmp k k') eqn:E.
  - apply str_cmp_eq in E as ->. repeat split; [done| |by intros P [_ ?]%Forall_cons].
    rewrite delete_insert_eq, delete_id; [done|]. by apply below_all.
  - repeat split; [by constructor| |done].
    rewrite delete_insert_ne, delete_id; [done| |by apply str_cmp_Lt_ne in E].
    apply below_all. by eapply below_trans.
  - repeat split.
    + constructor; [done|]. by apply IHb.
    + simpl. rewrite IHm, delete_insert_ne; [done|]. intros ->. by rewrite str_cmp_refl in E.
    + intros P [? ?]%Forall_cons. auto.
Qed.
End map.

Definition env_map (e : Env) : gmap string string := list_to_map (envTable e).

(** *** Sequences of calls *)
Inductive EnvOp :=
| OpSetEnv (var val : string)
| OpDeleteEnv (name : string)
| OpMergeFrom (env : Env)
| OpClear.
Definition env_step (e : Env) (o : EnvOp) : Env :=
  match o with
  | OpSetEnv var val => (SetEnv var val e).1
  | OpDeleteEnv name => (DeleteEnv name e).1
  | OpMergeFrom env => MergeFrom_env env e
  | OpClear => Clear e
  end.
(** The same on maps: an empty name is ignored, and a merge prefers what is merged. *)
Definition map_step (m : gmap string string) (o : EnvOp) : gmap string string :=
  match o with
  | OpSetEnv var val => if decide (var = ""%string) then m else <[var := val]> m
  | OpDeleteEnv name => if decide (name = ""%string) then m else delete name m
  | OpMergeFrom env => env_map env ∪ m
  | OpClear => ∅
  end.
(** An environment that is merged was itself made by such calls. *)
Definition env_ok (e : Env) : Prop := map_ok (envTable e) /\ Forall (fun kv => kv.1 <> ""%string) (envTable e).
Definition op_ok (o : EnvOp) : Prop := match o with OpMergeFrom env => env_ok env | _ => True end.

Lemma SetEnv_step var val e : env_ok e ->
  env_ok (SetEnv var val e).1 /\
  env_map (SetEnv var val e).1 = if decide (var = ""%string) then env_map e else <[var := val]> (env_map e).
Proof.
  intros [Hs Hn]. unfold SetEnv. destruct (String.eqb_spec var "") as [->|Hv]; simpl; [done|].
  rewrite decide_False by done. destruct (map_put_spec var val (envTable e) Hs) as (Hs'&Hm&_).
  split; [split; [done|]|done]. simpl. clear -Hn Hv. induction (envTable e) as [|[k v] l IH]; simpl; [by repeat constructor|].
  apply Forall_cons in Hn as [Hk Hl]. case_match; repeat constructor; auto.
Qed.
Lemma MergeFrom_env_step env e : env_ok env -> env_ok e ->
  env_ok (MergeFrom_env env e) /\ env_map (MergeFrom_env env e) = env_map env ∪ env_map e.
Proof.
  intros [Hs Hn]. unfold MergeFrom_env, env_map at 2. revert e. generalize (envTable env) Hs Hn. clear.
  intros l Hs. induction Hs as [|[k v] l Hs IH Hl]; intros Hn e He; simpl; [by rewrite (left_id ∅ (∪))|].
  apply Forall_cons in Hn as [Hk Hn]. destruct (SetEnv_step k v e He) as [He' Hm].
  destruct (IH Hn _ He') as [Hok ->]. split; [done|]. rewrite Hm, decide_False by done. clear -Hl.
  rewrite <- insert_union_r by by apply below_all. by rewrite insert_union_l.
Qed.
Lemma env_step_refines e o : env_ok e -> op_ok o ->
  env_ok (env_step e o) /\ env_map (env_step e o) = map_step (env_map e) o.
Proof.
  intros He Ho. destruct o as [k v|k|env|]; simpl.
  - by apply SetEnv_step.
  - destruct He as [Hs Hn]. unfold DeleteEnv. destruct (String.eqb_spec k "") as [->|Hk]; simpl; [done|].
    rewrite decide_False by done. destruct (map_erase_spec k (envTable e) Hs) as (Hs'&Hm&Hf).
    split; [split; [done|by apply Hf]|done].
  - by apply MergeFrom_env_step.
  - split; [|done]. split; constructor.
Qed.

Lemma map_ok_size {V} (l : list (string * V)) : map_ok l -> size (list_to_map l : gmap string V) = length l.
Proof.
  induction 1 as [|[k v] l Hs IH Hl]; [done|]. simpl. rewrite map_size_insert_None; [by rewrite IH|].
  by apply below_all.
Qed.

(** C36: The environment is a finite map, with [SetEnv], [DeleteEnv], [MergeFrom] and [Clear] as
    insertion, deletion, left-biased union and the empty map, and [GetEnv], [HasEnv] and
    [Count] as lookup and size, after every sequence of calls. *)
Theorem Env_refines ops : Forall op_ok ops ->
  let e := foldl env_step new_Env ops in let m := foldl map_step ∅ ops in
  (forall var, GetEnv var e = m !! var /\ HasEnv var e = bool_decide (is_Some (m !! var))) /\
  Count e = size m.
Proof.
  intros Ho e m. assert (He : env_ok e /\ env_map e = m).
  { subst e m. assert (H0 : env_ok new_Env /\ env_map new_Env = ∅) by (split; [split; constructor|done]).
    revert H0. generalize new_Env, (∅ : gmap string string).
    induction Ho as [|o ops Ho _ IH]; intros e m [He <-]; [done|]. simpl.
    apply IH. by apply env_step_refines. }
  destruct He as [[Hs Hn] <-]. unfold GetEnv, HasEnv, Count, env_map.
  split; [intros var; by rewrite map_get_spec|by rewrite map_ok_size].
Qed.

(** ** Reading what was written *)

(** Entries the V2 text can hold. *)
Definition v2_ok (kv : string * string) : Prop :=
  kv.1 <> ""%string /\ no_nul (txt kv.1) /\ equals ∉ txt kv.1 /\
  (if String.eqb kv.2 NO_ENVIRONMENT_VALUE then has_macro (txt kv.1) = true else no_nul (txt kv.2)).

Lemma txt_not_nil s : s <> ""%string -> exists c t, txt s = c :: t.
Proof. destruct s as [|c s]; [done|]. intros _. by exists c, (txt s). Qed.

Lemma v2_entry_no_nul kv : v2_ok kv -> no_nul (v2_entry kv).
Proof.
  destruct kv as [k v]. intros (_&Hk&_&Hv). unfold v2_entry. simpl in *.
  destruct (String.eqb v NO_ENVIRONMENT_VALUE); [done|]. rewrite !c_text_id by done.
  apply no_nul_app. split; [done|]. by apply no_nul_cons.
Qed.
Lemma SetEnv_entry kv e err : v2_ok kv ->
  SetEnvWithErrorMessage (v2_entry kv) (e, err) = Ret true ((SetEnv kv.1 kv.2 e).1, err).
Proof.
  destruct kv as [k v]. intros (Hne&Hk&He&Hv). unfold v2_entry. simpl in *.
  destruct (txt_not_nil k Hne) as (c&t&Ek).
  assert (Hm : forall u (A : Type) (x y : A), match txt k ++ u with [] => x | _ => y end = y) by (intros; by rewrite Ek).
  assert (Hc : forall (A : Type) (x : A) (f : ascii -> text -> A),
    match txt k with [] => x | c :: t => f c t end = f c t) by (intros; by rewrite Ek).
  unfold SetEnvWithErrorMessage. destruct (String.eqb_spec v NO_ENVIRONMENT_VALUE) as [->|Hno].
  - rewrite Hc, split_at_absent, Hv, of_text_txt by done. done.
  - rewrite (c_text_id (txt k)), (c_text_id (txt v)) by done.
    rewrite Hm, split_at_present, Hc, !of_text_txt by done.
    unfold SetEnv. by rewrite (proj2 (String.eqb_neq k "") Hne).
Qed.
Lemma set_entries_all l : forall e err, Forall v2_ok l ->
  set_entries (v2_entry <$> l) (e, err) = Ret true (foldl (fun e kv => (SetEnv kv.1 kv.2 e).1) e l, err).
Proof.
  induction l as [|kv l IH]; intros e err Hl; [done|]. apply Forall_cons in Hl as [Hk Hl].
  simpl. unfold rbind. rewrite c_text_id by by apply v2_entry_no_nul. rewrite SetEnv_entry by done. by apply IH.
Qed.

Lemma v2_text_merged e e0 err : Forall v2_ok (envTable e) ->
  no_nul (getDelimitedStringV2Raw [] e) /\
  MergeFromV2Raw (getDelimitedStringV2Raw [] e) (e0, err) = Ret true (MergeFrom_env e e0, err).
Proof.
  intros Hl. assert (Hn : Forall no_nul (v2_entry <$> envTable e)).
  { apply Forall_fmap. eapply Forall_impl; [exact Hl|]. apply v2_entry_no_nul. }
  unfold getDelimitedStringV2Raw. rewrite join_args_text by done. split; [by apply no_nul_joined|].
  unfold MergeFromV2Raw. rewrite split_joined. simpl. by apply set_entries_all.
Qed.

(** Reading the V2 text of an environment, raw or quoted, is merging that environment. *)
Theorem V2_text_merges e e0 err : Forall v2_ok (envTable e) ->
  MergeFromV2Raw (getDelimitedStringV2Raw [] e) (e0, err) = Ret true (MergeFrom_env e e0, err) /\
  MergeFromV1RawOrV2Quoted (getDelimitedStringV2Quoted [] e) (e0, err) = Ret true (MergeFrom_env e e0, err).
Proof.
  intros Hl. destruct (v2_text_merged e e0 err Hl) as [Hn Hm]. split; [done|].
  unfold MergeFromV1RawOrV2Quoted, getDelimitedStringV2Quoted. rewrite V2Quoted_is_quoted.
  unfold MergeFromV2Quoted. rewrite V2Quoted_is_quoted, V2QuotedToV2Raw_Quoted by done. by rewrite c_text_id.
Qed.

(** Merging into the empty environment gives the environment. *)
Lemma map_ok_ext {V} (l1 l2 : list (string * V)) : map_ok l1 -> map_ok l2 ->
  (list_to_map l1 : gmap string V) = list_to_map l2 -> l1 = l2.
Proof.
  assert (Hhead : forall k v (l l' : list (string * V)), Forall (name_lt (k, v)) l -> map_ok l' ->
    (list_to_map ((k, v) :: l) : gmap string V) = list_to_map l' ->
    exists k' v' l'', l' = (k', v') :: l'' /\ str_cmp k k' <> Lt).
  { intros k v l l' Hl Hs' E. destruct l' as [|[k' v'] l'']; [by apply (f_equal (lookup k)) in E; simpl in E; rewrite lookup_insert_eq, lookup_empty in E|].
    exists k', v', l''. split; [done|]. intros Hlt. apply StronglySorted_inv in Hs' as [_ Hs'].
    apply (f_equal (lookup k)) in E. simpl in E. rewrite lookup_insert_eq, lookup_insert_ne in E.
    - rewrite below_all in E; [done|]. by eapply below_trans.
    - intros ->. by rewrite str_cmp_refl in Hlt. }
  intros H1. revert l2. induction H1 as [|[k v] l Hs IH Hl]; intros l2 H2 E.
  - destruct l2 as [|[k v] l2]; [done|]. apply (f_equal (lookup k)) in E. simpl in E.
    by rewrite lookup_insert_eq, lookup_empty in E.
  - destruct (Hhead _ _ _ _ Hl H2 E) as (k'&v'&l2'&->&Hk).
    pose proof (StronglySorted_inv H2) as [Hs2 Hl2].
    destruct (Hhead k' v' l2' ((k, v) :: l) Hl2) as (k2&v2&l2&[= <- <- <-]&Hk'); [by constructor|done|].
    assert (k = k') as <- by by apply str_cmp_total.
    assert (v = v') as <-.
    { apply (f_equal (lookup k)) in E. simpl in E. rewrite !lookup_insert_eq in E. by injection E. }
    f_equal. apply IH; [done|]. simpl in E. apply (f_equal (delete k)) in E.
    rewrite !delete_insert_id in E by by apply below_all. done.
Qed.
Lemma MergeFrom_env_new e e0 : env_ok e -> env_ok e0 -> envTable e0 = [] ->
  envTable (MergeFrom_env e e0) = envTable e.
Proof.
  intros He H0 E. destruct (MergeFrom_env_step e e0 He H0) as [[Hs _] Hm].
  apply map_ok_ext; [done|apply He|]. unfold env_map in Hm. rewrite E in Hm. simpl in Hm. rewrite Hm.
  by rewrite (right_id ∅ (∪)).
Qed.

(** *** V1 *)

(** Entries the V1 text can hold and the reader takes apart: no blank in front. *)
Definition v1_ok (kv : string * string) : Prop :=
  v2_ok kv /\ match txt kv.1 with c :: _ => is_sep c = false | [] => True end.

Lemma copy_entry_all delim s : forall rest buf,
  Forall (fun c => Ascii.eqb c "010" || Ascii.eqb c delim = false) s ->
  copy_entry delim (s ++ rest) buf = copy_entry delim rest (buf ++ s).
Proof.
  induction s as [|c s IH]; intros rest buf; [by rewrite app_nil_r|]. intros [Hc Hs]%Forall_cons.
  simpl. by rewrite Hc, IH, <- app_assoc.
Qed.
Lemma safe_chars s delim : IsSafeEnvV1Value s (Some delim) = true ->
  Forall (fun c => Ascii.eqb c "010" || Ascii.eqb c delim = false) s.
Proof.
  unfold IsSafeEnvV1Value. simpl. induction s as [|c s IH]; simpl; [done|].
  intros [Hc%negb_true_iff Hs]%andb_prop. constructor; [by rewrite orb_comm|auto].
Qed.

(** The text of the remaining entries. *)
Definition v1_more (delim : ascii) (l : list (string * string)) : text := l ≫= fun kv => delim :: v2_entry kv.

Lemma v1_text_more delim l : forall r err t err', Forall v1_ok l -> delim <> equals ->
  v1_text l delim r err = (true, t, err') ->
  t = match r, l with [], kv :: l' => v2_entry kv ++ v1_more delim l' | _, _ => r ++ v1_more delim l end /\
  Forall (fun kv => Forall (fun c => Ascii.eqb c "010" || Ascii.eqb c delim = false) (v2_entry kv)) l.
Proof.
  induction l as [|[k v] l IH]; intros r err t err' Hl Hd; simpl.
  - intros [= -> ->]. split; [|constructor]. unfold v1_more. simpl. rewrite app_nil_r. by destruct t.
  - apply Forall_cons in Hl as [[(Hne&Hk&He&Hv) Hb] Hl]. simpl in *. rewrite (c_text_id (txt k) Hk).
    destruct (IsSafeEnvV1Value (txt k) (Some delim)) eqn:Sk; simpl; [|done].
    destruct (IsSafeEnvV1Value (c_text (txt v)) (Some delim)) eqn:Sv; simpl; [|done].
    assert (Hent : v2_entry (k, v) = txt k ++ if String.eqb v NO_ENVIRONMENT_VALUE then [] else equals :: c_text (txt v)).
    { unfold v2_entry. simpl. rewrite (c_text_id (txt k) Hk). destruct (String.eqb _ _); [by rewrite app_nil_r|done]. }
    unfold WriteToDelimitedString. intros Hv1. apply IH in Hv1 as [-> Hall]; [|done|done]. split.
    + destruct (txt_not_nil k Hne) as (c&u&Ek). clear -Hent Ek. destruct r as [|d r]; simpl in *.
      * rewrite Ek in *. destruct (String.eqb _ _); rewrite Hent; simpl; rewrite <- ?app_assoc; by destruct l.
      * destruct (String.eqb _ _); rewrite Hent; unfold v1_more; simpl; rewrite <- ?app_assoc; simpl;
          rewrite ?app_nil_r, <- ?app_assoc; done.
    + constructor; [|done]. rewrite Hent. apply Forall_app. split; [by apply safe_chars|].
      destruct (String.eqb _ _); [constructor|]. constructor; [|by apply safe_chars].
      apply orb_false_intro; [done|]. apply Ascii.eqb_neq. congruence.
Qed.

Lemma v1_entry_first kv : v1_ok kv -> exists c t, v2_entry kv = c :: t /\ is_sep c = false.
Proof.
  destruct kv as [k v]. intros [(Hne&Hk&_) Hb]. destruct (txt_not_nil k Hne) as (c&t&Ek). simpl in *.
  unfold v2_entry. simpl. rewrite c_text_id, Ek in * by done. destruct (String.eqb _ _); eauto.
Qed.

(** One round of the loop. *)
Lemma v1_entries_read delim n kv rest e err : v1_ok kv ->
  Forall (fun c => Ascii.eqb c "010" || Ascii.eqb c delim = false) (v2_entry kv) ->
  match rest with [] => True | c :: _ => c = delim end ->
  v1_entries (S n) delim (v2_entry kv ++ rest) (e, err) =
    v1_entries n delim (tail rest) ((SetEnv kv.1 kv.2 e).1, err).
Proof.
  intros Hkv Hc Hr. destruct (v1_entry_first kv Hkv) as (c&t&E&Hs).
  assert (Hread : ReadFromDelimitedString delim (v2_entry kv ++ rest) = (v2_entry kv, tail rest)).
  { unfold ReadFromDelimitedString.
    assert (strip_leading (v2_entry kv ++ rest) = v2_entry kv ++ rest) as -> by (rewrite E; simpl; by rewrite Hs).
    rewrite copy_entry_all by done. destruct rest as [|d rest]; [done|]. subst d. simpl.
    by rewrite Ascii.eqb_refl, orb_true_r. }
  destruct Hkv as [Hkv _]. pose proof (SetEnv_entry kv e err Hkv) as Hset. rewrite E in *. simpl app. simpl v1_entries.
  simpl app in Hread. rewrite Hread. unfold rbind. by rewrite Hset.
Qed.
Lemma v1_entries_more delim l : forall n e err, Forall v1_ok l ->
  Forall (fun kv => Forall (fun c => Ascii.eqb c "010" || Ascii.eqb c delim = false) (v2_entry kv)) l ->
  (length l <= n)%nat ->
  v1_entries n delim (tail (v1_more delim l)) (e, err) =
    Ret true (foldl (fun e kv => (SetEnv kv.1 kv.2 e).1) e l, err).
Proof.
  induction l as [|kv l IH]; intros n e err Hl Hc Hn; [by destruct n|].
  apply Forall_cons in Hl as [Hkv Hl]. apply Forall_cons in Hc as [Hkc Hc].
  destruct n as [|n]; [simpl in Hn; lia|]. unfold v1_more. simpl tail. rewrite v1_entries_read; [|done|done|].
  - apply IH; [done|done|]. simpl in Hn. lia.
  - by destruct l.
Qed.

Lemma v1_more_length delim l : (length l <= length (v1_more delim l))%nat.
Proof.
  induction l as [|kv l IH]; [simpl; lia|].
  change (v1_more delim (kv :: l)) with ((delim :: v2_entry kv) ++ v1_more delim l).
  rewrite length_app. simpl. lia.
Qed.

(** When the V1 text of an environment can be written, reading it with the same delimiter
    is merging that environment. *)
Theorem V1_text_merges e delim err0 t err1 e0 err :
  Forall v1_ok (envTable e) -> delim <> equals ->
  getDelimitedStringV1Raw [] err0 (Some delim) e = (true, t, err1) ->
  MergeFromV1Raw t delim (e0, err) = Ret true (MergeFrom_env e (set_was_v1 e0), err).
Proof.
  intros Hl Hd Ht. unfold getDelimitedStringV1Raw in Ht. simpl in Ht.
  destruct (v1_text_more _ _ _ _ _ _ Hl Hd Ht) as [-> Hc]. unfold MergeFromV1Raw, MergeFrom_env.
  pose proof (v1_more_length delim (envTable e)) as Hlen.
  destruct (envTable e) as [|kv l]; [done|].
  change (v2_entry kv ++ v1_more delim l) with (tail (v1_more delim (kv :: l))).
  apply v1_entries_more; [done|done|]. destruct (v1_more delim (kv :: l)) as [|c u] eqn:Em; [done|]. simpl tail.
  apply Forall_inv in Hl. destruct (v1_entry_first kv Hl) as (c'&t'&E&_).
  assert (S (length (kv :: l)) <= length (c :: u))%nat; [|simpl in *; lia].
  rewrite <- Em. change (v1_more delim (kv :: l)) with ((delim :: v2_entry kv) ++ v1_more delim l).
  rewrite E, length_app. simpl. pose proof (v1_more_length delim l). lia.
Qed.

(** ** Through the ClassAd of a job *)
Section job.
Variable oldSemantics : bool.
Variable functionTable : string -> option ClassAdFunc.

(** C32: The environment put into the ClassAd of a job in the V2 syntax is read back from it by
    [MergeFrom], if the text can hold its entries ([v2_ok]: names are not empty, have no
    zero bytes and no equals sign, values have no zero bytes, and the value that marks a
    macro is only that of a name with two dollars). [InsertEnvIntoClassAd] writes it
    whatever the ClassAd held before; the form with an error message does the same when the
    ClassAd has no V1 environment or has a V2 one too. When it has only a V1 environment
    that form writes V1, which need not be read back ([macro_taken_for_delimiter]). [SetEnv]
    takes names that the text cannot hold ([equals_in_name]). *)
Theorem env_survives_job h ad e st :
  heap_ok h -> top_level h ad -> Forall v2_ok (envTable e) ->
  exists h', InsertEnvIntoClassAd ad e (h, st) = Ret true (h', st) /\
    (forall n e0 err st',
      MergeFrom_ad oldSemantics functionTable (S n) ad e0 err (h', st') =
        Ret (Ret true (MergeFrom_env e e0, err)) (h', st')) /\
    forall n v1 v2 msg, Lookup h ad ATTR_JOB_ENV_V1 = Some v1 -> Lookup h ad ATTR_JOB_ENVIRONMENT = Some v2 ->
      present v1 && negb (present v2) = false ->
      InsertEnvIntoClassAd_msg oldSemantics functionTable n ad e msg (h, st) = Ret (true, msg) (h', st).
Proof.
  intros Hok Ht Hl. set (t := getDelimitedStringV2Raw [] e).
  destruct (assign_string h ad ATTR_JOB_ENVIRONMENT (of_text t) Ht) as (h1&E1&Ht1); [done|].
  assert (Ei : InsertEnvIntoClassAd ad e (h, st) = Ret true (h1, st)).
  { unfold InsertEnvIntoClassAd, rbind, on_heap. cbn [fst]. fold t. by rewrite E1. }
  exists h1. split_and!; [done| |].
  2:{ intros n v1 v2 msg L1 L2 Hv. unfold InsertEnvIntoClassAd_msg, read_heap, rbind. cbn [fst].
      rewrite L1. cbn [fst]. rewrite L2. cbn beta iota. by rewrite Hv, Ei. }
  intros n e0 err st'. destruct (v2_text_merged e e0 err Hl) as [Hn Hm].
  pose proof (Insert_then_Lookup_same h ad ATTR_JOB_ENVIRONMENT _ h1 true ATTR_JOB_ENVIRONMENT
    Hok eq_refl eq_refl ltac:(done) E1 eq_refl) as Hl1.
  unfold MergeFrom_ad, rbind. rewrite (LookupString_found _ _ _ _ _ _ _ _ Ht1 Hl1).
  rewrite txt_of_text, c_text_id by done. fold t in Hm. by rewrite Hm.
Qed.
End job.

(** ** Merging returns *)
Definition env_returns (m : EnvMethod) : Prop := forall st, exists ok st', m st = Ret ok st'.

Lemma SetEnv_returns s : env_returns (SetEnvWithErrorMessage s).
Proof.
  intros [e err]. unfold SetEnvWithErrorMessage. destruct s as [|c s]; [eauto|].
  destruct (split_at equals (c :: s)) as [[|d l] [v|]]; try (destruct (has_macro _)); eauto.
Qed.
Lemma bind_returns (m : EnvMethod) (k : bool -> EnvMethod) :
  env_returns m -> (forall b, env_returns (k b)) -> env_returns (rbind m k).
Proof. intros Hm Hk st. unfold rbind. destruct (Hm st) as (ok&st'&->). apply Hk. Qed.
Lemma ret_returns b : env_returns (rret b).
Proof. intros st. unfold rret. eauto. Qed.
#[local] Hint Resolve SetEnv_returns bind_returns ret_returns : core.

Lemma set_entries_returns l : env_returns (set_entries l).
Proof. induction l as [|s l IH]; simpl; [auto|]. apply bind_returns; [auto|]. intros []; auto. Qed.
Lemma copy_entry_length delim s : forall buf, (length (copy_entry delim s buf).2 <= length s)%nat /\
  (s <> [] -> (length (copy_entry delim s buf).2 < length s)%nat).
Proof.
  induction s as [|c s IH]; intros buf; simpl; [done|]. destruct (_ || _); simpl; [lia|].
  destruct (IH (buf ++ [c])). lia.
Qed.
Lemma strip_length s : (length (strip_leading s) <= length s)%nat /\ (strip_leading s = [] -> True).
Proof. split; [|done]. induction s as [|c s IH]; simpl; [done|]. destruct (is_sep c); simpl; lia. Qed.
Lemma read_entry_length delim s : s <> [] -> (length (ReadFromDelimitedString delim s).2 < length s)%nat.
Proof.
  intros Hs. unfold ReadFromDelimitedString. destruct (copy_entry_length delim (strip_leading s) []) as [H1 H2].
  destruct (decide (strip_leading s = [])) as [E|E].
  - rewrite E. simpl. destruct s; [done|simpl; lia].
  - specialize (H2 E). pose proof (proj1 (strip_length s)). lia.
Qed.
Lemma v1_entries_returns delim n : forall s, (length s <= n)%nat -> env_returns (v1_entries n delim s).
Proof.
  induction n as [|n IH]; intros [|c s] Hs; [simpl; auto|simpl in Hs; lia|simpl; auto|]. simpl v1_entries.
  pose proof (read_entry_length delim (c :: s) ltac:(done)) as Hr. simpl in Hs, Hr.
  destruct (ReadFromDelimitedString delim (c :: s)) as [[|d out] rest]; simpl in Hr; [apply IH; lia|].
  apply bind_returns; [auto|]. intros []; [apply IH; lia|auto].
Qed.
Lemma MergeFromV2Raw_returns s : env_returns (MergeFromV2Raw s).
Proof.
  intros [e err]. unfold MergeFromV2Raw. destruct (split_args s [] err) as [[[] l] err']; [apply set_entries_returns|eauto].
Qed.
Lemma MergeFromV2Quoted_returns s : env_returns (MergeFromV2Quoted s).
Proof.
  intros [e err]. unfold MergeFromV2Quoted. destruct (IsV2QuotedString s) eqn:E; [|eauto].
  destruct (V2QuotedToV2Raw_returns s [] [] E) as ([[] v]&msg&->); [apply MergeFromV2Raw_returns|eauto].
Qed.
Lemma MergeFromV1Raw_returns s delim : env_returns (MergeFromV1Raw s delim).
Proof. intros [e err]. by apply v1_entries_returns. Qed.
Lemma MergeFromV1AutoDelim_returns s delim : env_returns (MergeFromV1AutoDelim s delim).
Proof.
  unfold MergeFromV1AutoDelim. destruct s as [|c s]; [auto|].
  destruct (Ascii.eqb _ _); [|destruct (is_permitted_delim c)]; apply MergeFromV1Raw_returns.
Qed.

(** Every text, in any of the syntaxes, is merged or refused: the methods that read return,
    and no check of theirs aborts. *)
Theorem merging_returns s delim :
  env_returns (MergeFromV2Raw s) /\ env_returns (MergeFromV2Quoted s) /\ env_returns (MergeFromV1Raw s delim) /\
  env_returns (MergeFromV1AutoDelim s (Some delim)) /\ env_returns (MergeFromV1RawOrV2Quoted s).
Proof.
  split_and!; [apply MergeFromV2Raw_returns|apply MergeFromV2Quoted_returns|apply MergeFromV1Raw_returns|
               apply MergeFromV1AutoDelim_returns|].
  unfold MergeFromV1RawOrV2Quoted. destruct (IsV2QuotedString s); [apply MergeFromV2Quoted_returns|apply MergeFromV1AutoDelim_returns].
Qed.

(** ** Examples and corners *)
Definition env_of (l : list (string * string)) : Env := mk_Env l false.
Definition env_example : Env :=
  env_of [("$$(X)", NO_ENVIRONMENT_VALUE); ("HOME", "/a b"); ("Q", "it's = x")]%string.
Lemma env_example_ok : Forall v2_ok (envTable env_example).
Proof.
  repeat constructor; try discriminate; simpl;
    (intros Hin; repeat (apply elem_of_cons in Hin as [Hin|Hin]; [discriminate|]); by apply not_elem_of_nil in Hin).
Qed.

Lemma V2_text_merges_witness :
  MergeFromV2Raw (getDelimitedStringV2Raw [] env_example) (new_Env, []) = Ret true (env_example, []).
Proof. exact (proj1 (V2_text_merges env_example new_Env [] env_example_ok)). Defined.

Lemma Env_refines_witness :
  let e := foldl env_step new_Env [OpSetEnv "B" "2"; OpSetEnv "A" "1"; OpMergeFrom env_example; OpDeleteEnv "B"] in
  GetEnv "A" e = Some "1"%string /\ GetEnv "B" e = None.
Proof.
  assert (Hok : Forall op_ok [OpSetEnv "B" "2"; OpSetEnv "A" "1"; OpMergeFrom env_example; OpDeleteEnv "B"]).
  { repeat constructor; discriminate. }
  destruct (Env_refines _ Hok) as [H _]. split; [apply (H "A"%string)|apply (H "B"%string)].
Defined.

Definition v1_example : Env := env_of [("HOME", "/a b"); ("Q", "x=y")]%string.
Lemma v1_example_ok : Forall v1_ok (envTable v1_example).
Proof.
  repeat constructor; try discriminate; simpl;
    (intros Hin; repeat (apply elem_of_cons in Hin as [Hin|Hin]; [discriminate|]); by apply not_elem_of_nil in Hin).
Qed.
Lemma V1_text_merges_witness :
  MergeFromV1Raw (txt "HOME=/a b;Q=x=y") ";" (new_Env, []) = Ret true (set_was_v1 v1_example, []).
Proof.
  exact (V1_text_merges v1_example ";" [] (txt "HOME=/a b;Q=x=y") [] new_Env [] v1_example_ok ltac:(done) eq_refl).
Defined.

Lemma env_survives_job_witness :
  let st := mk_EvalState 0 None None false in
  exists h', InsertEnvIntoClassAd 1 env_example (job_example, st) = Ret true (h', st) /\
    MergeFrom_ad false (fun _ => None) 1 1 new_Env [] (h', st) = Ret (Ret true (env_example, [])) (h', st) /\
    InsertEnvIntoClassAd_msg false (fun _ => None) 1 1 env_example [] (job_example, st) = Ret (true, []) (h', st).
Proof.
  intros st. destruct (env_survives_job false (fun _ => None) job_example 1 env_example st
    (proj1 job_example_ok) (proj2 job_example_ok) env_example_ok) as (h'&E1&E2&E3).
  exists h'. split; [exact E1|]. split; [exact (E2 O new_Env [] st)|].
  eapply (E3 1%nat); vm_compute; reflexivity.
Defined.

(** The V1 text of an environment that begins with a macro is not read back where the
    delimiter is guessed: the dollar is taken for it. *)
Lemma macro_taken_for_delimiter :
  let e := env_of [("$$(X)"%string, NO_ENVIRONMENT_VALUE)] in
  getDelimitedStringV1Raw [] [] None e = (true, txt "$$(X)", []) /\
  MergeFromV1AutoDelim (txt "$$(X)") None (new_Env, []) =
    Ret false (set_was_v1 new_Env, txt "ERROR: Missing '=' after environment variable '(X)'.").
Proof. vm_compute. done. Qed.

(** A name with an equals sign is set under that name, and read back as another variable. *)
Lemma equals_in_name :
  let e := (SetEnv "A=B" "c" new_Env).1 in
  GetEnv "A=B" e = Some "c"%string /\ GetEnv "A" e = None /\
  MergeFromV2Raw (getDelimitedStringV2Raw [] e) (new_Env, []) = Ret true (env_of [("A", "B=c")]%string, []).
Proof. vm_compute. done. Qed.

(** A text that fails has merged the entries before the one that is refused. *)
Lemma refused_text_merges_prefix :
  MergeFromV2Raw (txt "A=1 B C=3") (new_Env, []) =
    Ret false (env_of [("A", "1")]%string, txt "ERROR: Missing '=' after environment variable 'B'.").
Proof. vm_compute. done. Qed.

(** [Clear] keeps the mark that the input was V1. *)
Lemma clear_keeps_v1 : Clear (set_was_v1 new_Env) = set_was_v1 new_Env.
Proof. reflexivity. Qed.
