(* ===== verification/Calendar.v ===== *)
(** * Dates (date_util.cpp), and the conversions of the C library between times and dates

    [daysInMonth] and [dayOfWeek] of the code. [gmtime] and [timegm] are the functions of
    the C library the code calls, on times from 1970 on; that they are inverse and keep the
    order is what the schedules rely on, stated as the interface [ZoneLaws]. *)
From Stdlib Require Import ZArith Lia.
From stdpp Require Import base list.
From S2P Require Import Prelude.

(** ** date_util.cpp *)
Definition is_leap (year : Z) : bool :=
  (Z.rem year 4 =? 0) && negb (Z.rem year 100 =? 0) || (Z.rem year 400 =? 0).
Definition month_days : list Z := [0; 31; 28; 31; 30; 31; 30; 31; 31; 30; 31; 30; 31].
Definition daysInMonth (month year : Z) : Z :=
  if (0 <? month) && (month <=? 12)
  then nth (Z.to_nat month) month_days 0 + (if (month =? 2) && is_leap year then 1 else 0) else 0.

(** The arguments of [rint] are integers. *)
Definition dayOfWeek (month day year : Z) : Z :=
  let '(month, year) := if month <? 3 then (month + 12, year - 1) else (month, year) in
  let temp := day + 1 + 2 * month + Z.quot (6 * (month + 1)) 10 + year
              + Z.quot year 4 - Z.quot year 100 + Z.quot year 400 in
  Z.rem temp 7.

(** ** [struct tm]

    [tm_mon] from 1, and [tm_year] as the year. *)
Record tm := mk_tm { tm_min : Z; tm_hour : Z; tm_mday : Z; tm_mon : Z; tm_year : Z; tm_wday : Z }.

Definition year_days (y : Z) : Z := if is_leap y then 366 else 365.
(** Days from 1970-01-01 to the first of a year, and to the first of a month. *)
Definition days_before_year (y : Z) : Z :=
  365 * (y - 1970) + ((y - 1) / 4 - 492) - ((y - 1) / 100 - 19) + ((y - 1) / 400 - 4).
Fixpoint days_before_month (n : nat) (y : Z) : Z :=
  match n with
  | O => 0
  | S n' => days_before_month n' y + daysInMonth (Z.of_nat n') y
  end.
Definition days_of (y m d : Z) : Z := days_before_year y + days_before_month (Z.to_nat m) y + (d - 1).

Definition timegm (t : tm) : Z :=
  (days_of (tm_year t) (tm_mon t) (tm_mday t) * 24 + tm_hour t) * 3600 + tm_min t * 60.

(** The year and the month a day is in, counted from a year or a month on. *)
Fixpoint find_year (n : nat) (y days : Z) : Z * Z :=
  match n with
  | O => (y, days)
  | S n' => if days <? year_days y then (y, days) else find_year n' (y + 1) (days - year_days y)
  end.
Fixpoint find_month (n : nat) (y m days : Z) : Z * Z :=
  match n with
  | O => (m, days)
  | S n' => if days <? daysInMonth m y then (m, days) else find_month n' y (m + 1) (days - daysInMonth m y)
  end.
Definition gmtime (t : Z) : tm :=
  let days := t / 86400 in
  let secs := t mod 86400 in
  let '(y, yday) := find_year (Z.to_nat (days / 365)) 1970 days in
  let '(m, mday) := find_month 11 y 1 yday in
  mk_tm (secs / 60 mod 60) (secs / 3600) (mday + 1) m y ((days + 4) mod 7).

(** ** What a time zone promises to the schedules *)
Class Zone := {
  breakdown : Z -> tm;
  to_time : tm -> Z
}.

Definition valid_tm (t : tm) : Prop :=
  0 <= tm_min t <= 59 /\ 0 <= tm_hour t <= 23 /\ 1 <= tm_mon t <= 12 /\
  1 <= tm_mday t <= daysInMonth (tm_mon t) (tm_year t) /\ 1970 <= tm_year t.
(** The fields but the day of the week, from the year to the minute. *)
Definition tm_fields (t : tm) : list Z := [tm_year t; tm_mon t; tm_mday t; tm_hour t; tm_min t].
Fixpoint lex_lt (a b : list Z) : Prop :=
  match a, b with
  | x :: a', y :: b' => x < y \/ x = y /\ lex_lt a' b'
  | _, _ => False
  end.

Class ZoneLaws (Z0 : Zone) : Prop := {
  breakdown_valid : forall t, 0 <= t -> valid_tm (breakdown t);
  breakdown_wday : forall t, 0 <= t ->
    tm_wday (breakdown t) = dayOfWeek (tm_mon (breakdown t)) (tm_mday (breakdown t)) (tm_year (breakdown t));
  to_time_breakdown : forall t, 0 <= t -> t mod 60 = 0 -> to_time (breakdown t) = t;
  to_time_monotone : forall a b, valid_tm a -> valid_tm b ->
    lex_lt (tm_fields a) (tm_fields b) -> to_time a < to_time b;
  to_time_minute : forall a, valid_tm a -> 0 <= to_time a /\ to_time a mod 60 = 0;
  to_time_fields : forall a b, tm_fields a = tm_fields b -> to_time a = to_time b
}.

Definition UTC : Zone := {| breakdown := gmtime; to_time := timegm |}.

(** ** Facts *)
Lemma is_leap_floor y : 0 < y ->
  is_leap y = (y mod 4 =? 0) && negb (y mod 100 =? 0) || (y mod 400 =? 0).
Proof. intros Hy. unfold is_leap. by rewrite !Z.rem_mod_nonneg by lia. Qed.

Lemma days_before_year_step y : 0 < y -> days_before_year (y + 1) = days_before_year y + year_days y.
Proof.
  intros Hy. unfold days_before_year, year_days. rewrite is_leap_floor by done.
  replace (y + 1 - 1) with y by lia.
  destruct (y mod 4 =? 0) eqn:E4, (y mod 100 =? 0) eqn:E100, (y mod 400 =? 0) eqn:E400; simpl;
    Z.to_euclidean_division_equations; lia.
Qed.
Lemma year_days_bounds y : 365 <= year_days y <= 366.
Proof. unfold year_days. case_match; lia. Qed.

Lemma month_cases (P : Z -> Prop) :
  P 1 -> P 2 -> P 3 -> P 4 -> P 5 -> P 6 -> P 7 -> P 8 -> P 9 -> P 10 -> P 11 -> P 12 ->
  forall m, 1 <= m <= 12 -> P m.
Proof.
  intros. assert (m = 1 \/ m = 2 \/ m = 3 \/ m = 4 \/ m = 5 \/ m = 6 \/ m = 7 \/ m = 8 \/ m = 9 \/ m = 10
                  \/ m = 11 \/ m = 12) by lia. intuition (by subst).
Qed.

Lemma daysInMonth_bounds m y : 1 <= m <= 12 -> 28 <= daysInMonth m y <= 31.
Proof. revert m. apply month_cases; unfold daysInMonth; simpl; try lia. case_match; lia. Qed.

Lemma days_before_month_step m y : 1 <= m -> days_before_month (Z.to_nat (m + 1)) y = days_before_month (Z.to_nat m) y + daysInMonth m y.
Proof.
  intros Hm. replace (Z.to_nat (m + 1)) with (S (Z.to_nat m)) by lia. simpl. by rewrite Z2Nat.id by lia.
Qed.
Lemma days_in_year y : days_before_month 13 y = year_days y.
Proof. unfold year_days. simpl. unfold daysInMonth. simpl. destruct (is_leap y); reflexivity. Qed.

(** The first of the next month is after this month; of the next year, after this year. *)
Lemma days_before_month_mono y m m' : 1 <= m -> m < m' -> m' <= 13 ->
  days_before_month (Z.to_nat m) y + daysInMonth m y <= days_before_month (Z.to_nat m') y.
Proof.
  intros Hm Hlt Hm'. rewrite <- days_before_month_step by done.
  replace m' with (m + 1 + (m' - (m + 1))) in Hm' |- * by lia.
  assert (Hd : 0 <= m' - (m + 1)) by lia. revert Hm'. generalize (m' - (m + 1)) Hd. clear -Hm.
  intros d Hd. revert d Hd. apply (natlike_ind (fun d => m + 1 + d <= 13 ->
    days_before_month (Z.to_nat (m + 1)) y <= days_before_month (Z.to_nat (m + 1 + d)) y)); [intros _; by rewrite Z.add_0_r|].
  intros d Hd IH Hm'. unfold Z.succ. replace (m + 1 + (d + 1)) with (m + 1 + d + 1) by lia.
  rewrite (days_before_month_step (m + 1 + d)) by lia. specialize (IH ltac:(lia)).
  pose proof (daysInMonth_bounds (m + 1 + d) y ltac:(lia)). lia.
Qed.
Lemma days_before_year_mono y y' : 0 < y -> y < y' -> days_before_year y + year_days y <= days_before_year y'.
Proof.
  intros Hy Hlt. rewrite <- days_before_year_step by done.
  replace y' with (y + 1 + (y' - (y + 1))) by lia. assert (Hd : 0 <= y' - (y + 1)) by lia.
  revert Hd. generalize (y' - (y + 1)). apply (natlike_ind (fun d =>
    days_before_year (y + 1) <= days_before_year (y + 1 + d))); [by rewrite Z.add_0_r|].
  intros d Hd IH. unfold Z.succ. replace (y + 1 + (d + 1)) with (y + 1 + d + 1) by lia.
  rewrite (days_before_year_step (y + 1 + d)) by lia. pose proof (year_days_bounds (y + 1 + d)). lia.
Qed.

(** The day of a valid date is within its year. *)
Lemma day_in_year y m d : 1 <= m <= 12 -> 1 <= d <= daysInMonth m y ->
  0 <= days_before_month (Z.to_nat m) y + (d - 1) < year_days y.
Proof.
  intros Hm Hd. rewrite <- days_in_year. change 13%nat with (Z.to_nat 13).
  pose proof (days_before_month_mono y m 13 ltac:(lia) ltac:(lia) ltac:(lia)).
  destruct (decide (m = 1)) as [->|Hne]; [change (days_before_month (Z.to_nat 1) y) with 0 in *; lia|].
  pose proof (days_before_month_mono y 1 m ltac:(lia) ltac:(lia) ltac:(lia)).
  pose proof (daysInMonth_bounds 1 y ltac:(lia)).
  change (days_before_month (Z.to_nat 1) y) with 0 in *. lia.
Qed.

(** ** [gmtime] and [timegm] *)
Lemma find_year_spec n : forall y days, 0 < y -> 0 <= days -> days < 365 * (Z.of_nat n + 1) ->
  let '(y', d') := find_year n y days in
  y <= y' /\ 0 <= d' < year_days y' /\ days_before_year y + days = days_before_year y' + d'.
Proof.
  induction n as [|n IH]; intros y days Hy Hd Hn; simpl.
  - pose proof (year_days_bounds y). lia.
  - pose proof (year_days_bounds y). destruct (Z.ltb_spec days (year_days y)) as [Hlt|Hge]; [lia|].
    specialize (IH (y + 1) (days - year_days y)). destruct (find_year n (y + 1) (days - year_days y)) as [y' d'].
    pose proof (days_before_year_step y Hy). destruct IH as (H1&H2&H3); lia.
Qed.
Lemma find_month_spec n : forall y m days, 1 <= m -> m + Z.of_nat n = 12 -> 0 <= days ->
  days_before_month (Z.to_nat m) y + days < year_days y ->
  let '(m', d') := find_month n y m days in
  m <= m' <= 12 /\ 0 <= d' < daysInMonth m' y /\
  days_before_month (Z.to_nat m) y + days = days_before_month (Z.to_nat m') y + d'.
Proof.
  induction n as [|n IH]; intros y m days Hm Hn Hd Hy; simpl.
  - replace m with 12 in * by lia. rewrite <- days_in_year in Hy.
    pose proof (days_before_month_step 12 y ltac:(lia)) as Hs.
    change (Z.to_nat (12 + 1)) with 13%nat in Hs. lia.
  - destruct (Z.ltb_spec days (daysInMonth m y)) as [Hlt|Hge]; [lia|].
    pose proof (days_before_month_step m y Hm).
    specialize (IH y (m + 1) (days - daysInMonth m y)).
    destruct (find_month n y (m + 1) (days - daysInMonth m y)) as [m' d'].
    destruct IH as (H1&H2&H3); lia.
Qed.

Lemma gmtime_spec t : 0 <= t ->
  valid_tm (gmtime t) /\
  days_of (tm_year (gmtime t)) (tm_mon (gmtime t)) (tm_mday (gmtime t)) = t / 86400 /\
  tm_hour (gmtime t) = t mod 86400 / 3600 /\ tm_min (gmtime t) = t mod 86400 / 60 mod 60 /\
  tm_wday (gmtime t) = (t / 86400 + 4) mod 7.
Proof.
  intros Ht. unfold gmtime.
  assert (Hdays : 0 <= t / 86400) by (apply Z.div_pos; lia).
  assert (Hfuel : t / 86400 < 365 * (Z.of_nat (Z.to_nat (t / 86400 / 365)) + 1)).
  { rewrite Z2Nat.id by (apply Z.div_pos; lia). Z.to_euclidean_division_equations; lia. }
  pose proof (find_year_spec (Z.to_nat (t / 86400 / 365)) 1970 (t / 86400) ltac:(lia) Hdays Hfuel) as Hy.
  destruct (find_year _ _ _) as [y yday]. destruct Hy as (Hy1&Hy2&Hy3).
  pose proof (find_month_spec 11 y 1 yday ltac:(lia) ltac:(lia) ltac:(lia)) as Hm.
  change (days_before_month (Z.to_nat 1) y) with 0 in Hm. specialize (Hm ltac:(lia)).
  destruct (find_month 11 y 1 yday) as [m mday]. destruct Hm as (Hm1&Hm2&Hm3). simpl.
  change (days_before_year 1970) with 0 in Hy3.
  split; [|split; [unfold days_of; lia|done]].
  unfold valid_tm. simpl. repeat split; try lia; Z.to_euclidean_division_equations; lia.
Qed.

Lemma days_of_mono y m d y' m' d' :
  0 < y -> 1 <= m <= 12 -> 1 <= m' <= 12 -> 1 <= d <= daysInMonth m y -> 1 <= d' <= daysInMonth m' y' ->
  y < y' \/ y = y' /\ (m < m' \/ m = m' /\ d < d') -> days_of y m d < days_of y' m' d'.
Proof.
  intros Hy Hm Hm' Hd Hd' Hlt. unfold days_of.
  pose proof (day_in_year y m d Hm Hd). pose proof (day_in_year y' m' d' Hm' Hd').
  destruct Hlt as [Hlt|[<- [Hlt|[<- Hlt]]]].
  - pose proof (days_before_year_mono y y' Hy Hlt). lia.
  - pose proof (days_before_month_mono y m m' ltac:(lia) Hlt ltac:(lia)). lia.
  - lia.
Qed.

(** The leap days up to a year, from those before it. *)
Lemma leap_sum y : 0 < y ->
  y / 4 - y / 100 + y / 400 = (y - 1) / 4 - (y - 1) / 100 + (y - 1) / 400 + (if is_leap y then 1 else 0).
Proof.
  intros Hy. pose proof (days_before_year_step y Hy) as H. unfold days_before_year, year_days in H.
  replace (y + 1 - 1) with y in H by lia. destruct (is_leap y); lia.
Qed.
Lemma days_before_month_table y m : 1 <= m <= 12 ->
  days_before_month (Z.to_nat m) y =
    nth (Z.to_nat m) [0; 0; 31; 59; 90; 120; 151; 181; 212; 243; 273; 304; 334] 0
    + (if (2 <? m) && is_leap y then 1 else 0).
Proof.
  revert m. apply month_cases; simpl; unfold daysInMonth; simpl; destruct (is_leap y); reflexivity.
Qed.
Lemma mod7_eq a b : (a - b) mod 7 = 0 -> a mod 7 = b mod 7.
Proof. intros H. Z.to_euclidean_division_equations. lia. Qed.

(** The day of the week of a date, counted from the Thursday 1970-01-01 by days. *)
Lemma dayOfWeek_formula y m d : 1970 <= y -> 1 <= m <= 12 -> 1 <= d ->
  dayOfWeek m d y = (days_of y m d + 4) mod 7.
Proof.
  intros Hy Hm Hd. pose proof (leap_sum y ltac:(lia)) as Hl.
  assert (Hdow : dayOfWeek m d y =
    (let '(m', y') := if m <? 3 then (m + 12, y - 1) else (m, y) in
     d + 1 + 2 * m' + 6 * (m' + 1) / 10 + y' + y' / 4 - y' / 100 + y' / 400) mod 7).
  { unfold dayOfWeek. destruct (m <? 3) eqn:Em; rewrite !Z.quot_div_nonneg by lia; rewrite Z.rem_mod_nonneg; try done;
      Z.to_euclidean_division_equations; lia. }
  rewrite Hdow. apply mod7_eq. unfold days_of, days_before_year. clear Hdow. revert m Hm.
  apply month_cases; rewrite days_before_month_table by lia; simpl nth;
    cbv beta iota zeta delta [andb Z.ltb Z.compare Pos.compare Pos.compare_cont];
    revert Hl; generalize ((y - 1) / 4), ((y - 1) / 100), ((y - 1) / 400), (y / 4), (y / 100), (y / 400);
    intros; destruct (is_leap y);
    match goal with |- context [?k / 10] => let v := eval compute in (k / 10) in change (k / 10) with v end;
    Z.to_euclidean_division_equations; lia.
Qed.

(** UTC keeps the promises of a time zone. *)
#[export] Instance UTC_laws : ZoneLaws UTC.
Proof.
  split; cbn [breakdown to_time UTC].
  - intros t Ht. apply (gmtime_spec t Ht).
  - intros t Ht. destruct (gmtime_spec t Ht) as ((_&_&Hm&Hd&Hy)&E&_&_&->). rewrite dayOfWeek_formula by lia. by rewrite E.
  - intros t Ht H60. destruct (gmtime_spec t Ht) as (_&E&Eh&Em&_). unfold timegm. rewrite E, Eh, Em.
    Z.to_euclidean_division_equations. lia.
  - intros a b (Ha1&Ha2&Ha3&Ha4&Ha5) (Hb1&Hb2&Hb3&Hb4&Hb5). unfold timegm. simpl.
    intros Hlt. assert (Hday : days_of (tm_year a) (tm_mon a) (tm_mday a) < days_of (tm_year b) (tm_mon b) (tm_mday b)
      \/ days_of (tm_year a) (tm_mon a) (tm_mday a) = days_of (tm_year b) (tm_mon b) (tm_mday b) /\
         (tm_hour a < tm_hour b \/ tm_hour a = tm_hour b /\ tm_min a < tm_min b)).
    { destruct Hlt as [H|[Ey [H|[Em [H|[Ed H]]]]]]; [left; apply days_of_mono; lia..|].
      right. rewrite Ey, Em, Ed. split; [done|]. tauto. }
    lia.
  - intros a (Ha1&Ha2&Ha3&Ha4&Ha5). unfold timegm.
    assert (0 <= days_of (tm_year a) (tm_mon a) (tm_mday a)).
    { unfold days_of. pose proof (day_in_year _ _ _ Ha3 Ha4).
      destruct (decide (tm_year a = 1970)) as [E|Hne]; [rewrite E in *; change (days_before_year 1970) with 0; lia|].
      pose proof (days_before_year_mono 1970 (tm_year a) ltac:(lia) ltac:(lia)) as H1.
      change (days_before_year 1970) with 0 in H1. pose proof (year_days_bounds 1970). lia. }
    split; [lia|]. Z.to_euclidean_division_equations. lia.
  - unfold timegm, tm_fields. intros a b [= -> -> -> -> ->]. done.
Qed.
