(* ===== verification/CronTab.v ===== *)
(** * Schedules of jobs (condor_crontab.cpp, condor_crontab.h)

    A schedule has a text for each of five fields, minute, hour, day of the month, month and
    day of the week, as cron has. [init] expands the texts to lists of numbers, and
    [nextRunTime] searches the fields for the next time they allow.

    The arrays of the code are lists with the indices of the code. [matchFields] calls
    itself for the next field and, from the month, for the next year, without a bound: it has
    fuel. The time zone is a parameter, with [UTC] for the one the code can ask for. *)
From Stdlib Require Import ZArith Lia Ascii String.
From stdpp Require Import base list sorting gmap strings.
From S2P Require Import Prelude Double Numerals Tree Values Lexer FlatMap AdStore Eval Unparser ArgList Calendar.

(** ** The constants of condor_crontab.h *)
Definition CRONTAB_MINUTES_IDX : nat := 0.
Definition CRONTAB_HOURS_IDX : nat := 1.
Definition CRONTAB_DOM_IDX : nat := 2.
Definition CRONTAB_MONTHS_IDX : nat := 3.
Definition CRONTAB_DOW_IDX : nat := 4.
Definition CRONTAB_YEARS_IDX : nat := 5.
Definition CRONTAB_DAY_OF_MONTH_MAX : Z := 31.
Definition CRONTAB_DAY_OF_WEEK_MIN : Z := 0.
Definition CRONTAB_DAY_OF_WEEK_MAX : Z := 7.
Definition CRONTAB_INVALID : Z := -1.
Definition CRONTAB_WILDCARD : text := ["*"%char].
Definition mins : list Z := [0; 0; 1; 1; 0].
Definition maxs : list Z := [59; 23; 31; 12; 7].
Definition attributes : list string := ["CronMinute"; "CronHour"; "CronDayOfMonth"; "CronMonth"; "CronDayOfWeek"].

(** ** Texts *)

(** The characters the pattern allows: [,-/] in it is a range. *)
Definition allowed (c : ascii) : bool :=
  isdigit c || between "," "/" c || Ascii.eqb c "*" || Ascii.eqb c " ".
Definition validateParameter (parameter : text) (attr : string) (error : text) : bool * text :=
  if forallb allowed parameter then (true, error)
  else (false, txt "Invalid parameter value '" ++ parameter ++ txt "' for " ++ txt attr).

Definition remove_spaces (s : text) : text := filter (fun c => c <> " "%char) s.

(** [StringTokenIterator], which trims: the pieces between separators, without white space
    around them; those with nothing else are skipped. *)
Fixpoint pieces (sep : ascii) (s cur : text) : list text :=
  match s with
  | [] => [cur]
  | c :: s' => if Ascii.eqb c sep then cur :: pieces sep s' [] else pieces sep s' (cur ++ [c])
  end.
Definition trim (s : text) : text := rev (skip_spaces (rev (skip_spaces s))).
Definition tokens (sep : ascii) (s : text) : list text := filter (fun t => t <> []) (trim <$> pieces sep s []).

Definition atoi (s : text) : Z := wrap32 (strtol (c_text s)).1.

(** ** [CronTab] *)
Record CronTab := mk_CronTab {
  errorLog : text;
  valid : bool;
  lastRunTime : Z;
  parameters : list text;
  ranges : list (list Z)
}.

Definition contains (l : list Z) (elt : Z) : bool := existsb (Z.eqb elt) l.
Definition sort (l : list Z) : list Z := merge_sort Z.le l.

(** *** Expansion *)

(** What a token stands for: the least and the greatest value, and the step. *)
Inductive TokenRange :=
| BadStep
| Skipped
| Values (cur_min cur_max cur_step : Z).
Definition token_range (attribute_idx : nat) (min max : Z) (token : text) : TokenRange :=
  let '(token, step) := split_at "/" token in
  let cur_step := match step with Some s => atoi s | None => 1 end in
  if present step && (cur_step =? 0) then BadStep
  else match split_at "-" token with
  | (low, Some high) =>
      let vmax := atoi high in
      let vmin := atoi low in
      Values (if min <=? vmin then vmin else min) (if vmax <=? max then vmax else max) cur_step
  | (_, None) =>
      if existsb (Ascii.eqb "*") token then
        if Nat.eqb attribute_idx CRONTAB_DOW_IDX then Skipped else Values min max cur_step
      else
        let value := atoi token in
        if (min <=? value) && (value <=? max) then Values value value cur_step else Values min max cur_step
  end.

(** The loop over the values from [ctr] on. *)
Definition add_value (attribute_idx : nat) (cur_step : Z) (l : list Z) (ctr : Z) : list Z :=
  let temp := if Nat.eqb attribute_idx CRONTAB_DOW_IDX && (ctr =? CRONTAB_DAY_OF_WEEK_MAX)
              then CRONTAB_DAY_OF_WEEK_MIN else ctr in
  if (Z.rem temp cur_step =? 0) && negb (contains l temp) then l ++ [temp] else l.
Definition fill (attribute_idx : nat) (cur_min cur_max cur_step : Z) (l : list Z) : list Z :=
  foldl (add_value attribute_idx cur_step) l (seqZ cur_min (cur_max - cur_min + 1)).

Fixpoint expand_tokens (attribute_idx : nat) (min max : Z) (toks : list text) (l : list Z) : bool * list Z :=
  match toks with
  | [] => (true, l)
  | token :: toks' =>
      match token_range attribute_idx min max token with
      | BadStep => (false, l)
      | Skipped => expand_tokens attribute_idx min max toks' l
      | Values cur_min cur_max cur_step =>
          expand_tokens attribute_idx min max toks' (fill attribute_idx cur_min cur_max cur_step l)
      end
  end.

Definition set_range (i : nat) (l : list Z) (s : CronTab) : CronTab :=
  mk_CronTab (errorLog s) (valid s) (lastRunTime s) (parameters s) (<[i := l]> (ranges s)).
Definition set_parameter (i : nat) (p : text) (s : CronTab) : CronTab :=
  mk_CronTab (errorLog s) (valid s) (lastRunTime s) (<[i := p]> (parameters s)) (ranges s).
Definition add_error (e : text) (s : CronTab) : CronTab :=
  mk_CronTab (errorLog s ++ e) (valid s) (lastRunTime s) (parameters s) (ranges s).
Definition set_valid (b : bool) (s : CronTab) : CronTab :=
  mk_CronTab (errorLog s) b (lastRunTime s) (parameters s) (ranges s).
Definition set_lastRunTime (t : Z) (s : CronTab) : CronTab :=
  mk_CronTab (errorLog s) (valid s) t (parameters s) (ranges s).

Definition expandParameter (attribute_idx : nat) (min max : Z) (s : CronTab) : CronTab * bool :=
  let param := nth attribute_idx (parameters s) [] in
  let '(ok, error) := validateParameter (c_text param) (nth attribute_idx attributes ""%string) [] in
  if negb ok then (add_error error s, false)
  else
    let param := remove_spaces param in
    let s := set_parameter attribute_idx param s in
    let '(ok, l) := expand_tokens attribute_idx min max (tokens "," (c_text param)) (nth attribute_idx (ranges s) []) in
    if negb ok then (set_range attribute_idx l s, false)
    else
      let l := sort l in
      let s := set_range attribute_idx l s in
      if negb (Nat.eqb attribute_idx CRONTAB_DOW_IDX) && Nat.eqb (length l) 0
      then (add_error (txt "Invalid cron attribute: " ++ c_text param) s, false)
      else (s, true).

(** [init]; a field that fails does not keep the others from being expanded. *)
Definition init_field (r : CronTab * bool) (ctr : nat) : CronTab * bool :=
  let '(s, failed) := r in
  let '(s, ok) := expandParameter ctr (nth ctr mins 0) (nth ctr maxs 0) (set_range ctr [] s) in
  (s, failed || negb ok).
Definition init (s : CronTab) : CronTab :=
  let '(s, failed) := foldl init_field (set_valid false (set_lastRunTime CRONTAB_INVALID s), false) (seq 0 5) in
  if (failed : bool) then s else set_valid true s.
Definition new_CronTab (params : list text) : CronTab :=
  init (mk_CronTab [] false CRONTAB_INVALID params (replicate 5 [])).

(** *** Days *)

(** The days of one day of the week, from [day] on in steps of a week. *)
Fixpoint week_loop (n : nat) (day : Z) (curRange : list Z) : list Z :=
  match n with
  | O => curRange
  | S n' =>
      week_loop n' (day + 7)
        (if (0 <? day) && negb (contains curRange day) then curRange ++ [day] else curRange)
  end.
(** How often a step of a week stays within the days of a month. *)
Definition weeks (day : Z) : nat := Z.to_nat ((CRONTAB_DAY_OF_MONTH_MAX - day) / 7 + 1).

Definition dom_range (rs : list (list Z)) (month year : Z) : list Z :=
  let dom := nth CRONTAB_DOM_IDX rs [] in
  let dow := nth CRONTAB_DOW_IDX rs [] in
  let curRange :=
    if Z.of_nat (length dom) =? CRONTAB_DAY_OF_MONTH_MAX then
      if (Z.of_nat (length dow) =? CRONTAB_DAY_OF_WEEK_MAX) || Nat.eqb (length dow) 0 then dom
      else replicate 31 0
    else dom in
  let firstDay := dayOfWeek month 1 year in
  sort (foldl (fun curRange d => let day := d - firstDay + 1 in week_loop (weeks day) day curRange) curRange dow).

(** *** The search *)
Section search.
Variable rs : list (list Z).
Variable curTime : list Z.

(** The loop over the values of a field; [rec] is the search in the next field. *)
Section range.
Variable rec : list Z -> bool -> option (list Z * bool).
Variable attribute_idx : nat.
Variable useFirst : bool.
Fixpoint range_loop (curRange : list Z) (nextUseFirst : bool) (match_ : list Z) : option (list Z * bool) :=
  match curRange with
  | [] => Some (match_, false)
  | value :: curRange' =>
      let cur := nth attribute_idx curTime 0 in
      if useFirst || (cur <=? value) then
        let nextUseFirst := if cur <? value then true else nextUseFirst in
        if Nat.eqb attribute_idx CRONTAB_DOM_IDX
           && (daysInMonth (nth CRONTAB_MONTHS_IDX match_ 0) (nth CRONTAB_YEARS_IDX match_ 0) <? value)
        then range_loop curRange' nextUseFirst match_
        else
          let match_ := <[attribute_idx := value]> match_ in
          if Nat.eqb attribute_idx CRONTAB_MINUTES_IDX then Some (match_, true)
          else
            '(match_, ret) ← rec match_ nextUseFirst;
            if (ret : bool) then Some (match_, true) else range_loop curRange' true match_
      else range_loop curRange' nextUseFirst match_
  end.
End range.

Fixpoint matchFields (n : nat) (match_ : list Z) (attribute_idx : nat) (useFirst : bool) : option (list Z * bool) :=
  match n with
  | O => None
  | S n' =>
      let match_ := <[attribute_idx := -1]> match_ in
      let curRange :=
        if Nat.eqb attribute_idx CRONTAB_DOM_IDX
        then dom_range rs (nth CRONTAB_MONTHS_IDX match_ 0) (nth CRONTAB_YEARS_IDX match_ 0)
        else nth attribute_idx rs [] in
      '(match_, ret) ← range_loop (fun m u => matchFields n' m (attribute_idx - 1) u)
                         attribute_idx useFirst curRange useFirst match_;
      if negb ret && Nat.eqb attribute_idx CRONTAB_MONTHS_IDX then
        matchFields n' (<[CRONTAB_YEARS_IDX := nth CRONTAB_YEARS_IDX match_ 0 + 1]> match_) attribute_idx true
      else Some (match_, ret)
  end.
End search.

Section zone.
Variable local : Zone.

(** The fields of a time, and the time of the fields that were found. *)
Definition fields (t : tm) : list Z := [tm_min t; tm_hour t; tm_mday t; tm_mon t; tm_wday t].
Definition first_match (t : tm) : list Z := [0; 0; 0; 0; -1; tm_year t].
Definition match_time (m : list Z) : tm :=
  mk_tm (nth CRONTAB_MINUTES_IDX m 0) (nth CRONTAB_HOURS_IDX m 0) (nth CRONTAB_DOM_IDX m 0)
        (nth CRONTAB_MONTHS_IDX m 0) (nth CRONTAB_YEARS_IDX m 0) 0.

(** [nextRunTime]; [now] is what [time (0)] returns. *)
Definition round_up (timestamp : Z) : Z := timestamp + (60 - Z.rem timestamp 60).
Definition nextRunTime (n : nat) (now timestamp : Z) (use_localtime : bool) (s : CronTab) : Res CronTab Z :=
  if negb (valid s) then Ret CRONTAB_INVALID (set_lastRunTime CRONTAB_INVALID s)
  else
    let timestamp := round_up timestamp in
    let zone := if use_localtime then local else UTC in
    let t := @breakdown zone timestamp in
    match matchFields (ranges s) (fields t) n (first_match t) CRONTAB_MONTHS_IDX false with
    | None => NoFuel
    | Some (m, true) =>
        let runtime := @to_time zone (match_time m) in
        let runtime := if runtime <? timestamp then now + 120 else runtime in
        Ret runtime (set_lastRunTime runtime s)
    | Some (_, false) => Except
    end.
End zone.

(** ** ClassAds *)
Section ad.
Variable oldSemantics : bool.
Variable functionTable : string -> option ClassAdFunc.
Variable n : nat.
Abbreviation LookupString := (fun ad name => EvaluateAttrString oldSemantics functionTable n ad name).

(** The constructor: a missing attribute is the wildcard. *)
Fixpoint lookup_parameters (ad : adref) (attrs : list string) : M (list text) :=
  match attrs with
  | [] => rret []
  | attr :: attrs' =>
      let! o := LookupString ad attr in
      let! rest := lookup_parameters ad attrs' in
      rret (match o with Some s => txt s | None => CRONTAB_WILDCARD end :: rest)
  end.
Definition CronTab_of_ad (ad : adref) : M CronTab :=
  let! params := lookup_parameters ad attributes in rret (new_CronTab params).

Fixpoint validate_loop (ad : adref) (attrs : list string) (ret : bool) (error : text) : M (bool * text) :=
  match attrs with
  | [] => rret (ret, error)
  | attr :: attrs' =>
      let! o := LookupString ad attr in
      match o with
      | Some buffer =>
          let '(ok, curError) := validateParameter (c_text (txt buffer)) attr [] in
          if (ok : bool) then validate_loop ad attrs' ret error
          else validate_loop ad attrs' false (error ++ curError)
      | None => validate_loop ad attrs' ret error
      end
  end.
Definition validate (ad : adref) (error : text) : M (bool * text) := validate_loop ad attributes true error.
End ad.

(** [needsCronTab]: the ClassAd has one of the attributes. *)
Fixpoint needs_loop (h : heap) (ad : adref) (attrs : list string) : option bool :=
  match attrs with
  | [] => Some false
  | attr :: attrs' => o ← Lookup h ad attr; if present o then Some true else needs_loop h ad attrs'
  end.
Definition needsCronTab (h : heap) (ad : adref) : option bool := needs_loop h ad attributes.
