(* ===== verification/CronTabFacts.v ===== *)
(** * Facts about schedules: the days of a month, and the search for the least match *)
From Stdlib Require Import ZArith Lia Ascii String.
From stdpp Require Import base list sorting gmap strings.
From S2P Require Import Prelude Double Numerals Tree Values Lexer FlatMap AdStore Eval Unparser ArgList Calendar CronTab.

Notation ordered := (StronglySorted Z.lt).

(** ** Lists of values *)
Lemma contains_elem l v : contains l v = true <-> v ∈ l.
Proof.
  unfold contains. rewrite existsb_exists. setoid_rewrite Z.eqb_eq. setoid_rewrite <- list_elem_of_In. naive_solver.
Qed.
Lemma contains_not_elem l v : contains l v = false <-> v ∉ l.
Proof. rewrite <- contains_elem. destruct (contains l v); naive_solver. Qed.

Lemma sort_elem l v : v ∈ sort l <-> v ∈ l.
Proof. unfold sort. by rewrite (merge_sort_Permutation Z.le l). Qed.
Lemma sort_length l : length (sort l) = length l.
Proof. unfold sort. by rewrite (merge_sort_Permutation Z.le l). Qed.

(** What is sorted and holds nothing twice is strictly sorted. *)
Lemma sorted_ordered l : StronglySorted Z.le l -> NoDup l -> ordered l.
Proof.
  induction 1 as [|v l Hl IH Hv]; intros Hd; [constructor|].
  apply NoDup_cons in Hd as [Hni Hd]. constructor; [auto|].
  rewrite Forall_forall in Hv |- *. intros w Hw. specialize (Hv w Hw).
  destruct (Z.eq_dec v w) as [->|]; [done|lia].
Qed.
Lemma sort_ordered l : NoDup l -> ordered (sort l).
Proof.
  intros Hd. apply sorted_ordered; [apply (StronglySorted_merge_sort Z.le)|].
  unfold sort. by rewrite (merge_sort_Permutation Z.le l).
Qed.
Lemma ordered_head v l w : ordered (v :: l) -> w ∈ l -> v < w.
Proof. intros H Hw. inv H. rewrite Forall_forall in *. eauto. Qed.
Lemma ordered_tail v l : ordered (v :: l) -> ordered l.
Proof. intros H. by inv H. Qed.
Lemma ordered_NoDup l : ordered l -> NoDup l.
Proof.
  induction 1 as [|v l Hl IH Hv]; constructor; [|done]. rewrite Forall_forall in Hv.
  intros Hin. specialize (Hv v Hin). lia.
Qed.

(** ** Days *)
Lemma dayOfWeek_step month year d : 1970 <= year -> 1 <= month <= 12 -> 1 <= d ->
  dayOfWeek month d year = (dayOfWeek month 1 year + (d - 1)) mod 7.
Proof.
  intros Hy Hm Hd. rewrite !dayOfWeek_formula by lia. unfold days_of. Z.to_euclidean_division_equations. lia.
Qed.
Lemma dayOfWeek_bounds month year d : 1970 <= year -> 1 <= month <= 12 -> 1 <= d -> 0 <= dayOfWeek month d year < 7.
Proof. intros. rewrite dayOfWeek_formula by done. apply Z.mod_pos_bound. lia. Qed.

(** Each step of a week adds one day, if it is one. *)
Lemma week_loop_elem n : forall day l d,
  d ∈ week_loop n day l <-> d ∈ l \/ 0 < d /\ exists k, 0 <= k < Z.of_nat n /\ d = day + 7 * k.
Proof.
  induction n as [|n IH]; intros day l d; cbn [week_loop]; [split; [by left|intros [?|(_&k&?&_)]; [done|lia]]|].
  rewrite IH. assert (Hin : d ∈ (if (0 <? day) && negb (contains l day) then l ++ [day] else l) <->
    d ∈ l \/ 0 < d /\ d = day).
  { destruct (0 <? day) eqn:E1; simpl; [|split; [by left|intros [?|[? ->]]; [done|lia]]].
    destruct (contains l day) eqn:E2; simpl.
    - apply contains_elem in E2. split; [by left|intros [?|[_ ->]]; done].
    - rewrite elem_of_app, list_elem_of_singleton. split; [intros [?| ->]; [by left|right; lia]|intros [?|[_ ->]]; auto]. }
  rewrite Hin. split.
  - intros [[H|[H ->]]|(H&k&Hk&->)]; [by left|right|right].
    + split; [done|]. exists 0. lia.
    + split; [done|]. exists (k + 1). lia.
  - intros [H|(H&k&Hk&->)]; [by left; left|]. destruct (Z.eq_dec k 0) as [->|Hne]; [left; right; lia|].
    right. split; [done|]. exists (k - 1). lia.
Qed.
Lemma week_loop_NoDup n : forall day l, NoDup l -> NoDup (week_loop n day l).
Proof.
  induction n as [|n IH]; intros day l Hl; cbn [week_loop]; [done|]. apply IH.
  destruct (0 <? day); simpl; [|done]. destruct (contains l day) eqn:E; simpl; [done|].
  apply contains_not_elem in E. apply NoDup_app. split; [done|]. split; [|apply NoDup_singleton].
  intros v Hv ->%list_elem_of_singleton. done.
Qed.

(** The day of the week of a day of the month tells which step of a week reaches it. *)
Lemma weeks_reach dow first d : 0 <= first < 7 -> 0 <= dow < 7 -> 1 <= d ->
  (exists k, 0 <= k < Z.of_nat (weeks (dow - first + 1)) /\ d = dow - first + 1 + 7 * k) <->
  d <= 31 /\ dow = (first + (d - 1)) mod 7.
Proof.
  intros Hf Hdow Hd. unfold weeks, CRONTAB_DAY_OF_MONTH_MAX. split.
  - intros (k&Hk&->). split; [|]; Z.to_euclidean_division_equations; lia.
  - intros (Hle&E). exists ((first + (d - 1)) / 7). split; Z.to_euclidean_division_equations; lia.
Qed.
Lemma weeks_elem dows first l d : 0 <= first < 7 -> Forall (fun w => 0 <= w < 7) dows -> 1 <= d ->
  d ∈ foldl (fun cur w => let day := w - first + 1 in week_loop (weeks day) day cur) l dows <->
  d ∈ l \/ d <= 31 /\ (first + (d - 1)) mod 7 ∈ dows.
Proof.
  intros Hf Hdows Hd. revert l. induction Hdows as [|w dows Hw Hdows IH]; intros l; simpl.
  - rewrite elem_of_nil. naive_solver.
  - rewrite IH, week_loop_elem, weeks_reach, elem_of_cons by done. intuition lia.
Qed.
Lemma weeks_positive dows first l d :
  d ∈ foldl (fun cur w => let day := w - first + 1 in week_loop (weeks day) day cur) l dows -> d ∈ l \/ 0 < d.
Proof.
  revert l. induction dows as [|w dows IH]; intros l; simpl; [by left|]. intros [H|H]%IH; [|by right].
  apply week_loop_elem in H as [H|[H _]]; auto.
Qed.
Lemma weeks_NoDup dows first l : NoDup l ->
  NoDup (foldl (fun cur w => let day := w - first + 1 in week_loop (weeks day) day cur) l dows).
Proof. revert l. induction dows as [|w dows IH]; intros l Hl; simpl; [done|]. apply IH. by apply week_loop_NoDup. Qed.

(** ** Schedules whose days are what they say

    The fields are sorted and within the bounds of the fields, as [init] leaves them; and
    the day of the month is not the wildcard beside a day of the week that is none. *)
Record ranges_ok (rs : list (list Z)) : Prop := {
  ok_ordered : forall i, ordered (nth i rs []);
  ok_minutes : Forall (fun v => 0 <= v <= 59) (nth CRONTAB_MINUTES_IDX rs []);
  ok_hours : Forall (fun v => 0 <= v <= 23) (nth CRONTAB_HOURS_IDX rs []);
  ok_dom : Forall (fun v => 1 <= v <= 31) (nth CRONTAB_DOM_IDX rs []);
  ok_months : Forall (fun v => 1 <= v <= 12) (nth CRONTAB_MONTHS_IDX rs []);
  ok_dow : Forall (fun v => 0 <= v < 7) (nth CRONTAB_DOW_IDX rs [])
}.
(** The case in which the days of the month are not those of the field. *)
Definition weekdays_only (rs : list (list Z)) : bool :=
  (Z.of_nat (length (nth CRONTAB_DOM_IDX rs [])) =? CRONTAB_DAY_OF_MONTH_MAX)
  && negb ((Z.of_nat (length (nth CRONTAB_DOW_IDX rs [])) =? CRONTAB_DAY_OF_WEEK_MAX)
           || Nat.eqb (length (nth CRONTAB_DOW_IDX rs [])) 0).

Section days.
Context (rs : list (list Z)) (Hrs : ranges_ok rs) (Hcase : weekdays_only rs = false).

Lemma dom_range_unfold month year :
  dom_range rs month year =
    sort (foldl (fun cur w => let day := w - dayOfWeek month 1 year + 1 in week_loop (weeks day) day cur)
                (nth CRONTAB_DOM_IDX rs []) (nth CRONTAB_DOW_IDX rs [])).
Proof using Hcase.
  unfold dom_range. unfold weekdays_only in Hcase. case_match; [|done]. simpl in Hcase.
  apply negb_false_iff in Hcase. by rewrite Hcase.
Qed.
(** A day is allowed if one of the two fields has it. *)
Lemma dom_range_elem month year d : 1970 <= year -> 1 <= month <= 12 -> 1 <= d <= 31 ->
  d ∈ dom_range rs month year <->
  d ∈ nth CRONTAB_DOM_IDX rs [] \/ dayOfWeek month d year ∈ nth CRONTAB_DOW_IDX rs [].
Proof using Hrs Hcase.
  intros Hy Hm Hd. rewrite dom_range_unfold, sort_elem, weeks_elem; [|apply dayOfWeek_bounds; lia|apply Hrs|lia].
  rewrite (dayOfWeek_step month year d) by lia. intuition lia.
Qed.
Lemma dom_range_positive month year d : d ∈ dom_range rs month year -> 1 <= d.
Proof using Hrs Hcase.
  rewrite dom_range_unfold, sort_elem. intros [H|H]%weeks_positive; [|lia].
  pose proof (ok_dom _ Hrs) as Hf. rewrite Forall_forall in Hf. specialize (Hf d H). lia.
Qed.
Lemma dom_range_ordered month year : ordered (dom_range rs month year).
Proof using Hrs Hcase.
  rewrite dom_range_unfold. apply sort_ordered, weeks_NoDup, ordered_NoDup, (ok_ordered _ Hrs).
Qed.
End days.

(** ** The search

    The times the search goes through are arrays of fields, ordered by the fields below a
    level, the greatest field first. *)
Definition get (m : list Z) (i : nat) : Z := nth i m 0.
Lemma get_set_eq m i v : (i < length m)%nat -> get (<[i := v]> m) i = v.
Proof. intros H. unfold get. apply nth_lookup_Some. by rewrite list_lookup_insert_eq. Qed.
Lemma get_set_ne m i j v : i <> j -> get (<[i := v]> m) j = get m j.
Proof. intros H. unfold get. rewrite !nth_lookup. by rewrite list_lookup_insert_ne. Qed.

Fixpoint before (k : nat) (a b : list Z) : Prop :=
  match k with
  | O => False
  | S k' => get a k' < get b k' \/ get a k' = get b k' /\ before k' a b
  end.
(** The same from level [k] on. *)
Definition agree (k : nat) (a b : list Z) : Prop := forall j, (k <= j)%nat -> get a j = get b j.
Lemma agree_refl k a : agree k a a.
Proof. by intros j. Qed.
Lemma agree_trans k a b c : agree k a b -> agree k b c -> agree k a c.
Proof. intros H1 H2 j Hj. rewrite H1, H2; done. Qed.
Lemma agree_weaken k a b : agree k a b -> agree (S k) a b.
Proof. intros H j Hj. apply H. lia. Qed.
Lemma agree_sym k a b : agree k a b -> agree k b a.
Proof. intros H j Hj. symmetry. by apply H. Qed.
Lemma agree_set i m v : agree (S i) m (<[i := v]> m).
Proof. intros j Hj. rewrite get_set_ne by lia. done. Qed.
(** With the same value at a level, the level below agrees too. *)
Lemma agree_strengthen i m x v : (i < length m)%nat -> agree (S i) m x -> get x i = v -> agree i (<[i := v]> m) x.
Proof.
  intros Hi Ha <- j Hj. destruct (decide (j = i)) as [->|Hne]; [by apply get_set_eq|].
  rewrite get_set_ne by lia. apply Ha. lia.
Qed.

Section search.
Context (rs : list (list Z)) (curTime : list Z).

Definition level_range (i : nat) (m : list Z) : list Z :=
  if Nat.eqb i CRONTAB_DOM_IDX then dom_range rs (get m CRONTAB_MONTHS_IDX) (get m CRONTAB_YEARS_IDX) else nth i rs [].
(** The value exists: a day is one of its month. *)
Definition exists_day (i : nat) (m : list Z) (v : Z) : Prop :=
  i = CRONTAB_DOM_IDX -> v <= daysInMonth (get m CRONTAB_MONTHS_IDX) (get m CRONTAB_YEARS_IDX).
Definition ok_field (i : nat) (m : list Z) : Prop := get m i ∈ level_range i m /\ exists_day i m (get m i).
Definition ok_below (k : nat) (m : list Z) : Prop := forall i, (i < k)%nat -> ok_field i m.
(** The search starts at the current time, or at the first values. *)
Definition from (k : nat) (useFirst : bool) (m : list Z) : Prop := useFirst = true \/ ~ before k m curTime.

(** What the search of the fields below [k] returns: the least match, or there is none. *)
Definition search_spec (k : nat) (u : bool) (m : list Z) (r : option (list Z * bool)) : Prop :=
  exists m' b, r = Some (m', b) /\ length m' = 6%nat /\ agree k m m' /\
    if (b : bool)
    then ok_below k m' /\ from k u m' /\ forall x, agree k m x -> ok_below k x -> from k u x -> ~ before k x m'
    else forall x, agree k m x -> ok_below k x -> ~ from k u x.
Definition level_spec (k : nat) (f : list Z -> bool -> option (list Z * bool)) : Prop :=
  forall m u, length m = 6%nat -> search_spec k u m (f m u).

Lemma level_range_agree i m m' : agree (S i) m m' -> level_range i m = level_range i m'.
Proof. intros H. unfold level_range. destruct (Nat.eqb_spec i CRONTAB_DOM_IDX) as [->|]; [|done]. by rewrite !H by (unfold CRONTAB_DOM_IDX, CRONTAB_MONTHS_IDX, CRONTAB_YEARS_IDX; lia). Qed.
Lemma exists_day_agree i m m' v : agree (S i) m m' -> exists_day i m v -> exists_day i m' v.
Proof. intros H He Hi. specialize (He Hi). subst i. by rewrite <- !H by (unfold CRONTAB_DOM_IDX, CRONTAB_MONTHS_IDX, CRONTAB_YEARS_IDX; lia). Qed.
Lemma ok_below_S i m : ok_below (S i) m <-> ok_field i m /\ ok_below i m.
Proof.
  split; [intros H; split; [apply H; lia|intros j Hj; apply H; lia]|].
  intros [Hi H] j Hj. destruct (decide (j = i)) as [->|]; [done|apply H; lia].
Qed.
Lemma from_true k m : from k true m.
Proof. by left. Qed.
Lemma from_gt i u m : get curTime i < get m i -> from (S i) u m.
Proof. intros H. right. cbn [before]. lia. Qed.
Lemma from_eq i u m : get m i = get curTime i -> from i u m <-> from (S i) u m.
Proof. intros H. unfold from. cbn [before]. split; intros [?|Hn]; auto; right; intuition lia. Qed.

(** What is left to do for the rest of a list of values. *)
Definition loop_spec (i : nat) (u : bool) (l : list Z) (m : list Z) (r : option (list Z * bool)) : Prop :=
  exists m' b, r = Some (m', b) /\ length m' = 6%nat /\ agree (S i) m m' /\
    if (b : bool)
    then get m' i ∈ l /\ exists_day i m' (get m' i) /\ ok_below i m' /\ from (S i) u m' /\
         forall x, agree (S i) m x -> get x i ∈ l -> exists_day i x (get x i) -> ok_below i x -> from (S i) u x ->
           ~ before (S i) x m'
    else forall x, agree (S i) m x -> get x i ∈ l -> exists_day i x (get x i) -> ok_below i x -> ~ from (S i) u x.

(** A value that none of the times asked for has can be passed over. *)
Lemma loop_spec_skip i u v l m r :
  (forall x, agree (S i) m x -> get x i = v -> exists_day i x v -> ok_below i x -> ~ from (S i) u x) ->
  loop_spec i u l m r -> loop_spec i u (v :: l) m r.
Proof.
  intros Hskip (m'&b&E&Hlen&Ha&Hb). exists m', b. split_and!; [done..|]. destruct b.
  - destruct Hb as (H1&H2&H3&H4&Hmin). split_and!; [by right|done..|].
    intros x Hx [Ev|Hin]%elem_of_cons He Ho Hf; [|by apply Hmin].
    exfalso. rewrite Ev in He. by apply (Hskip x).
  - intros x Hx [Ev|Hin]%elem_of_cons He Ho Hf; [|by eapply Hb].
    rewrite Ev in He. by apply (Hskip x).
Qed.
Lemma loop_spec_agree i u l m1 m r : agree (S i) m m1 -> loop_spec i u l m1 r -> loop_spec i u l m r.
Proof.
  intros H (m'&b&E&Hlen&Ha&Hb). exists m', b. split_and!; [done..|by eapply agree_trans|].
  destruct b.
  - destruct Hb as (H1&H2&H3&H4&Hmin). split_and!; try done.
    intros x Hx. apply Hmin. eapply agree_trans; [apply agree_sym|]; done.
  - intros x Hx. apply Hb. eapply agree_trans; [apply agree_sym|]; done.
Qed.
(** The first value with a match below gives the least one. *)
Lemma loop_spec_found i u nu v l m m' : length m = 6%nat -> (i < 6)%nat -> ordered (v :: l) ->
  (nu = true -> u = true \/ get curTime i < v) -> (nu = false -> u = false /\ get curTime i = v) ->
  exists_day i m v -> length m' = 6%nat ->
  agree i (<[i := v]> m) m' -> ok_below i m' -> from i nu m' ->
  (forall x, agree i (<[i := v]> m) x -> ok_below i x -> from i nu x -> ~ before i x m') ->
  loop_spec i u (v :: l) m (Some (m', true)).
Proof.
  intros Hlen Hi Hord Hnu1 Hnu2 Hday Hlen' Ha Hok Hfrom Hmin.
  assert (Hv : get m' i = v) by (rewrite <- Ha by lia; apply get_set_eq; lia).
  assert (Ham : agree (S i) m m') by (eapply agree_trans; [apply agree_set|by apply agree_weaken]).
  assert (Hlift : forall x, get x i = v -> from (S i) u x <-> from i nu x).
  { intros x Hx. destruct nu.
    - split; [intros _; apply from_true|intros _]. destruct (Hnu1 eq_refl) as [->|]; [apply from_true|].
      apply from_gt. lia.
    - destruct (Hnu2 eq_refl) as [-> E]. symmetry. apply from_eq. lia. }
  exists m', true. split_and!; [done..| | |done| |].
  - rewrite Hv. by left.
  - rewrite Hv. by eapply exists_day_agree.
  - by apply Hlift.
  - intros x Hx Hin He Ho Hf. cbn [before]. rewrite Hv. apply elem_of_cons in Hin as [Ev|Hin].
    + intros [?|[_ Hb]]; [lia|]. eapply Hmin; [|done|by apply Hlift|done]. by apply agree_strengthen; [lia|..].
    + pose proof (ordered_head _ _ _ Hord Hin). lia.
Qed.

Lemma range_loop_spec rec i u :
  (i < 6)%nat -> (i <> CRONTAB_MINUTES_IDX -> level_spec i rec) ->
  forall l nu m, length m = 6%nat -> ordered l ->
    (nu = true -> u = true \/ forall v, v ∈ l -> get curTime i < v) -> (nu = false -> u = false) ->
    loop_spec i u l m (range_loop curTime rec i u l nu m).
Proof.
  intros Hi Hrec. induction l as [|v l IH]; intros nu m Hlen Hord Hnu1 Hnu2; cbn [range_loop].
  { exists m, false. split_and!; [done..|apply agree_refl|]. intros x _ H%elem_of_nil. done. }
  fold (get curTime i).
  assert (IHnu : loop_spec i u l m (range_loop curTime rec i u l nu m)).
  { apply IH; [done|by eapply ordered_tail| |done]. intros H. destruct (Hnu1 H); [by left|right]. intros w Hw.
    apply H0. by right. }
  destruct (u || (get curTime i <=? v)) eqn:Ego; [|].
  2: { apply orb_false_iff in Ego as [-> Hlt]. apply loop_spec_skip; [|done].
       intros x _ Hx _ _ [?|Hn]; [done|]. apply Hn. cbn [before]. lia. }
  set (nu' := if get curTime i <? v then true else nu).
  assert (Hu : u = true \/ get curTime i <= v) by (destruct u; [by left|right; simpl in Ego; lia]).
  assert (Hnu1' : nu' = true -> u = true \/ get curTime i < v).
  { unfold nu'. case_match; intros E; [right; lia|]. destruct (Hnu1 E) as [?|H']; [by left|right; apply H'; by left]. }
  assert (Hnu2' : nu' = false -> u = false /\ get curTime i = v).
  { unfold nu'. case_match; [done|]. intros E. split; [auto|]. rewrite (Hnu2 E) in Hu. destruct Hu; [done|lia]. }
  assert (Hrest : forall w, w ∈ l -> u = true \/ get curTime i < w).
  { intros w Hw. pose proof (ordered_head _ _ _ Hord Hw). destruct Hu; [by left|right; lia]. }
  fold (get m CRONTAB_MONTHS_IDX) (get m CRONTAB_YEARS_IDX). destruct (Nat.eqb i CRONTAB_DOM_IDX && _) eqn:Edom.
  { apply andb_true_iff in Edom as [Ei Eday]. apply Nat.eqb_eq in Ei. apply loop_spec_skip.
    - intros x Hx Ev He _ _. apply agree_sym in Hx. pose proof (exists_day_agree _ _ _ _ Hx He Ei). lia.
    - apply IH; [done|by eapply ordered_tail| |intros E; by apply Hnu2'].
      intros E. destruct (Hnu1' E) as [?|Hlt]; [by left|right]. intros w Hw. pose proof (ordered_head _ _ _ Hord Hw). lia. }
  assert (Hday : exists_day i m v).
  { intros E. rewrite E, Nat.eqb_refl in Edom. simpl in Edom. lia. }
  destruct (Nat.eqb_spec i CRONTAB_MINUTES_IDX) as [E0|Hne].
  { subst i. apply (loop_spec_found _ u nu'); try done.
    - by rewrite length_insert.
    - intros j Hj. inv Hj.
    - right. by intros [].
    - intros x _ _ _ []. }
  destruct (Hrec Hne (<[i := v]> m) nu') as (m'&b&E&Hlen'&Ha&Hb); [by rewrite length_insert|].
  rewrite E. destruct b; cbn [mbind option_bind].
  - destruct Hb as (H1&H2&H3). by eapply loop_spec_found.
  - apply loop_spec_skip.
    + intros x Hx Ev He Ho Hf. apply (Hb x); [by apply agree_strengthen; [lia|..]|done|].
      destruct nu' eqn:En; [apply from_true|]. destruct (Hnu2' eq_refl) as [-> Ec]. apply from_eq; [lia|done].
    + eapply loop_spec_agree; [eapply agree_trans; [apply (agree_set i m v)|by apply agree_weaken]|].
      apply IH; [done|by eapply ordered_tail| |done]. intros _. destruct Hu as [->|Hu]; [by left|right].
      intros w Hw. pose proof (ordered_head _ _ _ Hord Hw). lia.
Qed.

(** The whole range of a field. *)
Lemma loop_spec_level i u m r : loop_spec i u (level_range i m) m r -> search_spec (S i) u m r.
Proof.
  intros (m'&b&E&Hlen&Ha&Hb). exists m', b. split_and!; [done..|].
  assert (Hfield : forall x, agree (S i) m x -> ok_below (S i) x ->
    get x i ∈ level_range i m /\ exists_day i x (get x i) /\ ok_below i x).
  { intros x Hx [[H1 H2] H3]%ok_below_S. by rewrite (level_range_agree i m x). }
  destruct b.
  - destruct Hb as (H1&H2&H3&H4&Hmin). split_and!; [|done|].
    + apply ok_below_S. split; [split; [by rewrite <- (level_range_agree i m m')|done]|done].
    + intros x Hx (Hx1&Hx2&Hx3)%Hfield; [|done]. by apply Hmin.
  - intros x Hx (Hx1&Hx2&Hx3)%Hfield; [|done]. by eapply Hb.
Qed.

Section levels.
Context (Hord : forall i m, ordered (level_range i m)).

(** One field: the values of the range, and for the months the next year. *)
Definition next_year (n : nat) (i : nat) (r : list Z * bool) : option (list Z * bool) :=
  let '(m, ret) := r in
  if negb ret && Nat.eqb i CRONTAB_MONTHS_IDX
  then matchFields rs curTime n (<[CRONTAB_YEARS_IDX := get m CRONTAB_YEARS_IDX + 1]> m) i true else Some (m, ret).
Lemma matchFields_unfold n m i u : (i < 6)%nat -> length m = 6%nat ->
  (i <> CRONTAB_MINUTES_IDX -> level_spec i (fun m u => matchFields rs curTime n m (i - 1) u)) ->
  exists r, search_spec (S i) u m (Some r) /\ matchFields rs curTime (S n) m i u = next_year n i r.
Proof using Hord.
  intros Hi Hlen Hrec. cbn [matchFields].
  set (m1 := <[i := -1]> m).
  assert (Hs : search_spec (S i) u m
    (range_loop curTime (fun m u => matchFields rs curTime n m (i - 1) u) i u (level_range i m1) u m1)).
  { rewrite <- (level_range_agree i m m1) by apply agree_set. apply loop_spec_level.
    eapply loop_spec_agree; [apply (agree_set i m (-1))|]. apply range_loop_spec; auto. unfold m1. by rewrite length_insert. }
  change (if Nat.eqb i CRONTAB_DOM_IDX then _ else _) with (level_range i m1).
  destruct Hs as (m'&b&E&Hs). exists (m', b). split; [by exists m', b|]. by rewrite E.
Qed.

Lemma matchFields_level i : (i < CRONTAB_MONTHS_IDX)%nat -> forall n, (i < n)%nat ->
  level_spec (S i) (fun m u => matchFields rs curTime n m i u).
Proof using Hord.
  unfold CRONTAB_MONTHS_IDX. induction i as [|i IH]; intros Hi n Hn m u Hlen; (destruct n as [|n]; [lia|]).
  - edestruct (matchFields_unfold n m 0 u) as ((m'&b)&Hs&->); [lia|done|done|]. unfold next_year. by rewrite andb_false_r.
  - edestruct (matchFields_unfold n m (S i) u) as ((m'&b)&Hs&->); [lia|done| |].
    + intros _. replace (S i - 1)%nat with i by lia. apply IH; lia.
    + unfold next_year. replace (Nat.eqb (S i) CRONTAB_MONTHS_IDX) with false; [by rewrite andb_false_r|].
      symmetry. apply Nat.eqb_neq. unfold CRONTAB_MONTHS_IDX. lia.
Qed.

(** Times of all years. *)
Definition before_year (a b : list Z) : Prop :=
  get a CRONTAB_YEARS_IDX < get b CRONTAB_YEARS_IDX
  \/ get a CRONTAB_YEARS_IDX = get b CRONTAB_YEARS_IDX /\ before 4 a b.
Definition candidate (m : list Z) (u : bool) (x : list Z) : Prop :=
  length x = 6%nat /\ get x CRONTAB_DOW_IDX = get m CRONTAB_DOW_IDX /\ ok_below 4 x /\
  (get m CRONTAB_YEARS_IDX < get x CRONTAB_YEARS_IDX
   \/ get m CRONTAB_YEARS_IDX = get x CRONTAB_YEARS_IDX /\ from 4 u x).
Lemma agree_years m x : length m = 6%nat -> length x = 6%nat -> get x CRONTAB_DOW_IDX = get m CRONTAB_DOW_IDX ->
  get x CRONTAB_YEARS_IDX = get m CRONTAB_YEARS_IDX -> agree 4 m x.
Proof.
  intros Hm Hx H4 H5 j Hj. destruct (decide (j = 4%nat)) as [->|]; [done|]. destruct (decide (j = 5%nat)) as [->|]; [done|].
  unfold get. rewrite !nth_overflow by lia. done.
Qed.

(** The search of the years ends at the first that has a match, with the least of its matches. *)
Lemma matchFields_years n : forall m u x, length m = 6%nat -> candidate m u x ->
  (Z.to_nat (get x CRONTAB_YEARS_IDX - get m CRONTAB_YEARS_IDX) + 4 <= n)%nat ->
  exists m', matchFields rs curTime n m CRONTAB_MONTHS_IDX u = Some (m', true) /\ candidate m u m' /\
    forall y, candidate m u y -> ~ before_year y m'.
Proof using Hord.
  induction n as [|n IH]; intros m u x Hlen Hx Hn; [lia|].
  destruct (matchFields_unfold n m CRONTAB_MONTHS_IDX u) as ((m'&b)&(m''&b'&[= <- <-]&Hlen'&Ha&Hb)&->);
    [unfold CRONTAB_MONTHS_IDX; lia|done|intros _; apply matchFields_level; unfold CRONTAB_MONTHS_IDX; lia|].
  unfold next_year. change (S CRONTAB_MONTHS_IDX) with 4%nat in *. destruct b; simpl.
  - exists m'. destruct Hb as (H1&H2&Hmin). split; [done|].
    assert (Hy : get m' CRONTAB_YEARS_IDX = get m CRONTAB_YEARS_IDX) by (symmetry; apply Ha; unfold CRONTAB_YEARS_IDX; lia).
    assert (Hd : get m' CRONTAB_DOW_IDX = get m CRONTAB_DOW_IDX) by (symmetry; apply Ha; unfold CRONTAB_DOW_IDX; lia).
    split; [by split_and!; [..|right]|].
    intros y (Hy1&Hy2&Hy3&Hy4) [Hlt|[He Hlt]]; destruct Hy4 as [|[Hy4 Hf]]; try lia.
    apply (Hmin y); [by apply agree_years|done..].
  - set (m1 := <[CRONTAB_YEARS_IDX := _]> m').
    assert (Hy : get m1 CRONTAB_YEARS_IDX = get m CRONTAB_YEARS_IDX + 1).
    { unfold m1. rewrite get_set_eq by (unfold CRONTAB_YEARS_IDX; lia). f_equal. symmetry. apply Ha. unfold CRONTAB_YEARS_IDX. lia. }
    assert (Hd : get m1 CRONTAB_DOW_IDX = get m CRONTAB_DOW_IDX).
    { unfold m1. rewrite get_set_ne by (unfold CRONTAB_YEARS_IDX, CRONTAB_DOW_IDX; lia). symmetry. apply Ha. unfold CRONTAB_DOW_IDX. lia. }
    assert (Hnext : forall y, candidate m u y <-> candidate m1 true y).
    { intros y. unfold candidate. rewrite Hy, Hd. split; intros (Hy1&Hy2&Hy3&Hy4); split_and!; try done.
      - destruct Hy4 as [Hlt|[He Hf]].
        + destruct (decide (get y CRONTAB_YEARS_IDX = get m CRONTAB_YEARS_IDX + 1)) as [E|Hne]; [right|left; lia].
          split; [done|apply from_true].
        + exfalso. apply (Hb y); [by apply agree_years|done..].
      - left. destruct Hy4 as [?|[? _]]; lia. }
    destruct (IH m1 true x) as (z&E&Hz&Hmin); [by unfold m1; rewrite length_insert|by apply Hnext| |].
    + rewrite Hy. apply Hnext in Hx as (_&_&_&Hx). rewrite Hy in Hx. destruct Hx as [?|[? _]]; lia.
    + exists z. split; [done|]. split; [by apply Hnext|]. intros y Hcy. apply Hmin. by apply Hnext.
Qed.
End levels.
End search.
