(* ===== verification/CronTabLaws.v ===== *)
(** * Laws of schedules: what the fields hold, and that the next run time is the least match *)
From Stdlib Require Import ZArith Lia Ascii String.
From stdpp Require Import base list sorting gmap strings.
From S2P Require Import Prelude Double Numerals Tree Values Lexer FlatMap AdStore Eval Unparser ArgList Calendar CronTab CronTabFacts.

(** ** The values of a field *)

(** Sunday is 0 and 7. *)
Definition weekday (i : nat) (v : Z) : Z :=
  if Nat.eqb i CRONTAB_DOW_IDX && (v =? CRONTAB_DAY_OF_WEEK_MAX) then CRONTAB_DAY_OF_WEEK_MIN else v.
(** A token stands for a value: one within its bounds that the step divides. *)
Definition denotes (i : nat) (min max : Z) (token : text) (v : Z) : Prop :=
  exists lo hi step ctr, token_range i min max token = Values lo hi step /\
    lo <= ctr <= hi /\ v = weekday i ctr /\ Z.rem v step = 0.

Lemma add_value_elem i step l ctr v :
  v ∈ add_value i step l ctr <-> v ∈ l \/ v = weekday i ctr /\ Z.rem v step = 0.
Proof.
  unfold add_value. fold (weekday i ctr). destruct (Z.rem _ _ =? 0) eqn:Er; simpl; [|split; [by left|intros [?|[-> ?]]; [done|lia]]].
  destruct (contains l (weekday i ctr)) eqn:Ec; simpl.
  - apply contains_elem in Ec. split; [by left|intros [?|[-> _]]; done].
  - rewrite elem_of_app, list_elem_of_singleton. split; [intros [?| ->]; [by left|right; lia]|intros [?|[-> _]]; auto].
Qed.
Lemma add_value_NoDup i step l ctr : NoDup l -> NoDup (add_value i step l ctr).
Proof.
  intros Hl. unfold add_value. destruct (Z.rem _ _ =? 0); simpl; [|done].
  destruct (contains l _) eqn:Ec; simpl; [done|]. apply contains_not_elem in Ec.
  apply NoDup_app. split; [done|]. split; [|apply NoDup_singleton]. by intros v Hv ->%list_elem_of_singleton.
Qed.
Lemma fill_elem i lo hi step l v :
  v ∈ fill i lo hi step l <-> v ∈ l \/ exists ctr, lo <= ctr <= hi /\ v = weekday i ctr /\ Z.rem v step = 0.
Proof.
  unfold fill. assert (H : forall vs l, v ∈ foldl (add_value i step) l vs <->
    v ∈ l \/ exists ctr, ctr ∈ vs /\ v = weekday i ctr /\ Z.rem v step = 0).
  { induction vs as [|c vs IH]; intros l0; simpl.
    - split; [by left|]. intros [?|(?&H%elem_of_nil&_)]; done.
    - rewrite IH, add_value_elem. setoid_rewrite elem_of_cons. naive_solver. }
  rewrite H. setoid_rewrite elem_of_seqZ. split; (intros [?|(c&Hc&?)]; [by left|right; exists c; split; [lia|done]]).
Qed.
Lemma fill_NoDup i lo hi step l : NoDup l -> NoDup (fill i lo hi step l).
Proof.
  unfold fill. generalize (seqZ lo (hi - lo + 1)) as vs. intros vs. revert l.
  induction vs as [|c vs IH]; intros l Hl; simpl; [done|]. apply IH. by apply add_value_NoDup.
Qed.

Lemma expand_tokens_spec i min max toks : forall l l', expand_tokens i min max toks l = (true, l') ->
  (NoDup l -> NoDup l') /\ forall v, v ∈ l' <-> v ∈ l \/ exists token, token ∈ toks /\ denotes i min max token v.
Proof.
  induction toks as [|token toks IH]; intros l l'; cbn [expand_tokens].
  { intros [= ->]. split; [done|]. intros v. setoid_rewrite elem_of_nil. naive_solver. }
  setoid_rewrite elem_of_cons. destruct (token_range i min max token) as [| |lo hi step] eqn:E; [done| |].
  - intros [Hd Hv]%IH. split; [done|]. intros v. rewrite Hv. split; [naive_solver|].
    intros [?|(t&[->|Ht]&Hden)]; [by left| |right; eauto]. destruct Hden as (?&?&?&?&Hden&_). congruence.
  - intros [Hd Hv]%IH. split; [intros Hl; by apply Hd, fill_NoDup|]. intros v. rewrite Hv, fill_elem.
    assert (Hden : denotes i min max token v <-> exists ctr, lo <= ctr <= hi /\ v = weekday i ctr /\ Z.rem v step = 0).
    { unfold denotes. rewrite E. split; [intros (?&?&?&?&[= <- <- <-]&?); eauto|intros (c&?); eauto 6]. }
    rewrite <- Hden. naive_solver.
Qed.

(** Whatever the text is, the values are within the bounds of the field. *)
Lemma token_range_bounds i min max token lo hi step : min <= max ->
  token_range i min max token = Values lo hi step -> min <= lo /\ hi <= max.
Proof.
  intros Hm. unfold token_range. destruct (split_at "/" token) as [t st].
  destruct (present st && _); [done|]. destruct (split_at "-" t) as [low [high|]].
  - intros [= <- <- <-]. repeat case_match; lia.
  - destruct (existsb _ _); [destruct (Nat.eqb _ _); [done|]; intros [= <- <- <-]; lia|].
    destruct ((min <=? atoi t) && _) eqn:E; intros [= <- <- <-]; lia.
Qed.
Lemma denotes_bounds i min max token v : min <= max -> denotes i min max token v ->
  if Nat.eqb i CRONTAB_DOW_IDX then (min <= v <= max /\ v <> 7) \/ v = 0 else min <= v <= max.
Proof.
  intros Hm (lo&hi&step&ctr&E&Hc&->&_). pose proof (token_range_bounds _ _ _ _ _ _ _ Hm E).
  unfold weekday, CRONTAB_DAY_OF_WEEK_MAX, CRONTAB_DAY_OF_WEEK_MIN.
  destruct (Nat.eqb i CRONTAB_DOW_IDX); simpl; [|lia]. destruct (Z.eqb_spec ctr 7); [by right|left; lia].
Qed.

(** ** [init] *)

(** What a field's text is expanded to, if it is. *)
Definition expanded (i : nat) (param : text) : option (list Z) :=
  if negb (validateParameter (c_text param) (nth i attributes ""%string) []).1 then None
  else match expand_tokens i (nth i mins 0) (nth i maxs 0) (tokens "," (c_text (remove_spaces param))) [] with
       | (true, l) => if negb (Nat.eqb i CRONTAB_DOW_IDX) && Nat.eqb (length l) 0 then None else Some (sort l)
       | (false, _) => None
       end.

Lemma nth_insert_eq {A} (l : list A) i v d : (i < length l)%nat -> nth i (<[i := v]> l) d = v.
Proof. intros H. apply nth_lookup_Some. by rewrite list_lookup_insert_eq. Qed.
Lemma nth_insert_ne {A} (l : list A) i j v d : i <> j -> nth j (<[i := v]> l) d = nth j l d.
Proof. intros H. rewrite !nth_lookup. by rewrite list_lookup_insert_ne. Qed.

Lemma init_field_spec s failed i : (i < length (ranges s))%nat ->
  match expanded i (nth i (parameters s) []) with
  | Some l => exists s', init_field (s, failed) i = (s', failed) /\ ranges s' = <[i := l]> (ranges s) /\
                forall j, j <> i -> nth j (parameters s') [] = nth j (parameters s) []
  | None => exists s', init_field (s, failed) i = (s', true)
  end.
Proof.
  intros Hi. unfold expanded, init_field, expandParameter. simpl.
  destruct (validateParameter _ _ _) as [ok error]. destruct ok; simpl; [|rewrite orb_true_r; eauto].
  rewrite nth_insert_eq by done. destruct (expand_tokens _ _ _ _ []) as [ok l]. destruct ok; simpl; [|rewrite orb_true_r; eauto].
  rewrite sort_length. destruct (negb (Nat.eqb i CRONTAB_DOW_IDX) && _); simpl; [rewrite orb_true_r; eauto|].
  rewrite orb_false_r. eexists. split; [done|]. simpl. split; [by rewrite !list_insert_insert_eq|].
  intros j Hj. by rewrite nth_insert_ne.
Qed.
(** Fields are not expanded twice: each has the values of its own text. *)
Lemma init_fields_failed idxs : forall s, (foldl init_field (s, true) idxs).2 = true.
Proof.
  induction idxs as [|i idxs IH]; intros s; simpl; [done|].
  destruct (expandParameter _ _ _ _) as [s' ok]. simpl. apply IH.
Qed.
Lemma init_fields_spec idxs : forall s s', NoDup idxs -> Forall (fun i => (i < length (ranges s))%nat) idxs ->
  foldl init_field (s, false) idxs = (s', false) ->
  length (ranges s') = length (ranges s) /\
  forall i, if decide (i ∈ idxs) then expanded i (nth i (parameters s) []) = Some (nth i (ranges s') [])
            else nth i (ranges s') [] = nth i (ranges s) [].
Proof.
  induction idxs as [|i idxs IH]; intros s s' Hd Hf.
  { intros [= <-]. split; [done|]. intros i. by rewrite decide_False by apply not_elem_of_nil. }
  apply NoDup_cons in Hd as [Hni Hd]. apply Forall_cons in Hf as [Hi Hf].
  pose proof (init_field_spec s false i Hi) as Hs. cbn [foldl]. destruct (expanded i _) as [l|] eqn:El.
  2: { destruct Hs as (s1&->). intros H. pose proof (init_fields_failed idxs s1) as H2. rewrite H in H2. done. }
  destruct Hs as (s1&->&Hr&Hp). intros H. destruct (IH s1 s' Hd) as [Hlen Hall]; [|done|].
  { rewrite Hr. by setoid_rewrite length_insert. }
  split; [by rewrite Hlen, Hr, length_insert|]. intros j. specialize (Hall j).
  destruct (decide (j ∈ idxs)) as [Hj|Hj].
  - rewrite decide_True by (by right). rewrite <- Hp by (intros ->; done). done.
  - destruct (decide (j = i)) as [->|Hne].
    + rewrite decide_True by left. rewrite Hall, Hr, nth_insert_eq by done. done.
    + rewrite decide_False by (by apply not_elem_of_cons). by rewrite Hall, Hr, nth_insert_ne.
Qed.

Lemma init_fields_valid idxs : forall s f, valid s = false -> valid (foldl init_field (s, f) idxs).1 = false.
Proof.
  induction idxs as [|i idxs IH]; intros s f Hs; simpl; [done|].
  destruct (expandParameter i _ _ _) as [s' ok] eqn:Ex. simpl. apply IH. revert Ex. unfold expandParameter.
  repeat case_match; intros [= <- _]; done.
Qed.

(** A schedule that is valid has each field expanded. *)
Lemma new_CronTab_expanded params : valid (new_CronTab params) = true ->
  length (ranges (new_CronTab params)) = 5%nat /\
  forall i, (i < 5)%nat -> expanded i (nth i params []) = Some (nth i (ranges (new_CronTab params)) []).
Proof.
  unfold new_CronTab, init.
  match goal with |- context [foldl init_field (?s0, false) ?idxs] => pose proof (init_fields_valid idxs s0 false eq_refl) as Hno end.
  destruct (foldl _ _ _) as [s' failed] eqn:E. destruct failed; [simpl in Hno; congruence|]. intros _.
  apply init_fields_spec in E as [Hlen H]; [|apply NoDup_seq|apply Forall_seq; simpl; lia]. split; [done|].
  intros i Hi. specialize (H i). rewrite decide_True in H by (apply elem_of_seq; lia). done.
Qed.

Lemma expanded_spec i param l : expanded i param = Some l ->
  ordered l /\ (Nat.eqb i CRONTAB_DOW_IDX = false -> l <> []) /\
  forall v, v ∈ l <-> exists token, token ∈ tokens "," (c_text (remove_spaces param)) /\
                        denotes i (nth i mins 0) (nth i maxs 0) token v.
Proof.
  unfold expanded. destruct (negb _); [done|]. destruct (expand_tokens _ _ _ _ []) as [[] l0] eqn:E; [|done].
  apply expand_tokens_spec in E as [Hd Hv]. destruct (negb _ && _) eqn:En; intros [= <-]. split_and!.
  - apply sort_ordered, Hd, NoDup_nil_2.
  - intros Hi. rewrite Hi in En. simpl in En. intros Hs. apply (f_equal length) in Hs. rewrite sort_length in Hs.
    by rewrite Hs in En.
  - intros v. rewrite sort_elem, Hv, elem_of_nil. naive_solver.
Qed.

Lemma new_CronTab_ranges_ok params : valid (new_CronTab params) = true -> ranges_ok (ranges (new_CronTab params)).
Proof.
  intros [Hlen Hex]%new_CronTab_expanded.
  assert (Hi : forall i, (i < 5)%nat -> ordered (nth i (ranges (new_CronTab params)) []) /\
    forall v, v ∈ nth i (ranges (new_CronTab params)) [] ->
      if Nat.eqb i CRONTAB_DOW_IDX then (nth i mins 0 <= v <= nth i maxs 0 /\ v <> 7) \/ v = 0
      else nth i mins 0 <= v <= nth i maxs 0).
  { intros i Hi. destruct (expanded_spec _ _ _ (Hex i Hi)) as (Ho&_&He). split; [done|].
    intros v (token&_&Hd)%He. eapply denotes_bounds; [|done]. destruct i as [|[|[|[|[|i]]]]]; simpl; lia. }
  split; [intros i; destruct (decide (i < 5)%nat); [by apply Hi|rewrite nth_overflow by lia; constructor]|..];
    apply Forall_forall; intros v Hin.
  - by apply (Hi 0%nat ltac:(lia)) in Hin.
  - by apply (Hi 1%nat ltac:(lia)) in Hin.
  - by apply (Hi 2%nat ltac:(lia)) in Hin.
  - by apply (Hi 3%nat ltac:(lia)) in Hin.
  - apply (Hi 4%nat ltac:(lia)) in Hin. simpl in Hin. lia.
Qed.

(** the values of a field of a schedule that is valid are the values its tokens stand for,
    each once and in increasing order, whatever order and however often the text has them. *)
Theorem field_values params i v : valid (new_CronTab params) = true -> (i < 5)%nat ->
  StronglySorted Z.lt (nth i (ranges (new_CronTab params)) []) /\
  (v ∈ nth i (ranges (new_CronTab params)) [] <->
   exists token, token ∈ tokens "," (c_text (remove_spaces (nth i params []))) /\
     denotes i (nth i mins 0) (nth i maxs 0) token v).
Proof.
  intros [_ Hex]%new_CronTab_expanded Hi. destruct (expanded_spec _ _ _ (Hex i Hi)) as (Ho&_&He). done.
Qed.
Definition sample_params : list text := [txt "*/20"; txt "8-10,22"; txt "1"; txt "*"; txt "7,5"].
Lemma field_values_witness :
  valid (new_CronTab sample_params) = true /\ 0 ∈ nth 4 (ranges (new_CronTab sample_params)) [].
Proof.
  split; [vm_compute; reflexivity|].
  apply (field_values sample_params 4 0); [vm_compute; reflexivity|lia|].
  exists (txt "7"). split; [left|]. exists 7, 7, 1, 7. vm_compute. intuition congruence.
Defined.

(** ** Times *)
Lemma tm_fields_trichotomy a b :
  lex_lt (tm_fields a) (tm_fields b) \/ tm_fields a = tm_fields b \/ lex_lt (tm_fields b) (tm_fields a).
Proof.
  unfold tm_fields. simpl.
  destruct (Z.lt_trichotomy (tm_year a) (tm_year b)) as [?|[->|?]]; [tauto| |tauto].
  destruct (Z.lt_trichotomy (tm_mon a) (tm_mon b)) as [?|[->|?]]; [tauto| |tauto].
  destruct (Z.lt_trichotomy (tm_mday a) (tm_mday b)) as [?|[->|?]]; [tauto| |tauto].
  destruct (Z.lt_trichotomy (tm_hour a) (tm_hour b)) as [?|[->|?]]; [tauto| |tauto].
  destruct (Z.lt_trichotomy (tm_min a) (tm_min b)) as [?|[->|?]]; tauto.
Qed.

(** The order of times is the order of their fields. *)
Section zone_order.
Context {zone : Zone} {HZ : ZoneLaws zone}.
Lemma to_time_le a b : valid_tm a -> valid_tm b -> ~ lex_lt (tm_fields b) (tm_fields a) -> to_time a <= to_time b.
Proof using HZ.
  intros Ha Hb Hn. destruct (tm_fields_trichotomy a b) as [Hlt|[E|Hlt]]; [|by rewrite (to_time_fields a b E)|done].
  apply Z.lt_le_incl. by apply to_time_monotone.
Qed.
Lemma to_time_lt a b : valid_tm a -> valid_tm b -> to_time a < to_time b -> lex_lt (tm_fields a) (tm_fields b).
Proof using HZ.
  intros Ha Hb Hlt. destruct (tm_fields_trichotomy a b) as [?|[E|Hgt]]; [done| |].
  - rewrite (to_time_fields a b E) in Hlt. lia.
  - pose proof (to_time_monotone b a Hb Ha Hgt). lia.
Qed.
Lemma breakdown_to_time a : valid_tm a -> tm_fields (breakdown (to_time a)) = tm_fields a.
Proof using HZ.
  intros Ha. destruct (to_time_minute a Ha) as [Ht H60].
  pose proof (to_time_breakdown _ Ht H60) as E. pose proof (breakdown_valid _ Ht) as Hb.
  destruct (tm_fields_trichotomy (breakdown (to_time a)) a) as [Hlt|[?|Hlt]]; [|done|].
  - pose proof (to_time_monotone _ _ Hb Ha Hlt). lia.
  - pose proof (to_time_monotone _ _ Ha Hb Hlt). lia.
Qed.
Lemma breakdown_lt t t' : 0 <= t -> 0 <= t' -> t mod 60 = 0 -> t' mod 60 = 0 ->
  lex_lt (tm_fields (breakdown t)) (tm_fields (breakdown t')) <-> t < t'.
Proof using HZ.
  intros Ht Ht' H H'. pose proof (breakdown_valid _ Ht) as Hb. pose proof (breakdown_valid _ Ht') as Hb'. split; intros Hlt.
  - pose proof (to_time_monotone _ _ Hb Hb' Hlt) as H1. by rewrite !to_time_breakdown in H1.
  - apply to_time_lt; [done..|]. by rewrite !to_time_breakdown.
Qed.
End zone_order.

(** A time a schedule allows: one of the minutes its fields have. *)
Definition day_matches (rs : list (list Z)) (month mday year : Z) : Prop :=
  mday ∈ nth CRONTAB_DOM_IDX rs [] \/ dayOfWeek month mday year ∈ nth CRONTAB_DOW_IDX rs [].
Definition fields_match (rs : list (list Z)) (b : tm) : Prop :=
  tm_min b ∈ nth CRONTAB_MINUTES_IDX rs [] /\ tm_hour b ∈ nth CRONTAB_HOURS_IDX rs [] /\
  tm_mon b ∈ nth CRONTAB_MONTHS_IDX rs [] /\ day_matches rs (tm_mon b) (tm_mday b) (tm_year b).
Definition matches (zone : Zone) (rs : list (list Z)) (t : Z) : Prop :=
  0 <= t /\ t mod 60 = 0 /\ fields_match rs (breakdown t).

(** The fields of a time as the search has them. *)
Definition fields_of (b : tm) : list Z := [tm_min b; tm_hour b; tm_mday b; tm_mon b; -1; tm_year b].
Lemma fields_of_before a b : before_year (fields_of a) (fields_of b) <-> lex_lt (tm_fields a) (tm_fields b).
Proof. unfold before_year, fields_of, get. simpl. tauto. Qed.

Section schedule.
Context (rs : list (list Z)) (Hrs : ranges_ok rs) (Hcase : weekdays_only rs = false).

Lemma fields_match_ok b : valid_tm b -> fields_match rs b <-> ok_below rs 4 (fields_of b).
Proof using Hrs Hcase.
  intros (Hm1&Hm2&Hm3&Hm4&Hm5).
  assert (Hday : tm_mday b ∈ dom_range rs (tm_mon b) (tm_year b) <-> day_matches rs (tm_mon b) (tm_mday b) (tm_year b)).
  { apply dom_range_elem; [done..|lia|lia|]. pose proof (daysInMonth_bounds (tm_mon b) (tm_year b) Hm3). lia. }
  unfold fields_match. rewrite <- Hday. unfold ok_below. split.
  - intros (H1&H2&H3&H4) i Hi. destruct i as [|[|[|[|i]]]]; [..|lia]; split; try done; intros E; try done. apply Hm4.
  - intros H. destruct (H 0%nat), (H 1%nat), (H 2%nat), (H 3%nat); try lia. done.
Qed.
(** The fields the search returns are a time. *)
Lemma match_time_valid m : length m = 6%nat -> get m CRONTAB_DOW_IDX = -1 -> ok_below rs 4 m ->
  1970 <= get m CRONTAB_YEARS_IDX -> valid_tm (match_time m) /\ fields_of (match_time m) = m.
Proof using Hrs Hcase.
  intros Hlen Hdow Hok Hyear. destruct m as [|a [|b [|c [|d [|e [|f []]]]]]]; try done. unfold get in *. simpl in *.
  split; [|by rewrite Hdow].
  destruct (Hok 0%nat) as [H0 _], (Hok 1%nat) as [H1 _], (Hok 2%nat) as [H2 H2'], (Hok 3%nat) as [H3 _]; try lia.
  specialize (H2' eq_refl). apply (dom_range_positive _ Hrs Hcase) in H2.
  pose proof (ok_minutes _ Hrs) as F0. pose proof (ok_hours _ Hrs) as F1. pose proof (ok_months _ Hrs) as F3.
  rewrite Forall_forall in F0, F1, F3. specialize (F0 _ H0). specialize (F1 _ H1). specialize (F3 _ H3).
  unfold valid_tm, match_time, get in *. simpl in *. lia.
Qed.

(** A time from the start on is one the search goes through. *)
Lemma candidate_time {zone : Zone} {HZ : ZoneLaws zone} start T : 0 <= start -> start mod 60 = 0 ->
  matches zone rs T -> start <= T ->
  candidate rs (fields (breakdown start)) (first_match (breakdown start)) false (fields_of (breakdown T)).
Proof using Hrs Hcase.
  intros Hs Hs60 (H0&H60&Hm) Hle. set (b := breakdown start). apply fields_match_ok in Hm; [|by apply breakdown_valid].
  split_and!; [done..|].
  assert (Hnb : ~ before_year (fields_of (breakdown T)) (fields_of b)).
  { intros Hlt%fields_of_before. apply breakdown_lt in Hlt; [lia|done..]. }
  unfold from.
  change (get (fields_of (breakdown T)) CRONTAB_YEARS_IDX) with (tm_year (breakdown T)).
  change (get (first_match b) CRONTAB_YEARS_IDX) with (tm_year b).
  destruct (Z.lt_trichotomy (tm_year b) (tm_year (breakdown T))) as [?|[E|?]]; [by left| |exfalso; apply Hnb; by left].
  right. split; [done|]. right. intros Hb. apply Hnb. right. split; [by symmetry|exact Hb].
Qed.
(** The search from a time, when there is a time to find. *)
Lemma search_from {zone : Zone} {HZ : ZoneLaws zone} start T n : 0 <= start -> start mod 60 = 0 ->
  matches zone rs T -> start <= T ->
  (Z.to_nat (tm_year (breakdown T) - tm_year (breakdown start)) + 4 <= n)%nat ->
  exists m, matchFields rs (fields (breakdown start)) n (first_match (breakdown start)) CRONTAB_MONTHS_IDX false = Some (m, true) /\
    valid_tm (match_time m) /\ start <= to_time (match_time m) /\ matches zone rs (to_time (match_time m)) /\
    forall T', matches zone rs T' -> start <= T' -> to_time (match_time m) <= T'.
Proof using Hrs Hcase.
  intros Hs Hs60 HT HsT Hn. set (b := breakdown start) in *.
  assert (Hord : forall i m, ordered (level_range rs i m)).
  { intros i m. unfold level_range. case_match; [by apply dom_range_ordered|apply (ok_ordered _ Hrs)]. }
  pose proof (breakdown_valid _ Hs : valid_tm b) as Hb.
  destruct (matchFields_years rs (fields b) Hord n (first_match b) false (fields_of (breakdown T)))
    as (m&E&(Hlen&Hdow&Hok&Hfrom)&Hmin); [done|by apply candidate_time|done|].
  destruct (match_time_valid m) as [Hvalid Hfields]; [done..| |].
  { assert (Hy : tm_year b <= get m CRONTAB_YEARS_IDX); [|destruct Hb as (_&_&_&_&Hb); lia].
    destruct Hfrom as [Hlt|[He _]]; [apply Z.lt_le_incl, Hlt|rewrite <- He; reflexivity]. }
  destruct (to_time_minute _ Hvalid) as [Hr Hr60]. exists m. split_and!; [done..| |split_and!; [done..|]|].
  - rewrite <- (to_time_breakdown start Hs Hs60). apply to_time_le; [done..|]. fold b.
    rewrite <- fields_of_before, Hfields. fold b in Hfrom. intros [Hlt|[Ey Hlt]]; destruct Hfrom as [Hgt|[Ef [?|Hnb]]];
      change (get (fields_of b) CRONTAB_YEARS_IDX) with (tm_year b) in *;
      change (get (first_match b) CRONTAB_YEARS_IDX) with (tm_year b) in *; try lia; try done.
  - assert (Hfm : fields_match rs (match_time m)) by (apply fields_match_ok; [done|by rewrite Hfields]).
    pose proof (breakdown_to_time _ Hvalid) as Hback. unfold tm_fields in Hback. injection Hback as H1 H2 H3 H4 H5.
    unfold fields_match. by rewrite H1, H2, H3, H4, H5.
  - intros T' HT' Hle. pose proof HT' as (H0&H60&_). rewrite <- (to_time_breakdown T') by done.
    apply to_time_le; [done|by apply breakdown_valid|]. rewrite <- fields_of_before, Hfields.
    apply Hmin. by apply candidate_time.
Qed.
End schedule.

(** ** [nextRunTime] *)
Lemma round_up_spec ts : 0 <= ts -> ts < round_up ts <= ts + 60 /\ round_up ts mod 60 = 0.
Proof. intros H. unfold round_up. rewrite Z.rem_mod_nonneg by lia. Z.to_euclidean_division_equations. lia. Qed.

(** C26: for a valid schedule that is not [weekdays_only], the next run time is the first
    minute after the given time that all the fields allow, where a day is allowed if one of
    the two fields for days has it; if there is one it is found, whatever the year it is in
    (if there is none the search may not end: [february_30_diverges]). The zone is one
    without summer time, such as UTC. Left out are the schedules that name some but not all
    days of the week and allow every day of the month (the default): the code takes day zero of a month for
    one of their days ([day_zero_of_the_next_month]), and the last days of a month can
    start the job at once ([last_day_starts_now]). *)
Theorem nextRunTime_least (local : Zone) (params : list text) (now ts T : Z) (use_localtime : bool) :
  let s := new_CronTab params in
  let zone := if use_localtime then local else UTC in
  ZoneLaws zone -> valid s = true -> weekdays_only (ranges s) = false -> 0 <= ts ->
  matches zone (ranges s) T -> ts < T ->
  exists r bound, (forall n, (bound <= n)%nat -> nextRunTime local n now ts use_localtime s = Ret r (set_lastRunTime r s)) /\
    ts < r /\ matches zone (ranges s) r /\ forall T', matches zone (ranges s) T' -> ts < T' -> r <= T'.
Proof.
  intros s zone HZ Hv Hcase Hts HT HtsT. destruct (round_up_spec ts Hts) as [Hru H60].
  pose proof (new_CronTab_ranges_ok params Hv) as Hok.
  assert (Hminute : forall T', matches zone (ranges s) T' -> ts < T' -> round_up ts <= T').
  { intros T' (_&Hm&_) Hlt. clear -Hru H60 Hm Hlt. Z.to_euclidean_division_equations. lia. }
  set (bound := (Z.to_nat (tm_year (breakdown T) - tm_year (breakdown (round_up ts))) + 4)%nat).
  destruct (search_from (ranges s) Hok Hcase (round_up ts) T bound) as (m&_&_&Hge&Hm&Hleast);
    [lia|done|done|by apply Hminute|done|].
  exists (to_time (match_time m)), bound. split_and!; [|lia|done|intros T' HT' Hlt; by apply Hleast; [|apply Hminute]].
  intros n Hn. destruct (search_from (ranges s) Hok Hcase (round_up ts) T n) as (m'&E&_&Hge'&Hm'&Hleast');
    [lia|done|done|by apply Hminute|done|].
  assert (Er : to_time (match_time m') = to_time (match_time m)) by (apply Z.le_antisymm; [by apply Hleast'|by apply Hleast]).
  unfold nextRunTime. fold s zone. rewrite Hv. simpl negb. cbv iota. rewrite E, Er.
  destruct (Z.ltb_spec (to_time (match_time m)) (round_up ts)); [lia|done].
Qed.
Definition new_year : list text := [txt "0"; txt "0"; txt "1"; txt "1"; txt "*"].
Lemma nextRunTime_least_witness : exists r bound,
  (forall n, (bound <= n)%nat ->
    nextRunTime UTC n 0 1700000000 false (new_CronTab new_year) = Ret r (set_lastRunTime r (new_CronTab new_year))) /\
  1700000000 < r /\ matches UTC (ranges (new_CronTab new_year)) r /\
  forall T', matches UTC (ranges (new_CronTab new_year)) T' -> 1700000000 < T' -> r <= T'.
Proof.
  apply (nextRunTime_least UTC new_year 0 1700000000 1704067200 false); [apply UTC_laws|vm_compute; reflexivity..|lia| |lia].
  unfold matches, fields_match, day_matches. rewrite !list_elem_of_In. vm_compute. intuition congruence.
Defined.

(** ** Corners of the code *)

(** Mondays at midnight, from Tuesday 2024-05-28 on: the search goes on to June with the
    zeros beside the Mondays, and day 0 of June is Friday 2024-05-31. *)
Definition mondays : list text := [txt "0"; txt "0"; txt "*"; txt "*"; txt "1"].
Lemma day_zero_of_the_next_month :
  nextRunTime UTC 10 0 1716854400 false (new_CronTab mondays) = Ret 1717113600 (set_lastRunTime 1717113600 (new_CronTab mondays))
  /\ tm_mday (gmtime 1717113600) = 31 /\ tm_wday (gmtime 1717113600) = 5.
Proof. vm_compute. done. Qed.
(** On the last day of a month that is after the last Monday, day 0 is in the past: the job
    is started in two minutes. *)
Lemma last_day_starts_now now :
  nextRunTime UTC 10 now 1714471200 false (new_CronTab mondays) =
  Ret (now + 120) (set_lastRunTime (now + 120) (new_CronTab mondays)).
Proof. vm_compute. reflexivity. Qed.

(** A value that is not within the bounds stands for all that are. *)
Lemma out_of_range_is_wildcard min max token i :
  (split_at "/" token).2 = None -> (split_at "-" (split_at "/" token).1).2 = None ->
  existsb (Ascii.eqb "*") (split_at "/" token).1 = false ->
  atoi (split_at "/" token).1 < min \/ max < atoi (split_at "/" token).1 ->
  token_range i min max token = Values min max 1.
Proof.
  unfold token_range. destruct (split_at "/" token) as [t st]. simpl. intros -> H2 H3 H4. simpl.
  destruct (split_at "-" t) as [low high]. simpl in H2. subst high. rewrite H3.
  destruct ((min <=? atoi t) && (atoi t <=? max)) eqn:E; [lia|done].
Qed.

(** A date that is in no year is looked for in all of them. *)
Definition february_30 : list text := [txt "0"; txt "0"; txt "30"; txt "2"; txt "*"].
Lemma no_february_30 n cur a b c e year u :
  matchFields [[0]; [0]; [30]; [2]; []] cur n [a; b; c; 2; e; year] CRONTAB_DOM_IDX u = None \/
  matchFields [[0]; [0]; [30]; [2]; []] cur n [a; b; c; 2; e; year] CRONTAB_DOM_IDX u = Some ([a; b; -1; 2; e; year], false).
Proof.
  destruct n as [|n]; [by left|right]. cbn -[Z.leb Z.ltb dom_range daysInMonth].
  change (dom_range _ 2 year) with [30]. cbn -[Z.leb Z.ltb daysInMonth].
  assert (Hday : daysInMonth 2 year <? 30 = true) by (unfold daysInMonth; simpl; destruct (is_leap year); done).
  rewrite Hday. destruct (u || _); reflexivity.
Qed.
Lemma search_february_30 n : forall cur a b c d e year u,
  matchFields [[0]; [0]; [30]; [2]; []] cur n [a; b; c; d; e; year] CRONTAB_MONTHS_IDX u = None.
Proof.
  induction n as [|n IH]; intros cur a b c d e year u; [done|].
  cbn -[Z.leb Z.ltb sort daysInMonth]. destruct (u || _); simpl; [|apply IH].
  match goal with |- context [matchFields _ _ n _ 2 ?v] => destruct (no_february_30 n cur a b c e year v) as [E|E] end;
    unfold CRONTAB_DOM_IDX in E; rewrite E; [done|apply IH].
Qed.
Theorem february_30_diverges (local : Zone) n now ts use_localtime :
  valid (new_CronTab february_30) = true /\
  nextRunTime local n now ts use_localtime (new_CronTab february_30) = NoFuel.
Proof.
  split; [reflexivity|]. unfold nextRunTime. change (valid (new_CronTab february_30)) with true. simpl negb. cbv iota.
  change (ranges (new_CronTab february_30)) with [[0]; [0]; [30]; [2]; []]. unfold first_match.
  by rewrite search_february_30.
Qed.
